(* ===== verification/_CoqProject ===== *)
-Q . S2P
Prelude.v
Util.v
Membership.v
MessageBuffer.v
PbftTypes.v
PbftSlot.v
PbftSegmentChkp.v
PbftViewChangeState.v
PbftState.v
Catchup.v
GoodCase.v
ViewChange.v
LeaderSelection.v
IssConfig.v
Orderer.v
NodeInv.v
OrdererProps.v
Agreement.v
ClientProgress.v
ModuleRuns.v
Checkpoint.v
CheckpointProtocol.v
Iss.v
IssProps.v
IssRuns.v
Availability.v
AvailabilityProps.v
BatchDB.v
BatchFetcher.v
IndexedList.v
Mempool.v
EventProcessing.v
Node.v
Crypto.v
Bcb.v
Dsl.v
Factory.v
Timer.v
Replication.v
Net.v
Json.v
StdEvents.v
EventLog.v
AppModule.v
EventMangler.v
TestSim.v
