(* ===== verification/Prelude.v ===== *)
(** * Mir / Trantor: a verification development

    Mir is a framework for distributed protocols: a node runs modules that consume and emit
    events, and moves the events between them.  Trantor, built on it, is a state machine
    replication system.  Clients' transactions enter a mempool; the availability layer makes
    batches of them available and certifies it; the ordering protocol ISS splits the log into
    segments, each ordered by an instance of PBFT led by one of the leaders that a leader
    selection policy chooses, and delivers the ordered certificates; the batch fetcher turns
    them into transactions for the application; at the end of each epoch a checkpoint of the
    application's state is certified.  This development models these protocols and the runtime
    they run on.

    ** Files and the code they model (paths under src/)

    Foundations
    - Prelude (this file): machine integers, byte slices with nil, results of Go calls
      ([outcome]: a value, an error or a panic), the handler monad [M] (state passing, emitted
      events, errors and panics) with its weakest precondition [wp] and the derived [keeps],
      iteration orders of Go maps ([go_range]), shared tactics, hints and lemmas.
    - Util: pkg/util/maputil, pkg/util/sliceutil, pkg/serializing.
    - Membership: pkg/trantor/types (VoteWeight) and pkg/util/membutil; the class
      [QuorumSystem] states what the quorum tests promise to the protocols.
    - MessageBuffer: pkg/messagebuffer.
    - IndexedList: pkg/util/indexedlist, elements and iterators in a store of addresses.
    - ClientProgress: pkg/clientprogress.
    - ModuleRuns: runs of a module ([reach]), in which answers come after the requests.

    The PBFT orderer
    - PbftTypes: the messages (pkg/pb/pbftpb/types), segments (pkg/orderers/common/segment.go),
      configuration (pbftconfig.go), serializations (serialization.go) and the events an orderer
      emits.
    - PbftSlot, PbftSegmentChkp, PbftViewChangeState, PbftState: the files pbftslot.go,
      pbftsegmentchkp.go, pbftviewchangestate.go and common.go of
      pkg/orderers/internal/common, one record and one module each.
    - Catchup, GoodCase, ViewChange: the handlers in pkg/orderers/internal/parts
      (catchup/catchup.go, goodcase/pbftgoodcase.go, viewchange/pbftviewchange.go), one
      definition per function; the closures registered by the Include functions are the
      definitions [Upon...].
    - Orderer: pkg/orderers/orderer.go and factory.go, the permissive validator, the hasher
      (pkg/crypto/hasher.go), the dispatch of an input event to its handler ([apply_input]), and
      [reachable]: the states of one orderer together with all it received and emitted.
    - NodeInv: the invariant of one orderer and its preservation by every handler.
    - OrdererProps: what the invariant gives for one orderer, and runs that show the limits.
    - Agreement: several orderers with an adversary, and agreement between them.

    ISS and checkpointing
    - LeaderSelection: pkg/iss/leaderselectionpolicy.  IssConfig: pkg/iss/config.
    - Checkpoint: stable checkpoints, their serialization and certificates (checkpoint.go,
      certificate.go, serializing.go of pkg/checkpoint) and the validity checkers.
    - CheckpointProtocol: pkg/checkpoint/protocol.go.
    - Iss: pkg/iss (iss.go, epochinfo.go, commitlog.go, moduleconfig.go).
    - IssProps, IssRuns: its invariants and theorems, and concrete runs.

    Transactions
    - Availability, AvailabilityProps: the multisig collector
      (pkg/availability/multisigcollector), its handlers and their theorems.
    - BatchDB: pkg/availability/batchdb/fakebatchdb, and the collector composed with it.
    - Mempool: pkg/mempool/simplemempool, on top of IndexedList.
    - BatchFetcher: pkg/batchfetcher.
    - Replication: ISS and the batch fetcher of two replicas composed.
    - AppModule: pkg/trantor/appmodule, the application logic being a class, and its composition
      with the replicas.

    The runtime and other modules
    - EventProcessing: event lists (stdtypes/eventlist.go) and the sequential and concurrent
      application of events (pkg/modules/eventprocessing.go).
    - Node: node.go, workers.go, eventbuffer.go, workerrornotifier.go, config.go; goroutines
      and channels as a step relation ([internal_step], [external_step]).
    - Dsl: pkg/dsl and pkg/contextstore.
    - Factory: stdmodules/factory, on top of MessageBuffer.
    - Timer: stdmodules/timer, goroutines as tasks that take steps while time passes.
    - Crypto: pkg/crypto/crypto.go, the module part of pkg/crypto/hasher.go and
      pkg/threshcrypto/threshcrypto.go.
    - Bcb: pkg/bcb, Byzantine consistent broadcast.

    Network, serialization and tools
    - Net: the connections and the transport of pkg/net/grpc (remoteconnection.go,
      selfconnection.go, transport.go); a connection's goroutine is a step relation ([rc_step],
      [sc_step]) in which the network decides how dialing and writing end.
    - Json: the JSON and base64 texts of Go's libraries, as far as StdEvents needs them.
    - StdEvents: the standard events with their serialization (stdevents).
    - EventLog: the recorder, the policies for new files, the gzip writer and the reader of
      pkg/eventlog; a writer is an instance of the class [EventWriter].
    - EventMangler: pkg/eventmangler.
    - TestSim: the simulation runtime of pkg/testsim, with the heap of Go's container/heap.

    ** Conventions

    A Go map is a [gmap], an absent entry of a map of pointers is nil; a method that mutates its
    receiver returns the new value, and slots and view change states, which Go reaches through
    pointers in maps, are written back with [upd_slot] and [put_vcstate].  Objects that are
    reached from two places (the items of the batch fetcher's queue, list elements and iterators)
    are in a store under addresses.  Where the code
    ranges over a map and the order can matter, the order is an argument [rng] of type
    [go_range], a permutation chosen anew for every input, and theorems hold for all of them.
    Panics (nil dereference, index out of range) are results of their own, so that "returns" in
    a theorem means exactly that.  Logging is left out.  Emitted events keep what the handlers
    put into them but for the identifiers of the destination modules where these are fixed.

    Parameters, because their code is a library or outside the modelled part: the protobuf size
    of a message ([ProtoSize]: not negative), the hash function ([HashImpl]), the CBOR codec
    ([Cbor]), the protobuf codecs of checkpoints and certificates ([ChkpCodec], [CertCodec]),
    signatures ([Verifier], [Signer]), transaction and batch identifiers ([MempoolIds]), the
    modules, interceptor and handlers that Node, Factory and Dsl run, the logic of the application
    ([AppLogic]), the parsing of network addresses, the protobuf codec of recorded entries and the creation of their
    files, the serialization of application data, and the answers of the other
    modules of a node ([answers] in Orderer, [msc_answers], [bf_answers] and the like: they answer
    requests that were made).
    Messages are arbitrary, as a faulty sender may send anything; in Agreement, the votes
    claimed to come from an honest node were sent by it (authenticated channels).

    ** What the theorems show

    - Quorums (Membership): the thresholds are the documented ones for all weights, two strong
      quorums share a correct node, weights survive printing and parsing; with negative weights,
      which [Valid] accepts, quorums need not intersect.
    - Message buffer: it holds the longest suffix of the stored messages that fits.  Indexed list:
      it refines a list with cursors.  Client progress: it refines a set.
    - PBFT data: primaries rotate over all members; a Preprepare's hash input determines it up
      to the view; the incremental slot checks equal their one-line reference; a segment
      checkpoint's digests were announced by a weak quorum; [LookUpPreprepare] returns the
      latest match; [InitView] carries exactly the committed slots over; timeouts double until
      they overflow.
    - View change: P and Q sets survive the round trip through messages; a value prepared by a
      strong quorum is the only one that can be re-proposed, provided correct nodes preprepared
      nothing else since; the empty Preprepares get their own hashes.
    - One orderer (NodeInv, OrdererProps): deliveries are unique, within the segment, and backed
      by a certificate; votes are unique per view and backed by a prepare certificate.
    - Several orderers (Agreement): agreement within a view with up to f faulty weight.  Across
      views agreement does not hold in the code: a Preprepare in validation while a NewView is
      processed overtakes the re-proposal ([OrdererProps] and [Agreement] give the runs).
    - ISS: what the application gets follows a contract (epochs one by one, certificates without
      gaps, checkpoints in order), certificates delivered were verified, nothing deliverable is
      left waiting, segments partition an epoch, memberships take effect after a fixed number of
      epochs.  Leader selection: the blacklist policy returns a strong quorum with all
      unsuspected nodes.
    - Checkpoints: an announced one verifies everywhere; one accepted by the conservative
      checker was signed by a correct member.
    - Availability: verified certificates were signed by a correct member, which stored the batch;
      the transactions for a certificate are determined by it.  The batch database refines
      its history, and the collector composed with it is the collector over that specification.
    - Mempool: batches respect their limits, repeat nothing within an epoch, and every request
      is answered.  Batch fetcher: the application gets a stream that the order of inputs
      determines, every transaction once.  Composed with ISS (Replication): two replicas whose
      orderers decide alike give their applications the same batches, and deterministic
      applications (AppModule) then have equal states after equally many batches.
    - Runtime: events are delivered exactly once and in order, a node is never stuck, and it shuts
      down after an error; concurrent application equals sequential application; contexts of the
      DSL travel with events; the factory gives every submodule its events in order; the timer
      outputs nothing early.
    - Broadcast: consistency with at most f faulty nodes, under the condition that certificates
      name distinct members, which the code does not check.
    - Network: a connection writes the accepted messages in order and once, over all
      reconnections, and closes within five steps; the state of a transport stays well-formed;
      sending reaches every connection with room.
    - Serialization and recording: standard events survive serialization; the files of a recorder
      that stopped hold exactly the accepted events that pass the filter, and reading them returns these.
    - Simulation: the queue is a heap, time never goes back, a step executes an earliest action.
    - Where the code does not do what it means to, a theorem gives the run (an unchecked view 0, a
      stale validation result, an early signature, repeated signers, delivered transactions
      proposed again, a snapshot whose client progress goes elsewhere, and others).

    The single-orderer and agreement theorems assume that no NewView message for view 0 was
    accepted ([no_view_zero]): accepting one resets the slots of view 0, and the orderer then
    delivers twice (shown in OrdererProps).

    ** Recursion and bounds

    [look_up_from] counts down the view and needs no fuel.  [DTX.collect] has the number of
    stored transactions as fuel and removes one per step; [min_leaders] has the number of
    nodes as fuel, and all of them together are a strong quorum; [deliver_loop] has the size of
    the commit log, and every iteration removes an entry; [remove_from] and [next_while] have
    the number of elements of the list; [advance_first] and [serve_while_full] the number of
    request identifiers given out and not passed yet; [collect_loop], [collect] and [gc_loop]
    the distance of two retention indices; [evict] recurses on the stored messages; the JSON parser
    has twice the length of the text, of which every two calls read a byte; a varint has at most
    ten bytes; the reader of recorded entries has the length of the stream; [up] and [down] have
    the length of the heap, in which they move to another index each time.  The
    theorems on these functions show that they return what the unbounded loop returns.
    Sequence numbers, views and transaction numbers are [N] with the wrap-around of uint64 where
    the code adds to them; Go's int is [Z] with the wrap-around of 64 bits where it is computed
    from a view or a duration.

    ** Not modelled

    What remains either calls libraries or does not compute: gRPC itself with the set-up of the
    server and its statistics (Start, Listen and Stats of pkg/net), the signature and hash
    schemes of pkg/crypto and pkg/threshcrypto, the SQLite writer of pkg/eventlog, logging,
    statistics, clients, the transaction receiver and the file-based rendezvous (I/O around the
    modelled modules), the construction of the modules of a Trantor node (pkg/trantor/system.go)
    and the bootstrap files.  The protobuf code and the types in pkg/pb are generated; the
    records of this development are those types.  Code generation, tools, samples and the test
    deployment are not part of a node. *)
From Stdlib Require Import ZArith Lia.
From stdpp Require Import prelude gmap strings list sorting fin_maps numbers.

(** ** Machine integers

    Go's [uint64] (sequence numbers, views, epochs) is [N] with the wrap-around
    written at the operations that can overflow; Go's [int] (64 bits here) is
    [Z] with [wrap_i64]. *)
Declare Scope go_scope.
Delimit Scope go_scope with go.

Notation uint64 := N (only parsing).
Notation int := Z (only parsing).

Definition u64_max : N := (2 ^ 64)%N.
Definition wrap_u64 (x : N) : N := (x `mod` u64_max)%N.
Definition wrap_i64 (x : Z) : Z := ((x + 2 ^ 63) `mod` 2 ^ 64 - 2 ^ 63)%Z.
(** Conversions [int(x)] of a [uint64] and [uint64(x)] of an [int]. *)
Definition int_of_u64 (x : N) : Z := wrap_i64 (Z.of_N x).
Definition u64_of_int (x : Z) : N := Z.to_N (x `mod` 2 ^ 64)%Z.
(** The increment [x + 1] and decrement [x - 1] on [uint64]. *)
Definition u64_succ (x : N) : N := wrap_u64 (x + 1).
Definition u64_pred (x : N) : N := wrap_u64 (x + (u64_max - 1)).

Infix "+u" := (fun x y => wrap_u64 (x + y)%N) (at level 50, left associativity) : go_scope.

(** ** Byte slices

    A [[]byte] is [None] when it is the nil slice and [Some s] otherwise, [s]
    being its bytes; [contents] is what [string(b)], [bytes.Equal] and [len]
    look at, for which nil and empty are the same. *)
Notation bytes := (option string).
Definition contents (b : bytes) : string := default ""%string b.
Definition bytes_Equal (a b : bytes) : bool := bool_decide (contents a = contents b).
Definition bytes_len (b : bytes) : nat := String.length (contents b).

(** ** Results of a Go call: a value, an error, or a panic *)
Inductive panic := NilDeref | IndexOutOfRange | ExplicitPanic (msg : string).

Inductive outcome (A : Type) :=
| Ok (a : A)
| Err (e : string)
| Panic (p : panic).
Arguments Ok {A} a.
Arguments Err {A} e.
Arguments Panic {A} p.

#[export] Instance outcome_ret : MRet outcome := @Ok.
#[export] Instance outcome_bind : MBind outcome := λ A B f m,
  match m with Ok a => f a | Err e => Err e | Panic p => Panic p end.

Definition is_Ok {A} (o : outcome A) : bool :=
  match o with Ok _ => true | _ => false end.
Definition is_Panic {A} (o : outcome A) : bool :=
  match o with Panic _ => true | _ => false end.

(** Dereferencing a pointer ([None] is nil) and indexing a slice. *)
Definition deref {A} (o : option A) : outcome A :=
  match o with Some a => Ok a | None => Panic NilDeref end.
Definition index {A} (l : list A) (i : Z) : outcome A :=
  if bool_decide (0 ≤ i)%Z then
    match l !! Z.to_nat i with Some a => Ok a | None => Panic IndexOutOfRange end
  else Panic IndexOutOfRange.

(** A loop over a slice whose body may fail. *)
Fixpoint outcome_foldl {A B} (f : B → A → outcome B) (b : B) (l : list A) : outcome B :=
  match l with
  | [] => Ok b
  | a :: l => match f b a with
              | Ok b' => outcome_foldl f b' l
              | Err e => Err e
              | Panic p => Panic p
              end
  end.
Fixpoint outcome_map {A B} (f : A → outcome B) (l : list A) : outcome (list B) :=
  match l with
  | [] => Ok []
  | a :: l => b ← f a; bs ← outcome_map f l; Ok (b :: bs)
  end.

(** ** Handlers

    An event handler of a module reads and updates the module state [S], emits
    events [E] in order, and returns a value, an error or a panic.  After an
    error or a panic the node stops processing events, so the state reached is
    not part of the result. *)
Definition M (S E A : Type) : Type := S → outcome (A * S * list E).

Section handler_monad.
Context {S E : Type}.

#[export] Instance M_ret : MRet (M S E) := λ A a s, Ok (a, s, []).
#[export] Instance M_bind : MBind (M S E) := λ A B k m s,
  match m s with
  | Ok (a, s', es) =>
      match k a s' with
      | Ok (b, s'', es') => Ok (b, s'', es ++ es')
      | Err e => Err e
      | Panic p => Panic p
      end
  | Err e => Err e
  | Panic p => Panic p
  end.

Definition get : M S E S := λ s, Ok (s, s, []).
Definition gets {A} (f : S → A) : M S E A := λ s, Ok (f s, s, []).
Definition modify (f : S → S) : M S E unit := λ s, Ok (tt, f s, []).
Definition emit (e : E) : M S E unit := λ s, Ok (tt, s, [e]).
Definition lift {A} (o : outcome A) : M S E A := λ s,
  match o with Ok a => Ok (a, s, []) | Err e => Err e | Panic p => Panic p end.
Definition skip : M S E unit := mret tt.
Definition when (b : bool) (m : M S E unit) : M S E unit := if b then m else skip.

Fixpoint mfor {A} (l : list A) (f : A → M S E unit) : M S E unit :=
  match l with [] => skip | a :: l => f a ;; mfor l f end.

(** Weakest preconditions over the state and the events emitted so far: whenever the
    command returns, its result, the new state and the extended output satisfy [Q]. *)
Definition wp {A} (m : M S E A) (Q : A → S → list E → Prop) (s : S) (out : list E) : Prop :=
  match m s with Ok (a, s', es) => Q a s' (out ++ es) | _ => True end.

Lemma wp_ret {A} (a : A) Q s out : Q a s out → wp (mret a) Q s out.
Proof. unfold wp. simpl. by rewrite app_nil_r. Qed.
Lemma wp_skip (Q : unit → S → list E → Prop) s out : Q tt s out → wp skip Q s out.
Proof. apply wp_ret. Qed.
Lemma wp_get Q s out : Q s s out → wp get Q s out.
Proof. unfold wp. simpl. by rewrite app_nil_r. Qed.
Lemma wp_modify f (Q : unit → S → list E → Prop) s out : Q tt (f s) out → wp (modify f) Q s out.
Proof. unfold wp. simpl. by rewrite app_nil_r. Qed.
Lemma wp_emit e (Q : unit → S → list E → Prop) s out : Q tt s (out ++ [e]) → wp (emit e) Q s out.
Proof. done. Qed.
Lemma wp_lift {A} (o : outcome A) Q s out :
  (∀ a, o = Ok a → Q a s out) → wp (lift o) Q s out.
Proof. unfold wp, lift. destruct o; [|done..]. rewrite app_nil_r. eauto. Qed.
Lemma wp_bind {A B} (m : M S E A) (k : A → M S E B) Q s out :
  wp m (λ a, wp (k a) Q) s out → wp (m ≫= k) Q s out.
Proof.
  unfold wp, mbind, M_bind. destruct (m s) as [[[a s1] es1]| |]; [|done..].
  destruct (k a s1) as [[[b s2] es2]| |]; [|done..]. by rewrite app_assoc.
Qed.
Lemma wp_mono {A} (m : M S E A) (Q Q' : A → S → list E → Prop) s out :
  wp m Q s out → (∀ a s out, Q a s out → Q' a s out) → wp m Q' s out.
Proof. unfold wp. destruct (m s) as [[[a s1] es1]| |]; [|done..]. eauto. Qed.
Lemma wp_Ok {A} (m : M S E A) Q s out a s' es :
  wp m Q s out → m s = Ok (a, s', es) → Q a s' (out ++ es).
Proof. unfold wp. intros H Hm. by rewrite Hm in H. Qed.

(** A command keeps an invariant when it re-establishes it whenever it returns. *)
Definition keeps {A} (I : S → list E → Prop) (m : M S E A) : Prop :=
  ∀ s out, I s out → wp m (λ _, I) s out.

Lemma keeps_ret {A} I (a : A) : keeps I (mret a).
Proof. intros s out H. by apply wp_ret. Qed.
Lemma keeps_skip I : keeps I skip.
Proof. apply keeps_ret. Qed.
Lemma keeps_get I : keeps I get.
Proof. intros s out H. by apply wp_get. Qed.
Lemma keeps_modify I f : (∀ s out, I s out → I (f s) out) → keeps I (modify f).
Proof. intros Hf s out H. apply wp_modify. auto. Qed.
Lemma keeps_emit I e : (∀ s out, I s out → I s (out ++ [e])) → keeps I (emit e).
Proof. intros He s out H. apply wp_emit. auto. Qed.
Lemma keeps_lift {A} I (o : outcome A) : keeps I (lift o).
Proof. intros s out H. by apply wp_lift. Qed.
Lemma keeps_bind {A B} I (m : M S E A) (k : A → M S E B) :
  keeps I m → (∀ a, keeps I (k a)) → keeps I (m ≫= k).
Proof.
  intros Hm Hk s out H. apply wp_bind. eapply wp_mono; [by apply Hm|]. intros a s' out'. apply Hk.
Qed.
Lemma keeps_when I b (m : M S E unit) : keeps I m → keeps I (when b m).
Proof. destruct b; [done|]. intros _. apply keeps_ret. Qed.
Lemma keeps_for {A} I (l : list A) (f : A → M S E unit) :
  (∀ a, a ∈ l → keeps I (f a)) → keeps I (mfor l f).
Proof.
  induction l as [|a l IH]; intros Hf; [apply keeps_ret|].
  apply keeps_bind; [apply Hf; set_solver|]. intros _. apply IH. set_solver.
Qed.
End handler_monad.

(** ** Map iteration order

    Go leaves the order in which [range] visits a map unspecified.  Where the
    result of a loop depends on it, the model takes the order as an argument: a
    [go_range] rearranges the enumeration of the map at each (numbered) use. *)
Record go_range := GoRange {
  range_order : ∀ {A : Type}, nat → list A → list A;
  range_order_perm : ∀ A i (l : list A), range_order i l ≡ₚ l;
}.

Definition range_id : go_range :=
  {| range_order _ _ l := l; range_order_perm _ _ _ := Permutation_refl _ |}.
Definition range_rev : go_range :=
  {| range_order _ _ l := reverse l; range_order_perm _ _ l := reverse_Permutation l |}.

(** ** Automation *)
Create HintDb go.
#[export] Hint Resolve keeps_ret keeps_skip keeps_get keeps_bind keeps_lift keeps_when : go.

(** Symbolic execution of a command under [wp], one construct at a time; case analysis on
    the conditions of the program, remembering the equation. *)
Ltac wp_step :=
  match goal with
  | |- wp (_ ≫= _) _ _ _ => apply wp_bind
  | |- wp get _ _ _ => apply wp_get
  | |- wp (modify _) _ _ _ => apply wp_modify
  | |- wp (emit _) _ _ _ => apply wp_emit
  | |- wp skip _ _ _ => apply wp_skip
  | |- wp (mret _) _ _ _ => apply wp_ret
  | |- wp (lift _) _ _ _ => apply wp_lift; let Hl := fresh "Hlift" in intros ? Hl
  | |- wp (when ?b _) _ _ _ => unfold when at 1; destruct b eqn:?
  | |- wp (if ?b then _ else _) _ _ _ => destruct b eqn:?
  | |- wp (let '(_, _) := ?x in _) _ _ _ => destruct x eqn:?
  | |- wp (match ?x with Some _ => _ | None => _ end) _ _ _ => destruct x eqn:?
  end.

(** The same for [keeps], leaving the basic commands. *)
Ltac keeps_step :=
  match goal with
  | |- keeps _ (_ ≫= _) => apply keeps_bind; [|intros ?]
  | |- keeps _ get => apply keeps_get
  | |- keeps _ skip => apply keeps_skip
  | |- keeps _ (mret _) => apply keeps_ret
  | |- keeps _ (lift _) => apply keeps_lift
  | |- keeps _ (when _ _) => apply keeps_when
  | |- keeps _ (mfor _ _) => apply keeps_for; intros ? ?
  | |- keeps _ (if ?b then _ else _) => destruct b eqn:?
  | |- keeps _ (match ?x with _ => _ end) => destruct x eqn:?
  end.

(** Case analysis on the scrutinee of the goal or of a hypothesis about an outcome. *)
Ltac outcome_case :=
  match goal with
  | H : context [match ?o with Ok _ => _ | Err _ => _ | Panic _ => _ end] |- _ =>
      destruct o eqn:?; simplify_eq/=
  | |- context [match ?o with Ok _ => _ | Err _ => _ | Panic _ => _ end] =>
      destruct o eqn:?; simplify_eq/=
  end.

Lemma outcome_bind_Ok {A B} (m : outcome A) (f : A → outcome B) b :
  m ≫= f = Ok b → ∃ a, m = Ok a ∧ f a = Ok b.
Proof. destruct m; simpl; naive_solver. Qed.

(** Unfolds the binds of the outcome monad in a hypothesis [_ = Ok _]. *)
Ltac outcome_inv :=
  repeat match goal with
  | H : _ ≫= _ = Ok _ |- _ =>
      let a := fresh "r" in
      let Ha := fresh "Hr" in
      apply outcome_bind_Ok in H as (a & Ha & H); simplify_eq/=
  | H : match ?m with Ok _ => _ | Err _ => _ | Panic _ => _ end = Ok _ |- _ =>
      destruct m eqn:?; simplify_eq/=
  | H : deref ?o = Ok _ |- _ => unfold deref in H; destruct o eqn:?; simplify_eq/=
  end.

(** ** Shared lemmas *)
Section shared.
Lemma wrap_u64_small x : (x < u64_max)%N → wrap_u64 x = x.
Proof. intros. by apply N.mod_small. Qed.

Lemma wrap_u64_lt x : (wrap_u64 x < u64_max)%N.
Proof. apply N.mod_lt. done. Qed.

Lemma wrap_i64_small x : (-(2 ^ 63) ≤ x < 2 ^ 63)%Z → wrap_i64 x = x.
Proof. intros. unfold wrap_i64. rewrite Z.mod_small; lia. Qed.

Lemma wrap_i64_range x : (-(2 ^ 63) ≤ wrap_i64 x < 2 ^ 63)%Z.
Proof.
  unfold wrap_i64. pose proof (Z.mod_pos_bound (x + 2 ^ 63) (2 ^ 64)). lia.
Qed.

Lemma int_of_u64_small x : (x < 2 ^ 63)%N → int_of_u64 x = Z.of_N x.
Proof. intros. unfold int_of_u64. apply wrap_i64_small. lia. Qed.
Lemma int_of_u64_of_int x : (0 ≤ x < 2 ^ 63)%Z → int_of_u64 (u64_of_int x) = x.
Proof.
  intros Hx. unfold u64_of_int. rewrite Z.mod_small by lia. rewrite int_of_u64_small by lia. apply Z2N.id. lia.
Qed.

Lemma bytes_Equal_true a b : bytes_Equal a b = true ↔ contents a = contents b.
Proof. unfold bytes_Equal. by rewrite bool_decide_eq_true. Qed.

Lemma index_lookup {A} (l : list A) i a :
  index l i = Ok a ↔ (0 ≤ i)%Z ∧ l !! Z.to_nat i = Some a.
Proof.
  unfold index. case_bool_decide; [|naive_solver lia].
  destruct (l !! Z.to_nat i) eqn:E; naive_solver.
Qed.

Lemma index_nat {A} (l : list A) (i : nat) a :
  l !! i = Some a → index l (Z.of_nat i) = Ok a.
Proof. intros. apply index_lookup. rewrite Nat2Z.id. split; [lia|done]. Qed.

Lemma outcome_map_length {A B} (f : A → outcome B) l bs :
  outcome_map f l = Ok bs → length bs = length l.
Proof.
  revert bs. induction l as [|a l IH]; intros bs; simpl; [naive_solver|].
  intros ?. outcome_inv. f_equal. eauto.
Qed.

Lemma outcome_map_Ok {A B} (f : A → outcome B) l g :
  (∀ a, a ∈ l → f a = Ok (g a)) → outcome_map f l = Ok (g <$> l).
Proof.
  induction l as [|a l IH]; intros Hf; simpl; [done|].
  rewrite Hf by set_solver. simpl. rewrite IH; [done|set_solver].
Qed.
Lemma filter_length_all {A} (P : A → Prop) `{!∀ x, Decision (P x)} (l : list A) :
  length (filter P l) = length l ↔ Forall P l.
Proof.
  induction l as [|x l IH]; [done|]. rewrite filter_cons, list.Forall_cons.
  pose proof (length_filter P l). destruct (decide (P x)); simpl; [|split; [lia|tauto]].
  split; [intros; split; [done|apply IH; lia]|intros [_ ?%IH]; lia].
Qed.

Lemma length_append s t : String.length (String.append s t) = String.length s + String.length t.
Proof. induction s as [|c s IH]; [done|]. apply (f_equal S), IH. Qed.

Lemma append_assoc s1 s2 s3 :
  String.append (String.append s1 s2) s3 = String.append s1 (String.append s2 s3).
Proof. induction s1 as [|c s1 IH]; [done|]. apply (f_equal (String c)), IH. Qed.
End shared.
