(* ===== verification/Util.v ===== *)
(** * Utility packages: pkg/util/maputil, pkg/util/sliceutil, pkg/serializing

    Maps are [gmap]s; a function that visits a map in an unspecified order works
    on the enumeration [map_to_list], and the lemmas show which results do not
    depend on it. *)
From Stdlib Require Import ZArith Lia.
From stdpp Require Import prelude gmap strings list sorting fin_maps numbers.
From S2P Require Import Prelude.

(** The key types Go orders with [<] ([constraints.Ordered]). *)
Class GoOrdered (K : Type) `{EqDecision K} := {
  go_le : relation K;
  #[global] go_le_dec :: RelDecision go_le;
  #[global] go_le_po :: PartialOrder go_le;
  #[global] go_le_total :: Total go_le;
}.

#[export] Program Instance string_ordered : GoOrdered string := {| go_le := String.le |}.
#[export] Program Instance N_ordered : GoOrdered N := {| go_le := N.le |}.

Module Maputil.
Section maputil.
Context {K V : Type} `{Countable K}.
Implicit Types m : gmap K V.

Definition GetKeys m : list K := (map_to_list m).*1.
Definition GetValues m : list V := (map_to_list m).*2.
Definition GetSortedKeys `{!GoOrdered K} m : list K := merge_sort go_le (GetKeys m).

(** [m[k]] for every key, [None] being the zero value of an absent key. *)
Definition GetValuesOf m (keys : list K) : list (option V) := (λ k, m !! k) <$> keys.

Definition GetKeysAndValues m : list K * list V :=
  foldl (λ '(ks, vs) '(k, v), (ks ++ [k], vs ++ [v])) ([], []) (map_to_list m).

(** The closure's variables are the accumulator [acc]; it returns whether to go on. *)
Fixpoint iterate_keys {Acc} m (f : Acc → K → V → Acc * bool) (acc : Acc)
    (keys : list K) : Acc :=
  match keys with
  | [] => acc
  | k :: keys =>
      match m !! k with
      | Some v => match f acc k v with
                  | (acc', true) => iterate_keys m f acc' keys
                  | (acc', false) => acc'
                  end
      | None => acc
      end
  end.
Definition IterateSorted `{!GoOrdered K} {Acc} m
    (f : Acc → K → V → Acc * bool) (acc : Acc) : Acc :=
  iterate_keys m f acc (GetSortedKeys m).

Definition Copy m : gmap K V := foldl (λ nm '(k, v), <[k:=v]> nm) ∅ (map_to_list m).

Definition FromSlices (keys : list K) (vals : list V) : outcome (gmap K V) :=
  if bool_decide (length keys ≠ length vals) then
    Panic (ExplicitPanic "number of keys and number of values must match")
  else Ok (foldl (λ m '(k, v), <[k:=v]> m) ∅ (zip keys vals)).

(** An arbitrary entry: the first in the iteration order; [None] is the zero value with false. *)
Definition AnyKey (rng : go_range) m : option K := fst <$> head (range_order rng 0 (map_to_list m)).
Definition AnyVal (rng : go_range) m : option V := snd <$> head (range_order rng 0 (map_to_list m)).
(** Of entries that are mapped to the same key, the last in the iteration order stays. *)
Definition Transform {K' V'} `{Countable K'} (rng : go_range) (f : K → V → K' * V') m : gmap K' V' :=
  foldl (λ mo '(k, v), let '(k', v') := f k v in <[k' := v']> mo) ∅ (range_order rng 0 (map_to_list m)).

(** The removed entries and the rest; the predicate may panic. *)
Definition RemoveAll m (f : K → V → outcome bool) : outcome (gmap K V * gmap K V) :=
  outcome_foldl (λ '(removed, m) '(k, v),
    b ← f k v;
    Ok (if b : bool then (<[k := v]> removed, delete k m) else (removed, m))) (∅, m) (map_to_list m).

Lemma GetKeys_NoDup m : NoDup (GetKeys m).
Proof. apply NoDup_fst_map_to_list. Qed.

Lemma elem_of_GetKeys m k : k ∈ GetKeys m ↔ is_Some (m !! k).
Proof.
  unfold GetKeys. rewrite list_elem_of_fmap. split.
  - intros ([k' v] & -> & Hin). apply elem_of_map_to_list in Hin. eauto.
  - intros [v Hv]. exists (k, v). by rewrite elem_of_map_to_list.
Qed.

Lemma length_GetKeys m : length (GetKeys m) = size m.
Proof. unfold GetKeys. rewrite length_fmap. apply length_map_to_list. Qed.

Lemma GetKeys_dom m : list_to_set (GetKeys m) = dom m.
Proof.
  apply set_eq. intros k. rewrite elem_of_list_to_set, elem_of_GetKeys, elem_of_dom. done.
Qed.

Section sorted.
Context `{!GoOrdered K}.

Lemma GetSortedKeys_perm m : GetSortedKeys m ≡ₚ GetKeys m.
Proof. apply merge_sort_Permutation. Qed.

Lemma GetSortedKeys_NoDup m : NoDup (GetSortedKeys m).
Proof. rewrite GetSortedKeys_perm. apply GetKeys_NoDup. Qed.

Lemma elem_of_GetSortedKeys m k : k ∈ GetSortedKeys m ↔ is_Some (m !! k).
Proof. rewrite GetSortedKeys_perm. apply elem_of_GetKeys. Qed.

Lemma length_GetSortedKeys m : length (GetSortedKeys m) = size m.
Proof. rewrite GetSortedKeys_perm. apply length_GetKeys. Qed.

Lemma GetSortedKeys_Sorted m : StronglySorted go_le (GetSortedKeys m).
Proof. apply (StronglySorted_merge_sort go_le). Qed.

(** Whatever the iteration order of the map, sorting gives the same keys. *)
Lemma GetSortedKeys_order m ks : ks ≡ₚ GetKeys m → merge_sort go_le ks = GetSortedKeys m.
Proof.
  intros Hp. apply (StronglySorted_unique go_le); try apply StronglySorted_merge_sort;
    try apply _.
  unfold GetSortedKeys. rewrite (merge_sort_Permutation go_le ks).
  by rewrite (merge_sort_Permutation go_le (GetKeys m)).
Qed.

Lemma GetSortedKeys_dom m1 (m2 : gmap K V) : dom m1 = dom m2 → GetSortedKeys m1 = GetSortedKeys m2.
Proof.
  intros Hd. apply GetSortedKeys_order, NoDup_Permutation; try apply GetKeys_NoDup.
  intros k. rewrite !elem_of_GetKeys, <- !elem_of_dom. by rewrite Hd.
Qed.

(** An [IterateSorted] whose closure never stops visits every entry in key order. *)
Lemma IterateSorted_all {Acc} m (f : Acc → K → V → Acc) acc :
  IterateSorted m (λ a k v, (f a k v, true)) acc =
  foldl (λ a k, match m !! k with Some v => f a k v | None => a end)
        acc (GetSortedKeys m).
Proof.
  unfold IterateSorted.
  assert (Hin : ∀ k, k ∈ GetSortedKeys m → is_Some (m !! k))
    by (intros k; apply elem_of_GetSortedKeys).
  revert acc Hin. generalize (GetSortedKeys m) as l.
  induction l as [|k l IH]; intros acc Hin; simpl; [done|].
  destruct (Hin k) as [v Hv]; [set_solver|]. rewrite Hv. apply IH. set_solver.
Qed.
End sorted.

Lemma GetKeysAndValues_eq m : GetKeysAndValues m = (GetKeys m, GetValues m).
Proof.
  unfold GetKeysAndValues, GetKeys, GetValues.
  assert (∀ (l : list (K * V)) ks vs,
    foldl (λ '(ks, vs) '(k, v), (ks ++ [k], vs ++ [v])) (ks, vs) l
    = (ks ++ l.*1, vs ++ l.*2)) as Hg.
  { induction l as [|[k v] l IH]; intros ks vs; simpl.
    - by rewrite !app_nil_r.
    - rewrite IH, <- !app_assoc. done. }
  by rewrite Hg.
Qed.

(** The documented equation: the values are those of the keys, in their order. *)
Lemma GetKeysAndValues_values m :
  GetValuesOf m (GetKeysAndValues m).1 = Some <$> (GetKeysAndValues m).2.
Proof.
  rewrite GetKeysAndValues_eq. simpl. unfold GetValuesOf, GetKeys, GetValues.
  rewrite <- !list_fmap_compose. apply list_fmap_ext. intros i [k v] Hi. simpl.
  apply elem_of_map_to_list. by eapply list_elem_of_lookup_2.
Qed.

Lemma foldl_insert_lookup (l : list (K * V)) m k :
  NoDup l.*1 →
  foldl (λ nm '(k, v), <[k:=v]> nm) m l !! k =
  match list_to_map (M:=gmap K V) l !! k with Some v => Some v | None => m !! k end.
Proof.
  revert m. induction l as [|[k' v'] l IH]; intros m Hnd; simpl; [done|].
  inversion_clear Hnd as [|?? Hni Hnd']. rewrite IH by done.
  destruct (decide (k' = k)) as [->|Hne].
  - rewrite lookup_insert_eq. rewrite (not_elem_of_list_to_map_1 l k) by done.
    by rewrite lookup_insert_eq.
  - rewrite !lookup_insert_ne by done. done.
Qed.

Lemma foldl_insert_fun (f : K → V) (keys : list K) m k :
  NoDup keys →
  foldl (λ nm '(k, v), <[k:=v]> nm) m ((λ k, (k, f k)) <$> keys) !! k =
  if decide (k ∈ keys) then Some (f k) else m !! k.
Proof.
  intros Hnd. assert (((λ k, (k, f k)) <$> keys).*1 = keys) as Hk.
  { rewrite <- list_fmap_compose. apply list_fmap_id. }
  rewrite foldl_insert_lookup by by rewrite Hk. case_decide.
  - rewrite (elem_of_list_to_map_1 _ k (f k)); [done|by rewrite Hk|].
    apply list_elem_of_fmap. by exists k.
  - by rewrite not_elem_of_list_to_map_1 by by rewrite Hk.
Qed.

Lemma Copy_eq m : Copy m = m.
Proof.
  apply map_eq. intros k. unfold Copy.
  rewrite foldl_insert_lookup by apply NoDup_fst_map_to_list.
  rewrite list_to_map_to_list. rewrite lookup_empty. by destruct (m !! k).
Qed.

Lemma head_range rng m : is_Some (head (range_order rng 0 (map_to_list m))) ↔ m ≠ ∅.
Proof.
  pose proof (range_order_perm rng _ 0 (map_to_list m)) as Hp. rewrite head_is_Some. split.
  - intros Hne ->. rewrite map_to_list_empty in Hp. by apply Hne, Permutation_nil_r.
  - intros Hne He. rewrite He in Hp. symmetry in Hp. by apply Permutation_nil_r, map_to_list_empty_iff in Hp.
Qed.
(** Every non-empty map has a key and a value of one entry. *)
Lemma AnyKey_spec rng m :
  match AnyKey rng m, AnyVal rng m with
  | Some k, Some v => m !! k = Some v
  | None, None => m = ∅
  | _, _ => False
  end.
Proof.
  unfold AnyKey, AnyVal. pose proof (head_range rng m) as Hh. destruct (head (range_order rng 0 (map_to_list m))) as [[k v]|] eqn:He; simpl.
  - apply elem_of_map_to_list. rewrite <- (range_order_perm rng _ 0 (map_to_list m)). by apply head_Some_elem_of.
  - destruct (decide (m = ∅)) as [|Hne]; [done|]. destruct (proj2 Hh Hne) as [? [=]].
Qed.
End maputil.

(** A renaming that keeps the keys apart loses no entry, whatever the iteration order. *)
Lemma Transform_lookup {K V K' V'} `{Countable K, Countable K'} rng (f : K → V → K' * V') (m : gmap K V) k v :
  (∀ k1 v1 k2 v2, m !! k1 = Some v1 → m !! k2 = Some v2 → (f k1 v1).1 = (f k2 v2).1 → k1 = k2) →
  m !! k = Some v → Transform rng f m !! (f k v).1 = Some (f k v).2.
Proof.
  intros Hinj Hk. pose proof (range_order_perm rng _ 0 (map_to_list m)) as Hp. set (g := λ p : K * V, f p.1 p.2).
  assert (Transform rng f m = foldl (λ nm '(k, v), <[k:=v]> nm) ∅ (g <$> range_order rng 0 (map_to_list m))) as ->.
  { unfold Transform. generalize (range_order rng 0 (map_to_list m)). intros l. generalize (∅ : gmap K' V').
    induction l as [|[k1 v1] l IH]; intros m0; [done|]. simpl. by rewrite <- IH. }
  assert (NoDup (g <$> range_order rng 0 (map_to_list m)).*1) as Hnd.
  { rewrite Hp, <- list_fmap_compose. apply NoDup_fmap_2_strong; [|apply NoDup_map_to_list].
    intros [k1 v1] [k2 v2] H1%elem_of_map_to_list H2%elem_of_map_to_list He.
    assert (k1 = k2) as -> by (by eapply Hinj). congruence. }
  rewrite foldl_insert_lookup by done. rewrite (elem_of_list_to_map_1 _ (f k v).1 (f k v).2); [done|done|].
  apply list_elem_of_fmap. exists (k, v). split; [by rewrite <- surjective_pairing|]. rewrite Hp. by apply elem_of_map_to_list.
Qed.
End Maputil.

(** ** pkg/util/sliceutil *)
Module Sliceutil.
Section sliceutil.
Context {T : Type} `{EqDecision T}.

(** [make([]T, n)] panics on a negative length. *)
Definition Repeat (value : T) (n : Z) : outcome (list T) :=
  if bool_decide (n < 0)%Z then Panic (ExplicitPanic "makeslice: len out of range")
  else Ok (replicate (Z.to_nat n) value).

Definition Generate (n : Z) (f : Z → T) : outcome (list T) :=
  if bool_decide (n < 0)%Z then Panic (ExplicitPanic "makeslice: len out of range")
  else Ok ((λ i, f (Z.of_nat i)) <$> seq 0 (Z.to_nat n)).

Definition Transform {R} (ts : list T) (f : nat → T → R) : list R := imap f ts.

Fixpoint Filter_from (i : nat) (ts : list T) (f : nat → T → bool) : list T :=
  match ts with
  | [] => []
  | t :: ts => if f i t then t :: Filter_from (S i) ts f else Filter_from (S i) ts f
  end.
Definition Filter (ts : list T) (f : nat → T → bool) : list T := Filter_from 0 ts f.

Fixpoint Contains (ts : list T) (t : T) : bool :=
  match ts with
  | [] => false
  | v :: ts => if bool_decide (v = t) then true else Contains ts t
  end.

(** The element set is [map[T]struct{}]; only membership in it is used. *)
Fixpoint ContainsAll (ts ts2 : list T) : bool :=
  match ts2 with
  | [] => true
  | t :: ts2 => if Contains ts t then ContainsAll ts ts2 else false
  end.

Definition Any (ts : list T) : option T := head ts.

Fixpoint Equal (s1 s2 : list T) : bool :=
  match s1, s2 with
  | [], [] => true
  | v :: s1, w :: s2 => if bool_decide (v ≠ w) then false else Equal s1 s2
  | _, _ => false
  end.

Lemma Contains_true ts t : Contains ts t = true ↔ t ∈ ts.
Proof.
  induction ts as [|v ts IH]; simpl; [by rewrite elem_of_nil|].
  rewrite elem_of_cons. case_bool_decide; naive_solver.
Qed.

Lemma ContainsAll_true ts ts2 : ContainsAll ts ts2 = true ↔ ts2 ⊆ ts.
Proof.
  induction ts2 as [|t ts2 IH]; simpl; [set_solver|].
  destruct (Contains ts t) eqn:E.
  - apply Contains_true in E. rewrite IH. set_solver.
  - split; [done|]. intros Hs. exfalso.
    assert (Contains ts t = true) by (apply Contains_true; set_solver). congruence.
Qed.

Lemma Equal_true s1 s2 : Equal s1 s2 = true ↔ s1 = s2.
Proof.
  revert s2. induction s1 as [|v s1 IH]; intros [|w s2]; simpl; try done.
  case_bool_decide; [naive_solver|]. rewrite IH. naive_solver.
Qed.

Lemma Filter_from_const i ts (f : T → bool) :
  Filter_from i ts (λ _, f) = filter (λ t, f t = true) ts.
Proof.
  revert i. induction ts as [|t ts IH]; intros i; simpl; [done|].
  rewrite filter_cons. repeat case_decide; destruct (f t); rewrite ?IH; done.
Qed.
End sliceutil.
End Sliceutil.

(** ** pkg/serializing: little-endian encoding of [uint64] *)
Module Serializing.
Fixpoint le_bytes (k : nat) (n : N) : string :=
  match k with
  | O => EmptyString
  | S k => String (Ascii.ascii_of_N (n `mod` 256)) (le_bytes k (n `div` 256))
  end.

Fixpoint le_value (k : nat) (s : string) : outcome N :=
  match k, s with
  | O, _ => Ok 0%N
  | S k, String c s => v ← le_value k s; Ok (Ascii.N_of_ascii c + 256 * v)%N
  | S _, EmptyString => Panic IndexOutOfRange
  end.

Definition Uint64ToBytes (n : N) : bytes := Some (le_bytes 8 n).
Definition Uint64FromBytes (b : bytes) : outcome N := le_value 8 (contents b).

Lemma le_bytes_length k n : String.length (le_bytes k n) = k.
Proof. revert n. induction k; intros n; simpl; auto. Qed.

Lemma le_roundtrip k n rest :
  (n < 256 ^ N.of_nat k)%N → le_value k (String.append (le_bytes k n) rest) = Ok n.
Proof.
  revert n. induction k as [|k IH]; intros n Hn; simpl.
  - change (256 ^ N.of_nat 0)%N with 1%N in Hn. f_equal. lia.
  - rewrite Nat2N.inj_succ, N.pow_succ_r' in Hn.
    rewrite IH by (apply N.Div0.div_lt_upper_bound; lia). simpl.
    rewrite Ascii.N_ascii_embedding by (apply N.mod_lt; done).
    f_equal. rewrite N.add_comm. symmetry. apply N.div_mod'.
Qed.

Lemma le_bytes_inj k n1 n2 :
  (n1 < 256 ^ N.of_nat k)%N → (n2 < 256 ^ N.of_nat k)%N →
  le_bytes k n1 = le_bytes k n2 → n1 = n2.
Proof.
  intros H1 H2 Heq. pose proof (le_roundtrip k n1 "" H1) as E1.
  pose proof (le_roundtrip k n2 "" H2) as E2. rewrite Heq in E1. congruence.
Qed.

Lemma le_value_lt k s v : le_value k s = Ok v → (v < 256 ^ N.of_nat k)%N.
Proof.
  revert s v. induction k as [|k IH]; intros s v; simpl; [naive_solver lia|].
  destruct s as [|c s]; [done|]. intros Hv. outcome_inv.
  rewrite Nat2N.inj_succ, N.pow_succ_r'. specialize (IH _ _ ltac:(done)).
  pose proof (Ascii.N_ascii_bounded c). lia.
Qed.
End Serializing.
