(* ===== verification/Membership.v ===== *)
(** * Memberships and quorums: pkg/util/membutil, VoteWeight of pkg/trantor/types

    Voting weights are decimal strings converted to arbitrary-precision integers
    for every computation.  The functions follow membutil.go, with the panics of
    an unknown node (nil dereference) and of an unparsable weight; the quorum
    lemmas relate them to sums of integers and give the intersection facts the
    protocols rely on, as an interface ([QuorumSystem]). *)
From Stdlib Require Import ZArith Lia Ascii DecimalString DecimalPos DecimalZ.
From stdpp Require Import prelude gmap strings list sorting fin_maps numbers.
From S2P Require Import Prelude Util.
Import Maputil.

Notation NodeID := string (only parsing).

(** ** VoteWeight *)
Module VoteWeight.
(** [big.Int.SetString(s, 10)]: an optional sign and at least one digit. *)
Definition SetString (s : string) : option Z :=
  match s with
  | String "+"%char r => Z.of_uint <$> NilZero.uint_of_string r
  | _ => Z.of_int <$> NilZero.int_of_string s
  end.
(** [big.Int.String()]. *)
Definition big_String (z : Z) : string := NilZero.string_of_int (Z.to_int z).

Definition IsValid (vw : string) : bool :=
  match SetString vw with Some _ => true | None => false end.
Definition BigInt (vw : string) : outcome Z :=
  match SetString vw with
  | Some z => Ok z
  | None => Panic (ExplicitPanic "invalid vote weight representation")
  end.

Lemma to_int_nonnil z : Z.to_int z ≠ Decimal.Pos Decimal.Nil ∧ Z.to_int z ≠ Decimal.Neg Decimal.Nil.
Proof.
  assert (∀ p, Pos.to_uint p ≠ Decimal.Nil) as Hp.
  { intros p Hp. pose proof (DecimalPos.Unsigned.of_to p) as He. rewrite Hp in He. done. }
  destruct z; simpl; split; try congruence; intros [= ?]; by eapply Hp.
Qed.

Lemma string_of_uint_not_plus d r : NilZero.string_of_uint d ≠ String "+"%char r.
Proof. by destruct d. Qed.

Lemma SetString_big_String z : SetString (big_String z) = Some z.
Proof.
  destruct (to_int_nonnil z) as [H1 H2].
  pose proof (NilZero.isi _ H1 H2) as Hi. fold (big_String z) in Hi.
  assert (SetString (big_String z) = Z.of_int <$> NilZero.int_of_string (big_String z)) as ->.
  { unfold SetString, big_String. destruct (Z.to_int z) as [d|d]; simpl; [|done].
    pose proof (string_of_uint_not_plus d).
    destruct (NilZero.string_of_uint d) as [|c r]; [done|].
    destruct (decide (c = "+"%char)) as [->|Hc]; [naive_solver|].
    destruct c as [[] [] [] [] [] [] [] []]; try reflexivity. done. }
  rewrite Hi. simpl. f_equal. apply DecimalZ.of_to.
Qed.

Lemma BigInt_big_String z : BigInt (big_String z) = Ok z.
Proof. unfold BigInt. by rewrite SetString_big_String. Qed.
End VoteWeight.

(** ** The membership *)
Record NodeIdentity := mkNodeIdentity {
  ni_Id : NodeID;
  ni_Addr : string;
  ni_Key : bytes;
  ni_Weight : string;
}.

Record Membership := mkMembership { Nodes : gmap NodeID NodeIdentity }.

Module Membutil.
Import VoteWeight.

Definition WeightOf (mb : Membership) (nodeIDs : list NodeID) : outcome string :=
  sum ← outcome_foldl
          (λ sum onode, node ← deref onode;
                        w ← BigInt (ni_Weight node);
                        Ok (sum + w)%Z)
          0%Z (GetValuesOf (Nodes mb) nodeIDs);
  Ok (big_String sum).

Definition TotalWeight (mb : Membership) : outcome string :=
  WeightOf mb (GetKeys (Nodes mb)).

(** [big.Int.Div] is Euclidean; with a positive divisor it is [Z.div]. *)
Definition maxFaulty (n : Z) : Z := ((n - 1) `div` 3)%Z.

Definition StrongQuorum (mb : Membership) : outcome string :=
  tw ← TotalWeight mb; n ← BigInt tw;
  let f := maxFaulty n in
  Ok (big_String ((n + f) `div` 2 + 1)%Z).

Definition WeakQuorum (mb : Membership) : outcome string :=
  tw ← TotalWeight mb; n ← BigInt tw;
  let f := maxFaulty n in
  Ok (big_String (f + 1)%Z).

Definition HaveStrongQuorum (mb : Membership) (nodeIDs : list NodeID) : outcome bool :=
  ws ← WeightOf mb nodeIDs; w ← BigInt ws;
  qs ← StrongQuorum mb; q ← BigInt qs;
  Ok (negb (w <? q)%Z).

Definition HaveWeakQuorum (mb : Membership) (nodeIDs : list NodeID) : outcome bool :=
  ws ← WeightOf mb nodeIDs; w ← BigInt ws;
  qs ← WeakQuorum mb; q ← BigInt qs;
  Ok (negb (w <? q)%Z).

(** The loop of [Valid] over the nodes, in the enumeration order of the map. *)
Fixpoint valid_nodes (nodes : list (NodeID * NodeIdentity)) : outcome unit :=
  match nodes with
  | [] => Ok tt
  | (nodeID, node) :: nodes =>
      if bool_decide (ni_Id node ≠ nodeID) then
        Err "node ID does not match key under which node is stored"
      else if negb (IsValid (ni_Weight node)) then Err "invalid weight of node"
      else valid_nodes nodes
  end.

Definition Valid (mb : Membership) : outcome unit :=
  if bool_decide (size (Nodes mb) = 0) then Err "membership is empty"
  else
    _ ← valid_nodes (map_to_list (Nodes mb));
    tw ← TotalWeight mb; n ← BigInt tw;
    if bool_decide (n = 0)%Z then Err "zero total weight" else Ok tt.
End Membutil.

(** ** Integer view of the weights *)
Definition node_weight (mb : Membership) (id : NodeID) : Z :=
  match Nodes mb !! id with
  | Some n => default 0%Z (VoteWeight.SetString (ni_Weight n))
  | None => 0%Z
  end.

Definition weight (mb : Membership) (ids : list NodeID) : Z :=
  foldr (λ id acc, (node_weight mb id + acc)%Z) 0%Z ids.

Definition total (mb : Membership) : Z := weight mb (GetKeys (Nodes mb)).
Definition max_f (mb : Membership) : Z := Membutil.maxFaulty (total mb).
Definition strong_q (mb : Membership) : Z := ((total mb + max_f mb) `div` 2 + 1)%Z.
Definition weak_q (mb : Membership) : Z := (max_f mb + 1)%Z.

(** A membership that can be used for voting: parsable, non-negative weights that
    are not all zero. *)
Definition weight_ok (n : NodeIdentity) : bool :=
  match VoteWeight.SetString (ni_Weight n) with Some w => (0 <=? w)%Z | None => false end.

Record voting (mb : Membership) : Prop := {
  voting_ok : map_Forall (λ _ n, weight_ok n = true) (Nodes mb);
  voting_total : (0 < total mb)%Z;
}.

Lemma voting_weights mb id n :
  voting mb → Nodes mb !! id = Some n →
  ∃ w, VoteWeight.SetString (ni_Weight n) = Some w ∧ (0 ≤ w)%Z.
Proof.
  intros [Hok _] Hn. specialize (Hok id n Hn). unfold weight_ok in Hok.
  destruct (VoteWeight.SetString _) as [w|]; [|done]. exists w. split; [done|by apply Z.leb_le].
Qed.

Definition members (mb : Membership) (ids : list NodeID) : Prop :=
  ∀ id, id ∈ ids → is_Some (Nodes mb !! id).

Section weights.
Context (mb : Membership).

Lemma weight_app l1 l2 : weight mb (l1 ++ l2) = (weight mb l1 + weight mb l2)%Z.
Proof. induction l1; simpl; lia. Qed.

#[export] Instance weight_perm : Proper ((≡ₚ) ==> (=)) (weight mb).
Proof. intros l1 l2 Hp. induction Hp; simpl; lia. Qed.

Context (Hv : voting mb).

Lemma node_weight_nonneg id : (0 ≤ node_weight mb id)%Z.
Proof.
  unfold node_weight. destruct (Nodes mb !! id) as [n|] eqn:E; [|lia].
  destruct (voting_weights mb id n Hv E) as (w & -> & ?). done.
Qed.

Lemma weight_nonneg l : (0 ≤ weight mb l)%Z.
Proof. induction l; simpl; [lia|]. pose proof (node_weight_nonneg a). lia. Qed.

Lemma weight_submseteq l1 l2 : l1 ⊆+ l2 → (weight mb l1 ≤ weight mb l2)%Z.
Proof.
  intros [k Hk]%submseteq_Permutation. rewrite Hk, weight_app.
  pose proof (weight_nonneg k). lia.
Qed.

Lemma weight_le_total l : NoDup l → members mb l → (weight mb l ≤ total mb)%Z.
Proof.
  intros Hnd Hm. apply weight_submseteq, NoDup_submseteq; [done|].
  intros id Hid. apply elem_of_GetKeys. auto.
Qed.

Lemma weight_filter (P P' : NodeID → Prop) `{∀ x, Decision (P x), ∀ x, Decision (P' x)} l :
  (∀ x, P' x ↔ ¬ P x) →
  weight mb l = (weight mb (filter P l) + weight mb (filter P' l))%Z.
Proof.
  intros HP. induction l as [|a l IH]; simpl; [done|]. rewrite !filter_cons.
  specialize (HP a). repeat case_decide; simpl; naive_solver lia.
Qed.
End weights.

(** *** The functions of membutil compute these sums *)
Section membutil_spec.
Context (mb : Membership) (Hv : voting mb).
Import VoteWeight Membutil.

Lemma WeightOf_ok ids : members mb ids → WeightOf mb ids = Ok (big_String (weight mb ids)).
Proof.
  intros Hm. unfold WeightOf.
  assert (∀ acc, outcome_foldl
      (λ sum onode, node ← deref onode; w ← BigInt (ni_Weight node); Ok (sum + w)%Z)
      acc (GetValuesOf (Nodes mb) ids) = Ok (acc + weight mb ids)%Z) as Hg.
  { induction ids as [|id ids IH]; intros acc; simpl; [f_equal; lia|].
    destruct (Hm id) as [n Hn]; [set_solver|].
    destruct (voting_weights mb id n Hv Hn) as (w & Hw & ?).
    rewrite Hn. simpl. unfold BigInt. rewrite Hw. simpl.
    rewrite IH by (intros i Hi; apply Hm; set_solver).
    unfold node_weight. rewrite Hn, Hw. simpl. f_equal. lia. }
  by rewrite Hg.
Qed.

Lemma members_keys : members mb (GetKeys (Nodes mb)).
Proof. intros id. by rewrite elem_of_GetKeys. Qed.

Lemma StrongQuorum_ok : StrongQuorum mb = Ok (big_String (strong_q mb)).
Proof.
  unfold StrongQuorum, TotalWeight. rewrite WeightOf_ok by apply members_keys. simpl.
  by rewrite BigInt_big_String.
Qed.

Lemma WeakQuorum_ok : WeakQuorum mb = Ok (big_String (weak_q mb)).
Proof.
  unfold WeakQuorum, TotalWeight. rewrite WeightOf_ok by apply members_keys. simpl.
  by rewrite BigInt_big_String.
Qed.

Lemma HaveStrongQuorum_ok ids :
  members mb ids →
  HaveStrongQuorum mb ids = Ok (bool_decide (strong_q mb ≤ weight mb ids)%Z).
Proof.
  intros Hm. unfold HaveStrongQuorum. rewrite WeightOf_ok by done. simpl.
  rewrite BigInt_big_String. simpl. rewrite StrongQuorum_ok. simpl.
  rewrite BigInt_big_String. simpl. f_equal.
  case_bool_decide; destruct (Z.ltb_spec (weight mb ids) (strong_q mb)); simpl; try done; lia.
Qed.

Lemma HaveWeakQuorum_ok ids :
  members mb ids →
  HaveWeakQuorum mb ids = Ok (bool_decide (weak_q mb ≤ weight mb ids)%Z).
Proof.
  intros Hm. unfold HaveWeakQuorum. rewrite WeightOf_ok by done. simpl.
  rewrite BigInt_big_String. simpl. rewrite WeakQuorum_ok. simpl.
  rewrite BigInt_big_String. simpl. f_equal.
  case_bool_decide; destruct (Z.ltb_spec (weight mb ids) (weak_q mb)); simpl; try done; lia.
Qed.

(** A successful quorum test implies that all the nodes tested are members:
    an unknown node makes the test panic. *)
Lemma WeightOf_members ids w : WeightOf mb ids = Ok w → members mb ids.
Proof.
  unfold WeightOf. intros Hw. outcome_inv. revert Hr. generalize 0%Z. clear Hv.
  induction ids as [|id ids IH]; intros acc; simpl; [intros _ i Hi; set_solver|].
  intros Ho. outcome_inv. intros i [->|Hi]%elem_of_cons; [by eexists|].
  eapply IH; eauto.
Qed.

Lemma HaveStrongQuorum_members ids b : HaveStrongQuorum mb ids = Ok b → members mb ids.
Proof.
  unfold HaveStrongQuorum. intros H. outcome_inv. by eapply WeightOf_members.
Qed.

Lemma HaveStrongQuorum_true ids :
  HaveStrongQuorum mb ids = Ok true → members mb ids ∧ (strong_q mb ≤ weight mb ids)%Z.
Proof.
  intros Hq. pose proof (HaveStrongQuorum_members _ _ Hq) as Hm.
  rewrite HaveStrongQuorum_ok in Hq by done. split; [done|].
  by injection Hq as ?%bool_decide_eq_true.
Qed.

Lemma HaveWeakQuorum_members ids b : HaveWeakQuorum mb ids = Ok b → members mb ids.
Proof.
  unfold HaveWeakQuorum. intros H. outcome_inv. by eapply WeightOf_members.
Qed.

Lemma HaveWeakQuorum_true ids :
  HaveWeakQuorum mb ids = Ok true → members mb ids ∧ (weak_q mb ≤ weight mb ids)%Z.
Proof.
  intros Hq. pose proof (HaveWeakQuorum_members _ _ Hq) as Hm.
  rewrite HaveWeakQuorum_ok in Hq by done. split; [done|].
  by injection Hq as ?%bool_decide_eq_true.
Qed.
End membutil_spec.

(** ** Quorum intersection *)
Section quorums.
Context (mb : Membership) (Hv : voting mb).

(** [maxFaulty] is the largest [f] with [n > 3f], the strong quorum the least [q]
    with [2q > n + f], the weak quorum the least [q > f]. *)
Lemma max_f_bounds : (0 ≤ max_f mb ∧ 3 * max_f mb < total mb ∧ total mb ≤ 3 * max_f mb + 3)%Z.
Proof.
  pose proof (voting_total mb Hv). unfold max_f, Membutil.maxFaulty.
  pose proof (Z.div_mod (total mb - 1) 3). pose proof (Z.mod_pos_bound (total mb - 1) 3).
  pose proof (Z.div_pos (total mb - 1) 3). lia.
Qed.

Lemma strong_q_bounds :
  (total mb + max_f mb < 2 * strong_q mb ∧ 2 * strong_q mb ≤ total mb + max_f mb + 2)%Z.
Proof.
  unfold strong_q. pose proof (Z.div_mod (total mb + max_f mb) 2).
  pose proof (Z.mod_pos_bound (total mb + max_f mb) 2). lia.
Qed.

Lemma quorum_overlap Q1 Q2 :
  NoDup Q1 → NoDup Q2 → members mb Q1 → members mb Q2 →
  (weight mb Q1 + weight mb Q2 - total mb ≤ weight mb (filter (λ x, x ∈ Q1) Q2))%Z.
Proof.
  intros Hn1 Hn2 Hm1 Hm2.
  assert (weight mb (Q1 ++ filter (λ x, x ∉ Q1) Q2) ≤ total mb)%Z as Hle.
  { apply weight_le_total; [done| |].
    - apply list.NoDup_app. split; [done|]. split; [|by apply list.NoDup_filter].
      intros x Hx [Hx' _]%list_elem_of_filter. done.
    - intros x [?|[_ ?]%list_elem_of_filter]%elem_of_app; auto. }
  rewrite weight_app in Hle.
  pose proof (weight_filter mb (λ x, x ∈ Q1) (λ x, x ∉ Q1) Q2 ltac:(done)). lia.
Qed.

(** A duplicate-free set of nodes heavier than [max_f] has a node outside any
    faulty set of weight at most [max_f]. *)
Lemma heavier_than_faulty faulty Q :
  (weight mb faulty ≤ max_f mb)%Z → NoDup Q → (max_f mb < weight mb Q)%Z →
  ∃ id, id ∈ Q ∧ id ∉ faulty.
Proof.
  intros Hf Hnd Hw.
  destruct (decide (Exists (λ id, id ∉ faulty) Q)) as [He|He].
  { apply list.Exists_exists in He as (id & ? & ?). by exists id. }
  exfalso. apply not_Exists_Forall in He; [|intros ?; apply _]. rewrite list.Forall_forall in He.
  assert (weight mb Q ≤ weight mb faulty)%Z; [|lia].
  apply weight_submseteq; [done|]. apply NoDup_submseteq; [done|].
  intros id Hid. specialize (He id Hid).
  apply dec_stable. done.
Qed.
End quorums.

(** What the protocols use of quorums: two strong quorums share a correct node and
    a weak quorum contains one. *)
Class QuorumSystem (strong weak : list NodeID → Prop) (correct : NodeID → Prop) : Prop := {
  strong_meet Q1 Q2 : NoDup Q1 → NoDup Q2 → strong Q1 → strong Q2 →
    ∃ id, id ∈ Q1 ∧ id ∈ Q2 ∧ correct id;
  weak_correct Q : NoDup Q → weak Q → ∃ id, id ∈ Q ∧ correct id;
  strong_correct Q : NoDup Q → strong Q → ∃ id, id ∈ Q ∧ correct id;
}.

Definition strong_quorum (mb : Membership) (Q : list NodeID) : Prop :=
  Membutil.HaveStrongQuorum mb Q = Ok true.
Definition weak_quorum (mb : Membership) (Q : list NodeID) : Prop :=
  Membutil.HaveWeakQuorum mb Q = Ok true.

(** A strong quorum is in particular a weak one. *)
Lemma strong_quorum_weak mb Q : voting mb → strong_quorum mb Q → weak_quorum mb Q.
Proof.
  intros Hv Hq. destruct (HaveStrongQuorum_true mb Hv Q Hq) as [Hm Hw]. unfold weak_quorum.
  rewrite HaveWeakQuorum_ok by done. f_equal. apply bool_decide_eq_true_2.
  pose proof (max_f_bounds mb Hv). pose proof (strong_q_bounds mb). unfold weak_q. lia.
Qed.

(** At most [max_f] of the voting weight is faulty. *)
Record fault_bound (mb : Membership) (faulty : list NodeID) : Prop := {
  fb_voting : voting mb;
  fb_weight : (weight mb faulty ≤ max_f mb)%Z;
}.

#[export] Instance membutil_quorums mb faulty (Hf : fault_bound mb faulty) :
  QuorumSystem (strong_quorum mb) (weak_quorum mb) (λ id, id ∉ faulty).
Proof.
  destruct Hf as [Hv Hf].
  pose proof (strong_q_bounds mb). pose proof (max_f_bounds mb Hv). split.
  - intros Q1 Q2 Hn1 Hn2 [Hm1 Hs1]%HaveStrongQuorum_true [Hm2 Hs2]%HaveStrongQuorum_true; try done.
    pose proof (quorum_overlap mb Hv Q1 Q2 Hn1 Hn2 Hm1 Hm2).
    destruct (heavier_than_faulty mb Hv faulty (filter (λ x, x ∈ Q1) Q2))
      as (id & [? ?]%list_elem_of_filter & ?); [done|by apply list.NoDup_filter|lia|eauto].
  - intros Q Hn [Hm Hw]%HaveWeakQuorum_true; [|done]. unfold weak_q in Hw.
    apply (heavier_than_faulty mb Hv); [done..|lia].
  - intros Q Hn [Hm Hw]%HaveStrongQuorum_true; [|done].
    apply (heavier_than_faulty mb Hv); [done..|lia].
Qed.

(** ** Properties *)

(** C6 (safety).  Two duplicate-free lists of node IDs that both pass
    [HaveStrongQuorum] share a node outside any faulty set whose weight is at most
    [maxFaulty] of the total weight. *)
Theorem strong_quorums_intersect mb faulty Q1 Q2 :
  fault_bound mb faulty → NoDup Q1 → NoDup Q2 →
  Membutil.HaveStrongQuorum mb Q1 = Ok true → Membutil.HaveStrongQuorum mb Q2 = Ok true →
  ∃ id, id ∈ Q1 ∧ id ∈ Q2 ∧ id ∉ faulty.
Proof. intros Hf ????. by apply (strong_meet (QuorumSystem := membutil_quorums mb faulty Hf)). Qed.

(** On a membership with parsable non-negative weights that are
    not all zero, the decimal thresholds are the documented ones: with [n] the
    total weight, [f] is the greatest integer with [3f < n], the strong quorum is the
    least [q] with [2q > n + f], the weak quorum the least [q > f]; and the members
    outside any faulty set of weight at most [f] always reach a strong quorum. *)
Theorem quorum_thresholds mb :
  voting mb →
  ∃ n f qs qw,
    Membutil.TotalWeight mb = Ok (VoteWeight.big_String n) ∧
    Membutil.StrongQuorum mb = Ok (VoteWeight.big_String qs) ∧
    Membutil.WeakQuorum mb = Ok (VoteWeight.big_String qw) ∧
    (3 * f < n ∧ ∀ g, 3 * g < n → g ≤ f)%Z ∧
    (n + f < 2 * qs ∧ ∀ q, n + f < 2 * q → qs ≤ q)%Z ∧
    (f < qw ∧ ∀ q, f < q → qw ≤ q)%Z ∧
    (∀ faulty, (weight mb faulty ≤ f)%Z →
       Membutil.HaveStrongQuorum mb (filter (λ x, x ∉ faulty) (GetKeys (Nodes mb))) = Ok true).
Proof.
  intros Hv. exists (total mb), (max_f mb), (strong_q mb), (weak_q mb).
  pose proof (strong_q_bounds mb). pose proof (max_f_bounds mb Hv).
  split_and!; try (unfold weak_q in *; intros; lia).
  - apply WeightOf_ok; [done|]. apply members_keys.
  - by apply StrongQuorum_ok.
  - by apply WeakQuorum_ok.
  - intros faulty Hf. rewrite HaveStrongQuorum_ok; [|done|].
    2:{ intros x [_ ?]%list_elem_of_filter. by apply members_keys. }
    f_equal. apply bool_decide_eq_true_2.
    pose proof (weight_filter mb (λ x, x ∈ faulty) (λ x, x ∉ faulty) (GetKeys (Nodes mb))
                  ltac:(done)) as Hw.
    fold (total mb) in Hw.
    assert (weight mb (filter (λ x, x ∈ faulty) (GetKeys (Nodes mb))) ≤ weight mb faulty)%Z; [|lia].
    apply weight_submseteq; [done|]. apply NoDup_submseteq.
    + apply list.NoDup_filter, GetKeys_NoDup.
    + by intros x [Hx _]%list_elem_of_filter.
Qed.

(** Printing a weight and parsing it back gives the same integer, and
    the printed form is accepted by [IsValid], for all integers. *)
Theorem vote_weight_roundtrip z :
  VoteWeight.BigInt (VoteWeight.big_String z) = Ok z ∧
  VoteWeight.IsValid (VoteWeight.big_String z) = true.
Proof.
  split; [apply VoteWeight.BigInt_big_String|].
  unfold VoteWeight.IsValid. by rewrite VoteWeight.SetString_big_String.
Qed.

(** A four-node membership of unit weights used by the witnesses. *)
Definition unit_node (id : NodeID) : NodeIdentity := mkNodeIdentity id "" None "1".
Definition mb4 : Membership :=
  mkMembership (list_to_map ((λ id, (id, unit_node id)) <$> ["0"; "1"; "2"; "3"])).

Lemma mb4_voting : voting mb4.
Proof. split; [|reflexivity]. by apply (bool_decide_unpack _). Defined.

Lemma mb4_faults : fault_bound mb4 ["3"].
Proof. split; [apply mb4_voting|]. vm_compute. discriminate. Defined.

Lemma strong_quorums_intersect_witness :
  ∃ id, id ∈ ["0"; "1"; "2"] ∧ id ∈ ["1"; "2"; "3"] ∧ id ∉ ["3"].
Proof.
  apply (strong_quorums_intersect mb4 ["3"]); try reflexivity; try apply mb4_faults;
    by apply (bool_decide_unpack _).
Defined.

Lemma quorum_thresholds_witness :
  ∃ n f qs qw,
    Membutil.TotalWeight mb4 = Ok (VoteWeight.big_String n) ∧
    Membutil.StrongQuorum mb4 = Ok (VoteWeight.big_String qs) ∧
    Membutil.WeakQuorum mb4 = Ok (VoteWeight.big_String qw) ∧
    (3 * f < n ∧ ∀ g, 3 * g < n → g ≤ f)%Z ∧
    (n + f < 2 * qs ∧ ∀ q, n + f < 2 * q → qs ≤ q)%Z ∧
    (f < qw ∧ ∀ q, f < q → qw ≤ q)%Z ∧
    (∀ faulty, (weight mb4 faulty ≤ f)%Z →
       Membutil.HaveStrongQuorum mb4 (filter (λ x, x ∉ faulty) (GetKeys (Nodes mb4))) = Ok true).
Proof. apply (quorum_thresholds mb4), mb4_voting. Defined.

(** Weights are checked to be integers, not to be non-negative: *)
Definition mb_negative : Membership :=
  mkMembership (list_to_map [("0", mkNodeIdentity "0" "" None "-10");
                             ("1", mkNodeIdentity "1" "" None "5");
                             ("2", mkNodeIdentity "2" "" None "6")]).

(** [Valid] accepts a membership with a negative weight, and with such a
    membership two disjoint sets of nodes are both strong quorums: the
    intersection of quorums needs the non-negativity of the weights, which the code does not
    check. *)
Theorem valid_accepts_negative_weights :
  ∃ mb Q1 Q2,
    Membutil.Valid mb = Ok tt ∧ NoDup Q1 ∧ NoDup Q2 ∧ (∀ id, id ∈ Q1 → id ∉ Q2) ∧
    Membutil.HaveStrongQuorum mb Q1 = Ok true ∧ Membutil.HaveStrongQuorum mb Q2 = Ok true.
Proof.
  exists mb_negative, ["1"], ["2"]. split_and!; try reflexivity; try apply NoDup_singleton.
  set_solver.
Qed.

(** A quorum test on a list with a node that is not a member does not
    return: it panics (the missing map entry is dereferenced). *)
Lemma quorum_test_nonmember_panics mb ids :
  voting mb → (∃ id, id ∈ ids ∧ Nodes mb !! id = None) →
  Membutil.HaveStrongQuorum mb ids = Panic NilDeref ∧
  Membutil.HaveWeakQuorum mb ids = Panic NilDeref.
Proof.
  intros Hv (id & Hid & Hn).
  assert (Membutil.WeightOf mb ids = Panic NilDeref) as Hp.
  { unfold Membutil.WeightOf. generalize 0%Z.
    induction ids as [|i ids IH]; intros acc; [by apply elem_of_nil in Hid|]. simpl.
    destruct (Nodes mb !! i) as [n|] eqn:E; [|done]. simpl.
    destruct (voting_weights mb i n Hv E) as (w & Hw & _).
    unfold VoteWeight.BigInt at 1. rewrite Hw. simpl. apply IH.
    apply elem_of_cons in Hid as [->|]; [congruence|done]. }
  unfold Membutil.HaveStrongQuorum, Membutil.HaveWeakQuorum. by rewrite Hp.
Qed.
