(* ===== verification/MessageBuffer.v ===== *)
(** * pkg/messagebuffer: bounded backlog of messages of one node

    [proto.Size] is a parameter of the component (the protobuf library).  The
    linked list is a list, front first; the loops that drop old messages panic on an
    empty list, as [list.Remove(nil)] does. *)
From Stdlib Require Import ZArith Lia.
From stdpp Require Import prelude gmap strings list sorting fin_maps numbers.
From S2P Require Import Prelude Util.

(** [proto.Size], a non-negative length. *)
Class ProtoSize (Msg : Type) := {
  proto_Size : Msg → Z;
  proto_Size_nonneg : ∀ m, (0 ≤ proto_Size m)%Z;
}.

Inductive Applicable := Past | Current | Future | Invalid.
#[export] Instance Applicable_eq_dec : EqDecision Applicable.
Proof. solve_decision. Defined.

Record MessageBuffer (Msg : Type) := mkMessageBuffer {
  capacity : Z;
  buf_size : Z;
  messages : list Msg;
}.
Arguments mkMessageBuffer {Msg}.
Arguments capacity {Msg}.
Arguments buf_size {Msg}.
Arguments messages {Msg}.

Module MsgBuf.
Section message_buffer.
Context {Msg : Type} `{!ProtoSize Msg}.
Implicit Types mb : MessageBuffer Msg.

Definition New (cap : Z) : MessageBuffer Msg := mkMessageBuffer cap 0 [].

(** Integer division truncates towards zero. *)
Definition NewBuffers (nodeIDs : list string) (totalCapacity : Z)
    : gmap string (MessageBuffer Msg) :=
  foldl (λ bufs id, <[id := New (Z.quot totalCapacity (Z.of_nat (length nodeIDs)))]> bufs)
        ∅ nodeIDs.

(** [remove] of the front element. *)
Definition remove_front (msgs : list Msg) (size : Z) : outcome (list Msg * Z) :=
  match msgs with
  | [] => Panic NilDeref
  | m :: msgs => Ok (msgs, size - proto_Size m)%Z
  end.

(** [for mb.size + extra > mb.capacity { remove(Front()) }] *)
Fixpoint evict (msgs : list Msg) (size extra cap : Z) : outcome (list Msg * Z) :=
  if bool_decide (cap < size + extra)%Z then
    match msgs with
    | [] => Panic NilDeref
    | m :: rest => evict rest (size - proto_Size m)%Z extra cap
    end
  else Ok (msgs, size).

Definition Store mb (msg : Msg) : outcome (bool * MessageBuffer Msg) :=
  let msgSize := proto_Size msg in
  if bool_decide (capacity mb < msgSize)%Z then Ok (false, mb)
  else
    '(msgs, size) ← evict (messages mb) (buf_size mb) msgSize (capacity mb);
    Ok (true, mkMessageBuffer (capacity mb) (size + msgSize)%Z (msgs ++ [msg])).

Definition Resize mb (newCapacity : Z) : outcome (MessageBuffer Msg) :=
  '(msgs, size) ← evict (messages mb) (buf_size mb) 0 newCapacity;
  Ok (mkMessageBuffer newCapacity size msgs).

(** The loop of [Iterate]: what stays in the buffer, and the messages handed to
    [apply], in order. *)
Fixpoint iterate_msgs (filter : Msg → Applicable) (msgs : list Msg) (size : Z)
    : list Msg * Z * list Msg :=
  match msgs with
  | [] => ([], size, [])
  | m :: msgs =>
      match filter m with
      | Future =>
          let '(kept, size', cur) := iterate_msgs filter msgs size in (m :: kept, size', cur)
      | Current =>
          let '(kept, size', cur) := iterate_msgs filter msgs (size - proto_Size m)%Z in
          (kept, size', m :: cur)
      | Past | Invalid => iterate_msgs filter msgs (size - proto_Size m)%Z
      end
  end.

Definition Iterate mb (filter : Msg → Applicable) : MessageBuffer Msg * list Msg :=
  let '(kept, size, cur) := iterate_msgs filter (messages mb) (buf_size mb) in
  (mkMessageBuffer (capacity mb) size kept, cur).

(** ** Invariant: the recorded size is that of the messages and within capacity *)
Fixpoint total_size (msgs : list Msg) : Z :=
  match msgs with [] => 0%Z | m :: msgs => (proto_Size m + total_size msgs)%Z end.

Record inv mb : Prop := {
  inv_size : buf_size mb = total_size (messages mb);
  inv_capacity : (buf_size mb ≤ capacity mb)%Z;
}.

Lemma total_size_app l1 l2 : total_size (l1 ++ l2) = (total_size l1 + total_size l2)%Z.
Proof. induction l1; simpl; lia. Qed.

Lemma total_size_nonneg l : (0 ≤ total_size l)%Z.
Proof. induction l as [|m l IH]; simpl; [lia|]. pose proof (proto_Size_nonneg m). lia. Qed.

(** ** Specification: the longest suffix that fits *)
Fixpoint longest_fit (cap : Z) (msgs : list Msg) : list Msg :=
  match msgs with
  | [] => []
  | _ :: rest => if bool_decide (total_size msgs ≤ cap)%Z then msgs else longest_fit cap rest
  end.

Lemma longest_fit_all cap msgs : (total_size msgs ≤ cap)%Z → longest_fit cap msgs = msgs.
Proof. destruct msgs as [|m msgs]; intros H; [done|]. cbn [longest_fit]. by rewrite bool_decide_eq_true_2. Qed.

Lemma longest_fit_le cap msgs : (0 ≤ cap)%Z → (total_size (longest_fit cap msgs) ≤ cap)%Z.
Proof.
  intros Hc. induction msgs as [|m msgs IH]; [done|]. cbn [longest_fit].
  case_bool_decide; done.
Qed.

Lemma longest_fit_suffix cap msgs : longest_fit cap msgs `suffix_of` msgs.
Proof.
  induction msgs as [|m msgs IH]; [done|]. cbn [longest_fit]. case_bool_decide; [done|].
  by apply suffix_cons_r.
Qed.

(** It is the longest: any suffix that fits is a suffix of it. *)
Lemma longest_fit_longest cap msgs l :
  l `suffix_of` msgs → (total_size l ≤ cap)%Z → l `suffix_of` longest_fit cap msgs.
Proof.
  induction msgs as [|m msgs IH]; intros Hs Hl.
  - by apply suffix_nil_inv in Hs as ->.
  - cbn [longest_fit]. case_bool_decide; [done|].
    destruct l as [|x l]; [apply suffix_nil|].
    apply suffix_cons_inv in Hs as [Heq|Hs]; [by rewrite Heq in Hl|]. auto.
Qed.

Lemma longest_fit_shrink c c' msgs :
  (c' ≤ c)%Z → longest_fit c' (longest_fit c msgs) = longest_fit c' msgs.
Proof.
  intros Hc. induction msgs as [|m msgs IH]; [done|]. cbn [longest_fit].
  repeat case_bool_decide; try done; try lia.
  - cbn [longest_fit]. by rewrite bool_decide_eq_true_2.
  - cbn [longest_fit]. rewrite bool_decide_eq_false_2 by lia. done.
Qed.

Lemma longest_fit_snoc cap msgs m :
  (proto_Size m ≤ cap)%Z →
  longest_fit cap (msgs ++ [m]) = longest_fit (cap - proto_Size m) msgs ++ [m].
Proof.
  intros Hm. induction msgs as [|m' msgs IH].
  - cbn. rewrite bool_decide_eq_true_2; [done|]. lia.
  - cbn [longest_fit app]. rewrite IH.
    change (m' :: msgs ++ [m]) with ((m' :: msgs) ++ [m]). rewrite total_size_app.
    cbn [total_size].
    repeat case_bool_decide; try done; lia.
Qed.

Lemma evict_fit msgs extra cap :
  (0 ≤ extra ≤ cap)%Z →
  evict msgs (total_size msgs) extra cap =
    Ok (longest_fit (cap - extra) msgs, total_size (longest_fit (cap - extra) msgs)).
Proof.
  intros He. induction msgs as [|m msgs IH]; cbn [evict longest_fit].
  - rewrite bool_decide_eq_false_2; [done|]. cbn. lia.
  - replace (total_size (m :: msgs) - proto_Size m)%Z with (total_size msgs)
      by (cbn [total_size]; lia).
    repeat case_bool_decide; try done; lia.
Qed.

Lemma Store_fit mb msg :
  inv mb → (proto_Size msg ≤ capacity mb)%Z →
  Store mb msg =
    let kept := longest_fit (capacity mb - proto_Size msg) (messages mb) in
    Ok (true, mkMessageBuffer (capacity mb) (total_size (kept ++ [msg])) (kept ++ [msg])).
Proof.
  intros [Hs Hc] Hm. unfold Store. rewrite bool_decide_eq_false_2 by lia.
  pose proof (proto_Size_nonneg msg). rewrite Hs, evict_fit by lia. simpl.
  rewrite total_size_app. simpl. do 3 f_equal. lia.
Qed.

Lemma Store_inv mb msg b mb' : inv mb → Store mb msg = Ok (b, mb') → inv mb' ∧ capacity mb' = capacity mb.
Proof.
  intros Hi. destruct (decide (proto_Size msg ≤ capacity mb)%Z) as [Hm|Hm].
  - rewrite Store_fit by done. intros [= <- <-]. simpl. split; [|done]. split; simpl; [done|].
    rewrite total_size_app. simpl.
    pose proof (longest_fit_le (capacity mb - proto_Size msg) (messages mb)). lia.
  - unfold Store. rewrite bool_decide_eq_true_2 by lia. naive_solver.
Qed.

Lemma iterate_msgs_spec flt msgs size :
  ∃ size', iterate_msgs flt msgs size =
             (filter (λ m, flt m = Future) msgs, size', filter (λ m, flt m = Current) msgs) ∧
           (size' - total_size (filter (λ m, flt m = Future) msgs) = size - total_size msgs)%Z.
Proof.
  revert size. induction msgs as [|m msgs IH]; intros size; [by exists size|].
  cbn [iterate_msgs]. rewrite !filter_cons.
  destruct (flt m) eqn:E; repeat (case_decide; simplify_eq).
  all: match goal with |- context [iterate_msgs _ _ ?sz] => destruct (IH sz) as (size' & -> & Hs) end.
  all: exists size'; cbn [total_size]; split; [done|lia].
Qed.

(** What [Iterate] does: it keeps the future messages, in order, hands over the
    current ones, in order, and drops the others. *)
Lemma Iterate_spec mb flt :
  inv mb →
  messages (Iterate mb flt).1 = filter (λ m, flt m = Future) (messages mb) ∧
  (Iterate mb flt).2 = filter (λ m, flt m = Current) (messages mb) ∧
  inv (Iterate mb flt).1.
Proof.
  intros [Hs Hc]. unfold Iterate.
  destruct (iterate_msgs_spec flt (messages mb) (buf_size mb)) as (size' & -> & Hz).
  split_and!; [done..|]. split; simpl; [lia|].
  assert (total_size (filter (λ m, flt m = Future) (messages mb)) ≤ total_size (messages mb))%Z; [|lia].
  clear. induction (messages mb) as [|m l IH]; [done|]. rewrite filter_cons.
  pose proof (proto_Size_nonneg m). case_decide; cbn in *; lia.
Qed.

(** Nothing enters a buffer but what is stored, and nothing is handed over but what is there. *)
Lemma evict_subset msgs size extra cap msgs' size' :
  evict msgs size extra cap = Ok (msgs', size') → msgs' ⊆ msgs.
Proof.
  revert size. induction msgs as [|m msgs IH]; intros size; cbn [evict]; case_bool_decide;
    try done; [by intros [= <- _]| |by intros [= <- _]].
  intros ?%IH. set_solver.
Qed.

Lemma Store_subset mb msg b mb' m :
  Store mb msg = Ok (b, mb') → m ∈ messages mb' → m = msg ∨ m ∈ messages mb.
Proof.
  unfold Store. case_bool_decide; [intros [= <- <-]; by right|].
  intros Hs. outcome_inv. destruct r as [msgs size]. simplify_eq/=.
  intros [Hm| ->%list_elem_of_singleton]%elem_of_app; [|by left].
  right. by eapply evict_subset.
Qed.

Lemma Iterate_subset mb flt m :
  (m ∈ messages (Iterate mb flt).1 → m ∈ messages mb) ∧
  (m ∈ (Iterate mb flt).2 → m ∈ messages mb ∧ flt m = Current).
Proof.
  unfold Iterate. destruct (iterate_msgs_spec flt (messages mb) (buf_size mb)) as (size' & -> & _).
  simpl. rewrite !list_elem_of_filter. tauto.
Qed.

(** The initial buffers are empty and share the capacity. *)
Lemma NewBuffers_lookup ids cap id buf :
  NewBuffers ids cap !! id = Some buf →
  id ∈ ids ∧ buf = New (Z.quot cap (Z.of_nat (length ids))).
Proof.
  unfold NewBuffers. generalize (Z.quot cap (Z.of_nat (length ids))) as c. intros c.
  assert (∀ l (m : gmap string (MessageBuffer Msg)),
    foldl (λ bufs id, <[id := New c]> bufs) m l !! id = Some buf →
    m !! id = Some buf ∨ id ∈ l ∧ buf = New c) as H.
  { induction l as [|x l IH]; intros m; cbn [foldl]; [by left|].
    intros [[[<- <-]|[_ ?]]%lookup_insert_Some|[??]]%IH; [right|by left|right]; set_solver. }
  intros [Hm|?]%H; [by simplify_map_eq|done].
Qed.

(** Storing a sequence of messages. *)
Fixpoint store_all mb (msgs : list Msg) : outcome (MessageBuffer Msg) :=
  match msgs with
  | [] => Ok mb
  | m :: msgs => '(_, mb') ← Store mb m; store_all mb' msgs
  end.

Lemma store_all_fit cap hist msgs mb :
  inv mb → capacity mb = cap → (0 ≤ cap)%Z →
  messages mb = longest_fit cap (filter (λ m, (proto_Size m ≤ cap)%Z) hist) →
  ∃ mb', store_all mb msgs = Ok mb' ∧ inv mb' ∧
    messages mb' = longest_fit cap (filter (λ m, (proto_Size m ≤ cap)%Z) (hist ++ msgs)).
Proof.
  revert hist mb. induction msgs as [|m msgs IH]; intros hist mb Hi Hcap H0 Hm.
  { exists mb. by rewrite app_nil_r. }
  cbn [store_all]. rewrite (assoc_L (++) hist [m] msgs : hist ++ m :: msgs = _).
  destruct (decide (proto_Size m ≤ cap)%Z) as [Hle|Hgt].
  - pose proof (Store_fit mb m Hi ltac:(lia)) as Hst.
    pose proof (Store_inv _ _ _ _ Hi Hst) as [Hi' _]. rewrite Hst. simpl.
    apply IH; [done..|]. simpl. rewrite list.filter_app, filter_cons_True, filter_nil by done.
    rewrite longest_fit_snoc by done. f_equal. rewrite Hm, Hcap.
    apply longest_fit_shrink. pose proof (proto_Size_nonneg m). lia.
  - unfold Store. rewrite bool_decide_eq_true_2 by lia. simpl. apply IH; [done..|].
    rewrite list.filter_app, filter_cons_False, filter_nil, app_nil_r by done. done.
Qed.
End message_buffer.
End MsgBuf.

Import MsgBuf.

(** ** Properties *)

(** C8 (refinement).  A buffer of capacity [cap] into which any sequence of messages is
    stored never panics and holds exactly the longest suffix of those messages (leaving
    out the ones larger than the capacity) whose total size is at most [cap]: "the most
    recently received messages that together do not exceed the capacity". *)
Theorem stored_messages_are_most_recent {Msg} `{!ProtoSize Msg} (cap : Z) (msgs : list Msg) :
  (0 ≤ cap)%Z →
  ∃ mb, store_all (New cap) msgs = Ok mb ∧ inv mb ∧
    messages mb = longest_fit cap (filter (λ m, (proto_Size m ≤ cap)%Z) msgs) ∧
    (∀ l, l `suffix_of` filter (λ m, (proto_Size m ≤ cap)%Z) msgs →
       (total_size l ≤ cap)%Z → l `suffix_of` messages mb).
Proof.
  intros H0. destruct (store_all_fit cap [] msgs (New cap)) as (mb & Hs & Hi & Hm); [done..|].
  exists mb. split_and!; [done..|]. intros l ??. rewrite Hm. by apply longest_fit_longest.
Qed.

(** [Store] refuses exactly the messages larger than the capacity,
    leaving the buffer untouched, and otherwise appends the message after dropping the
    fewest old messages; [Resize] to a non-negative capacity drops the fewest old
    messages; [Iterate] partitions the messages by the filter, keeping their order.  None
    of them panics and all keep the size invariant. *)
Theorem message_buffer_operations {Msg} `{!ProtoSize Msg} (mb : MessageBuffer Msg) (msg : Msg)
    (newCapacity : Z) (flt : Msg → Applicable) :
  inv mb → (0 ≤ newCapacity)%Z →
  (if decide (proto_Size msg ≤ capacity mb)%Z
   then let kept := longest_fit (capacity mb - proto_Size msg) (messages mb) in
        ∃ mb', Store mb msg = Ok (true, mb') ∧ messages mb' = kept ++ [msg] ∧ inv mb'
   else Store mb msg = Ok (false, mb)) ∧
  (∃ mb', Resize mb newCapacity = Ok mb' ∧ capacity mb' = newCapacity ∧
          messages mb' = longest_fit newCapacity (messages mb) ∧ inv mb') ∧
  messages (Iterate mb flt).1 = filter (λ m, flt m = Future) (messages mb) ∧
  (Iterate mb flt).2 = filter (λ m, flt m = Current) (messages mb) ∧
  inv (Iterate mb flt).1.
Proof.
  intros Hi H0. split_and!; try apply (Iterate_spec mb flt Hi).
  - case_decide.
    + pose proof (Store_fit mb msg Hi ltac:(done)) as Hst. eexists. split; [exact Hst|].
      split; [done|]. by apply (Store_inv mb msg true _ Hi) in Hst as [? _].
    + unfold Store. by rewrite bool_decide_eq_true_2 by lia.
  - unfold Resize. destruct Hi as [Hs _]. rewrite Hs, evict_fit by lia. simpl.
    eexists. split_and!; [done..| |]; rewrite ?Z.sub_0_r; [done|].
    split; simpl; [done|]. by apply longest_fit_le.
Qed.

(** Witness instance: messages are byte strings, of their length. *)
#[local] Instance string_size : ProtoSize string.
Proof. refine {| proto_Size s := Z.of_nat (String.length s) |}. intros; lia. Defined.

Lemma stored_messages_are_most_recent_witness :
  ∃ mb, store_all (New 5) ["aa"; "toolarge"; "bbb"; "c"] = Ok mb ∧ inv mb ∧
    messages mb = longest_fit 5 (filter (λ m, (proto_Size m ≤ 5)%Z) ["aa"; "toolarge"; "bbb"; "c"]) ∧
    (∀ l, l `suffix_of` filter (λ m, (proto_Size m ≤ 5)%Z) ["aa"; "toolarge"; "bbb"; "c"] →
       (total_size l ≤ 5)%Z → l `suffix_of` messages mb).
Proof. apply (stored_messages_are_most_recent 5). lia. Defined.

Lemma message_buffer_operations_witness :
  let mb := mkMessageBuffer 5 3 ["aa"; "b"] in
  (∃ mb', Store mb "cccc" = Ok (true, mb') ∧ messages mb' = ["b"] ++ ["cccc"] ∧ inv mb').
Proof.
  intros mb. assert (inv mb) as Hi by (split; vm_compute; done).
  destruct (message_buffer_operations mb "cccc" 1 (λ _, Future) Hi ltac:(done)) as [H _].
  rewrite decide_True in H by (vm_compute; discriminate).
  destruct H as (mb' & H1 & H2 & H3). exists mb'. split_and!; [done| |done]. by rewrite H2.
Defined.
