(* ===== verification/PbftTypes.v ===== *)
(** * PBFT orderer: messages, segment, serialization, events

    Models protos/pbftpb (the message types as generated for pkg/orderers),
    pkg/orderers/common/segment.go, pkg/orderers/internal/common/serialization.go,
    pkg/orderers/internal/common/pbftconfig.go and the events the orderer emits. *)
From Stdlib Require Import ZArith Lia Ascii.
From stdpp Require Import prelude gmap strings list sorting fin_maps numbers.
From S2P Require Import Prelude Util Membership.
Import Maputil.

Notation SeqNr := N (only parsing).
Notation ViewNr := N (only parsing).

(** ** Messages (pointers that may be nil on the wire are options) *)
Record Preprepare := mkPreprepare {
  pp_Sn : SeqNr; pp_View : ViewNr; pp_Data : bytes; pp_Aborted : bool;
}.
Record Prepare := mkPrepare { p_Sn : SeqNr; p_View : ViewNr; p_Digest : bytes }.
Record Commit := mkCommit { c_Sn : SeqNr; c_View : ViewNr; c_Digest : bytes }.
Record PSetEntry := mkPSetEntry { pe_Sn : SeqNr; pe_View : ViewNr; pe_Digest : bytes }.
Record QSetEntry := mkQSetEntry { qe_Sn : SeqNr; qe_View : ViewNr; qe_Digest : bytes }.
Record ViewChange := mkViewChange {
  vc_View : ViewNr; vc_PSet : list PSetEntry; vc_QSet : list QSetEntry;
}.
Record SignedViewChange := mkSignedViewChange {
  svc_ViewChange : option ViewChange; svc_Signature : bytes;
}.
Record NewView := mkNewView {
  nv_View : ViewNr;
  nv_ViewChangeSenders : list NodeID;
  nv_SignedViewChanges : list SignedViewChange;
  nv_PreprepareSeqNrs : list SeqNr;
  nv_Preprepares : list Preprepare;
}.

Inductive Message :=
| MsgPreprepare (pp : Preprepare)
| MsgPrepare (p : Prepare)
| MsgCommit (c : Commit)
| MsgDone (digests : list bytes)
| MsgCatchUpRequest (digest : bytes) (sn : SeqNr)
| MsgCatchUpResponse (resp : option Preprepare)
| MsgSignedViewChange (svc : SignedViewChange)
| MsgPreprepareRequest (digest : bytes) (sn : SeqNr)
| MsgMissingPreprepare (pp : option Preprepare)
| MsgNewView (nv : NewView).

#[export] Instance Preprepare_eq_dec : EqDecision Preprepare.
Proof. solve_decision. Defined.
#[export] Instance Prepare_eq_dec : EqDecision Prepare.
Proof. solve_decision. Defined.
#[export] Instance Commit_eq_dec : EqDecision Commit.
Proof. solve_decision. Defined.

(** A copy with another view. *)
Definition with_view (pp : Preprepare) (view : ViewNr) : Preprepare :=
  mkPreprepare (pp_Sn pp) view (pp_Data pp) (pp_Aborted pp).

(** ** Segment *)
Record Segment := mkSegment {
  seg_Leader : NodeID; seg_Membership : Membership; seg_Proposals : gmap SeqNr bytes;
}.

Module Seg.
Definition NewSegment (leader : NodeID) (mb : Membership) (proposals : gmap SeqNr bytes)
    : outcome Segment :=
  match Nodes mb !! leader with
  | None => Err "leader not in Membership"
  | Some _ => Ok (mkSegment leader mb proposals)
  end.

Definition Len (seg : Segment) : Z := Z.of_nat (size (seg_Proposals seg)).
Definition NodeIDs (seg : Segment) : list NodeID := GetSortedKeys (Nodes (seg_Membership seg)).
Definition SeqNrs (seg : Segment) : list SeqNr := GetSortedKeys (seg_Proposals seg).

Fixpoint find_index (ids : list NodeID) (leader : NodeID) (i : Z) : outcome Z :=
  match ids with
  | [] => Panic (ExplicitPanic "invalid segment: leader not in Membership")
  | id :: ids => if bool_decide (id = leader) then Ok i else find_index ids leader (i + 1)%Z
  end.
Definition LeaderIndex (seg : Segment) : outcome Z := find_index (NodeIDs seg) (seg_Leader seg) 0.

(** [seg.NodeIDs()[(seg.LeaderIndex()+int(view)) % len(seg.NodeIDs())]]: the sum wraps
    around and [%] keeps the sign of its left operand. *)
Definition PrimaryNode (seg : Segment) (view : ViewNr) : outcome NodeID :=
  li ← LeaderIndex seg;
  let n := Z.of_nat (length (NodeIDs seg)) in
  if bool_decide (n = 0)%Z then Panic (ExplicitPanic "integer divide by zero")
  else index (NodeIDs seg) (Z.rem (wrap_i64 (li + int_of_u64 view)) n).

Definition valid (seg : Segment) : Prop := is_Some (Nodes (seg_Membership seg) !! seg_Leader seg).

Lemma find_index_spec ids leader i j :
  ids !! j = Some leader → (∀ k, k < j → ids !! k ≠ Some leader) →
  find_index ids leader i = Ok (i + Z.of_nat j)%Z.
Proof.
  revert i j. induction ids as [|id ids IH]; intros i j Hj Hk; [done|]. simpl.
  destruct j as [|j]; simpl in Hj.
  - simplify_eq. rewrite bool_decide_eq_true_2 by done. f_equal. lia.
  - rewrite bool_decide_eq_false_2.
    + rewrite (IH _ j); [f_equal; lia|done|]. intros k Hkj. apply (Hk (S k)). lia.
    + intros ->. apply (Hk 0); [lia|done].
Qed.

Lemma LeaderIndex_ok seg :
  valid seg → ∃ j, NodeIDs seg !! j = Some (seg_Leader seg) ∧ LeaderIndex seg = Ok (Z.of_nat j).
Proof.
  intros Hv. assert (seg_Leader seg ∈ NodeIDs seg) as [j Hj]%list_elem_of_lookup
    by by apply elem_of_GetSortedKeys.
  exists j. split; [done|]. unfold LeaderIndex. erewrite find_index_spec; [f_equal; lia|done|].
  intros k Hkj Hk. pose proof (GetSortedKeys_NoDup (Nodes (seg_Membership seg))) as Hnd.
  pose proof (NoDup_lookup _ _ _ _ Hnd Hj Hk). lia.
Qed.

Definition n_nodes (seg : Segment) : nat := length (NodeIDs seg).

(** The primary of a view that is far enough from the top of the range is the node
    [view] places after the leader, round-robin in the order of the IDs. *)
Lemma PrimaryNode_ok seg view :
  valid seg → (Z.of_N view + Z.of_nat (n_nodes seg) < 2 ^ 63)%Z →
  ∃ j p, NodeIDs seg !! j = Some (seg_Leader seg) ∧ j < n_nodes seg ∧
    NodeIDs seg !! ((j + N.to_nat view) mod n_nodes seg) = Some p ∧
    PrimaryNode seg view = Ok p.
Proof.
  intros Hv Hview. destruct (LeaderIndex_ok seg Hv) as (j & Hj & Hli).
  pose proof (lookup_lt_Some _ _ _ Hj) as Hlt. fold (n_nodes seg) in Hlt.
  destruct (lookup_lt_is_Some_2 (NodeIDs seg) ((j + N.to_nat view) mod n_nodes seg)) as [p Hp].
  { apply Nat.mod_upper_bound. unfold n_nodes in *. lia. }
  exists j, p. split_and!; [done..|]. unfold PrimaryNode. rewrite Hli. simpl.
  fold (n_nodes seg). rewrite bool_decide_eq_false_2 by lia.
  rewrite int_of_u64_small by lia. rewrite wrap_i64_small by lia.
  rewrite Z.rem_mod_nonneg by lia.
  replace (Z.of_nat j + Z.of_N view)%Z with (Z.of_nat (j + N.to_nat view)) by lia.
  rewrite <- Nat2Z.inj_mod. by apply index_nat.
Qed.

Lemma PrimaryNode_member seg view p : PrimaryNode seg view = Ok p → p ∈ NodeIDs seg.
Proof.
  unfold PrimaryNode. intros Hp. outcome_inv. case_bool_decide; [done|].
  apply index_lookup in Hp as [_ ?]. by eapply list_elem_of_lookup_2.
Qed.
End Seg.

(** ** Configuration *)
Record PBFTConfig := mkPBFTConfig {
  cfg_Membership : list NodeID;
  cfg_MaxProposeDelay : Z;
  cfg_DoneResendPeriod : Z;
  cfg_CatchUpDelay : Z;
  cfg_MsgBufCapacity : Z;
  cfg_ViewChangeSNTimeout : Z;
  cfg_ViewChangeSegmentTimeout : Z;
  cfg_ViewChangeResendPeriod : Z;
  cfg_EpochNr : N;
}.

Record ModuleParams := mkModuleParams { OwnID : NodeID; Config : PBFTConfig }.

(** ** Serialization for hashing and signing *)
Module Serialization.
Import Serializing.

Definition SerializePreprepareForHashing (pp : Preprepare) : list bytes :=
  let aborted := if pp_Aborted pp then ascii_of_N 1 else ascii_of_N 0 in
  [Uint64ToBytes (pp_Sn pp); Some (String aborted EmptyString); pp_Data pp].

Definition SerializeViewChangeForSigning (vc : ViewChange) : list bytes :=
  let data := [Uint64ToBytes (vc_View vc)] in
  let data := foldl (λ data e, data ++ [Uint64ToBytes (pe_Sn e)] ++ [Uint64ToBytes (pe_View e)]
                                    ++ [pe_Digest e]) data (vc_PSet vc) in
  foldl (λ data e, data ++ [Uint64ToBytes (qe_Sn e)] ++ [Uint64ToBytes (qe_View e)]
                        ++ [qe_Digest e]) data (vc_QSet vc).

(** The hasher module writes the byte slices of one item one after the other into the
    hash function. *)
Definition concat_bytes (data : list bytes) : string :=
  foldr (λ b acc, String.append (contents b) acc) EmptyString data.

Lemma append_inj_length s1 s2 r1 r2 :
  String.length s1 = String.length s2 → String.append s1 r1 = String.append s2 r2 →
  s1 = s2 ∧ r1 = r2.
Proof.
  revert s2. induction s1 as [|c s1 IH]; intros [|c' s2]; simpl; try done.
  intros [= Hl] [= -> Ha]. by destruct (IH s2 Hl Ha) as [-> ->].
Qed.

Lemma append_nil_r s : String.append s EmptyString = s.
Proof. induction s as [|c s IH]; [done|]. apply (f_equal (String c)), IH. Qed.

(** The hashed bytes determine the sequence number, the aborted flag and the data, but
    not the view. *)
Lemma concat_preprepare pp :
  concat_bytes (SerializePreprepareForHashing pp) =
    String.append (le_bytes 8 (pp_Sn pp))
      (String (if pp_Aborted pp then ascii_of_N 1 else ascii_of_N 0) (contents (pp_Data pp))).
Proof.
  unfold concat_bytes, SerializePreprepareForHashing, Uint64ToBytes. cbn -[le_bytes].
  by rewrite append_nil_r.
Qed.

Lemma concat_preprepare_inj pp1 pp2 :
  concat_bytes (SerializePreprepareForHashing pp1) =
    concat_bytes (SerializePreprepareForHashing pp2) →
  le_bytes 8 (pp_Sn pp1) = le_bytes 8 (pp_Sn pp2) ∧ pp_Aborted pp1 = pp_Aborted pp2 ∧
  contents (pp_Data pp1) = contents (pp_Data pp2).
Proof.
  rewrite !concat_preprepare. intros H. apply append_inj_length in H as [? H].
  2:{ by rewrite !le_bytes_length. }
  injection H as Ha Hd. split_and!; [done| |done].
  by destruct (pp_Aborted pp1), (pp_Aborted pp2).
Qed.
End Serialization.

(** ** Events emitted by the orderer

    The destination module of an event is fixed by the module configuration (Net,
    Timer, Hasher, Crypto, Ava, PPrepValidator, Ord), so each constructor stands for the
    event sent to that module.  A request carries the context that the reply returns. *)
Inductive HashContextOne :=
| CtxPreprepare (pp : Preprepare)
| CtxMissingPreprepare (pp : Preprepare)
| CtxCatchUpResponse (pp : Preprepare).

Inductive HashContext :=
| CtxView (view : ViewNr)
| CtxNewView (nv : NewView).

Inductive event :=
| SendMessage (msg : Message) (dests : list NodeID)
| TimerDelay (delay : Z) (evs : list event)
| TimerRepeat (period : Z) (retention : N) (evs : list event)
| ProposeTimeout (numProposals : N)
| ViewChangeSNTimeout (view : ViewNr) (numCommitted : N)
| ViewChangeSegTimeout (view : ViewNr)
| RequestCert
| ValidatePreprepare (pp : Preprepare) (from : NodeID)
| HashRequestOne (data : list bytes) (ctx : HashContextOne)
| HashRequest (data : list (list bytes)) (ctx : HashContext)
| SignRequest (data : list bytes) (ctx : ViewChange)
| VerifySig (data : list bytes) (signature : bytes) (nodeID : NodeID) (ctx : SignedViewChange)
| VerifySigs (data : list (list bytes)) (signatures : list bytes) (nodeIDs : list NodeID)
    (ctx : NewView)
| SBDeliver (sn : SeqNr) (data : bytes) (aborted : bool) (leader : NodeID).

(** ** Properties *)
Import Serialization Serializing.

(** Round-robin primaries: in a segment whose leader is a member, among any
    [n] consecutive views (below the range where [int] arithmetic overflows) every one of
    the [n] members is the primary of some view, and every primary is a member. *)
Theorem primary_rotation seg view0 id :
  Seg.valid seg → (Z.of_N view0 + 2 * Z.of_nat (Seg.n_nodes seg) < 2 ^ 63)%Z →
  id ∈ Seg.NodeIDs seg →
  ∃ view, (view0 ≤ view < view0 + N.of_nat (Seg.n_nodes seg))%N ∧ Seg.PrimaryNode seg view = Ok id.
Proof.
  intros Hv Hb Hid. apply list_elem_of_lookup in Hid as [k Hk].
  pose proof (lookup_lt_Some _ _ _ Hk) as Hlt. fold (Seg.n_nodes seg) in Hlt.
  set (n := Seg.n_nodes seg) in *.
  destruct (Seg.LeaderIndex_ok seg Hv) as (j & Hj & _).
  pose proof (lookup_lt_Some _ _ _ Hj) as Hjlt. fold (Seg.n_nodes seg) n in Hjlt.
  set (d := (k + n - (j + N.to_nat view0) mod n) mod n).
  assert (d < n) by (apply Nat.mod_upper_bound; lia).
  exists (view0 + N.of_nat d)%N. split; [lia|].
  destruct (Seg.PrimaryNode_ok seg (view0 + N.of_nat d)%N Hv) as (j' & p & Hj' & _ & Hp & ->).
  { fold n. lia. }
  assert (j' = j) as ->.
  { by eapply NoDup_lookup; [apply (GetSortedKeys_NoDup (Nodes (seg_Membership seg)))|..]. }
  fold n in Hp. f_equal.
  replace ((j + N.to_nat (view0 + N.of_nat d)) mod n) with k in Hp; [congruence|].
  rewrite N2Nat.inj_add, Nat2N.id, Nat.add_assoc. subst d.
  rewrite Nat.Div0.add_mod_idemp_r, <- (Nat.Div0.add_mod_idemp_l (j + N.to_nat view0)).
  pose proof (Nat.mod_upper_bound (j + N.to_nat view0) n).
  replace ((j + N.to_nat view0) mod n + (k + n - (j + N.to_nat view0) mod n)) with (k + 1 * n) by lia.
  rewrite Nat.Div0.mod_add. symmetry. by apply Nat.mod_small.
Qed.

(** A segment over the four-node membership, used by the witnesses. *)
Definition seg4 : Segment := mkSegment "1" mb4 {[ 0%N := None; 1%N := None ]}.

Lemma primary_rotation_witness :
  ∃ view, (5 ≤ view < 5 + 4)%N ∧ Seg.PrimaryNode seg4 view = Ok "0".
Proof.
  apply (primary_rotation seg4 5 "0").
  - by eexists.
  - vm_compute. done.
  - apply (bool_decide_unpack _). vm_compute. done.
Defined.

(** In every segment of more than one node there is a [uint64] view number
    whose conversion to [int] is negative and makes the primary computation index the
    membership with a negative remainder: it panics. *)
Theorem primary_of_huge_view_panics seg :
  Seg.valid seg → 1 < Seg.n_nodes seg → (Z.of_nat (Seg.n_nodes seg) < 2 ^ 62)%Z →
  ∃ view, (view < u64_max)%N ∧ Seg.PrimaryNode seg view = Panic IndexOutOfRange.
Proof.
  intros Hv Hn Hb. destruct (Seg.LeaderIndex_ok seg Hv) as (j & Hj & Hli).
  pose proof (lookup_lt_Some _ _ _ Hj) as Hjlt. fold (Seg.n_nodes seg) in Hjlt.
  exists (u64_max - N.of_nat j - 1)%N. unfold u64_max. split; [lia|].
  unfold Seg.PrimaryNode. rewrite Hli. simpl. fold (Seg.n_nodes seg).
  rewrite bool_decide_eq_false_2 by lia.
  assert (int_of_u64 (2 ^ 64 - N.of_nat j - 1) = - Z.of_nat j - 1)%Z as ->.
  { unfold int_of_u64, wrap_i64.
    replace (Z.of_N (2 ^ 64 - N.of_nat j - 1) + 2 ^ 63)%Z
      with (2 ^ 63 - Z.of_nat j - 1 + 1 * 2 ^ 64)%Z by lia.
    rewrite Z.mod_add by done. rewrite Z.mod_small; lia. }
  rewrite wrap_i64_small by lia.
  replace (Z.of_nat j + (- Z.of_nat j - 1))%Z with (- (1))%Z by lia.
  rewrite Z.rem_opp_l, Z.rem_small by lia.
  unfold index. by rewrite bool_decide_eq_false_2 by lia.
Qed.

Lemma primary_of_huge_view_panics_witness :
  ∃ view, (view < u64_max)%N ∧ Seg.PrimaryNode seg4 view = Panic IndexOutOfRange.
Proof.
  apply (primary_of_huge_view_panics seg4); [by eexists|vm_compute; lia|vm_compute; done].
Defined.

(** The bytes hashed for a Preprepare determine its sequence number, aborted
    flag and data, and do not depend on its view. *)
Theorem preprepare_hash_input pp1 pp2 :
  (pp_Sn pp1 < u64_max)%N → (pp_Sn pp2 < u64_max)%N →
  concat_bytes (SerializePreprepareForHashing pp1) =
    concat_bytes (SerializePreprepareForHashing pp2) ↔
  pp_Sn pp1 = pp_Sn pp2 ∧ pp_Aborted pp1 = pp_Aborted pp2 ∧
    contents (pp_Data pp1) = contents (pp_Data pp2).
Proof.
  intros H1 H2. split.
  - intros (Hsn & Ha & Hd)%concat_preprepare_inj. split_and!; [|done..].
    by eapply (le_bytes_inj 8).
  - intros (Hsn & Ha & Hd). by rewrite !concat_preprepare, Hsn, Ha, Hd.
Qed.

Lemma preprepare_hash_input_witness :
  concat_bytes (SerializePreprepareForHashing (mkPreprepare 7 0 (Some "x") false)) =
    concat_bytes (SerializePreprepareForHashing (mkPreprepare 7 3 (Some "x") false)) ↔
  7%N = 7%N ∧ false = false ∧ contents (Some "x") = contents (Some "x").
Proof. apply preprepare_hash_input; reflexivity. Defined.

(** The bytes signed for a ViewChange do not determine it: the boundary
    between the P set and the Q set is not encoded, so a value that was only preprepared
    and the same value claimed to be prepared give the same data to sign. *)
Theorem view_change_signature_ambiguous :
  ∃ vc1 vc2, vc_PSet vc1 = [] ∧ length (vc_PSet vc2) = 1 ∧ vc_View vc1 = vc_View vc2 ∧
    SerializeViewChangeForSigning vc1 = SerializeViewChangeForSigning vc2.
Proof.
  exists (mkViewChange 1 [] [mkQSetEntry 5 0 (Some "d")]),
         (mkViewChange 1 [mkPSetEntry 5 0 (Some "d")] []).
  done.
Qed.
