(* ===== verification/PbftSlot.v ===== *)
(** * pkg/orderers/internal/common/pbftslot.go: agreement state of one sequence number *)
From Stdlib Require Import ZArith Lia.
From stdpp Require Import prelude gmap strings list sorting fin_maps numbers.
From S2P Require Import Prelude Util Membership PbftTypes.
Import Maputil Membutil.

Record PbftSlot := mkPbftSlot {
  slot_Preprepare : option Preprepare;
  PrepareDigests : gmap NodeID bytes;
  ValidPrepareDigests : gmap NodeID bytes;
  CommitDigests : gmap NodeID bytes;
  ValidCommitDigests : gmap NodeID bytes;
  Digest : bytes;
  Preprepared : bool;
  Prepared : bool;
  Committed : bool;
  slot_membership : Membership;
}.

(** Field assignments. *)
Definition set_Preprepare (pp : option Preprepare) (s : PbftSlot) : PbftSlot :=
  mkPbftSlot pp (PrepareDigests s) (ValidPrepareDigests s) (CommitDigests s)
    (ValidCommitDigests s) (Digest s) (Preprepared s) (Prepared s) (Committed s) (slot_membership s).
Definition set_prepares (pd vpd : gmap NodeID bytes) (s : PbftSlot) : PbftSlot :=
  mkPbftSlot (slot_Preprepare s) pd vpd (CommitDigests s)
    (ValidCommitDigests s) (Digest s) (Preprepared s) (Prepared s) (Committed s) (slot_membership s).
Definition set_commits (cd vcd : gmap NodeID bytes) (s : PbftSlot) : PbftSlot :=
  mkPbftSlot (slot_Preprepare s) (PrepareDigests s) (ValidPrepareDigests s) cd vcd
    (Digest s) (Preprepared s) (Prepared s) (Committed s) (slot_membership s).
Definition set_Digest (d : bytes) (s : PbftSlot) : PbftSlot :=
  mkPbftSlot (slot_Preprepare s) (PrepareDigests s) (ValidPrepareDigests s) (CommitDigests s)
    (ValidCommitDigests s) d (Preprepared s) (Prepared s) (Committed s) (slot_membership s).
Definition set_flags (ppd pd cm : bool) (s : PbftSlot) : PbftSlot :=
  mkPbftSlot (slot_Preprepare s) (PrepareDigests s) (ValidPrepareDigests s) (CommitDigests s)
    (ValidCommitDigests s) (Digest s) ppd pd cm (slot_membership s).
Definition set_Preprepared (b : bool) (s : PbftSlot) := set_flags b (Prepared s) (Committed s) s.
Definition set_Prepared (b : bool) (s : PbftSlot) := set_flags (Preprepared s) b (Committed s) s.
Definition set_Committed (b : bool) (s : PbftSlot) := set_flags (Preprepared s) (Prepared s) b s.

Module Slot.
Definition NewPbftSlot (mb : Membership) : PbftSlot :=
  mkPbftSlot None ∅ ∅ ∅ ∅ None false false false mb.

Definition PopulateFromPrevious (slot prevSlot : PbftSlot) (view : ViewNr) : outcome PbftSlot :=
  if Committed prevSlot then
    let slot := set_Committed true slot in
    let slot := set_Digest (Digest prevSlot) slot in
    pp ← deref (slot_Preprepare prevSlot);
    Ok (set_Preprepare (Some (with_view pp view)) slot)
  else Ok slot.

(** The body of the loops over the received digests: an entry is looked at once (it is
    then set to nil), and recorded as valid when it equals the slot's digest. *)
Definition validate_entry (digest : bytes) (acc : gmap NodeID bytes * gmap NodeID bytes)
    (entry : NodeID * bytes) : gmap NodeID bytes * gmap NodeID bytes :=
  match entry.2 with
  | Some d =>
      (<[entry.1 := None]> acc.1,
       if bytes_Equal (Some d) digest then <[entry.1 := Some d]> acc.2 else acc.2)
  | None => acc
  end.
Definition validate_digests (digest : bytes) (received valid : gmap NodeID bytes)
    : gmap NodeID bytes * gmap NodeID bytes :=
  foldl (validate_entry digest) (received, valid) (map_to_list received).

Definition CheckPrepared (slot : PbftSlot) : outcome (bool * PbftSlot) :=
  if negb (Preprepared slot) then Ok (false, slot)
  else
    enough ← HaveStrongQuorum (slot_membership slot) (GetKeys (PrepareDigests slot));
    if negb enough then Ok (false, slot)
    else
      let '(pd, vpd) := validate_digests (Digest slot) (PrepareDigests slot)
                          (ValidPrepareDigests slot) in
      let slot := set_prepares pd vpd slot in
      res ← HaveStrongQuorum (slot_membership slot) (GetKeys (ValidPrepareDigests slot));
      Ok (res, slot).

Definition CheckCommitted (slot : PbftSlot) : outcome (bool * PbftSlot) :=
  if negb (Prepared slot) then Ok (false, slot)
  else
    enough ← HaveStrongQuorum (slot_membership slot) (GetKeys (CommitDigests slot));
    if negb enough then Ok (false, slot)
    else
      let '(cd, vcd) := validate_digests (Digest slot) (CommitDigests slot)
                          (ValidCommitDigests slot) in
      let slot := set_commits cd vcd slot in
      res ← HaveStrongQuorum (slot_membership slot) (GetKeys (ValidCommitDigests slot));
      Ok (res, slot).

Definition GetPreprepare (slot : PbftSlot) (digest : bytes) : option Preprepare :=
  match digest with
  | None => None
  | Some _ => if Preprepared slot && bytes_Equal digest (Digest slot)
              then slot_Preprepare slot else None
  end.

Definition CatchUp (slot : PbftSlot) (pp : Preprepare) (digest : bytes) : PbftSlot :=
  set_flags true true true (set_Digest digest (set_Preprepare (Some pp) slot)).

(** ** The validation loop, independently of the iteration order *)

(** What the loop adds to the valid digests. *)
Definition matching (digest : bytes) (received valid : gmap NodeID bytes) : gmap NodeID bytes :=
  filter (λ e, is_Some e.2 ∧ contents e.2 = contents digest) received ∪ valid.

Lemma validate_fold_lookup digest l acc id :
  NoDup l.*1 →
  let r := foldl (validate_entry digest) acc l in
  match (list_to_map l : gmap NodeID bytes) !! id with
  | Some (Some d) =>
      r.1 !! id = Some None ∧
      r.2 !! id = if bytes_Equal (Some d) digest then Some (Some d) else acc.2 !! id
  | _ => r.1 !! id = acc.1 !! id ∧ r.2 !! id = acc.2 !! id
  end.
Proof.
  revert acc. induction l as [|[k v] l IH]; intros acc Hnd; [done|].
  cbn [foldl list_to_map] in *. inversion_clear Hnd as [|?? Hni Hnd'].
  specialize (IH (validate_entry digest acc (k, v)) Hnd'). cbn zeta in IH |- *.
  destruct (decide (k = id)) as [->|Hne].
  - simpl. rewrite lookup_insert_eq.
    rewrite (not_elem_of_list_to_map_1 l id) in IH by done. destruct IH as [-> ->].
    destruct v as [d|]; [|done]. unfold validate_entry. simpl.
    rewrite lookup_insert_eq. split; [done|].
    destruct (bytes_Equal _ _); [apply lookup_insert_eq|done].
  - simpl. rewrite lookup_insert_ne by done.
    unfold validate_entry in *. simpl in *. destruct v as [d|]; [|done].
    simpl in IH. rewrite lookup_insert_ne in IH by done.
    destruct (bytes_Equal _ _); [by rewrite lookup_insert_ne in IH|done].
Qed.

Lemma validate_digests_spec digest received valid :
  validate_digests digest received valid =
    ((λ _, None) <$> received, matching digest received valid).
Proof.
  unfold validate_digests.
  assert (∀ id, let r := foldl (validate_entry digest) (received, valid) (map_to_list received) in
     r.1 !! id = ((λ _, None) <$> received) !! id ∧
     r.2 !! id = matching digest received valid !! id) as Hl.
  { intros id. pose proof (validate_fold_lookup digest (map_to_list received) (received, valid) id
      (NoDup_fst_map_to_list received)) as Hf. cbn zeta in Hf |- *.
    rewrite list_to_map_to_list in Hf. unfold matching.
    rewrite lookup_fmap, lookup_union, map_lookup_filter. simpl in Hf.
    destruct (received !! id) as [[d|]|] eqn:E; simpl in *; destruct Hf as [-> ->];
      rewrite ?E; split; try done.
    - unfold bytes_Equal. case_bool_decide as Hd; simpl in *.
      + rewrite option_guard_True by eauto. by destruct (valid !! id).
      + rewrite option_guard_False by naive_solver. by rewrite (left_id_L None _).
    - by rewrite (left_id_L None _).
    - by rewrite (left_id_L None _). }
  destruct (foldl _ _ _) as [r1 r2] eqn:Er. cbn zeta in Hl. simpl in Hl.
  f_equal; apply map_eq; intros id; apply Hl.
Qed.

Lemma matching_lookup digest received valid id d :
  matching digest received valid !! id = Some d →
  (received !! id = Some d ∧ is_Some d ∧ contents d = contents digest) ∨ valid !! id = Some d.
Proof.
  unfold matching. intros [[H ?]%map_lookup_filter_Some|[_ ?]]%lookup_union_Some_raw; [|by right].
  left. naive_solver.
Qed.

Lemma matching_dom digest received valid :
  dom valid ⊆ dom received → dom (matching digest received valid) ⊆ dom received.
Proof.
  intros Hd id. rewrite !elem_of_dom. intros [d [[? _]|Hv]%matching_lookup]; [by eexists|].
  apply elem_of_dom, Hd, elem_of_dom. by eexists.
Qed.

(** The entries already looked at do not count again. *)
Lemma matching_again digest received valid :
  matching digest ((λ _ : bytes, None : bytes) <$> received) valid = valid.
Proof.
  unfold matching. apply map_eq. intros id. rewrite lookup_union, map_lookup_filter, lookup_fmap.
  destruct (received !! id); simpl; by rewrite (left_id_L None _).
Qed.

(** ** Well-formed digest maps: only members, and valid ones among the received ones *)
Definition digests_ok (mb : Membership) (received valid : gmap NodeID bytes) : Prop :=
  dom valid ⊆ dom received ∧ dom received ⊆ dom (Nodes mb).

Lemma keys_members mb (m : gmap NodeID bytes) :
  dom m ⊆ dom (Nodes mb) → members mb (GetKeys m).
Proof. intros Hd id. rewrite elem_of_GetKeys, <- !elem_of_dom. apply Hd. Qed.

Lemma weight_keys_mono mb (m1 m2 : gmap NodeID bytes) :
  voting mb → dom m1 ⊆ dom m2 → (weight mb (GetKeys m1) ≤ weight mb (GetKeys m2))%Z.
Proof.
  intros Hv Hd. apply weight_submseteq; [done|]. apply NoDup_submseteq; [apply GetKeys_NoDup|].
  intros id. rewrite !elem_of_GetKeys, <- !elem_of_dom. apply Hd.
Qed.

(** The two-stage test (all senders first, valid ones next) is the one-stage test. *)
Lemma quorum_two_stages mb digest received valid :
  voting mb → digests_ok mb received valid →
  (∃ b, HaveStrongQuorum mb (GetKeys received) = Ok b ∧
    HaveStrongQuorum mb (GetKeys (matching digest received valid)) =
      Ok (bool_decide (strong_q mb ≤ weight mb (GetKeys (matching digest received valid)))%Z) ∧
    (b = false →
      bool_decide (strong_q mb ≤ weight mb (GetKeys (matching digest received valid)))%Z = false)).
Proof.
  intros Hv [Hd1 Hd2]. pose proof (matching_dom digest received valid Hd1) as Hm.
  eexists. split; [apply HaveStrongQuorum_ok; [done|by apply keys_members]|].
  split; [apply HaveStrongQuorum_ok; [done|apply keys_members; set_solver]|].
  intros Hb%bool_decide_eq_false. apply bool_decide_eq_false.
  pose proof (weight_keys_mono mb _ _ Hv Hm). lia.
Qed.

(** A check leaves everything but the digest maps alone, and the digest maps hold the
    same matching digests as before. *)
Record same_slot (s s' : PbftSlot) : Prop := {
  ss_Preprepare : slot_Preprepare s' = slot_Preprepare s;
  ss_Digest : Digest s' = Digest s;
  ss_Preprepared : Preprepared s' = Preprepared s;
  ss_Prepared : Prepared s' = Prepared s;
  ss_Committed : Committed s' = Committed s;
  ss_membership : slot_membership s' = slot_membership s;
}.

Lemma same_slot_refl s : same_slot s s.
Proof. done. Qed.

Lemma CheckPrepared_inv slot b slot' :
  CheckPrepared slot = Ok (b, slot') →
  same_slot slot slot' ∧ CommitDigests slot' = CommitDigests slot ∧
  ValidCommitDigests slot' = ValidCommitDigests slot ∧
  ((PrepareDigests slot' = PrepareDigests slot ∧
    ValidPrepareDigests slot' = ValidPrepareDigests slot ∧ b = false) ∨
   (Preprepared slot = true ∧
    PrepareDigests slot' = (λ _, None) <$> PrepareDigests slot ∧
    ValidPrepareDigests slot' =
      matching (Digest slot) (PrepareDigests slot) (ValidPrepareDigests slot) ∧
    HaveStrongQuorum (slot_membership slot) (GetKeys (ValidPrepareDigests slot')) = Ok b)).
Proof.
  unfold CheckPrepared. destruct (Preprepared slot) eqn:E; simpl;
    [|by intros [= <- <-]; split_and!; [..|left]].
  rewrite validate_digests_spec. intros H. outcome_inv.
  destruct r; simpl in *; [|by injection H as <- <-; split_and!; [..|left]].
  outcome_inv. split_and!; try done. right. done.
Qed.

Lemma CheckCommitted_inv slot b slot' :
  CheckCommitted slot = Ok (b, slot') →
  same_slot slot slot' ∧ PrepareDigests slot' = PrepareDigests slot ∧
  ValidPrepareDigests slot' = ValidPrepareDigests slot ∧
  ((CommitDigests slot' = CommitDigests slot ∧
    ValidCommitDigests slot' = ValidCommitDigests slot ∧ b = false) ∨
   (Prepared slot = true ∧
    CommitDigests slot' = (λ _, None) <$> CommitDigests slot ∧
    ValidCommitDigests slot' =
      matching (Digest slot) (CommitDigests slot) (ValidCommitDigests slot) ∧
    HaveStrongQuorum (slot_membership slot) (GetKeys (ValidCommitDigests slot')) = Ok b)).
Proof.
  unfold CheckCommitted. destruct (Prepared slot) eqn:E; simpl;
    [|by intros [= <- <-]; split_and!; [..|left]].
  rewrite validate_digests_spec. intros H. outcome_inv.
  destruct r; simpl in *; [|by injection H as <- <-; split_and!; [..|left]].
  outcome_inv. split_and!; try done. right. done.
Qed.
End Slot.

Import Slot.

(** ** Properties *)

(** C7 (equivalence).  [CheckPrepared] and [CheckCommitted], which first test the number of
    senders, look at each digest once and remember the valid ones, never panic on digests
    from members and return what the one-line reference returns: the slot is preprepared
    (prepared) and the senders of non-nil digests equal to the slot's digest form a strong
    quorum.  Repeating the check does not lose any of them. *)
Theorem slot_checks_reference slot :
  let mb := slot_membership slot in
  let prepares := matching (Digest slot) (PrepareDigests slot) (ValidPrepareDigests slot) in
  let commits := matching (Digest slot) (CommitDigests slot) (ValidCommitDigests slot) in
  voting mb →
  digests_ok mb (PrepareDigests slot) (ValidPrepareDigests slot) →
  digests_ok mb (CommitDigests slot) (ValidCommitDigests slot) →
  (∃ slot', CheckPrepared slot =
      Ok (Preprepared slot && bool_decide (strong_q mb ≤ weight mb (GetKeys prepares))%Z, slot') ∧
    same_slot slot slot' ∧
    matching (Digest slot) (PrepareDigests slot') (ValidPrepareDigests slot') = prepares) ∧
  (∃ slot', CheckCommitted slot =
      Ok (Prepared slot && bool_decide (strong_q mb ≤ weight mb (GetKeys commits))%Z, slot') ∧
    same_slot slot slot' ∧
    matching (Digest slot) (CommitDigests slot') (ValidCommitDigests slot') = commits).
Proof.
  intros mb prepares commits Hv Hp Hc. split.
  - unfold CheckPrepared. destruct (Preprepared slot) eqn:E; simpl; [|by eexists].
    destruct (quorum_two_stages mb (Digest slot) _ _ Hv Hp) as ([] & Hb & Hr & Hf);
      fold mb; rewrite Hb; simpl.
    + rewrite validate_digests_spec. simpl. fold mb. rewrite Hr. simpl.
      eexists. split; [done|]. split; [done|]. apply matching_again.
    + fold prepares in Hf. rewrite Hf by done. by eexists.
  - unfold CheckCommitted. destruct (Prepared slot) eqn:E; simpl; [|by eexists].
    destruct (quorum_two_stages mb (Digest slot) _ _ Hv Hc) as ([] & Hb & Hr & Hf);
      fold mb; rewrite Hb; simpl.
    + rewrite validate_digests_spec. simpl. fold mb. rewrite Hr. simpl.
      eexists. split; [done|]. split; [done|]. apply matching_again.
    + fold commits in Hf. rewrite Hf by done. by eexists.
Qed.

(** A preprepared slot with two matching prepares, one for another digest. *)
Definition slot_example : PbftSlot :=
  mkPbftSlot None {[ "0" := Some "d"; "1" := Some "e"; "2" := Some "d" ]} ∅ ∅ ∅ (Some "d")
    true false false mb4.

Lemma slot_checks_reference_witness :
  (∃ slot', CheckPrepared slot_example = Ok (false, slot') ∧ same_slot slot_example slot').
Proof.
  destruct (slot_checks_reference slot_example) as [(slot' & H1 & H2 & _) _].
  - apply mb4_voting.
  - split; apply (bool_decide_unpack _); vm_compute; done.
  - split; apply (bool_decide_unpack _); vm_compute; done.
  - exists slot'. split; [exact H1|exact H2].
Defined.
