(* ===== verification/PbftSegmentChkp.v ===== *)
(** * pkg/orderers/internal/common/pbftsegmentchkp.go: segment-local checkpoint *)
From Stdlib Require Import ZArith Lia.
From stdpp Require Import prelude gmap strings list sorting fin_maps numbers.
From S2P Require Import Prelude Util Membership PbftTypes.
Import Maputil Membutil.

Record PbftSegmentChkp := mkSegChkp {
  doneReceived : gset NodeID;
  doneMsgIndex : gmap string (list NodeID);
  chkp_digests : option (gmap SeqNr bytes);
  chkp_done : bool;
  chkp_doneNodes : option (list NodeID);
  CatchingUp : bool;
}.

Definition set_CatchingUp (b : bool) (c : PbftSegmentChkp) : PbftSegmentChkp :=
  mkSegChkp (doneReceived c) (doneMsgIndex c) (chkp_digests c) (chkp_done c) (chkp_doneNodes c) b.

Module SegChkp.
Definition NewPbftSegmentChkp : PbftSegmentChkp := mkSegChkp ∅ ∅ None false None false.

Definition SetDone (c : PbftSegmentChkp) : PbftSegmentChkp :=
  mkSegChkp (doneReceived c) (doneMsgIndex c) (chkp_digests c) true (chkp_doneNodes c)
    (CatchingUp c).

Definition Digests (c : PbftSegmentChkp) : option (gmap SeqNr bytes) := chkp_digests c.
Definition DoneNodes (c : PbftSegmentChkp) : option (list NodeID) := chkp_doneNodes c.

(** [for _, nodeIDs := range doneMsgIndex { if HaveStrongQuorum(..) { return true } }] *)
Fixpoint any_strong_quorum (mb : Membership) (ls : list (list NodeID)) : outcome bool :=
  match ls with
  | [] => Ok false
  | nodeIDs :: ls =>
      q ← HaveStrongQuorum mb nodeIDs;
      if q : bool then Ok true else any_strong_quorum mb ls
  end.
Definition Stable (c : PbftSegmentChkp) (mb : Membership) : outcome bool :=
  if negb (chkp_done c) then Ok false
  else any_strong_quorum mb (GetValues (doneMsgIndex c)).

Definition aggregateToString (digests : list bytes) : string :=
  foldl (λ str d, String.append str (contents d)) EmptyString digests.

(** [for i, sn := range segment.SeqNrs() { digests[sn] = doneDigests[i] }] *)
Fixpoint assign_digests (sns : list SeqNr) (i : Z) (doneDigests : list bytes)
    (m : gmap SeqNr bytes) : outcome (gmap SeqNr bytes) :=
  match sns with
  | [] => Ok m
  | sn :: sns =>
      d ← index doneDigests i;
      assign_digests sns (i + 1)%Z doneDigests (<[sn := d]> m)
  end.

Definition NodeDone (c : PbftSegmentChkp) (nodeID : NodeID) (doneDigests : list bytes)
    (segment : Segment) : outcome PbftSegmentChkp :=
  if bool_decide (nodeID ∈ doneReceived c) then Ok c
  else
    let received := {[nodeID]} ∪ doneReceived c in
    let strKey := aggregateToString doneDigests in
    let ids := default [] (doneMsgIndex c !! strKey) ++ [nodeID] in
    let idx := <[strKey := ids]> (doneMsgIndex c) in
    enough ← HaveWeakQuorum (seg_Membership segment) ids;
    if enough : bool then
      digests ← match chkp_digests c with
                | Some m => Ok (Some m)
                | None => m ← assign_digests (Seg.SeqNrs segment) 0 doneDigests ∅; Ok (Some m)
                end;
      Ok (mkSegChkp received idx digests (chkp_done c) (Some ids) (CatchingUp c))
    else Ok (mkSegChkp received idx (chkp_digests c) (chkp_done c) (chkp_doneNodes c)
               (CatchingUp c)).

(** ** Assigning digests *)
Lemma assign_digests_spec sns i ds m m' :
  (0 ≤ i)%Z → NoDup sns → assign_digests sns i ds m = Ok m' →
  (∀ k sn, sns !! k = Some sn → ∃ d, ds !! (Z.to_nat i + k) = Some d ∧ m' !! sn = Some d) ∧
  (∀ sn, sn ∉ sns → m' !! sn = m !! sn).
Proof.
  revert i m. induction sns as [|s sns IH]; intros i m Hi Hnd; simpl.
  { intros [= <-]. split; [done|done]. }
  inversion_clear Hnd as [|?? Hni Hnd']. intros H. outcome_inv.
  apply index_lookup in Hr as [_ Hr].
  destruct (IH (i + 1)%Z _ ltac:(lia) Hnd' H) as [IH1 IH2]. split.
  - intros [|k] sn; simpl; [intros [= <-]|].
    + exists r. rewrite Nat.add_0_r. split; [done|].
      rewrite IH2 by done. apply lookup_insert_eq.
    + intros Hk. destruct (IH1 k sn Hk) as (d & Hd & Hm). exists d.
      split; [|done]. rewrite <- Hd. f_equal. lia.
  - intros sn Hsn. rewrite IH2 by set_solver. apply lookup_insert_ne. set_solver.
Qed.

Lemma assign_digests_ok sns i ds m :
  (0 ≤ i)%Z → Z.to_nat i + length sns ≤ length ds → ∃ m', assign_digests sns i ds m = Ok m'.
Proof.
  revert i m. induction sns as [|s sns IH]; intros i m Hi Hl; simpl in *; [by eexists|].
  destruct (lookup_lt_is_Some_2 ds (Z.to_nat i)) as [d Hd]; [lia|].
  assert (index ds i = Ok d) as -> by by apply index_lookup. simpl. apply IH; lia.
Qed.

(** ** Invariant, relative to the Done messages [Rcv] received so far *)
Section invariant.
Context (Rcv : NodeID → list bytes → Prop) (seg : Segment).

(** A weak quorum of nodes announced (up to how the digests are cut) the digests [ds]. *)
Definition done_certificate (ds : list bytes) : Prop :=
  ∃ W, NoDup W ∧ weak_quorum (seg_Membership seg) W ∧
    ∀ id, id ∈ W → ∃ ds', Rcv id ds' ∧ aggregateToString ds' = aggregateToString ds.

Record inv (c : PbftSegmentChkp) : Prop := {
  inv_index : ∀ key ids id, doneMsgIndex c !! key = Some ids → id ∈ ids →
    id ∈ doneReceived c ∧ ∃ ds, Rcv id ds ∧ aggregateToString ds = key;
  inv_nodup : ∀ key ids, doneMsgIndex c !! key = Some ids →
    NoDup ids ∧ members (seg_Membership seg) ids;
  inv_digests : ∀ m, chkp_digests c = Some m →
    ∃ ds, done_certificate ds ∧
      ∀ k sn, Seg.SeqNrs seg !! k = Some sn → ∃ d, ds !! k = Some d ∧ m !! sn = Some d;
}.

Lemma inv_new : inv NewPbftSegmentChkp.
Proof. split; simpl; intros; [|by simplify_map_eq..]; done. Qed.

Lemma inv_SetDone c : inv c → inv (SetDone c).
Proof. intros []; by split. Qed.

Lemma inv_set_CatchingUp b c : inv c → inv (set_CatchingUp b c).
Proof. intros []; by split. Qed.

Lemma inv_NodeDone c nodeID ds c' :
  inv c → Rcv nodeID ds → NodeDone c nodeID ds seg = Ok c' → inv c'.
Proof.
  intros [Hi Hn Hd] Hr. unfold NodeDone. case_bool_decide as Hin; [by intros [= <-]; split|].
  set (key := aggregateToString ds). set (ids := default [] (doneMsgIndex c !! key) ++ [nodeID]).
  assert (∀ id, id ∈ ids → id ∈ {[nodeID]} ∪ doneReceived c ∧
            ∃ ds', Rcv id ds' ∧ aggregateToString ds' = key) as Hids.
  { intros id [Hid| ->%list_elem_of_singleton]%elem_of_app; [|set_solver].
    destruct (doneMsgIndex c !! key) as [ids0|] eqn:E; simpl in Hid; [|by apply elem_of_nil in Hid].
    destruct (Hi key ids0 id E Hid) as [? ?]. split; [set_solver|done]. }
  assert (NoDup ids) as Hnd.
  { apply list.NoDup_app. split_and!; [..|apply NoDup_singleton].
    - destruct (doneMsgIndex c !! key) as [ids0|] eqn:E; simpl; [by eapply Hn|apply NoDup_nil_2].
    - intros id Hid ->%list_elem_of_singleton. apply Hin.
      destruct (doneMsgIndex c !! key) as [ids0|] eqn:E; simpl in Hid; [|by apply elem_of_nil in Hid].
      by apply (Hi key ids0 nodeID E Hid). }
  assert (∀ k l id, <[key:=ids]> (doneMsgIndex c) !! k = Some l → id ∈ l →
            id ∈ {[nodeID]} ∪ doneReceived c ∧ ∃ ds', Rcv id ds' ∧ aggregateToString ds' = k) as Hi'.
  { intros k l id [[<- <-]|[? Hl]]%lookup_insert_Some Hid; [by apply Hids|].
    destruct (Hi k l id Hl Hid) as [? ?]. split; [set_solver|done]. }
  intros H. outcome_inv.
  assert (∀ k l, <[key:=ids]> (doneMsgIndex c) !! k = Some l →
            NoDup l ∧ members (seg_Membership seg) l) as Hn'.
  { intros k l [[<- <-]|[? Hl]]%lookup_insert_Some; [|by eapply Hn].
    split; [done|by eapply HaveWeakQuorum_members]. }
  destruct r; [|injection H as <-; by split].
  outcome_inv. split; simpl; [done..|]. intros m ->.
  destruct (chkp_digests c) as [m0|] eqn:E; [simplify_eq; by apply Hd|].
  outcome_inv. exists ds. split.
  { exists ids. split_and!; [done..|]. intros id Hid. by apply Hids. }
  intros k sn Hk. match goal with Ha : assign_digests _ _ _ _ = Ok _ |- _ =>
    apply assign_digests_spec in Ha as [Hs _]; [|done|apply GetSortedKeys_NoDup] end.
  by apply Hs.
Qed.
End invariant.

(** The answer of [Stable] does not depend on the iteration order. *)
Lemma any_strong_quorum_ok mb ls :
  voting mb → Forall (members mb) ls →
  any_strong_quorum mb ls = Ok (bool_decide (Exists (λ ids, (strong_q mb ≤ weight mb ids)%Z) ls)).
Proof.
  intros Hv. induction ls as [|ids ls IH]; intros Hf.
  { rewrite bool_decide_eq_false_2; [done|]. by inversion 1. }
  inversion_clear Hf. cbn [any_strong_quorum]. rewrite HaveStrongQuorum_ok by done. simpl.
  destruct (decide (strong_q mb ≤ weight mb ids)%Z) as [Hq|Hq].
  - rewrite !bool_decide_eq_true_2; [done|by apply Exists_cons_hd|done].
  - rewrite (bool_decide_eq_false_2 (_ ≤ _)%Z) by done. rewrite IH by done. f_equal. apply bool_decide_ext. rewrite Exists_cons. tauto.
Qed.

Lemma Stable_ok Rcv seg c :
  voting (seg_Membership seg) → inv Rcv seg c →
  Stable c (seg_Membership seg) =
    Ok (chkp_done c && bool_decide (Exists (λ ids, (strong_q (seg_Membership seg) ≤
          weight (seg_Membership seg) ids)%Z) (GetValues (doneMsgIndex c)))).
Proof.
  intros Hv Hi. unfold Stable. destruct (chkp_done c); [|done].
  rewrite any_strong_quorum_ok; [done..|]. apply list.Forall_forall. unfold GetValues.
  intros ids ([key ids'] & -> & Hin%elem_of_map_to_list)%list_elem_of_fmap.
  by eapply (inv_nodup _ _ _ Hi).
Qed.

Lemma inv_mono (R R' : NodeID → list bytes → Prop) seg c :
  (∀ id ds, R id ds → R' id ds) → inv R seg c → inv R' seg c.
Proof.
  intros HR [Hi Hn Hd]. split; [|done|].
  - intros key ids id Hk Hid. destruct (Hi key ids id Hk Hid) as [? (ds & ? & ?)]. eauto.
  - intros m Hm. destruct (Hd m Hm) as (ds & (W & ? & ? & HW) & ?). exists ds.
    split; [|done]. exists W. split_and!; [done..|]. intros id Hid.
    destruct (HW id Hid) as (ds' & ? & ?). eauto.
Qed.

(** ** Aggregation of digests of one length is injective *)
Lemma aggregate_app str ds :
  foldl (λ str d, String.append str (contents d)) str ds =
    String.append str (aggregateToString ds).
Proof.
  unfold aggregateToString. revert str. induction ds as [|d ds IH]; intros str; simpl.
  - by rewrite Serialization.append_nil_r.
  - rewrite IH, (IH (String.append _ _)).
    change (String.append EmptyString (contents d)) with (contents d).
    induction str as [|ch str IHs]; [done|]. apply (f_equal (String ch)), IHs.
Qed.

Lemma aggregate_cons d ds :
  aggregateToString (d :: ds) = String.append (contents d) (aggregateToString ds).
Proof. unfold aggregateToString at 1. simpl. by rewrite aggregate_app. Qed.

Lemma aggregate_injective n ds1 ds2 :
  length ds1 = length ds2 →
  Forall (λ d, String.length (contents d) = n) ds1 →
  Forall (λ d, String.length (contents d) = n) ds2 →
  aggregateToString ds1 = aggregateToString ds2 → contents <$> ds1 = contents <$> ds2.
Proof.
  revert ds2. induction ds1 as [|d1 ds1 IH]; intros [|d2 ds2] Hl H1 H2; try done.
  rewrite !aggregate_cons. inversion_clear H1. inversion_clear H2.
  intros [Heq ?]%Serialization.append_inj_length; [|congruence].
  rewrite !fmap_cons, Heq. f_equal. apply IH; auto.
Qed.
End SegChkp.

Import SegChkp.

(** ** Properties *)

(** The checkpoint is stable exactly when the node is done and some Done
    message content was received from a strong quorum; once the digests are known they
    are those of a Done message announced by a weak quorum of nodes (so by a correct one),
    in the order of the sequence numbers; a node's second Done message changes nothing. *)
Theorem segment_checkpoint_digests Rcv seg c nodeID ds c' :
  voting (seg_Membership seg) →
  SegChkp.inv Rcv seg c → Rcv nodeID ds → NodeDone c nodeID ds seg = Ok c' →
  SegChkp.inv Rcv seg c' ∧
  (∃ b, Stable c' (seg_Membership seg) = Ok b ∧
     (b = true ↔ chkp_done c' = true ∧
        ∃ key ids, doneMsgIndex c' !! key = Some ids ∧ strong_quorum (seg_Membership seg) ids)) ∧
  (∀ ds', NodeDone c' nodeID ds' seg = Ok c') ∧
  (∀ m, Digests c' = Some m →
     ∃ ds0 W, NoDup W ∧ weak_quorum (seg_Membership seg) W ∧
       (∀ id, id ∈ W → ∃ ds', Rcv id ds' ∧ aggregateToString ds' = aggregateToString ds0) ∧
       ∀ k sn, Seg.SeqNrs seg !! k = Some sn → ∃ d, ds0 !! k = Some d ∧ m !! sn = Some d).
Proof.
  intros Hv Hi Hr Hd. pose proof (inv_NodeDone Rcv seg c nodeID ds c' Hi Hr Hd) as Hi'.
  split_and!; [done| | |].
  - eexists. split; [by eapply Stable_ok|].
    rewrite andb_true_iff, bool_decide_eq_true. apply and_iff_compat_l.
    rewrite list.Exists_exists. unfold GetValues. split.
    + intros (ids & ([key ids'] & -> & Hin%elem_of_map_to_list)%list_elem_of_fmap & Hq).
      exists key, ids'. split; [done|]. unfold strong_quorum.
      rewrite HaveStrongQuorum_ok; [by rewrite bool_decide_eq_true_2|done|].
      by eapply (inv_nodup _ _ _ Hi').
    + intros (key & ids & Hin & [_ ?]%HaveStrongQuorum_true); [|done]. exists ids.
      split; [|done]. apply list_elem_of_fmap. exists (key, ids).
      by rewrite elem_of_map_to_list.
  - intros ds'. unfold NodeDone. rewrite bool_decide_eq_true_2; [done|].
    unfold NodeDone in Hd. case_bool_decide; [by injection Hd as <-|].
    outcome_inv. destruct r; outcome_inv; injection Hd as <- || idtac; simpl; set_solver.
  - intros m Hm. destruct (inv_digests _ _ _ Hi' m Hm) as (ds0 & (W & ? & ? & ?) & ?).
    by exists ds0, W.
Qed.

(** Done messages are compared by the concatenation of their digests, which
    does not determine them: after a correct node announced the digests of both slots, a
    faulty node that announces their concatenation as one digest completes the weak quorum
    and makes the receiver index that message out of range: it panics. *)
Theorem done_message_collision_panics :
  ∃ c, NodeDone NewPbftSegmentChkp "0" [Some "d0"; Some "d1"] seg4 = Ok c ∧
       NodeDone c "3" [Some "d0d1"] seg4 = Panic IndexOutOfRange.
Proof. eexists. split; reflexivity. Qed.

(** For messages with the same number of digests, all of the length of the
    hash function's output, the concatenation does determine the digests. *)
Theorem done_digests_aggregate_injective n ds1 ds2 :
  length ds1 = length ds2 →
  Forall (λ d, String.length (contents d) = n) ds1 →
  Forall (λ d, String.length (contents d) = n) ds2 →
  aggregateToString ds1 = aggregateToString ds2 → contents <$> ds1 = contents <$> ds2.
Proof. apply aggregate_injective. Qed.

Lemma done_digests_aggregate_injective_witness :
  contents <$> [Some "ab"; Some "cd"] = contents <$> [Some "ab"; Some "cd"].
Proof.
  apply (done_digests_aggregate_injective 2); [done|by repeat constructor|by repeat constructor|done].
Defined.

Lemma segment_checkpoint_digests_witness :
  ∃ c c', NodeDone c "1" [Some "a"; Some "b"] seg4 = Ok c' ∧
    ∃ m, Digests c' = Some m ∧ ∃ ds0 W, NoDup W ∧ weak_quorum (seg_Membership seg4) W ∧
      (∀ id, id ∈ W → ∃ ds', True ∧ aggregateToString ds' = aggregateToString ds0) ∧
      ∀ k sn, Seg.SeqNrs seg4 !! k = Some sn → ∃ d, ds0 !! k = Some d ∧ m !! sn = Some d.
Proof.
  destruct (NodeDone NewPbftSegmentChkp "0" [Some "a"; Some "b"] seg4) as [c| |] eqn:E1;
    [|done..].
  destruct (NodeDone c "1" [Some "a"; Some "b"] seg4) as [c'| |] eqn:E2;
    [|vm_compute in E1; injection E1 as <-; vm_compute in E2; done..].
  pose proof (inv_NodeDone (λ _ _, True) seg4 _ _ _ _ (inv_new _ _) I E1) as Hi.
  destruct (segment_checkpoint_digests (λ _ _, True) seg4 c "1" _ c' mb4_voting Hi I E2)
    as (_ & _ & _ & H).
  exists c, c'. split; [done|].
  vm_compute in E1. injection E1 as <-. vm_compute in E2. injection E2 as <-.
  eexists. split; [reflexivity|]. apply H. reflexivity.
Defined.
