(* ===== verification/PbftViewChangeState.v ===== *)
(** * pkg/orderers/internal/common/pbftviewchangestate.go: view change bookkeeping

    P and Q sets, the choice of what to re-propose in a new view, and the Preprepares of
    the new view.  ([SetLocalPreprepares], which reads the PBFT state, is in PbftState.) *)
From Stdlib Require Import ZArith Lia.
From stdpp Require Import prelude gmap strings list sorting fin_maps numbers.
From S2P Require Import Prelude Util Membership PbftTypes.
Import Maputil Membutil.

Notation ViewChangePSet := (gmap SeqNr PSetEntry) (only parsing).
Notation ViewChangeQSet := (gmap SeqNr (gmap string ViewNr)) (only parsing).

Record PbftViewChangeState := mkVCState {
  vcs_Membership : Membership;
  SignedViewChanges : gmap NodeID SignedViewChange;
  Reproposals : gmap SeqNr bytes;
  vcs_Preprepares : gmap SeqNr (option Preprepare);
  PrepreparedIDs : gmap SeqNr (list NodeID);
}.

Definition set_SignedViewChanges svcs (vc : PbftViewChangeState) : PbftViewChangeState :=
  mkVCState (vcs_Membership vc) svcs (Reproposals vc) (vcs_Preprepares vc) (PrepreparedIDs vc).
Definition set_Reproposals r (vc : PbftViewChangeState) : PbftViewChangeState :=
  mkVCState (vcs_Membership vc) (SignedViewChanges vc) r (vcs_Preprepares vc) (PrepreparedIDs vc).
Definition set_vcs_Preprepares p (vc : PbftViewChangeState) : PbftViewChangeState :=
  mkVCState (vcs_Membership vc) (SignedViewChanges vc) (Reproposals vc) p (PrepreparedIDs vc).
Definition set_PrepreparedIDs p (vc : PbftViewChangeState) : PbftViewChangeState :=
  mkVCState (vcs_Membership vc) (SignedViewChanges vc) (Reproposals vc) (vcs_Preprepares vc) p.

Module VCState.
Definition NewPbftViewChangeState (seqNrs : list SeqNr) (mb : Membership) : PbftViewChangeState :=
  mkVCState mb ∅
    (foldl (λ m sn, <[sn := None]> m) ∅ seqNrs)
    (foldl (λ m sn, <[sn := None]> m) ∅ seqNrs) ∅.

Definition is_nil {A} (o : option A) : bool := match o with None => true | Some _ => false end.

Definition EnoughViewChanges (vc : PbftViewChangeState) : bool :=
  forallb (λ r : bytes, negb (is_nil r)) (GetValues (Reproposals vc)).

Definition HasAllPreprepares (vc : PbftViewChangeState) : bool :=
  forallb (λ pp : option Preprepare, negb (is_nil pp)) (GetValues (vcs_Preprepares vc)).

(** ** P and Q sets *)
Definition reconstructP_step (pSet : ViewChangePSet) (entry : PSetEntry)
    : outcome ViewChangePSet :=
  match pSet !! pe_Sn entry with
  | Some _ => Err "invalid Pset: conflicting prepare entries"
  | None => Ok (<[pe_Sn entry := entry]> pSet)
  end.
Definition reconstructPSet (entries : list PSetEntry) : outcome ViewChangePSet :=
  outcome_foldl reconstructP_step ∅ entries.

Definition reconstructQ_step (qSet : ViewChangeQSet) (entry : QSetEntry)
    : outcome ViewChangeQSet :=
  let snEntry := default ∅ (qSet !! qe_Sn entry) in
  match snEntry !! contents (qe_Digest entry) with
  | Some _ => Err "invalid Qset: conflicting preprepare entries"
  | None => Ok (<[qe_Sn entry := <[contents (qe_Digest entry) := qe_View entry]> snEntry]> qSet)
  end.
Definition reconstructQSet (entries : list QSetEntry) : outcome ViewChangeQSet :=
  outcome_foldl reconstructQ_step ∅ entries.

(** A node whose sets do not reconstruct is skipped ([continue]). *)
Definition reconstruct_one (acc : gmap NodeID ViewChangePSet * gmap NodeID ViewChangeQSet)
    (entry : NodeID * SignedViewChange)
    : outcome (gmap NodeID ViewChangePSet * gmap NodeID ViewChangeQSet) :=
  vc ← deref (svc_ViewChange entry.2);
  match reconstructPSet (vc_PSet vc) with
  | Ok pSet =>
      match reconstructQSet (vc_QSet vc) with
      | Ok qSet => Ok (<[entry.1 := pSet]> acc.1, <[entry.1 := qSet]> acc.2)
      | Err _ => Ok acc
      | Panic p => Panic p
      end
  | Err _ => Ok acc
  | Panic p => Panic p
  end.
Definition reconstructPSetQSet (svcs : gmap NodeID SignedViewChange)
    : outcome (gmap NodeID ViewChangePSet * gmap NodeID ViewChangeQSet) :=
  outcome_foldl reconstruct_one (∅, ∅) (map_to_list svcs).

(** The conditions of the NewView construction; each loop collects node IDs in the
    enumeration order of the map. *)
Definition noPrepareConflictsA1 (pSets : gmap NodeID ViewChangePSet) (sn : SeqNr)
    (digest : bytes) (view : ViewNr) (mb : Membership) : outcome bool :=
  let nonConflicting :=
    foldl (λ acc '(nodeID, pSet),
      match (pSet : ViewChangePSet) !! sn with
      | None => acc ++ [nodeID]
      | Some entry =>
          if bool_decide (pe_View entry < view)%N
             || bool_decide (pe_View entry = view) && bytes_Equal (pe_Digest entry) digest
          then acc ++ [nodeID] else acc
      end) [] (map_to_list pSets) in
  HaveStrongQuorum mb nonConflicting.

(** [snEntry[string(digest)] >= view]: an absent digest reads as view 0. *)
Definition enoughPrepreparesA2 (qSets : gmap NodeID ViewChangeQSet) (sn : SeqNr)
    (digest : bytes) (view : ViewNr) (mb : Membership) : outcome (bool * list NodeID) :=
  let nodeIDs :=
    foldl (λ acc '(nodeID, qSet),
      match (qSet : ViewChangeQSet) !! sn with
      | Some snEntry =>
          if bool_decide (view ≤ default 0 (snEntry !! contents digest))%N
          then acc ++ [nodeID] else acc
      | None => acc
      end) [] (map_to_list qSets) in
  q ← HaveWeakQuorum mb nodeIDs;
  Ok (q, nodeIDs).

Definition nothingPreparedB (pSets : gmap NodeID ViewChangePSet) (sn : SeqNr) (mb : Membership)
    : outcome bool :=
  let nothingPrepared :=
    foldl (λ acc '(nodeID, pSet),
      match (pSet : ViewChangePSet) !! sn with
      | None => acc ++ [nodeID]
      | Some _ => acc
      end) [] (map_to_list pSets) in
  HaveStrongQuorum mb nothingPrepared.

(** The loop of [reproposal] over the P sets, in the order in which they are visited. *)
Fixpoint first_candidate (visit : list (NodeID * ViewChangePSet))
    (pSets : gmap NodeID ViewChangePSet) (qSets : gmap NodeID ViewChangeQSet)
    (sn : SeqNr) (mb : Membership) : outcome (bytes * list NodeID) :=
  match visit with
  | [] => Ok (None, [])
  | (_, pSet) :: visit =>
      match pSet !! sn with
      | None => first_candidate visit pSets qSets sn mb
      | Some entry =>
          '(a2, ids) ← enoughPrepreparesA2 qSets sn (pe_Digest entry) (pe_View entry) mb;
          a1 ← noPrepareConflictsA1 pSets sn (pe_Digest entry) (pe_View entry) mb;
          if a1 && a2 then Ok (pe_Digest entry, ids)
          else first_candidate visit pSets qSets sn mb
      end
  end.

Definition reproposal (rng : go_range) (pSets : gmap NodeID ViewChangePSet)
    (qSets : gmap NodeID ViewChangeQSet) (sn : SeqNr) (mb : Membership)
    : outcome (bytes * list NodeID) :=
  nothing ← nothingPreparedB pSets sn mb;
  if nothing : bool then Ok (Some EmptyString, [])
  else first_candidate (range_order rng (N.to_nat sn) (map_to_list pSets)) pSets qSets sn mb.

(** ** Collecting ViewChange messages *)
Definition updateReproposals (rng : go_range) (vc : PbftViewChangeState)
    : outcome PbftViewChangeState :=
  '(pSets, qSets) ← reconstructPSetQSet (SignedViewChanges vc);
  outcome_foldl (λ vc' '(sn, r),
    match (r : bytes) with
    | Some _ => Ok vc'
    | None =>
        '(digest, ids) ← reproposal rng pSets qSets sn (vcs_Membership vc);
        Ok (set_PrepreparedIDs (<[sn := ids]> (PrepreparedIDs vc'))
              (set_Reproposals (<[sn := digest]> (Reproposals vc')) vc'))
    end) vc (map_to_list (Reproposals vc)).

Definition AddSignedViewChange (rng : go_range) (vc : PbftViewChangeState)
    (svc : SignedViewChange) (from : NodeID) : outcome PbftViewChangeState :=
  if EnoughViewChanges vc then Ok vc
  else if negb (is_nil (SignedViewChanges vc !! from)) then Ok vc
  else
    let vc := set_SignedViewChanges (<[from := svc]> (SignedViewChanges vc)) vc in
    enough ← HaveStrongQuorum (vcs_Membership vc) (GetKeys (SignedViewChanges vc));
    if enough : bool then updateReproposals rng vc else Ok vc.

(** ** Preprepares of the new view *)
(** The Preprepare for a sequence number at which nothing was prepared: the pre-configured
    proposal if there is one, otherwise an empty one. *)
Definition empty_preprepare (view : ViewNr) (proposals : gmap SeqNr bytes) (sn : SeqNr) : Preprepare :=
  let data := match default None (proposals !! sn) with
              | Some d => Some d
              | None => Some EmptyString
              end in
  mkPreprepare sn view data true.

(** The body of the closure of [SetEmptyPreprepares]; it never stops the iteration. *)
Definition set_empty_step (view : ViewNr) (proposals : gmap SeqNr bytes)
    (acc : list (list bytes) * gmap SeqNr (option Preprepare)) (sn : SeqNr) (digest : bytes)
    : list (list bytes) * gmap SeqNr (option Preprepare) :=
  if negb (is_nil digest) && bool_decide (bytes_len digest = 0) then
    let pp := empty_preprepare view proposals sn in
    (acc.1 ++ [Serialization.SerializePreprepareForHashing pp], <[sn := Some pp]> acc.2)
  else acc.

Definition SetEmptyPreprepares (vc : PbftViewChangeState) (view : ViewNr)
    (proposals : gmap SeqNr bytes) : list (list bytes) * PbftViewChangeState :=
  let '(data, pps) :=
    IterateSorted (Reproposals vc)
      (λ acc sn digest, (set_empty_step view proposals acc sn digest, true))
      ([], vcs_Preprepares vc) in
  (data, set_vcs_Preprepares pps vc).

(** The body of the closure of [SetEmptyPreprepareDigests]: the next digest is taken, or the
    index panics. *)
Definition set_digest_step (digests : list bytes) (acc : outcome (Z * gmap SeqNr bytes))
    (sn : SeqNr) (digest : bytes) : outcome (Z * gmap SeqNr bytes) :=
  if negb (is_nil digest) && bool_decide (bytes_len digest = 0) then
    '(i, rps) ← acc;
    d ← index digests i;
    Ok ((i + 1)%Z, <[sn := d]> rps)
  else acc.

Definition SetEmptyPreprepareDigests (vc : PbftViewChangeState) (digests : list bytes)
    : outcome PbftViewChangeState :=
  '(i, rps) ← IterateSorted (Reproposals vc)
                (λ acc sn digest, (set_digest_step digests acc sn digest, true))
                (Ok (0%Z, Reproposals vc));
  if bool_decide (i ≠ Z.of_nat (length digests)) then Err "more digests than empty Preprepares"
  else Ok (set_Reproposals rps vc).

(** ** Conversion to message form, sorted by sequence number, view and digest *)
Definition entry_le (a b : SeqNr * ViewNr * string) : Prop :=
  (a.1.1 < b.1.1)%N ∨ a.1.1 = b.1.1 ∧
    ((a.1.2 < b.1.2)%N ∨ a.1.2 = b.1.2 ∧ String.le a.2 b.2).
#[export] Instance entry_le_dec a b : Decision (entry_le a b).
Proof. unfold entry_le. apply _. Defined.

Definition pe_key (e : PSetEntry) := (pe_Sn e, pe_View e, contents (pe_Digest e)).
Definition qe_key (e : QSetEntry) := (qe_Sn e, qe_View e, contents (qe_Digest e)).
Definition pe_le (a b : PSetEntry) : Prop := entry_le (pe_key a) (pe_key b).
Definition qe_le (a b : QSetEntry) : Prop := entry_le (qe_key a) (qe_key b).
#[export] Instance pe_le_dec : RelDecision pe_le.
Proof. intros a b. unfold pe_le. apply _. Defined.
#[export] Instance qe_le_dec : RelDecision qe_le.
Proof. intros a b. unfold qe_le. apply _. Defined.

Definition PSet_PbType (pSet : ViewChangePSet) : list PSetEntry :=
  merge_sort pe_le (GetValues pSet).

Definition qset_entries (qSet : ViewChangeQSet) : list QSetEntry :=
  map_to_list qSet ≫= λ '(sn, qEntry),
    (λ '(digest, view), mkQSetEntry sn view (Some digest)) <$> map_to_list (qEntry : gmap string ViewNr).
Definition QSet_PbType (qSet : ViewChangeQSet) : list QSetEntry :=
  merge_sort qe_le (qset_entries qSet).

(** ** The node lists collected by the conditions *)
Definition collected {V} (P : V → bool) (m : gmap NodeID V) : list NodeID :=
  (filter (λ e, P e.2 = true) (map_to_list m)).*1.

Lemma collect_fold {V} (P : V → bool) step (l : list (NodeID * V)) acc :
  (∀ acc id v, step acc (id, v) = if P v then acc ++ [id] else acc) →
  foldl step acc l = acc ++ (filter (λ e, P e.2 = true) l).*1.
Proof.
  intros Hs. revert acc. induction l as [|[id v] l IH]; intros acc.
  - symmetry. apply app_nil_r.
  - cbn [foldl]. rewrite Hs, filter_cons, IH. simpl.
    destruct (P v); simpl; [|done]. by rewrite <- app_assoc.
Qed.

Lemma collected_NoDup {V} P (m : gmap NodeID V) : NoDup (collected P m).
Proof.
  unfold collected. eapply sublist_NoDup; [apply (NoDup_fst_map_to_list m)|].
  apply fmap_sublist, sublist_filter.
Qed.

Lemma elem_of_collected {V} P (m : gmap NodeID V) id :
  id ∈ collected P m ↔ ∃ v, m !! id = Some v ∧ P v = true.
Proof.
  unfold collected. rewrite list_elem_of_fmap. split.
  - intros ([id' v] & -> & [HP Hin%elem_of_map_to_list]%list_elem_of_filter). eauto.
  - intros (v & Hv & HP). exists (id, v). split; [done|].
    rewrite list_elem_of_filter, elem_of_map_to_list. done.
Qed.

Definition not_conflicting (sn : SeqNr) (digest : bytes) (view : ViewNr) (pSet : ViewChangePSet) : bool :=
  match pSet !! sn with
  | None => true
  | Some entry => bool_decide (pe_View entry < view)%N
                  || bool_decide (pe_View entry = view) && bytes_Equal (pe_Digest entry) digest
  end.
Definition claims_preprepared (sn : SeqNr) (digest : bytes) (view : ViewNr) (qSet : ViewChangeQSet) : bool :=
  match qSet !! sn with
  | None => false
  | Some snEntry => bool_decide (view ≤ default 0 (snEntry !! contents digest))%N
  end.
Definition nothing_prepared (sn : SeqNr) (pSet : ViewChangePSet) : bool := is_nil (pSet !! sn).

Lemma noPrepareConflictsA1_eq pSets sn digest view mb :
  noPrepareConflictsA1 pSets sn digest view mb =
    HaveStrongQuorum mb (collected (not_conflicting sn digest view) pSets).
Proof.
  unfold noPrepareConflictsA1. rewrite (collect_fold (not_conflicting sn digest view)); [done|].
  intros acc id v. unfold not_conflicting. by destruct (v !! sn).
Qed.

Lemma enoughPrepreparesA2_eq qSets sn digest view mb :
  enoughPrepreparesA2 qSets sn digest view mb =
    (q ← HaveWeakQuorum mb (collected (claims_preprepared sn digest view) qSets);
     Ok (q, collected (claims_preprepared sn digest view) qSets)).
Proof.
  unfold enoughPrepreparesA2. rewrite (collect_fold (claims_preprepared sn digest view)); [done|].
  intros acc id v. unfold claims_preprepared. by destruct (v !! sn).
Qed.

Lemma nothingPreparedB_eq pSets sn mb :
  nothingPreparedB pSets sn mb = HaveStrongQuorum mb (collected (nothing_prepared sn) pSets).
Proof.
  unfold nothingPreparedB. rewrite (collect_fold (nothing_prepared sn)); [done|].
  intros acc id v. unfold nothing_prepared. by destruct (v !! sn).
Qed.

(** What a successful candidate search found. *)
Lemma first_candidate_spec visit pSets qSets sn mb r ids :
  first_candidate visit pSets qSets sn mb = Ok (r, ids) →
  (r = None ∧ ids = []) ∨
  ∃ id pSet entry, (id, pSet) ∈ visit ∧ pSet !! sn = Some entry ∧ r = pe_Digest entry ∧
    strong_quorum mb (collected (not_conflicting sn (pe_Digest entry) (pe_View entry)) pSets) ∧
    weak_quorum mb (collected (claims_preprepared sn (pe_Digest entry) (pe_View entry)) qSets) ∧
    ids = collected (claims_preprepared sn (pe_Digest entry) (pe_View entry)) qSets.
Proof.
  induction visit as [|[id pSet] visit IH]; cbn [first_candidate].
  { intros [= <- <-]. by left. }
  destruct (pSet !! sn) as [entry|] eqn:E.
  2:{ intros H. destruct (IH H) as [?|(i & p & e & ? & ?)]; [by left|].
      right. exists i, p, e. split; [set_solver|done]. }
  rewrite enoughPrepreparesA2_eq, noPrepareConflictsA1_eq. intros H. outcome_inv.
  match goal with H : (if ?a && ?b then _ else _) = _ |- _ => destruct (a && b) eqn:Hand end.
  - apply andb_true_iff in Hand as [-> ->]. injection H as <- <-. right.
    exists id, pSet, entry. split; [set_solver|]. done.
  - destruct (IH H) as [?|(i & p & e & ? & ?)]; [by left|].
    right. exists i, p, e. split; [set_solver|done].
Qed.

(** ** Safety of the re-proposal *)
Section reproposal_safe.
Context (mb : Membership) (faulty : list NodeID) (Hf : fault_bound mb faulty).
Context (pSets : gmap NodeID ViewChangePSet) (qSets : gmap NodeID ViewChangeQSet).
Context (sn : SeqNr) (d : string) (v : ViewNr).

(** Digest [d] was prepared for [sn] in view [v] by the correct nodes of a strong
    quorum [Q], and no correct node has prepared another digest since: this is what a
    commit in view [v] leaves behind in the P sets. *)
Definition prepared_by (Q : list NodeID) : Prop :=
  ∀ id pSet, id ∈ Q → id ∉ faulty → pSets !! id = Some pSet →
    ∃ e, pSet !! sn = Some e ∧ (v ≤ pe_View e)%N ∧ contents (pe_Digest e) = d.

(** No correct node has preprepared another digest for [sn] in a view after [v]. *)
Definition only_preprepared_since : Prop :=
  ∀ id qSet snEntry dg v', id ∉ faulty → qSets !! id = Some qSet → qSet !! sn = Some snEntry →
    snEntry !! dg = Some v' → (v < v')%N → dg = d.

Lemma strong_meets_prepared Q L :
  NoDup Q → strong_quorum mb Q → prepared_by Q →
  NoDup L → strong_quorum mb L → (∀ id, id ∈ L → is_Some (pSets !! id)) →
  ∃ id pSet e, id ∈ L ∧ pSets !! id = Some pSet ∧ pSet !! sn = Some e ∧
    (v ≤ pe_View e)%N ∧ contents (pe_Digest e) = d.
Proof.
  intros HQn HQ HQp HLn HL HLp.
  destruct (strong_meet (QuorumSystem := membutil_quorums mb faulty Hf) Q L)
    as (id & HidQ & HidL & Hc); [done..|].
  destruct (HLp id HidL) as [pSet Hp].
  destruct (HQp id pSet HidQ Hc Hp) as (e & ? & ? & ?). by exists id, pSet, e.
Qed.

Lemma nothing_prepared_excluded Q :
  NoDup Q → strong_quorum mb Q → prepared_by Q →
  nothingPreparedB pSets sn mb ≠ Ok true.
Proof.
  intros HQn HQ HQp. rewrite nothingPreparedB_eq. intros HL.
  destruct (strong_meets_prepared Q _ HQn HQ HQp (collected_NoDup _ _) HL)
    as (id & pSet & e & Hin & Hp & He & _).
  { intros id (pSet & ? & _)%elem_of_collected. by eexists. }
  apply elem_of_collected in Hin as (pSet' & Hp' & Hn). simplify_eq.
  unfold nothing_prepared in Hn. by rewrite He in Hn.
Qed.

Lemma candidate_is_prepared Q e :
  NoDup Q → strong_quorum mb Q → prepared_by Q → only_preprepared_since →
  strong_quorum mb (collected (not_conflicting sn (pe_Digest e) (pe_View e)) pSets) →
  weak_quorum mb (collected (claims_preprepared sn (pe_Digest e) (pe_View e)) qSets) →
  contents (pe_Digest e) = d.
Proof.
  intros HQn HQ HQp Hq HA1 HA2.
  destruct (strong_meets_prepared Q _ HQn HQ HQp (collected_NoDup _ _) HA1)
    as (id & pSet & e' & Hin & Hp & He & Hv & Hd).
  { intros id (pSet & ? & _)%elem_of_collected. by eexists. }
  apply elem_of_collected in Hin as (pSet' & Hp' & Hn). simplify_eq.
  unfold not_conflicting in Hn. rewrite He in Hn.
  apply orb_true_iff in Hn as [Hlt%bool_decide_eq_true|[_ Heq%bytes_Equal_true]%andb_true_iff];
    [|congruence].
  destruct (weak_correct (QuorumSystem := membutil_quorums mb faulty Hf) _
              (collected_NoDup _ _) HA2) as (id2 & Hin2 & Hc2).
  apply elem_of_collected in Hin2 as (qSet & Hqs & Hcl).
  unfold claims_preprepared in Hcl. destruct (qSet !! sn) as [snEntry|] eqn:Esn; [|done].
  apply bool_decide_eq_true in Hcl.
  destruct (snEntry !! contents (pe_Digest e)) as [v'|] eqn:Ev; simpl in Hcl; [|lia].
  eapply (Hq id2 qSet snEntry _ v'); [done..|lia].
Qed.
End reproposal_safe.

(** ** Sets in message form *)
Lemma reconstructPSet_ok entries (pSet : ViewChangePSet) :
  entries ≡ₚ GetValues pSet → map_Forall (λ sn e, pe_Sn e = sn) pSet →
  reconstructPSet entries = Ok pSet.
Proof.
  intros Hp Hwf. unfold reconstructPSet.
  assert (NoDup (pe_Sn <$> entries)) as Hnd.
  { rewrite Hp. unfold GetValues. rewrite <- list_fmap_compose.
    replace ((pe_Sn ∘ snd) <$> map_to_list pSet) with (map_to_list pSet).*1;
      [apply NoDup_fst_map_to_list|].
    apply list_fmap_ext. intros i [sn e] Hi. simpl. symmetry. apply Hwf.
    apply elem_of_map_to_list. by eapply list_elem_of_lookup_2. }
  assert (∀ l (acc : ViewChangePSet), NoDup (pe_Sn <$> l) →
    (∀ e, e ∈ l → acc !! pe_Sn e = None) →
    outcome_foldl reconstructP_step acc l = Ok (list_to_map ((λ e, (pe_Sn e, e)) <$> l) ∪ acc)) as Hg.
  { induction l as [|e l IH]; intros acc Hndl Hacc; simpl.
    - by rewrite (left_id_L ∅ (∪)).
    - unfold reconstructP_step at 1. rewrite (Hacc e) by set_solver. rewrite fmap_cons in Hndl.
      inversion_clear Hndl as [|?? Hni Hnd']. rewrite IH; [|done|].
      + rewrite <- insert_union_r; [by rewrite insert_union_l|].
        apply not_elem_of_list_to_map_1. by rewrite <- list_fmap_compose.
      + intros e' He'. rewrite lookup_insert_ne; [apply Hacc; set_solver|].
        intros Heq. apply Hni. rewrite Heq. by apply list_elem_of_fmap_2. }
  rewrite Hg; [|done|done]. rewrite (right_id_L ∅ (∪)). f_equal.
  apply map_eq. intros sn. apply option_eq. intros e.
  rewrite <- elem_of_list_to_map by by rewrite <- list_fmap_compose.
  rewrite list_elem_of_fmap. setoid_rewrite Hp. unfold GetValues. split.
  - intros (e' & [= -> ->] & ([sn' e2] & -> & Hin%elem_of_map_to_list)%list_elem_of_fmap).
    simpl. by rewrite (Hwf sn' e2 Hin).
  - intros He. exists e. rewrite (Hwf sn e He). split; [done|].
    apply list_elem_of_fmap. exists (sn, e). by rewrite elem_of_map_to_list.
Qed.

(** The Q set as a partial function of the sequence number and the digest. *)
Definition lookup2 (q : ViewChangeQSet) (sn : SeqNr) (dg : string) : option ViewNr :=
  q !! sn ≫= λ m, m !! dg.
Definition qe_pair (e : QSetEntry) : SeqNr * string := (qe_Sn e, contents (qe_Digest e)).
Definition nonempty_entries (q : ViewChangeQSet) : Prop :=
  map_Forall (λ _ m, m ≠ ∅) q.

Lemma lookup2_insert q sn dg v sn' dg' :
  lookup2 (<[sn := <[dg := v]> (default ∅ (q !! sn))]> q) sn' dg' =
    if decide ((sn, dg) = (sn', dg')) then Some v else lookup2 q sn' dg'.
Proof.
  unfold lookup2. destruct (decide (sn = sn')) as [->|Hsn].
  - rewrite lookup_insert_eq. simpl. destruct (decide (dg = dg')) as [->|Hdg].
    + by rewrite lookup_insert_eq, decide_True.
    + rewrite lookup_insert_ne, decide_False by congruence. by destruct (q !! sn').
  - rewrite lookup_insert_ne, decide_False by congruence. done.
Qed.

Lemma lookup2_ext q1 q2 :
  nonempty_entries q1 → nonempty_entries q2 →
  (∀ sn dg, lookup2 q1 sn dg = lookup2 q2 sn dg) → q1 = q2.
Proof.
  intros H1 H2 Hl. apply map_eq. intros sn. unfold lookup2 in Hl. specialize (Hl sn).
  destruct (q1 !! sn) as [m1|] eqn:E1, (q2 !! sn) as [m2|] eqn:E2; simpl in Hl; try done.
  - f_equal. by apply map_eq.
  - destruct (H1 sn m1 E1). apply map_empty. intros dg. by rewrite Hl.
  - destruct (H2 sn m2 E2). apply map_empty. intros dg. by rewrite <- Hl.
Qed.

Lemma reconstructQSet_fold l acc :
  NoDup (qe_pair <$> l) → (∀ e, e ∈ l → lookup2 acc (qe_Sn e) (contents (qe_Digest e)) = None) →
  nonempty_entries acc →
  ∃ q, outcome_foldl reconstructQ_step acc l = Ok q ∧ nonempty_entries q ∧
    ∀ sn dg v, lookup2 q sn dg = Some v ↔
      lookup2 acc sn dg = Some v ∨ ∃ e, e ∈ l ∧ qe_pair e = (sn, dg) ∧ qe_View e = v.
Proof.
  revert acc. induction l as [|e l IH]; intros acc Hnd Hacc Hne.
  { exists acc. split_and!; [done..|]. intros. split; [by left|]. intros [?|(? & []%elem_of_nil & _)]; done. }
  rewrite fmap_cons in Hnd. inversion_clear Hnd as [|?? Hni Hnd']. cbn [outcome_foldl].
  unfold reconstructQ_step at 1. cbn zeta.
  assert (default ∅ (acc !! qe_Sn e) !! contents (qe_Digest e) = None) as ->.
  { pose proof (Hacc e) as He. unfold lookup2 in He.
    destruct (acc !! qe_Sn e); simpl in *; [apply He; set_solver|done]. }
  edestruct (IH (<[qe_Sn e := <[contents (qe_Digest e) := qe_View e]> (default ∅ (acc !! qe_Sn e))]> acc))
    as (q & Hq & Hqn & Hql); [done| | |].
  - intros e' He'. rewrite lookup2_insert. rewrite decide_False; [apply Hacc; set_solver|].
    intros Heq. apply Hni, list_elem_of_fmap. exists e'. done.
  - intros sn m [[<- <-]|[? Hm]]%lookup_insert_Some; [apply insert_non_empty|by eapply Hne].
  - exists q. split_and!; [done..|]. intros sn dg v. rewrite Hql, lookup2_insert.
    case_decide as Hd.
    + split.
      * intros [[= <-]|(e' & ? & ? & ?)]; right; [exists e|exists e']; set_solver.
      * intros [Hl|(e' & [->|?]%elem_of_cons & ? & ?)].
        -- simplify_eq. rewrite (Hacc e) in Hl by set_solver. done.
        -- left. congruence.
        -- right. by exists e'.
    + split.
      * intros [?|(e' & ? & ? & ?)]; [by left|right; exists e'; set_solver].
      * intros [?|(e' & [->|?]%elem_of_cons & ? & ?)]; [by left|done|right; by exists e'].
Qed.

Lemma elem_of_qset_entries q e :
  e ∈ qset_entries q ↔ qe_Digest e = Some (contents (qe_Digest e)) ∧
    lookup2 q (qe_Sn e) (contents (qe_Digest e)) = Some (qe_View e).
Proof.
  unfold qset_entries. rewrite list_elem_of_bind. split.
  - intros ([sn m] & Hin & Hm%elem_of_map_to_list).
    apply list_elem_of_fmap in Hin as ([dg v] & -> & Hv%elem_of_map_to_list).
    simpl. unfold lookup2. rewrite Hm. done.
  - unfold lookup2. intros [Hd Hl]. apply bind_Some in Hl as (m & Hm & Hv).
    exists (qe_Sn e, m). rewrite elem_of_map_to_list. split; [|done].
    apply list_elem_of_fmap. exists (contents (qe_Digest e), qe_View e).
    rewrite elem_of_map_to_list. split; [|done]. destruct e; simpl in *. by f_equal.
Qed.

Lemma qset_entries_NoDup q : NoDup (qe_pair <$> qset_entries q).
Proof.
  unfold qset_entries. pose proof (NoDup_fst_map_to_list q) as Hnd. revert Hnd.
  induction (map_to_list q) as [|[sn m] l IH]; [intros; apply NoDup_nil_2|].
  rewrite fmap_cons, bind_cons, fmap_app. intros [Hni Hnd]%list.NoDup_cons.
  apply list.NoDup_app. split_and!; [| |by apply IH].
  - rewrite <- list_fmap_compose.
    replace (_ <$> map_to_list m) with (pair sn <$> (map_to_list m).*1);
      [apply (NoDup_fmap_2 _), NoDup_fst_map_to_list|].
    rewrite <- list_fmap_compose. apply list_fmap_ext. by intros ? [].
  - intros [sn' dg] (e & Hp & ([dg1 v1] & -> & _)%list_elem_of_fmap)%list_elem_of_fmap
      (e2 & Hp2 & ([sn2 m2] & He2 & Hin2)%list_elem_of_bind)%list_elem_of_fmap.
    apply list_elem_of_fmap in He2 as ([dg2 v2] & -> & _). unfold qe_pair in *. simplify_eq/=.
    apply Hni, list_elem_of_fmap. eexists (_, m2). by split; [|exact Hin2].
Qed.

(** ** Filling in and hashing the empty Preprepares *)
Definition is_free (r : gmap SeqNr bytes) (sn : SeqNr) : Prop := r !! sn = Some (Some EmptyString).

#[export] Instance is_free_dec r sn : Decision (is_free r sn).
Proof. unfold is_free. apply _. Defined.

Lemma free_test (digest : bytes) :
  negb (is_nil digest) && bool_decide (bytes_len digest = 0) =
    bool_decide (digest = Some EmptyString).
Proof. destruct digest as [[|c s]|]; done. Qed.

Section empty_preprepares.
Context (r : gmap SeqNr bytes) (view : ViewNr) (proposals : gmap SeqNr bytes).
Let free (keys : list SeqNr) : list SeqNr := filter (is_free r) keys.

Lemma set_empty_fold keys acc :
  foldl (λ a sn, match r !! sn with
                 | Some digest => set_empty_step view proposals a sn digest
                 | None => a end) acc keys =
  (acc.1 ++ (Serialization.SerializePreprepareForHashing ∘ empty_preprepare view proposals
             <$> free keys),
   foldl (λ m '(sn, pp), <[sn := pp]> m) acc.2
     ((λ sn, (sn, Some (empty_preprepare view proposals sn))) <$> free keys)).
Proof.
  revert acc. unfold free. induction keys as [|sn keys IH]; intros acc; cbn [foldl].
  { rewrite filter_nil. simpl. rewrite app_nil_r. by destruct acc. }
  rewrite IH, filter_cons. unfold set_empty_step.
  destruct (decide (is_free r sn)) as [Hf|Hf]; unfold is_free in Hf;
    destruct (r !! sn) as [digest|]; simplify_eq/=.
  - by rewrite <- app_assoc.
  - rewrite free_test, bool_decide_eq_false_2 by congruence. done.
  - done.
Qed.

Lemma set_digest_fold digests keys i rps :
  i + length (free keys) ≤ length digests →
  foldl (λ a sn, match r !! sn with
                 | Some digest => set_digest_step digests a sn digest
                 | None => a end) (Ok (Z.of_nat i, rps)) keys =
  Ok (Z.of_nat (i + length (free keys)),
      foldl (λ m '(sn, d), <[sn := d]> m) rps (zip (free keys) (drop i digests))).
Proof.
  revert i rps. unfold free. induction keys as [|sn keys IH]; intros i rps Hl; cbn [foldl].
  { rewrite filter_nil. simpl. by rewrite Nat.add_0_r. }
  revert Hl. rewrite filter_cons. unfold set_digest_step at 2.
  destruct (decide (is_free r sn)) as [Hf|Hf]; unfold is_free in Hf;
    destruct (r !! sn) as [digest|]; simplify_eq/=; [|rewrite free_test, bool_decide_eq_false_2 by congruence; apply IH|apply IH].
  intros Hl. destruct (lookup_lt_is_Some_2 digests i) as [d Hd]; [lia|].
  rewrite (index_nat digests i d Hd). simpl.
  replace (Z.of_nat i + 1)%Z with (Z.of_nat (S i)) by lia.
  rewrite IH by lia. rewrite (drop_S _ _ _ Hd). simpl. do 2 f_equal. lia.
Qed.
End empty_preprepares.
End VCState.

Import VCState.

(** ** Properties *)

(** C5 (safety).  View change preserves commits: if digest [d] was prepared for [sn] in view
    [v] by (the correct members of) a strong quorum, and since then correct nodes have
    neither prepared nor preprepared another digest for [sn] in later views, then whatever
    P and Q sets the faulty nodes contribute, and whatever the iteration order, the new view
    re-proposes [d] or has to wait for more ViewChange messages; in particular it never
    declares [sn] free. *)
Theorem reproposal_preserves_committed rng mb faulty pSets qSets sn d v Q r ids :
  fault_bound mb faulty → NoDup Q → strong_quorum mb Q →
  prepared_by faulty pSets sn d v Q → only_preprepared_since faulty qSets sn d v →
  reproposal rng pSets qSets sn mb = Ok (r, ids) →
  r = None ∨ contents r = d ∧ ∃ id pSet e, pSets !! id = Some pSet ∧ pSet !! sn = Some e ∧ r = pe_Digest e.
Proof.
  intros Hf HQn HQ HQp Hq. unfold reproposal. intros H. outcome_inv.
  destruct r0.
  { by destruct (nothing_prepared_excluded mb faulty Hf pSets sn d v Q). }
  apply first_candidate_spec in H as [[-> _]|(id & pSet & e & Hin & He & -> & HA1 & HA2 & _)];
    [by left|right].
  split; [by eapply candidate_is_prepared|]. exists id, pSet, e. split_and!; [|done..].
  rewrite range_order_perm in Hin. by apply elem_of_map_to_list.
Qed.

(** An absent digest reads as view 0 in condition A2: a digest that no node
    preprepared is re-proposed as soon as one (faulty) node claims to have prepared it in
    view 0 and enough nodes preprepared something else. *)
Theorem reproposal_of_unknown_digest :
  let q (x : string) : ViewChangeQSet := {[ 0%N := {[ x := 0%N ]} ]} in
  let pSets : gmap NodeID ViewChangePSet :=
    list_to_map [("0", ∅); ("1", ∅); ("3", {[ 0%N := mkPSetEntry 0 0 (Some "forged") ]})] in
  let qSets := list_to_map [("0", q "real"); ("1", q "real"); ("3", ∅)] in
  (∀ id qSet snEntry, qSets !! id = Some qSet → qSet !! 0%N = Some snEntry →
     snEntry !! "forged" = None) ∧
  reproposal range_id pSets qSets 0 mb4 = Ok (Some "forged", ["1"; "0"]).
Proof.
  cbn zeta. split; [|reflexivity].
  intros id qSet snEntry Hq Hs.
  apply elem_of_list_to_map_2 in Hq. rewrite !elem_of_cons, elem_of_nil in Hq.
  destruct Hq as [[= -> ->]|[[= -> ->]|[[= -> ->]|[]]]]; by simplify_map_eq.
Qed.

(** When two different digests satisfy the conditions, the one re-proposed
    depends on the iteration order of a Go map, so two correct nodes can compute different
    re-proposals from the same ViewChange messages. *)
Theorem reproposal_order_dependent :
  ∃ (pSets : gmap NodeID ViewChangePSet) (qSets : gmap NodeID ViewChangeQSet) d1 d2 ids1 ids2,
    d1 ≠ d2 ∧
    reproposal range_id pSets qSets 0 mb4 = Ok (Some d1, ids1) ∧
    reproposal range_rev pSets qSets 0 mb4 = Ok (Some d2, ids2).
Proof.
  exists (list_to_map [("0", {[ 0%N := mkPSetEntry 0 1 (Some "a") ]}); ("1", ∅); ("2", ∅);
                       ("3", {[ 0%N := mkPSetEntry 0 1 (Some "b") ]})]),
    (list_to_map [("0", {[ 0%N := {[ "a" := 1%N ]} ]}); ("1", {[ 0%N := {[ "a" := 1%N ]} ]});
                  ("2", {[ 0%N := {[ "b" := 1%N ]} ]}); ("3", {[ 0%N := {[ "b" := 1%N ]} ]})]).
  do 4 eexists. split_and!; [|vm_compute; reflexivity..]. done.
Qed.

(** C31 (roundtrip).  The P and Q sets a node puts in a ViewChange message (as sorted lists)
    are reconstructed by the receiver exactly: the P set as a map from sequence numbers, the
    Q set up to sequence numbers with nothing preprepared. *)
Theorem pset_qset_roundtrip (pSet : ViewChangePSet) (qSet : ViewChangeQSet) :
  map_Forall (λ sn e, pe_Sn e = sn) pSet →
  reconstructPSet (PSet_PbType pSet) = Ok pSet ∧
  reconstructQSet (QSet_PbType qSet) = Ok (filter (λ e, e.2 ≠ ∅) qSet).
Proof.
  intros Hwf. split; [apply reconstructPSet_ok; [apply merge_sort_Permutation|done]|].
  unfold QSet_PbType, reconstructQSet.
  pose proof (merge_sort_Permutation qe_le (qset_entries qSet)) as Hp.
  destruct (reconstructQSet_fold (merge_sort qe_le (qset_entries qSet)) ∅) as (q & -> & Hne & Hl).
  - rewrite Hp. apply qset_entries_NoDup.
  - done.
  - intros ??. by rewrite lookup_empty.
  - f_equal. apply lookup2_ext; [done| |].
    + intros sn m [_ Hm]%map_lookup_filter_Some. done.
    + intros sn dg. apply option_eq. intros v. rewrite Hl.
      assert (lookup2 (filter (λ e, e.2 ≠ ∅) qSet) sn dg = Some v ↔ lookup2 qSet sn dg = Some v) as ->.
      { unfold lookup2. rewrite !bind_Some. setoid_rewrite map_lookup_filter_Some. simpl. split.
        - intros (m & [? _] & ?). eauto.
        - intros (m & ? & Hm). exists m. split_and!; [done| |done]. intros ->. by rewrite lookup_empty in Hm. }
      split.
      * intros [?|(e & He & Hpair & <-)]; [done|]. rewrite Hp in He.
        apply elem_of_qset_entries in He as [_ He]. unfold qe_pair in Hpair. by simplify_eq.
      * intros Hv. right. exists (mkQSetEntry sn v (Some dg)). rewrite Hp, elem_of_qset_entries. done.
Qed.

Lemma pset_qset_roundtrip_witness :
  let pSet : ViewChangePSet := {[ 1%N := mkPSetEntry 1 0 (Some "d") ]} in
  let qSet : ViewChangeQSet := {[ 1%N := {[ "d" := 0%N; "e" := 2%N ]}; 2%N := ∅ ]} in
  reconstructPSet (PSet_PbType pSet) = Ok pSet ∧
  reconstructQSet (QSet_PbType qSet) = Ok (filter (λ e, e.2 ≠ ∅) qSet).
Proof.
  cbn zeta. apply pset_qset_roundtrip. intros sn e [<- <-]%lookup_singleton_Some. done.
Defined.

Lemma reproposal_preserves_committed_witness :
  let p : ViewChangePSet := {[ 0%N := mkPSetEntry 0 1 (Some "d") ]} in
  let pSets : gmap NodeID ViewChangePSet := list_to_map [("0", p); ("1", p); ("2", p); ("3", ∅)] in
  let q : ViewChangeQSet := {[ 0%N := {[ "d" := 1%N ]} ]} in
  let qSets := list_to_map [("0", q); ("1", q); ("2", q); ("3", ∅)] in
  ∃ r ids, reproposal range_id pSets qSets 0 mb4 = Ok (r, ids) ∧
    (r = None ∨ contents r = "d" ∧ ∃ id pSet e, pSets !! id = Some pSet ∧ pSet !! 0%N = Some e ∧ r = pe_Digest e).
Proof.
  intros p pSets q qSets. do 2 eexists. split; [vm_compute; reflexivity|].
  eapply (reproposal_preserves_committed range_id mb4 ["3"] pSets qSets 0 "d" 1 ["0"; "1"; "2"]).
  - apply mb4_faults.
  - by apply (bool_decide_unpack _).
  - reflexivity.
  - intros id pSet Hin _ Hp. rewrite !elem_of_cons, elem_of_nil in Hin.
    assert (pSet = p) as ->; [|by exists (mkPSetEntry 0 1 (Some "d"))].
    destruct Hin as [->|[->|[->|[]]]]; vm_compute in Hp; by injection Hp.
  - intros id qSet snEntry dg v' _ Hq Hs Hd _. apply elem_of_list_to_map_2 in Hq.
    rewrite !elem_of_cons, elem_of_nil in Hq.
    destruct Hq as [[= -> ->]|[[= -> ->]|[[= -> ->]|[[= -> ->]|[]]]]]; unfold q in *; by simplify_map_eq.
  - vm_compute. reflexivity.
Defined.

(** For the sequence numbers at which nothing was prepared the new primary
    creates empty ("aborted") Preprepares for the new view and asks for their hashes; when the
    hashes come back, in the order of the request, each such sequence number gets the digest of
    exactly its own Preprepare, every other re-proposal and Preprepare stays as it was, and the
    sanity check on the number of digests succeeds.  [H] is any hash function. *)
Theorem empty_preprepares_hashed vc view proposals (H : list bytes → string) :
  let '(data, vc1) := SetEmptyPreprepares vc view proposals in
  ∃ vc2, SetEmptyPreprepareDigests vc1 (Some ∘ H <$> data) = Ok vc2 ∧
    ∀ sn,
      (Reproposals vc !! sn = Some (Some EmptyString) →
         let pp := empty_preprepare view proposals sn in
         vcs_Preprepares vc2 !! sn = Some (Some pp) ∧
         Reproposals vc2 !! sn = Some (Some (H (Serialization.SerializePreprepareForHashing pp)))) ∧
      (Reproposals vc !! sn ≠ Some (Some EmptyString) →
         vcs_Preprepares vc2 !! sn = vcs_Preprepares vc !! sn ∧
         Reproposals vc2 !! sn = Reproposals vc !! sn).
Proof.
  unfold SetEmptyPreprepares. rewrite IterateSorted_all, set_empty_fold. simpl.
  set (free := filter (is_free (Reproposals vc)) (GetSortedKeys (Reproposals vc))).
  assert (NoDup free) as Hnd by apply list.NoDup_filter, GetSortedKeys_NoDup.
  assert (∀ sn, sn ∈ free ↔ Reproposals vc !! sn = Some (Some EmptyString)) as Hfree.
  { intros sn. unfold free. rewrite list_elem_of_filter, elem_of_GetSortedKeys. unfold is_free.
    naive_solver. }
  unfold SetEmptyPreprepareDigests. simpl.
  rewrite IterateSorted_all.
  rewrite (set_digest_fold _ _ _ 0) by (rewrite !length_fmap; done). fold free. simpl.
  rewrite bool_decide_eq_false_2 by (rewrite !length_fmap; fold free; lia). rewrite drop_0.
  eexists. split; [done|]. simpl. intros sn.
  rewrite <- list_fmap_compose, zip_with_fmap_r, zip_with_diag.
  rewrite !foldl_insert_fun by done.
  split; intros Hsn; [rewrite !decide_True|rewrite !decide_False]; rewrite ?Hfree; done.
Qed.
