(* ===== verification/PbftState.v ===== *)
(** * pkg/orderers/internal/common/common.go: the state of one PBFT instance

    Also [SetLocalPreprepares] of pbftviewchangestate.go, which looks Preprepares up in
    the state. *)
From Stdlib Require Import ZArith Lia.
From stdpp Require Import prelude gmap strings list sorting fin_maps numbers.
From S2P Require Import Prelude Util Membership MessageBuffer PbftTypes PbftSlot PbftSegmentChkp.
From S2P Require Import PbftViewChangeState.
Import Maputil.

Record PbftProposalState := mkProposalState {
  ProposalsMade : Z;
  CertRequested : bool;
  CertRequestedView : ViewNr;
  ProposalTimeout : Z;
}.

Record State := mkState {
  st_Segment : Segment;
  MessageBuffers : gmap NodeID (MessageBuffer Message);
  Proposal : PbftProposalState;
  Slots : gmap ViewNr (gmap SeqNr PbftSlot);
  SegmentCheckpoint : PbftSegmentChkp;
  View : ViewNr;
  InViewChange : bool;
  ViewChangeStates : gmap ViewNr PbftViewChangeState;
}.

(** Field assignments. *)
Definition set_MessageBuffers b (s : State) : State :=
  mkState (st_Segment s) b (Proposal s) (Slots s) (SegmentCheckpoint s) (View s)
    (InViewChange s) (ViewChangeStates s).
Definition set_Proposal p (s : State) : State :=
  mkState (st_Segment s) (MessageBuffers s) p (Slots s) (SegmentCheckpoint s) (View s)
    (InViewChange s) (ViewChangeStates s).
Definition set_Slots sl (s : State) : State :=
  mkState (st_Segment s) (MessageBuffers s) (Proposal s) sl (SegmentCheckpoint s) (View s)
    (InViewChange s) (ViewChangeStates s).
Definition set_SegmentCheckpoint c (s : State) : State :=
  mkState (st_Segment s) (MessageBuffers s) (Proposal s) (Slots s) c (View s)
    (InViewChange s) (ViewChangeStates s).
Definition set_View v (s : State) : State :=
  mkState (st_Segment s) (MessageBuffers s) (Proposal s) (Slots s) (SegmentCheckpoint s) v
    (InViewChange s) (ViewChangeStates s).
Definition set_InViewChange b (s : State) : State :=
  mkState (st_Segment s) (MessageBuffers s) (Proposal s) (Slots s) (SegmentCheckpoint s) (View s)
    b (ViewChangeStates s).
Definition set_ViewChangeStates v (s : State) : State :=
  mkState (st_Segment s) (MessageBuffers s) (Proposal s) (Slots s) (SegmentCheckpoint s) (View s)
    (InViewChange s) v.

(** Commands over the PBFT state. *)
Notation PBFT := (M State event).

Module PState.
(** [state.Slots[view]] (a nil map when absent) and [state.Slots[view][sn]] (nil when absent). *)
Definition slots_of (st : State) (view : ViewNr) : gmap SeqNr PbftSlot := default ∅ (Slots st !! view).
Definition get_slot (st : State) (view : ViewNr) (sn : SeqNr) : option PbftSlot :=
  slots_of st view !! sn.
(** The slots of the current view. *)
Definition cur_slot (st : State) (sn : SeqNr) : option PbftSlot := get_slot st (View st) sn.
(** An update through the pointer [state.Slots[view][sn]]. *)
Definition upd_slot (view : ViewNr) (sn : SeqNr) (slot : PbftSlot) (st : State) : State :=
  set_Slots (<[view := <[sn := slot]> (slots_of st view)]> (Slots st)) st.

Definition NumCommitted (st : State) (view : ViewNr) : Z :=
  foldl (λ n slot, if Committed slot then (n + 1)%Z else n) 0%Z (GetValues (slots_of st view)).

(** [timeout *= 1 << view] on [time.Duration] (an [int64]); a shift by 64 or more is 0. *)
Definition computeTimeout (timeout : Z) (view : ViewNr) : Z :=
  let factor := if bool_decide (view < 64)%N then wrap_i64 (Z.shiftl 1 (Z.of_N view)) else 0%Z in
  wrap_i64 (timeout * factor).

(** The slot of [sn] in a new view: fresh, with the outcome carried over from the slots of
    the view being left. *)
Definition init_slot (st : State) (view : ViewNr) (acc : gmap SeqNr PbftSlot) (sn : SeqNr)
    : outcome (gmap SeqNr PbftSlot) :=
  let slot := Slot.NewPbftSlot (seg_Membership (st_Segment st)) in
  slot ← (if bool_decide (0 < view)%N then
            prevSlot ← deref (get_slot st (View st) sn);
            Slot.PopulateFromPrevious slot prevSlot view
          else Ok slot);
  Ok (<[sn := slot]> acc).

Definition InitView (params : ModuleParams) (view : ViewNr) : PBFT unit :=
  st ← get;
  if bool_decide (view < View st)%N then
    lift (Err "starting a view older than the current one")
  else if bool_decide (view ≠ 0%N) && bool_decide (view = View st) then skip
  else
    slots ← lift (outcome_foldl (init_slot st view) ∅ (Seg.SeqNrs (st_Segment st)));
    modify (set_Slots (<[view := slots]> (Slots st)));;
    st ← get;
    emit (TimerDelay (computeTimeout (cfg_ViewChangeSNTimeout (Config params)) view)
            [ViewChangeSNTimeout view (u64_of_int (NumCommitted st view))]);;
    emit (TimerDelay (computeTimeout (cfg_ViewChangeSegmentTimeout (Config params)) view)
            [ViewChangeSegTimeout view]);;
    modify (set_View view).

Definition AllCommitted (st : State) : bool :=
  bool_decide (NumCommitted st (View st) = Z.of_nat (size (slots_of st (View st)))).

(** The loop of [LookUpPreprepare], from view [view] down to 0. *)
Fixpoint look_up_from (st : State) (sn : SeqNr) (digest : bytes) (view : nat) : option Preprepare :=
  let found := slot ← get_slot st (N.of_nat view) sn; Slot.GetPreprepare slot digest in
  match found with
  | Some preprepare => Some preprepare
  | None => match view with
            | O => None
            | S view => look_up_from st sn digest view
            end
  end.
Definition LookUpPreprepare (st : State) (sn : SeqNr) (digest : bytes) : option Preprepare :=
  look_up_from st sn digest (N.to_nat (View st)).

(** The body of the loop of [SetLocalPreprepares] over the re-proposals. *)
Definition set_local_step (st : State) (view : ViewNr) (vc : PbftViewChangeState)
    (entry : SeqNr * bytes) : PbftViewChangeState :=
  let '(sn, digest) := entry in
  if VCState.is_nil (default None (vcs_Preprepares vc !! sn))
     && negb (VCState.is_nil digest) && bool_decide (0 < bytes_len digest) then
    match LookUpPreprepare st sn digest with
    | Some preprepare =>
        set_vcs_Preprepares (<[sn := Some (with_view preprepare view)]> (vcs_Preprepares vc)) vc
    | None => vc
    end
  else vc.
Definition SetLocalPreprepares (vc : PbftViewChangeState) (st : State) (view : ViewNr)
    : PbftViewChangeState :=
  foldl (set_local_step st view) vc (map_to_list (Reproposals vc)).

(** ** Lemmas *)
Lemma get_upd_eq st view sn slot : get_slot (upd_slot view sn slot st) view sn = Some slot.
Proof. unfold get_slot, slots_of. simpl. rewrite lookup_insert_eq. apply lookup_insert_eq. Qed.

Lemma get_upd st view sn slot view' sn' :
  get_slot (upd_slot view sn slot st) view' sn' =
    if decide (view = view' ∧ sn = sn') then Some slot else get_slot st view' sn'.
Proof.
  unfold get_slot, slots_of. simpl.
  destruct (decide (view = view')) as [<-|Hv].
  - rewrite lookup_insert_eq. simpl. destruct (decide (sn = sn')) as [<-|Hs].
    + rewrite lookup_insert_eq, decide_True by done. done.
    + rewrite lookup_insert_ne by done. by rewrite decide_False by (intros [_ ?]; done).
  - rewrite lookup_insert_ne by done. by rewrite decide_False by (intros [? _]; done).
Qed.

Lemma NumCommitted_count st view :
  NumCommitted st view =
    Z.of_nat (length (filter (λ s, Committed s = true) (GetValues (slots_of st view)))).
Proof.
  unfold NumCommitted. assert (∀ l n,
    foldl (λ n slot, if Committed slot then (n + 1)%Z else n) n l =
      (n + Z.of_nat (length (filter (λ s, Committed s = true) l)))%Z) as H; [|by rewrite H].
  induction l as [|s l IH]; intros n; [simpl; lia|].
  cbn [foldl]. rewrite IH, filter_cons. destruct (Committed s); simpl; lia.
Qed.

(** [AllCommitted]: every slot of the current view is committed. *)
Lemma AllCommitted_spec st :
  AllCommitted st = true ↔ ∀ sn slot, cur_slot st sn = Some slot → Committed slot = true.
Proof.
  unfold AllCommitted. rewrite bool_decide_eq_true, NumCommitted_count.
  unfold cur_slot, get_slot. set (m := slots_of st (View st)).
  replace (size m) with (length (GetValues m)) by (unfold GetValues; by rewrite length_fmap, length_map_to_list).
  rewrite Nat2Z.inj_iff, filter_length_all. unfold GetValues. rewrite list.Forall_forall. split.
  - intros H sn slot Hs. apply H, list_elem_of_fmap. exists (sn, slot).
    split; [done|]. by apply elem_of_map_to_list.
  - intros H x ([sn slot] & -> & Hin%elem_of_map_to_list)%list_elem_of_fmap. by eapply H.
Qed.

Lemma look_up_from_spec st sn digest n :
  match look_up_from st sn digest n with
  | Some pp => ∃ v slot, v ≤ n ∧ get_slot st (N.of_nat v) sn = Some slot ∧
      Slot.GetPreprepare slot digest = Some pp ∧
      ∀ v' slot', v < v' ≤ n → get_slot st (N.of_nat v') sn = Some slot' →
        Slot.GetPreprepare slot' digest = None
  | None => ∀ v slot, v ≤ n → get_slot st (N.of_nat v) sn = Some slot →
      Slot.GetPreprepare slot digest = None
  end.
Proof.
  induction n as [|n IH]; cbn [look_up_from].
  - destruct (get_slot st (N.of_nat 0) sn) as [slot|] eqn:E; simpl.
    + destruct (Slot.GetPreprepare slot digest) as [pp|] eqn:E2.
      * exists 0, slot. split_and!; [lia|done..|]. intros ?? ?. lia.
      * intros v slot' Hv. assert (v = 0) as -> by lia. rewrite E. naive_solver.
    + intros v slot' Hv. assert (v = 0) as -> by lia. by rewrite E.
  - destruct (get_slot st (N.of_nat (S n)) sn ≫= λ slot, Slot.GetPreprepare slot digest)
      as [pp|] eqn:E.
    + apply bind_Some in E as (slot & E & E2). exists (S n), slot.
      split_and!; [lia|done..|]. intros ?? ?. lia.
    + assert (∀ slot, get_slot st (N.of_nat (S n)) sn = Some slot →
                Slot.GetPreprepare slot digest = None) as Hn.
      { intros slot Hs. by rewrite Hs in E. }
      destruct (look_up_from st sn digest n) as [pp|].
      * destruct IH as (v & slot & ? & ? & ? & Hmax). exists v, slot. split_and!; [lia|done..|].
        intros v' slot' Hv'. destruct (decide (v' = S n)) as [->|]; [apply Hn|apply Hmax; lia].
      * intros v slot Hv. destruct (decide (v = S n)) as [->|]; [apply Hn|apply IH; lia].
Qed.

(** Every slot of a view just initialised. *)
Lemma init_slots_spec st view sns acc slots :
  outcome_foldl (init_slot st view) acc sns = Ok slots →
  NoDup sns →
  (∀ sn, sn ∈ sns → ∃ slot,
     slots !! sn = Some slot ∧
     if decide (0 < view)%N then ∃ prev, get_slot st (View st) sn = Some prev ∧
       Slot.PopulateFromPrevious (Slot.NewPbftSlot (seg_Membership (st_Segment st))) prev view = Ok slot
     else slot = Slot.NewPbftSlot (seg_Membership (st_Segment st))) ∧
  (∀ sn, sn ∉ sns → slots !! sn = acc !! sn).
Proof.
  revert acc. induction sns as [|s sns IH]; intros acc; cbn [outcome_foldl].
  { intros [= <-] _. split; [|done]. intros sn. by rewrite elem_of_nil. }
  intros H [Hs Hnd]%list.NoDup_cons. destruct (init_slot st view acc s) as [acc'| |] eqn:E; try done.
  destruct (IH _ H Hnd) as [IH1 IH2]. unfold init_slot in E. outcome_inv. split.
  - intros sn [->|Hin]%elem_of_cons; [|by apply IH1].
    exists r. rewrite IH2, lookup_insert_eq by done. split; [done|].
    destruct (decide (0 < view)%N); [rewrite bool_decide_eq_true_2 in Hr by done|
      rewrite bool_decide_eq_false_2 in Hr by done; by simplify_eq].
    outcome_inv. eexists. split; [reflexivity|done].
  - intros sn Hn. rewrite IH2 by set_solver. rewrite lookup_insert_ne; [done|set_solver].
Qed.

Lemma init_slots_ok st view sns acc :
  (∀ sn, sn ∈ sns → ∃ prev, get_slot st (View st) sn = Some prev ∧
     (Committed prev = true → is_Some (slot_Preprepare prev))) →
  ∃ slots, outcome_foldl (init_slot st view) acc sns = Ok slots.
Proof.
  revert acc. induction sns as [|s sns IH]; intros acc Hp; cbn [outcome_foldl]; [by eexists|].
  assert (∃ acc', init_slot st view acc s = Ok acc') as [acc' ->]; [|apply IH; set_solver].
  unfold init_slot. case_bool_decide; [|by eexists].
  destruct (Hp s) as (prev & -> & Hc); [set_solver|]. simpl. unfold Slot.PopulateFromPrevious.
  destruct (Committed prev); [|by eexists]. destruct Hc as [pp ->]; [done|]. by eexists.
Qed.
End PState.

Import PState.

(** ** Properties *)

(** [LookUpPreprepare] terminates and returns the Preprepare of the latest
    view, among those up to the current one that the node entered, in which a Preprepare with
    exactly the given (non-nil) digest was preprepared at [sn]; nil when there is none. *)
Theorem look_up_preprepare_latest st sn digest :
  match LookUpPreprepare st sn digest with
  | Some pp => ∃ v slot, (v ≤ View st)%N ∧ get_slot st v sn = Some slot ∧
      Preprepared slot = true ∧ digest ≠ None ∧ contents (Digest slot) = contents digest ∧
      slot_Preprepare slot = Some pp ∧
      ∀ v' slot', (v < v' ≤ View st)%N → get_slot st v' sn = Some slot' →
        Slot.GetPreprepare slot' digest = None
  | None => ∀ v slot, (v ≤ View st)%N → get_slot st v sn = Some slot →
      Slot.GetPreprepare slot digest = None
  end.
Proof.
  unfold LookUpPreprepare. pose proof (look_up_from_spec st sn digest (N.to_nat (View st))) as H.
  destruct (look_up_from _ _ _ _) as [pp|].
  - destruct H as (v & slot & Hv & Hs & Hg & Hmax). exists (N.of_nat v), slot.
    unfold Slot.GetPreprepare in Hg. destruct digest as [d|]; [|done].
    destruct (Preprepared slot) eqn:Ep; [|done]. simpl in Hg.
    destruct (bytes_Equal _ _) eqn:Eb; [|done]. apply bytes_Equal_true in Eb.
    split_and!; try done; [lia|]. intros v' slot' Hv' Hs'. apply (Hmax (N.to_nat v')); [lia|].
    by rewrite N2Nat.id.
  - intros v slot Hv Hs. apply (H (N.to_nat v)); [lia|]. by rewrite N2Nat.id.
Qed.

(** The view change timeouts double with every view as long as the result fits
    in 63 bits, so that the timeout of view [v] is exactly [2^v] times the configured one; the
    arithmetic wraps around beyond that: a one-second timeout is negative in view 34 and zero
    in every view from 64 on. *)
Theorem timeouts_double_until_overflow timeout view :
  ((0 ≤ timeout)%Z → (timeout * 2 ^ Z.of_N view < 2 ^ 63)%Z → (view < 63)%N →
     computeTimeout timeout view = (timeout * 2 ^ Z.of_N view)%Z) ∧
  ((64 ≤ view)%N → computeTimeout timeout view = 0%Z) ∧
  (computeTimeout 1000000000 34 < 0)%Z.
Proof.
  split_and!; [|intros Hv|vm_compute; done].
  - intros H0 Hfit Hv. unfold computeTimeout. rewrite bool_decide_eq_true_2 by lia.
    rewrite Z.shiftl_1_l. assert (0 < 2 ^ Z.of_N view < 2 ^ 63)%Z as Hp.
    { split; [apply Z.pow_pos_nonneg; lia|apply Z.pow_lt_mono_r; lia]. }
    rewrite (wrap_i64_small (2 ^ _)) by lia. apply wrap_i64_small. nia.
  - unfold computeTimeout. rewrite bool_decide_eq_false_2 by lia. by rewrite Z.mul_0_r.
Qed.

Lemma timeouts_double_until_overflow_witness :
  computeTimeout 15000000000 5 = (15000000000 * 2 ^ 5)%Z ∧ computeTimeout 15000000000 70 = 0%Z.
Proof.
  split; [apply (proj1 (timeouts_double_until_overflow 15000000000 5)); done|].
  apply (timeouts_double_until_overflow 15000000000 70). done.
Defined.

(** The slot of a sequence number in the next view. *)
Definition carried_over (mb : Membership) (view : ViewNr) (prev : PbftSlot) (pp : Preprepare) : PbftSlot :=
  if Committed prev then
    mkPbftSlot (Some (with_view pp view)) ∅ ∅ ∅ ∅ (Digest prev) false false true mb
  else Slot.NewPbftSlot mb.


Definition witness_config : PBFTConfig :=
  mkPBFTConfig ["0"; "1"; "2"; "3"] 1 1 1 1000 1000 1000 1 0.
Definition witness_params : ModuleParams := mkModuleParams "1" witness_config.

(** A state in view 0 with one committed and one fresh slot. *)
Definition witness_state : State :=
  mkState seg4 ∅ (mkProposalState 0 false 0 0)
    {[ 0%N := {[ 0%N := Slot.CatchUp (Slot.NewPbftSlot mb4) (mkPreprepare 0 0 (Some "x") false) (Some "d");
                 1%N := Slot.NewPbftSlot mb4 ]} ]}
    SegChkp.NewPbftSegmentChkp 0 false ∅.

