(* ===== verification/Catchup.v ===== *)
(** * pkg/orderers/internal/parts/catchup/catchup.go: segment checkpoint and catching up *)
From Stdlib Require Import ZArith Lia.
From stdpp Require Import prelude gmap strings list sorting fin_maps numbers.
From S2P Require Import Prelude Util Membership MessageBuffer PbftTypes PbftSlot PbftSegmentChkp.
From S2P Require Import PbftViewChangeState PbftState.
Import Maputil Sliceutil PState.

Module CatchUp.
Definition SendDoneMessages (params : ModuleParams) : PBFT unit :=
  st ← get;
  let digests := IterateSorted (slots_of st (View st))
                   (λ (digests : list bytes) _ slot, (digests ++ [Digest slot], true)) [] in
  emit (TimerRepeat (cfg_DoneResendPeriod (Config params)) (cfg_EpochNr (Config params))
          [SendMessage (MsgDone digests) (Seg.NodeIDs (st_Segment st))]).

(** [state.SegmentCheckpoint.SetDone()] and the Done messages, once everything is committed. *)
Definition finish_segment (params : ModuleParams) : PBFT unit :=
  st ← get;
  when (AllCommitted st)
    (modify (λ s, set_SegmentCheckpoint (SegChkp.SetDone (SegmentCheckpoint s)) s);;
     SendDoneMessages params).

(** [isspbdsl.SBDeliver] of the Preprepare in the slot. *)
Definition deliver (sn : SeqNr) (slot : PbftSlot) : PBFT unit :=
  st ← get;
  pp ← lift (deref (slot_Preprepare slot));
  emit (SBDeliver sn (pp_Data pp) (pp_Aborted pp) (seg_Leader (st_Segment st))).

(** Handler of a hash result with a CatchUpResponse as context. *)
Definition UponResultOne_CatchUpResponse (params : ModuleParams) (digest : bytes)
    (preprepare : Preprepare) : PBFT unit :=
  st ← get;
  let sn := pp_Sn preprepare in
  slot ← lift (deref (cur_slot st sn));
  if Committed slot then skip
  else
    match SegChkp.Digests (SegmentCheckpoint st) with
    | None => skip
    | Some digests =>
        if negb (bytes_Equal (default None (digests !! sn)) digest) then skip
        else
          let slot := Slot.CatchUp slot (with_view preprepare (View st)) digest in
          modify (upd_slot (View st) sn slot);;
          finish_segment params;;
          deliver sn slot
    end.

(** The body of the closure of [catchUpRequests]. *)
Definition catch_up_step (st : State) (nodes : list NodeID) (acc : outcome (list event))
    (sn : SeqNr) (digest : bytes) : outcome (list event) :=
  reqs ← acc;
  slot ← deref (cur_slot st sn);
  if negb (Committed slot) then Ok (reqs ++ [SendMessage (MsgCatchUpRequest digest sn) nodes])
  else Ok reqs.
Definition catchUpRequests (st : State) (nodes : list NodeID) (digests : gmap SeqNr bytes)
    : outcome (list event) :=
  IterateSorted digests (λ acc sn digest, (catch_up_step st nodes acc sn digest, true)) (Ok []).

Definition applyMsgDone (params : ModuleParams) (doneDigests : list bytes) (from : NodeID) : PBFT unit :=
  st ← get;
  chkp ← lift (SegChkp.NodeDone (SegmentCheckpoint st) from doneDigests (st_Segment st));
  modify (set_SegmentCheckpoint chkp);;
  match SegChkp.DoneNodes chkp with
  | None => skip
  | Some doneNodes =>
      if CatchingUp chkp then skip
      else
        modify (λ s, set_SegmentCheckpoint (set_CatchingUp true (SegmentCheckpoint s)) s);;
        st ← get;
        reqs ← lift (catchUpRequests st doneNodes
                       (default ∅ (SegChkp.Digests (SegmentCheckpoint st))));
        emit (TimerDelay (cfg_CatchUpDelay (Config params))
                [TimerRepeat (cfg_CatchUpDelay (Config params)) (cfg_EpochNr (Config params)) reqs])
  end.

Definition applyMsgCatchUpRequest (digest : bytes) (sn : SeqNr) (from : NodeID) : PBFT unit :=
  st ← get;
  match LookUpPreprepare st sn digest with
  | Some preprepare => emit (SendMessage (MsgCatchUpResponse (Some preprepare)) [from])
  | None => skip
  end.

Definition applyMsgCatchUpResponse (preprepare : option Preprepare) (_ : NodeID) : PBFT unit :=
  match preprepare with
  | None => skip
  | Some preprepare =>
      st ← get;
      match cur_slot st (pp_Sn preprepare) with
      | None => skip
      | Some slot =>
          if Committed slot then skip
          else emit (HashRequestOne (Serialization.SerializePreprepareForHashing preprepare)
                       (CtxCatchUpResponse preprepare))
      end
  end.

(** The message handlers: messages of non-members are ignored. *)
Definition UponDoneReceived params (from : NodeID) (digests : list bytes) : PBFT unit :=
  if negb (Contains (cfg_Membership (Config params)) from) then skip
  else applyMsgDone params digests from.

Definition UponCatchUpRequestReceived params (from : NodeID) (digest : bytes) (sn : SeqNr) : PBFT unit :=
  if negb (Contains (cfg_Membership (Config params)) from) then skip
  else match digest with
       | None => skip
       | Some _ => applyMsgCatchUpRequest digest sn from
       end.

Definition UponCatchUpResponseReceived params (from : NodeID) (resp : option Preprepare) : PBFT unit :=
  if negb (Contains (cfg_Membership (Config params)) from) then skip
  else applyMsgCatchUpResponse resp from.
End CatchUp.
