(* ===== verification/GoodCase.v ===== *)
(** * pkg/orderers/internal/parts/goodcase/pbftgoodcase.go: the normal-case protocol

    [proto.Size], used by the message buffers, is the parameter [ProtoSize Message]; the
    result of [proto.Marshal] on an availability certificate is an argument of [UponNewCert]. *)
From Stdlib Require Import ZArith Lia.
From stdpp Require Import prelude gmap strings list sorting fin_maps numbers.
From S2P Require Import Prelude Util Membership MessageBuffer PbftTypes PbftSlot PbftSegmentChkp.
From S2P Require Import PbftViewChangeState PbftState Catchup.
Import Maputil Sliceutil PState.

Module GoodCase.
Section goodcase.
Context `{!ProtoSize Message} (params : ModuleParams).

Definition UponInit : PBFT unit :=
  InitView params 0;;
  emit (TimerDelay (cfg_MaxProposeDelay (Config params)) [ProposeTimeout 1]).

(** Updates of the proposal state. *)
Definition set_cert_requested (b : bool) (view : ViewNr) (s : State) : State :=
  set_Proposal (mkProposalState (ProposalsMade (Proposal s)) b view (ProposalTimeout (Proposal s))) s.
Definition set_proposals_made (n : Z) (s : State) : State :=
  set_Proposal (mkProposalState n (CertRequested (Proposal s)) (CertRequestedView (Proposal s))
                  (ProposalTimeout (Proposal s))) s.
Definition set_proposal_timeout (n : Z) (s : State) : State :=
  set_Proposal (mkProposalState (ProposalsMade (Proposal s)) (CertRequested (Proposal s))
                  (CertRequestedView (Proposal s)) n) s.

Definition canPropose (st : State) : bool :=
  bool_decide (OwnID params = seg_Leader (st_Segment st)) &&
  bool_decide (View st = 0%N) &&
  negb (CertRequested (Proposal st)) &&
  bool_decide (ProposalsMade (Proposal st) < Seg.Len (st_Segment st))%Z &&
  bool_decide (ProposalsMade (Proposal st) < ProposalTimeout (Proposal st))%Z &&
  negb (InViewChange st).

Definition requestNewCert : PBFT unit :=
  modify (λ s, set_cert_requested true (View s) s);;
  emit RequestCert.

Definition propose (data : bytes) : PBFT unit :=
  st ← get;
  sn ← lift (index (Seg.SeqNrs (st_Segment st)) (ProposalsMade (Proposal st)));
  modify (λ s, set_proposals_made (wrap_i64 (ProposalsMade (Proposal s) + 1)) s);;
  st ← get;
  emit (SendMessage (MsgPreprepare (mkPreprepare sn (View st) data false))
          (Seg.NodeIDs (st_Segment st)));;
  emit (TimerDelay (cfg_MaxProposeDelay (Config params))
          [ProposeTimeout (u64_of_int (ProposalsMade (Proposal st) + 1))]).

Definition applyProposeTimeout (numProposals : Z) : PBFT unit :=
  st ← get;
  if bool_decide (ProposalTimeout (Proposal st) < numProposals)%Z then
    modify (set_proposal_timeout numProposals);;
    st ← get;
    if canPropose st then
      sn ← lift (index (Seg.SeqNrs (st_Segment st)) (ProposalsMade (Proposal st)));
      match default None (seg_Proposals (st_Segment st) !! sn) with
      | Some proposal => propose (Some proposal)
      | None => requestNewCert
      end
    else skip
  else skip.

(** [certBytes] is what [proto.Marshal] returns for the certificate. *)
Definition UponNewCert (certBytes : outcome bytes) : PBFT unit :=
  modify (λ s, set_cert_requested false (CertRequestedView (Proposal s)) s);;
  st ← get;
  if bool_decide (CertRequestedView (Proposal st) = View st) then
    data ← lift certBytes;
    propose data
  else skip.

(** Looks up the slot concerned by a message of the current view; stores messages of later
    views (all messages, during a view change) in the buffer of the sender. *)
Definition preprocessMessage (sn : SeqNr) (view : ViewNr) (msg : Message) (from : NodeID)
    : PBFT (option PbftSlot) :=
  st ← get;
  if bool_decide (view < View st)%N then mret None
  else if bool_decide (View st < view)%N || InViewChange st then
    buf ← lift (deref (MessageBuffers st !! from));
    '(_, buf') ← lift (MsgBuf.Store buf msg);
    modify (set_MessageBuffers (<[from := buf']> (MessageBuffers st)));;
    mret None
  else
    match cur_slot st sn with
    | None => mret None
    | Some slot => if Committed slot then mret None else mret (Some slot)
    end.

(** The second half of [advanceSlotState], once the slot is committed. *)
Definition commit_slot (sn : SeqNr) (slot : PbftSlot) : PBFT unit :=
  st ← get;
  modify (upd_slot (View st) sn slot);;
  st ← get;
  stable ← lift (SegChkp.Stable (SegmentCheckpoint st) (seg_Membership (st_Segment st)));
  when (negb stable)
    (emit (TimerDelay (cfg_ViewChangeSNTimeout (Config params))
             [ViewChangeSNTimeout (View st) (u64_of_int (NumCommitted st (View st)))]));;
  CatchUp.finish_segment params;;
  CatchUp.deliver sn slot.

(** [slot] is the slot of [sn] in the current view; the checks update its digest maps. *)
Definition advanceSlotState (sn : SeqNr) : PBFT unit :=
  st ← get;
  slot ← lift (deref (cur_slot st sn));
  slot ← (if Prepared slot then mret slot
          else
            '(prepared, slot) ← lift (Slot.CheckPrepared slot);
            modify (upd_slot (View st) sn slot);;
            if prepared : bool then
              let slot := set_Prepared true slot in
              modify (upd_slot (View st) sn slot);;
              emit (SendMessage (MsgCommit (mkCommit sn (View st) (Digest slot)))
                      (Seg.NodeIDs (st_Segment st)));;
              mret slot
            else mret slot);
  if Committed slot then skip
  else
    '(committed, slot) ← lift (Slot.CheckCommitted slot);
    modify (upd_slot (View st) sn slot);;
    when committed (commit_slot sn (set_Committed true slot)).

(** Handler of a hash result with a Preprepare as context. *)
Definition UponResultOne_Preprepare (digest : bytes) (context : Preprepare) : PBFT unit :=
  st ← get;
  if bool_decide (pp_View context < View st)%N then skip
  else
    slot ← lift (deref (cur_slot st (pp_Sn context)));
    modify (upd_slot (View st) (pp_Sn context) (set_Preprepared true (set_Digest digest slot)));;
    emit (SendMessage (MsgPrepare (mkPrepare (pp_Sn context) (View st) digest))
            (Seg.NodeIDs (st_Segment st)));;
    advanceSlotState (pp_Sn context).

Definition ApplyMsgPreprepare (preprepare : Preprepare) (from : NodeID) : PBFT unit :=
  emit (ValidatePreprepare preprepare from).

Definition ApplyMsgPreprepareValidated (preprepare : Preprepare) (from : NodeID) (err : bool)
    : PBFT unit :=
  let sn := pp_Sn preprepare in
  if err then skip
  else
    slot ← preprocessMessage sn (pp_View preprepare) (MsgPreprepare preprepare) from;
    match slot with
    | None => skip
    | Some slot =>
        match slot_Preprepare slot with
        | Some _ => skip
        | None =>
            st ← get;
            primary ← lift (Seg.PrimaryNode (st_Segment st) (View st));
            if bool_decide (from ≠ primary) then skip
            else
              modify (upd_slot (View st) sn (set_Preprepare (Some preprepare) slot));;
              emit (HashRequestOne (Serialization.SerializePreprepareForHashing preprepare)
                      (CtxPreprepare preprepare))
        end
    end.

Definition applyMsgPrepare (prepare : Prepare) (from : NodeID) : PBFT unit :=
  match p_Digest prepare with
  | None => skip
  | Some _ =>
      let sn := p_Sn prepare in
      slot ← preprocessMessage sn (p_View prepare) (MsgPrepare prepare) from;
      match slot with
      | None => skip
      | Some slot =>
          match PrepareDigests slot !! from with
          | Some _ => skip
          | None =>
              st ← get;
              modify (upd_slot (View st) sn
                (set_prepares (<[from := p_Digest prepare]> (PrepareDigests slot))
                              (ValidPrepareDigests slot) slot));;
              advanceSlotState sn
          end
      end
  end.

Definition applyMsgCommit (commit : Commit) (from : NodeID) : PBFT unit :=
  match c_Digest commit with
  | None => skip
  | Some _ =>
      let sn := c_Sn commit in
      slot ← preprocessMessage sn (c_View commit) (MsgCommit commit) from;
      match slot with
      | None => skip
      | Some slot =>
          match CommitDigests slot !! from with
          | Some _ => skip
          | None =>
              st ← get;
              modify (upd_slot (View st) sn
                (set_commits (<[from := c_Digest commit]> (CommitDigests slot))
                             (ValidCommitDigests slot) slot));;
              advanceSlotState sn
          end
      end
  end.

Definition ApplyBufferedMsg (msgPb : Message) (from : NodeID) : PBFT unit :=
  match msgPb with
  | MsgPreprepare msg => ApplyMsgPreprepare msg from
  | MsgPrepare msg => applyMsgPrepare msg from
  | MsgCommit msg => applyMsgCommit msg from
  | _ => skip
  end.

(** The message handlers: messages of non-members are ignored. *)
Definition is_member (from : NodeID) : bool := Contains (cfg_Membership (Config params)) from.

Definition UponProposeTimeout (proposeTimeout : uint64) : PBFT unit :=
  applyProposeTimeout (int_of_u64 proposeTimeout).
Definition UponPreprepareReceived (from : NodeID) (preprepare : Preprepare) : PBFT unit :=
  if negb (is_member from) then skip else ApplyMsgPreprepare preprepare from.
Definition UponPrepareReceived (from : NodeID) (prepare : Prepare) : PBFT unit :=
  if negb (is_member from) then skip else applyMsgPrepare prepare from.
Definition UponCommitReceived (from : NodeID) (commit : Commit) : PBFT unit :=
  if negb (is_member from) then skip else applyMsgCommit commit from.
End goodcase.
End GoodCase.
