(* ===== verification/ViewChange.v ===== *)
(** * pkg/orderers/internal/parts/viewchange/pbftviewchange.go: the view change sub-protocol

    The handlers that range over Go maps take the iteration order [rng] as an argument. *)
From Stdlib Require Import ZArith Lia.
From stdpp Require Import prelude gmap strings list sorting fin_maps numbers.
From S2P Require Import Prelude Util Membership MessageBuffer PbftTypes PbftSlot PbftSegmentChkp.
From S2P Require Import PbftViewChangeState PbftState Catchup GoodCase.
Import Maputil Sliceutil PState.

Module VC.
(** ** Auxiliary functions *)
Definition validFreshPreprepare (preprepare : Preprepare) (view : ViewNr) (sn : SeqNr) : bool :=
  pp_Aborted preprepare && bool_decide (pp_Sn preprepare = sn) &&
  bool_decide (pp_View preprepare = view).

(** The view change state of a view, allocated on first use. *)
Definition getViewChangeState (view : ViewNr) : PBFT PbftViewChangeState :=
  st ← get;
  match ViewChangeStates st !! view with
  | Some vcs => mret vcs
  | None =>
      let vcs := VCState.NewPbftViewChangeState (Seg.SeqNrs (st_Segment st))
                   (seg_Membership (st_Segment st)) in
      modify (λ s, set_ViewChangeStates (<[view := vcs]> (ViewChangeStates s)) s);;
      mret vcs
  end.
(** An update through the pointer [state.ViewChangeStates[view]]. *)
Definition put_vcstate (view : ViewNr) (vcs : PbftViewChangeState) : PBFT unit :=
  modify (λ s, set_ViewChangeStates (<[view := vcs]> (ViewChangeStates s)) s).

(** The condition of the loop is [s.EnoughViewChanges() && (state == nil || v > view)];
    [state] is not nil. *)
Definition latest_step (acc : option PbftViewChangeState * ViewNr)
    (entry : ViewNr * PbftViewChangeState) : option PbftViewChangeState * ViewNr :=
  if VCState.EnoughViewChanges entry.2 && bool_decide (acc.2 < entry.1)%N
  then (Some entry.2, entry.1) else acc.
Definition latestPendingVCState (rng : go_range) (st : State) : option PbftViewChangeState * ViewNr :=
  foldl latest_step (None, 0%N) (range_order rng 0 (map_to_list (ViewChangeStates st))).

Definition getMsgView (msgPb : Message) : option ViewNr :=
  match msgPb with
  | MsgPreprepare msg => Some (pp_View msg)
  | MsgPrepare msg => Some (p_View msg)
  | MsgCommit msg => Some (c_View msg)
  | _ => None
  end.

Definition syntacticCheckSignedViewChange (svc : SignedViewChange) : outcome unit :=
  match svc_Signature svc with
  | None => Err "nil signature in signed view change"
  | Some _ => match svc_ViewChange svc with
              | None => Err "nil view change in signed view change"
              | Some _ => Ok tt
              end
  end.

(** ** P and Q sets of this node *)
Definition pq_view (st : State) (sn : SeqNr) (acc : gmap SeqNr PSetEntry * gmap SeqNr (gmap string ViewNr))
    (view : ViewNr) : outcome (gmap SeqNr PSetEntry * gmap SeqNr (gmap string ViewNr)) :=
  match Slots st !! view with
  | None => Ok acc
  | Some slots =>
      slot ← deref (slots !! sn);
      let pSet := if Prepared slot then <[sn := mkPSetEntry sn view (Digest slot)]> acc.1 else acc.1 in
      let qSet := if Preprepared slot
                  then <[sn := <[contents (Digest slot) := view]> (default ∅ (acc.2 !! sn))]> acc.2
                  else acc.2 in
      Ok (pSet, qSet)
  end.
(** [for view := 0; view < state.View; view++] *)
Definition views_below (view : ViewNr) : list ViewNr := N.of_nat <$> seq 0 (N.to_nat view).
Definition pq_sn (st : State) (acc : gmap SeqNr PSetEntry * gmap SeqNr (gmap string ViewNr)) (sn : SeqNr)
    : outcome (gmap SeqNr PSetEntry * gmap SeqNr (gmap string ViewNr)) :=
  outcome_foldl (pq_view st sn) (acc.1, <[sn := ∅]> acc.2) (views_below (View st)).
Definition getPSetQSet (st : State) : outcome (gmap SeqNr PSetEntry * gmap SeqNr (gmap string ViewNr)) :=
  outcome_foldl (pq_sn st) (∅, ∅) (Seg.SeqNrs (st_Segment st)).

Section viewchange.
Context `{!ProtoSize Message} (rng : go_range) (params : ModuleParams).

(** ** Starting a view change *)
Definition startViewChange : PBFT unit :=
  modify (set_InViewChange true);;
  st ← get;
  InitView params (u64_succ (View st));;
  st ← get;
  '(pSet, qSet) ← lift (getPSetQSet st);
  let viewChange := mkViewChange (View st) (VCState.PSet_PbType pSet) (VCState.QSet_PbType qSet) in
  emit (SignRequest (Serialization.SerializeViewChangeForSigning viewChange) viewChange).

Definition applyViewChangeSNTimeout (view : ViewNr) (numCommitted : uint64) : PBFT unit :=
  st ← get;
  if bool_decide (view = View st) &&
     bool_decide (int_of_u64 numCommitted = NumCommitted st (View st)) then
    stable ← lift (SegChkp.Stable (SegmentCheckpoint st) (seg_Membership (st_Segment st)));
    when (negb stable) startViewChange
  else skip.

Definition applyViewChangeSegmentTimeout (view : ViewNr) : PBFT unit :=
  st ← get;
  if bool_decide (view = View st) then
    stable ← lift (SegChkp.Stable (SegmentCheckpoint st) (seg_Membership (st_Segment st)));
    when (negb stable) startViewChange
  else skip.

(** ** ViewChange messages *)
Definition UponSignResult (signature : bytes) (context : ViewChange) : PBFT unit :=
  st ← get;
  primary ← lift (Seg.PrimaryNode (st_Segment st) (vc_View context));
  emit (TimerRepeat (cfg_ViewChangeResendPeriod (Config params)) (cfg_EpochNr (Config params))
          [SendMessage (MsgSignedViewChange (mkSignedViewChange (Some context) signature)) [primary]]).

Definition applyMsgSignedViewChange (svc : SignedViewChange) (from : NodeID) : PBFT unit :=
  match syntacticCheckSignedViewChange svc with
  | Ok _ =>
      viewChange ← lift (deref (svc_ViewChange svc));
      emit (VerifySig (Serialization.SerializeViewChangeForSigning viewChange)
              (svc_Signature svc) from svc)
  | _ => skip
  end.

Definition applyVerifiedViewChange (svc : SignedViewChange) (from : NodeID) : PBFT unit :=
  vc ← lift (deref (svc_ViewChange svc));
  st ← get;
  if bool_decide (vc_View vc < View st)%N then skip
  else
    primary ← lift (Seg.PrimaryNode (st_Segment st) (vc_View vc));
    if bool_decide (OwnID params ≠ primary) then skip
    else
      vcstate ← getViewChangeState (vc_View vc);
      if VCState.EnoughViewChanges vcstate then skip
      else
        vcstate ← lift (VCState.AddSignedViewChange rng vcstate svc from);
        put_vcstate (vc_View vc) vcstate;;
        when (VCState.EnoughViewChanges vcstate)
          (let '(emptyPreprepareData, vcstate) :=
             VCState.SetEmptyPreprepares vcstate (vc_View vc) (seg_Proposals (st_Segment st)) in
           put_vcstate (vc_View vc) vcstate;;
           emit (HashRequest emptyPreprepareData (CtxView (vc_View vc)))).

Definition UponSigVerified (nodeID : NodeID) (error : bool) (context : SignedViewChange) : PBFT unit :=
  if error then skip
  else if negb (Contains (cfg_Membership (Config params)) nodeID) then skip
  else applyVerifiedViewChange context nodeID.

(** ** Constructing the NewView message *)

(** Only called when every Preprepare is present, so leaving the nil ones out drops none. *)
Definition sendNewView (view : ViewNr) (vcState : PbftViewChangeState) : PBFT unit :=
  st ← get;
  let '(senders, svcs) :=
    IterateSorted (SignedViewChanges vcState)
      (λ '(senders, svcs) sender svc, ((senders ++ [sender], svcs ++ [svc]), true)) ([], []) in
  let '(sns, preprepares) :=
    IterateSorted (vcs_Preprepares vcState)
      (λ '(sns, preprepares) sn preprepare,
         ((sns ++ [sn], preprepares ++ option_list preprepare), true)) ([], []) in
  emit (SendMessage (MsgNewView (mkNewView view senders svcs sns preprepares))
          (Seg.NodeIDs (st_Segment st))).

Definition askForMissingPreprepares (vcState : PbftViewChangeState) : PBFT unit :=
  mfor (range_order rng 1 (map_to_list (Reproposals vcState))) (λ '(sn, digest),
    when (bool_decide (0 < bytes_len digest) &&
          VCState.is_nil (default None (vcs_Preprepares vcState !! sn)))
      (emit (SendMessage (MsgPreprepareRequest digest sn)
               (default [] (PrepreparedIDs vcState !! sn))))).

(** Handler of the hashes of the empty Preprepares. *)
Definition UponResult_View (digests : list bytes) (view : ViewNr) : PBFT unit :=
  st ← get;
  if bool_decide (view < View st)%N then skip
  else
    vcstate ← lift (deref (ViewChangeStates st !! view));
    vcstate ← lift (VCState.SetEmptyPreprepareDigests vcstate digests);
    let vcstate := SetLocalPreprepares vcstate st view in
    put_vcstate view vcstate;;
    if VCState.HasAllPreprepares vcstate then sendNewView view vcstate
    else askForMissingPreprepares vcstate.

Definition applyMsgPreprepareRequest (digest : bytes) (sn : SeqNr) (from : NodeID) : PBFT unit :=
  st ← get;
  match LookUpPreprepare st sn digest with
  | Some preprepare => emit (SendMessage (MsgMissingPreprepare (Some preprepare)) [from])
  | None => skip
  end.

Definition applyMsgMissingPreprepare (preprepare : option Preprepare) : PBFT unit :=
  st ← get;
  let '(vcstate, view) := latestPendingVCState rng st in
  vcstate ← lift (deref vcstate);
  preprepare ← lift (deref preprepare);
  if negb (VCState.is_nil (default None (vcs_Preprepares vcstate !! pp_Sn preprepare)))
     || bool_decide (view < View st)%N then skip
  else emit (HashRequestOne (Serialization.SerializePreprepareForHashing preprepare)
               (CtxMissingPreprepare preprepare)).

(** Handler of a hash result with a MissingPreprepare as context. *)
Definition UponResultOne_MissingPreprepare (digest : bytes) (preprepare : Preprepare) : PBFT unit :=
  st ← get;
  let sn := pp_Sn preprepare in
  let '(vcstate, view) := latestPendingVCState rng st in
  vcstate ← lift (deref vcstate);
  if negb (VCState.is_nil (default None (vcs_Preprepares vcstate !! sn)))
     || bool_decide (view < View st)%N then skip
  else
    let vcstate :=
      if bytes_Equal (default None (Reproposals vcstate !! sn)) digest
         && VCState.is_nil (default None (vcs_Preprepares vcstate !! sn))
      then set_vcs_Preprepares (<[sn := Some (with_view preprepare view)]> (vcs_Preprepares vcstate)) vcstate
      else vcstate in
    put_vcstate view vcstate;;
    when (VCState.HasAllPreprepares vcstate) (sendNewView view vcstate).

(** ** Accepting a NewView message *)
Definition applyMsgNewView (newView : NewView) (from : NodeID) : PBFT unit :=
  st ← get;
  primary ← lift (Seg.PrimaryNode (st_Segment st) (nv_View newView));
  if bool_decide (from ≠ primary) then skip
  else if bool_decide (length (nv_ViewChangeSenders newView) ≠ length (nv_SignedViewChanges newView))
  then skip
  else
    viewChangeData ← lift (outcome_map (λ svc,
      vc ← deref (svc_ViewChange svc);
      Ok (Serialization.SerializeViewChangeForSigning vc)) (nv_SignedViewChanges newView));
    emit (VerifySigs viewChangeData (svc_Signature <$> nv_SignedViewChanges newView)
            (nv_ViewChangeSenders newView) newView).

Definition UponSigsVerified (nodeIds : list NodeID) (allOk : bool) (context : NewView) : PBFT unit :=
  if negb allOk then skip
  else if negb (ContainsAll (cfg_Membership (Config params)) nodeIds) then skip
  else emit (HashRequest (Serialization.SerializePreprepareForHashing <$> nv_Preprepares context)
               (CtxNewView context)).

(** [for i, svc := range context.SignedViewChanges
     { vcState.AddSignedViewChange(svc, context.ViewChangeSenders[i]) }] *)
Fixpoint feed_view_changes (vcState : PbftViewChangeState) (svcs : list SignedViewChange)
    (senders : list NodeID) (i : Z) : outcome PbftViewChangeState :=
  match svcs with
  | [] => Ok vcState
  | svc :: svcs =>
      sender ← index senders i;
      vcState ← VCState.AddSignedViewChange rng vcState svc sender;
      feed_view_changes vcState svcs senders (i + 1)%Z
  end.

(** The body of the closure comparing re-proposals and Preprepares. *)
Definition match_step (nv : NewView) (digests : list bytes) (acc : outcome (Z * bool))
    (sn : SeqNr) (digest : bytes) : outcome (Z * bool) :=
  '(i, _) ← acc;
  matching ← (if bool_decide (bytes_len digest = 0) then
                pp ← index (nv_Preprepares nv) i;
                Ok (validFreshPreprepare pp (nv_View nv) sn)
              else d ← index digests i; Ok (bytes_Equal digest d));
  Ok ((i + 1)%Z, matching).
Definition continues (acc : outcome (Z * bool)) : bool :=
  match acc with Ok (_, m) => m | _ => false end.
Definition prepreparesMatching (nv : NewView) (digests : list bytes) (reproposals : gmap SeqNr bytes)
    : outcome bool :=
  '(_, m) ← IterateSorted reproposals
              (λ acc sn digest, let r := match_step nv digests acc sn digest in (r, continues r))
              (Ok (0%Z, true));
  Ok m.

(** The buffered messages applicable in a view. *)
Definition applicable (view : ViewNr) (msgPb : Message) : Applicable :=
  match getMsgView msgPb with
  | None => Invalid
  | Some msgView =>
      if bool_decide (msgView < view)%N then Past
      else if bool_decide (msgView = view) then Current else Future
  end.
Definition apply_buffer (from : NodeID) : PBFT unit :=
  st ← get;
  buf ← lift (deref (MessageBuffers st !! from));
  let '(buf', current) := MsgBuf.Iterate buf (applicable (View st)) in
  modify (set_MessageBuffers (<[from := buf']> (MessageBuffers st)));;
  mfor current (λ msgPb, GoodCase.ApplyBufferedMsg params msgPb from).

(** Entering the new view, once the NewView message has been checked. *)
Definition enter_new_view (context : NewView) : PBFT unit :=
  InitView params (nv_View context);;
  modify (set_InViewChange false);;
  st ← get;
  primary ← lift (Seg.PrimaryNode (st_Segment st) (nv_View context));
  mfor (nv_Preprepares context) (λ pp, GoodCase.ApplyMsgPreprepare pp primary);;
  mfor (range_order rng 2 (GetKeys (MessageBuffers st))) apply_buffer.

(** Handler of the hashes of the Preprepares of a NewView message. *)
Definition UponResult_NewView (digests : list bytes) (context : NewView) : PBFT unit :=
  st ← get;
  if bool_decide (nv_View context < View st)%N then skip
  else
    vcState ← lift (feed_view_changes
                      (VCState.NewPbftViewChangeState (Seg.SeqNrs (st_Segment st))
                         (seg_Membership (st_Segment st)))
                      (nv_SignedViewChanges context) (nv_ViewChangeSenders context) 0);
    if negb (VCState.EnoughViewChanges vcState) then skip
    else
      matching ← lift (prepreparesMatching context digests (Reproposals vcState));
      if negb matching then skip else enter_new_view context.

(** ** Message handlers: messages of non-members are ignored *)
Definition UponSignedViewChangeReceived (from : NodeID) (svc : SignedViewChange) : PBFT unit :=
  if negb (Contains (cfg_Membership (Config params)) from) then skip
  else applyMsgSignedViewChange svc from.
Definition UponPreprepareRequestReceived (from : NodeID) (digest : bytes) (sn : SeqNr) : PBFT unit :=
  if negb (Contains (cfg_Membership (Config params)) from) then skip
  else applyMsgPreprepareRequest digest sn from.
Definition UponMissingPreprepareReceived (from : NodeID) (preprepare : option Preprepare) : PBFT unit :=
  if negb (Contains (cfg_Membership (Config params)) from) then skip
  else applyMsgMissingPreprepare preprepare.
Definition UponNewViewReceived (from : NodeID) (newView : NewView) : PBFT unit :=
  if negb (Contains (cfg_Membership (Config params)) from) then skip
  else applyMsgNewView newView from.
End viewchange.
End VC.
