(* ===== verification/LeaderSelection.v ===== *)
(** * pkg/iss/leaderselectionpolicy: leader selection policies

    [sort.Slice] is not stable and the keys come from a map, so nodes that compare equal may
    come in any order: the model sorts (stably) an arbitrary permutation of the keys, which
    reaches every such order.  The CBOR library is a parameter ([Cbor]). *)
From Stdlib Require Import ZArith Lia.
From stdpp Require Import prelude gmap strings list sorting fin_maps numbers.
From S2P Require Import Prelude Util Membership.
Import Maputil.

Notation EpochNr := N (only parsing).

(** LeaderPolicyType and its values *)
Notation LeaderPolicyType := string (only parsing).
Definition Simple : LeaderPolicyType := "simple".
Definition Blacklist : LeaderPolicyType := "blacklist".

Record SimpleLeaderPolicy := mkSimplePolicy { slp_Membership : list NodeID }.
Record BlacklistLeaderPolicy := mkBlacklistPolicy {
  blp_Membership : Membership;
  Suspected : gmap NodeID EpochNr;
}.

Module SimplePolicy.
Definition NewSimpleLeaderPolicy (mb : Membership) : SimpleLeaderPolicy :=
  mkSimplePolicy (GetSortedKeys (Nodes mb)).
Definition Leaders (p : SimpleLeaderPolicy) : list NodeID := slp_Membership p.
Definition Suspect (p : SimpleLeaderPolicy) (_ : EpochNr) (_ : NodeID) : SimpleLeaderPolicy := p.
Definition Reconfigure (_ : SimpleLeaderPolicy) (mb : Membership) : SimpleLeaderPolicy :=
  mkSimplePolicy (GetSortedKeys (Nodes mb)).
End SimplePolicy.

Module BlacklistPolicy.
Definition NewBlackListLeaderPolicy (mb : Membership) : BlacklistLeaderPolicy :=
  mkBlacklistPolicy mb ∅.

(** The comparison passed to [sort.Slice]. *)
Definition less (l : BlacklistLeaderPolicy) (i j : NodeID) : bool :=
  match Suspected l !! i, Suspected l !! j with
  | None, None => bool_decide (String.le i j ∧ i ≠ j)
  | None, Some _ => true
  | Some _, None => false
  | Some ei, Some ej => bool_decide (ei < ej)%N
  end.
Definition not_after (l : BlacklistLeaderPolicy) (i j : NodeID) : Prop := less l j i = false.
#[export] Instance not_after_dec l : RelDecision (not_after l).
Proof. intros i j. unfold not_after. apply _. Defined.

(** [ids[:n]] *)
Definition slice (ids : list NodeID) (n : Z) : outcome (list NodeID) :=
  if bool_decide (0 ≤ n ≤ Z.of_nat (length ids))%Z then Ok (take (Z.to_nat n) ids)
  else Panic IndexOutOfRange.

(** [for !HaveStrongQuorum(membership, nodeIDs[:minLeaders]) { minLeaders++ }]; the slice
    expression panics before the fuel (the number of nodes) runs out. *)
Fixpoint min_leaders (mb : Membership) (ids : list NodeID) (n : Z) (fuel : nat) : outcome Z :=
  prefix ← slice ids n;
  enough ← Membutil.HaveStrongQuorum mb prefix;
  if enough : bool then Ok n
  else match fuel with
       | O => Panic IndexOutOfRange
       | S fuel => min_leaders mb ids (n + 1)%Z fuel
       end.

Definition sorted_nodes (rng : go_range) (l : BlacklistLeaderPolicy) : list NodeID :=
  merge_sort (not_after l) (range_order rng 0 (GetKeys (Nodes (blp_Membership l)))).

Definition Leaders (rng : go_range) (l : BlacklistLeaderPolicy) : outcome (list NodeID) :=
  let mb := blp_Membership l in
  let nodeIDs := sorted_nodes rng l in
  minLeaders ← min_leaders mb nodeIDs 1 (length nodeIDs);
  let numLeaders := (Z.of_nat (size (Nodes mb)) - Z.of_nat (size (Suspected l)))%Z in
  let numLeaders := if bool_decide (numLeaders < minLeaders)%Z then minLeaders else numLeaders in
  slice nodeIDs numLeaders.

Definition Suspect (l : BlacklistLeaderPolicy) (e : EpochNr) (node : NodeID) : BlacklistLeaderPolicy :=
  match Nodes (blp_Membership l) !! node with
  | None => l
  | Some _ =>
      match Suspected l !! node with
      | Some epochNr =>
          if bool_decide (epochNr < e)%N
          then mkBlacklistPolicy (blp_Membership l) (<[node := e]> (Suspected l)) else l
      | None => mkBlacklistPolicy (blp_Membership l) (<[node := e]> (Suspected l))
      end
  end.

Definition Reconfigure (l : BlacklistLeaderPolicy) (mb : Membership) : BlacklistLeaderPolicy :=
  mkBlacklistPolicy mb
    (foldl (λ suspected nodeID,
       match Suspected l !! nodeID with
       | Some epoch => <[nodeID := epoch]> suspected
       | None => suspected
       end) ∅ (GetKeys (Nodes mb))).

(** ** The order is a total preorder *)
#[export] Instance not_after_total l : Total (not_after l).
Proof.
  intros i j. unfold not_after, less.
  destruct (Suspected l !! i), (Suspected l !! j); auto;
    rewrite !bool_decide_eq_false; [lia|].
  destruct (decide (i = j)) as [->|]; [left; tauto|].
  destruct (decide (String.le i j)); [left|right]; intros [? ?]; [|done].
  assert (i = j) by (apply (anti_symm String.le); done). done.
Qed.

#[export] Instance not_after_trans l : Transitive (not_after l).
Proof.
  intros i j k. unfold not_after, less.
  destruct (Suspected l !! i), (Suspected l !! j), (Suspected l !! k); try done;
    rewrite !bool_decide_eq_false; [lia|].
  intros Hij Hjk [Hki Hne]. apply Hjk. destruct (decide (j = i)) as [->|Hji]; [done|].
  assert (¬ String.le j i) as Hnle by tauto. split.
  - destruct (base.total String.le j k) as [Hle|]; [|done]. destruct Hnle. by transitivity k.
  - by intros ->.
Qed.

Lemma sorted_nodes_perm rng l : sorted_nodes rng l ≡ₚ GetKeys (Nodes (blp_Membership l)).
Proof. unfold sorted_nodes. rewrite merge_sort_Permutation. apply range_order_perm. Qed.

Lemma sorted_nodes_sorted rng l : StronglySorted (not_after l) (sorted_nodes rng l).
Proof. apply (StronglySorted_merge_sort (not_after l)). Qed.

(** ** The number of leaders *)
Section leaders.
Context (l : BlacklistLeaderPolicy) (Hv : voting (blp_Membership l)).
Notation mb := (blp_Membership l).

Lemma min_leaders_ok ids n fuel :
  members mb ids → (1 ≤ n)%Z → n = (Z.of_nat (length ids) + 1 - Z.of_nat fuel)%Z →
  1 ≤ fuel → Membutil.HaveStrongQuorum mb ids = Ok true →
  ∃ k, min_leaders mb ids n fuel = Ok k ∧ (n ≤ k ≤ Z.of_nat (length ids))%Z ∧
    Membutil.HaveStrongQuorum mb (take (Z.to_nat k) ids) = Ok true.
Proof.
  intros Hm. revert n. induction fuel as [|fuel IH]; intros n Hn Heq Hf Hq; [lia|].
  cbn [min_leaders]. unfold slice at 1. rewrite bool_decide_eq_true_2 by lia. simpl.
  rewrite HaveStrongQuorum_ok by (try done; intros id Hid; apply Hm; by eapply subseteq_take).
  simpl. case_bool_decide as Hw.
  - exists n. split_and!; [done|lia|lia|]. rewrite HaveStrongQuorum_ok; [by rewrite bool_decide_eq_true_2|done|].
    intros id Hid. apply Hm. by eapply subseteq_take.
  - destruct fuel as [|fuel].
    + exfalso. apply Hw. rewrite take_ge by lia. by apply HaveStrongQuorum_true in Hq as [_ ?].
    + destruct (IH (n + 1)%Z) as (k & -> & ? & ?); [lia..|done|]. exists k. split_and!; [done|lia|lia|done].
Qed.

Lemma quorum_longer ids k k' :
  members mb ids → k ≤ k' → Membutil.HaveStrongQuorum mb (take k ids) = Ok true →
  Membutil.HaveStrongQuorum mb (take k' ids) = Ok true.
Proof.
  intros Hm Hk [_ Hw]%HaveStrongQuorum_true; [|done].
  rewrite HaveStrongQuorum_ok; [|done|intros id Hid; apply Hm; by eapply subseteq_take].
  rewrite bool_decide_eq_true_2; [done|].
  assert (weight mb (take k ids) ≤ weight mb (take k' ids))%Z; [|lia].
  apply weight_submseteq; [done|]. apply sublist_submseteq.
  replace k with (k `min` k') by lia. rewrite <- take_take. apply sublist_take.
Qed.

Lemma nodes_nonempty : 1 ≤ length (GetKeys (Nodes mb)).
Proof.
  pose proof (voting_total mb Hv) as Ht. unfold total in Ht.
  destruct (GetKeys (Nodes mb)); simpl in *; lia.
Qed.

Lemma quorum_of_all ids : ids ≡ₚ GetKeys (Nodes mb) → Membutil.HaveStrongQuorum mb ids = Ok true.
Proof.
  intros Hp. rewrite HaveStrongQuorum_ok; [|done|].
  - rewrite bool_decide_eq_true_2; [done|]. rewrite Hp. fold (total mb).
    pose proof (strong_q_bounds mb). pose proof (max_f_bounds mb Hv). lia.
  - intros id. rewrite Hp. apply members_keys.
Qed.
End leaders.

(** ** Invariant: only members are suspected *)
Definition inv (l : BlacklistLeaderPolicy) : Prop :=
  dom (Suspected l) ⊆ dom (Nodes (blp_Membership l)).

Lemma suspected_count l :
  inv l → length (filter (λ id, Suspected l !! id = None) (GetKeys (Nodes (blp_Membership l)))) +
          size (Suspected l) = size (Nodes (blp_Membership l)).
Proof.
  intros Hi. rewrite <- (length_GetKeys (Nodes _)), <- (length_GetKeys (Suspected l)).
  set (P := λ id, Suspected l !! id = None).
  rewrite <- (Permutation_length (filter_app_complement P (GetKeys (Nodes (blp_Membership l))))).
  rewrite length_app. f_equal. apply Permutation_length, NoDup_Permutation.
  - apply GetKeys_NoDup.
  - apply list.NoDup_filter, GetKeys_NoDup.
  - intros id. rewrite list_elem_of_filter, !elem_of_GetKeys. unfold P. rewrite <- !elem_of_dom, <- not_elem_of_dom.
    pose proof (Hi id). split; [intros; split; [by intros Hn|auto]|]. intros [Hn _].
    by destruct (decide (id ∈ dom (Suspected l))).
Qed.

Lemma inv_operations l e node mb :
  inv l → inv (Suspect l e node) ∧ inv (Reconfigure l mb).
Proof.
  intros Hi. split.
  - unfold Suspect. destruct (Nodes (blp_Membership l) !! node) eqn:E; [|done].
    assert (inv (mkBlacklistPolicy (blp_Membership l) (<[node := e]> (Suspected l)))) as Hi'.
    { unfold inv. simpl. rewrite dom_insert_L. apply elem_of_dom_2 in E. unfold inv in Hi. set_solver. }
    destruct (Suspected l !! node); [case_bool_decide|]; done.
  - intros id. simpl. rewrite !elem_of_dom. rewrite <- (elem_of_GetKeys (Nodes mb)).
    assert (∀ ks acc, is_Some (foldl (λ s nodeID, match Suspected l !! nodeID with
        Some epoch => <[nodeID := epoch]> s | None => s end) acc ks !! id) →
      id ∈ ks ∨ is_Some ((acc : gmap NodeID EpochNr) !! id)) as H.
    { induction ks as [|k ks IH]; intros acc; cbn [foldl]; [by right|].
      intros [?|Hs]%IH; [set_solver|]. destruct (Suspected l !! k); [|by right].
      apply lookup_insert_is_Some in Hs as [->|[_ ?]]; [set_solver|by right]. }
    intros [?|[? ?]]%H; [done|]. by simplify_map_eq.
Qed.
End BlacklistPolicy.

(** ** The split of a sorted list of nodes into leaders and the rest *)
Section split.
Import BlacklistPolicy.
Context (l : BlacklistLeaderPolicy).

Lemma sorted_split n ids a b :
  StronglySorted (not_after l) ids → a ∈ take n ids → b ∈ drop n ids → less l b a = false.
Proof.
  intros Hs Ha Hb. rewrite <- (take_drop n ids) in Hs.
  by apply (StronglySorted_app_1_elem_of _ _ _ _ _ Hs).
Qed.

(** The nodes never suspected come first, so they fit in a long enough prefix. *)
Lemma unsuspected_first n ids id :
  StronglySorted (not_after l) ids → id ∈ ids → Suspected l !! id = None →
  length (filter (λ id, Suspected l !! id = None) ids) ≤ n → n ≤ length ids → id ∈ take n ids.
Proof.
  intros Hs Hid Hsus Hcount Hn. rewrite <- (take_drop n ids) in Hid.
  apply elem_of_app in Hid as [?|Hid]; [done|]. exfalso.
  assert (Forall (λ a, Suspected l !! a = None) (take n ids)) as Hall.
  { apply list.Forall_forall. intros a Ha. pose proof (sorted_split n ids a id Hs Ha Hid) as Hless.
    unfold less in Hless. rewrite Hsus in Hless. by destruct (Suspected l !! a). }
  rewrite <- (take_drop n ids), list.filter_app, length_app in Hcount.
  apply (filter_length_all (λ a, Suspected l !! a = None)) in Hall. rewrite Hall, length_take in Hcount.
  destruct (filter _ (drop n ids)) as [|x f] eqn:Ef; [|simpl in Hcount; lia].
  assert (id ∈ filter (λ id, Suspected l !! id = None) (drop n ids)) as Hin
    by by apply list_elem_of_filter.
  rewrite Ef in Hin. by apply elem_of_nil in Hin.
Qed.
End split.

(** ** Serialization: the type identifier followed by the CBOR encoding *)
Class Cbor := {
  cbor_Marshal_simple : SimpleLeaderPolicy → outcome string;
  cbor_Marshal_blacklist : BlacklistLeaderPolicy → outcome string;
  cbor_Unmarshal_simple : string → outcome SimpleLeaderPolicy;
  cbor_Unmarshal_blacklist : string → outcome BlacklistLeaderPolicy;
}.

Inductive LeaderSelectionPolicy :=
| PolicySimple (p : SimpleLeaderPolicy)
| PolicyBlacklist (p : BlacklistLeaderPolicy).

Module Policy.
Section policy.
Context `{!Cbor}.

Definition Bytes (p : LeaderSelectionPolicy) : outcome string :=
  match p with
  | PolicySimple p => ser ← cbor_Marshal_simple p; Ok (String.append Simple ser)
  | PolicyBlacklist p => ser ← cbor_Marshal_blacklist p; Ok (String.append Blacklist ser)
  end.

Definition stripType (data : string) (policyType : LeaderPolicyType) : bool * string :=
  let n := String.length policyType in
  if bool_decide (String.length data < n) then (false, EmptyString)
  else if bool_decide (String.substring 0 n data ≠ policyType) then (false, EmptyString)
  else (true, String.substring n (String.length data - n) data).

Definition LeaderPolicyFromBytes (bytes : string) : outcome LeaderSelectionPolicy :=
  match stripType bytes Simple with
  | (true, policyData) => p ← cbor_Unmarshal_simple policyData; Ok (PolicySimple p)
  | (false, _) =>
      match stripType bytes Blacklist with
      | (true, policyData) => p ← cbor_Unmarshal_blacklist policyData; Ok (PolicyBlacklist p)
      | (false, _) => Err "invalid LeaderSelectionPolicy type"
      end
  end.

Lemma substring_all s : String.substring 0 (String.length s) s = s.
Proof. induction s as [|c s IH]; [done|]. cbn. by rewrite IH. Qed.

Lemma substring_append_l s t : String.substring 0 (String.length s) (String.append s t) = s.
Proof.
  induction s as [|c s IH]; [by destruct t|].
  change (String c (String.substring 0 (String.length s) (String.append s t)) = String c s).
  by rewrite IH.
Qed.

Lemma substring_append_r s t :
  String.substring (String.length s) (String.length t) (String.append s t) = t.
Proof.
  induction s as [|c s IH]; [apply substring_all|].
  change (String.substring (String.length s) (String.length t) (String.append s t) = t). apply IH.
Qed.

Lemma stripType_append ty ser : stripType (String.append ty ser) ty = (true, ser).
Proof.
  unfold stripType. rewrite length_append, bool_decide_eq_false_2 by lia.
  rewrite substring_append_l, bool_decide_eq_false_2 by tauto.
  replace (String.length ty + String.length ser - String.length ty) with (String.length ser) by lia.
  by rewrite substring_append_r.
Qed.

Lemma stripType_blacklist ser : (stripType (String.append Blacklist ser) Simple).1 = false.
Proof.
  unfold stripType. case_bool_decide; [done|]. rewrite bool_decide_eq_true_2; [done|].
  by unfold Blacklist, Simple; intros [=].
Qed.
End policy.
End Policy.

Import BlacklistPolicy.

(** ** Properties *)

Lemma leaders_spec rng l :
  voting (blp_Membership l) → inv l →
  ∃ leaders rest, Leaders rng l = Ok leaders ∧
    leaders ++ rest ≡ₚ GetKeys (Nodes (blp_Membership l)) ∧ NoDup leaders ∧
    Membutil.HaveStrongQuorum (blp_Membership l) leaders = Ok true ∧
    (∀ id, is_Some (Nodes (blp_Membership l) !! id) → Suspected l !! id = None → id ∈ leaders) ∧
    (∀ a b, a ∈ leaders → b ∈ rest → less l b a = false).
Proof.
  intros Hv Hi. set (ids := sorted_nodes rng l).
  assert (ids ≡ₚ GetKeys (Nodes (blp_Membership l))) as Hp by apply sorted_nodes_perm.
  assert (members (blp_Membership l) ids) as Hm by (intros id; rewrite Hp; apply members_keys).
  assert (length ids = size (Nodes (blp_Membership l))) as Hlen by (rewrite Hp; apply length_GetKeys).
  pose proof (suspected_count l Hi) as Hcount.
  pose proof (sorted_nodes_sorted rng l) as Hsorted. fold ids in Hsorted.
  pose proof (nodes_nonempty l Hv) as Hne. rewrite <- Hp in Hne.
  destruct (min_leaders_ok l Hv ids 1 (length ids)) as (k & Hmin & Hk & Hq);
    [done|lia..|by apply quorum_of_all|].
  unfold Leaders. fold ids. rewrite Hmin. simpl.
  set (n := (if bool_decide _ then _ else _)).
  assert (k ≤ n ∧ Z.of_nat (size (Nodes (blp_Membership l))) - Z.of_nat (size (Suspected l)) ≤ n
          ∧ n ≤ Z.of_nat (length ids))%Z as (Hn1 & Hn2 & Hn3) by (unfold n; case_bool_decide; lia).
  unfold slice. rewrite bool_decide_eq_true_2 by lia.
  exists (take (Z.to_nat n) ids), (drop (Z.to_nat n) ids).
  assert (NoDup ids) as Hnd by (rewrite Hp; apply GetKeys_NoDup).
  split_and!; [done|by rewrite take_drop| | | |].
  - by eapply sublist_NoDup; [exact Hnd|apply sublist_take].
  - by eapply quorum_longer; [done..| |exact Hq]; lia.
  - intros id Hid Hsus. apply (unsuspected_first l); [done| |done|rewrite Hp; lia|lia].
    by rewrite Hp, elem_of_GetKeys.
  - intros a b Ha Hb. by eapply sorted_split.
Qed.

(** While nobody is suspected, all nodes lead. *)
Lemma leaders_all rng l :
  voting (blp_Membership l) → Suspected l = ∅ →
  ∃ leaders, Leaders rng l = Ok leaders ∧ leaders ≡ₚ GetKeys (Nodes (blp_Membership l)).
Proof.
  intros Hv Hs. destruct (leaders_spec rng l Hv) as (leaders & rest & Hl & Hp & _ & _ & Hall & _).
  { unfold inv. rewrite Hs. set_solver. }
  exists leaders. split; [done|]. assert (rest = []) as ->; [|by rewrite app_nil_r in Hp].
  destruct rest as [|b rest]; [done|]. exfalso.
  assert (NoDup (leaders ++ b :: rest)) as Hnd by (rewrite Hp; apply GetKeys_NoDup).
  apply list.NoDup_app in Hnd as (_ & Hdis & _). apply (Hdis b); [|left].
  apply Hall; [|by rewrite Hs]. apply elem_of_GetKeys. rewrite <- Hp. set_solver.
Qed.

(** On a membership that can vote, the blacklist policy returns, whatever
    order the nodes are enumerated in, a duplicate-free list of members that is a strong
    quorum, contains every node that was never suspected, and in which nobody was suspected
    more recently than a node left out. *)
Theorem blacklist_leaders rng l :
  voting (blp_Membership l) → inv l →
  ∃ leaders rest, Leaders rng l = Ok leaders ∧
    leaders ++ rest ≡ₚ GetKeys (Nodes (blp_Membership l)) ∧ NoDup leaders ∧
    Membutil.HaveStrongQuorum (blp_Membership l) leaders = Ok true ∧
    (∀ id, is_Some (Nodes (blp_Membership l) !! id) → Suspected l !! id = None → id ∈ leaders) ∧
    (∀ a b, a ∈ leaders → b ∈ rest → less l b a = false).
Proof. apply leaders_spec. Qed.

Lemma blacklist_leaders_witness :
  ∃ leaders rest, Leaders range_id (mkBlacklistPolicy mb4 {[ "1" := 3%N; "2" := 1%N ]}) = Ok leaders ∧
    leaders ++ rest ≡ₚ GetKeys (Nodes mb4) ∧ NoDup leaders ∧
    Membutil.HaveStrongQuorum mb4 leaders = Ok true ∧ leaders = ["0"; "3"; "2"].
Proof.
  destruct (blacklist_leaders range_id (mkBlacklistPolicy mb4 {[ "1" := 3%N; "2" := 1%N ]}))
    as (leaders & rest & Hl & Hp & Hnd & Hq & _).
  - apply mb4_voting.
  - unfold inv. simpl. rewrite dom_insert_L, dom_singleton_L. intros id.
    rewrite elem_of_union, !elem_of_singleton. by intros [->| ->]; apply elem_of_dom; eexists.
  - exists leaders, rest. split_and!; try done. vm_compute in Hl. congruence.
Defined.

(** The blacklist policy is not deterministic, contrary to the contract of
    LeaderSelectionPolicy: after two nodes are suspected in the same epoch, the leaders depend on
    the order in which the membership map is enumerated. *)
Theorem blacklist_leaders_order_dependent :
  ∃ (l : BlacklistLeaderPolicy) l1 l2,
    l = Suspect (Suspect (NewBlackListLeaderPolicy mb4) 1 "0") 1 "1" ∧
    Leaders range_id l = Ok l1 ∧ Leaders range_rev l = Ok l2 ∧ ¬ l1 ≡ₚ l2.
Proof.
  eexists _, _, _. split_and!; [done|vm_compute; reflexivity..|].
  intros Hp. assert ("1" ∈ ["2"; "3"; "0"]) as Hin by (rewrite <- Hp; set_solver).
  by apply (bool_decide_pack _) in Hin.
Qed.

(** A serialized policy is read back as the same policy of the same kind,
    given that the CBOR library decodes what it encodes. *)
Theorem policy_bytes_roundtrip `{!Cbor} p bytes :
  (∀ q ser, cbor_Marshal_simple q = Ok ser → cbor_Unmarshal_simple ser = Ok q) →
  (∀ q ser, cbor_Marshal_blacklist q = Ok ser → cbor_Unmarshal_blacklist ser = Ok q) →
  Policy.Bytes p = Ok bytes → Policy.LeaderPolicyFromBytes bytes = Ok p.
Proof.
  intros Hs Hb. destruct p as [p|p]; simpl; intros Hp; outcome_inv; unfold Policy.LeaderPolicyFromBytes.
  - rewrite Policy.stripType_append. by rewrite (Hs _ _ Hr).
  - pose proof (Policy.stripType_blacklist r) as Hn.
    destruct (Policy.stripType (String.append Blacklist r) Simple) as [b d]. simpl in Hn. subst b.
    rewrite Policy.stripType_append. by rewrite (Hb _ _ Hr).
Qed.

(** A toy encoding for the witness: the members separated by nothing, for one policy only. *)
#[local] Instance toy_cbor : Cbor := {|
  cbor_Marshal_simple p := match slp_Membership p with [id] => Ok id | _ => Err "unsupported" end;
  cbor_Marshal_blacklist _ := Err "unsupported";
  cbor_Unmarshal_simple s := Ok (mkSimplePolicy [s]);
  cbor_Unmarshal_blacklist _ := Err "unsupported";
|}.

Lemma policy_bytes_roundtrip_witness :
  Policy.LeaderPolicyFromBytes "simplenode" = Ok (PolicySimple (mkSimplePolicy ["node"])).
Proof.
  apply (policy_bytes_roundtrip (PolicySimple (mkSimplePolicy ["node"]))); [|done|reflexivity].
  intros [[|id []]] ser; simpl; intros H; try done. by injection H as ->.
Defined.
