(* ===== verification/IssConfig.v ===== *)
(** * pkg/iss/config/config.go: configuration parameters of ISS *)
From Stdlib Require Import ZArith Lia.
From stdpp Require Import prelude gmap strings list numbers.
From S2P Require Import Prelude Util Membership LeaderSelection.

(** [time.Duration] is an [int64] number of nanoseconds. *)
Record IssModuleParams := mkIssParams {
  InitialMembership : Membership;
  ConfigOffset : Z;
  SegmentLength : Z;
  EpochLength : Z;
  MaxProposeDelay : Z;
  MsgBufCapacity : Z;
  RetainedEpochs : Z;
  CatchUpTimerPeriod : Z;
  CheckpointResendPeriod : Z;
  LeaderSelectionPolicy : LeaderPolicyType;
  PBFTDoneResendPeriod : Z;
  PBFTCatchUpDelay : Z;
  PBFTViewChangeSNTimeout : Z;
  PBFTViewChangeSegmentTimeout : Z;
  PBFTViewChangeResendPeriod : Z;
}.

Module IssConf.
(** [if cond { return es.Errorf(..) }] *)
Definition refuse (cond : bool) (msg : string) (rest : outcome unit) : outcome unit :=
  if cond then Err msg else rest.

Definition CheckParams (c : IssModuleParams) : outcome unit :=
  match Membutil.Valid (InitialMembership c) with
  | Err _ => Err "invalid initial membership"
  | Panic p => Panic p
  | Ok _ =>
      refuse (bool_decide (ConfigOffset c < 1)%Z) "config offset must be at least 1" $
      refuse (bool_decide (SegmentLength c < 0)%Z) "negative SegmentLength" $
      refuse (bool_decide (EpochLength c < 0)%Z) "negative EpochLength" $
      refuse (bool_decide (EpochLength c ≠ 0%Z) && bool_decide (SegmentLength c ≠ 0%Z)
              || bool_decide (EpochLength c = 0%Z) && bool_decide (SegmentLength c = 0%Z))
        "conflicting EpochLength and SegmentLength (exactly one must be zero)" $
      refuse (bool_decide (MaxProposeDelay c < 0)%Z) "negative MaxProposeDelay" $
      refuse (bool_decide (MsgBufCapacity c < 0)%Z) "negative MsgBufCapacity" $
      refuse (bool_decide (CatchUpTimerPeriod c ≤ 0)%Z) "non-positive CatchUpTimerPeriod" $
      Ok tt
  end.

Definition AdjustSpeed (mp : IssModuleParams) (maxProposeDelay : Z) : IssModuleParams :=
  mkIssParams (InitialMembership mp) (ConfigOffset mp) (SegmentLength mp) (EpochLength mp)
    maxProposeDelay (MsgBufCapacity mp) (RetainedEpochs mp)
    maxProposeDelay maxProposeDelay (LeaderSelectionPolicy mp)
    maxProposeDelay maxProposeDelay
    (wrap_i64 (4 * maxProposeDelay))
    (wrap_i64 (wrap_i64 (2 * SegmentLength mp) * maxProposeDelay))
    maxProposeDelay.

Definition second : Z := 1000000000.

(** The fields not listed have their zero value. *)
Definition DefaultParams (initialMembership : Membership) : IssModuleParams :=
  AdjustSpeed
    (mkIssParams initialMembership 2 4 0 0 (32 * 1024 * 1024) 1 0 0 Simple 0 0 0 0 0)
    second.

(** A configuration that passes has a valid membership, exactly one of the two lengths set, to a
    positive value, and usable timing and buffer parameters. *)
Lemma CheckParams_inv c :
  CheckParams c = Ok tt →
  Membutil.Valid (InitialMembership c) = Ok tt ∧ (1 ≤ ConfigOffset c)%Z ∧
  ((0 < SegmentLength c ∧ EpochLength c = 0) ∨ (SegmentLength c = 0 ∧ 0 < EpochLength c))%Z ∧
  (0 ≤ MaxProposeDelay c)%Z ∧ (0 ≤ MsgBufCapacity c)%Z ∧ (0 < CatchUpTimerPeriod c)%Z.
Proof.
  unfold CheckParams, refuse.
  destruct (Membutil.Valid (InitialMembership c)) as [[]| |]; try done.
  repeat case_bool_decide; simpl; intros Hc; try done; split_and!; try done; lia.
Qed.
End IssConf.

Import IssConf.

(** The default configuration of a valid membership passes [CheckParams],
    and so does its adjustment to any positive speed; conversely a configuration that passes
    has exactly one of the two lengths set, to a positive value, and usable timing and buffer
    parameters.  Within a year of [maxProposeDelay] the view change timeouts keep their proportions
    (4 and 8 times the delay). *)
Theorem default_params_pass mb d :
  (Membutil.Valid mb = Ok tt → (0 < d)%Z → CheckParams (AdjustSpeed (DefaultParams mb) d) = Ok tt) ∧
  CheckParams (DefaultParams mb) = CheckParams (AdjustSpeed (DefaultParams mb) second) ∧
  ((0 < d ≤ 365 * 24 * 3600 * second)%Z →
     PBFTViewChangeSNTimeout (AdjustSpeed (DefaultParams mb) d) = (4 * d)%Z ∧
     PBFTViewChangeSegmentTimeout (AdjustSpeed (DefaultParams mb) d) = (8 * d)%Z) ∧
  (∀ c, CheckParams c = Ok tt →
     Membutil.Valid (InitialMembership c) = Ok tt ∧ (1 ≤ ConfigOffset c)%Z ∧
     ((0 < SegmentLength c ∧ EpochLength c = 0) ∨ (SegmentLength c = 0 ∧ 0 < EpochLength c))%Z ∧
     (0 ≤ MaxProposeDelay c)%Z ∧ (0 ≤ MsgBufCapacity c)%Z ∧ (0 < CatchUpTimerPeriod c)%Z).
Proof.
  split_and!.
  - intros Hv Hd. unfold CheckParams. simpl. rewrite Hv.
    unfold refuse. rewrite !bool_decide_eq_false_2 by lia. done.
  - done.
  - unfold second. intros Hd. split; [apply wrap_i64_small; lia|].
    change (wrap_i64 (8 * d) = 8 * d)%Z. apply wrap_i64_small. lia.
  - apply CheckParams_inv.
Qed.

Lemma default_params_pass_witness :
  CheckParams (AdjustSpeed (DefaultParams mb4) 5) = Ok tt ∧
  PBFTViewChangeSNTimeout (AdjustSpeed (DefaultParams mb4) 5) = 20%Z ∧
  (1 ≤ ConfigOffset (DefaultParams mb4))%Z.
Proof.
  destruct (default_params_pass mb4 5) as (H1 & _ & H2 & H3). split_and!.
  - apply H1; [vm_compute; reflexivity|lia].
  - apply H2. vm_compute. split; [reflexivity|discriminate].
  - apply (H3 (DefaultParams mb4)). vm_compute. reflexivity.
Defined.
