(* ===== verification/Orderer.v ===== *)
(** * pkg/orderers: the PBFT orderer module

    Models pkg/orderers/orderer.go (construction), pkg/orderers/factory.go,
    pkg/orderers/common/pprepvalidator (the permissive validator), the registration of the
    handlers (IncludeGoodCase, IncludeViewChange, IncludeSegmentCheckpoint) as one dispatch
    function on input events, and pkg/crypto/hasher.go, whose answers the orderer relies on.
    [reachable] is the set of states of one orderer, with what it received and emitted. *)
From Stdlib Require Import ZArith Lia.
From stdpp Require Import prelude gmap strings list sorting fin_maps numbers.
From S2P Require Import Prelude Util Membership MessageBuffer PbftTypes PbftSlot PbftSegmentChkp.
From S2P Require Import PbftViewChangeState PbftState Catchup GoodCase ViewChange IssConfig.
Import Maputil Sliceutil PState.

(** ** The hasher module: [hash.Hash] is the parameter, a function of all bytes written *)
Class HashImpl := { hash_Sum : string → string }.

Module Hasher.
Definition computeDigests `{!HashImpl} (allData : list (list bytes)) : list bytes :=
  (λ data, Some (hash_Sum (Serialization.concat_bytes data))) <$> allData.
End Hasher.

(** ** Construction *)
Module Orderers.
Definition removeNodeID (membership : list NodeID) (nID : NodeID) : list NodeID :=
  foldl (λ others nodeID, if bool_decide (nodeID ≠ nID) then others ++ [nodeID] else others)
    [] membership.

Definition newOrdererConfig (issParams : IssModuleParams) (membership : list NodeID) (epochNr : N)
    : PBFTConfig :=
  mkPBFTConfig membership (MaxProposeDelay issParams) (PBFTDoneResendPeriod issParams)
    (PBFTCatchUpDelay issParams) (MsgBufCapacity issParams) (PBFTViewChangeSNTimeout issParams)
    (PBFTViewChangeSegmentTimeout issParams) (PBFTViewChangeResendPeriod issParams) epochNr.

Definition NewOrdererModule (ownID : NodeID) (segment : Segment) (config : PBFTConfig)
    : ModuleParams * State :=
  (mkModuleParams ownID config,
   mkState segment
     (MsgBuf.NewBuffers (removeNodeID (cfg_Membership config) ownID) (cfg_MsgBufCapacity config))
     (mkProposalState 0 false 0 0) ∅ SegChkp.NewPbftSegmentChkp 0 false ∅).

(** The instance parameters carried by a factory request. *)
Record InstanceParams := mkInstanceParams {
  ip_Segment : Segment; ip_AvailabilityId : string; ip_Epoch : N; ip_PpvModuleId : string;
}.

Definition ModuleID_Then (mid submodule : string) : string :=
  String.append mid (String.append "/" submodule).

Definition Factory_new (issParams : IssModuleParams) (ownID : NodeID) (p : InstanceParams)
    : ModuleParams * State :=
  let epoch := ip_Epoch p in
  let segment := ip_Segment p in
  let c := newOrdererConfig issParams (Seg.NodeIDs segment) epoch in
  let c := if bool_decide (ip_PpvModuleId p =
               ModuleID_Then "pprepvalidatorchkp" (VoteWeight.big_String (Z.of_N epoch)))
           then mkPBFTConfig (cfg_Membership c) 0 (cfg_DoneResendPeriod c) (cfg_CatchUpDelay c)
                  (cfg_MsgBufCapacity c) (cfg_ViewChangeSNTimeout c) (cfg_ViewChangeSegmentTimeout c)
                  (cfg_ViewChangeResendPeriod c) (cfg_EpochNr c)
           else c in
  NewOrdererModule ownID segment c.

(** PermissivePreprepareValidator.Check: whether the Preprepare is refused. *)
Definition PermissiveCheck (preprepare : Preprepare) : outcome unit :=
  match pp_Data preprepare with
  | None => if pp_Aborted preprepare then Ok tt else Err "invalid preprepare: data is nil"
  | Some _ => Ok tt
  end.

Lemma removeNodeID_filter membership nID :
  removeNodeID membership nID = filter (λ id, id ≠ nID) membership.
Proof.
  unfold removeNodeID. assert (∀ acc l,
    foldl (λ others nodeID, if bool_decide (nodeID ≠ nID) then others ++ [nodeID] else others) acc l
    = acc ++ filter (λ id, id ≠ nID) l) as H; [|apply H].
  intros acc l. revert acc. induction l as [|id l IH]; intros acc; cbn [foldl].
  { by rewrite app_nil_r. }
  rewrite IH, filter_cons. destruct (decide (id ≠ nID)).
  - rewrite bool_decide_eq_true_2 by done. by rewrite <- app_assoc.
  - by rewrite bool_decide_eq_false_2.
Qed.
End Orderers.

(** ** Input events and their dispatch *)
Inductive input :=
| InInit
| InNewCert (certBytes : outcome bytes)
| InResultOne (digest : bytes) (ctx : HashContextOne)
| InResult (digests : list bytes) (ctx : HashContext)
| InProposeTimeout (proposeTimeout : uint64)
| InPreprepareValidated (err : bool) (pp : Preprepare) (from : NodeID)
| InSignResult (signature : bytes) (ctx : ViewChange)
| InSigVerified (nodeID : NodeID) (err : bool) (ctx : SignedViewChange)
| InSigsVerified (nodeIDs : list NodeID) (allOk : bool) (ctx : NewView)
| InViewChangeSegTimeout (view : ViewNr)
| InViewChangeSNTimeout (view : ViewNr) (numCommitted : uint64)
| InMessage (from : NodeID) (msg : Message).

Section orderer.
Context `{!ProtoSize Message} `{!HashImpl}.

Definition apply_message (rng : go_range) (params : ModuleParams) (from : NodeID) (msg : Message)
    : PBFT unit :=
  match msg with
  | MsgPreprepare pp => GoodCase.UponPreprepareReceived params from pp
  | MsgPrepare p => GoodCase.UponPrepareReceived params from p
  | MsgCommit c => GoodCase.UponCommitReceived params from c
  | MsgDone digests => CatchUp.UponDoneReceived params from digests
  | MsgCatchUpRequest digest sn => CatchUp.UponCatchUpRequestReceived params from digest sn
  | MsgCatchUpResponse resp => CatchUp.UponCatchUpResponseReceived params from resp
  | MsgSignedViewChange svc => VC.UponSignedViewChangeReceived params from svc
  | MsgPreprepareRequest digest sn => VC.UponPreprepareRequestReceived params from digest sn
  | MsgMissingPreprepare pp => VC.UponMissingPreprepareReceived rng params from pp
  | MsgNewView nv => VC.UponNewViewReceived params from nv
  end.

Definition apply_input (rng : go_range) (params : ModuleParams) (i : input) : PBFT unit :=
  match i with
  | InInit => GoodCase.UponInit params
  | InNewCert certBytes => GoodCase.UponNewCert params certBytes
  | InResultOne digest (CtxPreprepare pp) => GoodCase.UponResultOne_Preprepare params digest pp
  | InResultOne digest (CtxMissingPreprepare pp) => VC.UponResultOne_MissingPreprepare rng digest pp
  | InResultOne digest (CtxCatchUpResponse pp) =>
      CatchUp.UponResultOne_CatchUpResponse params digest pp
  | InResult digests (CtxView view) => VC.UponResult_View rng digests view
  | InResult digests (CtxNewView nv) => VC.UponResult_NewView rng params digests nv
  | InProposeTimeout n => GoodCase.UponProposeTimeout params n
  | InPreprepareValidated err pp from => GoodCase.ApplyMsgPreprepareValidated pp from err
  | InSignResult signature vc => VC.UponSignResult params signature vc
  | InSigVerified nodeID err svc => VC.UponSigVerified rng params nodeID err svc
  | InSigsVerified nodeIDs allOk nv => VC.UponSigsVerified params nodeIDs allOk nv
  | InViewChangeSegTimeout view => VC.applyViewChangeSegmentTimeout params view
  | InViewChangeSNTimeout view n => VC.applyViewChangeSNTimeout params view n
  | InMessage from msg => apply_message rng params from msg
  end.

(** ** What the other modules of the node answer

    Hash results, validation results, signature (verification) results, certificates and
    timeouts answer requests the orderer emitted; the hasher computes the hash of the bytes it
    is given.  Messages are arbitrary. *)
Definition answers (out : list event) (i : input) : Prop :=
  match i with
  | InInit => False
  | InNewCert _ => RequestCert ∈ out
  | InResultOne digest ctx => ∃ data, HashRequestOne data ctx ∈ out ∧
      Hasher.computeDigests [data] = [digest]
  | InResult digests ctx => ∃ data, HashRequest data ctx ∈ out ∧ Hasher.computeDigests data = digests
  | InProposeTimeout n => ∃ d, TimerDelay d [ProposeTimeout n] ∈ out
  | InPreprepareValidated _ pp from => ValidatePreprepare pp from ∈ out
  | InSignResult _ vc => ∃ data, SignRequest data vc ∈ out
  | InSigVerified nodeID _ svc => ∃ data sig, VerifySig data sig nodeID svc ∈ out
  | InSigsVerified nodeIDs _ nv => ∃ data sigs, VerifySigs data sigs nodeIDs nv ∈ out
  | InViewChangeSegTimeout view => ∃ d, TimerDelay d [ViewChangeSegTimeout view] ∈ out
  | InViewChangeSNTimeout view n => ∃ d, TimerDelay d [ViewChangeSNTimeout view n] ∈ out
  | InMessage _ _ => True
  end.

(** ** The states of one orderer *)
Record Node := mkNode { n_state : State; n_in : list input; n_out : list event }.

Section reachability.
Context (ownID : NodeID) (segment : Segment) (config : PBFTConfig).
Let params : ModuleParams := (Orderers.NewOrdererModule ownID segment config).1.
Let initial : State := (Orderers.NewOrdererModule ownID segment config).2.

(** One input applied to a running orderer. *)
Inductive node_step : Node → input → Node → Prop :=
| node_apply rng n i st es :
    answers (n_out n) i →
    apply_input rng params i (n_state n) = Ok (tt, st, es) →
    node_step n i (mkNode st (n_in n ++ [i]) (n_out n ++ es)).

Inductive reachable : Node → Prop :=
| reach_init rng st es :
    apply_input rng params InInit initial = Ok (tt, st, es) →
    reachable (mkNode st [InInit] es)
| reach_step n i n' : reachable n → node_step n i n' → reachable n'.

(** The messages a node has received. *)
Definition received (n : Node) (from : NodeID) (msg : Message) : Prop :=
  InMessage from msg ∈ n_in n.
End reachability.
End orderer.
