(* ===== verification/NodeInv.v ===== *)
(** * Invariants of one PBFT orderer

    [Inv] relates the state of an orderer, the messages it has received and the events it has
    emitted; every handler keeps it, whatever messages arrive.  It is the induction behind the
    properties of Orderer runs (OrdererProps) and of the system of orderers (Agreement). *)
From Stdlib Require Import ZArith Lia.
From stdpp Require Import prelude gmap strings list sorting fin_maps numbers.
From S2P Require Import Prelude Util Membership MessageBuffer PbftTypes PbftSlot PbftSegmentChkp.
From S2P Require Import PbftViewChangeState PbftState Catchup GoodCase ViewChange IssConfig Orderer.
Import Maputil Sliceutil PState.

(** ** What was emitted *)
Definition sent_prepare (out : list event) (p : Prepare) : Prop :=
  ∃ dests, SendMessage (MsgPrepare p) dests ∈ out.
Definition sent_commit (out : list event) (c : Commit) : Prop :=
  ∃ dests, SendMessage (MsgCommit c) dests ∈ out.
Definition hash_requested (out : list event) (pp : Preprepare) : Prop :=
  ∃ data, HashRequestOne data (CtxPreprepare pp) ∈ out.
Definition delivered (out : list event) (sn : SeqNr) (data : bytes) (aborted : bool) : Prop :=
  ∃ leader, SBDeliver sn data aborted leader ∈ out.
Definition delivered_sn (e : event) : option SeqNr :=
  match e with SBDeliver sn _ _ _ => Some sn | _ => None end.
Definition delivered_sns (out : list event) : list SeqNr := omap delivered_sn out.

Definition ctx_preprepare (ctx : HashContextOne) : Preprepare :=
  match ctx with CtxPreprepare pp | CtxMissingPreprepare pp | CtxCatchUpResponse pp => pp end.

(** The messages an event sends, now or when a timer fires. *)
Fixpoint sent_by (e : event) : list (Message * list NodeID) :=
  match e with
  | SendMessage msg dests => [(msg, dests)]
  | TimerDelay _ evs | TimerRepeat _ _ evs => concat (map sent_by evs)
  | _ => []
  end.
Definition is_vote (msg : Message) : bool :=
  match msg with MsgPrepare _ | MsgCommit _ => true | _ => false end.
Definition sends_vote (e : event) : bool := existsb (λ m, is_vote m.1) (sent_by e).

(** Events about which the invariant says nothing beyond well-formedness. *)
Definition neutral (e : event) : Prop :=
  sends_vote e = false ∧
  match e with
  | SBDeliver _ _ _ _ | HashRequestOne _ (CtxPreprepare _) => False
  | HashRequestOne data ctx => data = Serialization.SerializePreprepareForHashing (ctx_preprepare ctx)
  | _ => True
  end.

Lemma delivered_sns_neutral out e : neutral e → delivered_sns (out ++ [e]) = delivered_sns out.
Proof.
  intros [_ He]. unfold delivered_sns. rewrite omap_app. destruct e; simpl; by rewrite ?app_nil_r.
Qed.

Lemma elem_of_delivered_sns out sn :
  sn ∈ delivered_sns out ↔ ∃ data aborted, delivered out sn data aborted.
Proof.
  unfold delivered_sns, delivered. rewrite list_elem_of_omap. split.
  - intros (e & He & Hs). destruct e; simplify_eq/=. eauto.
  - intros (data & ab & leader & H). by eexists.
Qed.

Section invariant.
Context `{!ProtoSize Message} `{!HashImpl}.
Context (seg : Segment).
Notation mb := (seg_Membership seg).

(** The digest of a Preprepare. *)
Definition digest_of (pp : Preprepare) : string :=
  hash_Sum (Serialization.concat_bytes (Serialization.SerializePreprepareForHashing pp)).

Section received.
Context (Rcv : NodeID → Message → Prop).

(** A strong quorum of Prepare (Commit) messages for one digest. *)
Definition prepare_certificate (v : ViewNr) (sn : SeqNr) (d : string) : Prop :=
  ∃ Q, NoDup Q ∧ strong_quorum mb Q ∧
    ∀ id, id ∈ Q → ∃ d', Rcv id (MsgPrepare (mkPrepare sn v d')) ∧ contents d' = d.
Definition commit_certificate (v : ViewNr) (sn : SeqNr) (d : string) : Prop :=
  ∃ Q, NoDup Q ∧ strong_quorum mb Q ∧
    ∀ id, id ∈ Q → ∃ d', Rcv id (MsgCommit (mkCommit sn v d')) ∧ contents d' = d.
(** A weak quorum of Done messages announcing digest [d] for [sn]. *)
Definition done_digest (sn : SeqNr) (d : string) : Prop :=
  ∃ ds k b, SegChkp.done_certificate (λ id ds, Rcv id (MsgDone ds)) seg ds ∧
    Seg.SeqNrs seg !! k = Some sn ∧ ds !! k = Some b ∧ contents b = d.
(** Why [data] may be delivered at [sn]. *)
Definition justified (sn : SeqNr) (data : bytes) (aborted : bool) : Prop :=
  ∃ pp, pp_Sn pp = sn ∧ pp_Data pp = data ∧ pp_Aborted pp = aborted ∧
    ((∃ v, commit_certificate v sn (digest_of pp)) ∨ done_digest sn (digest_of pp)).

(** ** Slots *)
Record slot_inv (v : ViewNr) (sn : SeqNr) (slot : PbftSlot) : Prop := {
  si_membership : slot_membership slot = mb;
  si_preprepare : ∀ pp, slot_Preprepare slot = Some pp → pp_Sn pp = sn;
  si_prepares : ∀ id d, PrepareDigests slot !! id = Some (Some d) →
    Rcv id (MsgPrepare (mkPrepare sn v (Some d)));
  si_commits : ∀ id d, CommitDigests slot !! id = Some (Some d) →
    Rcv id (MsgCommit (mkCommit sn v (Some d)));
  si_valid_prepares : Committed slot = false → ∀ id d, ValidPrepareDigests slot !! id = Some d →
    Rcv id (MsgPrepare (mkPrepare sn v d)) ∧ contents d = contents (Digest slot);
  si_valid_commits : Committed slot = false → ∀ id d, ValidCommitDigests slot !! id = Some d →
    Rcv id (MsgCommit (mkCommit sn v d)) ∧ contents d = contents (Digest slot);
  si_fresh : Committed slot = false → Preprepared slot = false →
    Prepared slot = false ∧ ValidPrepareDigests slot = ∅ ∧ ValidCommitDigests slot = ∅;
  si_digest : Committed slot = false → Preprepared slot = true →
    ∃ pp, slot_Preprepare slot = Some pp ∧ contents (Digest slot) = digest_of pp;
}.

Lemma slot_inv_new v sn : slot_inv v sn (Slot.NewPbftSlot mb).
Proof. split; simpl; try done; intros; simplify_map_eq. Qed.

(** ** The state *)
Record Inv (st : State) (out : list event) : Prop := {
  inv_segment : st_Segment st = seg;
  inv_views : ∀ v slots, Slots st !! v = Some slots → (v ≤ View st)%N;
  inv_seqnrs : ∀ v sn slot, get_slot st v sn = Some slot → sn ∈ Seg.SeqNrs seg;
  inv_slots : ∀ v sn slot, get_slot st v sn = Some slot → slot_inv v sn slot;
  inv_buffers : ∀ id buf m, MessageBuffers st !! id = Some buf → m ∈ messages buf →
    match m with MsgPrepare _ | MsgCommit _ => Rcv id m | _ => True end;
  inv_checkpoint : SegChkp.inv (λ id ds, Rcv id (MsgDone ds)) seg (SegmentCheckpoint st);
  inv_votes : ∀ e, e ∈ out → sends_vote e = true → ∃ msg dests, e = SendMessage msg dests;
  inv_hash_data : ∀ data ctx, HashRequestOne data ctx ∈ out →
    data = Serialization.SerializePreprepareForHashing (ctx_preprepare ctx);
  inv_hash : ∀ pp, hash_requested out pp → (pp_View pp ≤ View st)%N ∧
    (pp_View pp = View st → ∃ slot, cur_slot st (pp_Sn pp) = Some slot ∧
       (slot_Preprepare slot = Some pp ∨ Committed slot = true) ∧
       (Committed slot = true → Prepared slot = true));
  inv_hash_unique : ∀ pp1 pp2, hash_requested out pp1 → hash_requested out pp2 →
    pp_View pp1 = pp_View pp2 → pp_Sn pp1 = pp_Sn pp2 → pp1 = pp2;
  inv_prepares : ∀ p, sent_prepare out p → ∃ pp, hash_requested out pp ∧
    pp_View pp = p_View p ∧ pp_Sn pp = p_Sn p ∧ p_Digest p = Some (digest_of pp);
  inv_commits : ∀ c, sent_commit out c →
    (∃ slot, get_slot st (c_View c) (c_Sn c) = Some slot ∧ Prepared slot = true) ∧
    (∃ pp, pp_Sn pp = c_Sn c ∧ contents (c_Digest c) = digest_of pp) ∧
    prepare_certificate (c_View c) (c_Sn c) (contents (c_Digest c));
  inv_commit_unique : ∀ c1 c2, sent_commit out c1 → sent_commit out c2 →
    c_View c1 = c_View c2 → c_Sn c1 = c_Sn c2 → c1 = c2;
  inv_delivered : ∀ sn data aborted, delivered out sn data aborted →
    justified sn data aborted ∧
    ∃ slot pp, cur_slot st sn = Some slot ∧ Committed slot = true ∧
      slot_Preprepare slot = Some pp ∧ pp_Data pp = data ∧ pp_Aborted pp = aborted;
  inv_once : NoDup (delivered_sns out);
}.

(** ** Steps that do not concern the invariant *)
Record same_core (s s' : State) : Prop := {
  sc_segment : st_Segment s' = st_Segment s;
  sc_buffers : MessageBuffers s' = MessageBuffers s;
  sc_slots : Slots s' = Slots s;
  sc_view : View s' = View s;
  sc_checkpoint : ∀ R sg, SegChkp.inv R sg (SegmentCheckpoint s) → SegChkp.inv R sg (SegmentCheckpoint s');
}.

Lemma Inv_core st st' out : same_core st st' → Inv st out → Inv st' out.
Proof.
  intros [Hs Hb Hsl Hv Hc] [].
  assert (∀ v sn, get_slot st' v sn = get_slot st v sn) as Hg.
  { intros v sn. unfold get_slot, slots_of. by rewrite Hsl. }
  assert (∀ sn, cur_slot st' sn = cur_slot st sn) as Hcur.
  { intros sn. unfold cur_slot. by rewrite Hg, Hv. }
  split; [congruence| | | | |by apply Hc|done|done| |done|done| |done| |done].
  - intros v slots. rewrite Hsl, Hv. eauto.
  - intros v sn slot. rewrite Hg. eauto.
  - intros v sn slot. rewrite Hg. eauto.
  - by rewrite Hb.
  - intros pp Hp. rewrite Hv, Hcur. eauto.
  - intros c Hsc. rewrite Hg. eauto.
  - intros sn data ab Hd. rewrite Hcur. eauto.
Qed.

(** ** Updating a slot of the current view *)
Record slot_le (slot slot' : PbftSlot) : Prop := {
  sl_preprepare : ∀ pp, slot_Preprepare slot = Some pp →
    Committed slot' = true ∨ slot_Preprepare slot' = Some pp;
  sl_prepared : Prepared slot = true → Prepared slot' = true;
  sl_committed : Committed slot = true →
    Committed slot' = true ∧ slot_Preprepare slot' = slot_Preprepare slot;
  sl_both : (Committed slot = true → Prepared slot = true) →
    Committed slot' = true → Prepared slot' = true;
}.

Lemma same_slot_le slot slot' : Slot.same_slot slot slot' → slot_le slot slot'.
Proof. intros []. split; intros; try split; try right; congruence || naive_solver congruence. Qed.

Lemma cur_upd st sn slot sn' :
  cur_slot (upd_slot (View st) sn slot st) sn' = if decide (sn = sn') then Some slot else cur_slot st sn'.
Proof.
  unfold cur_slot. change (View (upd_slot _ _ _ _)) with (View st). rewrite get_upd.
  destruct (decide (sn = sn')); [rewrite decide_True|rewrite decide_False]; tauto.
Qed.

Lemma Inv_upd_slot st out sn slot slot' :
  Inv st out → cur_slot st sn = Some slot → slot_inv (View st) sn slot' → slot_le slot slot' →
  Inv (upd_slot (View st) sn slot' st) out.
Proof.
  intros [] Hcur Hsi [Hl1 Hl2 Hl3 Hl4].
  split; try done.
  - intros v slots. simpl. intros [[<- _]|[_ Hs]]%lookup_insert_Some; [done|]. eauto.
  - intros v sn' slot0. rewrite get_upd. case_decide as Hd; [|eauto].
    destruct Hd as [<- <-]. intros _. eauto.
  - intros v sn' slot0. rewrite get_upd. case_decide as Hd; [|eauto].
    destruct Hd as [<- <-]. by intros [= <-].
  - intros pp Hp. destruct (inv_hash0 pp Hp) as [Hle Heq]. split; [done|]. intros Hv.
    destruct (Heq Hv) as (slot0 & Hs0 & Hor & Hb). rewrite cur_upd.
    case_decide as Hd; [|by exists slot0]. subst sn. rewrite Hcur in Hs0. simplify_eq.
    exists slot'. split_and!; [done| |auto]. destruct Hor as [Hor|Hor].
    + apply Hl1 in Hor. tauto.
    + apply Hl3 in Hor. tauto.
  - intros c Hc. destruct (inv_commits0 c Hc) as [(slot0 & Hs0 & Hp0) Hrest].
    split; [|done]. rewrite get_upd. case_decide as Hd; [|by exists slot0].
    destruct Hd as [Hv Hsn]. exists slot'. split; [done|]. apply Hl2.
    unfold cur_slot in Hcur. rewrite Hv, Hsn in Hcur. congruence.
  - intros sn' data ab Hd. destruct (inv_delivered0 sn' data ab Hd) as [Hj (slot0 & pp & Hs0 & Hc0 & Hpp & Hda & Hab)].
    split; [done|]. rewrite cur_upd. case_decide as Heq; [|by exists slot0, pp].
    subst sn'. rewrite Hcur in Hs0. simplify_eq. destruct (Hl3 Hc0) as [Hc' Hpp'].
    exists slot', pp. split_and!; congruence.
Qed.

(** ** Emitting the events the invariant is about *)
Lemma elem_snoc {A} (l : list A) x y : y ∈ l ++ [x] → y ∈ l ∨ y = x.
Proof. intros [?|?%list_elem_of_singleton]%elem_of_app; auto. Qed.

Lemma elem_snoc_l {A} (l : list A) x y : y ∈ l → y ∈ l ++ [x].
Proof. intros. apply elem_of_app. by left. Qed.

(** Reduces a statement about the extended output to the old output, leaving the new event. *)
Ltac old_event :=
  repeat match goal with
  | |- ∀ _, _ => intros ?
  | Hx : hash_requested (_ ++ [_]) _ |- _ => destruct Hx as [? [?|?]%elem_snoc]; simplify_eq
  | Hx : sent_prepare (_ ++ [_]) _ |- _ => destruct Hx as [? [?|?]%elem_snoc]; simplify_eq
  | Hx : sent_commit (_ ++ [_]) _ |- _ => destruct Hx as [? [?|?]%elem_snoc]; simplify_eq
  | Hx : delivered (_ ++ [_]) _ _ _ |- _ => destruct Hx as [? [?|?]%elem_snoc]; simplify_eq
  | Hx : HashRequestOne _ _ ∈ _ ++ [_] |- _ => apply elem_snoc in Hx as [?|?]; simplify_eq
  end.

Lemma hash_requested_snoc out e pp : hash_requested out pp → hash_requested (out ++ [e]) pp.
Proof. intros [d ?]. exists d. by apply elem_snoc_l. Qed.

Lemma prepares_snoc out e :
  (∀ p, sent_prepare out p → ∃ pp, hash_requested out pp ∧
     pp_View pp = p_View p ∧ pp_Sn pp = p_Sn p ∧ p_Digest p = Some (digest_of pp)) →
  ∀ p, sent_prepare out p → ∃ pp, hash_requested (out ++ [e]) pp ∧
     pp_View pp = p_View p ∧ pp_Sn pp = p_Sn p ∧ p_Digest p = Some (digest_of pp).
Proof. intros Ho p Hp. destruct (Ho p Hp) as (pp & ? & ?). exists pp. eauto using hash_requested_snoc. Qed.

Lemma delivered_sns_snoc out e :
  delivered_sns (out ++ [e]) = delivered_sns out ++ option_list (delivered_sn e).
Proof. unfold delivered_sns. rewrite omap_app. simpl. by destruct (delivered_sn e). Qed.

(** Emitting an event: what has to hold of it, by kind. *)
Lemma Inv_emit_event st out e :
  Inv st out →
  (sends_vote e = true → ∃ msg dests, e = SendMessage msg dests) →
  (∀ data ctx, e = HashRequestOne data ctx →
     data = Serialization.SerializePreprepareForHashing (ctx_preprepare ctx)) →
  (∀ data pp, e = HashRequestOne data (CtxPreprepare pp) →
     pp_View pp = View st ∧
     (∀ pp', hash_requested out pp' → pp_View pp' = pp_View pp → pp_Sn pp' = pp_Sn pp → False) ∧
     ∃ slot, cur_slot st (pp_Sn pp) = Some slot ∧ slot_Preprepare slot = Some pp ∧ Committed slot = false) →
  (∀ p dests, e = SendMessage (MsgPrepare p) dests → ∃ pp, hash_requested out pp ∧
     pp_View pp = p_View p ∧ pp_Sn pp = p_Sn p ∧ p_Digest p = Some (digest_of pp)) →
  (∀ c dests, e = SendMessage (MsgCommit c) dests →
     (∃ slot, get_slot st (c_View c) (c_Sn c) = Some slot ∧ Prepared slot = true) ∧
     (∃ pp, pp_Sn pp = c_Sn c ∧ contents (c_Digest c) = digest_of pp) ∧
     prepare_certificate (c_View c) (c_Sn c) (contents (c_Digest c)) ∧
     (∀ c', sent_commit out c' → c_View c' = c_View c → c_Sn c' = c_Sn c → False)) →
  (∀ sn data aborted leader, e = SBDeliver sn data aborted leader →
     sn ∉ delivered_sns out ∧ justified sn data aborted ∧
     ∃ slot pp, cur_slot st sn = Some slot ∧ Committed slot = true ∧
       slot_Preprepare slot = Some pp ∧ pp_Data pp = data ∧ pp_Aborted pp = aborted) →
  Inv st (out ++ [e]).
Proof.
  intros [] He0 He1 He2 He3 He4 He5. split; try done.
  - intros e' [?| ->]%elem_snoc; eauto.
  - old_event; [eauto|]. by eapply He1.
  - old_event; [apply inv_hash0; by eexists|].
    destruct (He2 _ _ eq_refl) as (? & _ & slot & ? & ? & ?). split; [lia|].
    intros _. exists slot. split_and!; [done|by left|congruence].
  - old_event; [|exfalso..|done].
    + apply inv_hash_unique0; [by eexists..|done|done].
    + destruct (He2 _ _ eq_refl) as (? & Hno & _). eapply Hno; [by eexists|done..].
    + destruct (He2 _ _ eq_refl) as (? & Hno & _). eapply Hno; [by eexists|done..].
  - old_event; [eapply prepares_snoc; [done|by eexists]|].
    destruct (He3 _ _ eq_refl) as (pp & ? & ?). exists pp. eauto using hash_requested_snoc.
  - old_event; [apply inv_commits0; by eexists|]. destruct (He4 _ _ eq_refl) as (? & ? & ? & _). done.
  - old_event; [|exfalso..|done].
    + apply inv_commit_unique0; [by eexists..|done|done].
    + destruct (He4 _ _ eq_refl) as (_ & _ & _ & Hno). eapply Hno; [by eexists|done..].
    + destruct (He4 _ _ eq_refl) as (_ & _ & _ & Hno). eapply Hno; [by eexists|done..].
  - old_event; [apply inv_delivered0; by eexists|]. destruct (He5 _ _ _ _ eq_refl) as (_ & ? & ?). done.
  - rewrite delivered_sns_snoc. destruct e; simpl; rewrite ?app_nil_r; try done.
    destruct (He5 _ _ _ _ eq_refl) as (Hnew & _).
    apply list.NoDup_app. split_and!; [done| |apply NoDup_singleton].
    by intros x Hx ->%list_elem_of_singleton.
Qed.

Lemma Inv_emit st out e : neutral e → Inv st out → Inv st (out ++ [e]).
Proof.
  intros [Hvote He] Hi. apply Inv_emit_event; try done.
  - congruence.
  - intros data ctx ->. destruct ctx; [done|exact He..].
  - by intros data pp ->.
  - by intros p dests ->.
  - by intros c dests ->.
  - by intros sn data ab l ->.
Qed.

(** ** Slots: the checks and the handlers keep [slot_inv] *)
Lemma slot_inv_CheckPrepared v sn slot b slot' :
  slot_inv v sn slot → Slot.CheckPrepared slot = Ok (b, slot') → slot_inv v sn slot'.
Proof.
  intros [] Hc. apply Slot.CheckPrepared_inv in Hc as ([] & Hcd & Hvcd & Hp).
  assert (∀ id d, PrepareDigests slot' !! id = Some (Some d) → PrepareDigests slot !! id = Some (Some d)) as Hpd.
  { intros id d. destruct Hp as [(-> & _)|(_ & -> & _)]; [done|].
    rewrite lookup_fmap. by destruct (PrepareDigests slot !! id). }
  split; try (by rewrite ?Hcd, ?ss_membership, ?ss_Preprepare); eauto.
  - intros Hcm id d Hd. rewrite ss_Committed in Hcm. rewrite ss_Digest.
    destruct Hp as [(_ & Hvp & _)|(_ & _ & Hvp & _)]; rewrite Hvp in Hd; [eauto|].
    apply Slot.matching_lookup in Hd as [(Hr & [d' ->] & Heq)|Hd]; [|eauto]. eauto.
  - rewrite ss_Committed, ss_Digest, Hvcd. done.
  - rewrite ss_Committed, ss_Preprepared, ss_Prepared, Hvcd. intros Hcm Hpp.
    destruct (si_fresh0 Hcm Hpp) as (? & ? & ?).
    destruct Hp as [(_ & -> & _)|(Hpp' & _)]; [done|congruence].
  - rewrite ss_Committed, ss_Preprepared, ss_Preprepare, ss_Digest. done.
Qed.

Lemma slot_inv_CheckCommitted v sn slot b slot' :
  slot_inv v sn slot → Slot.CheckCommitted slot = Ok (b, slot') → slot_inv v sn slot'.
Proof.
  intros [] Hc. apply Slot.CheckCommitted_inv in Hc as ([] & Hpd & Hvpd & Hp).
  assert (∀ id d, CommitDigests slot' !! id = Some (Some d) → CommitDigests slot !! id = Some (Some d)) as Hcd.
  { intros id d. destruct Hp as [(-> & _)|(_ & -> & _)]; [done|].
    rewrite lookup_fmap. by destruct (CommitDigests slot !! id). }
  split; try (by rewrite ?Hpd, ?ss_membership, ?ss_Preprepare); eauto.
  - rewrite ss_Committed, ss_Digest, Hvpd. done.
  - intros Hcm id d Hd. rewrite ss_Committed in Hcm. rewrite ss_Digest.
    destruct Hp as [(_ & Hvp & _)|(_ & _ & Hvp & _)]; rewrite Hvp in Hd; [eauto|].
    apply Slot.matching_lookup in Hd as [(Hr & [d' ->] & Heq)|Hd]; [|eauto]. eauto.
  - rewrite ss_Committed, ss_Preprepared, ss_Prepared, Hvpd. intros Hcm Hpp.
    destruct (si_fresh0 Hcm Hpp) as (Hprep & ? & ?).
    destruct Hp as [(_ & -> & _)|(Hpp' & _)]; [done|congruence].
  - rewrite ss_Committed, ss_Preprepared, ss_Preprepare, ss_Digest. done.
Qed.

(** A successful check yields the certificate. *)
Lemma CheckPrepared_certificate v sn slot slot' :
  slot_inv v sn slot → Committed slot = false → Slot.CheckPrepared slot = Ok (true, slot') →
  Preprepared slot = true ∧ prepare_certificate v sn (contents (Digest slot')).
Proof.
  intros Hs Hcm Hc. pose proof (slot_inv_CheckPrepared _ _ _ _ _ Hs Hc) as Hs'.
  apply Slot.CheckPrepared_inv in Hc as ([] & _ & _ & [(_ & _ & [=])|(Hpp & _ & _ & Hq)]).
  split; [done|]. exists (GetKeys (ValidPrepareDigests slot')). split_and!.
  - apply GetKeys_NoDup.
  - by rewrite <- (si_membership _ _ _ Hs).
  - intros id [d Hd]%elem_of_GetKeys. exists d. by eapply (si_valid_prepares _ _ _ Hs'); [congruence|].
Qed.

Lemma CheckCommitted_certificate v sn slot slot' :
  slot_inv v sn slot → Committed slot = false → Slot.CheckCommitted slot = Ok (true, slot') →
  Prepared slot = true ∧ commit_certificate v sn (contents (Digest slot')).
Proof.
  intros Hs Hcm Hc. pose proof (slot_inv_CheckCommitted _ _ _ _ _ Hs Hc) as Hs'.
  apply Slot.CheckCommitted_inv in Hc as ([] & _ & _ & [(_ & _ & [=])|(Hpp & _ & _ & Hq)]).
  split; [done|]. exists (GetKeys (ValidCommitDigests slot')). split_and!.
  - apply GetKeys_NoDup.
  - by rewrite <- (si_membership _ _ _ Hs).
  - intros id [d Hd]%elem_of_GetKeys. exists d. by eapply (si_valid_commits _ _ _ Hs'); [congruence|].
Qed.

(** ** Commands that do not concern the invariant *)
Definition framed (s0 : State) (out0 : list event) (s : State) (out : list event) : Prop :=
  same_core s0 s ∧ ∃ es, out = out0 ++ es ∧ Forall neutral es.
Definition harmless {A} (m : PBFT A) : Prop := ∀ s0 out0, keeps (framed s0 out0) m.

Lemma same_core_refl s : same_core s s.
Proof. done. Qed.
Lemma same_core_trans s1 s2 s3 : same_core s1 s2 → same_core s2 s3 → same_core s1 s3.
Proof. intros [] []. split; try congruence. auto. Qed.

Lemma framed_emit s0 out0 e : neutral e → keeps (framed s0 out0) (emit e).
Proof.
  intros He. apply keeps_emit. intros s out [Hs (es & -> & Hes)]. split; [done|].
  exists (es ++ [e]). rewrite app_assoc. split; [done|]. apply Forall_app. split; [done|]. by constructor.
Qed.
Lemma framed_modify s0 out0 f : (∀ s, same_core s (f s)) → keeps (framed s0 out0) (modify f).
Proof.
  intros Hf. apply keeps_modify. intros s out [Hs Hes]. split; [|done].
  by eapply same_core_trans.
Qed.

Lemma harmless_wp {A} (m : PBFT A) Q s out :
  harmless m → (∀ a s' es, same_core s s' → Forall neutral es → Q a s' (out ++ es)) → wp m Q s out.
Proof.
  intros Hm HQ. eapply wp_mono; [apply (Hm s out)|].
  - split; [apply same_core_refl|]. exists []. by rewrite app_nil_r.
  - intros a s' out' [Hs (es & -> & Hes)]. by apply HQ.
Qed.

Lemma Inv_emits st out es : Forall neutral es → Inv st out → Inv st (out ++ es).
Proof.
  revert out. induction es as [|e es IH]; intros out; [by rewrite app_nil_r|].
  intros [He Hes]%list.Forall_cons Hi. rewrite (assoc_L (++) out [e] es : out ++ e :: es = _).
  apply IH; [done|]. by apply Inv_emit.
Qed.

Lemma harmless_keeps {A} (m : PBFT A) : harmless m → keeps Inv m.
Proof.
  intros Hm s out Hi. apply harmless_wp; [done|]. intros a s' es Hs Hes.
  apply Inv_emits; [done|]. by eapply Inv_core.
Qed.

Lemma delivered_sns_neutrals out es : Forall neutral es → delivered_sns (out ++ es) = delivered_sns out.
Proof.
  revert out. induction es as [|e es IH]; intros out; [by rewrite app_nil_r|].
  intros [He Hes]%list.Forall_cons. rewrite (assoc_L (++) out [e] es : out ++ e :: es = _).
  rewrite IH by done. by apply delivered_sns_neutral.
Qed.

Lemma same_core_cur s s' sn : same_core s s' → cur_slot s' sn = cur_slot s sn.
Proof. intros [_ _ Hs Hv _]. unfold cur_slot, get_slot, slots_of. by rewrite Hs, Hv. Qed.

Ltac harmless_auto :=
  intros ? ?;
  repeat first
    [ keeps_step
    | apply framed_emit; simpl; done
    | apply framed_modify; intros ?; split; simpl;
      eauto using SegChkp.inv_SetDone, SegChkp.inv_set_CatchingUp ].

Lemma harmless_finish_segment params : harmless (CatchUp.finish_segment params).
Proof. unfold CatchUp.finish_segment, CatchUp.SendDoneMessages. harmless_auto. Qed.

Lemma harmless_propose params data : harmless (GoodCase.propose params data).
Proof. unfold GoodCase.propose. harmless_auto. Qed.

Lemma harmless_UponNewCert params cert : harmless (GoodCase.UponNewCert params cert).
Proof.
  unfold GoodCase.UponNewCert. harmless_auto. apply (harmless_propose params).
Qed.

Lemma harmless_UponProposeTimeout params n : harmless (GoodCase.UponProposeTimeout params n).
Proof.
  unfold GoodCase.UponProposeTimeout, GoodCase.applyProposeTimeout, GoodCase.requestNewCert.
  harmless_auto. apply (harmless_propose params).
Qed.

Lemma harmless_UponPreprepareReceived params from pp :
  harmless (GoodCase.UponPreprepareReceived params from pp).
Proof. unfold GoodCase.UponPreprepareReceived, GoodCase.ApplyMsgPreprepare. harmless_auto. Qed.

Lemma harmless_catchup params from m :
  match m with
  | MsgCatchUpRequest digest sn => harmless (CatchUp.UponCatchUpRequestReceived params from digest sn)
  | MsgCatchUpResponse resp => harmless (CatchUp.UponCatchUpResponseReceived params from resp)
  | _ => True
  end.
Proof.
  destruct m; try done.
  - unfold CatchUp.UponCatchUpRequestReceived, CatchUp.applyMsgCatchUpRequest. harmless_auto.
  - unfold CatchUp.UponCatchUpResponseReceived, CatchUp.applyMsgCatchUpResponse. harmless_auto.
Qed.

Lemma harmless_sendNewView view vcs : harmless (VC.sendNewView view vcs).
Proof. unfold VC.sendNewView. harmless_auto. Qed.

Lemma harmless_UponResult_View rng digests view : harmless (VC.UponResult_View rng digests view).
Proof.
  unfold VC.UponResult_View, VC.put_vcstate, VC.askForMissingPreprepares. harmless_auto.
  apply (harmless_sendNewView view).
Qed.

Lemma harmless_MissingPreprepare rng digest pp :
  harmless (VC.UponResultOne_MissingPreprepare rng digest pp).
Proof.
  unfold VC.UponResultOne_MissingPreprepare, VC.put_vcstate. harmless_auto.
  apply harmless_sendNewView.
Qed.

Lemma harmless_UponSignResult params sig vc : harmless (VC.UponSignResult params sig vc).
Proof. unfold VC.UponSignResult. harmless_auto. Qed.

Lemma harmless_UponSigVerified rng params id err svc :
  harmless (VC.UponSigVerified rng params id err svc).
Proof.
  unfold VC.UponSigVerified, VC.applyVerifiedViewChange, VC.getViewChangeState, VC.put_vcstate.
  harmless_auto.
Qed.

Lemma harmless_UponSigsVerified params ids ok nv : harmless (VC.UponSigsVerified params ids ok nv).
Proof. unfold VC.UponSigsVerified. harmless_auto. Qed.

Lemma harmless_viewchange rng params from m :
  match m with
  | MsgSignedViewChange svc => harmless (VC.UponSignedViewChangeReceived params from svc)
  | MsgPreprepareRequest digest sn => harmless (VC.UponPreprepareRequestReceived params from digest sn)
  | MsgMissingPreprepare pp => harmless (VC.UponMissingPreprepareReceived rng params from pp)
  | MsgNewView nv => harmless (VC.UponNewViewReceived params from nv)
  | _ => True
  end.
Proof.
  destruct m; try done.
  - unfold VC.UponSignedViewChangeReceived, VC.applyMsgSignedViewChange. harmless_auto.
  - unfold VC.UponPreprepareRequestReceived, VC.applyMsgPreprepareRequest. harmless_auto.
  - unfold VC.UponMissingPreprepareReceived, VC.applyMsgMissingPreprepare. harmless_auto.
  - unfold VC.UponNewViewReceived, VC.applyMsgNewView. harmless_auto.
Qed.

(** ** Delivering *)
Lemma keeps_finish_deliver params st out sn slot pp :
  Inv st out → cur_slot st sn = Some slot → Committed slot = true →
  slot_Preprepare slot = Some pp → sn ∉ delivered_sns out →
  justified sn (pp_Data pp) (pp_Aborted pp) →
  wp (CatchUp.finish_segment params;; CatchUp.deliver sn slot) (λ _, Inv) st out.
Proof.
  intros Hi Hcur Hcom Hpp Hnew Hj. wp_step. apply harmless_wp; [apply harmless_finish_segment|].
  intros _ s' es Hs Hes. unfold CatchUp.deliver. repeat wp_step. simplify_eq/=. rewrite Hpp in *. simplify_eq/=.
  apply Inv_emit_event; [|done|intros; discriminate..|].
  - apply Inv_emits; [done|]. by eapply Inv_core.
  - intros sn' data ab l [= <- <- <- _]. rewrite delivered_sns_neutrals by done.
    split_and!; [done..|]. exists slot, a. rewrite (same_core_cur _ _ _ Hs). done.
Qed.

Lemma not_delivered st out sn slot :
  Inv st out → cur_slot st sn = Some slot → Committed slot = false → sn ∉ delivered_sns out.
Proof.
  intros Hi Hc Hcom (data & ab & Hd)%elem_of_delivered_sns.
  destruct (inv_delivered _ _ Hi _ _ _ Hd) as (_ & slot' & pp & ? & ? & _). congruence.
Qed.

Lemma keeps_commit_slot params st out sn slot slot' :
  Inv st out → cur_slot st sn = Some slot → Committed slot = false → Preprepared slot = true →
  Slot.CheckCommitted slot = Ok (true, slot') →
  wp (GoodCase.commit_slot params sn (set_Committed true slot')) (λ _, Inv)
    (upd_slot (View st) sn slot' st) out.
Proof.
  intros Hi Hcur Hcom Hppd Hc.
  pose proof (inv_slots _ _ Hi _ _ _ Hcur) as Hsi.
  pose proof (slot_inv_CheckCommitted _ _ _ _ _ Hsi Hc) as Hsi'.
  destruct (CheckCommitted_certificate _ _ _ _ Hsi Hcom Hc) as [Hprep Hcert].
  apply Slot.CheckCommitted_inv in Hc as (Hss & _).
  destruct (si_digest _ _ _ Hsi' ltac:(by rewrite (Slot.ss_Committed _ _ Hss))
    ltac:(by rewrite (Slot.ss_Preprepared _ _ Hss))) as (pp & Hpp & Hdig).
  set (st1 := upd_slot (View st) sn slot' st).
  assert (Inv st1 out) as Hi1 by (eapply Inv_upd_slot; [done..|by apply same_slot_le]).
  assert (cur_slot st1 sn = Some slot') as Hcur1 by (unfold st1; by rewrite cur_upd, decide_True).
  unfold GoodCase.commit_slot. wp_step. wp_step. wp_step. wp_step.
  assert (Inv (upd_slot (View st1) sn (set_Committed true slot') st1) out) as Hi2.
  { eapply Inv_upd_slot; [done..| |].
    - destruct Hsi'. by split.
    - split; simpl; intros; [by left|done|done|]. rewrite (Slot.ss_Prepared _ _ Hss). done. }
  wp_step. wp_step. wp_step. wp_step. wp_step.
  assert (∀ out', delivered_sns out' = delivered_sns out → Inv (upd_slot (View st1) sn (set_Committed true slot') st1) out' →
    wp (CatchUp.finish_segment params;; CatchUp.deliver sn (set_Committed true slot')) (λ _, Inv)
      (upd_slot (View st1) sn (set_Committed true slot') st1) out') as Hfin.
  { intros out' Hout Hi'. apply (keeps_finish_deliver params _ _ sn (set_Committed true slot') pp); [done| |done|done| |].
    - by rewrite cur_upd, decide_True.
    - rewrite Hout. by apply (not_delivered st out sn slot).
    - exists pp. split_and!; [by apply (si_preprepare _ _ _ Hsi')|done..|]. left. eexists. by rewrite <- Hdig. }
  wp_step; wp_step.
  - apply Hfin; [by apply delivered_sns_neutral|]. by apply Inv_emit.
  - by apply Hfin.
Qed.

(** ** Advancing a slot *)
Lemma not_sent_commit st out sn slot c :
  Inv st out → cur_slot st sn = Some slot → Prepared slot = false →
  sent_commit out c → c_View c = View st → c_Sn c = sn → False.
Proof.
  intros Hi Hcur Hp Hc Hv Hs. destruct (inv_commits _ _ Hi c Hc) as [(slot' & Hg & Hp') _].
  unfold cur_slot in Hcur. rewrite Hv, Hs in Hg. congruence.
Qed.

(** The first half: a slot that becomes prepared sends one Commit message. *)
Lemma keeps_prepare_slot st out sn slot slot' dests :
  Inv st out → cur_slot st sn = Some slot → Committed slot = false → Prepared slot = false →
  Slot.CheckPrepared slot = Ok (true, slot') →
  let st' := upd_slot (View st) sn (set_Prepared true slot') (upd_slot (View st) sn slot' st) in
  Inv st' (out ++ [SendMessage (MsgCommit (mkCommit sn (View st) (Digest slot'))) dests]).
Proof.
  intros Hi Hcur Hcom Hnp Hc st'.
  pose proof (inv_slots _ _ Hi _ _ _ Hcur) as Hsi.
  pose proof (slot_inv_CheckPrepared _ _ _ _ _ Hsi Hc) as Hsi'.
  destruct (CheckPrepared_certificate _ _ _ _ Hsi Hcom Hc) as [Hppd Hcert].
  apply Slot.CheckPrepared_inv in Hc as (Hss & _).
  pose proof (Slot.ss_Committed _ _ Hss) as Hcom'. pose proof (Slot.ss_Preprepared _ _ Hss) as Hppd'.
  destruct (si_digest _ _ _ Hsi') as (pp & Hpp & Hdig); [congruence..|].
  assert (Inv (upd_slot (View st) sn slot' st) out) as Hi1
    by (eapply Inv_upd_slot; [done..|by apply same_slot_le]).
  assert (Inv st' out) as Hi2.
  { unfold st'. change (View st) with (View (upd_slot (View st) sn slot' st)) at 1.
    eapply Inv_upd_slot; [done|by rewrite cur_upd, decide_True| |].
    - destruct Hsi'. split; simpl; try done. congruence.
    - split; simpl; try done; auto. }
  apply Inv_emit_event; [done|eauto|intros; discriminate..| |intros; discriminate].
  intros c dests' [= <- _]. simpl. split_and!.
  - exists (set_Prepared true slot'). split; [|done]. apply get_upd_eq.
  - exists pp. split; [by apply (si_preprepare _ _ _ Hsi')|done].
  - done.
  - intros c' Hc' Hv' Hs'. eapply (not_sent_commit st out sn slot); done.
Qed.

Lemma keeps_try_commit params st out sn slot :
  Inv st out → cur_slot st sn = Some slot →
  wp (if Committed slot then skip
      else '(committed, slot) ← lift (Slot.CheckCommitted slot);
           modify (upd_slot (View st) sn slot);;
           when committed (GoodCase.commit_slot params sn (set_Committed true slot)))
    (λ _, Inv) st out.
Proof.
  intros Hi Hcur. wp_step; [by wp_step|]. wp_step. wp_step. destruct a as [committed slot'].
  pose proof (inv_slots _ _ Hi _ _ _ Hcur) as Hsi.
  wp_step. wp_step. wp_step.
  - apply keeps_commit_slot with slot; [done..| |congruence].
    destruct (Preprepared slot) eqn:E; [done|].
    destruct (si_fresh _ _ _ Hsi) as (Hp & _); [done..|].
    destruct committed; [|done].
    by destruct (CheckCommitted_certificate _ _ _ _ Hsi ltac:(done) Hlift) as [? _]; congruence.
  - wp_step. eapply Inv_upd_slot; [done..|by eapply slot_inv_CheckCommitted|].
    apply Slot.CheckCommitted_inv in Hlift as [? _]. by apply same_slot_le.
Qed.

Lemma keeps_advance params st out sn slot :
  Inv st out → cur_slot st sn = Some slot → (Committed slot = true → Prepared slot = true) →
  wp (GoodCase.advanceSlotState params sn) (λ _, Inv) st out.
Proof.
  intros Hi Hcur Hcp. unfold GoodCase.advanceSlotState. do 4 wp_step.
  rewrite Hcur in Hlift. simplify_eq/=. wp_step. wp_step.
  { wp_step. by apply keeps_try_commit. }
  assert (Committed a = false) as Hcom by (destruct (Committed a); [specialize (Hcp eq_refl); congruence|done]).
  wp_step. wp_step. destruct a0 as [prepared slot']. wp_step. wp_step.
  assert (Inv (upd_slot (View st) sn slot' st) out) as Hi1.
  { eapply Inv_upd_slot; [done..| |].
    - eapply slot_inv_CheckPrepared; [|done]. by apply (inv_slots _ _ Hi).
    - apply Slot.CheckPrepared_inv in Hlift as [? _]. by apply same_slot_le. }
  wp_step.
  - wp_step. wp_step. wp_step. wp_step. wp_step.
    apply (keeps_try_commit params (upd_slot (View st) sn (set_Prepared true slot') (upd_slot (View st) sn slot' st))).
    + subst prepared. by apply keeps_prepare_slot with a.
    + apply get_upd_eq.
  - wp_step. apply (keeps_try_commit params (upd_slot (View st) sn slot' st)); [done|]. apply get_upd_eq.
Qed.

(** ** Normal-case handlers *)
Lemma keeps_preprocess st out sn view msg from Q :
  Inv st out → (match msg with MsgPrepare _ | MsgCommit _ => Rcv from msg | _ => True end) →
  (∀ st', Inv st' out → Q None st' out) →
  (∀ slot, view = View st → InViewChange st = false → cur_slot st sn = Some slot →
     Committed slot = false → Q (Some slot) st out) →
  wp (GoodCase.preprocessMessage sn view msg from) Q st out.
Proof.
  intros Hi Hmsg HN HS. unfold GoodCase.preprocessMessage. wp_step. wp_step. wp_step.
  { wp_step. by apply HN. }
  wp_step.
  - wp_step. wp_step. wp_step. wp_step. destruct a0 as [b buf'].
    wp_step. wp_step. wp_step. apply HN. destruct (MessageBuffers st !! from) eqn:Eb; [|done]. simplify_eq/=.
    destruct Hi. split; try done. intros id buf m. simpl.
    intros [[<- <-]|[_ Hl]]%lookup_insert_Some Hm; [|by apply (inv_buffers0 _ _ _ Hl)].
    destruct (MsgBuf.Store_subset _ _ _ _ _ Hlift0 Hm) as [->|?]; [done|by apply (inv_buffers0 _ a)].
  - apply bool_decide_eq_false in Heqb. apply orb_false_iff in Heqb0 as [Hb Hivc].
    apply bool_decide_eq_false in Hb.
    wp_step; [|wp_step; by apply HN]. wp_step; wp_step; [by apply HN|]. apply HS; [lia|done..].
Qed.

Lemma keeps_UponResultOne_Preprepare params pp :
  ∀ st out, Inv st out → hash_requested out pp →
    wp (GoodCase.UponResultOne_Preprepare params (Some (digest_of pp)) pp) (λ _, Inv) st out.
Proof.
  intros st out Hi Hpp. unfold GoodCase.UponResultOne_Preprepare. wp_step. wp_step. wp_step; [by wp_step|].
  apply bool_decide_eq_false in Heqb. destruct (inv_hash _ _ Hi pp Hpp) as [Hle Hslot].
  assert (pp_View pp = View st) as Hv by lia. destruct (Hslot Hv) as (slot & Hcur & Hor & Hcp).
  wp_step. wp_step. rewrite Hcur in Hlift. simplify_eq/=.
  wp_step. wp_step. wp_step. wp_step.
  set (slot' := set_Preprepared true (set_Digest (Some (digest_of pp)) a)).
  pose proof (inv_slots _ _ Hi _ _ _ Hcur) as [].
  assert (Inv (upd_slot (View st) (pp_Sn pp) slot' st) out) as Hi1.
  { eapply Inv_upd_slot; [done..| |].
    - assert (Committed a = false → Preprepared a = true → contents (Digest a) = digest_of pp) as Hsame.
      { intros Hc Hp. destruct (si_digest0 Hc Hp) as (pp' & Hpp' & ->).
        destruct Hor as [Hor|Hor]; congruence. }
      split; simpl; try done.
      + intros Hc id d Hd. destruct (Preprepared a) eqn:Ep.
        * rewrite <- Hsame by done. eauto.
        * destruct (si_fresh0 Hc eq_refl) as (_ & He & _). rewrite He in Hd. by simplify_map_eq.
      + intros Hc id d Hd. destruct (Preprepared a) eqn:Ep.
        * rewrite <- Hsame by done. eauto.
        * destruct (si_fresh0 Hc eq_refl) as (_ & _ & He). rewrite He in Hd. by simplify_map_eq.
      + intros Hc _. exists pp. destruct Hor; [done|congruence].
    - split; simpl; auto. }
  apply (keeps_advance params _ _ _ slot'); [|by rewrite cur_upd, decide_True|done].
  apply Inv_emit_event; [done|eauto|intros; discriminate..| |intros; discriminate|intros; discriminate].
  intros p dests [= <- _]. exists pp. simpl. done.
Qed.

Lemma keeps_PreprepareValidated pp from err :
  keeps Inv (GoodCase.ApplyMsgPreprepareValidated pp from err).
Proof.
  intros st out Hi. unfold GoodCase.ApplyMsgPreprepareValidated. wp_step; [by wp_step|].
  wp_step. apply keeps_preprocess; [done..| |].
  { intros st' Hi'. by wp_step. }
  intros slot Hv _ Hcur Hcom. wp_step; [by wp_step|]. wp_step. wp_step. wp_step. wp_step. wp_step; [by wp_step|].
  wp_step. wp_step. wp_step.
  set (slot' := set_Preprepare (Some pp) slot).
  pose proof (inv_slots _ _ Hi _ _ _ Hcur) as [].
  assert (Inv (upd_slot (View st) (pp_Sn pp) slot' st) out) as Hi1.
  { eapply Inv_upd_slot; [done..| |].
    - split; simpl; try done; [naive_solver|]. intros Hc Hp.
      destruct (si_digest0 Hc Hp) as (pp' & ? & ?). congruence.
    - split; simpl; try done; congruence. }
  apply Inv_emit_event; [done|done|by intros ?? [= <- <-]| |intros; discriminate..].
  intros data pp' [= _ <-]. split_and!; [done| |].
  - intros pp' Hpp' Hv' Hs'. destruct (inv_hash _ _ Hi pp' Hpp') as [_ Hh].
    destruct Hh as (slot0 & Hs0 & [?|?] & _); [congruence|..]; rewrite Hs' in Hs0; congruence.
  - exists slot'. split_and!; [by rewrite cur_upd, decide_True|done..].
Qed.

Lemma keeps_applyMsgPrepare params p from :
  Rcv from (MsgPrepare p) → keeps Inv (GoodCase.applyMsgPrepare params p from).
Proof.
  intros Hr st out Hi. unfold GoodCase.applyMsgPrepare. wp_step; [|by wp_step].
  wp_step. apply keeps_preprocess; [done..| |].
  { intros st' Hi'. by wp_step. }
  intros slot Hv _ Hcur Hcom. wp_step; [by wp_step|]. do 4 wp_step.
  pose proof (inv_slots _ _ Hi _ _ _ Hcur) as [].
  eapply keeps_advance; [|by rewrite cur_upd, decide_True|simpl; congruence].
  eapply Inv_upd_slot; [done..| |].
  - split; simpl; try done. intros id d [[<- Hd]|[_ Hd]]%lookup_insert_Some; [|eauto].
    rewrite <- Hd, <- Hv. destruct p. simpl in *. by subst.
  - split; simpl; auto.
Qed.

Lemma keeps_applyMsgCommit params c from :
  Rcv from (MsgCommit c) → keeps Inv (GoodCase.applyMsgCommit params c from).
Proof.
  intros Hr st out Hi. unfold GoodCase.applyMsgCommit. wp_step; [|by wp_step].
  wp_step. apply keeps_preprocess; [done..| |].
  { intros st' Hi'. by wp_step. }
  intros slot Hv _ Hcur Hcom. wp_step; [by wp_step|]. do 4 wp_step.
  pose proof (inv_slots _ _ Hi _ _ _ Hcur) as [].
  eapply keeps_advance; [|by rewrite cur_upd, decide_True|simpl; congruence].
  eapply Inv_upd_slot; [done..| |].
  - split; simpl; try done. intros id d [[<- Hd]|[_ Hd]]%lookup_insert_Some; [|eauto].
    rewrite <- Hd, <- Hv. destruct c. simpl in *. by subst.
  - split; simpl; auto.
Qed.

(** ** Entering a view *)
Lemma get_slot_views st out v sn slot : Inv st out → get_slot st v sn = Some slot → (v ≤ View st)%N.
Proof.
  intros Hi. unfold get_slot, slots_of. destruct (Slots st !! v) eqn:E; [|done].
  intros _. by eapply (inv_views _ _ Hi).
Qed.

Lemma slot_inv_populate v sn view prev slot :
  slot_inv v sn prev → Slot.PopulateFromPrevious (Slot.NewPbftSlot mb) prev view = Ok slot →
  slot_inv view sn slot.
Proof.
  intros Hp. unfold Slot.PopulateFromPrevious. destruct (Committed prev);
    [|intros [= <-]; apply slot_inv_new].
  intros ?. outcome_inv. split; simpl; try done; try (by intros; simplify_map_eq).
  intros pp [= <-]. simpl. by apply (si_preprepare _ _ _ Hp).
Qed.

Lemma Inv_new_view st out view slots :
  Inv st out → (View st < view)%N →
  outcome_foldl (init_slot st view) ∅ (Seg.SeqNrs seg) = Ok slots →
  Inv (set_View view (set_Slots (<[view := slots]> (Slots st)) st)) out.
Proof.
  intros Hi Hv Hslots. pose proof Hi as [].
  destruct (init_slots_spec _ _ _ _ _ Hslots) as [Hin Hout]; [apply GetSortedKeys_NoDup|].
  set (st' := set_View _ _).
  assert (∀ v sn, get_slot st' v sn = if decide (v = view) then slots !! sn else get_slot st v sn) as Hg.
  { intros v sn. unfold get_slot, slots_of. simpl. destruct (decide (v = view)) as [->|].
    - by rewrite lookup_insert_eq.
    - by rewrite lookup_insert_ne. }
  assert (∀ sn, sn ∈ Seg.SeqNrs seg → ∃ slot prev, slots !! sn = Some slot ∧ cur_slot st sn = Some prev ∧
    Slot.PopulateFromPrevious (Slot.NewPbftSlot mb) prev view = Ok slot) as Hslot.
  { intros sn Hsn. destruct (Hin sn Hsn) as (slot & Hs & Hp). rewrite decide_True in Hp by lia.
    destruct Hp as (prev & ? & ?). exists slot, prev. by rewrite inv_segment0 in *. }
  assert (∀ sn slot, slots !! sn = Some slot → sn ∈ Seg.SeqNrs seg) as Hdom.
  { intros sn slot Hs. destruct (decide (sn ∈ Seg.SeqNrs seg)); [done|].
    rewrite Hout in Hs by done. by simplify_map_eq. }
  split; try done.
  - intros v sl. simpl. intros [[<- _]|[_ Hl]]%lookup_insert_Some; [done|].
    apply inv_views0 in Hl. lia.
  - intros v sn slot. rewrite Hg. destruct (decide (v = view)); [apply Hdom|apply inv_seqnrs0].
  - intros v sn slot. rewrite Hg. destruct (decide (v = view)) as [Hd|]; [|apply inv_slots0]. intros Hs. subst v.
    destruct (Hslot sn) as (slot' & prev & Hs' & Hc & Hp); [eauto|]. rewrite Hs in Hs'. simplify_eq.
    eapply slot_inv_populate; [|done]. by eapply inv_slots0.
  - intros pp Hpp. destruct (inv_hash0 pp Hpp) as [Hle _]. simpl. split; lia.
  - intros c Hc. destruct (inv_commits0 c Hc) as [(slot & Hs & Hp) Hrest]. split; [|done].
    exists slot. rewrite Hg. pose proof (get_slot_views _ _ _ _ _ Hi Hs).
    rewrite decide_False by lia. done.
  - intros sn data ab Hd. destruct (inv_delivered0 sn data ab Hd) as [Hj (slot & pp & Hs & Hc & Hpp & <- & <-)].
    split; [done|]. unfold cur_slot. change (View st') with view. rewrite Hg, decide_True by done.
    destruct (Hslot sn) as (slot' & prev & Hs' & Hprev & Hp); [eauto|].
    rewrite Hs in Hprev. simplify_eq. unfold Slot.PopulateFromPrevious in Hp.
    rewrite Hc, Hpp in Hp. simpl in Hp. simplify_eq. eexists _, _. split_and!; [done..| |]; done.
Qed.

Lemma keeps_InitView params view : view ≠ 0%N → keeps Inv (InitView params view).
Proof.
  intros Hv st out Hi. unfold InitView. wp_step. wp_step. wp_step.
  { wp_step. done. }
  wp_step; [by wp_step|]. apply bool_decide_eq_false in Heqb.
  rewrite bool_decide_eq_true_2 in Heqb0 by done. simpl in Heqb0. apply bool_decide_eq_false in Heqb0.
  wp_step. wp_step. do 9 wp_step.
  rewrite (inv_segment _ _ Hi) in Hlift.
  apply Inv_emit; [done|]. apply Inv_emit; [done|]. apply Inv_new_view; [done|lia|done].
Qed.

Lemma succ_view_nonzero params st out Q :
  Inv st out → (∀ a st' out', Inv st' out' → Q a st' out') →
  wp (InitView params (u64_succ (View st))) Q st out.
Proof.
  intros Hi HQ. destruct (decide (u64_succ (View st) = 0%N)) as [Hz|Hz].
  - unfold InitView. wp_step. wp_step. rewrite bool_decide_eq_true_2; [by wp_step|].
    rewrite Hz. destruct (decide (View st = 0%N)) as [E|]; [|lia]. by rewrite E in Hz.
  - eapply wp_mono; [by apply keeps_InitView|done].
Qed.

Lemma keeps_startViewChange params : keeps Inv (VC.startViewChange params).
Proof.
  intros st out Hi. unfold VC.startViewChange. do 5 wp_step.
  change (View (set_InViewChange true st)) with (View (set_InViewChange true st)).
  apply succ_view_nonzero; [by eapply Inv_core; [|exact Hi]|].
  intros [] st' out' Hi'. wp_step. wp_step. wp_step. wp_step. destruct a as [pSet qSet].
  wp_step. by apply Inv_emit.
Qed.

Lemma keeps_timeouts params view n :
  keeps Inv (VC.applyViewChangeSNTimeout params view n) ∧
  keeps Inv (VC.applyViewChangeSegmentTimeout params view).
Proof.
  split; unfold VC.applyViewChangeSNTimeout, VC.applyViewChangeSegmentTimeout;
    repeat keeps_step; apply keeps_startViewChange.
Qed.

(** ** Accepting a NewView message *)
Lemma keeps_ApplyBufferedMsg params m from :
  match m with MsgPrepare _ | MsgCommit _ => Rcv from m | _ => True end →
  keeps Inv (GoodCase.ApplyBufferedMsg params m from).
Proof.
  intros Hr. destruct m; simpl; try apply keeps_skip.
  - apply harmless_keeps. unfold GoodCase.ApplyMsgPreprepare. harmless_auto.
  - by apply keeps_applyMsgPrepare.
  - by apply keeps_applyMsgCommit.
Qed.

Lemma keeps_apply_buffer params from : keeps Inv (VC.apply_buffer params from).
Proof.
  intros st out Hi. unfold VC.apply_buffer. do 4 wp_step.
  destruct (MessageBuffers st !! from) as [buf|] eqn:Eb; [|done]. simplify_eq/=.
  destruct (MsgBuf.Iterate a (VC.applicable (View st))) as [buf' current] eqn:Ei.
  assert (∀ m, (m ∈ messages buf' → m ∈ messages a) ∧ (m ∈ current → m ∈ messages a)) as Hsub.
  { intros m. pose proof (MsgBuf.Iterate_subset a (VC.applicable (View st)) m) as Hs.
    rewrite Ei in Hs. simpl in Hs. tauto. }
  wp_step. wp_step. apply keeps_for.
  - intros m Hm. apply keeps_ApplyBufferedMsg. exact (inv_buffers _ _ Hi from a m Eb (proj2 (Hsub m) Hm)).
  - destruct Hi. split; try done. intros id buf m. simpl.
    intros [[<- <-]|[_ Hl]]%lookup_insert_Some Hm; [|by apply (inv_buffers0 _ _ _ Hl)].
    exact (inv_buffers0 from a m Eb (proj1 (Hsub m) Hm)).
Qed.

Lemma keeps_enter_new_view rng params nv : nv_View nv ≠ 0%N → keeps Inv (VC.enter_new_view rng params nv).
Proof.
  intros Hv. unfold VC.enter_new_view.
  apply keeps_bind; [by apply keeps_InitView|intros _].
  apply keeps_bind; [|intros _].
  { apply keeps_modify. intros s out Hi. by eapply Inv_core; [|exact Hi]. }
  repeat keeps_step; [|apply keeps_apply_buffer].
  apply harmless_keeps. unfold GoodCase.ApplyMsgPreprepare. harmless_auto.
Qed.

Lemma keeps_UponResult_NewView rng params digests nv :
  nv_View nv ≠ 0%N → keeps Inv (VC.UponResult_NewView rng params digests nv).
Proof.
  intros Hv. unfold VC.UponResult_NewView. repeat keeps_step. by apply keeps_enter_new_view.
Qed.

(** ** Catching up *)
Lemma keeps_CatchUpResponse params pp :
  keeps Inv (CatchUp.UponResultOne_CatchUpResponse params (Some (digest_of pp)) pp).
Proof.
  intros st out Hi. unfold CatchUp.UponResultOne_CatchUpResponse. do 4 wp_step.
  destruct (cur_slot st (pp_Sn pp)) as [slot|] eqn:Hcur; [|done]. simplify_eq/=.
  wp_step; [by wp_step|]. wp_step; [|by wp_step]. rename g into digests.
  wp_step; [by wp_step|]. apply negb_false_iff, bytes_Equal_true in Heqb0. simpl in Heqb0.
  wp_step. wp_step.
  set (slot' := Slot.CatchUp a (with_view pp (View st)) (Some (digest_of pp))).
  pose proof (inv_slots _ _ Hi _ _ _ Hcur) as [].
  assert (Inv (upd_slot (View st) (pp_Sn pp) slot' st) out) as Hi1.
  { eapply Inv_upd_slot; [done..| |].
    - split; simpl; try done. by intros pp' [= <-].
    - split; simpl; auto; congruence. }
  apply (keeps_finish_deliver params _ _ _ slot' (with_view pp (View st))); [done| |done|done| |].
  - by rewrite cur_upd, decide_True.
  - by apply (not_delivered st out _ a).
  - exists pp. split_and!; [done..|]. right.
    destruct (SegChkp.inv_digests _ _ _ (inv_checkpoint _ _ Hi) digests) as (ds & Hcert & Hds); [done|].
    pose proof (inv_seqnrs _ _ Hi _ _ _ Hcur) as [k Hk]%list_elem_of_lookup.
    destruct (Hds k _ Hk) as (b & Hb & Hdb). rewrite Hdb in Heqb0.
    exists ds, k, b. done.
Qed.

Lemma catchUpRequests_quiet st nodes digests reqs :
  CatchUp.catchUpRequests st nodes digests = Ok reqs →
  existsb (λ m, is_vote m.1) (concat (map sent_by reqs)) = false.
Proof.
  unfold CatchUp.catchUpRequests. rewrite IterateSorted_all.
  assert (∀ keys acc, foldl (λ a k, match digests !! k with
              Some v => CatchUp.catch_up_step st nodes a k v | None => a end) acc keys = Ok reqs →
    ∃ reqs0, acc = Ok reqs0 ∧ (existsb (λ m, is_vote m.1) (concat (map sent_by reqs0)) = false →
      existsb (λ m, is_vote m.1) (concat (map sent_by reqs)) = false)) as Hg.
  { induction keys as [|k keys IH]; intros acc; cbn [foldl]; [by exists reqs|].
    intros (reqs1 & H1 & Hq)%IH. destruct (digests !! k) as [d|]; [|by exists reqs1].
    unfold CatchUp.catch_up_step in H1. outcome_inv. exists r. split; [done|].
    intros Hr. apply Hq. destruct (negb _); simplify_eq; [|done].
    rewrite map_app, concat_app, existsb_app, Hr. done. }
  intros (reqs0 & [= <-] & Hq)%Hg. by apply Hq.
Qed.

Lemma keeps_UponDoneReceived params from digests :
  Rcv from (MsgDone digests) → keeps Inv (CatchUp.UponDoneReceived params from digests).
Proof.
  intros Hr. unfold CatchUp.UponDoneReceived. keeps_step; [apply keeps_skip|].
  intros st out Hi. unfold CatchUp.applyMsgDone. do 6 wp_step.
  assert (Inv (set_SegmentCheckpoint a st) out) as Hi1.
  { destruct Hi. split; try done. simpl. rewrite inv_segment0 in Hlift.
    by eapply SegChkp.inv_NodeDone. }
  wp_step; [|by wp_step]. wp_step; [by wp_step|].
  do 7 wp_step. apply Inv_emit.
  - split; [|done]. apply catchUpRequests_quiet in Hlift0. unfold sends_vote. simpl.
    by rewrite app_nil_r.
  - eapply Inv_core; [|exact Hi1]. split; simpl; auto using SegChkp.inv_set_CatchingUp.
Qed.
End received.

(** ** Receiving more messages *)
Section mono.
Context (R R' : NodeID → Message → Prop) (HR : ∀ id m, R id m → R' id m).

Lemma certificates_mono v sn d :
  (prepare_certificate R v sn d → prepare_certificate R' v sn d) ∧
  (commit_certificate R v sn d → commit_certificate R' v sn d) ∧
  (done_digest R sn d → done_digest R' sn d).
Proof.
  split_and!.
  - intros (Q & ? & ? & HQ). exists Q. split_and!; [done..|]. intros id Hid.
    destruct (HQ id Hid) as (d' & ? & ?). eauto.
  - intros (Q & ? & ? & HQ). exists Q. split_and!; [done..|]. intros id Hid.
    destruct (HQ id Hid) as (d' & ? & ?). eauto.
  - intros (ds & k & b & (W & ? & ? & HW) & ?). exists ds, k, b. split; [|done].
    exists W. split_and!; [done..|]. intros id Hid. destruct (HW id Hid) as (ds' & ? & ?). eauto.
Qed.

Lemma justified_mono sn data ab : justified R sn data ab → justified R' sn data ab.
Proof.
  intros (pp & ? & ? & ? & Hor). exists pp. split_and!; [done..|].
  destruct Hor as [[v Hv]|Hd]; [left; exists v|right]; by eapply certificates_mono.
Qed.

Lemma slot_inv_mono v sn slot : slot_inv R v sn slot → slot_inv R' v sn slot.
Proof.
  intros []. split; eauto.
  - intros Hc id d Hd. destruct (si_valid_prepares0 Hc id d Hd). eauto.
  - intros Hc id d Hd. destruct (si_valid_commits0 Hc id d Hd). eauto.
Qed.

Lemma Inv_mono st out : Inv R st out → Inv R' st out.
Proof.
  intros []. split; eauto using slot_inv_mono.
  - intros id buf m Hb Hm. specialize (inv_buffers0 id buf m Hb Hm). destruct m; eauto.
  - by eapply SegChkp.inv_mono; [|done]; eauto.
  - intros c Hc. destruct (inv_commits0 c Hc) as (? & ? & ?). split_and!; [done..|].
    by eapply certificates_mono.
  - intros sn data ab Hd. destruct (inv_delivered0 sn data ab Hd) as [? ?].
    split; [by eapply justified_mono|done].
Qed.
End mono.

(** ** Starting the orderer *)
Lemma keeps_init Rcv rng ownID config st es :
  let '(params, initial) := Orderers.NewOrdererModule ownID seg config in
  apply_input rng params InInit initial = Ok (tt, st, es) → Inv Rcv st es.
Proof.
  simpl. intros Hok. change es with ([] ++ es). eapply (wp_Ok _ (λ _, Inv Rcv)); [|exact Hok].
  unfold GoodCase.UponInit, InitView. repeat wp_step; try done. clear Hok.
  apply Inv_emit; [done|]. do 2 (apply Inv_emit; [done|]).
  destruct (init_slots_spec _ _ _ _ _ Hlift) as [Hin Hout]; [apply GetSortedKeys_NoDup|].
  assert (∀ sn slot, a !! sn = Some slot → sn ∈ Seg.SeqNrs seg ∧ slot = Slot.NewPbftSlot mb) as Ha.
  { intros sn slot Hs. destruct (decide (sn ∈ Seg.SeqNrs seg)) as [Hd|Hd].
    - destruct (Hin sn Hd) as (slot' & Hs' & Hnew). rewrite Hs in Hs'. simplify_eq. done.
    - rewrite Hout in Hs by done. by simplify_map_eq. }
  match goal with |- Inv _ ?s _ => assert (∀ v sn slot, get_slot s v sn = Some slot →
    sn ∈ Seg.SeqNrs seg ∧ slot = Slot.NewPbftSlot mb) as Hg end.
  { intros v sn slot. unfold get_slot, slots_of. simpl.
    destruct (decide (v = 0%N)) as [->|]; [rewrite lookup_insert_eq; apply Ha|].
    by rewrite lookup_insert_ne by done. }
  split; try (by intros; set_unfold); simpl.
  - intros v slots [[<- _]|[_ ?]]%lookup_insert_Some; [done|by simplify_map_eq].
  - intros v sn slot Hs. by apply Hg in Hs as [? _].
  - intros v sn slot Hs. apply Hg in Hs as [_ ->]. apply slot_inv_new.
  - intros id buf m Hb Hm. apply MsgBuf.NewBuffers_lookup in Hb as [_ ->]. by set_unfold.
  - intros pp [d Hd]. by set_unfold.
  - intros ?? [d Hd]. by set_unfold.
  - intros ? [d Hd]. by set_unfold.
  - intros ? [d Hd]. by set_unfold.
  - intros ?? [d Hd]. by set_unfold.
  - intros ??? [d Hd]. by set_unfold.
  - apply NoDup_nil_2.
Qed.
End invariant.
