(* ===== verification/OrdererProps.v ===== *)
(** * Properties of the runs of one PBFT orderer

    Consequences of the invariant of NodeInv for every reachable state, and concrete runs that
    show where the guarantees end. *)
From Stdlib Require Import ZArith Lia.
From stdpp Require Import prelude gmap strings list sorting fin_maps numbers.
From S2P Require Import Prelude Util Membership MessageBuffer PbftTypes PbftSlot PbftSegmentChkp.
From S2P Require Import PbftViewChangeState PbftState Catchup GoodCase ViewChange IssConfig Orderer.
From S2P Require Import NodeInv.
Import Maputil Sliceutil PState.

#[export] Instance PSetEntry_eq_dec : EqDecision PSetEntry.
Proof. solve_decision. Defined.
#[export] Instance QSetEntry_eq_dec : EqDecision QSetEntry.
Proof. solve_decision. Defined.
#[export] Instance ViewChange_eq_dec : EqDecision ViewChange.
Proof. solve_decision. Defined.
#[export] Instance SignedViewChange_eq_dec : EqDecision SignedViewChange.
Proof. solve_decision. Defined.
#[export] Instance NewView_eq_dec : EqDecision NewView.
Proof. solve_decision. Defined.
#[export] Instance HashContextOne_eq_dec : EqDecision HashContextOne.
Proof. solve_decision. Defined.
#[export] Instance HashContext_eq_dec : EqDecision HashContext.
Proof. solve_decision. Defined.

Section runs.
Context `{!ProtoSize Message} `{!HashImpl}.

Lemma keeps_apply_input seg Rcv rng params i st out :
  Inv seg Rcv st out → answers out i →
  (∀ from m, i = InMessage from m → Rcv from m) →
  (∀ digests nv, i = InResult digests (CtxNewView nv) → nv_View nv ≠ 0%N) →
  wp (apply_input rng params i) (λ _, Inv seg Rcv) st out.
Proof.
  intros Hi Ha Hm Hv. destruct i as [|cert|digest ctx|digests ctx|t|err pp from|sig vc|id err svc|ids ok nv|view|view n|from msg]; simpl in *.
  - done.
  - by eapply harmless_keeps; [apply harmless_UponNewCert|].
  - destruct Ha as (data & Hreq & Hd).
    pose proof (inv_hash_data _ _ _ _ Hi _ _ Hreq) as ->. injection Hd as <-.
    destruct ctx as [pp|pp|pp].
    + apply keeps_UponResultOne_Preprepare; [done|]. by eexists.
    + by eapply harmless_keeps; [apply harmless_MissingPreprepare|].
    + by apply keeps_CatchUpResponse.
  - destruct ctx as [view|nv].
    + by eapply harmless_keeps; [apply harmless_UponResult_View|].
    + apply keeps_UponResult_NewView; eauto.
  - by eapply harmless_keeps; [apply harmless_UponProposeTimeout|].
  - by apply keeps_PreprepareValidated.
  - by eapply harmless_keeps; [apply harmless_UponSignResult|].
  - by eapply harmless_keeps; [apply harmless_UponSigVerified|].
  - by eapply harmless_keeps; [apply harmless_UponSigsVerified|].
  - by apply (keeps_timeouts _ _ params view 0).
  - by apply keeps_timeouts.
  - specialize (Hm from msg eq_refl). unfold apply_message.
    pose proof (harmless_catchup params from msg) as Hc.
    pose proof (harmless_viewchange rng params from msg) as Hvc.
    destruct msg; try (by apply (harmless_keeps _ _ _ Hc)); try (by apply (harmless_keeps _ _ _ Hvc)).
    + by eapply harmless_keeps; [apply harmless_UponPreprepareReceived|].
    + unfold GoodCase.UponPrepareReceived. wp_step; [by wp_step|]. by apply keeps_applyMsgPrepare.
    + unfold GoodCase.UponCommitReceived. wp_step; [by wp_step|]. by apply keeps_applyMsgCommit.
    + by apply keeps_UponDoneReceived.
Qed.

(** No NewView message for view 0 got past the signature check.  (View 0 is meant to be
    initialised once; see [new_view_zero_delivers_twice].) *)
Definition no_view_zero (n : Node) : Prop :=
  ∀ digests nv, InResult digests (CtxNewView nv) ∈ n_in n → nv_View nv ≠ 0%N.

Lemma reachable_Inv ownID seg config n :
  reachable ownID seg config n → no_view_zero n → Inv seg (received n) (n_state n) (n_out n).
Proof.
  induction 1 as [rng st es Hok|n i n' Hr IH Hstep]; intros Hz.
  - simpl. eapply (keeps_init seg _ rng ownID config). exact Hok.
  - destruct Hstep as [rng n i st es Ha Hok]. simpl in *.
    set (R := received _).
    eapply (wp_Ok _ (λ _, Inv seg R)); [|exact Hok]. unfold R. apply keeps_apply_input.
    + eapply Inv_mono; [|apply IH].
      * intros id m. unfold received. simpl. intros Hin. apply elem_of_app. by left.
      * intros digests nv Hin. eapply Hz. simpl. apply elem_of_app. left. exact Hin.
    + done.
    + intros from m ->. unfold received. simpl. apply elem_of_app. right. by apply list_elem_of_singleton.
    + intros digests nv ->. apply (Hz digests). simpl. apply elem_of_app. right. by apply list_elem_of_singleton.
Qed.

(** ** Executable runs *)

(** Whether event [e] is a request that input [i] answers. *)
Definition answers_event (i : input) (e : event) : bool :=
  match i, e with
  | InNewCert _, RequestCert => true
  | InResultOne digest ctx, HashRequestOne data ctx' =>
      bool_decide (ctx' = ctx) && bool_decide (Hasher.computeDigests [data] = [digest])
  | InResult digests ctx, HashRequest data ctx' =>
      bool_decide (ctx' = ctx) && bool_decide (Hasher.computeDigests data = digests)
  | InProposeTimeout n, TimerDelay _ [ProposeTimeout n'] => bool_decide (n' = n)
  | InPreprepareValidated _ pp from, ValidatePreprepare pp' from' =>
      bool_decide (pp' = pp) && bool_decide (from' = from)
  | InSignResult _ vc, SignRequest _ vc' => bool_decide (vc' = vc)
  | InSigVerified id _ svc, VerifySig _ _ id' svc' => bool_decide (id' = id) && bool_decide (svc' = svc)
  | InSigsVerified ids _ nv, VerifySigs _ _ ids' nv' => bool_decide (ids' = ids) && bool_decide (nv' = nv)
  | InViewChangeSegTimeout view, TimerDelay _ [ViewChangeSegTimeout view'] => bool_decide (view' = view)
  | InViewChangeSNTimeout view n, TimerDelay _ [ViewChangeSNTimeout view' n'] =>
      bool_decide (view' = view) && bool_decide (n' = n)
  | _, _ => false
  end.
Definition answers_b (out : list event) (i : input) : bool :=
  match i with InMessage _ _ => true | _ => existsb (answers_event i) out end.

Lemma answers_b_sound out i : answers_b out i = true → answers out i.
Proof.
  assert (∀ e, e ∈ out → answers_event i e = true → answers out i) as He.
  { intros e Hin. destruct i, e; simpl; try done; intros Hb;
      repeat match goal with
      | Hx : _ && _ = true |- _ => apply andb_true_iff in Hx as [? ?]
      | Hx : bool_decide _ = true |- _ => apply bool_decide_eq_true in Hx; subst
      | Hx : match ?l with [] => _ | _ :: _ => _ end = true |- _ => destruct l; try done
      | Hx : match ?e with SendMessage _ _ => _ | _ => _ end = true |- _ => destruct e; try done
      end; eauto. }
  destruct i; try done; simpl; intros Hb; apply existsb_exists in Hb as (e & Hin & Hb);
    (apply (He e); [by apply list_elem_of_In|exact Hb]).
Qed.

(** Runs the inputs, checking that each one answers a request. *)
Fixpoint checked_run (rng : go_range) (params : ModuleParams) (ins : list input) (n : Node)
    : option Node :=
  match ins with
  | [] => Some n
  | i :: ins =>
      if answers_b (n_out n) i then
        match apply_input rng params i (n_state n) with
        | Ok (_, st, es) => checked_run rng params ins (mkNode st (n_in n ++ [i]) (n_out n ++ es))
        | _ => None
        end
      else None
  end.

Definition started (rng : go_range) (ownID : NodeID) (seg : Segment) (config : PBFTConfig) : option Node :=
  let '(params, initial) := Orderers.NewOrdererModule ownID seg config in
  match apply_input rng params InInit initial with
  | Ok (_, st, es) => Some (mkNode st [InInit] es)
  | _ => None
  end.

Definition run (rng : go_range) (ownID : NodeID) (seg : Segment) (config : PBFTConfig) (ins : list input)
    : option Node :=
  started rng ownID seg config ≫= checked_run rng (mkModuleParams ownID config) ins.

Lemma checked_run_reachable ownID seg config rng ins n n' :
  reachable ownID seg config n → checked_run rng (mkModuleParams ownID config) ins n = Some n' →
  reachable ownID seg config n'.
Proof.
  revert n. induction ins as [|i ins IH]; intros n Hr; cbn [checked_run]; [by intros [= <-]|].
  destruct (answers_b (n_out n) i) eqn:Ha; [|done].
  destruct (apply_input rng _ i (n_state n)) as [[[[] st] es]| |] eqn:Hok; try done.
  intros Hrun. eapply IH; [|exact Hrun]. eapply reach_step; [exact Hr|].
  eapply node_apply; [by apply answers_b_sound|exact Hok].
Qed.

Lemma run_reachable rng ownID seg config ins n :
  run rng ownID seg config ins = Some n → reachable ownID seg config n.
Proof.
  unfold run, started. simpl. intros (n0 & Hs & Hrun)%bind_Some.
  destruct (GoodCase.UponInit _ _) as [[[[] st] es]| |] eqn:Hok; try done. simplify_eq.
  eapply checked_run_reachable; [|exact Hrun]. by eapply (reach_init _ _ _ rng).
Qed.
End runs.

(** ** Concrete runs

    Node "0" of four nodes of weight 1, in a segment of one sequence number led by "1"; the
    hash function is the identity, the size of a message is 1. *)
#[local] Instance unit_size : ProtoSize Message.
Proof. by refine {| proto_Size _ := 1%Z |}. Defined.
#[local] Instance id_hash : HashImpl := {| hash_Sum s := s |}.

Module Runs.
Definition seg1 : Segment := mkSegment "1" mb4 {[ 0%N := None ]}.
Definition config1 : PBFTConfig := mkPBFTConfig ["0"; "1"; "2"; "3"] 1 1 1 1000 1000 1000 1 0.

(** A proposal for sequence number 0 in view [v] and its digest. *)
Definition proposal (v : ViewNr) (data : string) : Preprepare := mkPreprepare 0 v (Some data) false.
Definition digest (data : string) : bytes := Some (digest_of (proposal 0 data)).

(** A Preprepare received, validated and hashed. *)
Definition accept (pp : Preprepare) (d : bytes) : list input :=
  [InMessage "1" (MsgPreprepare pp); InPreprepareValidated false pp "1"; InResultOne d (CtxPreprepare pp)].
Definition prepares (v : ViewNr) (d : bytes) (ids : list NodeID) : list input :=
  (λ id, InMessage id (MsgPrepare (mkPrepare 0 v d))) <$> ids.
Definition commits (v : ViewNr) (d : bytes) (ids : list NodeID) : list input :=
  (λ id, InMessage id (MsgCommit (mkCommit 0 v d))) <$> ids.

(** The normal case: the proposal "a" is delivered. *)
Definition good_case : list input :=
  accept (proposal 0 "a") (digest "a") ++ prepares 0 (digest "a") ["0"; "1"; "2"] ++
  commits 0 (digest "a") ["0"; "1"; "2"].

Definition run0 (ins : list input) : option Node := run range_id "0" seg1 config1 ins.
End Runs.
Import Runs.

(** ** Properties *)

(** C2 (safety).  In every reachable state of an orderer, whatever messages it received, each
    sequence number has been delivered at most once and belongs to the segment (provided no
    NewView message for view 0 was accepted). *)
Theorem delivered_at_most_once `{!ProtoSize Message} `{!HashImpl} ownID seg config n :
  reachable ownID seg config n → no_view_zero n →
  NoDup (delivered_sns (n_out n)) ∧
  ∀ sn, sn ∈ delivered_sns (n_out n) → sn ∈ Seg.SeqNrs seg.
Proof.
  intros Hr Hz. pose proof (reachable_Inv _ _ _ _ Hr Hz) as Hi. split; [by apply (inv_once _ _ _ _ Hi)|].
  intros sn (data & ab & Hd)%elem_of_delivered_sns.
  destruct (inv_delivered _ _ _ _ Hi _ _ _ Hd) as (_ & slot & pp & Hs & _).
  by eapply (inv_seqnrs _ _ _ _ Hi).
Qed.



(** The witness run: the proposal is delivered by the normal case. *)
Lemma good_case_node : ∃ n, run0 good_case = Some n ∧ no_view_zero n ∧
  delivered (n_out n) 0 (Some "a") false ∧ sent_commit (n_out n) (mkCommit 0 0 (digest "a")).
Proof.
  eexists. split; [vm_compute; reflexivity|]. split_and!.
  - intros ds nv. simpl. rewrite !elem_of_cons, elem_of_nil. intros Hin.
    repeat destruct Hin as [Hin|Hin]; done.
  - eexists. simpl. rewrite !elem_of_cons. do 9 right. by left.
  - eexists. simpl. rewrite !elem_of_cons. do 6 right. by left.
Qed.

Lemma delivered_at_most_once_witness :
  ∃ n, run0 good_case = Some n ∧ NoDup (delivered_sns (n_out n)) ∧ 0%N ∈ delivered_sns (n_out n).
Proof.
  destruct good_case_node as (n & Hrun & Hz & Hd & _). exists n. split_and!; [done| |].
  - apply (delivered_at_most_once "0" seg1 config1 n); [by eapply run_reachable|done].
  - apply elem_of_delivered_sns. eauto.
Defined.



(** ** Runs that end badly *)
Module BadRuns.
(** A signed ViewChange message for view [v] reporting that "a" was prepared in view 0. *)
Definition svc_a (v : ViewNr) : SignedViewChange :=
  mkSignedViewChange
    (Some (mkViewChange v [mkPSetEntry 0 0 (digest "a")] [mkQSetEntry 0 0 (digest "a")])) (Some "sig").
(** A NewView message for view [v] built from ViewChange messages for view 1. *)
Definition new_view (v : ViewNr) (pps : list Preprepare) : NewView :=
  mkNewView v ["1"; "2"; "3"] [svc_a 1; svc_a 1; svc_a 1] [0%N] pps.
(** A NewView message received from [from], with correct signatures, and its hashes. *)
Definition accept_new_view (from : NodeID) (nv : NewView) : list input :=
  [InMessage from (MsgNewView nv); InSigsVerified ["1"; "2"; "3"] true nv;
   InResult (Hasher.computeDigests (Serialization.SerializePreprepareForHashing <$> nv_Preprepares nv))
     (CtxNewView nv)].

(** After delivering in view 0, the leader "1" replays the ViewChange messages of the others
    in a NewView message for view 0; the votes of "3" arrive late. *)
Definition view_zero_again : list input :=
  good_case ++ accept_new_view "1" (new_view 0 [proposal 0 "a"]) ++
  [InPreprepareValidated false (proposal 0 "a") "1"; InResultOne (digest "a") (CtxPreprepare (proposal 0 "a"))] ++
  prepares 0 (digest "a") ["0"; "1"; "3"] ++ commits 0 (digest "a") ["0"; "1"; "3"].

(** The primary "2" of view 1 sends a Preprepare for "b", then a NewView that re-proposes "a". *)
Definition overtaking : list input :=
  [InMessage "2" (MsgPreprepare (proposal 1 "b"))] ++
  accept_new_view "2" (new_view 1 [proposal 1 "a"]) ++
  [InPreprepareValidated false (proposal 1 "b") "2"; InResultOne (digest "b") (CtxPreprepare (proposal 1 "b"))].
End BadRuns.
Import BadRuns.

(** View 0 can be initialised a second time: [InitView] skips a view that is
    already current except for view 0, and the handler of NewView messages accepts one for
    view 0 built from ViewChange messages of any view.  The slots of view 0 are thrown away and
    the orderer delivers the same sequence number twice. *)
Theorem new_view_zero_delivers_twice :
  ∃ n, reachable "0" seg1 config1 n ∧ delivered_sns (n_out n) = [0%N; 0%N].
Proof.
  destruct (run0 view_zero_again) as [n|] eqn:E; [|by vm_compute in E].
  exists n. split; [by eapply run_reachable|]. vm_compute in E. by simplify_eq.
Qed.

(** A Preprepare that is being validated while a NewView message is processed
    overtakes it: the orderer enters view 1 by a NewView that re-proposes "a" (prepared by the
    senders of its ViewChange messages) and then prepares "b", sent earlier by the same
    primary, in that view. *)
Theorem preprepare_overtakes_new_view :
  ∃ n, reachable "0" seg1 config1 n ∧ View (n_state n) = 1%N ∧
    (∃ ds, InResult ds (CtxNewView (new_view 1 [proposal 1 "a"])) ∈ n_in n) ∧
    sent_prepare (n_out n) (mkPrepare 0 1 (digest "b")) ∧ digest "a" ≠ digest "b".
Proof.
  destruct (run0 overtaking) as [n|] eqn:E; [|by vm_compute in E].
  exists n. split; [by eapply run_reachable|]. vm_compute in E. simplify_eq.
  split_and!; [done| | |done].
  - eexists. simpl. rewrite !elem_of_cons. do 4 right. by left.
  - eexists. simpl. rewrite !elem_of_cons. do 10 right. by left.
Qed.

(** A MissingPreprepare message from any member crashes an orderer that has no
    pending view change: [latestPendingVCState] then returns a nil pointer (its test
    [state == nil] is on the wrong variable and changes nothing), which the handler
    dereferences.  This is so in every state without a view change state that has received
    enough ViewChange messages, in particular right after the start. *)
Theorem unsolicited_missing_preprepare_panics `{!ProtoSize Message} rng params st from pp :
  from ∈ cfg_Membership (Config params) →
  map_Forall (λ _ vcs, VCState.EnoughViewChanges vcs = false) (ViewChangeStates st) →
  apply_input rng params (InMessage from (MsgMissingPreprepare pp)) st = Panic NilDeref.
Proof.
  intros Hm Hvc. simpl. unfold VC.UponMissingPreprepareReceived.
  assert (Contains (cfg_Membership (Config params)) from = true) as -> by by apply Contains_true.
  simpl. unfold VC.applyMsgMissingPreprepare, mbind, M_bind, get.
  assert (VC.latestPendingVCState rng st = (None, 0%N)) as ->; [|done].
  unfold VC.latestPendingVCState.
  assert (Forall (λ e, VCState.EnoughViewChanges e.2 = false)
            (range_order rng 0 (map_to_list (ViewChangeStates st)))) as Hf.
  { rewrite range_order_perm. apply list.Forall_forall. intros [v vcs] Hin%elem_of_map_to_list.
    by apply (Hvc v). }
  induction Hf as [|e l He Hf IH]; [done|]. cbn [foldl]. unfold VC.latest_step at 2. by rewrite He.
Qed.

(** The NewView messages of a faulty primary can crash an orderer: one whose
    Preprepares are fewer than the sequence numbers makes the comparison with the re-proposals
    index out of range, once the signatures check; one with a SignedViewChange without a
    ViewChange is dereferenced before any check of its content. *)
Theorem malformed_new_view_panics :
  (∃ n, reachable "0" seg1 config1 n ∧ answers (n_out n) (InResult [] (CtxNewView (new_view 1 []))) ∧
     apply_input range_id (mkModuleParams "0" config1) (InResult [] (CtxNewView (new_view 1 [])))
       (n_state n) = Panic IndexOutOfRange) ∧
  (∃ n, reachable "0" seg1 config1 n ∧
     apply_input range_id (mkModuleParams "0" config1)
       (InMessage "2" (MsgNewView (mkNewView 1 ["3"] [mkSignedViewChange None (Some "sig")] [] [])))
       (n_state n) = Panic NilDeref).
Proof.
  split.
  - destruct (run0 (take 2 (accept_new_view "2" (new_view 1 [])))) as [n|] eqn:E; [|by vm_compute in E].
    exists n. split; [by eapply run_reachable|]. vm_compute in E. simplify_eq. split.
    + apply answers_b_sound. vm_compute. reflexivity.
    + vm_compute. reflexivity.
  - destruct (run0 []) as [n|] eqn:E; [|by vm_compute in E].
    exists n. split; [by eapply run_reachable|]. vm_compute in E. simplify_eq. vm_compute. reflexivity.
Qed.

(** Node "0" in a segment with two sequence numbers: a Preprepare "b" for 0 is being hashed
    while 0 is caught up with "a"; then 1 is caught up with "c". *)
Module Overwritten.
Definition pp_c : Preprepare := mkPreprepare 1 0 (Some "c") false.
Definition digest_c : bytes := Some (digest_of pp_c).
Definition catch_up (pp : Preprepare) (d : bytes) : list input :=
  [InMessage "2" (MsgCatchUpResponse (Some pp)); InResultOne d (CtxCatchUpResponse pp)].
Definition inputs : list input :=
  [InMessage "1" (MsgPreprepare (proposal 0 "b")); InPreprepareValidated false (proposal 0 "b") "1";
   InMessage "2" (MsgDone [digest "a"; digest_c]); InMessage "3" (MsgDone [digest "a"; digest_c])] ++
  catch_up (proposal 0 "a") (digest "a") ++
  [InResultOne (digest "b") (CtxPreprepare (proposal 0 "b"))] ++
  catch_up pp_c digest_c.
End Overwritten.

(** The handler of a Preprepare's hash does not check whether the slot was
    committed in the meantime: after catching up with "a" it overwrites the digest of the
    slot, and the node announces, in its Done messages, the digest of "b" for a sequence number
    at which it delivered "a". *)
Theorem done_announces_wrong_digest :
  ∃ n period epoch dests, reachable "0" seg4 config1 n ∧
    delivered (n_out n) 0 (Some "a") false ∧
    TimerRepeat period epoch [SendMessage (MsgDone [digest "b"; Overwritten.digest_c]) dests] ∈ n_out n ∧
    digest "a" ≠ digest "b".
Proof.
  destruct (run range_id "0" seg4 config1 Overwritten.inputs) as [n|] eqn:E; [|by vm_compute in E].
  exists n. apply run_reachable in E as Hr. vm_compute in E. simplify_eq.
  do 3 eexists. split_and!; [done| | |done].
  - eexists. simpl. rewrite !elem_of_cons. naive_solver.
  - simpl. rewrite !elem_of_cons. naive_solver.
Qed.

Lemma unsolicited_missing_preprepare_panics_witness :
  ∃ n, reachable "0" seg1 config1 n ∧
    apply_input range_id (mkModuleParams "0" config1)
      (InMessage "3" (MsgMissingPreprepare (Some (proposal 0 "x")))) (n_state n) = Panic NilDeref.
Proof.
  destruct (run0 []) as [n|] eqn:E; [|by vm_compute in E].
  exists n. split; [by eapply run_reachable|].
  apply (unsolicited_missing_preprepare_panics range_id (mkModuleParams "0" config1)).
  - by apply (bool_decide_unpack _).
  - assert (ViewChangeStates (n_state n) = ∅) as -> by (vm_compute in E; by simplify_eq).
    apply map_Forall_empty.
Defined.
