(* ===== verification/Agreement.v ===== *)
(** * The system of orderers of one segment

    Several orderers exchange messages; the nodes in [honest] run the code, the others send
    anything.  A message received from an honest node was sent to the receiver by it, and a
    signature of an honest node that verifies was requested by it. *)
From Stdlib Require Import ZArith Lia.
From stdpp Require Import prelude gmap strings list sorting fin_maps numbers.
From S2P Require Import Prelude Util Membership MessageBuffer PbftTypes PbftSlot PbftSegmentChkp.
From S2P Require Import PbftViewChangeState PbftState Catchup GoodCase ViewChange IssConfig Orderer.
From S2P Require Import NodeInv OrdererProps.
Import Maputil Sliceutil PState.

Notation System := (gmap NodeID Node) (only parsing).

(** [out] contains (possibly in a timer) the sending of [msg] to [to]. *)
Definition sends (out : list event) (to : NodeID) (msg : Message) : Prop :=
  ∃ e dests, e ∈ out ∧ (msg, dests) ∈ sent_by e ∧ to ∈ dests.
(** [out] contains a request for a signature on the ViewChange message. *)
Definition signs (out : list event) (svc : SignedViewChange) : Prop :=
  ∃ data vc, SignRequest data vc ∈ out ∧ svc_ViewChange svc = Some vc.

Section system.
Context `{!ProtoSize Message} `{!HashImpl}.
Context (honest : list NodeID) (seg : Segment) (config : PBFTConfig).

(** What the network and the crypto module guarantee about an input of [id]. *)
Definition authentic (sys : System) (id : NodeID) (i : input) : Prop :=
  match i with
  | InMessage from msg =>
      from ∈ honest → ∃ n, sys !! from = Some n ∧ sends (n_out n) id msg
  | InSigVerified from false svc =>
      from ∈ honest → ∃ n, sys !! from = Some n ∧ signs (n_out n) svc
  | InSigsVerified ids true nv =>
      ∀ k from svc, ids !! k = Some from → nv_SignedViewChanges nv !! k = Some svc →
        from ∈ honest → ∃ n, sys !! from = Some n ∧ signs (n_out n) svc
  | _ => True
  end.

Inductive system : System → Prop :=
| system_empty : system ∅
| system_boot sys id rng st es :
    system sys → id ∈ honest → sys !! id = None →
    apply_input rng (mkModuleParams id config) InInit
      (Orderers.NewOrdererModule id seg config).2 = Ok (tt, st, es) →
    system (<[id := mkNode st [InInit] es]> sys)
| system_step sys id n i n' :
    system sys → sys !! id = Some n → node_step id seg config n i n' → authentic sys id i →
    system (<[id := n']> sys).

Lemma system_nodes sys id n :
  system sys → sys !! id = Some n → id ∈ honest ∧ reachable id seg config n.
Proof.
  intros Hs. revert id n. induction Hs as [|sys id rng st es Hs IH Hh Hn Hok|sys id n i n' Hs IH Hl Hstep Ha];
    intros id' n'' Hl'.
  - by simplify_map_eq.
  - apply lookup_insert_Some in Hl' as [[<- <-]|[_ Hl']]; [|by apply IH].
    split; [done|]. by eapply (reach_init _ _ _ rng).
  - apply lookup_insert_Some in Hl' as [[<- <-]|[_ Hl']]; [|by apply IH].
    destruct (IH _ _ Hl). split; [done|]. by eapply reach_step.
Qed.

Lemma sends_mono out es to msg : sends out to msg → sends (out ++ es) to msg.
Proof. intros (e & dests & ? & ?). exists e, dests. split; [|done]. apply elem_of_app. by left. Qed.

(** A message received from an honest node was sent by it. *)
Lemma system_authentic sys id n from msg :
  system sys → sys !! id = Some n → received n from msg → from ∈ honest →
  ∃ n', sys !! from = Some n' ∧ sends (n_out n') id msg.
Proof.
  intros Hs. revert id n from msg.
  induction Hs as [|sys id rng st es Hs IH Hh Hn Hok|sys id n i n' Hs IH Hl Hstep Ha];
    intros id' n'' from msg Hl' Hr Hf.
  - by simplify_map_eq.
  - apply lookup_insert_Some in Hl' as [[<- <-]|[Hne Hl']].
    { unfold received in Hr. simpl in Hr. by apply list_elem_of_singleton in Hr. }
    destruct (IH _ _ _ _ Hl' Hr Hf) as (nf & Hnf & Hsend). exists nf. split; [|done].
    rewrite lookup_insert_ne; [done|]. intros ->. congruence.
  - assert (∃ nf, sys !! from = Some nf ∧ sends (n_out nf) id' msg) as (nf & Hnf & Hsend).
    { apply lookup_insert_Some in Hl' as [[<- <-]|[Hne Hl']]; [|by eapply IH].
      destruct Hstep as [rng n i st es Hans Hok]. unfold received in Hr. simpl in Hr.
      apply elem_of_app in Hr as [Hr|Hr]; [by eapply IH|].
      apply list_elem_of_singleton in Hr as <-. by apply Ha. }
    destruct (decide (id = from)) as [->|Hne].
    + exists n'. rewrite lookup_insert_eq. split; [done|]. rewrite Hl in Hnf. simplify_eq.
      destruct Hstep. simpl. by apply sends_mono.
    + exists nf. by rewrite lookup_insert_ne.
Qed.

Lemma sends_vote_direct (Rcv : NodeID → Message → Prop) st out to msg :
  Inv seg Rcv st out → is_vote msg = true → sends out to msg →
  ∃ dests, SendMessage msg dests ∈ out.
Proof.
  intros Hi Hv (e & dests & He & Hin & _).
  destruct (inv_votes _ _ _ _ Hi e He) as (msg' & dests' & ->).
  - apply existsb_exists. exists (msg, dests). split; [by apply list_elem_of_In|done].
  - simpl in Hin. apply list_elem_of_singleton in Hin. simplify_eq. by exists dests'.
Qed.

(** The nodes of the system accepted no NewView message for view 0. *)
Definition no_views_zero (sys : System) : Prop := map_Forall (λ _ n, no_view_zero n) sys.

(** Two strong quorums of members have an honest member in common. *)
Lemma honest_voter faulty Q1 Q2 :
  fault_bound (seg_Membership seg) faulty →
  (∀ id, is_Some (Nodes (seg_Membership seg) !! id) → id ∉ faulty → id ∈ honest) →
  NoDup Q1 → strong_quorum (seg_Membership seg) Q1 →
  NoDup Q2 → strong_quorum (seg_Membership seg) Q2 →
  ∃ id, id ∈ Q1 ∧ id ∈ Q2 ∧ id ∈ honest.
Proof.
  intros Hf Hh HN1 HS1 HN2 HS2.
  destruct (strong_meet (QuorumSystem := membutil_quorums _ faulty Hf) Q1 Q2) as (id & Hi1 & Hi2 & Hid);
    [done..|].
  exists id. split_and!; [done..|]. apply Hh; [|done].
  by eapply HaveStrongQuorum_members.
Qed.

(** Both votes of an honest node that two nodes received are in its output. *)
Lemma common_votes sys id n1 n2 id1 id2 m1 m2 :
  system sys → no_views_zero sys → id ∈ honest →
  sys !! id1 = Some n1 → sys !! id2 = Some n2 → received n1 id m1 → received n2 id m2 →
  is_vote m1 = true → is_vote m2 = true →
  ∃ n, Inv seg (received n) (n_state n) (n_out n) ∧
    (∃ dests, SendMessage m1 dests ∈ n_out n) ∧ (∃ dests, SendMessage m2 dests ∈ n_out n).
Proof.
  intros Hs Hz Hhon Hn1 Hn2 Hr1 Hr2 Hv1 Hv2.
  destruct (system_authentic _ _ _ _ _ Hs Hn1 Hr1 Hhon) as (n & Hn & Hs1).
  destruct (system_authentic _ _ _ _ _ Hs Hn2 Hr2 Hhon) as (n' & Hn' & Hs2). simplify_eq.
  destruct (system_nodes _ _ _ Hs Hn) as [_ Hreach].
  pose proof (reachable_Inv _ _ _ _ Hreach (Hz _ _ Hn)) as Hi.
  exists n. split_and!; [done|by eapply sends_vote_direct..].
Qed.

Section agreement.
Context (faulty : list NodeID) (Hfault : fault_bound (seg_Membership seg) faulty).
Context (Hhonest : ∀ id, is_Some (Nodes (seg_Membership seg) !! id) → id ∉ faulty → id ∈ honest).

Lemma certificates_agree sys id1 id2 n1 n2 v sn d1 d2 :
  system sys → no_views_zero sys → sys !! id1 = Some n1 → sys !! id2 = Some n2 →
  (prepare_certificate seg (received n1) v sn d1 → prepare_certificate seg (received n2) v sn d2 → d1 = d2) ∧
  (commit_certificate seg (received n1) v sn d1 → commit_certificate seg (received n2) v sn d2 → d1 = d2).
Proof.
  intros Hs Hz Hn1 Hn2. split; intros (Q1 & HQ1 & HS1 & HC1) (Q2 & HQ2 & HS2 & HC2);
    destruct (honest_voter faulty Q1 Q2) as (id & Hi1 & Hi2 & Hid); try done;
    destruct (HC1 id Hi1) as (b1 & Hr1 & <-); destruct (HC2 id Hi2) as (b2 & Hr2 & <-);
    destruct (common_votes sys id n1 n2 id1 id2 _ _ Hs Hz Hid Hn1 Hn2 Hr1 Hr2 eq_refl eq_refl)
      as (n & Hi & Hv1 & Hv2).
  - destruct (inv_prepares _ _ _ _ Hi _ Hv1) as (pp1 & Hq1 & Hpv1 & Hps1 & Hd1).
    destruct (inv_prepares _ _ _ _ Hi _ Hv2) as (pp2 & Hq2 & Hpv2 & Hps2 & Hd2). simpl in *.
    assert (pp1 = pp2) as -> by (apply (inv_hash_unique _ _ _ _ Hi); congruence || done).
    congruence.
  - pose proof (inv_commit_unique _ _ _ _ Hi _ _ Hv1 Hv2 eq_refl eq_refl) as Heq. by simplify_eq/=.
Qed.
End agreement.

(** A node holds a commit certificate of view [v] for this content. *)
Definition committed_in (n : Node) (v : ViewNr) (sn : SeqNr) (data : bytes) (aborted : bool) : Prop :=
  ∃ pp, pp_Sn pp = sn ∧ pp_Data pp = data ∧ pp_Aborted pp = aborted ∧
    commit_certificate seg (received n) v sn (digest_of pp).

(** ** Executable systems *)
Inductive action := Boot (id : NodeID) | Step (id : NodeID) (i : input).

Definition sends_b `{!EqDecision Message} (out : list event) (to : NodeID) (msg : Message) : bool :=
  existsb (λ e, existsb (λ md, bool_decide (md.1 = msg) && bool_decide (to ∈ md.2)) (sent_by e)) out.
Definition signs_b (out : list event) (svc : SignedViewChange) : bool :=
  existsb (λ e, match e with
                | SignRequest _ vc => bool_decide (svc_ViewChange svc = Some vc)
                | _ => false
                end) out.
Definition on_honest (sys : System) (from : NodeID) (f : list event → bool) : bool :=
  if bool_decide (from ∈ honest) then
    match sys !! from with Some n => f (n_out n) | None => false end
  else true.
Definition authentic_b `{!EqDecision Message} (sys : System) (id : NodeID) (i : input) : bool :=
  match i with
  | InMessage from msg => on_honest sys from (λ out, sends_b out id msg)
  | InSigVerified from false svc => on_honest sys from (λ out, signs_b out svc)
  | InSigsVerified ids true nv =>
      forallb (λ '(from, svc), on_honest sys from (λ out, signs_b out svc))
        (zip ids (nv_SignedViewChanges nv))
  | _ => true
  end.

Definition act `{!EqDecision Message} (rng : go_range) (sys : System) (a : action) : option System :=
  match a with
  | Boot id =>
      n ← started rng id seg config;
      match sys !! id with
      | None => if bool_decide (id ∈ honest) then Some (<[id := n]> sys) else None
      | Some _ => None
      end
  | Step id i =>
      n ← sys !! id;
      if authentic_b sys id i then
        n' ← checked_run rng (mkModuleParams id config) [i] n;
        Some (<[id := n']> sys)
      else None
  end.
Fixpoint acts `{!EqDecision Message} (rng : go_range) (sys : System) (l : list action) : option System :=
  match l with
  | [] => Some sys
  | a :: l => sys' ← act rng sys a; acts rng sys' l
  end.

Lemma sends_b_sound `{!EqDecision Message} out to msg : sends_b out to msg = true → sends out to msg.
Proof.
  intros (e & He & ([msg' dests] & Hin & Hb)%existsb_exists)%existsb_exists.
  apply andb_true_iff in Hb as [<-%bool_decide_eq_true Ht%bool_decide_eq_true].
  exists e, dests. by rewrite !list_elem_of_In in *.
Qed.

Lemma signs_b_sound out svc : signs_b out svc = true → signs out svc.
Proof.
  intros (e & He & Hb)%existsb_exists. destruct e; try done. apply bool_decide_eq_true in Hb.
  eexists _, _. split; [by apply list_elem_of_In|done].
Qed.

Lemma on_honest_sound sys from f :
  on_honest sys from f = true → from ∈ honest → ∃ n, sys !! from = Some n ∧ f (n_out n) = true.
Proof.
  unfold on_honest. intros Hb Hh. rewrite bool_decide_eq_true_2 in Hb by done.
  destruct (sys !! from); [|done]. eauto.
Qed.

Lemma authentic_b_sound `{!EqDecision Message} sys id i :
  authentic_b sys id i = true → authentic sys id i.
Proof.
  destruct i as [| | | | | | |from [] svc|ids [] nv| | |from msg]; simpl; try done.
  - intros Hb Hh. destruct (on_honest_sound _ _ _ Hb Hh) as (n & ? & ?%signs_b_sound). eauto.
  - intros Hb k from svc Hk Hsvc Hh. apply forallb_forall with (x := (from, svc)) in Hb.
    + destruct (on_honest_sound _ _ _ Hb Hh) as (n & ? & ?%signs_b_sound). eauto.
    + apply list_elem_of_In, list_elem_of_lookup. exists k. by rewrite lookup_zip_with, Hk, Hsvc.
  - intros Hb Hh. destruct (on_honest_sound _ _ _ Hb Hh) as (n & ? & ?%sends_b_sound). eauto.
Qed.

Lemma act_sound `{!EqDecision Message} rng sys a sys' :
  system sys → act rng sys a = Some sys' → system sys'.
Proof.
  intros Hs. destruct a as [id|id i]; cbn [act]; intros (n & Hn & Ha)%bind_Some.
  - destruct (sys !! id) eqn:E; [done|]. case_bool_decide; [|done]. simplify_eq.
    unfold started in Hn. simpl in Hn.
    destruct (GoodCase.UponInit _ _) as [[[[] st] es]| |] eqn:Hok; try done. simplify_eq.
    by eapply (system_boot _ _ rng).
  - destruct (authentic_b sys id i) eqn:E; [|done]. apply bind_Some in Ha as (n' & Hrun & [= <-]).
    cbn [checked_run] in Hrun. destruct (answers_b (n_out n) i) eqn:Eans; [|done].
    destruct (apply_input rng _ i (n_state n)) as [[[[] st] es]| |] eqn:Hok; try done. simplify_eq.
    eapply system_step; [done..| |by apply authentic_b_sound].
    eapply node_apply; [by apply answers_b_sound|exact Hok].
Qed.

Lemma acts_sound `{!EqDecision Message} rng sys l sys' :
  system sys → acts rng sys l = Some sys' → system sys'.
Proof.
  revert sys. induction l as [|a l IH]; intros sys Hs; cbn [acts]; [by intros [= <-]|].
  intros (sys1 & Ha & Hl)%bind_Some. eapply IH; [|done]. by eapply act_sound.
Qed.
(** Executable forms of the predicates on nodes. *)
Definition no_view_zero_b (n : Node) : bool :=
  forallb (λ i, match i with
                | InResult _ (CtxNewView nv) => bool_decide (nv_View nv ≠ 0%N)
                | _ => true
                end) (n_in n).
Definition received_b `{!EqDecision Message} (n : Node) (msg : Message) (id : NodeID) : bool :=
  existsb (λ i, match i with
                | InMessage from msg' => bool_decide (from = id) && bool_decide (msg' = msg)
                | _ => false
                end) (n_in n).
Definition delivered_b (n : Node) (sn : SeqNr) (data : bytes) (aborted : bool) : bool :=
  existsb (λ e, match e with
                | SBDeliver sn' data' aborted' _ =>
                    bool_decide (sn' = sn) && bool_decide (data' = data) && bool_decide (aborted' = aborted)
                | _ => false
                end) (n_out n).

Lemma no_view_zero_b_sound n : no_view_zero_b n = true → no_view_zero n.
Proof.
  intros Hb ds nv Hin. unfold no_view_zero_b in Hb. rewrite forallb_forall in Hb.
  specialize (Hb (InResult ds (CtxNewView nv))). apply bool_decide_eq_true in Hb; [done|].
  by apply list_elem_of_In.
Qed.
Lemma received_b_sound `{!EqDecision Message} n msg id : received_b n msg id = true → received n id msg.
Proof.
  intros (i & Hin & Hb)%existsb_exists. destruct i; try done.
  apply andb_true_iff in Hb as [->%bool_decide_eq_true ->%bool_decide_eq_true].
  by apply list_elem_of_In.
Qed.
Lemma delivered_b_sound n sn data ab : delivered_b n sn data ab = true → delivered (n_out n) sn data ab.
Proof.
  intros (e & Hin & Hb)%existsb_exists. destruct e; try done.
  rewrite !andb_true_iff, !bool_decide_eq_true in Hb. destruct Hb as [[-> ->] ->].
  eexists. by apply list_elem_of_In.
Qed.
Lemma no_views_zero_b_sound (sys : System) :
  forallb (λ e, no_view_zero_b e.2) (map_to_list sys) = true → no_views_zero sys.
Proof.
  rewrite forallb_forall. intros Hb id n Hn. apply no_view_zero_b_sound, (Hb (id, n)).
  by apply list_elem_of_In, elem_of_map_to_list.
Qed.
End system.

#[export] Instance Message_eq_dec : EqDecision Message.
Proof. solve_decision. Defined.

(** ** Concrete systems

    Four nodes of weight 1, "2" is faulty; one sequence number, led by "1". *)
#[local] Instance unit_size : ProtoSize Message.
Proof. by refine {| proto_Size _ := 1%Z |}. Defined.
#[local] Instance id_hash : HashImpl := {| hash_Sum s := s |}.

Module Systems.
Import Runs.
Definition correct : list NodeID := ["0"; "1"; "3"].
Definition exec (l : list action) : option (gmap NodeID Node) :=
  acts correct seg1 config1 range_id ∅ l.

Definition each (ids : list NodeID) (f : NodeID → list input) : list action :=
  ids ≫= λ id, Step id <$> f id.

(** The leader "1" proposes "a" in view 0. *)
Definition start : list action :=
  (Boot <$> correct) ++ [Step "1" (InProposeTimeout 1); Step "1" (InNewCert (Ok (Some "a")))].
(** Node [id] accepts a Preprepare. *)
Definition accepts (from : NodeID) (pp : Preprepare) (d : bytes) (id : NodeID) : list action :=
  Step id <$> [InMessage from (MsgPreprepare pp); InPreprepareValidated false pp from;
               InResultOne d (CtxPreprepare pp)].

(** The normal case: "0" and "1" deliver "a". *)
Definition normal : list action :=
  start ++ (["0"; "1"] ≫= accepts "1" (proposal 0 "a") (digest "a")) ++
  each ["0"; "1"] (λ _, prepares 0 (digest "a") ["0"; "1"; "2"]) ++
  each ["0"; "1"] (λ _, commits 0 (digest "a") ["0"; "1"; "2"]).

(** The ViewChange messages for view 1: "1" prepared "a", "3" prepared nothing. *)
Definition vc_1 : ViewChange :=
  mkViewChange 1 [mkPSetEntry 0 0 (digest "a")] [mkQSetEntry 0 0 (digest "a")].
Definition vc_3 : ViewChange := mkViewChange 1 [] [].
Definition signed (vc : ViewChange) : SignedViewChange := mkSignedViewChange (Some vc) (Some "sig").
(** The NewView message of the primary "2" of view 1 re-proposes "a". *)
Definition nv_a : NewView :=
  mkNewView 1 ["1"; "2"; "3"] [signed vc_1; signed vc_1; signed vc_3] [0%N] [proposal 1 "a"].

(** "0" delivers "a" in view 0, "1" prepares it; then "1" and "3" change to view 1, whose
    primary "2" sends them "b" just before the NewView message. *)
Definition race : list action :=
  start ++ (["0"; "1"] ≫= accepts "1" (proposal 0 "a") (digest "a")) ++
  each ["0"; "1"] (λ _, prepares 0 (digest "a") ["0"; "1"; "2"]) ++
  each ["0"] (λ _, commits 0 (digest "a") ["0"; "1"; "2"]) ++
  each ["1"; "3"] (λ _, [InViewChangeSegTimeout 0]) ++
  each ["1"; "3"] (λ _,
    [InMessage "2" (MsgNewView nv_a); InSigsVerified ["1"; "2"; "3"] true nv_a;
     InMessage "2" (MsgPreprepare (proposal 1 "b"));
     InResult [digest "a"] (CtxNewView nv_a);
     InPreprepareValidated false (proposal 1 "b") "2";
     InResultOne (digest "b") (CtxPreprepare (proposal 1 "b"))]) ++
  each ["1"; "3"] (λ _, prepares 1 (digest "b") ["1"; "2"; "3"]) ++
  each ["1"; "3"] (λ _, commits 1 (digest "b") ["1"; "2"; "3"]).
End Systems.
Import Systems Runs.

(** ** Properties *)


(** What is checked of a final system about two of its nodes. *)
Definition final_check (l : list action) (id1 id2 : NodeID) (P : Node → Node → bool) : bool :=
  match exec l with
  | None => false
  | Some sys =>
      forallb (λ e, no_view_zero_b e.2) (map_to_list sys) &&
      match sys !! id1, sys !! id2 with
      | Some n1, Some n2 => P n1 n2
      | _, _ => false
      end
  end.

Lemma final_check_sound l id1 id2 P :
  final_check l id1 id2 P = true →
  ∃ sys n1 n2, system correct seg1 config1 sys ∧ no_views_zero sys ∧
    sys !! id1 = Some n1 ∧ sys !! id2 = Some n2 ∧ P n1 n2 = true.
Proof.
  unfold final_check. destruct (exec l) as [sys|] eqn:E; [|done].
  intros [Hz HP]%andb_true_iff.
  destruct (sys !! id1) as [n1|] eqn:E1; [|done]. destruct (sys !! id2) as [n2|] eqn:E2; [|done].
  exists sys, n1, n2. split_and!; try done; [|by apply no_views_zero_b_sound].
  eapply acts_sound; [apply system_empty|exact E].
Qed.

Lemma one_fault : fault_bound mb4 ["2"].
Proof. split; [apply mb4_voting|]. vm_compute. discriminate. Defined.

Lemma correct_members id : is_Some (Nodes mb4 !! id) → id ∉ ["2"] → id ∈ correct.
Proof.
  intros [x Hx] H2. unfold mb4 in Hx. cbn [Nodes] in Hx.
  apply elem_of_list_to_map_2, list_elem_of_fmap in Hx as (id' & [= <- _] & Hid).
  unfold correct. set_solver.
Qed.

(** Commit messages from three nodes are a commit certificate. *)
Lemma three_commits n v data :
  forallb (received_b n (MsgCommit (mkCommit 0 v (digest data)))) ["0"; "1"; "2"] = true →
  committed_in seg1 n v 0 (Some data) false.
Proof.
  rewrite forallb_forall. intros Hr. exists (proposal 0 data). split_and!; [done..|].
  exists ["0"; "1"; "2"]. split_and!; [by apply (bool_decide_unpack _)|reflexivity|].
  intros id Hid%list_elem_of_In. exists (digest data). split; [|done]. by apply received_b_sound, Hr.
Qed.


(** C33 (error).  Agreement fails across a view change, with one faulty node of four: "0" delivers
    "a" in view 0; the primary of view 1 sends "b" to the others right before a NewView message
    that correctly re-proposes "a"; the Preprepare of "b", already in validation, is accepted
    first, and the others deliver "b". *)
Theorem agreement_fails_across_views :
  fault_bound mb4 ["2"] ∧ (∀ id, is_Some (Nodes mb4 !! id) → id ∉ ["2"] → id ∈ correct) ∧
  ∃ sys n0 n3, system correct seg1 config1 sys ∧ no_views_zero sys ∧
    sys !! "0" = Some n0 ∧ sys !! "3" = Some n3 ∧
    delivered (n_out n0) 0 (Some "a") false ∧ delivered (n_out n3) 0 (Some "b") false.
Proof.
  split_and!; [apply one_fault|apply correct_members|].
  destruct (final_check_sound race "0" "3" (λ n0 n3,
      delivered_b n0 0 (Some "a") false && delivered_b n3 0 (Some "b") false))
      as (sys & n0 & n3 & Hs & Hz & H0 & H3 & [Hd0%delivered_b_sound Hd3%delivered_b_sound]%andb_true_iff).
    { vm_compute. reflexivity. }
    by exists sys, n0, n3.
Qed.
