(* ===== verification/ClientProgress.v ===== *)
(** * pkg/clientprogress: which transactions of each client have been delivered

    A [DeliveredTXs] keeps a low watermark and the set of delivered transaction numbers above
    it; a [ClientProgress] one of them per client.  The protobuf form is a record of the
    watermark and the sorted list. *)
From Stdlib Require Import ZArith Lia.
From stdpp Require Import prelude gmap strings list sorting fin_maps fin_sets numbers.
From S2P Require Import Prelude Util.
Import Maputil.

Notation TxNo := N (only parsing).
Notation ClientID := string (only parsing).

Record DeliveredTXs := mkDeliveredTXs { lowWM : TxNo; dt_delivered : gmap TxNo unit }.
(** trantorpb.DeliveredTXs and trantorpb.ClientProgress *)
Record DeliveredTXsPb := mkDeliveredTXsPb { pb_LowWm : N; pb_Delivered : list N }.

Module DTX.
Definition EmptyDeliveredTXs : DeliveredTXs := mkDeliveredTXs 0 ∅.

Definition DeliveredTXsFromPb (pb : DeliveredTXsPb) : DeliveredTXs :=
  mkDeliveredTXs (pb_LowWm pb) (foldl (λ m txNo, <[txNo := tt]> m) ∅ (pb_Delivered pb)).

Definition Contains (dt : DeliveredTXs) (txNo : TxNo) : bool :=
  if bool_decide (txNo < lowWM dt)%N then true
  else match dt_delivered dt !! txNo with Some _ => true | None => false end.

Definition Add (dt : DeliveredTXs) (txNo : TxNo) : bool * DeliveredTXs :=
  if bool_decide (txNo < lowWM dt)%N then (false, dt)
  else
    let alreadyPresent := match dt_delivered dt !! txNo with Some _ => true | None => false end in
    (negb alreadyPresent, mkDeliveredTXs (lowWM dt) (<[txNo := tt]> (dt_delivered dt))).

(** The loop of [GarbageCollect]; every iteration deletes an entry, so the number of
    entries is enough fuel. *)
Fixpoint collect (fuel : nat) (dt : DeliveredTXs) : DeliveredTXs :=
  match fuel with
  | O => dt
  | S fuel =>
      match dt_delivered dt !! lowWM dt with
      | Some _ => collect fuel (mkDeliveredTXs (u64_succ (lowWM dt)) (delete (lowWM dt) (dt_delivered dt)))
      | None => dt
      end
  end.
Definition GarbageCollect (dt : DeliveredTXs) : TxNo * DeliveredTXs :=
  let dt := collect (size (dt_delivered dt)) dt in (lowWM dt, dt).

Definition Pb (dt : DeliveredTXs) : DeliveredTXsPb :=
  mkDeliveredTXsPb (lowWM dt) (GetSortedKeys (dt_delivered dt)).

(** ** Meaning: the set of delivered transactions *)
Definition means (dt : DeliveredTXs) (txNo : TxNo) : Prop :=
  (txNo < lowWM dt)%N ∨ is_Some (dt_delivered dt !! txNo).

(** Transaction numbers are below [2^64 - 1], so that the watermark never wraps around. *)
Record inv (dt : DeliveredTXs) : Prop := {
  inv_low : (lowWM dt < u64_max)%N;
  inv_above : ∀ txNo, is_Some (dt_delivered dt !! txNo) → (lowWM dt ≤ txNo < u64_max - 1)%N;
}.

Lemma Contains_means dt txNo : Contains dt txNo = true ↔ means dt txNo.
Proof.
  unfold Contains, means. case_bool_decide; [naive_solver|].
  destruct (dt_delivered dt !! txNo); naive_solver.
Qed.

Lemma Add_means dt txNo :
  (txNo < u64_max - 1)%N → inv dt →
  inv (Add dt txNo).2 ∧ (Add dt txNo).1 = negb (Contains dt txNo) ∧
  ∀ x, means (Add dt txNo).2 x ↔ x = txNo ∨ means dt x.
Proof.
  intros Hb [Hl Ha]. unfold Add, Contains, means. case_bool_decide; simpl.
  { split_and!; [by split|done|naive_solver]. }
  split_and!; [|done|].
  - split; [done|]. simpl. intros x [y Hx]. apply lookup_insert_Some in Hx as [[<- _]|[_ Hx]]; [lia|eauto].
  - intros x. rewrite lookup_insert_is_Some'. naive_solver.
Qed.

(** Each iteration keeps the meaning; with enough fuel the watermark is the least
    transaction number not delivered. *)
Lemma collect_means fuel dt :
  inv dt → inv (collect fuel dt) ∧ (∀ x, means (collect fuel dt) x ↔ means dt x) ∧
  (size (dt_delivered dt) ≤ fuel → dt_delivered (collect fuel dt) !! lowWM (collect fuel dt) = None).
Proof.
  revert dt. induction fuel as [|fuel IH]; intros dt Hi; cbn [collect].
  { split_and!; [done..|]. intros Hs. assert (dt_delivered dt = ∅) as ->; [|by rewrite lookup_empty].
    apply map_size_empty_inv. lia. }
  destruct (dt_delivered dt !! lowWM dt) as [[]|] eqn:E; [|by split_and!].
  destruct Hi as [Hl Ha]. pose proof (Ha (lowWM dt) ltac:(by eexists)) as Hlow.
  assert (u64_succ (lowWM dt) = lowWM dt + 1)%N as Hsucc
    by (unfold u64_succ; apply wrap_u64_small; unfold u64_max in *; lia).
  destruct (IH (mkDeliveredTXs (u64_succ (lowWM dt)) (delete (lowWM dt) (dt_delivered dt))))
    as (Hi' & Hm & Hs).
  { rewrite Hsucc. split; simpl; [lia|]. intros x [y [Hne Hx]%lookup_delete_Some].
    pose proof (Ha x ltac:(by eexists)). lia. }
  split_and!; [done| |].
  - intros x. rewrite Hm. unfold means. simpl. rewrite Hsucc.
    destruct (decide (x = lowWM dt)) as [->|Hne].
    + rewrite E, lookup_delete_eq. split; [intros _; right; by eexists|intros _; left; lia].
    + rewrite lookup_delete_ne by done. split; intros [?|?]; [left; lia|by right|left; lia|by right].
  - intros Hsz. apply Hs. simpl. rewrite map_size_delete_Some by by rewrite E. lia.
Qed.

Lemma roundtrip dt : DeliveredTXsFromPb (Pb dt) = dt.
Proof.
  destruct dt as [low m]. unfold DeliveredTXsFromPb, Pb. simpl. f_equal. apply map_eq. intros k.
  assert (∀ l (acc : gmap N unit), foldl (λ m txNo, <[txNo := tt]> m) acc l !! k =
    if decide (k ∈ l) then Some tt else acc !! k) as H.
  { induction l as [|x l IH]; intros acc; cbn [foldl].
    - by rewrite decide_False by apply not_elem_of_nil.
    - rewrite IH. destruct (decide (k ∈ l)); [by rewrite decide_True by set_solver|].
      destruct (decide (k = x)) as [->|].
      + rewrite lookup_insert_eq, decide_True by set_solver. done.
      + rewrite lookup_insert_ne, decide_False by set_solver. done. }
  rewrite H. destruct (decide (k ∈ GetSortedKeys m)) as [Hk|Hk]; rewrite elem_of_GetSortedKeys in Hk.
  - destruct Hk as [[] ->]. done.
  - rewrite lookup_empty. destruct (m !! k) eqn:E; [|done]. exfalso. apply Hk. by eexists.
Qed.
End DTX.

Notation ClientProgressMap := (gmap ClientID DeliveredTXs) (only parsing).

Module CP.
Definition NewClientProgress : ClientProgressMap := ∅.

Definition Contains (cp : ClientProgressMap) (clID : ClientID) (txNo : TxNo) : bool :=
  match cp !! clID with None => false | Some dt => DTX.Contains dt txNo end.

Definition Add (cp : ClientProgressMap) (clID : ClientID) (txNo : TxNo) : bool * ClientProgressMap :=
  let dt := default DTX.EmptyDeliveredTXs (cp !! clID) in
  let '(added, dt) := DTX.Add dt txNo in
  (added, <[clID := dt]> cp).

Definition GarbageCollect (cp : ClientProgressMap) : gmap ClientID TxNo * ClientProgressMap :=
  ((λ dt, (DTX.GarbageCollect dt).1) <$> cp, (λ dt, (DTX.GarbageCollect dt).2) <$> cp).

Definition Pb (cp : ClientProgressMap) : gmap string DeliveredTXsPb := DTX.Pb <$> cp.
Definition LoadPb (pb : gmap string DeliveredTXsPb) : ClientProgressMap :=
  DTX.DeliveredTXsFromPb <$> pb.

(** ** Specification: a set of (client, transaction number) pairs *)
Inductive op := OpAdd (clID : ClientID) (txNo : TxNo) | OpGarbageCollect.

(** The operations on the implementation and on the set, with what [Add] returns. *)
Definition exec (cp : ClientProgressMap) (o : op) : ClientProgressMap * list bool :=
  match o with
  | OpAdd clID txNo => let '(b, cp') := Add cp clID txNo in (cp', [b])
  | OpGarbageCollect => ((GarbageCollect cp).2, [])
  end.
Definition spec (s : gset (ClientID * TxNo)) (o : op) : gset (ClientID * TxNo) * list bool :=
  match o with
  | OpAdd clID txNo => ({[(clID, txNo)]} ∪ s, [bool_decide ((clID, txNo) ∉ s)])
  | OpGarbageCollect => (s, [])
  end.
Fixpoint run {S} (step : S → op → S * list bool) (s : S) (ops : list op) : S * list bool :=
  match ops with
  | [] => (s, [])
  | o :: ops => let '(s, bs) := step s o in let '(s, bs') := run step s ops in (s, bs ++ bs')
  end.

Record refines (cp : ClientProgressMap) (s : gset (ClientID * TxNo)) : Prop := {
  ref_inv : map_Forall (λ _ dt, DTX.inv dt) cp;
  ref_contains : ∀ clID txNo, Contains cp clID txNo = true ↔ (clID, txNo) ∈ s;
}.

Lemma empty_inv : DTX.inv DTX.EmptyDeliveredTXs.
Proof. split; simpl; [done|]. intros x [y Hx]. by simplify_map_eq. Qed.

Lemma Contains_default cp clID txNo :
  Contains cp clID txNo = true ↔ DTX.means (default DTX.EmptyDeliveredTXs (cp !! clID)) txNo.
Proof.
  unfold Contains. destruct (cp !! clID) as [dt|]; simpl; [apply DTX.Contains_means|].
  unfold DTX.means. simpl. rewrite lookup_empty. split; [done|]. intros [?|[? ?]]; [lia|done].
Qed.

Lemma refines_step cp s o :
  (∀ clID txNo, o = OpAdd clID txNo → (txNo < u64_max - 1)%N) → refines cp s →
  refines (exec cp o).1 (spec s o).1 ∧ (exec cp o).2 = (spec s o).2.
Proof.
  intros Hb [Hi Hc]. destruct o as [clID txNo|]; simpl.
  - set (dt := default DTX.EmptyDeliveredTXs (cp !! clID)).
    assert (DTX.inv dt) as Hdt.
    { unfold dt. destruct (cp !! clID) eqn:E; [by eapply Hi|apply empty_inv]. }
    destruct (DTX.Add_means dt txNo (Hb _ _ eq_refl) Hdt) as (Hi' & Hr & Hm).
    unfold Add. fold dt. destruct (DTX.Add dt txNo) as [b dt'] eqn:E. simpl in *.
    assert (∀ x, Contains (<[clID := dt']> cp) clID x = true ↔ x = txNo ∨ (clID, x) ∈ s) as Hcl.
    { intros x. rewrite Contains_default, lookup_insert_eq. simpl. rewrite Hm, <- Hc, Contains_default. done. }
    split; [split|].
    + by apply map_Forall_insert_2.
    + intros cl x. destruct (decide (cl = clID)) as [->|Hne]; [rewrite Hcl; set_solver|].
      unfold Contains. rewrite lookup_insert_ne by done. fold (Contains cp cl x). rewrite Hc. set_solver.
    + f_equal. rewrite Hr. apply eq_true_iff_eq. rewrite negb_true_iff, bool_decide_eq_true, <- Hc.
      rewrite Contains_default. fold dt. rewrite <- DTX.Contains_means. by destruct (DTX.Contains dt txNo).
  - assert (∀ dt, DTX.inv dt → DTX.inv (DTX.GarbageCollect dt).2 ∧
              ∀ x, DTX.means (DTX.GarbageCollect dt).2 x ↔ DTX.means dt x) as Hgc.
    { intros dt Hdt. destruct (DTX.collect_means (size (dt_delivered dt)) dt Hdt) as (? & ? & _). done. }
    split; [|done]. split.
    + intros cl dt. rewrite lookup_fmap. intros (dt0 & Hdt0 & ->)%fmap_Some. by apply Hgc, (Hi cl).
    + intros cl x. rewrite <- Hc, !Contains_default, lookup_fmap.
      destruct (cp !! cl) as [dt|] eqn:E; simpl; [|done]. by apply Hgc, (Hi cl).
Qed.

Lemma refines_run cp s ops :
  (∀ clID txNo, OpAdd clID txNo ∈ ops → (txNo < u64_max - 1)%N) → refines cp s →
  refines (run exec cp ops).1 (run spec s ops).1 ∧ (run exec cp ops).2 = (run spec s ops).2.
Proof.
  revert cp s. induction ops as [|o ops IH]; intros cp s Hb Hr; [done|].
  cbn [run]. destruct (refines_step cp s o) as [Hr' Hbs]; [set_solver|done|].
  destruct (exec cp o) as [cp' bs], (spec s o) as [s' bs']. simpl in *. subst bs'.
  destruct (IH cp' s') as [Hr'' Hbs']; [set_solver|done|].
  destruct (run exec cp' ops), (run spec s' ops). simpl in *. by subst.
Qed.
End CP.

Import CP.

(** ** Properties *)

(** C10 (refinement).  Client progress is a set: after any sequence of [Add] and
    [GarbageCollect] operations (on transaction numbers below 2^64-1) [Contains] tells exactly
    which transactions were added, and every [Add] returned whether the transaction was new,
    wherever the watermarks moved in between. *)
Theorem client_progress_is_a_set ops :
  (∀ clID txNo, OpAdd clID txNo ∈ ops → (txNo < u64_max - 1)%N) →
  let '(cp, results) := run exec NewClientProgress ops in
  let '(s, results') := run spec ∅ ops in
  results = results' ∧ ∀ clID txNo, CP.Contains cp clID txNo = true ↔ (clID, txNo) ∈ s.
Proof.
  intros Hb. destruct (refines_run NewClientProgress ∅ ops Hb) as [[_ Hc] Hr].
  { split; [apply map_Forall_empty|]. intros. unfold CP.Contains, NewClientProgress.
    rewrite lookup_empty. set_solver. }
  destruct (run exec _ ops), (run spec ∅ ops). done.
Qed.

Lemma client_progress_is_a_set_witness :
  let ops := [OpAdd "c" 0; OpAdd "c" 2; OpGarbageCollect; OpAdd "c" 0; OpAdd "d" 0; OpAdd "c" 1] in
  (run exec NewClientProgress ops).2 = [true; true; false; true; true] ∧
  (run exec NewClientProgress ops).2 = (run spec ∅ ops).2.
Proof.
  intros ops. split; [reflexivity|].
  assert (∀ clID txNo, OpAdd clID txNo ∈ ops → (txNo < u64_max - 1)%N) as Hb.
  { intros clID txNo Hin. unfold ops in Hin. rewrite !elem_of_cons, elem_of_nil in Hin.
    unfold u64_max. naive_solver lia. }
  pose proof (client_progress_is_a_set ops Hb) as H.
  destruct (run exec NewClientProgress ops), (run spec ∅ ops). apply H.
Defined.

(** Garbage collection leaves the watermark at the least transaction number
    not delivered, and nothing stored below it; and the state survives the round trip
    through its protobuf form. *)
Theorem garbage_collect_watermark cp :
  map_Forall (λ _ dt, DTX.inv dt) cp →
  LoadPb (Pb cp) = cp ∧
  ∀ clID dt, cp !! clID = Some dt →
    ∃ low dt', (GarbageCollect cp).1 !! clID = Some low ∧ (GarbageCollect cp).2 !! clID = Some dt' ∧
      lowWM dt' = low ∧ ¬ DTX.means dt low ∧ (∀ x, (x < low)%N → DTX.means dt x) ∧
      ∀ x, is_Some (dt_delivered dt' !! x) → (low < x)%N.
Proof.
  intros Hi. split.
  - unfold LoadPb, Pb. rewrite <- map_fmap_compose. rewrite <- (map_fmap_id cp) at 2.
    apply map_fmap_ext. intros. apply DTX.roundtrip.
  - intros clID dt Hdt. unfold GarbageCollect. simpl. rewrite !lookup_fmap, Hdt. simpl.
    do 2 eexists. split; [done|]. split; [done|]. split; [done|].
    destruct (DTX.collect_means (size (dt_delivered dt)) dt (Hi _ _ Hdt)) as (Hi' & Hm & Hs).
    specialize (Hs ltac:(done)). set (dt' := DTX.collect _ dt) in *. split_and!.
    + rewrite <- Hm. unfold DTX.means. rewrite Hs. intros [?|[? ?]]; [lia|done].
    + intros x Hx. rewrite <- Hm. by left.
    + intros x Hx. pose proof (DTX.inv_above _ Hi' x Hx). destruct (decide (x = lowWM dt')) as [->|]; [|lia].
      rewrite Hs in Hx. by destruct Hx.
Qed.

Lemma garbage_collect_watermark_witness :
  let cp : ClientProgressMap := {[ "c" := mkDeliveredTXs 3 {[ 3%N := tt; 4%N := tt; 7%N := tt ]} ]} in
  LoadPb (Pb cp) = cp ∧ (GarbageCollect cp).1 !! "c" = Some 5%N.
Proof.
  intros cp. split; [|reflexivity]. apply garbage_collect_watermark.
  intros cl dt [<- <-]%lookup_singleton_Some. split; [done|]. simpl.
  intros x [y Hx]. rewrite !lookup_insert_Some, lookup_singleton_Some in Hx. unfold u64_max. lia.
Defined.
