(* ===== verification/ModuleRuns.v ===== *)
(** * Runs of a module

    A module of a node is driven by inputs: events of other modules, timers and messages.
    [reach] is the set of its states after any sequence of inputs, together with the inputs
    received and the events emitted so far; an input is possible when [answers] holds of what
    was emitted before it (a hash result, say, answers a hash request). *)
From stdpp Require Import prelude list.
From S2P Require Import Prelude.

Lemma subseteq_snoc {A} (l : list A) x : l ⊆ l ++ [x].
Proof. intros y ?. apply elem_of_app. by left. Qed.

Section runs.
Context {S E I : Type}.
Context (apply : go_range → I → M S E unit) (answers : list E → I → Prop) (s0 : S).

Inductive reach : S → list I → list E → Prop :=
| reach_start : reach s0 [] []
| reach_apply s ins out rng i s' es :
    reach s ins out → answers out i → apply rng i s = Ok (tt, s', es) →
    reach s' (ins ++ [i]) (out ++ es).

(** Rule induction for invariants: the initial state satisfies it, and every input that is
    possible re-establishes it if the handler returns. *)
Lemma reach_invariant (P : S → list I → list E → Prop) :
  P s0 [] [] →
  (∀ s ins out rng i, P s ins out → answers out i →
     wp (apply rng i) (λ _ s' out', P s' (ins ++ [i]) out') s out) →
  ∀ s ins out, reach s ins out → P s ins out.
Proof.
  intros H0 Hs s ins out Hr. induction Hr as [|s ins out rng i s' es _ IH Ha Hi]; [done|].
  exact (wp_Ok _ _ _ _ _ _ _ (Hs _ _ _ rng _ IH Ha) Hi).
Qed.

End runs.

(** A run given as a list of inputs, each checked by a decision procedure for [answers]. *)
Section checked.
Context {S E I : Type} (apply : go_range → I → M S E unit) (answers : list E → I → Prop).
Context (answers_b : list E → I → bool) (Hb : ∀ out i, answers_b out i = true → answers out i).

Fixpoint checked (rng : go_range) (l : list I) (s : S) (out : list E) : option (S * list E) :=
  match l with
  | [] => Some (s, out)
  | i :: l =>
      if answers_b out i then
        match apply rng i s with
        | Ok (_, s', es) => checked rng l s' (out ++ es)
        | _ => None
        end
      else None
  end.

Lemma checked_reach s0 rng l s ins out s' out' :
  reach apply answers s0 s ins out → checked rng l s out = Some (s', out') →
  reach apply answers s0 s' (ins ++ l) out'.
Proof.
  revert s ins out. induction l as [|i l IH]; intros s ins out Hr; simpl.
  { intros [= <- <-]. by rewrite app_nil_r. }
  destruct (answers_b out i) eqn:Ha; [|done].
  destruct (apply rng i s) as [[[[] s1] es]| |] eqn:Hi; [|done..]. intros Hc.
  replace (ins ++ i :: l) with ((ins ++ [i]) ++ l) by by rewrite <- app_assoc.
  eapply IH; [|exact Hc]. by eapply reach_apply; [|apply Hb|].
Qed.
End checked.

(** ** Total weakest preconditions

    [twp m Q s out]: the command returns, neither with an error nor with a panic, and its result, the new
    state and the extended output satisfy [Q]. *)
Section twp.
Context {S E : Type}.

Definition twp {A} (m : M S E A) (Q : A → S → list E → Prop) (s : S) (out : list E) : Prop :=
  ∃ a s' es, m s = Ok (a, s', es) ∧ Q a s' (out ++ es).

Lemma twp_ret {A} (a : A) Q s out : Q a s out → twp (mret a) Q s out.
Proof. intros HQ. exists a, s, []. by rewrite app_nil_r. Qed.
Lemma twp_get Q s out : Q s s out → twp get Q s out.
Proof. intros HQ. exists s, s, []. by rewrite app_nil_r. Qed.
Lemma twp_modify f (Q : unit → S → list E → Prop) s out : Q tt (f s) out → twp (modify f) Q s out.
Proof. intros HQ. exists tt, (f s), []. by rewrite app_nil_r. Qed.
Lemma twp_emit e (Q : unit → S → list E → Prop) s out : Q tt s (out ++ [e]) → twp (emit e) Q s out.
Proof. intros HQ. by exists tt, s, [e]. Qed.
Lemma twp_lift {A} (o : outcome A) a Q s out : o = Ok a → Q a s out → twp (lift o) Q s out.
Proof. intros -> HQ. exists a, s, []. by rewrite app_nil_r. Qed.
Lemma twp_bind {A B} (m : M S E A) (k : A → M S E B) Q s out :
  twp m (λ a, twp (k a) Q) s out → twp (m ≫= k) Q s out.
Proof.
  intros (a & s1 & es1 & Hm & b & s2 & es2 & Hk & HQ). exists b, s2, (es1 ++ es2).
  unfold mbind, M_bind. rewrite Hm, Hk. by rewrite app_assoc.
Qed.
Lemma twp_mono {A} (m : M S E A) (Q Q' : A → S → list E → Prop) s out :
  twp m Q s out → (∀ a s' out', Q a s' out' → Q' a s' out') → twp m Q' s out.
Proof. intros (a & s' & es & ? & ?) HQ. exists a, s', es. auto. Qed.
Lemma twp_wp {A} (m : M S E A) Q s out : twp m Q s out → wp m Q s out.
Proof. intros (a & s' & es & Hm & ?). unfold wp. by rewrite Hm. Qed.
End twp.

Ltac twp_step :=
  match goal with
  | |- twp (_ ≫= _) _ _ _ => apply twp_bind
  | |- twp get _ _ _ => apply twp_get
  | |- twp (modify _) _ _ _ => apply twp_modify
  | |- twp (emit _) _ _ _ => apply twp_emit
  | |- twp skip _ _ _ => apply twp_ret
  | |- twp (mret _) _ _ _ => apply twp_ret
  end; cbv beta.
