(* ===== verification/Checkpoint.v ===== *)
(** * pkg/checkpoint: stable checkpoints, their verification, and the checkpoint validators

    Models pkg/checkpoint/checkpoint.go and serializing.go, pkg/checkpoint/chkpvalidator
    (conservative and permissive) and the checkpoint validator of
    pkg/orderers/common/pprepvalidator.  The CBOR and protobuf codecs and the signature
    verification are parameters. *)
From Stdlib Require Import ZArith Lia.
From stdpp Require Import prelude gmap strings list sorting fin_maps numbers.
From S2P Require Import Prelude Util Membership PbftTypes Orderer ClientProgress.
Import Maputil.

#[export] Instance NodeIdentity_eq_dec : EqDecision NodeIdentity.
Proof. solve_decision. Defined.
#[export] Instance Membership_eq_dec : EqDecision Membership.
Proof. solve_decision. Defined.

Notation EpochNr := N (only parsing).
Notation ClientProgressPb := (gmap ClientID DeliveredTXsPb) (only parsing).
(** A certificate maps the signing nodes to their signatures; [None] is the nil map. *)
Notation Certificate := (option (gmap NodeID bytes)) (only parsing).

(** trantorpb: pointers and slices that may be nil are options. *)
Record EpochConfig := mkEpochConfig {
  ec_EpochNr : EpochNr; ec_FirstSn : SeqNr; ec_Length : N;
  ec_Memberships : option (list Membership);
}.
Record EpochData := mkEpochData {
  ed_EpochConfig : option EpochConfig;
  ed_ClientProgress : option ClientProgressPb;
  ed_LeaderPolicy : bytes;
  ed_PreviousMembership : option Membership;
}.
Record StateSnapshot := mkStateSnapshot { ss_AppData : bytes; ss_EpochData : option EpochData }.
Record StableCheckpoint := mkStableCheckpoint {
  sc_Sn : SeqNr; sc_Snapshot : option StateSnapshot; sc_Cert : Certificate;
}.

#[export] Instance DeliveredTXsPb_eq_dec : EqDecision DeliveredTXsPb.
Proof. solve_decision. Defined.
#[export] Instance EpochConfig_eq_dec : EqDecision EpochConfig.
Proof. solve_decision. Defined.
#[export] Instance EpochData_eq_dec : EqDecision EpochData.
Proof. solve_decision. Defined.
#[export] Instance StateSnapshot_eq_dec : EqDecision StateSnapshot.
Proof. solve_decision. Defined.
#[export] Instance StableCheckpoint_eq_dec : EqDecision StableCheckpoint.
Proof. solve_decision. Defined.

(** [cbor.CoreDetEncOptions] encoding of a membership (membutil.Serialize); encoding and
    decoding of whole checkpoints. *)
Class ChkpCodec := {
  membutil_Serialize : Membership → outcome bytes;
  proto_Marshal : StableCheckpoint → outcome string;
  proto_Unmarshal : string → outcome StableCheckpoint;
  cbor_Marshal : StableCheckpoint → outcome bytes;
  cbor_Unmarshal : bytes → outcome StableCheckpoint;
}.

(** The interface checkpoint.Verifier: an error when the signature is not valid. *)
Class Verifier := { verifier_Verify : list bytes → bytes → NodeID → outcome unit }.

(** ** serializing.go *)
Module ChkpSerializing.
Import Serializing.

Definition serializeCheckpointForSig (epoch : EpochNr) (seqNr : SeqNr) (snapshotHash : bytes)
    : list bytes :=
  [Uint64ToBytes epoch; Uint64ToBytes seqNr; snapshotHash].

Definition serializeClientProgressForHash (clientProgress : ClientProgressPb) : list bytes :=
  IterateSorted clientProgress (λ (data : list bytes) clientID deliveredTXs,
    (data ++ [Some clientID; Uint64ToBytes (pb_LowWm deliveredTXs)]
          ++ (Uint64ToBytes <$> pb_Delivered deliveredTXs), true)) [].

Section codec.
Context {codec : ChkpCodec}.

Definition serializeMembershipsForHash (memberships : list Membership) : outcome (list bytes) :=
  outcome_map membutil_Serialize memberships.

Definition serializeEpochConfigForHash (epochConfig : EpochConfig) : outcome (list bytes) :=
  d ← serializeMembershipsForHash (default [] (ec_Memberships epochConfig));
  Ok ([Uint64ToBytes (ec_EpochNr epochConfig); Uint64ToBytes (ec_Length epochConfig);
       Uint64ToBytes (ec_FirstSn epochConfig)] ++ d).

Definition serializeEpochDataForHash (epochData : EpochData) : outcome (list bytes) :=
  epochConfig ← deref (ed_EpochConfig epochData);
  data ← serializeEpochConfigForHash epochConfig;
  let data := data ++ [ed_LeaderPolicy epochData] in
  clientProgress ← deref (ed_ClientProgress epochData);
  let data := data ++ serializeClientProgressForHash clientProgress in
  previous ← deref (ed_PreviousMembership epochData);
  if bool_decide (size (Nodes previous) ≠ 0) then
    prevMembData ← membutil_Serialize previous;
    Ok (data ++ [prevMembData])
  else Ok data.

Definition serializeSnapshotForHash (snapshot : StateSnapshot) : outcome (list bytes) :=
  epochData ← deref (ss_EpochData snapshot);
  data ← serializeEpochDataForHash epochData;
  Ok (data ++ [ss_AppData snapshot]).
End codec.
End ChkpSerializing.

(** ** checkpoint.go *)
Module Chkp.
Import Membutil ChkpSerializing.

(** Accessors; each dereferences the pointers on its path. *)
Definition SeqNr_of (sc : StableCheckpoint) : N := sc_Sn sc.
Definition epoch_data (sc : StableCheckpoint) : outcome EpochData :=
  snapshot ← deref (sc_Snapshot sc); deref (ss_EpochData snapshot).
Definition epoch_config (sc : StableCheckpoint) : outcome EpochConfig :=
  epochData ← epoch_data sc; deref (ed_EpochConfig epochData).
Definition Memberships (sc : StableCheckpoint) : outcome (option (list Membership)) :=
  c ← epoch_config sc; Ok (ec_Memberships c).
Definition PreviousMembership (sc : StableCheckpoint) : outcome (option Membership) :=
  d ← epoch_data sc; Ok (ed_PreviousMembership d).
Definition Epoch (sc : StableCheckpoint) : outcome EpochNr :=
  c ← epoch_config sc; Ok (ec_EpochNr c).
(** clientprogress.FromPb dereferences its argument, a nil pointer for nil. *)
Definition ClientProgress_of (sc : StableCheckpoint) : outcome (gmap ClientID DeliveredTXs) :=
  d ← epoch_data sc; progress ← deref (ed_ClientProgress d); Ok (CP.LoadPb progress).
Definition StateSnapshot_of (sc : StableCheckpoint) : option StateSnapshot := sc_Snapshot sc.
Definition Certificate_of (sc : StableCheckpoint) : Certificate := sc_Cert sc.

Definition StripCert (sc : StableCheckpoint) : StableCheckpoint :=
  mkStableCheckpoint (sc_Sn sc) (sc_Snapshot sc) None.
Definition AttachCert (sc : StableCheckpoint) (cert : Certificate) : StableCheckpoint :=
  mkStableCheckpoint (sc_Sn sc) (sc_Snapshot sc) cert.
Definition Genesis (initialStateSnapshot : StateSnapshot) : StableCheckpoint :=
  mkStableCheckpoint 0 (Some initialStateSnapshot) (Some ∅).

(** The validity of a list of memberships, in order. *)
Fixpoint all_valid (memberships : list Membership) : outcome unit :=
  match memberships with
  | [] => Ok tt
  | membership :: memberships => Valid membership;; all_valid memberships
  end.

Definition SyntacticCheck (sc : StableCheckpoint) (configOffset : Z) : outcome unit :=
  match StateSnapshot_of sc with
  | None => Err "snapshot is nil"
  | Some snapshot =>
    match ss_EpochData snapshot with
    | None => Err "epoch data is nil"
    | Some epochData =>
      match ed_EpochConfig epochData with
      | None => Err "epoch config is nil"
      | Some epochConfig =>
        match ec_Memberships epochConfig with
        | None => Err "memberships is nil"
        | Some memberships =>
          if bool_decide (Z.of_nat (length memberships) ≠ wrap_i64 (configOffset + 1)) then
            Err "invalid checkpoint: number of memberships does not match"
          else
            all_valid memberships;;
            match ed_PreviousMembership epochData with
            | None => Err "previous membership is nil"
            | Some previous =>
              (if bool_decide (0 < ec_EpochNr epochConfig)%N then Valid previous else Ok tt);;
              match Certificate_of sc, ss_AppData snapshot, ed_ClientProgress epochData,
                    ed_LeaderPolicy epochData with
              | None, _, _, _ => Err "certificate is nil"
              | _, None, _, _ => Err "app data is nil"
              | _, _, None, _ => Err "client progress is nil"
              | _, _, _, None => Err "leader policy is nil"
              | Some _, Some _, Some _, Some _ => Ok tt
              end
            end
        end
      end
    end
  end.

Definition hash `{!HashImpl} (data : list bytes) : bytes :=
  Some (hash_Sum (Serialization.concat_bytes data)).

Section verification.
Context {codec : ChkpCodec} {himpl : HashImpl} {sigs : Verifier} (rng : go_range).

(** The loop over the signatures of the certificate. *)
Fixpoint check_signatures (signedData : list bytes) (membership : Membership)
    (cert : list (NodeID * bytes)) : outcome unit :=
  match cert with
  | [] => Ok tt
  | (nodeID, sig) :: cert =>
      match Nodes membership !! nodeID with
      | None => Err "node not in membership"
      | Some _ =>
          verifier_Verify signedData sig nodeID;;
          check_signatures signedData membership cert
      end
  end.

Definition VerifyCert (sc : StableCheckpoint) (membership : Membership) : outcome unit :=
  let cert := default ∅ (sc_Cert sc) in
  enough ← HaveWeakQuorum membership (GetKeys cert);
  if negb enough then Err "not enough signatures in certificate to have weak quorum"
  else
    snapshot ← deref (StateSnapshot_of sc);
    snapshotData ← serializeSnapshotForHash snapshot;
    let snapshotHash := hash snapshotData in
    epoch ← Epoch sc;
    let signedData := serializeCheckpointForSig epoch (SeqNr_of sc) snapshotHash in
    check_signatures signedData membership (range_order rng 0 (map_to_list cert)).

(** One membership checked against the node identities seen so far. *)
Fixpoint consistent_nodes (seen : gmap NodeID NodeIdentity) (nodes : list (NodeID * NodeIdentity))
    : outcome (gmap NodeID NodeIdentity) :=
  match nodes with
  | [] => Ok seen
  | (nodeID, node) :: nodes =>
      match seen !! nodeID with
      | None => consistent_nodes (<[nodeID := node]> seen) nodes
      | Some node' =>
          if bool_decide (node' = node) then consistent_nodes seen nodes
          else Err "inconsistent membership parameters"
      end
  end.

Definition verifyMembershipConsistency (sc : StableCheckpoint) (membership : Membership)
    : outcome unit :=
  memberships ← Memberships sc;
  outcome_foldl (λ seen mb, consistent_nodes seen (map_to_list (Nodes mb))) ∅
    (default [] memberships);;
  epoch ← Epoch sc;
  previous ← PreviousMembership sc;
  if bool_decide (0 < epoch)%N && negb (bool_decide (previous = Some membership))
  then Err "inconsistent sc.PreviousMembership() with membership" else Ok tt.

Definition Verify (sc : StableCheckpoint) (configOffset : Z) (membership : Membership)
    : outcome unit :=
  SyntacticCheck sc configOffset;;
  epoch ← Epoch sc;
  (if bool_decide (0 < epoch)%N then VerifyCert sc membership
   else
     previous ← PreviousMembership sc;
     previous ← deref previous;
     if bool_decide (0 < size (Nodes previous))
     then Err "invalid checkpoint: certificate not empty for first epoch" else Ok tt);;
  verifyMembershipConsistency sc membership.
End verification.

Definition Serialize `{!ChkpCodec} (sc : StableCheckpoint) : outcome bytes :=
  pbData ← proto_Marshal sc;
  pbChkp ← proto_Unmarshal pbData;
  cbor_Marshal pbChkp.
Definition Deserialize `{!ChkpCodec} (data : bytes) : outcome StableCheckpoint :=
  cbor_Unmarshal data.
End Chkp.

(** ** chkpvalidator and the Preprepare validator for checkpoints *)
Module ChkpValidator.
Import Chkp.
Section validators.
Context {codec : ChkpCodec} {himpl : HashImpl} {sigs : Verifier} (rng : go_range).
Context (configOffset : Z) (ownID : NodeID).

(** [int(sc.Epoch()) - 1 - int(epochNr)] *)
Definition membership_offset (chkpEpoch epochNr : EpochNr) : Z :=
  wrap_i64 (int_of_u64 chkpEpoch - 1 - int_of_u64 epochNr).

(** The checks both validators start with: the epoch of the checkpoint is returned. *)
Definition own_membership (sc : StableCheckpoint) : outcome EpochNr :=
  SyntacticCheck sc configOffset;;
  memberships ← Memberships sc;
  first ← index (default [] memberships) 0;
  match Nodes first !! ownID with
  | None => Err "nodeID not in membership"
  | Some _ => Epoch sc
  end.

Definition ConservativeVerify (sc : StableCheckpoint) (epochNr : EpochNr)
    (memberships : list Membership) : outcome unit :=
  epoch ← own_membership sc;
  let offset := membership_offset epoch epochNr in
  if bool_decide (offset ≤ 0)%Z then Err "checkpoint not far ahead enough"
  else if bool_decide (configOffset < offset)%Z then Err "checkpoint too far ahead"
  else
    chkpMembership ← index memberships offset;
    Verify rng sc configOffset chkpMembership.

Definition PermissiveVerify (sc : StableCheckpoint) (epochNr : EpochNr)
    (memberships : list Membership) : outcome unit :=
  epoch ← own_membership sc;
  let offset := membership_offset epoch epochNr in
  chkpMembership ← (if bool_decide (configOffset < offset)%Z then
                      previous ← PreviousMembership sc; deref previous
                    else index memberships offset);
  Verify rng sc configOffset chkpMembership.

(** CheckpointPreprepareValidator.Check, for an orderer that agrees on a checkpoint. *)
Definition CheckpointCheck (membership : Membership) (preprepare : Preprepare) : outcome unit :=
  chkp ← Deserialize (pp_Data preprepare);
  Verify rng chkp configOffset membership.
End validators.
End ChkpValidator.

(** ** What a verified certificate says *)
Section soundness.
Context {codec : ChkpCodec} {himpl : HashImpl} {sigs : Verifier}.
Import Chkp ChkpSerializing ChkpValidator.

(** The data signed for a checkpoint. *)
Definition signed_data (sc : StableCheckpoint) : outcome (list bytes) :=
  snapshot ← deref (sc_Snapshot sc);
  data ← serializeSnapshotForHash snapshot;
  epoch ← Epoch sc;
  Ok (serializeCheckpointForSig epoch (sc_Sn sc) (hash data)).

Lemma check_signatures_spec data mb cert :
  check_signatures data mb cert = Ok tt ↔
  ∀ id sig, (id, sig) ∈ cert → is_Some (Nodes mb !! id) ∧ verifier_Verify data sig id = Ok tt.
Proof.
  induction cert as [|[id sig] cert IH]; simpl; [split; [set_solver|done]|].
  destruct (Nodes mb !! id) as [n|] eqn:Hn.
  2:{ split; [done|]. intros H. destruct (H id sig) as [[? ?] _]; [set_solver|]. congruence. }
  destruct (verifier_Verify data sig id) as [[]| |] eqn:Hs; simpl; rewrite ?IH; split; try done.
  - intros H id' sig' [[= -> ->]|?]%elem_of_cons; [by eauto|by apply H].
  - intros H id' sig' ?. apply H. set_solver.
  - intros H. destruct (H id sig) as [_ ?]; [set_solver|]. congruence.
  - intros H. destruct (H id sig) as [_ ?]; [set_solver|]. congruence.
Qed.

(** A certificate is verified exactly when its signers are a weak quorum and all their
    signatures on this very checkpoint are valid, in any iteration order. *)
Lemma VerifyCert_spec rng sc mb :
  VerifyCert rng sc mb = Ok tt ↔
  ∃ data, Membutil.HaveWeakQuorum mb (GetKeys (default ∅ (sc_Cert sc))) = Ok true ∧
    signed_data sc = Ok data ∧
    ∀ id sig, default ∅ (sc_Cert sc) !! id = Some sig → verifier_Verify data sig id = Ok tt.
Proof.
  unfold VerifyCert, signed_data, StateSnapshot_of, SeqNr_of.
  set (cert := default ∅ (sc_Cert sc)).
  assert (∀ data, check_signatures data mb (range_order rng 0 (map_to_list cert)) = Ok tt ↔
    ∀ id sig, cert !! id = Some sig → is_Some (Nodes mb !! id) ∧ verifier_Verify data sig id = Ok tt)
    as Hsig.
  { intros data. rewrite check_signatures_spec. apply forall_proper; intros id.
    apply forall_proper; intros sig. by rewrite range_order_perm, elem_of_map_to_list. }
  split.
  - intros H. outcome_inv. destruct r; [|done]. simpl in H. outcome_inv.
    eexists. split; [done|]. rewrite Hr1. simpl. rewrite Hr2. split; [done|].
    intros id sig Hid. by apply (proj1 (Hsig _) H).
  - intros (data & Hq & Hd & Hv). rewrite Hq. simpl. outcome_inv. cbn [mbind outcome_bind deref].
    rewrite Hr0. cbn [mbind outcome_bind]. rewrite Hr1. apply Hsig. intros id sig Hid. split; [|by apply Hv].
    apply (HaveWeakQuorum_members mb (GetKeys cert) true Hq). apply elem_of_GetKeys. by eexists.
Qed.

Lemma Verify_inv rng sc off mb epoch :
  Verify rng sc off mb = Ok tt → Epoch sc = Ok epoch → (0 < epoch)%N →
  SyntacticCheck sc off = Ok tt ∧ VerifyCert rng sc mb = Ok tt ∧
  PreviousMembership sc = Ok (Some mb).
Proof.
  unfold Verify, verifyMembershipConsistency. intros H He Hpos. rewrite He in H.
  outcome_inv. destruct r, r0. rewrite bool_decide_eq_true_2 in Hr0, H by done. simpl in H.
  case_bool_decide; simplify_eq/=. done.
Qed.

(** Someone outside the faulty nodes signed the checkpoint. *)
Lemma VerifyCert_honest rng sc mb faulty :
  fault_bound mb faulty → VerifyCert rng sc mb = Ok tt →
  ∃ data id sig, signed_data sc = Ok data ∧ id ∉ faulty ∧ is_Some (Nodes mb !! id) ∧
    default ∅ (sc_Cert sc) !! id = Some sig ∧ verifier_Verify data sig id = Ok tt.
Proof.
  intros [Hv Hf] (data & Hq & Hd & Hs)%VerifyCert_spec.
  destruct (HaveWeakQuorum_true mb Hv _ Hq) as [Hm Hw].
  destruct (heavier_than_faulty mb Hv faulty (GetKeys (default ∅ (sc_Cert sc)))) as (id & Hid & Hni);
    [done|apply GetKeys_NoDup|unfold weak_q in Hw; lia|].
  pose proof (proj1 (elem_of_GetKeys _ _) Hid) as [sig Hsig].
  exists data, id, sig. split_and!; eauto.
Qed.
End soundness.

(** Without overflow the offset of the membership is the difference of the epochs. *)
Lemma membership_offset_spec epoch epochNr :
  (epochNr < 2 ^ 62)%N → (epoch < u64_max)%N →
  let o := ChkpValidator.membership_offset epoch epochNr in
  (0 < o < 2 ^ 62)%Z → epoch = (epochNr + 1 + N.of_nat (Z.to_nat o))%N.
Proof.
  unfold u64_max, ChkpValidator.membership_offset. intros He Hu. cbv zeta.
  rewrite (int_of_u64_small epochNr) by lia. unfold int_of_u64, wrap_i64.
  destruct (decide (epoch < 2 ^ 63)%N).
  - rewrite (Z.mod_small (Z.of_N epoch + _)) by lia. rewrite Z.mod_small by lia. lia.
  - replace ((Z.of_N epoch + 2 ^ 63) `mod` 2 ^ 64)%Z with (Z.of_N epoch - 2 ^ 63)%Z.
    2:{ symmetry. rewrite <- (Z_mod_plus_full _ (-1)). rewrite Z.mod_small; lia. }
    destruct (decide (2 ^ 63 + 1 + Z.of_N epochNr ≤ Z.of_N epoch)%Z).
    + rewrite Z.mod_small by lia. lia.
    + rewrite <- (Z_mod_plus_full _ 1). rewrite Z.mod_small by lia. lia.
Qed.

(** What the conservative validator accepts was certified: the checkpoint is one
    to [configOffset] epochs ahead, its previous membership is the one this node knows for the
    epoch before the checkpoint, and however the faulty nodes of that membership behave, some
    other member signed exactly this sequence number, epoch and state. *)
Theorem conservative_validator_sound {codec : ChkpCodec} {himpl : HashImpl} {sigs : Verifier}
    rng configOffset ownID sc epochNr memberships :
  (epochNr < 2 ^ 62)%N → (configOffset < 2 ^ 62)%Z →
  ChkpValidator.ConservativeVerify rng configOffset ownID sc epochNr memberships = Ok tt →
  ∃ epoch mb offset,
    Chkp.Epoch sc = Ok epoch ∧ (epoch < u64_max → epoch = epochNr + 1 + N.of_nat offset)%N ∧
    (0 < Z.of_nat offset ≤ configOffset)%Z ∧ memberships !! offset = Some mb ∧
    Chkp.PreviousMembership sc = Ok (Some mb) ∧
    ∀ faulty, fault_bound mb faulty →
      ∃ data id sig, signed_data sc = Ok data ∧ id ∉ faulty ∧ is_Some (Nodes mb !! id) ∧
        default ∅ (sc_Cert sc) !! id = Some sig ∧ verifier_Verify data sig id = Ok tt.
Proof.
  intros He Ho H. unfold ChkpValidator.ConservativeVerify, ChkpValidator.own_membership in H.
  outcome_inv. rename r into epoch. destruct (Nodes r2 !! ownID); [|done].
  case_bool_decide as Hpos; [done|]. case_bool_decide as Hle; [done|]. outcome_inv.
  apply index_lookup in Hr3 as [_ Hmb].
  pose proof (membership_offset_spec epoch epochNr He) as Hoff.
  set (o := ChkpValidator.membership_offset epoch epochNr) in *.
  assert (0 < epoch)%N as Hep.
  { destruct (decide (epoch = 0)%N) as [->|]; [|lia]. assert (0 < u64_max)%N as Hu by done.
    specialize (Hoff Hu ltac:(lia)). lia. }
  destruct (Verify_inv _ _ _ _ _ H Hr Hep) as (_ & Hc & Hp).
  exists epoch, r, (Z.to_nat o). split_and!; try done; try lia.
  { intros Hu. apply Hoff; [done|lia]. }
  intros faulty Hf. by eapply VerifyCert_honest.
Qed.

(** A toy instance of the parameters: a signature is valid when it is the signer's name. *)
Module ToyChkp.
#[export] Instance toy_codec : ChkpCodec := {|
  membutil_Serialize _ := Ok (Some "membership");
  proto_Marshal _ := Ok ""; proto_Unmarshal _ := Err "not used";
  cbor_Marshal _ := Err "not used"; cbor_Unmarshal _ := Err "not used" |}.
#[export] Instance toy_hash : HashImpl := {| hash_Sum s := s |}.
#[export] Instance toy_verifier : Verifier := {|
  verifier_Verify _ sig id := if bool_decide (sig = Some id) then Ok tt else Err "invalid" |}.

Definition snapshot : StateSnapshot :=
  mkStateSnapshot (Some "app") (Some (mkEpochData
    (Some (mkEpochConfig 2 16 8 (Some [mb4; mb4]))) (Some ∅) (Some "simple") (Some mb4))).
Definition chkp (cert : gmap NodeID bytes) : StableCheckpoint :=
  mkStableCheckpoint 16 (Some snapshot) (Some cert).
End ToyChkp.
Import ToyChkp.

Lemma conservative_validator_sound_witness :
  let sc := ToyChkp.chkp {[ "0" := Some "0"; "1" := Some "1" ]} in
  ∃ epoch mb offset,
    Chkp.Epoch sc = Ok epoch ∧ (epoch < u64_max → epoch = 0 + 1 + N.of_nat offset)%N ∧
    (0 < Z.of_nat offset ≤ 1)%Z ∧ [mb4; mb4] !! offset = Some mb ∧
    Chkp.PreviousMembership sc = Ok (Some mb) ∧
    ∀ faulty, fault_bound mb faulty →
      ∃ data id sig, signed_data sc = Ok data ∧ id ∉ faulty ∧ is_Some (Nodes mb !! id) ∧
        default ∅ (sc_Cert sc) !! id = Some sig ∧ verifier_Verify data sig id = Ok tt.
Proof.
  apply (conservative_validator_sound range_id 1 "0"); [lia|lia|]. vm_compute. reflexivity.
Defined.

(** A signature of a node outside the membership crashes the validator: the
    quorum test on the signers dereferences the missing entry before the check that every
    signer is a member is reached.  Anybody can send such a checkpoint. *)
Theorem foreign_signature_panics {codec : ChkpCodec} {himpl : HashImpl} {sigs : Verifier}
    rng configOffset ownID sc epochNr memberships epoch mb cert :
  ChkpValidator.own_membership configOffset ownID sc = Ok epoch →
  (0 < ChkpValidator.membership_offset epoch epochNr ≤ configOffset)%Z →
  memberships !! Z.to_nat (ChkpValidator.membership_offset epoch epochNr) = Some mb →
  (0 < epoch)%N → voting mb → sc_Cert sc = Some cert →
  (∃ id, is_Some (cert !! id) ∧ Nodes mb !! id = None) →
  ChkpValidator.ConservativeVerify rng configOffset ownID sc epochNr memberships = Panic NilDeref.
Proof.
  intros Ho Hoff Hmb Hep Hv Hc (id & Hid & Hn). unfold ChkpValidator.ConservativeVerify.
  rewrite Ho. cbn [mbind outcome_bind].
  rewrite bool_decide_eq_false_2, bool_decide_eq_false_2 by lia.
  rewrite (proj2 (index_lookup _ _ mb)) by (split; [lia|done]). cbn [mbind outcome_bind].
  unfold ChkpValidator.own_membership in Ho. outcome_inv.
  destruct (Nodes r1 !! ownID); [|done]. unfold Chkp.Verify. rewrite Hr, Ho.
  cbn [mbind outcome_bind]. rewrite bool_decide_eq_true_2 by done. unfold Chkp.VerifyCert.
  rewrite Hc. simpl default.
  destruct (quorum_test_nonmember_panics mb (GetKeys cert) Hv) as [_ ->]; [|done].
  exists id. by rewrite elem_of_GetKeys.
Qed.

Lemma foreign_signature_panics_witness :
  ChkpValidator.ConservativeVerify range_id 1 "0"
    (ToyChkp.chkp {[ "mallory" := Some "x" ]}) 0 [mb4; mb4] = Panic NilDeref.
Proof.
  apply (foreign_signature_panics range_id 1 "0" _ 0 [mb4; mb4] 2 mb4 {[ "mallory" := Some "x" ]});
    try reflexivity; [vm_compute; split; congruence|apply mb4_voting|].
  exists "mallory". split; [by eexists|reflexivity].
Defined.

(** ** The bytes hashed for a snapshot *)
Lemma concat_bytes_cons b l :
  Serialization.concat_bytes (b :: l) = String.append (contents b) (Serialization.concat_bytes l).
Proof. done. Qed.

Lemma concat_bytes_app l1 l2 :
  Serialization.concat_bytes (l1 ++ l2) =
    String.append (Serialization.concat_bytes l1) (Serialization.concat_bytes l2).
Proof.
  induction l1 as [|b l1 IH]; [done|]. cbn [app Serialization.concat_bytes foldr].
  fold (Serialization.concat_bytes (l1 ++ l2)). by rewrite IH, <- append_assoc.
Qed.

Lemma serialize_one_client client dtx :
  ChkpSerializing.serializeClientProgressForHash {[ client := dtx ]} =
    [Some client; Serializing.Uint64ToBytes (pb_LowWm dtx)]
      ++ (Serializing.Uint64ToBytes <$> pb_Delivered dtx).
Proof.
  unfold ChkpSerializing.serializeClientProgressForHash, IterateSorted, GetSortedKeys, GetKeys.
  rewrite map_to_list_singleton. simpl. by rewrite lookup_singleton_eq.
Qed.

(** A checkpoint with a single client. *)
Definition one_client (sn : SeqNr) (config : EpochConfig) (prev : Membership) (app : bytes)
    (policy client : string) (dtx : DeliveredTXsPb) (cert : Certificate) : StableCheckpoint :=
  mkStableCheckpoint sn (Some (mkStateSnapshot app (Some (mkEpochData (Some config)
    (Some {[ client := dtx ]}) (Some policy) (Some prev))))) cert.

(** The hash of a checkpoint does not determine it: the leader policy and the
    client identifiers are hashed one after the other without their lengths.  A certificate
    verifies for a checkpoint if and only if it verifies for the one in which the first letter
    of the (only) client's name has moved to the end of the serialized leader policy. *)
Theorem checkpoint_certificate_ambiguous {codec : ChkpCodec} {himpl : HashImpl} {sigs : Verifier}
    rng mb sn config prev app policy c client dtx cert :
  let sc1 := one_client sn config prev app policy (String c client) dtx cert in
  let sc2 := one_client sn config prev app (String.append policy (String c "")) client dtx cert in
  sc1 ≠ sc2 ∧ Chkp.VerifyCert rng sc1 mb = Chkp.VerifyCert rng sc2 mb.
Proof.
  cbv zeta. split.
  { intros Heq. apply (f_equal (λ sc, String.length (contents
      (from_option ed_LeaderPolicy None (sc_Snapshot sc ≫= ss_EpochData))))) in Heq.
    unfold one_client in Heq. cbn in Heq. rewrite length_append in Heq. simpl in Heq. lia. }
  unfold Chkp.VerifyCert. cbn [one_client sc_Cert Chkp.StateSnapshot_of sc_Snapshot].
  destruct (Membutil.HaveWeakQuorum _ _) as [[]| |]; [|done..]. cbn [mbind outcome_bind negb deref].
  unfold ChkpSerializing.serializeSnapshotForHash, ChkpSerializing.serializeEpochDataForHash.
  cbn [ss_EpochData mbind outcome_bind deref ed_EpochConfig ed_LeaderPolicy ed_ClientProgress
       ed_PreviousMembership ss_AppData].
  destruct (ChkpSerializing.serializeEpochConfigForHash config) as [d| |]; [|done..].
  cbn [mbind outcome_bind]. rewrite !serialize_one_client.
  assert (∀ rest, Chkp.hash (((d ++ [Some policy]) ++ [Some (String c client); Serializing.Uint64ToBytes (pb_LowWm dtx)]
      ++ (Serializing.Uint64ToBytes <$> pb_Delivered dtx)) ++ rest) =
    Chkp.hash (((d ++ [Some (String.append policy (String c ""))]) ++ [Some client; Serializing.Uint64ToBytes (pb_LowWm dtx)]
      ++ (Serializing.Uint64ToBytes <$> pb_Delivered dtx)) ++ rest)) as Hh.
  { intros rest. unfold Chkp.hash. do 2 f_equal. rewrite !concat_bytes_app, !append_assoc. f_equal.
    rewrite !concat_bytes_cons. unfold contents, default, id. simpl from_option. rewrite !append_assoc. done. }
  case_bool_decide; [destruct (membutil_Serialize prev) as [pm| |]; [|done..]|];
    cbn [mbind outcome_bind]; [rewrite <- !(assoc_L (++) _ [pm] [app])|]; by rewrite Hh.
Qed.
