(* ===== verification/CheckpointProtocol.v ===== *)
(** * pkg/checkpoint/protocol.go: agreeing on a certificate for a state snapshot

    One instance collects, from the application and the batch fetcher, the snapshot of the state
    at the start of an epoch, signs its hash, and gathers the signatures of the other members on
    the same hash until a strong quorum makes the checkpoint stable. *)
From Stdlib Require Import ZArith Lia.
From stdpp Require Import prelude gmap strings list sorting fin_maps numbers.
From S2P Require Import Prelude Util Membership PbftTypes Orderer ClientProgress ModuleRuns Checkpoint.
Import Maputil Chkp ChkpSerializing.

(** checkpoint.ModuleParams *)
Record ChkpParams := mkChkpParams {
  cp_OwnID : NodeID;
  cp_Membership : Membership;
  cp_EpochConfig : EpochConfig;
  cp_LeaderPolicyData : bytes;
  cp_ResendPeriod : Z;
}.

(** The message of the protocol. *)
Record CheckpointMsg := mkCheckpointMsg {
  cm_Epoch : EpochNr; cm_Sn : SeqNr; cm_SnapshotHash : bytes; cm_Signature : bytes;
}.

Record ChkpState := mkChkpState {
  StateSnapshot_ : StateSnapshot;
  StateSnapshotHash : bytes;
  Signatures : gmap NodeID bytes;
  SigReceived : gset NodeID;
  PendingMessages : option (gmap NodeID CheckpointMsg);   (** [None]: the nil map *)
  Announced : bool;
}.

(** Events emitted: requests to the hasher and crypto modules, the announcement to the ordering
    protocol, the periodic message, and the progress notification. *)
Inductive chkp_event :=
| ChkpHashRequest (data : list bytes)
| ChkpSignRequest (data : list bytes)
| ChkpVerifySig (data : list bytes) (signature : bytes) (from : NodeID) (context : bytes)
| ChkpStable (sn : SeqNr) (snapshot : StateSnapshot) (cert : gmap NodeID bytes)
| ChkpEpochProgress (from : NodeID) (epoch : EpochNr)
| ChkpRepeat (period : Z) (retention : EpochNr) (msg : CheckpointMsg) (dests : list NodeID).

Module ChkpProtocol.
Notation CHKP := (M ChkpState chkp_event).

Definition set_snapshot s (st : ChkpState) : ChkpState :=
  mkChkpState s (StateSnapshotHash st) (Signatures st) (SigReceived st) (PendingMessages st) (Announced st).
Definition set_hash h (st : ChkpState) : ChkpState :=
  mkChkpState (StateSnapshot_ st) h (Signatures st) (SigReceived st) (PendingMessages st) (Announced st).
Definition set_signatures g (st : ChkpState) : ChkpState :=
  mkChkpState (StateSnapshot_ st) (StateSnapshotHash st) g (SigReceived st) (PendingMessages st) (Announced st).
Definition set_received r (st : ChkpState) : ChkpState :=
  mkChkpState (StateSnapshot_ st) (StateSnapshotHash st) (Signatures st) r (PendingMessages st) (Announced st).
Definition set_pending p (st : ChkpState) : ChkpState :=
  mkChkpState (StateSnapshot_ st) (StateSnapshotHash st) (Signatures st) (SigReceived st) p (Announced st).
Definition set_announced b (st : ChkpState) : ChkpState :=
  mkChkpState (StateSnapshot_ st) (StateSnapshotHash st) (Signatures st) (SigReceived st) (PendingMessages st) b.

Section protocol.
Context {codec : ChkpCodec} (params : ChkpParams).

Definition NewModule : ChkpState :=
  mkChkpState
    (mkStateSnapshot None (Some (mkEpochData (Some (cp_EpochConfig params)) None
       (cp_LeaderPolicyData params) (Some (cp_Membership params)))))
    None ∅ ∅ (Some ∅) false.

Definition SnapshotReady (st : ChkpState) : outcome bool :=
  match ss_AppData (StateSnapshot_ st) with
  | None => Ok false
  | Some _ =>
      epochData ← deref (ss_EpochData (StateSnapshot_ st));
      Ok (bool_decide (is_Some (ed_ClientProgress epochData)))
  end.

Definition Stable (st : ChkpState) : outcome bool :=
  ready ← SnapshotReady st;
  if ready : bool then Membutil.HaveStrongQuorum (cp_Membership params) (GetKeys (Signatures st))
  else Ok false.

Definition processStateSnapshot : CHKP unit :=
  st ← get;
  snapshotData ← lift (serializeSnapshotForHash (StateSnapshot_ st));
  emit (ChkpHashRequest snapshotData).

Definition announceStable : CHKP unit :=
  st ← get;
  if Announced st then skip
  else
    modify (set_announced true);;
    emit (ChkpStable (ec_FirstSn (cp_EpochConfig params)) (StateSnapshot_ st) (Signatures st)).

Definition sig_data (st : ChkpState) : list bytes :=
  serializeCheckpointForSig (ec_EpochNr (cp_EpochConfig params)) (ec_FirstSn (cp_EpochConfig params))
    (StateSnapshotHash st).

Definition applyCheckpointReceived (from : NodeID) (msg : CheckpointMsg) : CHKP unit :=
  if bool_decide (cm_Sn msg ≠ ec_FirstSn (cp_EpochConfig params)) then skip
  else if bool_decide (cm_Epoch msg ≠ ec_EpochNr (cp_EpochConfig params)) then skip
  else match Nodes (cp_Membership params) !! from with
  | None => skip
  | Some _ =>
      emit (ChkpEpochProgress from (cm_Epoch msg));;
      st ← get;
      stable ← lift (Stable st);
      if stable : bool then skip
      else match StateSnapshotHash st with
      | None =>
          match PendingMessages st with
          | None => lift (Panic (ExplicitPanic "assignment to entry in nil map"))
          | Some pending => modify (set_pending (Some (<[from := msg]> pending)))
          end
      | Some _ =>
          if negb (bytes_Equal (StateSnapshotHash st) (cm_SnapshotHash msg)) then skip
          else if bool_decide (from ∈ SigReceived st) then skip
          else
            modify (set_received ({[from]} ∪ SigReceived st));;
            emit (ChkpVerifySig (sig_data st) (cm_Signature msg) from (cm_Signature msg))
      end
  end.

(** *** Handlers *)
Definition UponSnapshot (appData : bytes) : CHKP unit :=
  let appData := match appData with None => Some EmptyString | Some _ => appData end in
  st ← get;
  match ss_AppData (StateSnapshot_ st) with
  | Some _ => skip
  | None =>
      modify (set_snapshot (mkStateSnapshot appData (ss_EpochData (StateSnapshot_ st))));;
      st ← get;
      ready ← lift (SnapshotReady st);
      when ready processStateSnapshot
  end.

Definition UponResultOne (digest : bytes) : CHKP unit :=
  modify (set_hash digest);;
  st ← get;
  emit (ChkpSignRequest (sig_data st)).

Definition announce_if_stable : CHKP unit :=
  st ← get;
  stable ← lift (Stable st);
  when stable announceStable.

Definition UponSignResult (rng : go_range) (sig : bytes) : CHKP unit :=
  modify (λ st, set_signatures (<[cp_OwnID params := sig]> (Signatures st)) st);;
  modify (λ st, set_received ({[cp_OwnID params]} ∪ SigReceived st) st);;
  announce_if_stable;;
  st ← get;
  emit (ChkpRepeat (cp_ResendPeriod params) (ec_EpochNr (cp_EpochConfig params))
          (mkCheckpointMsg (ec_EpochNr (cp_EpochConfig params)) (ec_FirstSn (cp_EpochConfig params))
             (StateSnapshotHash st) sig)
          (GetSortedKeys (Nodes (cp_Membership params))));;
  st ← get;
  mfor (range_order rng 0 (map_to_list (default ∅ (PendingMessages st))))
    (λ '(s, msg), applyCheckpointReceived s msg);;
  modify (set_pending None).

Definition UponSigVerified (nodeId : NodeID) (err : bool) (signature : bytes) : CHKP unit :=
  if err then skip
  else
    modify (λ st, set_signatures (<[nodeId := signature]> (Signatures st)) st);;
    announce_if_stable.

Definition UponClientProgress (progress : gmap ClientID DeliveredTXsPb) : CHKP unit :=
  st ← get;
  epochData ← lift (deref (ss_EpochData (StateSnapshot_ st)));
  match ed_ClientProgress epochData with
  | Some _ => skip
  | None =>
      modify (set_snapshot (mkStateSnapshot (ss_AppData (StateSnapshot_ st))
        (Some (mkEpochData (ed_EpochConfig epochData) (Some progress) (ed_LeaderPolicy epochData)
                 (ed_PreviousMembership epochData)))));;
      st ← get;
      ready ← lift (SnapshotReady st);
      when ready processStateSnapshot
  end.
End protocol.
End ChkpProtocol.

(** ** Inputs of an instance *)
Inductive chkp_input :=
| ChkpInSnapshot (appData : bytes)
| ChkpInClientProgress (progress : gmap ClientID DeliveredTXsPb)
| ChkpInHash (digest : bytes)
| ChkpInSignature (sig : bytes)
| ChkpInSigVerified (nodeId : NodeID) (err : bool) (signature : bytes)
| ChkpInMessage (from : NodeID) (msg : CheckpointMsg).

Section runs.
Context {codec : ChkpCodec} {himpl : HashImpl} {sigs : Verifier} (params : ChkpParams).
Import ChkpProtocol.

Definition chkp_apply (rng : go_range) (i : chkp_input) : CHKP unit :=
  match i with
  | ChkpInSnapshot appData => UponSnapshot appData
  | ChkpInClientProgress progress => UponClientProgress progress
  | ChkpInHash digest => UponResultOne params digest
  | ChkpInSignature sig => UponSignResult params rng sig
  | ChkpInSigVerified nodeId err signature => UponSigVerified params nodeId err signature
  | ChkpInMessage from msg => applyCheckpointReceived params from msg
  end.

(** The hasher and crypto modules answer requests: digests are hashes of the requested data,
    this node's signatures are valid, and a signature reported as verified is valid. *)
Definition chkp_answers (out : list chkp_event) (i : chkp_input) : Prop :=
  match i with
  | ChkpInHash digest => ∃ data, ChkpHashRequest data ∈ out ∧ digest = hash data
  | ChkpInSignature sig => ∃ data, ChkpSignRequest data ∈ out ∧
      verifier_Verify data sig (cp_OwnID params) = Ok tt
  | ChkpInSigVerified nodeId err ctx => ∃ data sig, ChkpVerifySig data sig nodeId ctx ∈ out ∧
      (err = false → verifier_Verify data sig nodeId = Ok tt)
  | _ => True
  end.

(** ** Invariant *)

(** The snapshot is complete and its hash known. *)
Definition hash_ok (st : ChkpState) : Prop :=
  SnapshotReady st = Ok true ∧
  ∃ data, serializeSnapshotForHash (StateSnapshot_ st) = Ok data ∧ StateSnapshotHash st = hash data.

Definition signed_by (st : ChkpState) (cert : gmap NodeID bytes) : Prop :=
  map_Forall (λ id sig, verifier_Verify (sig_data params st) sig id = Ok tt) cert.

Definition event_ok (st : ChkpState) (e : chkp_event) : Prop :=
  match e with
  | ChkpHashRequest data => SnapshotReady st = Ok true ∧ serializeSnapshotForHash (StateSnapshot_ st) = Ok data
  | ChkpSignRequest data => hash_ok st ∧ data = sig_data params st
  | ChkpVerifySig data sig from ctx => hash_ok st ∧ data = sig_data params st ∧ ctx = sig
  | ChkpStable sn snapshot cert =>
      sn = ec_FirstSn (cp_EpochConfig params) ∧ snapshot = StateSnapshot_ st ∧ hash_ok st ∧
      signed_by st cert ∧ strong_quorum (cp_Membership params) (GetKeys cert)
  | _ => True
  end.

Definition announcement (e : chkp_event) : option (gmap NodeID bytes) :=
  match e with ChkpStable _ _ cert => Some cert | _ => None end.
Definition announcements (out : list chkp_event) : list (gmap NodeID bytes) := omap announcement out.

Record ChkpInv (st : ChkpState) (out : list chkp_event) : Prop := {
  ci_epoch : ∃ progress, ss_EpochData (StateSnapshot_ st) = Some (mkEpochData
    (Some (cp_EpochConfig params)) progress (cp_LeaderPolicyData params) (Some (cp_Membership params)));
  ci_hash : is_Some (StateSnapshotHash st) → hash_ok st;
  ci_sigs : Signatures st = ∅ ∨ hash_ok st ∧ signed_by st (Signatures st);
  ci_out : ∀ e, e ∈ out → event_ok st e;
  ci_once : length (announcements out) = if Announced st then 1 else 0;
}.

Lemma announcements_app out es : announcements (out ++ es) = announcements out ++ announcements es.
Proof. apply omap_app. Qed.

(** Emitting an event that is not an announcement. *)
Lemma ChkpInv_emit st out e :
  ChkpInv st out → event_ok st e → announcement e = None → ChkpInv st (out ++ [e]).
Proof.
  intros [He Hh Hs Ho H1] Hok Hn. split; try done.
  - intros e' [?|[->|?%not_elem_of_nil]%elem_of_cons]%elem_of_app; [by apply Ho|done|done].
  - rewrite announcements_app. unfold announcements at 2. simpl. by rewrite Hn, app_nil_r.
Qed.

(** A step that leaves the snapshot and its hash alone. *)
Lemma event_ok_same st st' e :
  StateSnapshot_ st' = StateSnapshot_ st → StateSnapshotHash st' = StateSnapshotHash st →
  event_ok st e → event_ok st' e.
Proof.
  intros Hs Hh. destruct e; simpl; unfold hash_ok, signed_by, SnapshotReady, sig_data;
    rewrite ?Hs, ?Hh; done.
Qed.

Lemma ChkpInv_state st st' out :
  ChkpInv st out →
  StateSnapshot_ st' = StateSnapshot_ st → StateSnapshotHash st' = StateSnapshotHash st →
  Signatures st' = Signatures st → Announced st' = Announced st → ChkpInv st' out.
Proof.
  intros [He Hh Hs Ho H1] E1 E2 E3 E4. split.
  - by rewrite E1.
  - rewrite E2. unfold hash_ok, SnapshotReady. rewrite E1, E2. done.
  - rewrite E3. unfold hash_ok, SnapshotReady, signed_by, sig_data. rewrite E1, E2. done.
  - intros e He'. eapply event_ok_same; [..|by apply Ho]; done.
  - by rewrite E4.
Qed.

(** While the snapshot is incomplete nothing has been hashed, so it can be changed. *)
Lemma ChkpInv_snapshot st out snapshot :
  ChkpInv st out → SnapshotReady st ≠ Ok true →
  (∃ progress, ss_EpochData snapshot = Some (mkEpochData
    (Some (cp_EpochConfig params)) progress (cp_LeaderPolicyData params) (Some (cp_Membership params)))) →
  ChkpInv (set_snapshot snapshot st) out.
Proof.
  intros [He Hh Hs Ho H1] Hr Hsn. split; simpl; try done.
  - intros [? _]%Hh. done.
  - destruct Hs as [|[[? _] _]]; [by left|done].
  - intros e He'. specialize (Ho e He'). destruct e; simpl in *; try done; unfold hash_ok in Ho; tauto.
Qed.

Lemma keeps_processStateSnapshot st out :
  ChkpInv st out → SnapshotReady st = Ok true →
  wp processStateSnapshot (λ _, ChkpInv) st out.
Proof.
  intros Hi Hr. unfold processStateSnapshot. repeat wp_step. by apply ChkpInv_emit.
Qed.

(** Setting the hash, which is the same if it was set before. *)
Lemma ChkpInv_hash st out data :
  ChkpInv st out → SnapshotReady st = Ok true →
  serializeSnapshotForHash (StateSnapshot_ st) = Ok data →
  ChkpInv (set_hash (hash data) st) out.
Proof.
  intros Hi Hr Hs.
  assert (hash_ok (set_hash (hash data) st)) as Hok by (split; [done|by eauto]).
  assert (hash_ok st → sig_data params (set_hash (hash data) st) = sig_data params st) as Hsame.
  { intros (_ & data' & Hs' & Hh'). unfold sig_data. simpl. congruence. }
  split; simpl; try apply Hi; try done.
  - destruct (ci_sigs _ _ Hi) as [?|[? Hsig]]; [by left|right]. split; [done|].
    unfold signed_by in *. by rewrite Hsame.
  - intros e He. pose proof (ci_out _ _ Hi e He) as Hoe.
    destruct e; simpl in *; try done; unfold signed_by in *;
      destruct_and?; rewrite Hsame by done; done.
Qed.

Lemma signatures_ok st out : ChkpInv st out → signed_by st (Signatures st).
Proof. intros Hi. destruct (ci_sigs _ _ Hi) as [->|[_ ?]]; [apply map_Forall_empty|done]. Qed.

Lemma announce_ok st out :
  ChkpInv st out → hash_ok st →
  wp (announce_if_stable params) (λ _ st' out', ChkpInv st' out' ∧ hash_ok st') st out.
Proof.
  intros Hi Hok. unfold announce_if_stable. repeat wp_step; [|done]. subst.
  unfold announceStable. repeat wp_step; [done|]. unfold Stable in Hlift. outcome_inv.
  destruct r; [|done]. split; [|done]. split; simpl; try apply Hi.
  - intros e [?|[->|?%not_elem_of_nil]%elem_of_cons]%elem_of_app; [..|done].
    + eapply event_ok_same; [..|by apply Hi]; done.
    + simpl. split_and!; try done. exact (signatures_ok _ _ Hi).
  - rewrite announcements_app, length_app, (ci_once _ _ Hi), Heqb. done.
Qed.

(** Adding a valid signature. *)
Lemma ChkpInv_sig st out id sig :
  ChkpInv st out → hash_ok st → verifier_Verify (sig_data params st) sig id = Ok tt →
  ChkpInv (set_signatures (<[id := sig]> (Signatures st)) st) out.
Proof.
  intros Hi Hok Hv. split; simpl; try apply Hi.
  right. split; [done|]. apply map_Forall_insert_2; [done|]. exact (signatures_ok _ _ Hi).
Qed.

Lemma keeps_received from msg : keeps ChkpInv (applyCheckpointReceived params from msg).
Proof.
  intros st out Hi. unfold applyCheckpointReceived. repeat wp_step; try done.
  all: pose proof (ChkpInv_emit _ _ (ChkpEpochProgress from (cm_Epoch msg)) Hi I eq_refl) as Hi'; try exact Hi'.
  - apply ChkpInv_emit; [|simpl|done].
    + by eapply ChkpInv_state.
    + split; [|done]. apply (ci_hash _ _ Hi). by eexists.
  - by eapply ChkpInv_state.
Qed.

Lemma keeps_mfor_received l :
  keeps ChkpInv (mfor l (λ '(s, msg), applyCheckpointReceived params s msg)).
Proof. apply keeps_for. intros [s msg] _. apply keeps_received. Qed.

Lemma chkp_apply_inv rng i st out :
  ChkpInv st out → chkp_answers out i → wp (chkp_apply rng i) (λ _, ChkpInv) st out.
Proof.
  intros Hi Ha. destruct i as [appData|progress|digest|sig|nodeId err sig|from msg]; simpl in Ha |- *.
  - unfold UponSnapshot. repeat wp_step; try done.
    + apply keeps_processStateSnapshot; [|by simplify_eq].
      apply ChkpInv_snapshot; [done|unfold SnapshotReady; by rewrite Heqo|apply Hi].
    + apply ChkpInv_snapshot; [done|unfold SnapshotReady; by rewrite Heqo|apply Hi].
  - unfold UponClientProgress. repeat wp_step; try done.
    all: outcome_inv.
    all: assert (SnapshotReady st ≠ Ok true) as Hnr.
    1,3: unfold SnapshotReady; rewrite Heqo0; destruct (ss_AppData _); simpl; [rewrite Heqo|done];
      case_bool_decide as Hnone; [by destruct Hnone|done].
    all: destruct (ci_epoch _ _ Hi) as [pr Hpr]; rewrite Hpr in Heqo0; simplify_eq/=.
    + apply keeps_processStateSnapshot; [|done]. apply ChkpInv_snapshot; eauto.
    + apply ChkpInv_snapshot; eauto.
  - destruct Ha as (data & Hd & ->). destruct (ci_out _ _ Hi _ Hd) as [Hr Hs].
    unfold UponResultOne. repeat wp_step. apply ChkpInv_emit; [|simpl|done].
    + by eapply ChkpInv_hash.
    + split; [|done]. split; [done|]. eauto.
  - destruct Ha as (data & Hd & Hv). destruct (ci_out _ _ Hi _ Hd) as [Hok ->].
    unfold UponSignResult. do 5 wp_step. eapply wp_mono.
    { apply announce_ok; [|done]. eapply ChkpInv_state; [by apply ChkpInv_sig|done..]. }
    intros [] st' out' [Hi' _]. do 7 wp_step. eapply wp_mono.
    { apply keeps_mfor_received. by apply ChkpInv_emit. }
    intros [] st2 out2 Hi2. wp_step. by eapply ChkpInv_state.
  - destruct Ha as (data & sig' & Hd & Hv). destruct (ci_out _ _ Hi _ Hd) as (Hok & -> & ->).
    unfold UponSigVerified. repeat wp_step; [done|]. eapply wp_mono.
    { apply announce_ok; [|done]. by apply ChkpInv_sig; [..|apply Hv]. }
    naive_solver.
  - by apply keeps_received.
Qed.

Lemma chkp_reach_inv st ins out :
  reach chkp_apply chkp_answers (NewModule params) st ins out → ChkpInv st out.
Proof.
  apply (reach_invariant chkp_apply chkp_answers (NewModule params) (λ st _ out, ChkpInv st out)).
  - split; simpl; try done; [by eexists|by left|set_solver].
  - intros s _ o rng i. apply chkp_apply_inv.
Qed.
End runs.

(** C15 (safety).  A checkpoint announced as stable verifies everywhere: an instance announces at
    most one checkpoint, for the first sequence number of its epoch, and whatever messages it
    received, the certificate is signed by a strong quorum of its members and passes
    [VerifyCert] with its membership at every node. *)
Theorem announced_checkpoint_verifies {codec : ChkpCodec} {himpl : HashImpl} {sigs : Verifier}
    params rng st ins out :
  voting (cp_Membership params) →
  reach (chkp_apply params) (chkp_answers params) (ChkpProtocol.NewModule params) st ins out →
  length (announcements out) ≤ 1 ∧
  ∀ sn snapshot cert, ChkpStable sn snapshot cert ∈ out →
    sn = ec_FirstSn (cp_EpochConfig params) ∧
    strong_quorum (cp_Membership params) (GetKeys cert) ∧
    VerifyCert rng (mkStableCheckpoint sn (Some snapshot) (Some cert)) (cp_Membership params) = Ok tt.
Proof.
  intros Hv Hi%chkp_reach_inv. split; [rewrite (ci_once _ _ _ Hi); destruct (Announced st); lia|].
  intros sn snapshot cert Hin. destruct (ci_out _ _ _ Hi _ Hin) as (-> & -> & Hok & Hs & Hq).
  split_and!; [done..|]. destruct Hok as (Hr & data & Hd & Hh).
  destruct (ci_epoch _ _ _ Hi) as [progress Hp]. apply VerifyCert_spec.
  exists (ChkpProtocol.sig_data params st). split_and!.
  - simpl. by apply strong_quorum_weak.
  - unfold signed_data, Epoch, epoch_config, epoch_data. simpl. rewrite Hd. simpl. rewrite Hp. simpl.
    unfold ChkpProtocol.sig_data. by rewrite Hh.
  - intros id sig. apply Hs.
Qed.

(** Executable runs. *)
Definition chkp_answers_b {himpl : HashImpl} {sigs : Verifier} (params : ChkpParams)
    (out : list chkp_event) (i : chkp_input) : bool :=
  match i with
  | ChkpInHash digest =>
      existsb (λ e, match e with ChkpHashRequest data => bool_decide (digest = hash data) | _ => false end) out
  | ChkpInSignature sig =>
      existsb (λ e, match e with
                    | ChkpSignRequest data => is_Ok (verifier_Verify data sig (cp_OwnID params))
                    | _ => false end) out
  | ChkpInSigVerified nodeId err ctx =>
      existsb (λ e, match e with
                    | ChkpVerifySig data sig from ctx' =>
                        bool_decide (from = nodeId) && bool_decide (ctx' = ctx) &&
                        (err || is_Ok (verifier_Verify data sig nodeId))
                    | _ => false end) out
  | _ => true
  end.

Lemma is_Ok_unit (o : outcome unit) : is_Ok o = true → o = Ok tt.
Proof. by destruct o as [[]| |]. Qed.

Lemma chkp_answers_b_sound {himpl : HashImpl} {sigs : Verifier} params out i :
  chkp_answers_b params out i = true → chkp_answers params out i.
Proof.
  destruct i; simpl; try done; intros (e & He%list_elem_of_In & Ht)%existsb_exists;
    destruct e; try done; rewrite ?andb_true_iff in Ht; destruct_and?;
    repeat match goal with H : bool_decide _ = true |- _ => apply bool_decide_eq_true in H end; subst.
  - eauto.
  - eauto using is_Ok_unit.
  - do 2 eexists. split; [done|]. intros ->. by apply is_Ok_unit.
Qed.

Module ChkpRun.
Import ToyChkp.
Definition params : ChkpParams :=
  mkChkpParams "0" mb4 (mkEpochConfig 2 16 8 (Some [mb4; mb4])) (Some "simple") 1000.
Definition snapshot_ready : StateSnapshot :=
  mkStateSnapshot (Some "app") (Some (mkEpochData (Some (cp_EpochConfig params)) (Some ∅)
    (Some "simple") (Some mb4))).
Definition digest : bytes :=
  hash (match serializeSnapshotForHash snapshot_ready with Ok data => data | _ => [] end).
Definition msg (id : NodeID) : CheckpointMsg := mkCheckpointMsg 2 16 digest (Some id).
Definition inputs : list chkp_input :=
  [ChkpInMessage "1" (msg "1"); ChkpInSnapshot (Some "app"); ChkpInClientProgress ∅;
   ChkpInHash digest; ChkpInSignature (Some "0"); ChkpInMessage "2" (msg "2");
   ChkpInSigVerified "1" false (Some "1"); ChkpInSigVerified "2" false (Some "2")].
Definition final : option (ChkpState * list chkp_event) :=
  checked (chkp_apply params) (chkp_answers_b params) range_id inputs
    (ChkpProtocol.NewModule params) [].
End ChkpRun.

Lemma announced_checkpoint_verifies_witness :
  ∃ st out cert,
    ChkpRun.final = Some (st, out) ∧ ChkpStable 16 ChkpRun.snapshot_ready cert ∈ out ∧
    VerifyCert range_id (mkStableCheckpoint 16 (Some ChkpRun.snapshot_ready) (Some cert)) mb4
      (codec := ToyChkp.toy_codec) (himpl := ToyChkp.toy_hash) (sigs := ToyChkp.toy_verifier) = Ok tt.
Proof.
  destruct ChkpRun.final as [[st out]|] eqn:Hf; [|by vm_compute in Hf].
  exists st, out, {[ "0" := Some "0"; "1" := Some "1"; "2" := Some "2" ]}.
  assert (ChkpStable 16 ChkpRun.snapshot_ready {[ "0" := Some "0"; "1" := Some "1"; "2" := Some "2" ]} ∈ out)
    as Hin.
  { vm_compute in Hf. injection Hf as _ <-. repeat (apply elem_of_cons; first [left; reflexivity|right]). }
  split_and!; [done|done|].
  eapply (announced_checkpoint_verifies ChkpRun.params); [apply mb4_voting| |exact Hin].
  apply (checked_reach _ _ _ (chkp_answers_b_sound _) _ range_id ChkpRun.inputs _ [] [] _ _
           (reach_start _ _ _) Hf).
Defined.
