(* ===== verification/Iss.v ===== *)
(** * pkg/iss: the ISS protocol module

    Models pkg/iss/iss.go, epochinfo.go, commitlog.go and moduleconfig.go: one definition per
    function, and one per handler that [New] registers ([Upon...]).  The state [IssState] is the
    mutable part of the struct ISS; the epoch that [iss.epoch] and [iss.epochs] share is
    written through [set_epoch].  An epoch's leader policy is the object [iss.LeaderPolicy]
    points to when the epoch starts, and only read then, so the field is not repeated in
    [epochInfo].  Logging is left out except where evaluating its arguments can panic. *)
From Stdlib Require Import ZArith Lia Ascii.
From stdpp Require Import prelude gmap strings list sorting fin_maps numbers.
From S2P Require Import Prelude Util Membership PbftTypes LeaderSelection IssConfig Orderer.
From S2P Require Import ClientProgress ModuleRuns Checkpoint CheckpointProtocol.
Import Maputil.

(** ** Module identifiers (stdtypes/moduleid.go) *)
Module ModuleID.
Definition Separator : Ascii.ascii := "/"%char.

(** [strings.Cut(mid, Separator)]: what precedes and what follows the first separator. *)
Fixpoint Cut (s : string) : string * string :=
  match s with
  | EmptyString => (EmptyString, EmptyString)
  | String c s =>
      if bool_decide (c = Separator) then (EmptyString, s)
      else let '(before, after) := Cut s in (String c before, after)
  end.
Definition Top (mid : string) : string := (Cut mid).1.
Definition Sub (mid : string) : string := (Cut mid).2.
Notation Then := Orderers.ModuleID_Then.
End ModuleID.
Import ModuleID.

(** [fmt.Sprintf("%v", n)] of an unsigned number. *)
Definition show (n : N) : string := VoteWeight.big_String (Z.of_N n).

Record IssModuleConfig := mkIssModuleConfig {
  mc_Self : string; mc_App : string; mc_Availability : string; mc_BatchDB : string;
  mc_Checkpoint : string; mc_ChkpValidator : string; mc_Net : string; mc_Ordering : string;
  mc_PPrepValidator : string; mc_PPrepValidatorChkp : string; mc_Timer : string;
}.

(** ** Certificates of the availability layer (availabilitypb.Cert, mscpb.Cert) *)
Record MscCert := mkMscCert {
  msc_BatchId : string; msc_Signers : list NodeID; msc_Signatures : list bytes;
}.
(** The type of a certificate; nil when the message has none set. *)
Inductive Cert := CertNone | CertMscs (certs : list MscCert).

(** [proto.Unmarshal] of a certificate. *)
Class CertCodec := { cert_Unmarshal : bytes → outcome Cert }.

(** ** Data *)
Record epochInfo := mkEpochInfo {
  ei_nr : EpochNr; ei_firstSN : SeqNr; ei_Membership : Membership; ei_Segments : list Segment;
}.
Record CommitLogEntry := mkCommitLogEntry {
  ce_Sn : SeqNr; ce_CertData : bytes; ce_Digest : bytes; ce_Aborted : bool; ce_Suspect : NodeID;
}.
Record verifyCertContext := mkVerifyCertContext {
  vc_sn : SeqNr; vc_data : bytes; vc_aborted : bool; vc_leader : NodeID;
}.
#[export] Instance verifyCertContext_eq_dec : EqDecision verifyCertContext.
Proof. solve_decision. Defined.

Record IssState := mkIssState {
  is_epoch : option epochInfo;
  is_epochs : gmap EpochNr epochInfo;
  is_nodeEpochMap : gmap NodeID EpochNr;
  is_memberships : list Membership;
  is_nextNewMembership : option Membership;
  is_commitLog : gmap SeqNr CommitLogEntry;
  is_nextDeliveredSN : SeqNr;
  is_newEpochSN : SeqNr;
  is_lastStableCheckpoint : StableCheckpoint;
  is_lastPendingCheckpointSN : SeqNr;
  is_LeaderPolicy : LeaderSelection.LeaderSelectionPolicy;
}.

(** Parameters of the submodules ISS creates. *)
Inductive SubmoduleParams :=
| PAvailability (epoch : EpochNr) (membership : Membership) (maxRequests : N)
| POrderer (params : Orderers.InstanceParams)
| PValidator (membership : Membership)
| PCheckpoint (params : ChkpParams).

(** Emitted events, each with its destination module. *)
Inductive iss_event :=
| RestoreState (dest : string) (chkp : StableCheckpoint)
| NewEpoch (dest : string) (epochNr : EpochNr) (protocolModule : string)
| NewSubmodule (dest id : string) (params : SubmoduleParams) (retention : N)
| ComputeCert (dest : string)
| SnapshotRequest (dest replyTo : string)
| VerifyCertRequest (dest : string) (cert : Cert) (context : verifyCertContext)
| DeliverCert (dest : string) (sn : SeqNr) (cert : Cert) (empty : bool)
| AppCheckpoint (dest : string) (sn : SeqNr) (snapshot : option StateSnapshot) (cert : Certificate)
| SendCheckpoint (dest module : string) (sn : SeqNr) (snapshot : option StateSnapshot)
    (cert : Certificate) (nodes : list NodeID)
| ValidateCheckpoint (dest : string) (chkp : StableCheckpoint) (epochNr : EpochNr)
    (memberships : list Membership) (context : StableCheckpoint)
| GarbageCollect (dest : string) (retention : N)
| BatchDBGarbageCollect (dest : string) (retention : N)
| RepeatPushCheckpoint (dest : string) (period : Z) (retention : N) (module : string).

(** ** The interface lsp.LeaderSelectionPolicy *)
Module Lsp.
Definition Leaders (rng : go_range) (p : LeaderSelection.LeaderSelectionPolicy)
    : outcome (list NodeID) :=
  match p with
  | PolicySimple p => Ok (SimplePolicy.Leaders p)
  | PolicyBlacklist p => BlacklistPolicy.Leaders rng p
  end.
Definition Suspect (p : LeaderSelection.LeaderSelectionPolicy) (e : EpochNr) (node : NodeID)
    : LeaderSelection.LeaderSelectionPolicy :=
  match p with
  | PolicySimple p => PolicySimple (SimplePolicy.Suspect p e node)
  | PolicyBlacklist p => PolicyBlacklist (BlacklistPolicy.Suspect p e node)
  end.
Definition Reconfigure (p : LeaderSelection.LeaderSelectionPolicy) (mb : Membership)
    : LeaderSelection.LeaderSelectionPolicy :=
  match p with
  | PolicySimple p => PolicySimple (SimplePolicy.Reconfigure p mb)
  | PolicyBlacklist p => PolicyBlacklist (BlacklistPolicy.Reconfigure p mb)
  end.
End Lsp.

(** ** epochinfo.go *)
Module EpochInfo.
Definition newEpochInfo (nr : EpochNr) (firstSN : SeqNr) (membership : Membership) : epochInfo :=
  mkEpochInfo nr firstSN membership [].
Definition Nr (e : epochInfo) : EpochNr := ei_nr e.
Definition FirstSN (e : epochInfo) : SeqNr := ei_firstSN e.
Definition Len (e : epochInfo) : Z :=
  foldl (λ l segment, wrap_i64 (l + Seg.Len segment)) 0%Z (ei_Segments e).
End EpochInfo.
Import EpochInfo.

Module ISS.
Notation ISSM := (M IssState iss_event).

(** *** Field updates *)
Definition set_epoch e (st : IssState) : IssState :=
  mkIssState (Some e) (<[ei_nr e := e]> (is_epochs st)) (is_nodeEpochMap st) (is_memberships st)
    (is_nextNewMembership st) (is_commitLog st) (is_nextDeliveredSN st) (is_newEpochSN st)
    (is_lastStableCheckpoint st) (is_lastPendingCheckpointSN st) (is_LeaderPolicy st).
Definition set_epochs m (st : IssState) : IssState :=
  mkIssState (is_epoch st) m (is_nodeEpochMap st) (is_memberships st)
    (is_nextNewMembership st) (is_commitLog st) (is_nextDeliveredSN st) (is_newEpochSN st)
    (is_lastStableCheckpoint st) (is_lastPendingCheckpointSN st) (is_LeaderPolicy st).
Definition set_nodeEpochMap m (st : IssState) : IssState :=
  mkIssState (is_epoch st) (is_epochs st) m (is_memberships st)
    (is_nextNewMembership st) (is_commitLog st) (is_nextDeliveredSN st) (is_newEpochSN st)
    (is_lastStableCheckpoint st) (is_lastPendingCheckpointSN st) (is_LeaderPolicy st).
Definition set_memberships l (st : IssState) : IssState :=
  mkIssState (is_epoch st) (is_epochs st) (is_nodeEpochMap st) l
    (is_nextNewMembership st) (is_commitLog st) (is_nextDeliveredSN st) (is_newEpochSN st)
    (is_lastStableCheckpoint st) (is_lastPendingCheckpointSN st) (is_LeaderPolicy st).
Definition set_nextNewMembership m (st : IssState) : IssState :=
  mkIssState (is_epoch st) (is_epochs st) (is_nodeEpochMap st) (is_memberships st)
    m (is_commitLog st) (is_nextDeliveredSN st) (is_newEpochSN st)
    (is_lastStableCheckpoint st) (is_lastPendingCheckpointSN st) (is_LeaderPolicy st).
Definition set_commitLog m (st : IssState) : IssState :=
  mkIssState (is_epoch st) (is_epochs st) (is_nodeEpochMap st) (is_memberships st)
    (is_nextNewMembership st) m (is_nextDeliveredSN st) (is_newEpochSN st)
    (is_lastStableCheckpoint st) (is_lastPendingCheckpointSN st) (is_LeaderPolicy st).
Definition set_nextDeliveredSN n (st : IssState) : IssState :=
  mkIssState (is_epoch st) (is_epochs st) (is_nodeEpochMap st) (is_memberships st)
    (is_nextNewMembership st) (is_commitLog st) n (is_newEpochSN st)
    (is_lastStableCheckpoint st) (is_lastPendingCheckpointSN st) (is_LeaderPolicy st).
Definition set_newEpochSN n (st : IssState) : IssState :=
  mkIssState (is_epoch st) (is_epochs st) (is_nodeEpochMap st) (is_memberships st)
    (is_nextNewMembership st) (is_commitLog st) (is_nextDeliveredSN st) n
    (is_lastStableCheckpoint st) (is_lastPendingCheckpointSN st) (is_LeaderPolicy st).
Definition set_lastStableCheckpoint c (st : IssState) : IssState :=
  mkIssState (is_epoch st) (is_epochs st) (is_nodeEpochMap st) (is_memberships st)
    (is_nextNewMembership st) (is_commitLog st) (is_nextDeliveredSN st) (is_newEpochSN st)
    c (is_lastPendingCheckpointSN st) (is_LeaderPolicy st).
Definition set_lastPendingCheckpointSN n (st : IssState) : IssState :=
  mkIssState (is_epoch st) (is_epochs st) (is_nodeEpochMap st) (is_memberships st)
    (is_nextNewMembership st) (is_commitLog st) (is_nextDeliveredSN st) (is_newEpochSN st)
    (is_lastStableCheckpoint st) n (is_LeaderPolicy st).
Definition set_LeaderPolicy p (st : IssState) : IssState :=
  mkIssState (is_epoch st) (is_epochs st) (is_nodeEpochMap st) (is_memberships st)
    (is_nextNewMembership st) (is_commitLog st) (is_nextDeliveredSN st) (is_newEpochSN st)
    (is_lastStableCheckpoint st) (is_lastPendingCheckpointSN st) p.

(** *** Auxiliary functions *)

(** The loop of [freeProposals], counting the remaining iterations. *)
Fixpoint free_from (seqNrs : gmap SeqNr bytes) (nextSn step : SeqNr) (n : nat) : gmap SeqNr bytes :=
  match n with
  | O => seqNrs
  | S n => free_from (<[nextSn := None]> seqNrs) (wrap_u64 (nextSn + step)) step n
  end.
Definition freeProposals (start step : SeqNr) (length : Z) : gmap SeqNr bytes :=
  free_from ∅ start step (Z.to_nat length).

Definition serializeLogEntryForHashing (entry : CommitLogEntry) : list bytes :=
  [Serializing.Uint64ToBytes (ce_Sn entry); Some (ce_Suspect entry);
   Some (String (Ascii.ascii_of_nat (if ce_Aborted entry then 1 else 0)) EmptyString);
   ce_CertData entry].

Definition computeHash `{!HashImpl} (data : list bytes) : bytes :=
  Some (hash_Sum (Serialization.concat_bytes data)).

Section iss.
Context {cbor : Cbor} {codec : ChkpCodec} {himpl : HashImpl} {sigs : Verifier} {certs : CertCodec}.
Context (ownID : NodeID) (mc : IssModuleConfig) (params : IssModuleParams).

(** [iss.epoch], dereferenced. *)
Definition epoch : ISSM epochInfo :=
  st ← get; lift (deref (is_epoch st)).
Definition suspect (leader : NodeID) : ISSM unit :=
  e ← epoch;
  modify (λ st, set_LeaderPolicy (Lsp.Suspect (is_LeaderPolicy st) (Nr e) leader) st).

Definition initAvailability : ISSM unit :=
  e ← epoch;
  st ← get;
  let availabilityID := Then (mc_Availability mc) (show (Nr e)) in
  membership ← lift (index (is_memberships st) 0);
  emit (NewSubmodule (mc_Availability mc) availabilityID
          (PAvailability (Nr e) membership (u64_of_int (SegmentLength params))) (Nr e));;
  emit (ComputeCert availabilityID).

(** One iteration of the loop of [initOrderers]. *)
Definition init_orderer (numLeaders : nat) (il : nat * NodeID) : ISSM unit :=
  let '(i, leader) := il in
  st ← get;
  e ← epoch;
  let proposals := freeProposals (wrap_u64 (is_nextDeliveredSN st + N.of_nat i))
                     (N.of_nat numLeaders) (SegmentLength params) in
  seg ← lift (Seg.NewSegment leader (ei_Membership e) proposals);
  modify (λ st, set_newEpochSN (wrap_u64 (is_newEpochSN st + u64_of_int (Seg.Len seg))) st);;
  emit (NewSubmodule (mc_Ordering mc)
          (Then (Then (mc_Ordering mc) (show (Nr e))) (show (N.of_nat i)))
          (POrderer (Orderers.mkInstanceParams seg (Then (mc_Availability mc) (show (Nr e))) (Nr e)
             (mc_PPrepValidator mc))) (Nr e));;
  modify (set_epoch (mkEpochInfo (ei_nr e) (ei_firstSN e) (ei_Membership e) (ei_Segments e ++ [seg]))).

Definition initOrderers (rng : go_range) : ISSM unit :=
  _ ← epoch;
  st ← get;
  leaders ← lift (Lsp.Leaders rng (is_LeaderPolicy st));
  mfor (imap pair leaders) (init_orderer (length leaders)).

Definition startEpoch (rng : go_range) (epochNr : EpochNr) : ISSM unit :=
  st ← get;
  membership ← lift (index (is_memberships st) 0);
  modify (set_epoch (newEpochInfo epochNr (is_newEpochSN st) membership));;
  emit (NewEpoch (mc_App mc) epochNr (mc_Self mc));;
  initAvailability;;
  initOrderers rng.

Definition hasEpochCheckpoint (st : IssState) (e : epochInfo) : bool :=
  bool_decide (Chkp.SeqNr_of (is_lastStableCheckpoint st) = FirstSN e).

Definition epochFinished (st : IssState) (e : epochInfo) : bool :=
  bool_decide (is_nextDeliveredSN st = is_newEpochSN st) && hasEpochCheckpoint st e &&
  bool_decide (is_Some (is_nextNewMembership st)).

Definition advanceEpoch (rng : go_range) : ISSM unit :=
  e ← epoch;
  let newEpochNr := u64_succ (Nr e) in
  st ← get;
  oldMembership ← lift (index (is_memberships st) 0);
  nextNew ← lift (deref (is_nextNewMembership st));
  modify (set_memberships (tail (is_memberships st) ++ [nextNew]));;
  modify (set_nextNewMembership None);;
  st ← get;
  first ← lift (index (is_memberships st) 0);
  modify (set_LeaderPolicy (Lsp.Reconfigure (is_LeaderPolicy st) first));;
  st ← get;
  leaderPolicyData ← lift (Policy.Bytes (is_LeaderPolicy st));
  startEpoch rng newEpochNr;;
  let chkpModuleID := Then (mc_Checkpoint mc) (show newEpochNr) in
  e ← epoch;
  st ← get;
  emit (NewSubmodule (mc_Checkpoint mc) chkpModuleID
          (PCheckpoint (mkChkpParams ownID oldMembership
             (mkEpochConfig (Nr e) (FirstSN e) (u64_of_int (Len e)) (Some (is_memberships st)))
             (Some leaderPolicyData) IssConf.second)) newEpochNr);;
  emit (SnapshotRequest (mc_App mc) chkpModuleID).

(** The body of the loop of [processCommitted], for the entry of the next sequence number. *)
Definition deliver_entry (logEntry : CommitLogEntry) : ISSM unit :=
  cert ← (if ce_Aborted logEntry then suspect (ce_Suspect logEntry);; mret (CertMscs [])
          else lift (cert_Unmarshal (ce_CertData logEntry)));
  st ← get;
  emit (DeliverCert (mc_App mc) (is_nextDeliveredSN st) cert (ce_Aborted logEntry));;
  modify (set_commitLog (delete (is_nextDeliveredSN st) (is_commitLog st)));;
  modify (set_nextDeliveredSN (u64_succ (is_nextDeliveredSN st))).

(** The loop; every iteration deletes an entry, so their number is enough fuel. *)
Fixpoint deliver_loop (fuel : nat) : ISSM unit :=
  match fuel with
  | O => skip
  | S fuel =>
      st ← get;
      match is_commitLog st !! is_nextDeliveredSN st with
      | None => skip
      | Some logEntry => deliver_entry logEntry;; deliver_loop fuel
      end
  end.

Definition processCommitted (rng : go_range) : ISSM unit :=
  st ← get;
  e ← epoch;
  if negb (hasEpochCheckpoint st e) then skip
  else
    deliver_loop (size (is_commitLog st));;
    st ← get;
    if epochFinished st e then advanceEpoch rng else skip.

Definition deliverCert (rng : go_range) (sn : SeqNr) (data : bytes) (aborted : bool)
    (leader : NodeID) : ISSM unit :=
  let logEntry := mkCommitLogEntry sn data None aborted leader in
  let digest := computeHash (serializeLogEntryForHashing logEntry) in
  modify (λ st, set_commitLog
    (<[sn := mkCommitLogEntry sn data digest aborted leader]> (is_commitLog st)) st);;
  processCommitted rng.

Definition verifyCert (rng : go_range) (sn : SeqNr) (data : bytes) (aborted : bool)
    (leader : NodeID) : ISSM unit :=
  match cert_Unmarshal data with
  | Panic p => lift (Panic p)
  | Err _ => suspect leader;; deliverCert rng sn (Some EmptyString) true leader
  | Ok cert =>
      e ← epoch;
      emit (VerifyCertRequest (Then (mc_Availability mc) (show (Nr e))) cert
              (mkVerifyCertContext sn data aborted leader))
  end.

(** [stddsl.GarbageCollect] for every module of the list. *)
Definition prune (modules : list string) (retention : N) : ISSM unit :=
  mfor modules (λ m, emit (GarbageCollect m retention)).

Definition deliverCommonCheckpoint (rng : go_range) (chkpData : bytes) : ISSM unit :=
  match Chkp.Deserialize chkpData with
  | Panic p => lift (Panic p)
  | Err _ => lift (Err "could not deserialize common checkpoint")
  | Ok chkp =>
      st ← get;
      if bool_decide (Chkp.SeqNr_of chkp ≤ Chkp.SeqNr_of (is_lastStableCheckpoint st))%N then skip
      else
        _ ← epoch;
        chkpEpoch ← lift (Chkp.Epoch chkp);
        _ ← lift (Chkp.Epoch (is_lastStableCheckpoint st));
        modify (set_lastStableCheckpoint chkp);;
        emit (AppCheckpoint (mc_App mc) (Chkp.SeqNr_of chkp) (sc_Snapshot chkp)
                (Chkp.Certificate_of chkp));;
        processCommitted rng;;
        let pruneIndex := wrap_i64 (int_of_u64 chkpEpoch - RetainedEpochs params) in
        when (bool_decide (0 < pruneIndex)%Z) (
          prune [mc_Timer mc; mc_Checkpoint mc; mc_Availability mc; mc_Ordering mc;
                 mc_PPrepValidatorChkp mc] (u64_of_int pruneIndex);;
          emit (BatchDBGarbageCollect (mc_BatchDB mc) (u64_of_int pruneIndex));;
          modify (λ st, set_epochs
            (filter (λ '(nr, _), ¬ (nr < u64_of_int pruneIndex)%N) (is_epochs st)) st);;
          emit (RepeatPushCheckpoint (mc_Timer mc) (CatchUpTimerPeriod params)
                  (u64_of_int pruneIndex) (mc_Self mc)))
  end.

(** *** Construction *)
Definition New (rng : go_range) (startingChkp : StableCheckpoint) : outcome IssState :=
  match IssConf.CheckParams params with
  | Panic p => Panic p
  | Err _ => Err "invalid ISS configuration"
  | Ok _ =>
      epochData ← Chkp.epoch_data startingChkp;
      match Policy.LeaderPolicyFromBytes (contents (ed_LeaderPolicy epochData)) with
      | Panic p => Panic p
      | Err _ => Err "invalid leader policy in starting checkpoint"
      | Ok leaderPolicy =>
          Chkp.Verify rng startingChkp (ConfigOffset params) (InitialMembership params);;
          memberships ← Chkp.Memberships startingChkp;
          Ok (mkIssState None ∅ ∅ (default [] memberships) None ∅ (Chkp.SeqNr_of startingChkp)
                (Chkp.SeqNr_of startingChkp) startingChkp 0 leaderPolicy)
      end
  end.

Definition InitialStateSnapshot (appState : bytes) : outcome StateSnapshot :=
  memberships ← Sliceutil.Repeat (InitialMembership params) (wrap_i64 (ConfigOffset params + 1));
  leaderPolicyData ←
    (if bool_decide (LeaderSelectionPolicy params = Simple) then
       Policy.Bytes (PolicySimple (SimplePolicy.NewSimpleLeaderPolicy (InitialMembership params)))
     else if bool_decide (LeaderSelectionPolicy params = Blacklist) then
       Policy.Bytes (PolicyBlacklist (BlacklistPolicy.NewBlackListLeaderPolicy (InitialMembership params)))
     else Err "unknown leader selection policy type");
  let firstEpochLength := u64_of_int (wrap_i64 (SegmentLength params *
                            Z.of_nat (size (Nodes (InitialMembership params))))) in
  Ok (mkStateSnapshot appState (Some (mkEpochData
        (Some (mkEpochConfig 0 0 firstEpochLength (Some memberships)))
        (Some (CP.Pb CP.NewClientProgress)) (Some leaderPolicyData) (Some (mkMembership ∅))))).

(** *** Handlers *)
Definition UponInit (rng : go_range) : ISSM unit :=
  st ← get;
  emit (RestoreState (mc_App mc) (is_lastStableCheckpoint st));;
  epochNr ← lift (Chkp.Epoch (is_lastStableCheckpoint st));
  startEpoch rng epochNr.

Definition UponSBDeliver (rng : go_range) (sn : SeqNr) (data : bytes) (aborted : bool)
    (leader : NodeID) (instanceId : string) : ISSM unit :=
  if bool_decide (Sub (Sub instanceId) = "chkp") then deliverCommonCheckpoint rng data
  else if aborted then deliverCert rng sn data aborted leader
  else verifyCert rng sn data aborted leader.

Definition UponCertVerified (rng : go_range) (valid : bool) (context : verifyCertContext)
    : ISSM unit :=
  context ← (if negb valid then
               suspect (vc_leader context);;
               mret (mkVerifyCertContext (vc_sn context) (Some EmptyString) true (vc_leader context))
             else mret context);
  deliverCert rng (vc_sn context) (vc_data context) (vc_aborted context) (vc_leader context).

Definition UponNewConfig (rng : go_range) (epochNr : EpochNr) (membership : Membership)
    : ISSM unit :=
  e ← epoch;
  st ← get;
  if bool_decide (epochNr < Nr e)%N then skip
  else match is_nextNewMembership st with
  | Some _ => lift (Err "already have a new membership for epoch")
  | None =>
      modify (set_nextNewMembership (Some membership));;
      st ← get;
      if epochFinished st e then advanceEpoch rng else skip
  end.

Definition UponEpochProgress (nodeID : NodeID) (epochNr : EpochNr) : ISSM unit :=
  st ← get;
  when (bool_decide (default 0 (is_nodeEpochMap st !! nodeID) < epochNr)%N)
    (modify (set_nodeEpochMap (<[nodeID := epochNr]> (is_nodeEpochMap st)))).

Definition UponStableCheckpoint (sn : SeqNr) (snapshot : option StateSnapshot) (cert : Certificate)
    : ISSM unit :=
  st ← get;
  if bool_decide (sn ≤ is_lastPendingCheckpointSN st)%N then skip
  else
    modify (set_lastPendingCheckpointSN sn);;
    let stableCheckpoint := mkStableCheckpoint sn snapshot cert in
    epochData ← lift (Chkp.epoch_data stableCheckpoint);
    epochNr ← lift (Chkp.Epoch stableCheckpoint);
    _ ← epoch;
    _ ← lift (Chkp.Epoch (is_lastStableCheckpoint st));
    membership ← lift (deref (ed_PreviousMembership epochData));
    let n := Z.of_nat (size (Nodes membership)) in
    leader ← lift (if bool_decide (n = 0)%Z then Panic (ExplicitPanic "integer divide by zero")
                   else index (GetSortedKeys (Nodes membership)) (Z.rem (int_of_u64 epochNr) n));
    chkpData ← lift (Chkp.Serialize stableCheckpoint);
    seg ← lift (Seg.NewSegment leader membership {[ 0%N := chkpData ]});
    let PPVId := Then (mc_PPrepValidatorChkp mc) (show epochNr) in
    emit (NewSubmodule (mc_PPrepValidatorChkp mc) PPVId (PValidator membership) epochNr);;
    emit (NewSubmodule (mc_Ordering mc) (Then (Then (mc_Ordering mc) (show epochNr)) "chkp")
            (POrderer (Orderers.mkInstanceParams seg "" epochNr PPVId)) epochNr).

(** [rng] is the order in which the membership is visited. *)
Definition UponPushCheckpoint (rng : go_range) : ISSM unit :=
  st ← get;
  let chkp := is_lastStableCheckpoint st in
  epochNr ← lift (Chkp.Epoch chkp);
  memberships ← lift (Chkp.Memberships chkp);
  membership ← lift (index (default [] memberships) 0);
  let delayed := filter (λ n,
        wrap_u64 (default 0 (is_nodeEpochMap st !! n) + u64_of_int (RetainedEpochs params)) < epochNr)%N
        (range_order rng 0 (GetKeys (Nodes membership))) in
  when (bool_decide (0 < length delayed)) (_ ← epoch; skip);;
  emit (SendCheckpoint (mc_Net mc) (mc_Self mc) (Chkp.SeqNr_of chkp) (Chkp.StateSnapshot_of chkp)
          (Chkp.Certificate_of chkp) delayed).

Definition UponStableCheckpointReceived (sn : SeqNr) (snapshot : option StateSnapshot)
    (cert : Certificate) : ISSM unit :=
  let chkp := mkStableCheckpoint sn snapshot cert in
  chkpEpoch ← lift (Chkp.Epoch chkp);
  e ← epoch;
  st ← get;
  if bool_decide (ChkpValidator.membership_offset chkpEpoch (Nr e) ≤ 0)%Z then skip
  else emit (ValidateCheckpoint (mc_ChkpValidator mc) chkp (Nr e) (is_memberships st) chkp).

(** The state as it is replaced by a checkpoint, before the new epoch starts. *)
Definition install (chkp : StableCheckpoint) (memberships : list Membership)
    (policy : LeaderSelection.LeaderSelectionPolicy) (st : IssState) : IssState :=
  mkIssState (is_epoch st) ∅ (is_nodeEpochMap st) memberships None ∅ (Chkp.SeqNr_of chkp)
    (Chkp.SeqNr_of chkp) chkp (is_lastPendingCheckpointSN st) policy.

Definition UponCheckpointValidated (rng : go_range) (err : bool) (chkp : StableCheckpoint)
    : ISSM unit :=
  if err then skip
  else
    chkpEpoch ← lift (Chkp.Epoch chkp);
    e ← epoch;
    if bool_decide (ChkpValidator.membership_offset chkpEpoch (Nr e) ≤ 0)%Z then skip
    else
      epochData ← lift (Chkp.epoch_data chkp);
      match Policy.LeaderPolicyFromBytes (contents (ed_LeaderPolicy epochData)) with
      | Panic p => lift (Panic p)
      | Err _ => skip
      | Ok result =>
          memberships ← lift (Chkp.Memberships chkp);
          modify (install chkp (default [] memberships) result);;
          emit (RestoreState (mc_App mc) chkp);;
          startEpoch rng chkpEpoch;;
          emit (AppCheckpoint (mc_App mc) (Chkp.SeqNr_of chkp) (Chkp.StateSnapshot_of chkp)
                  (Chkp.Certificate_of chkp));;
          prune [mc_Timer mc; mc_Checkpoint mc; mc_Availability mc; mc_Ordering mc] chkpEpoch
      end.
End iss.
End ISS.

(** ** Inputs of the module *)
Inductive iss_input :=
| IssInInit
| IssInSBDeliver (sn : SeqNr) (data : bytes) (aborted : bool) (leader : NodeID) (instanceId : string)
| IssInCertVerified (valid : bool) (context : verifyCertContext)
| IssInNewConfig (epochNr : EpochNr) (membership : Membership)
| IssInEpochProgress (nodeID : NodeID) (epochNr : EpochNr)
| IssInStableCheckpoint (sn : SeqNr) (snapshot : option StateSnapshot) (cert : Certificate)
| IssInPushCheckpoint
| IssInStableCheckpointReceived (sender : NodeID) (sn : SeqNr) (snapshot : option StateSnapshot)
    (cert : Certificate)
| IssInCheckpointValidated (err : bool) (chkp : StableCheckpoint).

Section dispatch.
Context {cbor : Cbor} {codec : ChkpCodec} {himpl : HashImpl} {sigs : Verifier} {certs : CertCodec}.
Context (ownID : NodeID) (mc : IssModuleConfig) (params : IssModuleParams).
Import ISS.

Definition iss_apply (rng : go_range) (i : iss_input) : M IssState iss_event unit :=
  match i with
  | IssInInit => UponInit mc params rng
  | IssInSBDeliver sn data aborted leader iid => UponSBDeliver ownID mc params rng sn data aborted leader iid
  | IssInCertVerified valid context => UponCertVerified ownID mc params rng valid context
  | IssInNewConfig epochNr membership => UponNewConfig ownID mc params rng epochNr membership
  | IssInEpochProgress nodeID epochNr => UponEpochProgress nodeID epochNr
  | IssInStableCheckpoint sn snapshot cert => UponStableCheckpoint mc sn snapshot cert
  | IssInPushCheckpoint => UponPushCheckpoint mc params rng
  | IssInStableCheckpointReceived _ sn snapshot cert => UponStableCheckpointReceived mc sn snapshot cert
  | IssInCheckpointValidated err chkp => UponCheckpointValidated mc params rng err chkp
  end.

(** What the other modules promise: the node applies Init once; the availability module answers requests to verify a
    certificate, with the context of the request, and the checkpoint validator requests to
    validate a checkpoint, accepting only what passes its syntactic checks.  All other inputs are
    arbitrary. *)
Definition iss_answers (out : list iss_event) (i : iss_input) : Prop :=
  match i with
  | IssInInit => ∀ dest chkp, RestoreState dest chkp ∉ out
  | IssInCertVerified valid context => ∃ dest cert, VerifyCertRequest dest cert context ∈ out
  | IssInCheckpointValidated err chkp =>
      (∃ dest epochNr memberships, ValidateCheckpoint dest chkp epochNr memberships chkp ∈ out) ∧
      (err = false → Chkp.SyntacticCheck chkp (ConfigOffset params) = Ok tt)
  | _ => True
  end.
End dispatch.
