(* ===== verification/IssProps.v ===== *)
(** * Properties of the ISS module

    Part one: what starting an epoch does.  Part two: the invariant of the module, over all runs
    with arbitrary inputs, and what the application can rely on ([app_run]).  Part three: the
    membership pipeline, the start from the genesis checkpoint, and a run that shows a limit. *)
From Stdlib Require Import ZArith Lia Ascii.
From stdpp Require Import prelude gmap strings list sorting fin_maps numbers.
From S2P Require Import Prelude Util Membership PbftTypes LeaderSelection IssConfig Orderer.
From S2P Require Import ClientProgress ModuleRuns Checkpoint CheckpointProtocol Iss.
Import Maputil ModuleID EpochInfo ISS.

(** ** The sequence numbers of a segment *)
Section free_proposals.
Lemma free_from_spec seqNrs start step n sn :
  (start + N.of_nat n * step < u64_max)%N →
  is_Some (free_from seqNrs start step n !! sn) ↔
    is_Some (seqNrs !! sn) ∨ ∃ k, k < n ∧ sn = (start + N.of_nat k * step)%N.
Proof.
  revert seqNrs start. induction n as [|n IH]; intros seqNrs start Hb; cbn [free_from].
  { split; [by left|]. intros [?|(? & ? & _)]; [done|lia]. }
  rewrite wrap_u64_small by lia. rewrite IH by lia. rewrite lookup_insert_is_Some'. split.
  - intros [[->|?]|(k & Hk & ->)]; [right; exists 0; split; lia|by left|].
    right. exists (S k). split; lia.
  - intros [?|(k & Hk & ->)]; [by left; right|]. destruct k as [|k]; [left; left; lia|].
    right. exists k. split; lia.
Qed.

Lemma free_from_size seqNrs start step n :
  (start + N.of_nat n * step < u64_max)%N → (0 < step)%N →
  (∀ sn, is_Some (seqNrs !! sn) → sn < start)%N →
  size (free_from seqNrs start step n) = size seqNrs + n.
Proof.
  revert seqNrs start. induction n as [|n IH]; intros seqNrs start Hb Hs Hlt; cbn [free_from]; [lia|].
  rewrite wrap_u64_small by lia. rewrite IH; [|lia|lia|].
  - rewrite map_size_insert_None; [lia|]. destruct (seqNrs !! start) eqn:E; [|done].
    assert (start < start)%N by (apply Hlt; by eexists). lia.
  - intros sn [->|?%Hlt]%lookup_insert_is_Some'; lia.
Qed.
End free_proposals.

(** ** Starting an epoch *)
Section start.
Context {cbor : Cbor} {codec : ChkpCodec} {himpl : HashImpl} {sigs : Verifier} {certs : CertCodec}.
Context (ownID : NodeID) (mc : IssModuleConfig) (params : IssModuleParams).

(** The fields [startEpoch] does not touch. *)
Definition same_log (st st' : IssState) : Prop :=
  is_memberships st' = is_memberships st ∧ is_nextNewMembership st' = is_nextNewMembership st ∧
  is_commitLog st' = is_commitLog st ∧ is_nextDeliveredSN st' = is_nextDeliveredSN st ∧
  is_lastStableCheckpoint st' = is_lastStableCheckpoint st ∧ is_LeaderPolicy st' = is_LeaderPolicy st.

#[export] Instance same_log_preorder : PreOrder same_log.
Proof.
  split; [by intros st|]. intros st1 st2 st3. unfold same_log.
  intros (-> & -> & -> & -> & -> & ->). done.
Qed.

(** The segment of the [i]-th leader and the request that creates its orderer. *)
Definition epoch_segment (mb : Membership) (next : SeqNr) (n i : nat) (leader : NodeID) : Segment :=
  mkSegment leader mb (freeProposals (wrap_u64 (next + N.of_nat i)) (N.of_nat n) (SegmentLength params)).
Definition orderer_request (nr : EpochNr) (i : nat) (seg : Segment) : iss_event :=
  NewSubmodule (mc_Ordering mc) (Then (Then (mc_Ordering mc) (show nr)) (show (N.of_nat i)))
    (POrderer (Orderers.mkInstanceParams seg (Then (mc_Availability mc) (show nr)) nr
       (mc_PPrepValidator mc))) nr.

Definition add_len (sn : SeqNr) (seg : Segment) : SeqNr := wrap_u64 (sn + u64_of_int (Seg.Len seg)).

Lemma init_loop n (l : list (nat * NodeID)) st out e :
  is_epoch st = Some e →
  wp (mfor l (init_orderer mc params n)) (λ _ st' out',
    let segs := (λ il, epoch_segment (ei_Membership e) (is_nextDeliveredSN st) n il.1 il.2) <$> l in
    is_epoch st' = Some (mkEpochInfo (ei_nr e) (ei_firstSN e) (ei_Membership e) (ei_Segments e ++ segs)) ∧
    is_newEpochSN st' = foldl add_len (is_newEpochSN st) segs ∧ same_log st st' ∧
    out' = out ++ ((λ il, orderer_request (ei_nr e) il.1
                     (epoch_segment (ei_Membership e) (is_nextDeliveredSN st) n il.1 il.2)) <$> l))
    st out.
Proof.
  revert st out e. induction l as [|[i leader] l IH]; intros st out e He; cbn [mfor].
  { apply wp_skip. simpl. rewrite !app_nil_r. split_and!; [|done..]. by destruct e. }
  wp_step. unfold init_orderer at 1, epoch. repeat wp_step. unfold deref in *.
  rewrite He in Hlift. injection Hlift as <-. unfold Seg.NewSegment in Hlift0.
  destruct (Nodes (ei_Membership e) !! leader) eqn:Hl; [|done]. injection Hlift0 as <-.
  eapply wp_mono; [by eapply IH|]. intros [] st' out'. simpl.
  intros (-> & -> & Hs & ->). split_and!; [|done| |].
  - by rewrite <- !app_assoc.
  - exact Hs.
  - by rewrite <- !app_assoc.
Qed.

(** The segments of an epoch. *)
Definition epoch_segments (mb : Membership) (next : SeqNr) (leaders : list NodeID) : list Segment :=
  imap (epoch_segment mb next (length leaders)) leaders.

Lemma imap_pair_fmap {A B} (f : nat → A → B) l : (λ il, f il.1 il.2) <$> imap pair l = imap f l.
Proof.
  apply list_eq. intros i. rewrite list_lookup_fmap, !list_lookup_imap. by destruct (l !! i).
Qed.

Definition start_events (nr : EpochNr) (mb : Membership) (segs : list Segment) : list iss_event :=
  [NewEpoch (mc_App mc) nr (mc_Self mc);
   NewSubmodule (mc_Availability mc) (Then (mc_Availability mc) (show nr))
     (PAvailability nr mb (u64_of_int (SegmentLength params))) nr;
   ComputeCert (Then (mc_Availability mc) (show nr))] ++ imap (orderer_request nr) segs.

Lemma startEpoch_wp rng nr st out :
  wp (startEpoch mc params rng nr) (λ _ st' out', ∃ mb leaders,
    is_memberships st !! 0 = Some mb ∧ Lsp.Leaders rng (is_LeaderPolicy st) = Ok leaders ∧
    let segs := epoch_segments mb (is_nextDeliveredSN st) leaders in
    is_epoch st' = Some (mkEpochInfo nr (is_newEpochSN st) mb segs) ∧
    is_newEpochSN st' = foldl add_len (is_newEpochSN st) segs ∧ same_log st st' ∧
    out' = out ++ start_events nr mb segs) st out.
Proof.
  unfold startEpoch, initAvailability, initOrderers, epoch. repeat wp_step. simpl in *.
  unfold deref in *. simplify_eq. rename a into mb, a3 into leaders.
  rewrite Hlift in Hlift1. injection Hlift1 as <-. apply index_lookup in Hlift as [_ Hmb].
  eapply wp_mono; [by eapply init_loop|]. intros [] st' out' (He & Hn & Hs & ->).
  pose proof (imap_pair_fmap (epoch_segment mb (is_nextDeliveredSN st) (length leaders)) leaders) as Hseg.
  fold (epoch_segments mb (is_nextDeliveredSN st) leaders) in Hseg.
  exists mb, leaders. split_and!; [done|done| | |done|].
  - by rewrite He, <- Hseg.
  - by rewrite Hn, <- Hseg.
  - unfold start_events. simpl. rewrite <- !app_assoc. simpl. do 4 f_equal.
    unfold epoch_segments.
    apply list_eq. intros i. rewrite list_lookup_fmap, !list_lookup_imap. by destruct (leaders !! i).
Qed.

(** *** Without overflow of sequence numbers, the segments interleave *)
Definition seg_len : nat := Z.to_nat (SegmentLength params).

Lemma foldl_add_len (l : list Segment) f :
  (∀ seg, seg ∈ l → Seg.Len seg = Z.of_nat seg_len) →
  (f + N.of_nat (length l) * (N.of_nat seg_len + 1) < u64_max)%N →
  foldl add_len f l = (f + N.of_nat (length l) * N.of_nat seg_len)%N ∧
  ∀ z, (0 ≤ z ≤ 2 ^ 63)%Z → (z + Z.of_nat (length l) * Z.of_nat seg_len < 2 ^ 63)%Z →
    foldl (λ a seg, wrap_i64 (a + Seg.Len seg)) z l = (z + Z.of_nat (length l) * Z.of_nat seg_len)%Z.
Proof.
  revert f. induction l as [|seg l IH]; intros f Hl Hb; cbn [foldl length] in *; [split; intros; lia|].
  unfold add_len at 2. rewrite (Hl seg) by left. unfold u64_of_int, u64_max in *.
  rewrite Z.mod_small, <- nat_N_Z, N2Z.id by lia.
  rewrite wrap_u64_small by (unfold u64_max; lia).
  destruct (IH (f + N.of_nat seg_len)%N) as [-> Hz]; [intros s Hs; apply Hl; by right|lia|]. split; [lia|].
  intros z Hz1 Hz2. rewrite wrap_i64_small by lia. rewrite Hz; lia.
Qed.

Section interleaving.
Context (mb : Membership) (first : SeqNr) (leaders : list NodeID).
Notation n := (length leaders).
Notation segs := (epoch_segments mb first leaders).
Hypothesis no_overflow : (first + N.of_nat n * (N.of_nat seg_len + 1) < u64_max)%N.

Lemma segment_lookup i seg :
  segs !! i = Some seg → ∃ leader, leaders !! i = Some leader ∧ i < n ∧ seg_Leader seg = leader ∧
    seg_Membership seg = mb ∧ Seg.Len seg = Z.of_nat seg_len ∧
    ∀ sn, is_Some (seg_Proposals seg !! sn) ↔
          ∃ k, k < seg_len ∧ sn = (first + N.of_nat (i + k * n))%N.
Proof.
  unfold epoch_segments. rewrite list_lookup_imap. intros (leader & Hl & ->)%fmap_Some.
  pose proof (lookup_lt_Some _ _ _ Hl) as Hi. exists leader. split_and!; try done.
  - unfold Seg.Len, epoch_segment, freeProposals. simpl. rewrite wrap_u64_small by lia.
    rewrite free_from_size; fold seg_len; [rewrite map_size_empty; lia|lia|lia|].
    intros sn [? ?]. by simplify_map_eq.
  - intros sn. unfold epoch_segment, freeProposals. simpl. rewrite wrap_u64_small by lia.
    rewrite free_from_spec by (fold seg_len; lia). fold seg_len. split.
    + intros [[? ?]|(k & Hk & ->)]; [by simplify_map_eq|]. exists k. split; lia.
    + intros (k & Hk & ->). right. exists k. split; lia.
Qed.

Lemma segs_len seg : seg ∈ segs → Seg.Len seg = Z.of_nat seg_len.
Proof. intros [i (_ & _ & _ & _ & _ & ? & _)%segment_lookup]%list_elem_of_lookup. done. Qed.

Lemma length_segs : length segs = n.
Proof. apply length_imap. Qed.

(** Every sequence number of the epoch is in exactly one segment. *)
Lemma segments_cover sn :
  (first ≤ sn < first + N.of_nat (n * seg_len))%N →
  exists! i, ∃ seg, segs !! i = Some seg ∧ is_Some (seg_Proposals seg !! sn).
Proof.
  intros Hsn. set (d := N.to_nat (sn - first)). assert (d < n * seg_len) as Hd by lia.
  assert (n ≠ 0) as Hn by (intros E; rewrite E in Hd; lia).
  exists (d mod n). split.
  - assert (d mod n < n) as Hm by by apply Nat.mod_upper_bound.
    destruct (lookup_lt_is_Some_2 segs (d mod n)) as [seg Hseg]; [by rewrite length_segs|].
    exists seg. split; [done|]. destruct (segment_lookup _ _ Hseg) as (_ & _ & _ & _ & _ & _ & ->).
    exists (d / n). split; [apply Nat.Div0.div_lt_upper_bound; lia|].
    pose proof (Nat.div_mod_eq d n). lia.
  - intros i (seg & Hseg & Hin). destruct (segment_lookup _ _ Hseg) as (_ & _ & Hi & _ & _ & _ & Hs).
    apply Hs in Hin as (k & Hk & Heq). replace d with (i + k * n) by lia.
    by rewrite Nat.Div0.mod_add, Nat.mod_small.
Qed.

Lemma segments_within i seg sn :
  segs !! i = Some seg → is_Some (seg_Proposals seg !! sn) →
  (first ≤ sn < first + N.of_nat (n * seg_len))%N.
Proof.
  intros (_ & _ & Hi & _ & _ & _ & Hs)%segment_lookup (k & Hk & ->)%Hs.
  assert (i + k * n < n * seg_len); [|lia]. nia.
Qed.
End interleaving.
End start.

(** Starting an epoch at the first undelivered sequence number splits the
    epoch among its leaders: the sequence numbers up to the new [newEpochSN] are exactly those of
    the segments, each in one segment only; the i-th leader leads a segment of [SegmentLength]
    numbers in the membership of the epoch, and an orderer is requested for it under its own
    module identifier. *)
Theorem epoch_segments_partition {cbor : Cbor} {codec : ChkpCodec} {himpl : HashImpl}
    {sigs : Verifier} {certs : CertCodec} mc params rng nr st st' es leaders :
  startEpoch mc params rng nr st = Ok (tt, st', es) →
  Lsp.Leaders rng (is_LeaderPolicy st) = Ok leaders →
  is_nextDeliveredSN st = is_newEpochSN st →
  (is_newEpochSN st + N.of_nat (length leaders) * (N.of_nat (seg_len params) + 1) < 2 ^ 63)%N →
  ∃ e, is_epoch st' = Some e ∧ ei_nr e = nr ∧ ei_firstSN e = is_newEpochSN st ∧
    is_memberships st !! 0 = Some (ei_Membership e) ∧
    is_newEpochSN st' = (ei_firstSN e + N.of_nat (length leaders * seg_len params))%N ∧
    Len e = Z.of_nat (length leaders * seg_len params) ∧
    (∀ sn, (ei_firstSN e ≤ sn < is_newEpochSN st')%N ↔
       exists! i, ∃ seg, ei_Segments e !! i = Some seg ∧ is_Some (seg_Proposals seg !! sn)) ∧
    length (ei_Segments e) = length leaders ∧
    ∀ i seg, ei_Segments e !! i = Some seg →
      leaders !! i = Some (seg_Leader seg) ∧ seg_Membership seg = ei_Membership e ∧
      Seg.Len seg = Z.of_nat (seg_len params) ∧ orderer_request mc nr i seg ∈ es.
Proof.
  intros Hst Hl Hn Hb.
  pose proof (wp_Ok _ _ _ _ _ _ _ (startEpoch_wp mc params rng nr st []) Hst)
    as (mb & leaders' & Hmb & Hl' & He & Hnew & _ & Hes).
  rewrite Hl in Hl'. injection Hl' as <-. rewrite Hn in He, Hnew, Hes. simpl in Hes.
  set (first := is_newEpochSN st) in *. set (segs := epoch_segments params mb first leaders) in *.
  assert (first + N.of_nat (length leaders) * (N.of_nat (seg_len params) + 1) < u64_max)%N as Hov
    by (unfold u64_max; lia).
  destruct (foldl_add_len params segs first) as [Hsum Hlen].
  { intros seg. by apply segs_len. }
  { by replace (length segs) with (length leaders) by (symmetry; apply length_segs). }
  assert (length segs = length leaders) as Hls by apply length_segs.
  rewrite Hls in Hsum, Hlen. rewrite Hsum in Hnew.
  eexists. split_and!; [exact He|done..| | | | |]; simpl.
  - rewrite Hnew. lia.
  - unfold Len. simpl. rewrite Hlen; lia.
  - intros sn. rewrite Hnew, <- Nat2N.inj_mul. split; [by apply segments_cover|].
    intros (i & (seg & Hseg & Hin) & _). by eapply segments_within.
  - apply length_segs.
  - intros i seg Hseg. destruct (segment_lookup _ _ _ _ Hov _ _ Hseg) as (leader & ? & _ & -> & ? & ? & _).
    split_and!; try done. rewrite Hes. unfold start_events. apply elem_of_app. right.
    apply elem_of_lookup_imap. eauto.
Qed.

(** ** What the application sees

    The application is restored to a checkpoint, told about new epochs, given checkpoints and
    certificates.  [app_step] is the protocol it relies on: epochs come one after the other from
    the restored one, certificates in the order of their sequence numbers without gaps, only
    after the checkpoint the current epoch starts with, and checkpoints never go back. *)
Record app_state := mkApp {
  a_next : SeqNr;      (** next sequence number *)
  a_epoch : EpochNr;   (** next epoch *)
  a_first : SeqNr;     (** first sequence number of the current epoch *)
  a_chkp : SeqNr;      (** sequence number of the last checkpoint *)
}.

Definition app_step (a : option app_state) (ev : iss_event) : option (option app_state) :=
  match ev with
  | RestoreState _ chkp =>
      match Chkp.Epoch chkp with
      | Ok nr => Some (Some (mkApp (sc_Sn chkp) nr (sc_Sn chkp) (sc_Sn chkp)))
      | _ => None
      end
  | NewEpoch _ nr _ =>
      a ← a;
      if bool_decide (nr = a_epoch a)
      then Some (Some (mkApp (a_next a) (u64_succ nr) (a_next a) (a_chkp a))) else None
  | AppCheckpoint _ sn _ _ =>
      a ← a;
      if bool_decide (a_chkp a ≤ sn)%N
      then Some (Some (mkApp (a_next a) (a_epoch a) (a_first a) sn)) else None
  | DeliverCert _ sn _ _ =>
      a ← a;
      if bool_decide (sn = a_next a) && bool_decide (a_chkp a = a_first a)
      then Some (Some (mkApp (u64_succ sn) (a_epoch a) (a_first a) (a_chkp a))) else None
  | _ => Some a
  end.

Definition app_run (out : list iss_event) : option (option app_state) :=
  foldl (λ o ev, a ← o; app_step a ev) (Some None) out.

Definition neutral (ev : iss_event) : Prop := ∀ a, app_step a ev = Some a.

Lemma app_run_snoc out ev : app_run (out ++ [ev]) = (a ← app_run out; app_step a ev).
Proof. unfold app_run. by rewrite foldl_app. Qed.

Lemma app_run_neutral out es a :
  Forall neutral es → app_run out = Some a → app_run (out ++ es) = Some a.
Proof.
  intros Hn. revert out. induction Hn as [|ev es He _ IH]; intros out H; [by rewrite app_nil_r|].
  rewrite (cons_middle ev), (assoc_L (++)). apply IH. rewrite app_run_snoc, H. apply He.
Qed.

(** ** The invariant *)
Section invariant.
Context {cbor : Cbor} {codec : ChkpCodec} {himpl : HashImpl} {sigs : Verifier} {certs : CertCodec}.
Context (ownID : NodeID) (mc : IssModuleConfig) (params : IssModuleParams).

(** An orderer (other than one for a checkpoint) delivered the data. *)
Definition ordered (ins : list iss_input) (sn : SeqNr) (data : bytes) (aborted : bool)
    (leader : NodeID) : Prop :=
  ∃ iid, IssInSBDeliver sn data aborted leader iid ∈ ins ∧ Sub (Sub iid) ≠ "chkp".
Definition verified (ins : list iss_input) (sn : SeqNr) (data : bytes) (leader : NodeID) : Prop :=
  IssInCertVerified true (mkVerifyCertContext sn data false leader) ∈ ins.

(** Why a decision is delivered as an empty certificate: the orderer aborted, the data does not
    decode, or the availability module rejected the certificate. *)
Definition refused (ins : list iss_input) (sn : SeqNr) (data : bytes) (aborted : bool) (leader : NodeID) : Prop :=
  aborted = true ∨ (∃ err, cert_Unmarshal data = Err err) ∨
  IssInCertVerified false (mkVerifyCertContext sn data false leader) ∈ ins.

Definition entry_ok (ins : list iss_input) (sn : SeqNr) (entry : CommitLogEntry) : Prop :=
  ∃ data aborted leader, ordered ins sn data aborted leader ∧
    if ce_Aborted entry then refused ins sn data aborted leader
    else aborted = false ∧ ce_CertData entry = data ∧ verified ins sn data leader.

Definition delivered_ok (ins : list iss_input) (sn : SeqNr) (cert : Cert) (empty : bool) : Prop :=
  ∃ data aborted leader, ordered ins sn data aborted leader ∧
    if empty then cert = CertMscs [] ∧ refused ins sn data aborted leader
    else aborted = false ∧ cert_Unmarshal data = Ok cert ∧ verified ins sn data leader.

Definition out_ok (ins : list iss_input) (ev : iss_event) : Prop :=
  match ev with
  | VerifyCertRequest _ _ ctx =>
      vc_aborted ctx = false ∧ ordered ins (vc_sn ctx) (vc_data ctx) false (vc_leader ctx)
  | DeliverCert _ sn cert empty => delivered_ok ins sn cert empty
  | _ => True
  end.

Definition app_inv (st : IssState) (out : list iss_event) : Prop :=
  match is_epoch st with
  | None => app_run out = Some None ∧ is_commitLog st = ∅ ∧ is_nextNewMembership st = None ∧
      is_nextDeliveredSN st = sc_Sn (is_lastStableCheckpoint st) ∧
      is_newEpochSN st = sc_Sn (is_lastStableCheckpoint st)
  | Some e => app_run out = Some (Some (mkApp (is_nextDeliveredSN st) (u64_succ (ei_nr e))
                (ei_firstSN e) (sc_Sn (is_lastStableCheckpoint st))))
  end.

Record IssInv (ins : list iss_input) (st : IssState) (out : list iss_event) : Prop := {
  ii_app : app_inv st out;
  ii_log : map_Forall (entry_ok ins) (is_commitLog st);
  ii_out : ∀ ev, ev ∈ out → out_ok ins ev;
  ii_memberships : Z.of_nat (length (is_memberships st)) = wrap_i64 (ConfigOffset params + 1);
  ii_first : ∀ e, is_epoch st = Some e → is_memberships st !! 0 = Some (ei_Membership e);
}.

(** Nothing is left to do: no entry waits that could be delivered, and the epoch is not over. *)
Definition quiet (st : IssState) : Prop :=
  ∀ e, is_epoch st = Some e →
    epochFinished st e = false ∧
    (hasEpochCheckpoint st e = true → is_commitLog st !! is_nextDeliveredSN st = None).

Lemma refused_mono ins ins' sn data aborted leader :
  ins ⊆ ins' → refused ins sn data aborted leader → refused ins' sn data aborted leader.
Proof. unfold refused. intros Hs [?|[?|?]]; auto. Qed.
Lemma entry_ok_mono ins ins' sn entry : ins ⊆ ins' → entry_ok ins sn entry → entry_ok ins' sn entry.
Proof.
  intros Hs (data & aborted & leader & (iid & ? & ?) & Hok). exists data, aborted, leader.
  split; [exists iid; auto|]. destruct (ce_Aborted entry); [by eapply refused_mono|].
  destruct Hok as (? & ? & ?). unfold verified in *. auto.
Qed.

Lemma out_ok_mono ins ins' ev : ins ⊆ ins' → out_ok ins ev → out_ok ins' ev.
Proof.
  intros Hs. destruct ev; simpl; try done.
  - intros (? & iid & ? & ?). split; [done|]. exists iid. auto.
  - intros (data & aborted & leader & (iid & ? & ?) & Hok). exists data, aborted, leader.
    split; [exists iid; auto|]. destruct empty; [destruct Hok; split; [done|by eapply refused_mono]|].
    destruct Hok as (? & ? & ?). unfold verified in *. auto.
Qed.

Lemma IssInv_mono ins ins' st out : ins ⊆ ins' → IssInv ins st out → IssInv ins' st out.
Proof.
  intros Hs [Ha Hl Ho Hm Hf]. split; try done.
  - intros sn entry He. by eapply entry_ok_mono, Hl.
  - intros ev He. by eapply out_ok_mono, Ho.
Qed.

Lemma wp_epoch (Q : epochInfo → IssState → list iss_event → Prop) st out :
  (∀ e, is_epoch st = Some e → Q e st out) → wp epoch Q st out.
Proof.
  intros H. unfold epoch. repeat wp_step. unfold deref in *. destruct (is_epoch st); simplify_eq. auto.
Qed.

Lemma IssInv_emit ins st out ev :
  IssInv ins st out → neutral ev → out_ok ins ev → IssInv ins st (out ++ [ev]).
Proof.
  intros [Ha Hl Ho Hm Hf] Hn Hok. split; try done.
  - unfold app_inv in *. destruct (is_epoch st); destruct_and?; split_and?; try done;
      by (apply app_run_neutral; [apply list.Forall_singleton|]).
  - intros ev' [?|[->|?%not_elem_of_nil]%elem_of_cons]%elem_of_app; [by apply Ho|done|done].
Qed.

(** Updates of fields the invariant does not mention. *)
Lemma IssInv_policy ins p st out : IssInv ins st out → IssInv ins (set_LeaderPolicy p st) out.
Proof. by intros [Ha Hl Ho Hm Hf]. Qed.
Lemma IssInv_nodeEpochMap ins m st out : IssInv ins st out → IssInv ins (set_nodeEpochMap m st) out.
Proof. by intros [Ha Hl Ho Hm Hf]. Qed.
Lemma IssInv_epochs ins m st out : IssInv ins st out → IssInv ins (set_epochs m st) out.
Proof. by intros [Ha Hl Ho Hm Hf]. Qed.
Lemma IssInv_pending ins n st out :
  IssInv ins st out → IssInv ins (set_lastPendingCheckpointSN n st) out.
Proof. by intros [Ha Hl Ho Hm Hf]. Qed.
Lemma IssInv_nextNew ins m st out e :
  is_epoch st = Some e → IssInv ins st out → IssInv ins (set_nextNewMembership m st) out.
Proof.
  intros He [Ha Hl Ho Hm Hf]. split; try done. unfold app_inv in *. simpl. by rewrite He in Ha |- *.
Qed.

(** *** Delivery *)
Definition same_epoch (st st' : IssState) : Prop :=
  is_epoch st' = is_epoch st ∧ is_newEpochSN st' = is_newEpochSN st ∧
  is_nextNewMembership st' = is_nextNewMembership st ∧
  is_lastStableCheckpoint st' = is_lastStableCheckpoint st ∧ is_memberships st' = is_memberships st.

Lemma suspect_wp ins leader st out :
  IssInv ins st out →
  wp (suspect leader) (λ _ st' out', IssInv ins st' out' ∧ same_epoch st st' ∧
    is_commitLog st' = is_commitLog st ∧ is_nextDeliveredSN st' = is_nextDeliveredSN st) st out.
Proof.
  intros Hi. unfold suspect. wp_step. apply wp_epoch. intros e He. wp_step.
  split_and!; try done. by apply IssInv_policy.
Qed.

Lemma deliver_entry_wp ins entry st out e :
  IssInv ins st out → is_epoch st = Some e → hasEpochCheckpoint st e = true →
  is_commitLog st !! is_nextDeliveredSN st = Some entry →
  wp (deliver_entry mc entry) (λ _ st' out', IssInv ins st' out' ∧ same_epoch st st' ∧
    is_commitLog st' = delete (is_nextDeliveredSN st) (is_commitLog st)) st out.
Proof.
  intros Hi He Hc Hentry. unfold deliver_entry. wp_step.
  assert (∀ cert st1 out1, IssInv ins st1 out1 → same_epoch st st1 →
    is_commitLog st1 = is_commitLog st → is_nextDeliveredSN st1 = is_nextDeliveredSN st →
    delivered_ok ins (is_nextDeliveredSN st) cert (ce_Aborted entry) →
    wp (st ← get; emit (DeliverCert (mc_App mc) (is_nextDeliveredSN st) cert (ce_Aborted entry));;
        modify (set_commitLog (delete (is_nextDeliveredSN st) (is_commitLog st)));;
        modify (set_nextDeliveredSN (u64_succ (is_nextDeliveredSN st))))
      (λ _ st' out', IssInv ins st' out' ∧ same_epoch st st' ∧
         is_commitLog st' = delete (is_nextDeliveredSN st) (is_commitLog st)) st1 out1) as Hrest.
  { intros cert st1 out1 [Ha Hl Ho Hm Hf] Hse Hlog Hnext Hd. repeat wp_step. split_and!.
    2: by destruct Hse as (? & ? & ? & ? & ?). 2: by rewrite <- Hlog, <- Hnext.
    destruct Hse as (He1 & _ & _ & Hs1 & _). split; simpl; try done.
    - unfold app_inv in *. simpl. rewrite He1, He in Ha |- *. rewrite app_run_snoc, Ha. simpl.
      rewrite bool_decide_eq_true_2 by done. rewrite bool_decide_eq_true_2; [done|].
      rewrite Hs1. by apply bool_decide_eq_true in Hc.
    - intros sn en Hsn. apply lookup_delete_Some in Hsn as [_ Hsn]. by apply Hl.
    - intros ev [?|[->|?%not_elem_of_nil]%elem_of_cons]%elem_of_app; [by apply Ho| |done].
      simpl. by rewrite Hnext. }
  destruct (ii_log _ _ _ Hi _ _ Hentry) as (data & aborted & leader & Hord & Hok).
  destruct (ce_Aborted entry) eqn:Hab.
  - wp_step. eapply wp_mono; [by apply suspect_wp|]. intros [] st1 out1 (Hi1 & Hse & Hl1 & Hn1).
    wp_step.
    apply Hrest; try done. exists data, aborted, leader. done.
  - wp_step. apply Hrest; try done. exists data, aborted, leader. split; [done|].
    destruct Hok as (-> & <- & ?). done.
Qed.

#[local] Instance same_epoch_trans : Transitive same_epoch.
Proof.
  intros st1 st2 st3. unfold same_epoch. intros (-> & -> & -> & -> & ->). done.
Qed.

Lemma hasEpochCheckpoint_same st st' e :
  same_epoch st st' → hasEpochCheckpoint st' e = hasEpochCheckpoint st e.
Proof. unfold hasEpochCheckpoint. by intros (_ & _ & _ & -> & _). Qed.

(** The loop ends because no entry is left for the next sequence number. *)
Lemma deliver_loop_wp ins fuel st out e :
  IssInv ins st out → is_epoch st = Some e → hasEpochCheckpoint st e = true →
  size (is_commitLog st) ≤ fuel →
  wp (deliver_loop mc fuel) (λ _ st' out', IssInv ins st' out' ∧ same_epoch st st' ∧
    is_commitLog st' !! is_nextDeliveredSN st' = None) st out.
Proof.
  revert st out. induction fuel as [|fuel IH]; intros st out Hi He Hc Hf; cbn [deliver_loop].
  { wp_step. split_and!; [done..|]. assert (is_commitLog st = ∅) as ->; [|done].
    apply map_size_empty_inv. lia. }
  do 2 wp_step. destruct (is_commitLog st !! is_nextDeliveredSN st) as [entry|] eqn:Hn.
  2:{ by wp_step. }
  wp_step. eapply wp_mono; [by eapply deliver_entry_wp|]. intros [] st1 out1 (Hi1 & Hse & Hl1).
  eapply wp_mono; [eapply IH; [done| | |]|].
  - by rewrite (proj1 Hse).
  - by rewrite (hasEpochCheckpoint_same _ _ _ Hse).
  - rewrite Hl1, map_size_delete, Hn. simpl. lia.
  - intros [] st2 out2 (? & ? & ?). split_and!; [done|by etrans|done].
Qed.

(** *** Epochs *)
Lemma start_events_neutral nr mb segs :
  Forall neutral (tail (start_events mc params nr mb segs)) ∧
  ∀ ins, Forall (out_ok ins) (start_events mc params nr mb segs).
Proof.
  unfold start_events. split; [|intros ins]; simpl; rewrite !list.Forall_cons; split_and?; try done;
    apply list.Forall_forall; intros ev (i & seg & -> & _)%elem_of_lookup_imap; done.
Qed.

(** Starting an epoch, given that the application expects it. *)
Lemma startEpoch_inv ins rng nr st out first chkp :
  app_run out = Some (Some (mkApp (is_nextDeliveredSN st) nr first chkp)) →
  chkp = sc_Sn (is_lastStableCheckpoint st) →
  is_nextDeliveredSN st = is_newEpochSN st →
  map_Forall (entry_ok ins) (is_commitLog st) → (∀ ev, ev ∈ out → out_ok ins ev) →
  Z.of_nat (length (is_memberships st)) = wrap_i64 (ConfigOffset params + 1) →
  wp (startEpoch mc params rng nr) (λ _ st' out', IssInv ins st' out' ∧ same_log st st' ∧
    ∃ e, is_epoch st' = Some e ∧ ei_nr e = nr) st out.
Proof.
  intros Ha -> Hn Hl Ho Hm. eapply wp_mono; [apply startEpoch_wp|].
  intros [] st' out' (mb & leaders & Hmb & _ & He & _ & Hs & ->).
  destruct (start_events_neutral nr mb (epoch_segments params mb (is_nextDeliveredSN st) leaders)) as [Hneu Hok].
  set (segs := epoch_segments _ _ _ _) in *. split_and!; [|done|by eexists].
  pose proof Hs as (Hs1 & Hs2 & Hs3 & Hs4 & Hs5 & Hs6). split.
  - unfold app_inv. rewrite He. simpl. unfold start_events in Hneu |- *. simpl in Hneu |- *.
    rewrite cons_middle, (assoc_L (++)). apply app_run_neutral; [done|].
    rewrite app_run_snoc, Ha. simpl. rewrite bool_decide_eq_true_2 by done. by rewrite Hs4, Hs5, Hn.
  - by rewrite Hs3.
  - intros ev [?|Hev]%elem_of_app; [by apply Ho|].
    specialize (Hok ins). rewrite list.Forall_forall in Hok. by apply Hok.
  - by rewrite Hs1.
  - intros e. rewrite He, Hs1. intros [= <-]. done.
Qed.

Lemma quiet_after_start st st' :
  same_log st st' → is_nextNewMembership st = None → is_commitLog st !! is_nextDeliveredSN st = None →
  quiet st'.
Proof.
  intros (_ & Hnn & Hlog & Hnext & _) Hnew Hl e He. unfold epochFinished. rewrite Hnn, Hnew, Hlog, Hnext.
  split; [|done]. by rewrite (bool_decide_eq_false_2 (is_Some (A := Membership) None)), andb_false_r by by intros [? ?].
Qed.

Lemma advanceEpoch_wp ins rng st out e :
  IssInv ins st out → is_epoch st = Some e → epochFinished st e = true →
  is_commitLog st !! is_nextDeliveredSN st = None →
  wp (advanceEpoch ownID mc params rng) (λ _ st' out', IssInv ins st' out' ∧ quiet st') st out.
Proof.
  intros Hi He Hfin Hl. unfold advanceEpoch. wp_step. apply wp_epoch. rewrite He. intros ? [= <-].
  repeat wp_step. rename a into oldMembership.
  apply index_lookup in Hlift as [_ Hold]. unfold deref in Hlift0.
  destruct (is_nextNewMembership st) as [nn|] eqn:Hnn; [|done].
  injection Hlift0 as <-. clear Hlift1.
  eapply wp_mono; [eapply (startEpoch_inv ins _ _ _ _ (ei_firstSN e)); simpl|].
  - pose proof (ii_app _ _ _ Hi) as Ha. unfold app_inv in Ha. rewrite He in Ha. exact Ha.
  - done.
  - unfold epochFinished in Hfin. rewrite !andb_true_iff, !bool_decide_eq_true in Hfin. tauto.
  - apply Hi.
  - apply Hi.
  - rewrite <- (ii_memberships _ _ _ Hi). destruct (is_memberships st); [done|].
    rewrite length_app. simpl. lia.
  - intros [] st' out' (Hi' & Hs & e' & He' & Hnr). wp_step. apply wp_epoch. intros ? ?.
    repeat wp_step. split; [by apply IssInv_emit; [apply IssInv_emit|..]|].
    eapply quiet_after_start; [exact Hs|done|exact Hl].
Qed.

Lemma processCommitted_wp ins rng st out :
  IssInv ins st out →
  wp (processCommitted ownID mc params rng) (λ _ st' out', IssInv ins st' out' ∧ quiet st') st out.
Proof.
  intros Hi. unfold processCommitted. do 3 wp_step. apply wp_epoch. intros e He. wp_step.
  { wp_step. split; [done|]. intros e'. rewrite He. intros [= <-].
    unfold epochFinished. apply negb_true_iff in Heqb. rewrite Heqb, andb_false_r. done. }
  apply negb_false_iff in Heqb. wp_step. eapply wp_mono; [by eapply deliver_loop_wp|].
  intros [] st1 out1 (Hi1 & Hse & Hl1). do 2 wp_step. pose proof Hse as (He1 & _). rewrite He in He1.
  destruct (epochFinished st1 e) eqn:Hfin; [by eapply advanceEpoch_wp|].
  wp_step. split; [done|]. intros e'. rewrite He1. intros [= <-]. done.
Qed.

Lemma deliverCert_wp ins rng sn data aborted leader st out :
  IssInv ins st out →
  (∀ digest, entry_ok ins sn (mkCommitLogEntry sn data digest aborted leader)) →
  wp (deliverCert ownID mc params rng sn data aborted leader)
    (λ _ st' out', IssInv ins st' out' ∧ quiet st') st out.
Proof.
  intros [Ha Hl Ho Hm Hf] Hok. unfold deliverCert. do 2 wp_step.
  destruct (is_epoch st) as [e|] eqn:He.
  - apply processCommitted_wp. unfold app_inv in *. split; simpl; try done.
    + unfold app_inv. simpl. by rewrite He in Ha |- *.
    + by apply map_Forall_insert_2.
    + intros e' He'. apply Hf. by rewrite <- He, <- He'.
  - unfold processCommitted. do 3 wp_step. apply wp_epoch. simpl. congruence.
Qed.

(** *** Handlers *)
Lemma no_restore out a :
  app_run out = Some (Some a) → ∃ dest chkp, RestoreState dest chkp ∈ out.
Proof.
  revert a. induction out as [|ev out IH] using rev_ind; [done|]. intros a. rewrite app_run_snoc.
  destruct (app_run out) as [[a'|]|] eqn:Hr; simpl; [..|done].
  - intros _. destruct (IH a' eq_refl) as (dest & chkp & ?). exists dest, chkp. set_solver.
  - destruct ev; simpl; try done. intros _. exists dest, chkp. set_solver.
Qed.

Lemma quiet_same st st' :
  is_epoch st' = is_epoch st → same_log st st' → is_newEpochSN st' = is_newEpochSN st →
  quiet st → quiet st'.
Proof.
  intros He (_ & H2 & H3 & H4 & H5 & _) Hn Hq e. rewrite He. intros Hse.
  specialize (Hq e Hse). unfold epochFinished, hasEpochCheckpoint in *. by rewrite H2, H3, H4, H5, Hn.
Qed.

Lemma IssInv_prune ins modules r st out :
  IssInv ins st out → quiet st →
  wp (prune modules r) (λ _ st' out', IssInv ins st' out' ∧ quiet st') st out.
Proof.
  intros Hi Hq.
  apply (keeps_for (λ st out, IssInv ins st out ∧ quiet st) modules); [|done].
  intros m _. apply keeps_emit. intros s o [? ?]. split; [by apply IssInv_emit|done].
Qed.

Lemma UponInit_wp ins rng st out :
  IssInv ins st out → is_epoch st = None →
  wp (UponInit mc params rng) (λ _ st' out', IssInv ins st' out' ∧ quiet st') st out.
Proof.
  intros [Ha Hl Ho Hm Hf] He. unfold app_inv in Ha. rewrite He in Ha. destruct Ha as (Hr & Hlog & Hnn & Hn & Hne).
  unfold UponInit. repeat wp_step. rename a into nr.
  eapply wp_mono; [eapply (startEpoch_inv ins); [|reflexivity|..]|].
  - rewrite app_run_snoc, Hr. simpl. by rewrite Hlift, Hn.
  - congruence.
  - done.
  - intros ev [?|[->|?%not_elem_of_nil]%elem_of_cons]%elem_of_app; [by apply Ho|done|done].
  - done.
  - intros [] st' out' (Hi & Hs & _). split; [done|].
    eapply quiet_after_start; [exact Hs|done|by rewrite Hlog].
Qed.

(** A checkpoint given to the application. *)
Lemma IssInv_checkpoint ins st out e chkp dest snapshot cert :
  IssInv ins st out → is_epoch st = Some e →
  (sc_Sn (is_lastStableCheckpoint st) ≤ sc_Sn chkp)%N →
  IssInv ins (set_lastStableCheckpoint chkp st) (out ++ [AppCheckpoint dest (sc_Sn chkp) snapshot cert]).
Proof.
  intros [Ha Hl Ho Hm Hf] He Hle. split; simpl; try done.
  - unfold app_inv in *. simpl. rewrite He in Ha |- *. rewrite app_run_snoc, Ha. simpl.
    by rewrite bool_decide_eq_true_2.
  - intros ev [?|[->|?%not_elem_of_nil]%elem_of_cons]%elem_of_app; [by apply Ho|done|done].
Qed.

Lemma deliverCommonCheckpoint_wp ins rng data st out :
  IssInv ins st out → quiet st →
  wp (deliverCommonCheckpoint ownID mc params rng data)
    (λ _ st' out', IssInv ins st' out' ∧ quiet st') st out.
Proof.
  intros Hi Hq. unfold deliverCommonCheckpoint.
  destruct (Chkp.Deserialize data) as [chkp| |]; [|by wp_step..]. do 2 wp_step. wp_step.
  { by wp_step. }
  apply bool_decide_eq_false in Heqb. wp_step. apply wp_epoch. intros e He.
  do 9 wp_step. eapply wp_mono.
  { apply (processCommitted_wp ins). eapply (IssInv_checkpoint _ _ _ _ chkp); [done..|].
    unfold Chkp.SeqNr_of in Heqb. lia. }
  intros [] st1 out1 [Hi1 Hq1]. wp_step; [|by wp_step].
  wp_step. eapply wp_mono; [by apply IssInv_prune|]. intros [] st2 out2 [Hi2 Hq2].
  repeat wp_step. split.
  - apply IssInv_emit; [|done..]. apply IssInv_epochs. by apply IssInv_emit.
  - by eapply quiet_same; [..|exact Hq2].
Qed.

Lemma SyntacticCheck_memberships chkp off memberships :
  Chkp.SyntacticCheck chkp off = Ok tt → Chkp.Memberships chkp = Ok memberships →
  Z.of_nat (length (default [] memberships)) = wrap_i64 (off + 1).
Proof.
  unfold Chkp.SyntacticCheck, Chkp.Memberships, Chkp.epoch_config, Chkp.epoch_data, Chkp.StateSnapshot_of.
  destruct (sc_Snapshot chkp) as [s|]; [|done]. simpl. destruct (ss_EpochData s) as [d|]; [|done]. simpl.
  destruct (ed_EpochConfig d) as [c|]; [|done]. simpl. destruct (ec_Memberships c) as [l|]; [|done].
  case_bool_decide as H; [done|]. intros _ [= <-]. done.
Qed.

Lemma UponCheckpointValidated_wp ins rng err chkp st out :
  IssInv ins st out → quiet st → (err = false → Chkp.SyntacticCheck chkp (ConfigOffset params) = Ok tt) →
  wp (UponCheckpointValidated mc params rng err chkp)
    (λ _ st' out', IssInv ins st' out' ∧ quiet st') st out.
Proof.
  intros Hi Hq Hc. unfold UponCheckpointValidated. destruct err; [by wp_step|].
  specialize (Hc eq_refl). do 2 wp_step. rename a into nr. wp_step. apply wp_epoch. intros e He.
  wp_step; [by wp_step|]. do 2 wp_step.
  destruct (Policy.LeaderPolicyFromBytes _) as [policy| |]; [|by wp_step..].
  do 7 wp_step. eapply wp_mono.
  { eapply (startEpoch_inv ins); simpl; [|reflexivity|done..| |].
    - rewrite app_run_snoc. pose proof (ii_app _ _ _ Hi) as Ha. unfold app_inv in Ha. rewrite He in Ha.
      rewrite Ha. simpl. rewrite Hlift. done.
    - intros ev [?|[->|?%not_elem_of_nil]%elem_of_cons]%elem_of_app; [by apply Hi|done|done].
    - by eapply SyntacticCheck_memberships. }
  intros [] st1 out1 (Hi1 & Hs & e1 & He1 & _). repeat wp_step.
  pose proof Hs as (_ & _ & _ & _ & Hst & _). simpl in Hst.
  apply IssInv_prune; [|by eapply quiet_after_start].
  replace st1 with (set_lastStableCheckpoint chkp st1) by (destruct st1; simpl in *; by subst).
  eapply IssInv_checkpoint; [done|done|]. by rewrite Hst.
Qed.

Lemma iss_apply_wp ins rng i st out :
  IssInv ins st out → quiet st → iss_answers params out i →
  wp (iss_apply ownID mc params rng i)
    (λ _ st' out', IssInv (ins ++ [i]) st' out' ∧ quiet st') st out.
Proof.
  intros Hi0 Hq Hans.
  assert (IssInv (ins ++ [i]) st out) as Hi by (eapply IssInv_mono; [|exact Hi0]; set_solver).
  destruct i as [|sn data aborted leader iid|valid ctx|nr mb|id nr|sn snapshot cert| |id sn snapshot cert|err chkp];
    simpl in *.
  - apply UponInit_wp; [done|]. pose proof (ii_app _ _ _ Hi) as Ha. unfold app_inv in Ha.
    destruct (is_epoch st); [|done]. apply no_restore in Ha as (dest & chkp & ?). by destruct (Hans dest chkp).
  - unfold UponSBDeliver. case_bool_decide as Hchkp; [by apply deliverCommonCheckpoint_wp|].
    assert (ordered (ins ++ [IssInSBDeliver sn data aborted leader iid]) sn data aborted leader) as Hord
      by (exists iid; set_solver).
    destruct aborted; [apply deliverCert_wp; [done|]; intros digest; exists data, true, leader; by split; [|left]|].
    unfold verifyCert. destruct (cert_Unmarshal data) as [cert|err|] eqn:Hdec; [| |by wp_step].
    + wp_step. apply wp_epoch. intros e He. wp_step. split; [|done]. by apply IssInv_emit.
    + wp_step. eapply wp_mono; [by apply suspect_wp|]. intros [] st1 out1 (Hi1 & _).
      apply deliverCert_wp; [done|]. intros digest. exists data, false, leader. split; [done|]. right. left. by exists err.
  - destruct Hans as (dest & cert & Hreq). destruct (ii_out _ _ _ Hi _ Hreq) as [Hab Hord].
    unfold UponCertVerified. wp_step. destruct valid; simpl.
    + wp_step. apply deliverCert_wp; [done|]. intros digest.
      exists (vc_data ctx), false, (vc_leader ctx). split; [done|]. rewrite Hab. split_and!; [done..|].
      unfold verified. destruct ctx; simpl in *. subst. set_solver.
    + wp_step. eapply wp_mono; [by apply suspect_wp|]. intros [] st1 out1 (Hi1 & _). wp_step.
      apply deliverCert_wp; [done|]. intros digest. exists (vc_data ctx), false, (vc_leader ctx).
      split; [done|]. right. right. destruct ctx; simpl in *. subst. set_solver.
  - unfold UponNewConfig. wp_step. apply wp_epoch. intros e He. do 2 wp_step. wp_step; [by wp_step|].
    destruct (is_nextNewMembership st) eqn:Hnn; [by wp_step|]. do 4 wp_step. wp_step.
    + eapply advanceEpoch_wp; [by eapply IssInv_nextNew|done..|]. simpl.
      apply (Hq e He). unfold epochFinished in Heqb0. rewrite !andb_true_iff in Heqb0. by destruct Heqb0 as [[_ ?] _].
    + wp_step. split; [by eapply IssInv_nextNew|]. intros e'. simpl. rewrite He. intros [= <-]. split; [done|]. apply (Hq e He).
  - unfold UponEpochProgress. repeat wp_step; [|done]. split; [by apply IssInv_nodeEpochMap|].
    by eapply quiet_same; [..|exact Hq].
  - unfold UponStableCheckpoint. do 2 wp_step. wp_step; [by wp_step|]. do 6 wp_step. wp_step.
    apply wp_epoch. intros e He. repeat wp_step. split.
    + apply IssInv_emit; [|done..]. apply IssInv_emit; [|done..]. by apply IssInv_pending.
    + by eapply quiet_same; [..|exact Hq].
  - unfold UponPushCheckpoint. do 9 wp_step. wp_step.
    + wp_step. apply wp_epoch. intros e He. repeat wp_step. split; [by apply IssInv_emit|done].
    + repeat wp_step. split; [by apply IssInv_emit|done].
  - unfold UponStableCheckpointReceived. do 2 wp_step. wp_step. apply wp_epoch. intros e He.
    do 2 wp_step. wp_step; wp_step; [done|]. split; [by apply IssInv_emit|done].
  - apply UponCheckpointValidated_wp; [done..|]. apply Hans.
Qed.
End invariant.

(** ** Runs *)
Section runs.
Context {cbor : Cbor} {codec : ChkpCodec} {himpl : HashImpl} {sigs : Verifier} {certs : CertCodec}.
Context (ownID : NodeID) (mc : IssModuleConfig) (params : IssModuleParams).

Lemma New_inv rng chkp st :
  New params rng chkp = Ok st → IssInv params [] st [] ∧ quiet st ∧ is_epoch st = None.
Proof.
  unfold New. destruct (IssConf.CheckParams params) as [[]| |]; [|done..]. intros H. outcome_inv.
  destruct (Policy.LeaderPolicyFromBytes _) as [policy| |]; [|done..]. outcome_inv.
  split_and!; [|done|done]. split; simpl; try done.
  - set_solver.
  - unfold Chkp.Verify in Hr0. outcome_inv. destruct r2. by eapply SyntacticCheck_memberships.
Qed.

(** The runs of the module started from a checkpoint. *)
Definition iss_run (chkp : StableCheckpoint) (st : IssState) (ins : list iss_input)
    (out : list iss_event) : Prop :=
  ∃ rng st0, New params rng chkp = Ok st0 ∧
    reach (iss_apply ownID mc params) (iss_answers params) st0 st ins out.

Lemma iss_run_inv chkp st ins out :
  iss_run chkp st ins out → IssInv params ins st out ∧ quiet st.
Proof.
  intros (rng & st0 & (H0 & Hq & _)%New_inv & Hr). revert st ins out Hr.
  apply (reach_invariant _ _ _ (λ st ins out, IssInv params ins st out ∧ quiet st)); [done|].
  intros s ins out r i [Hi Hqs] Ha. by apply iss_apply_wp.
Qed.
End runs.

(** C11 (refinement).  In every run, whatever the inputs, the events ISS sends to the
    application follow the application's contract [app_run]: after the restored checkpoint, epochs
    are announced one by one, certificates come in sequence number order without gaps or
    repetitions and only once the checkpoint of their epoch was given, and checkpoints do not go
    back.  What the application expects next is what ISS has in its state. *)
Theorem application_contract {cbor : Cbor} {codec : ChkpCodec} {himpl : HashImpl}
    {sigs : Verifier} {certs : CertCodec} ownID mc params chkp st ins out :
  iss_run ownID mc params chkp st ins out →
  app_run out = Some (e ← is_epoch st;
    Some (mkApp (is_nextDeliveredSN st) (u64_succ (ei_nr e)) (ei_firstSN e)
            (sc_Sn (is_lastStableCheckpoint st)))).
Proof.
  intros [Hi _]%iss_run_inv. pose proof (ii_app _ _ _ _ Hi) as Ha. unfold app_inv in Ha.
  destruct (is_epoch st); simpl; tauto.
Qed.

(** C12 (safety).  A certificate delivered to the application was ordered and verified: an orderer
    other than one agreeing on a checkpoint delivered its data at this sequence number without
    aborting, the data decodes to the certificate, and the availability module found it valid.
    An empty certificate is delivered only for a sequence number some orderer delivered, when it
    aborted, its data does not decode, or the availability module found the certificate invalid. *)
Theorem delivered_certificates_verified {cbor : Cbor} {codec : ChkpCodec} {himpl : HashImpl}
    {sigs : Verifier} {certs : CertCodec} ownID mc params chkp st ins out dest sn cert empty :
  iss_run ownID mc params chkp st ins out →
  DeliverCert dest sn cert empty ∈ out →
  ∃ data aborted leader iid,
    IssInSBDeliver sn data aborted leader iid ∈ ins ∧ Sub (Sub iid) ≠ "chkp" ∧
    if empty then
      cert = CertMscs [] ∧
      (aborted = true ∨ (∃ err, cert_Unmarshal data = Err err) ∨
       IssInCertVerified false (mkVerifyCertContext sn data false leader) ∈ ins)
    else aborted = false ∧ cert_Unmarshal data = Ok cert ∧
         IssInCertVerified true (mkVerifyCertContext sn data false leader) ∈ ins.
Proof.
  intros [Hi _]%iss_run_inv Hd.
  destruct (ii_out _ _ _ _ Hi _ Hd) as (data & aborted & leader & (iid & ? & ?) & ?). eauto 10.
Qed.

(** C13 (liveness).  No wake-up is lost, in whatever order decisions, checkpoints, verification
    results and new configurations arrive: between inputs the current epoch is never finished
    (delivered to its end, with its checkpoint stable and the next membership known), as ISS
    moves to the next epoch at once; and once the epoch's checkpoint is stable, no committed entry
    is left that could be delivered. *)
Theorem no_lost_wakeup {cbor : Cbor} {codec : ChkpCodec} {himpl : HashImpl}
    {sigs : Verifier} {certs : CertCodec} ownID mc params chkp st ins out e :
  iss_run ownID mc params chkp st ins out → is_epoch st = Some e →
  ¬ (is_nextDeliveredSN st = is_newEpochSN st ∧
     sc_Sn (is_lastStableCheckpoint st) = ei_firstSN e ∧ is_Some (is_nextNewMembership st)) ∧
  (sc_Sn (is_lastStableCheckpoint st) = ei_firstSN e →
     is_commitLog st !! is_nextDeliveredSN st = None).
Proof.
  intros [_ Hq]%iss_run_inv He. destruct (Hq e He) as [Hf Hc].
  unfold epochFinished, hasEpochCheckpoint, Chkp.SeqNr_of, FirstSN in *. split.
  - intros (H1 & H2 & H3). rewrite !bool_decide_eq_true_2 in Hf by done. done.
  - intros Hs. apply Hc. by apply bool_decide_eq_true.
Qed.

(** ** The delivery loop *)
Section loop.
Context {cbor : Cbor} {codec : ChkpCodec} {himpl : HashImpl} {sigs : Verifier} {certs : CertCodec}.
Context (mc : IssModuleConfig).

Lemma deliver_entry_eq entry st st' es :
  deliver_entry mc entry st = Ok (tt, st', es) →
  is_commitLog st' = delete (is_nextDeliveredSN st) (is_commitLog st) ∧
  is_nextDeliveredSN st' = u64_succ (is_nextDeliveredSN st) ∧
  ∃ cert, es = [DeliverCert (mc_App mc) (is_nextDeliveredSN st) cert (ce_Aborted entry)].
Proof.
  intros H. assert (wp (deliver_entry mc entry) (λ _ s o,
    is_commitLog s = delete (is_nextDeliveredSN st) (is_commitLog st) ∧
    is_nextDeliveredSN s = u64_succ (is_nextDeliveredSN st) ∧
    ∃ cert, o = [DeliverCert (mc_App mc) (is_nextDeliveredSN st) cert (ce_Aborted entry)]) st [])
    as Hwp; [|exact (wp_Ok _ _ _ _ _ _ _ Hwp H)].
  unfold deliver_entry, suspect, epoch. destruct (ce_Aborted entry); repeat wp_step; simpl; eauto.
Qed.

Lemma deliver_loop_fuel f1 f2 st :
  size (is_commitLog st) ≤ f1 → size (is_commitLog st) ≤ f2 → deliver_loop mc f1 st = deliver_loop mc f2 st.
Proof.
  revert f2 st. induction f1 as [|f1 IH]; intros f2 st H1 H2.
  - destruct f2 as [|f2]; [done|]. cbn [deliver_loop]. unfold mbind, M_bind, get at 1.
    assert (is_commitLog st = ∅) as -> by (apply map_size_empty_inv; lia). done.
  - destruct f2 as [|f2].
    { cbn [deliver_loop]. unfold mbind, M_bind, get at 1.
      assert (is_commitLog st = ∅) as -> by (apply map_size_empty_inv; lia). done. }
    cbn [deliver_loop]. unfold mbind, M_bind, get. 
    destruct (is_commitLog st !! is_nextDeliveredSN st) as [entry|] eqn:Hn; [|done].
    destruct (deliver_entry mc entry st) as [[[[] st1] es]| |] eqn:Hd; [|done..].
    apply deliver_entry_eq in Hd as (Hl & _). rewrite (IH f2); [done|..];
      rewrite Hl, map_size_delete, Hn; simpl; lia.
Qed.

(** The sequence numbers of the delivered certificates. *)
Definition delivered_sns (es : list iss_event) : list SeqNr :=
  omap (λ ev, match ev with DeliverCert _ sn _ _ => Some sn | _ => None end) es.

Lemma deliver_loop_run fuel st st' es :
  size (is_commitLog st) ≤ fuel → deliver_loop mc fuel st = Ok (tt, st', es) →
  is_commitLog st' !! is_nextDeliveredSN st' = None ∧
  ∃ k, delivered_sns es = (λ j, Nat.iter j u64_succ (is_nextDeliveredSN st)) <$> seq 0 k ∧
    is_nextDeliveredSN st' = Nat.iter k u64_succ (is_nextDeliveredSN st) ∧
    ∀ j, j < k → is_Some (is_commitLog st !! Nat.iter j u64_succ (is_nextDeliveredSN st)).
Proof.
  revert st es. induction fuel as [|fuel IH]; intros st es Hf.
  { intros [= <- <-]. assert (is_commitLog st = ∅) as Hl by (apply map_size_empty_inv; lia).
    rewrite Hl. split; [done|]. exists 0. split_and!; [done..|lia]. }
  cbn [deliver_loop]. unfold mbind, M_bind, get.
  destruct (is_commitLog st !! is_nextDeliveredSN st) as [entry|] eqn:Hn.
  2:{ intros [= <- <-]. split; [done|]. exists 0. split_and!; [done..|lia]. }
  destruct (deliver_entry mc entry st) as [[[[] st1] es1]| |] eqn:Hd; [|done..].
  apply deliver_entry_eq in Hd as (Hl & Hnext & cert & ->).
  destruct (deliver_loop mc fuel st1) as [[[[] st2] es2]| |] eqn:Hr; [|done..]. intros [= <- <-].
  destruct (IH st1 es2) as (Hnone & k & Hsns & Hn2 & Hk); [rewrite Hl, map_size_delete, Hn; simpl; lia|done|].
  rewrite Hnext in Hsns, Hn2, Hk. split; [done|]. exists (S k). split_and!.
  - simpl. f_equal. rewrite Hsns, <- fmap_S_seq, <- list_fmap_compose. apply list_fmap_ext.
    intros i j _. simpl. by rewrite Nat.iter_swap.
  - by rewrite Hn2, <- Nat.iter_succ_r.
  - intros [|j] Hj; [simpl; rewrite Hn; by eexists|]. rewrite Nat.iter_succ_r.
    destruct (Hk j) as [en Hen]; [lia|]. rewrite Hl in Hen. apply lookup_delete_Some in Hen as [_ ?]. by eexists.
Qed.
End loop.

(** The loop that delivers committed entries ends after at most as many
    iterations as there are entries, more fuel changes nothing, and when it ends it has delivered
    the whole run of consecutive entries from the next sequence number on, in order, up to the
    first missing one. *)
Theorem delivery_loop_terminates {cbor : Cbor} {codec : ChkpCodec} {himpl : HashImpl}
    {sigs : Verifier} {certs : CertCodec} mc fuel st :
  size (is_commitLog st) ≤ fuel →
  deliver_loop mc fuel st = deliver_loop mc (size (is_commitLog st)) st ∧
  ∀ st' es, deliver_loop mc fuel st = Ok (tt, st', es) →
    is_commitLog st' !! is_nextDeliveredSN st' = None ∧
    ∃ k, delivered_sns es = (λ j, Nat.iter j u64_succ (is_nextDeliveredSN st)) <$> seq 0 k ∧
      is_nextDeliveredSN st' = Nat.iter k u64_succ (is_nextDeliveredSN st) ∧
      ∀ j, j < k → is_Some (is_commitLog st !! Nat.iter j u64_succ (is_nextDeliveredSN st)).
Proof.
  intros Hf. split; [by apply deliver_loop_fuel|]. intros st' es. by apply deliver_loop_run.
Qed.
