(* ===== verification/IssRuns.v ===== *)
(** * ISS over several epochs: the membership pipeline, the start, and concrete runs

    Which membership an epoch uses is fixed [ConfigOffset + 1] epochs ahead; a node configured
    with valid parameters starts from the genesis checkpoint; and runs of the module with toy
    instances of the codecs, which witness the theorems and show a limit. *)
From Stdlib Require Import ZArith Lia Ascii.
From stdpp Require Import prelude gmap strings list sorting fin_maps numbers.
From S2P Require Import Prelude Util Membership PbftTypes LeaderSelection IssConfig Orderer.
From S2P Require Import ClientProgress ModuleRuns Checkpoint CheckpointProtocol Iss IssProps.
Import Maputil ModuleID EpochInfo ISS.

(** ** The membership pipeline *)

(** The memberships known for the current epoch and the following ones, in order. *)
Definition pipeline (st : IssState) : list Membership :=
  is_memberships st ++ option_list (is_nextNewMembership st).

Section pipeline.
Context {cbor : Cbor} {codec : ChkpCodec} {himpl : HashImpl} {sigs : Verifier} {certs : CertCodec}.
Context (ownID : NodeID) (mc : IssModuleConfig) (params : IssModuleParams).
(** The epoch and the pipeline to compare with. *)
Context (nr0 : EpochNr) (p0 : list Membership) (n0 : nat).

(** [d] epochs later, what was planned is still planned. *)
Definition on_course (st : IssState) : Prop :=
  ∃ e d, is_epoch st = Some e ∧ ei_nr e = Nat.iter d u64_succ nr0 ∧
    drop d p0 `prefix_of` pipeline st ∧
    is_memberships st !! 0 = Some (ei_Membership e) ∧ length (is_memberships st) = n0.

(** Unless the state was replaced by a checkpoint. *)
Definition restored (out : list iss_event) : Prop := ∃ dest chkp, RestoreState dest chkp ∈ out.
Definition PipeInv (st : IssState) (out : list iss_event) : Prop := restored out ∨ on_course st.

Lemma restored_app out es : restored out → restored (out ++ es).
Proof. intros (dest & chkp & ?). exists dest, chkp. set_solver. Qed.

Lemma pipe_emit ev : keeps PipeInv (emit ev).
Proof. apply keeps_emit. intros st out [?|?]; [by left; apply restored_app|by right]. Qed.

(** Updates that leave the epoch and the memberships alone. *)
Lemma pipe_modify f :
  (∀ st, is_epoch (f st) = is_epoch st ∧ is_memberships (f st) = is_memberships st ∧
         is_nextNewMembership (f st) = is_nextNewMembership st) → keeps PipeInv (modify f).
Proof.
  intros Hf. apply keeps_modify. intros st out [?|(e & d & ? & ? & ? & ? & ?)]; [by left|right].
  destruct (Hf st) as (He & Hm & Hn). exists e, d. unfold pipeline in *. by rewrite He, Hm, Hn.
Qed.

Lemma pipe_epoch : keeps PipeInv epoch.
Proof. unfold epoch. repeat keeps_step. Qed.

Lemma pipe_prune modules r : keeps PipeInv (prune modules r).
Proof. unfold prune. repeat keeps_step. apply pipe_emit. Qed.

Lemma drop_S_tail {A} d (l : list A) : drop (S d) l = tail (drop d l).
Proof. revert l. induction d as [|d IH]; intros [|x l]; try done. apply IH. Qed.

Lemma prefix_tail {A} (x : A) l k : l `prefix_of` x :: k → tail l `prefix_of` k.
Proof. destruct l as [|y l]; [intros _; apply prefix_nil|]. by intros ?%prefix_cons_inv_2. Qed.

(** Commands that only emit and update other fields. *)
Ltac pipe := repeat first [apply pipe_emit | apply pipe_prune | apply pipe_epoch | apply pipe_modify; done | keeps_step].

Lemma pipe_suspect leader : keeps PipeInv (suspect leader).
Proof. unfold suspect. pipe. Qed.

Lemma pipe_loop fuel : keeps PipeInv (deliver_loop mc fuel).
Proof.
  induction fuel as [|fuel IH]; cbn [deliver_loop]; unfold deliver_entry; pipe;
    first [apply pipe_suspect | exact IH | idtac].
Qed.

Lemma pipe_start rng nr st out :
  restored out ∨
    (∃ d, nr = Nat.iter d u64_succ nr0 ∧ drop d p0 `prefix_of` pipeline st ∧ length (is_memberships st) = n0) →
  wp (startEpoch mc params rng nr) (λ _, PipeInv) st out.
Proof.
  intros Hpre. eapply wp_mono; [apply startEpoch_wp|].
  intros [] st' out' (mb & leaders & Hmb & _ & He & _ & (Hm & Hn & _) & ->).
  destruct Hpre as [?|(d & -> & ? & ?)]; [by left; apply restored_app|right].
  eexists _, d. unfold pipeline. rewrite Hm, Hn. split_and!; [exact He|done..].
Qed.

Lemma pipe_advance rng st out :
  PipeInv st out → wp (advanceEpoch ownID mc params rng) (λ _, PipeInv) st out.
Proof.
  intros Hi. unfold advanceEpoch. wp_step. apply wp_epoch. intros e He. repeat wp_step.
  apply index_lookup in Hlift as [_ Hold]. unfold deref in Hlift0.
  destruct (is_nextNewMembership st) as [nn|] eqn:Hnn; [|done]. injection Hlift0 as <-. simpl in Hold.
  eapply wp_mono; [apply pipe_start|].
  - destruct Hi as [?|(e' & d & He' & Hnr & Hp & _ & Hlen)]; [by left|right]. exists (S d).
    rewrite He in He'. injection He' as <-. unfold pipeline in *. simpl. rewrite Hnn in Hp. simpl in Hp.
    destruct (is_memberships st) as [|m0 ms]; [done|]. split_and!.
    + unfold Nr. by rewrite Hnr.
    + rewrite app_nil_r, drop_S_tail. by apply prefix_tail in Hp.
    + rewrite length_app. simpl in *. lia.
  - intros [] st' out' Hi'. wp_step. apply wp_epoch. intros e' He'.
    repeat wp_step. destruct Hi' as [?|?]; [left|by right]. by do 2 apply restored_app.
Qed.

Lemma pipe_process rng : keeps PipeInv (processCommitted ownID mc params rng).
Proof.
  unfold processCommitted. pipe; first [apply pipe_loop | intros st out; apply pipe_advance].
Qed.

Lemma pipe_deliverCert rng sn data aborted leader :
  keeps PipeInv (deliverCert ownID mc params rng sn data aborted leader).
Proof. unfold deliverCert. pipe. apply pipe_process. Qed.

Lemma pipe_newConfig rng nr mb : keeps PipeInv (UponNewConfig ownID mc params rng nr mb).
Proof.
  intros st out Hi. unfold UponNewConfig. wp_step. apply wp_epoch. intros e He. do 2 wp_step.
  wp_step; [by wp_step|]. destruct (is_nextNewMembership st) eqn:Hn; [by wp_step|]. do 4 wp_step.
  assert (PipeInv (set_nextNewMembership (Some mb) st) out) as Hi'.
  { destruct Hi as [?|(e' & d & ? & ? & Hp & ? & ?)]; [by left|right]. exists e', d. split_and!; try done.
    unfold pipeline in *. rewrite Hn in Hp. simpl in *. rewrite app_nil_r in Hp. by apply prefix_app_r. }
  wp_step; [by apply pipe_advance|by wp_step].
Qed.

Lemma pipe_validated rng err chkp : keeps PipeInv (UponCheckpointValidated mc params rng err chkp).
Proof.
  intros st out Hi. unfold UponCheckpointValidated. destruct err; [by wp_step|]. do 3 wp_step.
  apply wp_epoch. intros e He. wp_step; [by wp_step|]. do 2 wp_step.
  destruct (Policy.LeaderPolicyFromBytes _) as [policy| |]; [|by wp_step..]. do 7 wp_step.
  eapply wp_mono; [apply pipe_start; left; do 2 eexists; by apply elem_of_app; right; left|].
  intros [] st1 out1 Hi1. wp_step.
  eapply wp_mono; [by apply pipe_emit|]. intros [] st2 out2 Hi2. by apply pipe_prune.
Qed.

Lemma pipe_apply rng i : keeps PipeInv (iss_apply ownID mc params rng i).
Proof.
  destruct i; simpl.
  - intros st out Hi. unfold UponInit. repeat wp_step. apply pipe_start. left.
    do 2 eexists. by apply elem_of_app; right; left.
  - unfold UponSBDeliver, verifyCert, deliverCommonCheckpoint.
    pipe; first [apply pipe_process | apply pipe_deliverCert | apply pipe_suspect].
  - unfold UponCertVerified. pipe; first [apply pipe_suspect | apply pipe_deliverCert].
  - apply pipe_newConfig.
  - unfold UponEpochProgress. pipe.
  - unfold UponStableCheckpoint. pipe.
  - unfold UponPushCheckpoint. pipe.
  - unfold UponStableCheckpointReceived. pipe.
  - apply pipe_validated.
Qed.
End pipeline.



(** ** Starting from the genesis checkpoint *)
Section genesis.
Context {cbor : Cbor} {codec : ChkpCodec} {himpl : HashImpl} {sigs : Verifier} {certs : CertCodec}.
Context (mc : IssModuleConfig) (params : IssModuleParams).

(** A command returns when its parts do. *)
Definition returns {A} (m : M IssState iss_event A) (st : IssState) : Prop := ∃ r, m st = Ok r.

Lemma returns_bind {A B} (m : M IssState iss_event A) (k : A → M IssState iss_event B) st a st1 es :
  m st = Ok (a, st1, es) → returns (k a) st1 → returns (m ≫= k) st.
Proof.
  intros Hm [[[b st2] es2] Hk]. unfold returns, mbind, M_bind. rewrite Hm, Hk. by eexists.
Qed.
Lemma returns_epoch {B} (k : epochInfo → M IssState iss_event B) st e :
  is_epoch st = Some e → returns (k e) st → returns (epoch ≫= k) st.
Proof.
  intros He. apply (returns_bind _ _ _ _ _ []). unfold epoch, mbind, M_bind, get, lift. by rewrite He.
Qed.
Lemma returns_lift {A B} (o : outcome A) (k : A → M IssState iss_event B) st a :
  o = Ok a → returns (k a) st → returns (lift o ≫= k) st.
Proof. intros ->. by apply (returns_bind _ _ _ _ _ []). Qed.
Ltac returns_step := eapply returns_bind; [reflexivity|].

(** [initOrderers] returns when all leaders are members. *)
Lemma init_loop_total n (l : list (nat * NodeID)) st e :
  is_epoch st = Some e → Forall (λ il, is_Some (Nodes (ei_Membership e) !! il.2)) l →
  returns (mfor l (init_orderer mc params n)) st.
Proof.
  revert st e. induction l as [|[i leader] l IH]; intros st e He Hl; [by eexists|].
  inversion Hl as [|? ? [node Hnode] Hl']; subst. simpl in Hnode. cbn [mfor].
  assert (∃ st1 es e1, init_orderer mc params n (i, leader) st = Ok (tt, st1, es) ∧
    is_epoch st1 = Some e1 ∧ ei_Membership e1 = ei_Membership e) as (st1 & es & e1 & H1 & He1 & Hm1).
  { unfold init_orderer, epoch, mbind, M_bind, get, lift. rewrite He. simpl. unfold Seg.NewSegment.
    rewrite Hnode. simpl. eexists _, _, _. split_and!; reflexivity. }
  eapply returns_bind; [exact H1|]. eapply IH; [exact He1|]. by rewrite Hm1.
Qed.

Lemma startEpoch_total rng nr st mb leaders :
  is_memberships st !! 0 = Some mb → Lsp.Leaders rng (is_LeaderPolicy st) = Ok leaders →
  (∀ id, id ∈ leaders → is_Some (Nodes mb !! id)) →
  returns (startEpoch mc params rng nr) st.
Proof.
  intros Hmb Hl Hin. unfold startEpoch. returns_step. eapply returns_lift; [by apply (index_nat _ 0)|].
  do 2 returns_step. eapply returns_bind.
  { unfold initAvailability, epoch, mbind, M_bind, get, lift. simpl.
    rewrite (index_nat _ 0 _ Hmb : index (is_memberships st) 0 = _). reflexivity. }
  unfold initOrderers. eapply returns_epoch; [reflexivity|]. returns_step.
  eapply returns_lift; [exact Hl|]. eapply init_loop_total; [reflexivity|].
  apply list.Forall_forall. intros [i id] (i' & x & [= -> ->] & Hx)%elem_of_lookup_imap. simpl.
  apply Hin. by eapply list_elem_of_lookup_2.
Qed.

Lemma consistent_same nodes seen l :
  seen ⊆ nodes → (∀ id node, (id, node) ∈ l → nodes !! id = Some node) →
  ∃ seen', Chkp.consistent_nodes seen l = Ok seen' ∧ seen' ⊆ nodes.
Proof.
  revert seen. induction l as [|[id node] l IH]; intros seen Hs Hl; simpl; [by eexists|].
  assert (nodes !! id = Some node) as Hid by (apply Hl; left).
  destruct (seen !! id) as [node'|] eqn:E.
  - rewrite (lookup_weaken _ _ _ _ E Hs) in Hid. injection Hid as ->.
    rewrite bool_decide_eq_true_2 by done. apply IH; [done|]. intros. apply Hl. by right.
  - apply IH; [by apply insert_subseteq_l|]. intros. apply Hl. by right.
Qed.

Lemma consistent_repeat mb n :
  ∃ seen, outcome_foldl (λ seen mb, Chkp.consistent_nodes seen (map_to_list (Nodes mb))) ∅
            (replicate n mb) = Ok seen.
Proof.
  assert (∀ seen, seen ⊆ Nodes mb → ∃ seen', outcome_foldl (λ seen mb,
    Chkp.consistent_nodes seen (map_to_list (Nodes mb))) seen (replicate n mb) = Ok seen') as H.
  { induction n as [|n IH]; intros seen Hs; simpl; [by eexists|].
    destruct (consistent_same (Nodes mb) seen (map_to_list (Nodes mb))) as (seen' & -> & Hs'); [done| |].
    - intros id node. by rewrite elem_of_map_to_list.
    - by apply IH. }
  apply H, map_empty_subseteq.
Qed.

Lemma all_valid_repeat mb n : Membutil.Valid mb = Ok tt → Chkp.all_valid (replicate n mb) = Ok tt.
Proof. intros Hv. induction n as [|n IH]; simpl; [done|]. by rewrite Hv. Qed.

(** The policy of the first epoch. *)
Definition initial_policy : LeaderSelection.LeaderSelectionPolicy :=
  if bool_decide (LeaderSelectionPolicy params = Simple)
  then PolicySimple (SimplePolicy.NewSimpleLeaderPolicy (InitialMembership params))
  else PolicyBlacklist (BlacklistPolicy.NewBlackListLeaderPolicy (InitialMembership params)).

Lemma initial_leaders rng :
  voting (InitialMembership params) →
  ∃ leaders, Lsp.Leaders rng initial_policy = Ok leaders ∧
    leaders ≡ₚ GetKeys (Nodes (InitialMembership params)).
Proof.
  intros Hv. unfold initial_policy. case_bool_decide; simpl.
  { eexists. split; [done|]. apply GetSortedKeys_perm. }
  destruct (LeaderSelection.leaders_all rng (BlacklistPolicy.NewBlackListLeaderPolicy (InitialMembership params)))
    as (leaders & Hl & Hp); [done|done|]. by exists leaders.
Qed.

Lemma genesis_snapshot appState policyData :
  (1 ≤ ConfigOffset params < 2 ^ 62)%Z →
  LeaderSelectionPolicy params = Simple ∨ LeaderSelectionPolicy params = Blacklist →
  Policy.Bytes initial_policy = Ok policyData →
  InitialStateSnapshot params appState = Ok (mkStateSnapshot appState (Some (mkEpochData
    (Some (mkEpochConfig 0 0 (u64_of_int (wrap_i64 (SegmentLength params *
             Z.of_nat (size (Nodes (InitialMembership params))))))
       (Some (replicate (Z.to_nat (ConfigOffset params + 1)) (InitialMembership params)))))
    (Some ∅) (Some policyData) (Some (mkMembership ∅))))).
Proof.
  intros Hoff Hpol Hb. unfold InitialStateSnapshot, Sliceutil.Repeat.
  rewrite (wrap_i64_small (ConfigOffset params + 1)) by lia. rewrite (bool_decide_eq_false_2 (ConfigOffset params + 1 < 0)%Z) by lia. cbn [mbind outcome_bind].
  unfold initial_policy in Hb. case_bool_decide as Hs; [by rewrite Hb|].
  destruct Hpol as [?|Hpol]; [done|]. rewrite bool_decide_eq_true_2 by done. by rewrite Hb.
Qed.

Lemma genesis_verifies rng snapshot appState policyData len :
  (1 ≤ ConfigOffset params < 2 ^ 62)%Z → Membutil.Valid (InitialMembership params) = Ok tt →
  snapshot = mkStateSnapshot (Some appState) (Some (mkEpochData
    (Some (mkEpochConfig 0 0 len
       (Some (replicate (Z.to_nat (ConfigOffset params + 1)) (InitialMembership params)))))
    (Some ∅) (Some policyData) (Some (mkMembership ∅)))) →
  Chkp.Verify rng (Chkp.Genesis snapshot) (ConfigOffset params) (InitialMembership params) = Ok tt.
Proof.
  intros Hoff Hv ->. unfold Chkp.Verify, Chkp.SyntacticCheck, Chkp.Genesis. simpl.
  rewrite length_replicate, wrap_i64_small by lia.
  rewrite Z2Nat.id by lia.
  rewrite (bool_decide_eq_false_2 ((ConfigOffset params + 1)%Z ≠ (ConfigOffset params + 1)%Z)) by tauto.
  rewrite all_valid_repeat by done. simpl. unfold Chkp.verifyMembershipConsistency. simpl.
  destruct (consistent_repeat (InitialMembership params) (Z.to_nat (ConfigOffset params + 1))) as [seen ->].
  done.
Qed.
End genesis.

(** A node configured with parameters that pass [CheckParams], a membership
    that can vote and one of the two leader policies starts from the genesis checkpoint: the
    initial snapshot is created and accepted by [New], and the Init event starts epoch 0 at
    sequence number 0 with the initial membership, all of its nodes leading a segment, and the
    epoch's checkpoint already stable.  The leader policy must survive its CBOR encoding. *)
Theorem genesis_starts {cbor : Cbor} {codec : ChkpCodec} {himpl : HashImpl}
    {sigs : Verifier} {certs : CertCodec} ownID mc params rng appState policyData :
  IssConf.CheckParams params = Ok tt → (ConfigOffset params < 2 ^ 62)%Z →
  voting (InitialMembership params) →
  LeaderSelectionPolicy params = Simple ∨ LeaderSelectionPolicy params = Blacklist →
  Policy.Bytes (initial_policy params) = Ok policyData →
  Policy.LeaderPolicyFromBytes policyData = Ok (initial_policy params) →
  ∃ snapshot st st' es e,
    InitialStateSnapshot params (Some appState) = Ok snapshot ∧
    New params rng (Chkp.Genesis snapshot) = Ok st ∧
    iss_apply ownID mc params rng IssInInit st = Ok (tt, st', es) ∧
    is_epoch st' = Some e ∧ ei_nr e = 0%N ∧ ei_firstSN e = 0%N ∧
    ei_Membership e = InitialMembership params ∧
    seg_Leader <$> ei_Segments e ≡ₚ GetKeys (Nodes (InitialMembership params)) ∧
    hasEpochCheckpoint st' e = true ∧
    is_memberships st' = replicate (Z.to_nat (ConfigOffset params + 1)) (InitialMembership params).
Proof.
  intros Hc Hoff Hv Hpol Hb Hd.
  assert (Membutil.Valid (InitialMembership params) = Ok tt ∧ 1 ≤ ConfigOffset params)%Z as [Hvalid Hoff1].
  { by apply IssConf.CheckParams_inv in Hc as (? & ? & _). }
  pose proof (genesis_snapshot params (Some appState) policyData (conj Hoff1 Hoff) Hpol Hb) as Hs.
  set (snapshot := mkStateSnapshot _ _) in Hs. exists snapshot.
  pose proof (genesis_verifies params rng snapshot appState policyData _ (conj Hoff1 Hoff) Hvalid eq_refl)
    as Hver.
  destruct (initial_leaders params rng Hv) as (leaders & Hl & Hp).
  set (st := mkIssState None ∅ ∅ (replicate (Z.to_nat (ConfigOffset params + 1)) (InitialMembership params))
               None ∅ 0 0 (Chkp.Genesis snapshot) 0 (initial_policy params)).
  assert (New params rng (Chkp.Genesis snapshot) = Ok st) as Hnew.
  { unfold New. rewrite Hc. cbn [Chkp.epoch_data Chkp.Genesis sc_Snapshot deref mbind outcome_bind
      snapshot ss_EpochData ed_LeaderPolicy contents default id]. simpl. rewrite Hd.
    fold snapshot. by rewrite Hver. }
  assert (is_memberships st !! 0 = Some (InitialMembership params)) as Hmb
    by (apply lookup_replicate; split; [done|lia]).
  destruct (startEpoch_total mc params rng 0 st (InitialMembership params) leaders Hmb Hl) as [[[[] st'] es] Hst].
  { intros id. by rewrite Hp, elem_of_GetKeys. }
  pose proof (wp_Ok _ _ _ _ _ _ _ (startEpoch_wp mc params rng 0 st []) Hst)
    as (mb & leaders' & Hmb' & Hl' & He & _ & Hsame & _).
  rewrite Hmb in Hmb'. injection Hmb' as <-. 
  change (is_LeaderPolicy st) with (initial_policy params) in Hl'. rewrite Hl in Hl'. injection Hl' as <-.
  exists st, st'. eexists _, _. split_and!; [done|done| |exact He|done..| | |].
  - simpl. unfold UponInit, mbind, M_bind, get, emit, lift. simpl. rewrite Hst. reflexivity.
  - rewrite <- Hp. simpl. unfold epoch_segments. match goal with |- ?a ≡ₚ ?b => enough (a = b) as -> by done end.
    apply list_eq. intros i. rewrite list_lookup_fmap, list_lookup_imap. by destruct (leaders !! i).
  - unfold hasEpochCheckpoint. destruct Hsame as (_ & _ & _ & _ & -> & _). done.
  - by destruct Hsame as (-> & _).
Qed.

(** ** Stale verification results *)
Section stale.
Context {cbor : Cbor} {codec : ChkpCodec} {himpl : HashImpl} {sigs : Verifier} {certs : CertCodec}.

Lemma deliver_loop_stuck mc fuel st :
  is_commitLog st !! is_nextDeliveredSN st = None → deliver_loop mc fuel st = Ok (tt, st, []).
Proof.
  intros Hn. destruct fuel as [|fuel]; [done|]. cbn [deliver_loop]. unfold mbind, M_bind, get. by rewrite Hn.
Qed.

Lemma processCommitted_stuck ownID mc params rng st e :
  is_epoch st = Some e → epochFinished st e = false →
  (hasEpochCheckpoint st e = true → is_commitLog st !! is_nextDeliveredSN st = None) →
  processCommitted ownID mc params rng st = Ok (tt, st, []).
Proof.
  intros He Hf Hn. unfold processCommitted, epoch, mbind, M_bind, get, lift. rewrite He. simpl.
  destruct (hasEpochCheckpoint st e) eqn:Hc; simpl; [|done].
  rewrite deliver_loop_stuck by auto. by rewrite Hf.
Qed.
End stale.

(** The verdict that a certificate is invalid is acted on whenever it arrives, also for a
    sequence number that was already delivered, or skipped by installing a checkpoint after the
    verification was requested: the leader of that old segment becomes suspected in the current
    epoch, at this node only, so that its leader policy no longer is the one of the checkpoint it
    restored, and an entry that is never delivered stays in the commit log. *)
Theorem stale_certificate_suspects {cbor : Cbor} {codec : ChkpCodec} {himpl : HashImpl}
    {sigs : Verifier} {certs : CertCodec} ownID mc params rng chkp st ins out e p ctx :
  iss_run ownID mc params chkp st ins out → is_epoch st = Some e →
  is_LeaderPolicy st = PolicyBlacklist p →
  is_Some (Nodes (blp_Membership p) !! vc_leader ctx) → Suspected p !! vc_leader ctx = None →
  (vc_sn ctx < is_nextDeliveredSN st)%N →
  ∃ st', iss_apply ownID mc params rng (IssInCertVerified false ctx) st = Ok (tt, st', []) ∧
    is_LeaderPolicy st' = PolicyBlacklist (mkBlacklistPolicy (blp_Membership p)
      (<[vc_leader ctx := ei_nr e]> (Suspected p))) ∧
    is_LeaderPolicy st' ≠ is_LeaderPolicy st ∧
    is_Some (is_commitLog st' !! vc_sn ctx) ∧ is_nextDeliveredSN st' = is_nextDeliveredSN st.
Proof.
  intros [_ Hq]%iss_run_inv He Hp [node Hm] Hs Hlt. destruct (Hq e He) as [Hf Hc].
  eexists. split.
  { simpl. unfold UponCertVerified, suspect, epoch, deliverCert, mbind, M_bind, get, lift. simpl.
    rewrite He. simpl. erewrite processCommitted_stuck; [reflexivity|exact He|exact Hf|].
    simpl. intros Hc'. rewrite lookup_insert_ne by lia. by apply Hc. }
  simpl. rewrite Hp. simpl. unfold BlacklistPolicy.Suspect. rewrite Hm, Hs. split_and!; [done| |..|done].
  - intros [= Heq]. assert (Suspected p !! vc_leader ctx = Some (ei_nr e)); [|congruence].
    rewrite <- Heq. simpl. by rewrite lookup_insert_eq.
  - rewrite lookup_insert_eq. by eexists.
Qed.

(** ** Concrete runs

    Toy codecs: a leader policy is encoded as nothing, which stands for the blacklist policy of
    [mb4]; the data of a certificate is its batch, except for "bad"; checkpoints decode to [chkp1]. *)
Module IssToy.
Definition policy : LeaderSelection.LeaderSelectionPolicy :=
  PolicyBlacklist (BlacklistPolicy.NewBlackListLeaderPolicy mb4).
#[export] Instance toy_cbor : Cbor := {|
  cbor_Marshal_simple _ := Err "unsupported"; cbor_Unmarshal_simple _ := Err "unsupported";
  cbor_Marshal_blacklist _ := Ok EmptyString;
  cbor_Unmarshal_blacklist _ := Ok (BlacklistPolicy.NewBlackListLeaderPolicy mb4) |}.
Definition chkp (sn : SeqNr) (nr : EpochNr) : StableCheckpoint :=
  mkStableCheckpoint sn (Some (mkStateSnapshot (Some "app") (Some (mkEpochData
    (Some (mkEpochConfig nr sn 4 (Some [mb4; mb4]))) (Some ∅) (Some Blacklist) (Some mb4))))) (Some ∅).
#[export] Instance toy_codec : ChkpCodec := {|
  membutil_Serialize _ := Ok (Some "membership");
  proto_Marshal _ := Ok EmptyString; proto_Unmarshal _ := Err "unsupported";
  cbor_Marshal _ := Err "unsupported"; cbor_Unmarshal _ := Ok (chkp 4 1) |}.
#[export] Instance toy_certs : CertCodec := {|
  cert_Unmarshal b := if bool_decide (b = Some "bad") then Err "not a certificate"
                      else Ok (CertMscs [mkMscCert (contents b) [] []]) |}.
#[export] Existing Instances ToyChkp.toy_hash ToyChkp.toy_verifier.

Definition mc : IssModuleConfig :=
  mkIssModuleConfig "iss" "app" "availability" "batchdb" "checkpointing" "chkpvalidator" "net"
    "ordering" "pprepvalidator" "pprepvalidatorchkp" "timer".
Definition params : IssModuleParams :=
  mkIssParams mb4 1 1 0 0 1024 1 1000 1000 Blacklist 1000 1000 4000 8000 1000.
Definition genesis : StableCheckpoint :=
  match InitialStateSnapshot params (Some "app") with
  | Ok snapshot => Chkp.Genesis snapshot
  | _ => chkp 0 0
  end.

Definition answers_b (out : list iss_event) (i : iss_input) : bool :=
  match i with
  | IssInInit => bool_decide (out = [])
  | IssInCertVerified _ ctx =>
      existsb (λ ev, match ev with VerifyCertRequest _ _ ctx' => bool_decide (ctx' = ctx) | _ => false end) out
  | IssInCheckpointValidated err c =>
      existsb (λ ev, match ev with
                     | ValidateCheckpoint _ c1 _ _ c2 => bool_decide (c1 = c) && bool_decide (c2 = c)
                     | _ => false end) out && (err || is_Ok (Chkp.SyntacticCheck c (ConfigOffset params)))
  | _ => true
  end.

Lemma iss_answers_b_sound out i : answers_b out i = true → iss_answers params out i.
Proof.
  destruct i; simpl; try done.
  - intros ->%bool_decide_eq_true. set_solver.
  - intros (ev & Hev%list_elem_of_In & Ht)%existsb_exists. destruct ev; try done.
    apply bool_decide_eq_true in Ht. subst. eauto.
  - intros [(ev & Hev%list_elem_of_In & Ht)%existsb_exists Hs]%andb_true_iff. destruct ev; try done.
    rewrite andb_true_iff, !bool_decide_eq_true in Ht. destruct Ht as [-> ->]. split; [eauto|].
    intros ->. by apply is_Ok_unit.
Qed.

Definition start : IssState :=
  match New params range_id genesis with Ok st => st | _ => mkIssState None ∅ ∅ [] None ∅ 0 0 genesis 0 policy end.
Definition run (ins : list iss_input) : option (IssState * list iss_event) :=
  checked (iss_apply "0" mc params) answers_b range_id ins start [].

Lemma iss_run_reach ins st out : run ins = Some (st, out) → iss_run "0" mc params genesis st ins out.
Proof.
  intros Hr. exists range_id, start. split; [vm_compute; reflexivity|].
  exact (checked_reach _ _ _ iss_answers_b_sound _ range_id ins _ [] [] _ _ (reach_start _ _ _) Hr).
Qed.

(** Facts about the final state of a run, by evaluating them in the run. *)
Lemma run_fact {A B C} (f : A → B → C) (r : option (A * B)) st out v :
  r = Some (st, out) → uncurry f <$> r = Some v → f st out = v.
Proof. intros ->. by intros [= <-]. Qed.
Lemma run_some {A B} (r : option (A * B)) :
  bool_decide (is_Some r) = true → ∃ st out, r = Some (st, out).
Proof. intros [[st out] Hr]%bool_decide_eq_true. eauto. Qed.

(** What was delivered, and whether a checkpoint was restored. *)
Definition deliveries (out : list iss_event) : list (string * SeqNr * Cert * bool) :=
  omap (λ ev, match ev with DeliverCert dest sn cert empty => Some (dest, sn, cert, empty) | _ => None end) out.
Lemma elem_of_deliveries out dest sn cert empty :
  (dest, sn, cert, empty) ∈ deliveries out → DeliverCert dest sn cert empty ∈ out.
Proof. intros (ev & Hev & Hs)%list_elem_of_omap. destruct ev; by simplify_eq. Qed.
Definition in_epoch (st : IssState) : bool := match is_epoch st with Some _ => true | None => false end.
Lemma in_epoch_true st : in_epoch st = true → ∃ e, is_epoch st = Some e.
Proof. unfold in_epoch. destruct (is_epoch st); [eauto|done]. Qed.
Definition restores (out : list iss_event) : bool :=
  existsb (λ ev, match ev with RestoreState _ _ => true | _ => false end) out.
Lemma restores_false out : restores out = false → ∀ dest chkp, RestoreState dest chkp ∉ out.
Proof.
  intros Hr dest c Hin. assert (restores out = true) as Ht; [|congruence].
  apply existsb_exists. exists (RestoreState dest c). by rewrite <- list_elem_of_In.
Qed.

(** A first epoch: the decisions come out of order, one is no certificate, one is aborted, and
    the new configuration comes last. *)
Definition ctx (sn : SeqNr) (data : bytes) (leader : NodeID) : verifyCertContext :=
  mkVerifyCertContext sn data false leader.
Definition epoch0 : list iss_input :=
  [IssInInit;
   IssInSBDeliver 2 (Some "bad") false "2" "ordering/0/2";
   IssInSBDeliver 0 (Some "a") false "0" "ordering/0/0";
   IssInSBDeliver 1 (Some "b") false "1" "ordering/0/1";
   IssInCertVerified true (ctx 1 (Some "b") "1");
   IssInCertVerified true (ctx 0 (Some "a") "0");
   IssInSBDeliver 3 None true "3" "ordering/0/3";
   IssInNewConfig 0 mb4].
(** The checkpoint of epoch 1 is agreed on. *)
Definition epoch1 : list iss_input :=
  epoch0 ++ [IssInSBDeliver 0 (Some "checkpoint") false "0" "ordering/1/chkp"].
(** A checkpoint of epoch 3 overtakes the verification of a certificate. *)
Definition overtaken : list iss_input :=
  [IssInInit; IssInSBDeliver 0 (Some "a") false "0" "ordering/0/0";
   IssInStableCheckpointReceived "1" 12 (sc_Snapshot (chkp 12 3)) (Some ∅);
   IssInCheckpointValidated false (chkp 12 3)].
End IssToy.
Import IssToy.

(** ** Witnesses *)
Ltac start_run ins Hr :=
  let st := fresh "st" in let out := fresh "out" in
  destruct (run_some (run ins)) as (st & out & Hr); [vm_compute; reflexivity|].
Lemma epoch_segments_partition_witness :
  ∃ st' es e, startEpoch mc params range_id 0 start = Ok (tt, st', es) ∧ is_epoch st' = Some e ∧
    is_newEpochSN st' = 4%N ∧ length (ei_Segments e) = 4 ∧
    ∀ sn, (0 ≤ sn < 4)%N → exists! i, ∃ seg, ei_Segments e !! i = Some seg ∧ is_Some (seg_Proposals seg !! sn).
Proof.
  destruct (startEpoch mc params range_id 0 start) as [[[[] st'] es]| |] eqn:Hs; [|by vm_compute in Hs..].
  destruct (epoch_segments_partition mc params range_id 0 start st' es ["0"; "1"; "2"; "3"] Hs)
    as (e & He & _ & Hf & _ & Hn & _ & Hp & Hl & _); [vm_compute; reflexivity..|].
  exists st', es, e. rewrite Hn, Hf in Hp |- *. split_and!; [done..|].
  intros sn Hsn. by apply (Hp sn).
Defined.

Lemma application_contract_witness :
  ∃ st out, run epoch1 = Some (st, out) ∧ app_run out = Some (Some (mkApp 4 2 4 4)).
Proof.
  start_run epoch1 Hr. exists st, out. split; [done|].
  rewrite (application_contract _ _ _ _ _ _ _ (iss_run_reach _ _ _ Hr)).
  apply (run_fact (λ st _, Some (e ← is_epoch st;
    Some (mkApp (is_nextDeliveredSN st) (u64_succ (ei_nr e)) (ei_firstSN e)
            (sc_Sn (is_lastStableCheckpoint st))))) _ _ _ _ Hr).
  vm_compute. reflexivity.
Defined.

Lemma delivered_certificates_verified_witness :
  ∃ data aborted leader iid,
    IssInSBDeliver 1 data aborted leader iid ∈ epoch1 ∧ Sub (Sub iid) ≠ "chkp" ∧
    aborted = false ∧ cert_Unmarshal data = Ok (CertMscs [mkMscCert "b" [] []]) ∧
    IssInCertVerified true (mkVerifyCertContext 1 data false leader) ∈ epoch1.
Proof.
  start_run epoch1 Hr.
  apply (delivered_certificates_verified "0" mc params genesis st epoch1 out "app" 1
           (CertMscs [mkMscCert "b" [] []]) false); [exact (iss_run_reach _ _ _ Hr)|].
  apply elem_of_deliveries.
  rewrite (run_fact (λ _ out, deliveries out) _ _ _ 
    [("app", 0%N, CertMscs [mkMscCert "a" [] []], false);
     ("app", 1%N, CertMscs [mkMscCert "b" [] []], false);
     ("app", 2%N, CertMscs [], true); ("app", 3%N, CertMscs [], true)] Hr); [|vm_compute; reflexivity].
  right. left.
Defined.

Lemma no_lost_wakeup_witness :
  ∃ st out e, run epoch1 = Some (st, out) ∧ is_epoch st = Some e ∧
    is_commitLog st !! is_nextDeliveredSN st = None.
Proof.
  start_run epoch1 Hr.
  pose proof (run_fact (λ st _, in_epoch st) _ _ _ true Hr ltac:(vm_compute; reflexivity)) as He.
  apply in_epoch_true in He as [e Hse].
  exists st, out, e. split_and!; [done..|].
  destruct (no_lost_wakeup "0" mc params genesis st epoch1 out e) as [_ H]; [exact (iss_run_reach _ _ _ Hr)|exact Hse|].
  apply H. pose proof (run_fact (λ st _, (ei_firstSN <$> is_epoch st, sc_Sn (is_lastStableCheckpoint st)))
    _ _ _ (Some 4%N, 4%N) Hr) as Hf.
  specialize (Hf ltac:(vm_compute; reflexivity)). cbv beta in Hf. rewrite Hse in Hf. injection Hf as -> ->. done.
Defined.

Lemma delivery_loop_terminates_witness :
  let st := set_commitLog {[ 0%N := mkCommitLogEntry 0 (Some "a") None false "0";
                             1%N := mkCommitLogEntry 1 (Some "b") None false "1";
                             3%N := mkCommitLogEntry 3 (Some "d") None false "3" ]} start in
  is_Ok (deliver_loop mc 3 st) = true ∧
  ∀ st' es, deliver_loop mc 3 st = Ok (tt, st', es) → is_commitLog st' !! is_nextDeliveredSN st' = None.
Proof.
  cbv zeta. split; [vm_compute; reflexivity|]. intros st' es.
  apply (delivery_loop_terminates mc 3 (set_commitLog {[ 0%N := mkCommitLogEntry 0 (Some "a") None false "0";
                             1%N := mkCommitLogEntry 1 (Some "b") None false "1";
                             3%N := mkCommitLogEntry 3 (Some "d") None false "3" ]} start)).
  vm_compute. lia.
Defined.

(** The states after Init and after the rest of the first epoch. *)
Definition init_then_epoch : option ((IssState * IssState) * list iss_event) :=
  '(st, _) ← run [IssInInit];
  '(st', out) ← checked (iss_apply "0" mc params) (λ _ _, true) range_id (tail epoch0) st [];
  Some ((st, st'), out).


Lemma genesis_starts_witness :
  ∃ snapshot st st' es e,
    InitialStateSnapshot params (Some "app") = Ok snapshot ∧
    New params range_id (Chkp.Genesis snapshot) = Ok st ∧
    iss_apply "0" mc params range_id IssInInit st = Ok (tt, st', es) ∧
    is_epoch st' = Some e ∧ ei_firstSN e = 0%N.
Proof.
  destruct (genesis_starts "0" mc params range_id "app" Blacklist)
    as (snapshot & st & st' & es & e & H1 & H2 & H3 & H4 & _ & H5 & _).
  - vm_compute. reflexivity.
  - simpl. lia.
  - apply mb4_voting.
  - by right.
  - vm_compute. reflexivity.
  - vm_compute. reflexivity.
  - exists snapshot, st, st', es, e. exact (conj H1 (conj H2 (conj H3 (conj H4 H5)))).
Defined.

Lemma stale_certificate_suspects_witness :
  ∃ st out st', run overtaken = Some (st, out) ∧ is_nextDeliveredSN st = 12%N ∧
    iss_answers params out (IssInCertVerified false (ctx 0 (Some "a") "0")) ∧
    iss_apply "0" mc params range_id (IssInCertVerified false (ctx 0 (Some "a") "0")) st = Ok (tt, st', []) ∧
    is_LeaderPolicy st = policy ∧ is_LeaderPolicy st' ≠ policy.
Proof.
  start_run overtaken Hr.
  pose proof (run_fact (λ st out, (is_LeaderPolicy st, is_nextDeliveredSN st,
    answers_b out (IssInCertVerified false (ctx 0 (Some "a") "0")), in_epoch st))
    _ _ _ (policy, 12%N, true, true) Hr ltac:(vm_compute; reflexivity)) as Hf.
  injection Hf as Hp Hn Ha He. apply in_epoch_true in He as [e He].
  destruct (stale_certificate_suspects "0" mc params range_id genesis st overtaken out e
    (BlacklistPolicy.NewBlackListLeaderPolicy mb4) (ctx 0 (Some "a") "0")) as (st' & Hs & _ & Hne & _).
  - exact (iss_run_reach _ _ _ Hr).
  - exact He.
  - exact Hp.
  - by eexists.
  - reflexivity.
  - rewrite Hn. reflexivity.
  - exists st, out, st'. rewrite Hp in Hne.
    exact (conj Hr (conj Hn (conj (iss_answers_b_sound out (IssInCertVerified false (ctx 0 (Some "a") "0")) Ha) (conj Hs (conj Hp Hne))))).
Defined.
