(* ===== verification/Availability.v ===== *)
(** * pkg/availability: the multisig collector

    Models the three parts of pkg/availability/multisigcollector (certcreation,
    certverification, batchreconstruction), which register handlers on one module with a state
    each, and the parameters with which the factory of multisigcollector.go creates an instance.
    What the mempool computes (transaction and batch identifiers) is a parameter; signatures are
    checked by the crypto module.  Contexts of requests travel with the events that carry them. *)
From Stdlib Require Import ZArith Lia.
From stdpp Require Import prelude gmap strings list sorting fin_maps numbers.
From S2P Require Import Prelude Util Membership PbftTypes Orderer ClientProgress ModuleRuns.
From S2P Require Import Checkpoint Iss.
Import Maputil Membutil.

Notation BatchID := string (only parsing).
Notation TxID := string (only parsing).
Notation RequestID := N (only parsing).

Record Transaction := mkTransaction {
  tx_ClientId : ClientID; tx_TxNo : TxNo; tx_Type : N; tx_Data : bytes;
}.
(** The origin of a request: the module to answer and its context. *)
Record Origin := mkOrigin { or_Module : string; or_Context : N }.

(** common.go *)
Record MscParams := mkMscParams {
  mp_InstanceUID : bytes; mp_Membership : Membership; mp_Limit : Z; mp_MaxRequests : Z;
  mp_EpochNr : EpochNr;
}.
Definition SigData (instanceUID : bytes) (batchID : BatchID) : list bytes :=
  [instanceUID; Some "BATCH_STORED"; Some batchID].

(** multisigcollector.go: the parameters of the instance that the factory module creates. *)
Definition instanceParams (paramsTemplate : MscParams) (mscID : string) (epoch : EpochNr)
    (membership : Membership) (maxRequests : N) : MscParams :=
  mkMscParams (Some mscID) membership (mp_Limit paramsTemplate) (int_of_u64 maxRequests) epoch.

(** Contexts. *)
Inductive batch_id_context :=
| OwnBatch (reqID : RequestID) (txs : list Transaction)
| ReceivedBatch (sourceID : NodeID) (txIDs : list TxID) (txs : list Transaction) (reqID : RequestID)
| RequestedBatch (reqID : RequestID) (txs : list Transaction) (txIDs : list TxID) (batchID : BatchID).
Inductive tx_ids_context :=
| ReceivedTxs (sourceID : NodeID) (txs : list Transaction) (reqID : RequestID)
| RequestedTxs (reqID : RequestID) (txs : list Transaction) (batchID : BatchID).
Inductive store_context :=
| StoreReceived (sourceID : NodeID) (reqID : RequestID) (batchID : BatchID)
| StoreRequested.
Inductive lookup_context :=
| LookupLocally (cert : MscCert) (origin : Origin) (reqID : RequestID)
| LookupOnRequest (requester : NodeID) (reqID : RequestID) (batchID : BatchID).
Record verify_sigs_context := mkVerifySigsContext {
  vs_origin : Origin; vs_reqID : RequestID; vs_cert : MscCert;
}.

Inductive msc_message :=
| RequestSigMessage (txs : list Transaction) (reqID : RequestID)
| SigMessage (signature : bytes) (reqID : RequestID)
| RequestBatchMessage (batchID : BatchID) (reqID : RequestID)
| ProvideBatchMessage (txs : list Transaction) (reqID : RequestID) (batchID : BatchID).

Inductive msc_event :=
| MscComputeCert
| MscRequestBatch (epoch : EpochNr) (reqID : RequestID)
| MscRequestBatchID (txIDs : list TxID) (context : batch_id_context)
| MscRequestTransactionIDs (txs : list Transaction) (context : tx_ids_context)
| MscSend (msg : msc_message) (dests : list NodeID)
| MscVerifySig (data : list bytes) (signature : bytes) (from : NodeID) (reqID : RequestID) (contextSig : bytes)
| MscVerifySigs (data : list (list bytes)) (signatures : list bytes) (nodeIDs : list NodeID)
    (context : verify_sigs_context)
| MscSignRequest (data : list bytes) (sourceID : NodeID) (reqID : RequestID)
| MscStoreBatch (batchID : BatchID) (txs : list Transaction) (retention : N) (context : store_context)
| MscLookupBatch (batchID : BatchID) (context : lookup_context)
| MscNewCert (dest : string) (cert : Cert) (origin : Origin)
| MscCertVerified (dest : string) (valid : bool) (origin : Origin)
| MscProvideTransactions (dest : string) (txs : list Transaction) (origin : Origin).

(** ** State *)
Record certificate := mkCertificate {
  ct_batchID : BatchID; ct_sigs : gmap NodeID bytes; ct_receivedSig : gset NodeID;
}.
Record certCreationState := mkCertCreationState {
  cs_nextReqID : RequestID; cs_requestStates : list Origin;
  cs_certificates : gmap RequestID certificate; cs_remainingSeqNr : Z;
}.
Record certVerificationState := mkCertVerificationState {
  vs_NextReqID : RequestID; vs_RequestState : gmap RequestID (gmap BatchID bool);
}.
(** [Txs] maps a batch to nil ([None]) until it is found. *)
Record recRequestState := mkRecRequestState {
  rr_NonEmptyCerts : list BatchID; rr_Txs : gmap BatchID (option (list Transaction)); rr_ReqOrigin : Origin;
}.
Record batchRecState := mkBatchRecState {
  br_NextReqID : RequestID; br_RequestState : gmap RequestID recRequestState;
}.
Record MscState := mkMscState {
  ms_create : certCreationState; ms_verify : certVerificationState; ms_reconstruct : batchRecState;
}.

Module Msc.
Notation MSC := (M MscState msc_event).

Definition upd_create f (st : MscState) : MscState :=
  mkMscState (f (ms_create st)) (ms_verify st) (ms_reconstruct st).
Definition upd_verify f (st : MscState) : MscState :=
  mkMscState (ms_create st) (f (ms_verify st)) (ms_reconstruct st).
Definition upd_reconstruct f (st : MscState) : MscState :=
  mkMscState (ms_create st) (ms_verify st) (f (ms_reconstruct st)).
Definition set_certificates m (s : certCreationState) : certCreationState :=
  mkCertCreationState (cs_nextReqID s) (cs_requestStates s) m (cs_remainingSeqNr s).
Definition set_requests l (s : certCreationState) : certCreationState :=
  mkCertCreationState (cs_nextReqID s) l (cs_certificates s) (cs_remainingSeqNr s).
Definition decr_remaining (s : certCreationState) : certCreationState :=
  mkCertCreationState (cs_nextReqID s) (cs_requestStates s) (cs_certificates s)
    (wrap_i64 (cs_remainingSeqNr s - 1)).
Definition set_verifications m (s : certVerificationState) : certVerificationState :=
  mkCertVerificationState (vs_NextReqID s) m.
Definition set_rec_requests m (s : batchRecState) : batchRecState :=
  mkBatchRecState (br_NextReqID s) m.

Section msc.
Context (params : MscParams).

Definition NewModule : MscState :=
  mkMscState (mkCertCreationState 0 [] ∅ (mp_MaxRequests params)) (mkCertVerificationState 0 ∅)
    (mkBatchRecState 0 ∅).

(** *** certcreation *)
Definition avCert (certs : list MscCert) : Cert := CertMscs certs.

Definition respond (certs : list MscCert) : MSC unit :=
  st ← get;
  mfor (cs_requestStates (ms_create st)) (λ origin,
    emit (MscNewCert (or_Module origin) (avCert certs) origin);;
    modify (upd_create decr_remaining));;
  modify (upd_create (set_requests [])).

(** One finished certificate, its signatures in the iteration order of the map. *)
Definition mscCert (rng : go_range) (cert : certificate) : MscCert :=
  let sigs := range_order rng 1 (map_to_list (ct_sigs cert)) in
  mkMscCert (ct_batchID cert) sigs.*1 sigs.*2.

Definition respondIfReady (rng : go_range) (membership : Membership) : MSC unit :=
  st ← get;
  r ← lift (RemoveAll (cs_certificates (ms_create st))
              (λ _ cert, HaveWeakQuorum membership (GetKeys (ct_sigs cert))));
  let '(finishedCerts, rest) := r in
  modify (upd_create (set_certificates rest));;
  if bool_decide (size finishedCerts = 0) then skip
  else respond (mscCert rng <$> range_order rng 0 (GetValues finishedCerts)).

Definition UponComputeCert : MSC unit :=
  st ← get;
  let s := ms_create st in
  if bool_decide (cs_remainingSeqNr s ≤ 0)%Z then skip
  else
    let reqID := cs_nextReqID s in
    modify (upd_create (λ s, mkCertCreationState (u64_succ reqID) (cs_requestStates s)
      (<[reqID := mkCertificate EmptyString ∅ ∅]> (cs_certificates s)) (cs_remainingSeqNr s)));;
    emit (MscRequestBatch (mp_EpochNr params) reqID).

Definition UponRequestCert (rng : go_range) (origin : Origin) : MSC unit :=
  modify (upd_create (λ s, set_requests (cs_requestStates s ++ [origin]) s));;
  respondIfReady rng (mp_Membership params);;
  st ← get;
  when (bool_decide (size (cs_certificates (ms_create st)) = 0)) (emit MscComputeCert).

Definition UponNewBatch (txIDs : list TxID) (txs : list Transaction) (reqID : RequestID) : MSC unit :=
  match txs with
  | [] =>
      modify (upd_create (λ s, set_certificates (delete reqID (cs_certificates s)) s));;
      respond []
  | _ => emit (MscRequestBatchID txIDs (OwnBatch reqID txs))
  end.

Definition UponBatchIDResponse_own (rng : go_range) (batchID : BatchID) (reqID : RequestID)
    (txs : list Transaction) : MSC unit :=
  st ← get;
  match cs_certificates (ms_create st) !! reqID with
  | None => skip
  | Some cert =>
      modify (upd_create (λ s, set_certificates
        (<[reqID := mkCertificate batchID (ct_sigs cert) (ct_receivedSig cert)]> (cs_certificates s)) s));;
      emit (MscSend (RequestSigMessage txs reqID)
              (range_order rng 0 (GetKeys (Nodes (mp_Membership params)))))
  end.

Definition UponSigMessageReceived (from : NodeID) (signature : bytes) (reqID : RequestID) : MSC unit :=
  st ← get;
  match cs_certificates (ms_create st) !! reqID, Nodes (mp_Membership params) !! from with
  | None, _ | _, None => skip
  | Some cert, Some _ =>
      if bool_decide (from ∈ ct_receivedSig cert) then skip
      else
        modify (upd_create (λ s, set_certificates
          (<[reqID := mkCertificate (ct_batchID cert) (ct_sigs cert) ({[from]} ∪ ct_receivedSig cert)]>
             (cs_certificates s)) s));;
        emit (MscVerifySig (SigData (mp_InstanceUID params) (ct_batchID cert)) signature from reqID signature)
  end.

Definition UponSigVerified (rng : go_range) (nodeID : NodeID) (err : bool) (reqID : RequestID)
    (signature : bytes) : MSC unit :=
  if err then skip
  else
    st ← get;
    match cs_certificates (ms_create st) !! reqID with
    | None => skip
    | Some cert =>
        let sigs := <[nodeID := signature]> (ct_sigs cert) in
        modify (upd_create (λ s, set_certificates
          (<[reqID := mkCertificate (ct_batchID cert) sigs (ct_receivedSig cert)]> (cs_certificates s)) s));;
        newDue ← lift (HaveWeakQuorum (mp_Membership params) (GetKeys sigs));
        st ← get;
        when (bool_decide (0 < length (cs_requestStates (ms_create st))))
          (respondIfReady rng (mp_Membership params));;
        st ← get;
        when (newDue && bool_decide (Z.of_nat (size (cs_certificates (ms_create st))) < mp_Limit params)%Z)
          (emit MscComputeCert)
    end.

Definition UponRequestSigMessageReceived (from : NodeID) (txs : list Transaction) (reqID : RequestID)
    : MSC unit :=
  match Nodes (mp_Membership params) !! from, txs with
  | None, _ | _, [] => skip
  | Some _, _ => emit (MscRequestTransactionIDs txs (ReceivedTxs from txs reqID))
  end.

Definition UponTransactionIDsResponse_received (txIDs : list TxID) (sourceID : NodeID)
    (txs : list Transaction) (reqID : RequestID) : MSC unit :=
  emit (MscRequestBatchID txIDs (ReceivedBatch sourceID txIDs txs reqID)).

Definition UponBatchIDResponse_received (batchID : BatchID) (sourceID : NodeID)
    (txs : list Transaction) (reqID : RequestID) : MSC unit :=
  emit (MscStoreBatch batchID txs (mp_EpochNr params) (StoreReceived sourceID reqID batchID)).

Definition UponBatchStored (sourceID : NodeID) (reqID : RequestID) (batchID : BatchID) : MSC unit :=
  emit (MscSignRequest (SigData (mp_InstanceUID params) batchID) sourceID reqID).

Definition UponSignResult (signature : bytes) (sourceID : NodeID) (reqID : RequestID) : MSC unit :=
  emit (MscSend (SigMessage signature reqID) [sourceID]).

(** *** certverification *)

(** The loop over the signers that looks for repetitions. *)
Fixpoint no_repetition (alreadySeen : gset NodeID) (signers : list NodeID) : bool :=
  match signers with
  | [] => true
  | nodeID :: signers =>
      if bool_decide (nodeID ∈ alreadySeen) then false
      else no_repetition ({[nodeID]} ∪ alreadySeen) signers
  end.

Definition verify_one (mscCert : MscCert) : outcome unit :=
  enough ← HaveWeakQuorum (mp_Membership params) (msc_Signers mscCert);
  if negb enough then Err "insufficient weight of signatures"
  else if bool_decide (length (msc_Signers mscCert) ≠ length (msc_Signatures mscCert)) then
    Err "the number of signatures does not correspond to the number of signers"
  else if negb (no_repetition ∅ (msc_Signers mscCert)) then
    Err "some node ids in the certificate are repeated multiple times"
  else if negb (Sliceutil.ContainsAll (GetKeys (Nodes (mp_Membership params))) (msc_Signers mscCert)) then
    Err "certificate contains signatures from non members"
  else Ok tt.

Definition verifyCertificateStructure (cert : Cert) : outcome (list MscCert) :=
  match cert with
  | CertNone => Err "the certificate is nil"
  | CertMscs mscCerts =>
      outcome_foldl (λ _ mscCert, verify_one mscCert) tt mscCerts;;
      Ok mscCerts
  end.

Definition UponVerifyCert (cert : Cert) (origin : Origin) : MSC unit :=
  st ← get;
  let reqID := vs_NextReqID (ms_verify st) in
  modify (upd_verify (λ s, mkCertVerificationState (u64_succ reqID) (vs_RequestState s)));;
  match verifyCertificateStructure cert with
  | Panic p => lift (Panic p)
  | Err _ => emit (MscCertVerified (or_Module origin) false origin)
  | Ok [] => emit (MscCertVerified (or_Module origin) true origin)
  | Ok mscCerts =>
      modify (upd_verify (λ s, set_verifications (<[reqID := ∅]> (vs_RequestState s)) s));;
      mfor mscCerts (λ mscCert,
        modify (upd_verify (λ s, set_verifications
          (alter (insert (msc_BatchId mscCert) false) reqID (vs_RequestState s)) s));;
        emit (MscVerifySigs
          (replicate (length (msc_Signers mscCert)) (SigData (mp_InstanceUID params) (msc_BatchId mscCert)))
          (msc_Signatures mscCert) (msc_Signers mscCert) (mkVerifySigsContext origin reqID mscCert)))
  end.

Definition UponSigsVerified (allOK : bool) (context : verify_sigs_context) : MSC unit :=
  let reqID := vs_reqID context in
  let origin := vs_origin context in
  st ← get;
  match vs_RequestState (ms_verify st) !! reqID with
  | None => skip
  | Some certVerifiedValid =>
      let certVerifiedValid := <[msc_BatchId (vs_cert context) := allOK]> certVerifiedValid in
      modify (upd_verify (λ s, set_verifications (<[reqID := certVerifiedValid]> (vs_RequestState s)) s));;
      if negb allOK then
        emit (MscCertVerified (or_Module origin) false origin);;
        modify (upd_verify (λ s, set_verifications (delete reqID (vs_RequestState s)) s))
      else
        when (forallb id (GetValues certVerifiedValid)) (
          emit (MscCertVerified (or_Module origin) true origin);;
          modify (upd_verify (λ s, set_verifications (delete reqID (vs_RequestState s)) s)))
  end.

(** *** batchreconstruction *)

(** The transactions of all batches in the order of the certificate, nil if one is missing. *)
Fixpoint collect_txs (txs : gmap BatchID (option (list Transaction))) (ids : list BatchID)
    : option (list Transaction) :=
  match ids with
  | [] => Some []
  | bID :: ids =>
      txsSorted ← mjoin (txs !! bID);
      rest ← collect_txs txs ids;
      Some (txsSorted ++ rest)
  end.

Definition saveAndFinish (reqID : RequestID) (txs : option (list Transaction)) (batchID : BatchID)
    (origin : Origin) : MSC unit :=
  st ← get;
  req ← lift (deref (br_RequestState (ms_reconstruct st) !! reqID));
  let req := mkRecRequestState (rr_NonEmptyCerts req) (<[batchID := txs]> (rr_Txs req)) (rr_ReqOrigin req) in
  modify (upd_reconstruct (λ s, set_rec_requests (<[reqID := req]> (br_RequestState s)) s));;
  match collect_txs (rr_Txs req) (rr_NonEmptyCerts req) with
  | None => skip
  | Some allTxs =>
      emit (MscProvideTransactions (or_Module origin) allTxs origin);;
      modify (upd_reconstruct (λ s, set_rec_requests (delete reqID (br_RequestState s)) s))
  end.

Definition UponRequestTransactions (cert : Cert) (origin : Origin) : MSC unit :=
  match cert with
  | CertNone => lift (Err "unexpected certificate type")
  | CertMscs [] => emit (MscProvideTransactions (or_Module origin) [] origin)
  | CertMscs certs =>
      st ← get;
      let reqID := br_NextReqID (ms_reconstruct st) in
      modify (upd_reconstruct (λ s, mkBatchRecState (u64_succ reqID)
        (<[reqID := mkRecRequestState [] ∅ origin]> (br_RequestState s))));;
      mfor certs (λ c,
        modify (upd_reconstruct (λ s, set_rec_requests
          (alter (λ req, mkRecRequestState (rr_NonEmptyCerts req ++ [msc_BatchId c])
                           (<[msc_BatchId c := None]> (rr_Txs req)) (rr_ReqOrigin req))
             reqID (br_RequestState s)) s));;
        emit (MscLookupBatch (msc_BatchId c) (LookupLocally c origin reqID)))
  end.

Definition UponLookupBatchResponse_local (found : bool) (txs : option (list Transaction)) (cert : MscCert)
    (origin : Origin) (reqID : RequestID) : MSC unit :=
  st ← get;
  match br_RequestState (ms_reconstruct st) !! reqID with
  | None => skip
  | Some _ =>
      if found then saveAndFinish reqID txs (msc_BatchId cert) origin
      else emit (MscSend (RequestBatchMessage (msc_BatchId cert) reqID) (msc_Signers cert))
  end.

Definition UponRequestBatchMessageReceived (from : NodeID) (batchID : BatchID) (reqID : RequestID) : MSC unit :=
  match Nodes (mp_Membership params) !! from with
  | None => skip
  | Some _ => emit (MscLookupBatch batchID (LookupOnRequest from reqID batchID))
  end.

Definition UponLookupBatchResponse_remote (found : bool) (txs : option (list Transaction))
    (requester : NodeID) (reqID : RequestID) (batchID : BatchID) : MSC unit :=
  if negb found then skip
  else emit (MscSend (ProvideBatchMessage (default [] txs) reqID batchID) [requester]).

Definition UponProvideBatchMessageReceived (from : NodeID) (txs : list Transaction) (reqID : RequestID)
    (batchID : BatchID) : MSC unit :=
  st ← get;
  match Nodes (mp_Membership params) !! from, br_RequestState (ms_reconstruct st) !! reqID with
  | None, _ | _, None => skip
  | Some _, Some req =>
      match rr_Txs req !! batchID, txs with
      | None, _ | _, [] => skip
      | Some _, _ => emit (MscRequestTransactionIDs txs (RequestedTxs reqID txs batchID))
      end
  end.

Definition UponTransactionIDsResponse_requested (txIDs : list TxID) (reqID : RequestID)
    (txs : list Transaction) (batchID : BatchID) : MSC unit :=
  emit (MscRequestBatchID txIDs (RequestedBatch reqID txs txIDs batchID)).

Definition UponBatchIDResponse_requested (batchID : BatchID) (reqID : RequestID)
    (txs : list Transaction) (expected : BatchID) : MSC unit :=
  st ← get;
  match br_RequestState (ms_reconstruct st) !! reqID with
  | None => skip
  | Some requestState =>
      if bool_decide (batchID ≠ expected) then skip
      else
        emit (MscStoreBatch batchID txs (mp_EpochNr params) StoreRequested);;
        saveAndFinish reqID (Some txs) expected (rr_ReqOrigin requestState)
  end.
End msc.
End Msc.
