(* ===== verification/AvailabilityProps.v ===== *)
(** * Properties of the availability layer

    Runs of the multisig collector with arbitrary messages; the mempool, the batch database and
    the crypto module answer requests.  A verified certificate was signed by a correct node for
    every batch in it, nodes sign what they stored, and the transactions provided for a
    certificate are the ones its batch identifiers stand for. *)
From Stdlib Require Import ZArith Lia.
From stdpp Require Import prelude gmap strings list sorting fin_maps numbers.
From S2P Require Import Prelude Util Membership PbftTypes Orderer ClientProgress ModuleRuns.
From S2P Require Import Checkpoint Iss Availability.
Import Maputil Membutil Msc.

(** The identifiers the mempool computes. *)
Class MempoolIds := { tx_id : Transaction → TxID; batch_id : list TxID → BatchID }.

Inductive msc_input :=
| MInComputeCert
| MInRequestCert (origin : Origin)
| MInNewBatch (txIDs : list TxID) (txs : list Transaction) (reqID : RequestID)
| MInBatchID (batchID : BatchID) (context : batch_id_context)
| MInTxIDs (txIDs : list TxID) (context : tx_ids_context)
| MInSig (from : NodeID) (signature : bytes) (reqID : RequestID)
| MInSigVerified (nodeID : NodeID) (err : bool) (reqID : RequestID) (signature : bytes)
| MInRequestSig (from : NodeID) (txs : list Transaction) (reqID : RequestID)
| MInBatchStored (context : store_context)
| MInSigned (signature : bytes) (sourceID : NodeID) (reqID : RequestID)
| MInVerifyCert (cert : Cert) (origin : Origin)
| MInSigsVerified (allOK : bool) (context : verify_sigs_context)
| MInRequestTransactions (cert : Cert) (origin : Origin)
| MInLookup (found : bool) (txs : option (list Transaction)) (context : lookup_context)
| MInRequestBatch (from : NodeID) (batchID : BatchID) (reqID : RequestID)
| MInProvideBatch (from : NodeID) (txs : list Transaction) (reqID : RequestID) (batchID : BatchID).

Section runs.
Context {ids : MempoolIds} {sigs : Verifier} (params : MscParams).

Definition msc_apply (rng : go_range) (i : msc_input) : M MscState msc_event unit :=
  match i with
  | MInComputeCert => UponComputeCert params
  | MInRequestCert origin => UponRequestCert params rng origin
  | MInNewBatch txIDs txs reqID => UponNewBatch txIDs txs reqID
  | MInBatchID batchID (OwnBatch reqID txs) => UponBatchIDResponse_own params rng batchID reqID txs
  | MInBatchID batchID (ReceivedBatch src _ txs reqID) => UponBatchIDResponse_received params batchID src txs reqID
  | MInBatchID batchID (RequestedBatch reqID txs _ expected) =>
      UponBatchIDResponse_requested params batchID reqID txs expected
  | MInTxIDs txIDs (ReceivedTxs src txs reqID) => UponTransactionIDsResponse_received txIDs src txs reqID
  | MInTxIDs txIDs (RequestedTxs reqID txs batchID) => UponTransactionIDsResponse_requested txIDs reqID txs batchID
  | MInSig from sig reqID => UponSigMessageReceived params from sig reqID
  | MInSigVerified nodeID err reqID sig => UponSigVerified params rng nodeID err reqID sig
  | MInRequestSig from txs reqID => UponRequestSigMessageReceived params from txs reqID
  | MInBatchStored (StoreReceived src reqID batchID) => UponBatchStored params src reqID batchID
  | MInBatchStored StoreRequested => skip
  | MInSigned sig src reqID => UponSignResult sig src reqID
  | MInVerifyCert cert origin => UponVerifyCert params cert origin
  | MInSigsVerified allOK context => UponSigsVerified allOK context
  | MInRequestTransactions cert origin => UponRequestTransactions cert origin
  | MInLookup found txs (LookupLocally cert origin reqID) => UponLookupBatchResponse_local found txs cert origin reqID
  | MInLookup found txs (LookupOnRequest requester reqID batchID) =>
      UponLookupBatchResponse_remote found txs requester reqID batchID
  | MInRequestBatch from batchID reqID => UponRequestBatchMessageReceived params from batchID reqID
  | MInProvideBatch from txs reqID batchID => UponProvideBatchMessageReceived params from txs reqID batchID
  end.

(** The promises of the other modules: answers belong to requests, the mempool computes the
    identifiers, signatures reported as valid are valid, and the batch database only returns
    batches under their own identifier ([collector_signs_what_it_stores] shows that this is how
    they are stored). *)
Definition msc_answers (out : list msc_event) (i : msc_input) : Prop :=
  match i with
  | MInNewBatch _ _ reqID => ∃ epoch, MscRequestBatch epoch reqID ∈ out
  | MInBatchID batchID context => ∃ txIDs, MscRequestBatchID txIDs context ∈ out ∧ batchID = batch_id txIDs
  | MInTxIDs txIDs context => ∃ txs, MscRequestTransactionIDs txs context ∈ out ∧ txIDs = tx_id <$> txs
  | MInSigVerified nodeID err reqID sig => ∃ data sig', MscVerifySig data sig' nodeID reqID sig ∈ out ∧
      (err = false → verifier_Verify data sig' nodeID = Ok tt)
  | MInBatchStored context => ∃ batchID txs r, MscStoreBatch batchID txs r context ∈ out
  | MInSigned sig src reqID => ∃ data, MscSignRequest data src reqID ∈ out
  | MInSigsVerified allOK context => ∃ data signatures nodeIDs,
      MscVerifySigs data signatures nodeIDs context ∈ out ∧
      (allOK = true → ∀ k d sig id, data !! k = Some d → signatures !! k = Some sig →
         nodeIDs !! k = Some id → verifier_Verify d sig id = Ok tt)
  | MInLookup found txs context => ∃ batchID, MscLookupBatch batchID context ∈ out ∧
      (found = true → ∀ l, txs = Some l → batchID = batch_id (tx_id <$> l))
  | _ => True
  end.

(** ** Frames: the three parts have their own state and their own requests *)
Inductive part := PCreate | PVerify | PReconstruct.
Definition part_of (ev : msc_event) : option part :=
  match ev with
  | MscVerifySigs _ _ _ _ | MscCertVerified _ _ _ => Some PVerify
  | MscLookupBatch _ _ | MscProvideTransactions _ _ _ => Some PReconstruct
  | MscSignRequest _ _ _ => Some PCreate
  | _ => None
  end.

(** A command of another part than verification, or than reconstruction. *)
Definition frame_verify (v : certVerificationState) (out0 : list msc_event) (st : MscState)
    (out : list msc_event) : Prop :=
  ms_verify st = v ∧ ∃ es, out = out0 ++ es ∧ Forall (λ ev, part_of ev ≠ Some PVerify) es.
Definition frame_reconstruct (r : batchRecState) (out0 : list msc_event) (st : MscState)
    (out : list msc_event) : Prop :=
  ms_reconstruct st = r ∧ ∃ es, out = out0 ++ es ∧ Forall (λ ev, part_of ev ≠ Some PReconstruct) es.

Lemma frame_verify_emit v out0 ev : part_of ev ≠ Some PVerify → keeps (frame_verify v out0) (emit ev).
Proof.
  intros He. apply keeps_emit. intros s out (? & es & -> & Hes). split; [done|].
  exists (es ++ [ev]). rewrite (assoc_L (++)). split; [done|]. by apply Forall_app_2; [|apply list.Forall_singleton].
Qed.
Lemma frame_reconstruct_emit r out0 ev :
  part_of ev ≠ Some PReconstruct → keeps (frame_reconstruct r out0) (emit ev).
Proof.
  intros He. apply keeps_emit. intros s out (? & es & -> & Hes). split; [done|].
  exists (es ++ [ev]). rewrite (assoc_L (++)). split; [done|]. by apply Forall_app_2; [|apply list.Forall_singleton].
Qed.

Ltac frame_v := repeat first
  [ apply frame_verify_emit; done
  | apply keeps_modify; intros s o [? ?]; done
  | keeps_step ].
Ltac frame_r := repeat first
  [ apply frame_reconstruct_emit; done
  | apply keeps_modify; intros s o [? ?]; done
  | keeps_step ].

Definition verify_input (i : msc_input) : bool :=
  match i with MInVerifyCert _ _ | MInSigsVerified _ _ => true | _ => false end.
Definition reconstruct_input (i : msc_input) : bool :=
  match i with
  | MInRequestTransactions _ _ | MInLookup _ _ _ | MInRequestBatch _ _ _ | MInProvideBatch _ _ _ _
  | MInBatchID _ (RequestedBatch _ _ _ _) => true
  | _ => false
  end.

Lemma apply_frame_verify rng i v out0 :
  verify_input i = false → keeps (frame_verify v out0) (msc_apply rng i).
Proof.
  intros Hi.
  destruct i as [| | |? []|? []| | | |[]| | | | |? ? []| |]; try done; cbn [msc_apply];
    unfold UponComputeCert, UponRequestCert, UponNewBatch, UponBatchIDResponse_own, UponBatchIDResponse_received,
      UponBatchIDResponse_requested, UponTransactionIDsResponse_received, UponTransactionIDsResponse_requested,
      UponSigMessageReceived, UponSigVerified, UponRequestSigMessageReceived, UponBatchStored, UponSignResult,
      UponRequestTransactions, UponLookupBatchResponse_local, UponLookupBatchResponse_remote,
      UponRequestBatchMessageReceived, UponProvideBatchMessageReceived, saveAndFinish, respondIfReady, respond;
    frame_v.
Qed.

Lemma apply_frame_reconstruct rng i r out0 :
  reconstruct_input i = false → keeps (frame_reconstruct r out0) (msc_apply rng i).
Proof.
  intros Hi.
  destruct i as [| | |? []|? []| | | |[]| | | | |? ? []| |]; try done; cbn [msc_apply];
    unfold UponComputeCert, UponRequestCert, UponNewBatch, UponBatchIDResponse_own, UponBatchIDResponse_received,
      UponTransactionIDsResponse_received, UponTransactionIDsResponse_requested,
      UponSigMessageReceived, UponSigVerified, UponRequestSigMessageReceived, UponBatchStored, UponSignResult,
      UponVerifyCert, UponSigsVerified, respondIfReady, respond;
    frame_r.
Qed.

(** ** What is stored and signed *)
Definition store_ok (ins : list msc_input) (out : list msc_event) (ev : msc_event) : Prop :=
  match ev with
  | MscRequestTransactionIDs txs (ReceivedTxs _ txs' _) | MscRequestTransactionIDs txs (RequestedTxs _ txs' _) =>
      txs' = txs
  | MscRequestBatchID txIDs (ReceivedBatch _ _ txs _) | MscRequestBatchID txIDs (RequestedBatch _ txs _ _) =>
      txIDs = tx_id <$> txs
  | MscStoreBatch batchID txs _ context =>
      batchID = batch_id (tx_id <$> txs) ∧
      match context with StoreReceived _ _ b => b = batchID | StoreRequested => True end
  | MscSignRequest data src reqID => ∃ batchID txs r,
      data = SigData (mp_InstanceUID params) batchID ∧
      MscStoreBatch batchID txs r (StoreReceived src reqID batchID) ∈ out ∧
      MInBatchStored (StoreReceived src reqID batchID) ∈ ins
  | _ => True
  end.
Definition StoreInv (ins : list msc_input) (_ : MscState) (out : list msc_event) : Prop :=
  ∀ ev, ev ∈ out → store_ok ins out ev.

Lemma store_ok_mono ins ins' out out' ev :
  ins ⊆ ins' → out ⊆ out' → store_ok ins out ev → store_ok ins' out' ev.
Proof.
  intros Hi Ho. destruct ev; simpl; try done. intros (b & txs & r & ? & ? & ?). exists b, txs, r. auto.
Qed.

Lemma StoreInv_emit ins ev :
  (∀ out, store_ok ins out ev) → keeps (StoreInv ins) (emit ev).
Proof.
  intros He. apply keeps_emit. intros s out Hi ev' [?|[->|?%not_elem_of_nil]%elem_of_cons]%elem_of_app;
    [|done|done]. eapply store_ok_mono; [done| |by apply Hi]. set_solver.
Qed.

Lemma StoreInv_emit_out ins s out ev :
  StoreInv ins s out → store_ok ins out ev → wp (emit ev) (λ _, StoreInv ins) s out.
Proof.
  intros Hi He. apply wp_emit. intros ev' [?|[->|?%not_elem_of_nil]%elem_of_cons]%elem_of_app;
    [..|done]; eapply store_ok_mono; [done| |by apply Hi|done| |exact He]; set_solver.
Qed.

Ltac store :=
  try match goal with |- ∀ st out, StoreInv ?l st out → _ => refine (_ : keeps (StoreInv l) _) end;
  repeat first
  [ apply StoreInv_emit; by intros
  | apply keeps_modify; by intros
  | keeps_step ].

Lemma keeps_saveAndFinish ins reqID txs b origin : keeps (StoreInv ins) (saveAndFinish reqID txs b origin).
Proof. unfold saveAndFinish. store. Qed.

Lemma StoreInv_apply rng i ins st out :
  StoreInv ins st out → msc_answers out i →
  wp (msc_apply rng i) (λ _, StoreInv (ins ++ [i])) st out.
Proof.
  intros Hi0 Ha. assert (StoreInv (ins ++ [i]) st out) as Hi.
  { intros ev Hev. eapply store_ok_mono; [|done|by apply Hi0]. set_solver. }
  clear Hi0. revert st out Hi Ha.
  destruct i as [| | |b []|l []| | | |[src reqID b|]| | | | |? ? []| |]; cbn [msc_apply msc_answers];
    intros st out Hi Ha.
  - clear Ha. revert st out Hi. unfold UponComputeCert. store.
  - clear Ha. revert st out Hi. unfold UponRequestCert, respondIfReady, respond. store.
  - clear Ha. revert st out Hi. unfold UponNewBatch, respond. store.
  - clear Ha. revert st out Hi. unfold UponBatchIDResponse_own. store.
  - destruct Ha as (txIDs' & Hr & ->). pose proof (Hi _ Hr) as Hok. simpl in Hok. subst.
    by apply StoreInv_emit_out.
  - destruct Ha as (txIDs' & Hr & ->). pose proof (Hi _ Hr) as Hok. simpl in Hok. subst.
    unfold UponBatchIDResponse_requested. do 2 wp_step. destruct (br_RequestState _ !! reqID); [|by wp_step].
    wp_step; [by wp_step|]. wp_step. eapply wp_mono; [by apply StoreInv_emit_out|].
    intros [] s o Hs. by apply keeps_saveAndFinish.
  - destruct Ha as (txs' & Hr & ->). pose proof (Hi _ Hr) as Hok. simpl in Hok. subst.
    by apply StoreInv_emit_out.
  - destruct Ha as (txs' & Hr & ->). pose proof (Hi _ Hr) as Hok. simpl in Hok. subst.
    by apply StoreInv_emit_out.
  - clear Ha. revert st out Hi. unfold UponSigMessageReceived. store.
  - clear Ha. revert st out Hi. unfold UponSigVerified, respondIfReady, respond. store.
  - clear Ha. revert st out Hi. unfold UponRequestSigMessageReceived. store.
  - destruct Ha as (b' & txs & r & Hr). destruct (Hi _ Hr) as [-> ->].
    apply StoreInv_emit_out; [done|]. eexists _, txs, r. split_and!; [done|done|set_solver].
  - by wp_step.
  - clear Ha. revert st out Hi. unfold UponSignResult. store.
  - clear Ha. revert st out Hi. unfold UponVerifyCert. store.
  - clear Ha. revert st out Hi. unfold UponSigsVerified. store.
  - clear Ha. revert st out Hi. unfold UponRequestTransactions. store.
  - clear Ha. revert st out Hi. unfold UponLookupBatchResponse_local. store. apply keeps_saveAndFinish.
  - clear Ha. revert st out Hi. unfold UponLookupBatchResponse_remote. store.
  - clear Ha. revert st out Hi. unfold UponRequestBatchMessageReceived. store.
  - clear Ha. revert st out Hi. unfold UponProvideBatchMessageReceived. store.
Qed.

(** ** Verified certificates *)
Lemma no_repetition_spec seen l : no_repetition seen l = true ↔ NoDup l ∧ ∀ id, id ∈ l → id ∉ seen.
Proof.
  revert seen. induction l as [|id l IH]; intros seen; simpl.
  { split; [intros _; split; [constructor|set_solver]|done]. }
  case_bool_decide as Hin; [split; [done|]; intros [_ H]; by destruct (H id); [left|]|].
  rewrite IH, list.NoDup_cons. clear IH. split.
  - intros [Hnd H]. split_and!; [|done|].
    + intros Hid. specialize (H id Hid). set_solver.
    + intros x [->|Hx]%elem_of_cons; [done|]. specialize (H x Hx). set_solver.
  - intros [[Hni Hnd] H]. split; [done|]. intros x Hx [->%elem_of_singleton|Hs]%elem_of_union; [done|].
    apply (H x); [by right|done].
Qed.

Definition structure_ok (certs : list MscCert) : Prop :=
  ∀ c, c ∈ certs → HaveWeakQuorum (mp_Membership params) (msc_Signers c) = Ok true ∧
    length (msc_Signers c) = length (msc_Signatures c) ∧ NoDup (msc_Signers c).

Lemma structure_spec cert certs :
  verifyCertificateStructure params cert = Ok certs → cert = CertMscs certs ∧ structure_ok certs.
Proof.
  destruct cert as [|l]; simpl; [done|]. intros H. outcome_inv. split; [done|].
  revert Hr. generalize tt at 1. induction certs as [|c0 certs IH]; intros u Hr c; [set_solver|]. simpl in Hr.
  destruct (verify_one params c0) as [[]| |] eqn:Hv; [|done..].
  intros [->|Hc]%elem_of_cons; [|by eapply IH].
  unfold verify_one in Hv. outcome_inv. destruct r0; [|done]. simpl in Hv.
  case_bool_decide as Hl; [done|]. destruct (no_repetition ∅ (msc_Signers c0)) eqn:Hn; [|done].
  apply no_repetition_spec in Hn as [? _]. done.
Qed.

(** All signatures of the certificate are valid. *)
Definition cert_signed (c : MscCert) : Prop :=
  ∀ k id sig, msc_Signers c !! k = Some id → msc_Signatures c !! k = Some sig →
    verifier_Verify (SigData (mp_InstanceUID params) (msc_BatchId c)) sig id = Ok tt.

Definition certified (ins : list msc_input) (origin : Origin) : Prop :=
  ∃ certs, MInVerifyCert (CertMscs certs) origin ∈ ins ∧ structure_ok certs ∧
    ∀ c, c ∈ certs → ∃ c', c' ∈ certs ∧ msc_BatchId c' = msc_BatchId c ∧ cert_signed c'.

(** [g] remembers the certificates and the origin of every request. *)
Record VerInv (ins : list msc_input) (v : certVerificationState) (out : list msc_event)
    (g : gmap RequestID (list MscCert * Origin)) : Prop := {
  vi_next : (vs_NextReqID v ≤ N.of_nat (length ins))%N;
  vi_dom : ∀ r, is_Some (g !! r) → (r < vs_NextReqID v)%N;
  vi_req : ∀ data signatures nodeIDs ctx, MscVerifySigs data signatures nodeIDs ctx ∈ out →
    ∃ certs, g !! vs_reqID ctx = Some (certs, vs_origin ctx) ∧ vs_cert ctx ∈ certs ∧
      data = replicate (length (msc_Signers (vs_cert ctx)))
               (SigData (mp_InstanceUID params) (msc_BatchId (vs_cert ctx))) ∧
      signatures = msc_Signatures (vs_cert ctx) ∧ nodeIDs = msc_Signers (vs_cert ctx);
  vi_state : ∀ r m, vs_RequestState v !! r = Some m → ∃ certs origin, g !! r = Some (certs, origin) ∧
    MInVerifyCert (CertMscs certs) origin ∈ ins ∧ structure_ok certs ∧
    (∀ c, c ∈ certs → is_Some (m !! msc_BatchId c)) ∧
    ∀ b, m !! b = Some true → ∃ c, c ∈ certs ∧ msc_BatchId c = b ∧ cert_signed c;
  vi_out : ∀ dest origin, MscCertVerified dest true origin ∈ out → certified ins origin;
}.

Lemma certified_mono ins ins' origin : ins ⊆ ins' → certified ins origin → certified ins' origin.
Proof. intros Hs (certs & ? & ?). exists certs. auto. Qed.

Lemma VerInv_mono ins i v out g : VerInv ins v out g → VerInv (ins ++ [i]) v out g.
Proof.
  intros [Hn Hd Hr Hs Ho]. pose proof (subseteq_snoc ins i) as Hsub. split; try done.
  - rewrite length_app. lia.
  - intros r m (certs & origin & ? & ? & ?)%Hs. exists certs, origin. auto.
  - intros dest origin H%Ho. by eapply certified_mono.
Qed.

Lemma VerInv_frame ins v out es g :
  VerInv ins v out g → Forall (λ ev, part_of ev ≠ Some PVerify) es → VerInv ins v (out ++ es) g.
Proof.
  intros [Hn Hd Hr Hs Ho] Hes. rewrite list.Forall_forall in Hes. split; try done.
  - intros data signatures nodeIDs ctx [?|Hev]%elem_of_app; [by eapply Hr|]. by apply Hes in Hev.
  - intros dest origin [?|Hev]%elem_of_app; [by eapply Ho|]. by apply Hes in Hev.
Qed.

(** The loop that requests the verification of the signatures. *)
Lemma verify_loop origin reqID (certs : list MscCert) st out m :
  vs_RequestState (ms_verify st) !! reqID = Some m →
  wp (mfor certs (λ mscCert,
        modify (upd_verify (λ s, set_verifications
          (alter (insert (msc_BatchId mscCert) false) reqID (vs_RequestState s)) s));;
        emit (MscVerifySigs
          (replicate (length (msc_Signers mscCert)) (SigData (mp_InstanceUID params) (msc_BatchId mscCert)))
          (msc_Signatures mscCert) (msc_Signers mscCert) (mkVerifySigsContext origin reqID mscCert))))
    (λ _ st' out', vs_NextReqID (ms_verify st') = vs_NextReqID (ms_verify st) ∧
       vs_RequestState (ms_verify st') =
         <[reqID := foldl (λ m c, <[msc_BatchId c := false]> m) m certs]> (vs_RequestState (ms_verify st)) ∧
       out' = out ++ ((λ c, MscVerifySigs
          (replicate (length (msc_Signers c)) (SigData (mp_InstanceUID params) (msc_BatchId c)))
          (msc_Signatures c) (msc_Signers c) (mkVerifySigsContext origin reqID c)) <$> certs)) st out.
Proof.
  revert st out m. induction certs as [|c certs IH]; intros st out m Hm; cbn [mfor].
  { apply wp_skip. simpl. rewrite app_nil_r. split_and!; [done| |done]. symmetry. by apply insert_id. }
  repeat wp_step. eapply wp_mono; [eapply IH; simpl; by rewrite lookup_alter_eq, Hm|].
  intros [] st' out' (-> & -> & ->). simpl. split_and!; [done| |by rewrite <- (assoc_L (++))].
  apply map_eq. intros r. destruct (decide (r = reqID)) as [->|];
    [by rewrite !lookup_insert_eq|by rewrite !lookup_insert_ne, lookup_alter_ne by done].
Qed.

Lemma all_false certs (m : gmap BatchID bool) :
  let m' := foldl (λ m c, <[msc_BatchId c := false]> m) m certs in
  (∀ c, c ∈ certs → is_Some (m' !! msc_BatchId c)) ∧
  (∀ b, is_Some (m !! b) → is_Some (m' !! b)) ∧ ∀ b, m' !! b = Some true → m !! b = Some true.
Proof.
  revert m. induction certs as [|c certs IH]; intros m; simpl; [split_and!; [set_solver|done..]|].
  destruct (IH (<[msc_BatchId c := false]> m)) as (H1 & H2 & H3). split_and!.
  - intros c' [->|?]%elem_of_cons; [|by apply H1]. apply H2. rewrite lookup_insert_eq. by eexists.
  - intros b Hb. apply H2. apply lookup_insert_is_Some'. by right.
  - intros b [[_ ?]|[_ ?]]%H3%lookup_insert_Some; done.
Qed.

Lemma UponVerifyCert_inv ins cert origin st out g :
  VerInv ins (ms_verify st) out g → MInVerifyCert cert origin ∈ ins →
  (vs_NextReqID (ms_verify st) + 1 < u64_max)%N → (vs_NextReqID (ms_verify st) < N.of_nat (length ins))%N →
  wp (UponVerifyCert params cert origin) (λ _ st' out', ∃ g', VerInv ins (ms_verify st') out' g') st out.
Proof.
  intros [Hn Hd Hr Hs Ho] Hin Hmax Hlen. unfold UponVerifyCert. do 4 wp_step.
  set (reqID := vs_NextReqID (ms_verify st)) in *.
  assert (u64_succ reqID = reqID + 1)%N as Hsucc by (apply wrap_u64_small; done).
  assert (∀ r, is_Some (g !! r) → (r < u64_succ reqID)%N) as Hd' by (intros r ?%Hd; lia).
  destruct (verifyCertificateStructure params cert) as [certs| |] eqn:Hv; [| |by wp_step].
  2:{ wp_step. exists g. split; simpl; try done; [lia| |].
      - intros ? ? ? ? [?|[|?%not_elem_of_nil]%elem_of_cons]%elem_of_app; [by eapply Hr|done..].
      - intros ? ? [?|[|?%not_elem_of_nil]%elem_of_cons]%elem_of_app; [by eapply Ho|done..]. }
  apply structure_spec in Hv as [-> Hst].
  destruct certs as [|c certs].
  { wp_step. exists g. split; simpl; try done; [lia| |].
    - intros ? ? ? ? [?|[|?%not_elem_of_nil]%elem_of_cons]%elem_of_app; [by eapply Hr|done..].
    - intros ? ? [?|[[= -> ->]|?%not_elem_of_nil]%elem_of_cons]%elem_of_app; [by eapply Ho| |done].
      exists []. split_and!; [done|intros ?; set_solver|set_solver]. }
  do 2 wp_step. set (l := c :: certs) in *.
  eapply wp_mono; [apply (verify_loop origin reqID l _ _ ∅); simpl; apply lookup_insert_eq|].
  intros [] st' out' (Hn' & Hs' & ->). simpl in Hn', Hs'. rewrite insert_insert_eq in Hs'.
  destruct (all_false l ∅) as (Ha1 & _ & Ha3). exists (<[reqID := (l, origin)]> g).
  assert (g !! reqID = None) as Hfresh.
  { destruct (g !! reqID) eqn:E; [|done]. assert (reqID < reqID)%N by (apply Hd; by eexists). lia. }
  split.
  - rewrite Hn'. lia.
  - rewrite Hn'. intros r [->|?]%lookup_insert_is_Some'; [lia|by apply Hd'].
  - intros data signatures nodeIDs ctx [Hev|Hev]%elem_of_app.
    + destruct (Hr _ _ _ _ Hev) as (certs' & Hg & ?). exists certs'. split; [|done].
      rewrite lookup_insert_ne; [done|]. intros Heq. rewrite Heq in Hfresh. congruence.
    + apply list_elem_of_fmap in Hev as (c' & [= -> -> -> ->] & Hc'). exists l. simpl.
      by rewrite lookup_insert_eq.
  - rewrite Hs'. intros r m Hm. apply lookup_insert_Some in Hm as [[<- <-]|[Hne Hm]].
    + exists l, origin. rewrite lookup_insert_eq. split_and!; [done..|]. by intros b ?%Ha3.
    + destruct (Hs _ _ Hm) as (certs' & o & Hg & ?). exists certs', o. by rewrite lookup_insert_ne.
  - intros dest o [?|(? & ? & _)%list_elem_of_fmap]%elem_of_app; [by eapply Ho|done].
Qed.

Lemma UponSigsVerified_inv ins allOK ctx st out g :
  VerInv ins (ms_verify st) out g → msc_answers out (MInSigsVerified allOK ctx) →
  wp (UponSigsVerified allOK ctx) (λ _ st' out', ∃ g', VerInv ins (ms_verify st') out' g') st out.
Proof.
  intros Hi Ha. pose proof Hi as [Hn Hd Hr Hs Ho]. destruct Ha as (data & signatures & nodeIDs & Hev & Hok).
  destruct (Hr _ _ _ _ Hev) as (certs & Hg & Hc & -> & -> & ->).
  unfold UponSigsVerified. do 2 wp_step.
  destruct (vs_RequestState (ms_verify st) !! vs_reqID ctx) as [m|] eqn:Hm; [|wp_step; by exists g].
  destruct (Hs _ _ Hm) as (certs' & origin & Hg' & Hin & Hst & Hdom & Htrue).
  rewrite Hg in Hg'. injection Hg' as <- <-. do 2 wp_step.
  set (m' := <[_ := allOK]> m).
  assert (∀ c, c ∈ certs → is_Some (m' !! msc_BatchId c)) as Hdom'.
  { intros c ?. apply lookup_insert_is_Some'. right. auto. }
  assert (∀ b, m' !! b = Some true → ∃ c, c ∈ certs ∧ msc_BatchId c = b ∧ cert_signed c) as Htrue'.
  { intros b [[<- Hall]|[_ ?]]%lookup_insert_Some; [|auto]. exists (vs_cert ctx). split_and!; [done..|].
    intros k id sig Hid Hsig. destruct (Hst _ Hc) as (_ & Hlen & _).
    eapply (Hok Hall k); [|done|done]. apply lookup_replicate. split; [done|].
    by eapply lookup_lt_Some. }
  wp_step.
  - do 3 wp_step. exists g. split; simpl; try done.
    + intros ? ? ? ? [?|[|?%not_elem_of_nil]%elem_of_cons]%elem_of_app; [by eapply Hr|done..].
    + intros r x. rewrite lookup_delete_Some, lookup_insert_Some. intros [Hne [[? _]|[_ Hx]]]; [done|auto].
    + intros ? ? [?|[|?%not_elem_of_nil]%elem_of_cons]%elem_of_app; [by eapply Ho|done..].
  - wp_step.
    + do 3 wp_step. exists g. split; simpl; try done.
      * intros ? ? ? ? [?|[|?%not_elem_of_nil]%elem_of_cons]%elem_of_app; [by eapply Hr|done..].
      * intros r x. rewrite lookup_delete_Some, lookup_insert_Some. intros [Hne [[? _]|[_ Hx]]]; [done|auto].
      * intros ? ? [?|[[= -> ->]|?%not_elem_of_nil]%elem_of_cons]%elem_of_app; [by eapply Ho| |done].
        exists certs. split_and!; [done..|]. intros c Hcc. destruct (Hdom' _ Hcc) as [b Hb].
        destruct b; [by apply Htrue'|]. exfalso. rewrite forallb_forall in Heqb0.
        specialize (Heqb0 false). simpl in Heqb0. assert (false = true); [|done]. apply Heqb0.
        apply list_elem_of_In, list_elem_of_fmap. eexists (_, false). split; [done|]. by apply elem_of_map_to_list.
    + wp_step. exists g. split; simpl; try done.
      intros r x [[<- <-]|[_ Hx]]%lookup_insert_Some; [|auto]. exists certs, (vs_origin ctx). auto.
Qed.

Lemma VerInv_apply rng i ins st out g :
  VerInv ins (ms_verify st) out g → (N.of_nat (length (ins ++ [i])) < u64_max)%N → msc_answers out i →
  wp (msc_apply rng i) (λ _ st' out', ∃ g', VerInv (ins ++ [i]) (ms_verify st') out' g') st out.
Proof.
  intros Hi Hlen Ha. pose proof (VerInv_mono _ i _ _ _ Hi) as Hi'.
  destruct (verify_input i) eqn:Hvi.
  - pose proof (vi_next _ _ _ _ Hi). rewrite length_app in *. simpl in *.
    destruct i; try done; simpl.
    + apply (UponVerifyCert_inv _ _ _ _ _ g); [done|set_solver|lia|]. rewrite length_app. simpl. lia.
    + by apply (UponSigsVerified_inv _ _ _ _ _ g).
  - eapply wp_mono; [apply (apply_frame_verify rng i (ms_verify st) out Hvi)|].
    + split; [done|]. exists []. by rewrite app_nil_r.
    + intros [] st' out' (-> & es & -> & Hes). exists g. by apply VerInv_frame.
Qed.

Definition msc_run (st : MscState) (ins : list msc_input) (out : list msc_event) : Prop :=
  reach msc_apply msc_answers (NewModule params) st ins out.

Lemma msc_run_store st ins out : msc_run st ins out → StoreInv ins st out.
Proof.
  apply (reach_invariant _ _ _ (λ st ins out, StoreInv ins st out)); [intros ev; set_solver|].
  intros s ins' out' rng i. apply StoreInv_apply.
Qed.

Lemma msc_run_verify st ins out :
  msc_run st ins out → (N.of_nat (length ins) < u64_max)%N → ∃ g, VerInv ins (ms_verify st) out g.
Proof.
  apply (reach_invariant _ _ _ (λ st ins out,
    (N.of_nat (length ins) < u64_max)%N → ∃ g, VerInv ins (ms_verify st) out g)).
  - intros _. exists ∅. split; simpl; try done; try set_solver. intros r [? ?]. by simplify_map_eq.
  - intros s ins' out' rng i Hi Ha. unfold wp. destruct (msc_apply rng i s) as [[[[] s'] es]| |] eqn:Happ; [|done..].
    intros Hlen. destruct Hi as [g Hg]; [rewrite length_app in Hlen; lia|].
    exact (wp_Ok _ _ _ _ _ _ _ (VerInv_apply rng i ins' s out' g Hg Hlen Ha) Happ).
Qed.
End runs.

(** C16 (safety).  What the availability layer reports as verified is available: every batch of the
    certificate was signed, under the identifier of this instance, by a member outside any
    faulty set of at most f of the voting weight, whatever messages the collector received and in
    whatever order the signatures were checked. *)
Theorem verified_certificate_available {ids : MempoolIds} {sigs : Verifier} params st ins out dest origin :
  msc_run params st ins out → (N.of_nat (length ins) < u64_max)%N →
  MscCertVerified dest true origin ∈ out →
  ∃ certs, MInVerifyCert (CertMscs certs) origin ∈ ins ∧
    ∀ faulty c, fault_bound (mp_Membership params) faulty → c ∈ certs →
      ∃ id sig, id ∉ faulty ∧ is_Some (Nodes (mp_Membership params) !! id) ∧
        verifier_Verify (SigData (mp_InstanceUID params) (msc_BatchId c)) sig id = Ok tt.
Proof.
  intros Hr Hlen Hout. destruct (msc_run_verify _ _ _ _ Hr Hlen) as [g Hg].
  destruct (vi_out _ _ _ _ _ Hg _ _ Hout) as (certs & Hin & Hst & Hc).
  exists certs. split; [done|]. intros faulty c [Hv Hf] (c' & Hc' & <- & Hsig)%Hc.
  destruct (Hst _ Hc') as (Hq & Hl & Hnd). destruct (HaveWeakQuorum_true _ Hv _ Hq) as [Hm Hw].
  destruct (heavier_than_faulty _ Hv faulty (msc_Signers c')) as (id & Hid & Hni);
    [done|done|unfold weak_q in Hw; lia|].
  apply list_elem_of_lookup in Hid as [k Hk].
  destruct (lookup_lt_is_Some_2 (msc_Signatures c') k) as [sig Hs]; [rewrite <- Hl; by eapply lookup_lt_Some|].
  exists id, sig. split_and!; [done|apply Hm; by eapply list_elem_of_lookup_2|by eapply Hsig].
Qed.

(** A node signs only what it stored: each signature it requests is on the identifier
    of a batch that the batch database reported as stored, and every batch it stores, whoever
    sent the transactions, is stored under the identifier computed from them. *)
Theorem collector_signs_what_it_stores {ids : MempoolIds} {sigs : Verifier} params st ins out :
  msc_run params st ins out →
  (∀ batchID txs r ctx, MscStoreBatch batchID txs r ctx ∈ out → batchID = batch_id (tx_id <$> txs)) ∧
  (∀ data src reqID, MscSignRequest data src reqID ∈ out → ∃ txs r,
     let batchID := batch_id (tx_id <$> txs) in
     data = SigData (mp_InstanceUID params) batchID ∧
     MscStoreBatch batchID txs r (StoreReceived src reqID batchID) ∈ out ∧
     MInBatchStored (StoreReceived src reqID batchID) ∈ ins).
Proof.
  intros Hi%msc_run_store. split.
  - intros batchID txs r ctx Hev. apply (Hi _ Hev).
  - intros data src reqID Hev. destruct (Hi _ Hev) as (b & txs & r & -> & Hs & Hin).
    destruct (Hi _ Hs) as [-> _]. by exists txs, r.
Qed.

(** ** Reconstruction of batches *)
Section reconstruction.
Context {ids : MempoolIds} {sigs : Verifier} (params : MscParams).

(** The transactions are those of the certificates' batches, in order. *)
Definition transactions_of (certs : list MscCert) (txs : list Transaction) : Prop :=
  ∃ batches, txs = concat batches ∧ msc_BatchId <$> certs = (λ b, batch_id (tx_id <$> b)) <$> batches.

Record RecInv (ins : list msc_input) (r : batchRecState) (out : list msc_event)
    (g : gmap RequestID (list MscCert * Origin)) : Prop := {
  ri_next : (br_NextReqID r ≤ N.of_nat (length ins))%N;
  ri_dom : ∀ q, is_Some (g !! q) → (q < br_NextReqID r)%N;
  ri_lookup : ∀ b c origin q, MscLookupBatch b (LookupLocally c origin q) ∈ out →
    b = msc_BatchId c ∧ ∃ certs, g !! q = Some (certs, origin);
  ri_state : ∀ q req, br_RequestState r !! q = Some req → ∃ certs, g !! q = Some (certs, rr_ReqOrigin req) ∧
    MInRequestTransactions (CertMscs certs) (rr_ReqOrigin req) ∈ ins ∧
    rr_NonEmptyCerts req = msc_BatchId <$> certs ∧
    ∀ b txs, rr_Txs req !! b = Some (Some txs) → b = batch_id (tx_id <$> txs);
  ri_out : ∀ dest txs origin, MscProvideTransactions dest txs origin ∈ out →
    ∃ certs, MInRequestTransactions (CertMscs certs) origin ∈ ins ∧ transactions_of certs txs;
}.

Lemma RecInv_mono ins i r out g : RecInv ins r out g → RecInv (ins ++ [i]) r out g.
Proof.
  intros [Hn Hd Hl Hs Ho]. pose proof (subseteq_snoc ins i) as Hsub. split; try done.
  - rewrite length_app. lia.
  - intros q req (certs & ? & ? & ?)%Hs. exists certs. auto.
  - intros dest txs origin (certs & ? & ?)%Ho. exists certs. auto.
Qed.

Lemma RecInv_frame ins r out es g :
  RecInv ins r out g → Forall (λ ev, part_of ev ≠ Some PReconstruct) es → RecInv ins r (out ++ es) g.
Proof.
  intros [Hn Hd Hl Hs Ho] Hes. rewrite list.Forall_forall in Hes. split; try done.
  - intros b c origin q [?|Hev]%elem_of_app; [by eapply Hl|]. by apply Hes in Hev.
  - intros dest txs origin [?|Hev]%elem_of_app; [by eapply Ho|]. by apply Hes in Hev.
Qed.

Lemma RecInv_emit ins r out ev g :
  RecInv ins r out g → part_of ev ≠ Some PReconstruct → RecInv ins r (out ++ [ev]) g.
Proof. intros Hi Hev. apply RecInv_frame; [done|]. by apply list.Forall_singleton. Qed.

Lemma collect_txs_spec m (l : list BatchID) txs :
  (∀ b ts, m !! b = Some (Some ts) → b = batch_id (tx_id <$> ts)) →
  collect_txs m l = Some txs →
  ∃ batches, txs = concat batches ∧ l = (λ b, batch_id (tx_id <$> b)) <$> batches.
Proof.
  intros Hm. revert txs. induction l as [|b l IH]; intros txs; simpl.
  { intros [= <-]. by exists []. }
  destruct (m !! b) as [[ts|]|] eqn:Hb; simpl; [|done..].
  destruct (collect_txs m l) as [rest|] eqn:Hc; simpl; [|done]. intros [= <-].
  destruct (IH rest eq_refl) as (batches & -> & ->). exists (ts :: batches). split; [done|].
  simpl. f_equal. by apply Hm.
Qed.

Lemma saveAndFinish_inv ins q txs b origin st out g certs :
  RecInv ins (ms_reconstruct st) out g → g !! q = Some (certs, origin) →
  (∀ l, txs = Some l → b = batch_id (tx_id <$> l)) →
  wp (saveAndFinish q txs b origin) (λ _ st' out', RecInv ins (ms_reconstruct st') out' g) st out.
Proof.
  intros [Hn Hd Hl Hs Ho] Hg Hb. unfold saveAndFinish. do 4 wp_step. rename a into req.
  unfold deref in Hlift. destruct (br_RequestState (ms_reconstruct st) !! q) as [req'|] eqn:Hq; [|done].
  injection Hlift as ->. destruct (Hs _ _ Hq) as (certs' & Hg' & Hin & Hne & Htxs).
  rewrite Hg in Hg'. injection Hg' as <- ->. do 2 wp_step.
  assert (∀ b' l, <[b := txs]> (rr_Txs req) !! b' = Some (Some l) → b' = batch_id (tx_id <$> l)) as Htxs'.
  { intros b' l [[<- ?]|[_ ?]]%lookup_insert_Some; auto. }
  cbn [rr_Txs rr_NonEmptyCerts]. destruct (collect_txs _ _) as [allTxs|] eqn:Hc.
  - repeat wp_step. split; simpl; try done.
    + intros ? ? ? ? [?|[|?%not_elem_of_nil]%elem_of_cons]%elem_of_app; [by eapply Hl|done..].
    + intros q' req'. rewrite lookup_delete_Some, lookup_insert_Some. intros [? [[? _]|[_ ?]]]; [done|auto].
    + intros ? ? ? [?|[[= -> -> ->]|?%not_elem_of_nil]%elem_of_cons]%elem_of_app; [by eapply Ho| |done].
      exists certs. split; [done|]. rewrite Hne in Hc. by apply collect_txs_spec in Hc.
  - wp_step. split; simpl; try done.
    intros q' req' [[<- <-]|[_ ?]]%lookup_insert_Some; [|auto]. exists certs. done.
Qed.

(** The loop that looks the batches up. *)
Lemma lookup_loop origin q (certs : list MscCert) st out req :
  br_RequestState (ms_reconstruct st) !! q = Some req →
  wp (mfor certs (λ c,
        modify (upd_reconstruct (λ s, set_rec_requests
          (alter (λ req, mkRecRequestState (rr_NonEmptyCerts req ++ [msc_BatchId c])
                           (<[msc_BatchId c := None]> (rr_Txs req)) (rr_ReqOrigin req))
             q (br_RequestState s)) s));;
        emit (MscLookupBatch (msc_BatchId c) (LookupLocally c origin q))))
    (λ _ st' out', br_NextReqID (ms_reconstruct st') = br_NextReqID (ms_reconstruct st) ∧
       (∃ req', br_RequestState (ms_reconstruct st') = <[q := req']> (br_RequestState (ms_reconstruct st)) ∧
          rr_NonEmptyCerts req' = rr_NonEmptyCerts req ++ (msc_BatchId <$> certs) ∧
          rr_ReqOrigin req' = rr_ReqOrigin req ∧
          ∀ b txs, rr_Txs req' !! b = Some (Some txs) → rr_Txs req !! b = Some (Some txs)) ∧
       out' = out ++ ((λ c, MscLookupBatch (msc_BatchId c) (LookupLocally c origin q)) <$> certs)) st out.
Proof.
  revert st out req. induction certs as [|c certs IH]; intros st out req Hq; cbn [mfor].
  { apply wp_skip. simpl. rewrite !app_nil_r. split_and!; [done| |done]. exists req.
    split_and!; [symmetry; by apply insert_id|done..]. }
  repeat wp_step. eapply wp_mono; [eapply IH; simpl; by rewrite lookup_alter_eq, Hq|].
  intros [] st' out' (-> & (req' & -> & Hne & Ho & Ht) & ->). simpl in *. split_and!; [done| |].
  - exists req'. split_and!.
    + apply map_eq. intros r. destruct (decide (r = q)) as [->|];
        [by rewrite !lookup_insert_eq|by rewrite !lookup_insert_ne, lookup_alter_ne by done].
    + by rewrite Hne, <- (assoc_L (++)).
    + done.
    + intros b txs [[_ ?]|[_ ?]]%Ht%lookup_insert_Some; done.
  - by rewrite <- (assoc_L (++)).
Qed.

Lemma UponRequestTransactions_inv ins cert origin st out g :
  RecInv ins (ms_reconstruct st) out g → MInRequestTransactions cert origin ∈ ins →
  (br_NextReqID (ms_reconstruct st) + 1 < u64_max)%N → (br_NextReqID (ms_reconstruct st) < N.of_nat (length ins))%N →
  wp (UponRequestTransactions cert origin) (λ _ st' out', ∃ g', RecInv ins (ms_reconstruct st') out' g') st out.
Proof.
  intros [Hn Hd Hl Hs Ho] Hin Hmax Hlen. unfold UponRequestTransactions.
  destruct cert as [|[|c certs]]; [by wp_step| |].
  { wp_step. exists g. split; simpl; try done.
    - intros ? ? ? ? [?|[|?%not_elem_of_nil]%elem_of_cons]%elem_of_app; [by eapply Hl|done..].
    - intros ? ? ? [?|[[= -> -> ->]|?%not_elem_of_nil]%elem_of_cons]%elem_of_app; [by eapply Ho| |done].
      exists []. split; [done|]. by exists []. }
  do 4 wp_step. set (q := br_NextReqID (ms_reconstruct st)) in *. set (l := c :: certs) in *.
  assert (u64_succ q = q + 1)%N as Hsucc by (apply wrap_u64_small; done).
  eapply wp_mono; [apply (lookup_loop origin q l _ _ (mkRecRequestState [] ∅ origin)); simpl; apply lookup_insert_eq|].
  intros [] st' out' (Hn' & (req' & Hs' & Hne & Horig & Ht) & ->). simpl in Hn', Hs', Hne, Horig, Ht.
  rewrite insert_insert_eq in Hs'. exists (<[q := (l, origin)]> g).
  assert (g !! q = None) as Hfresh.
  { destruct (g !! q) eqn:E; [|done]. assert (q < q)%N by (apply Hd; by eexists). lia. }
  split.
  - rewrite Hn'. lia.
  - rewrite Hn'. intros r [->|?%Hd]%lookup_insert_is_Some'; lia.
  - intros b c' o r [Hev|Hev]%elem_of_app.
    + destruct (Hl _ _ _ _ Hev) as (? & certs' & Hg). split; [done|]. exists certs'.
      rewrite lookup_insert_ne; [done|]. intros Heq. rewrite Heq in Hfresh. congruence.
    + apply list_elem_of_fmap in Hev as (c2 & [= -> -> -> ->] & _). split; [done|]. exists l.
      by rewrite lookup_insert_eq.
  - rewrite Hs'. intros r req [[<- <-]|[Hne' Hreq]]%lookup_insert_Some.
    + exists l. rewrite lookup_insert_eq, Horig. split_and!; [done..|]. intros b txs Hb%Ht. by simplify_map_eq.
    + destruct (Hs _ _ Hreq) as (certs' & Hg & ?). exists certs'. by rewrite lookup_insert_ne.
  - intros dest txs o [?|(? & ? & _)%list_elem_of_fmap]%elem_of_app; [by eapply Ho|done].
Qed.

Lemma RecInv_apply rng i ins st out g :
  RecInv ins (ms_reconstruct st) out g → StoreInv params ins st out →
  (N.of_nat (length (ins ++ [i])) < u64_max)%N → msc_answers out i →
  wp (msc_apply params rng i) (λ _ st' out', ∃ g', RecInv (ins ++ [i]) (ms_reconstruct st') out' g') st out.
Proof.
  intros Hi Hstore Hlen Ha. pose proof (RecInv_mono _ i _ _ _ Hi) as Hi'.
  destruct (reconstruct_input i) eqn:Hri.
  - pose proof (ri_next _ _ _ _ Hi). rewrite length_app in *. simpl in *.
    destruct i as [| | |b []|? []| | | |[]| | |cert origin| |found txs []|from b q|from txs q b]; try done; simpl.
    + destruct Ha as (txIDs' & Hreq & ->). pose proof (Hstore _ Hreq) as Hok. simpl in Hok. subst.
      unfold UponBatchIDResponse_requested. do 2 wp_step.
      destruct (br_RequestState _ !! reqID) as [req|] eqn:Hq; [|wp_step; by exists g].
      wp_step; [wp_step; by exists g|]. apply bool_decide_eq_false in Heqb. do 2 wp_step.
      destruct (ri_state _ _ _ _ Hi' _ _ Hq) as (certs & Hg & _).
      eapply wp_mono; [eapply saveAndFinish_inv; [by apply RecInv_emit|exact Hg|]|].
      * intros l [= <-]. symmetry. by apply dec_stable.
      * intros [] s o Hs. by exists g.
    + apply (UponRequestTransactions_inv _ _ _ _ _ g); [done|set_solver|lia|]. rewrite length_app. simpl. lia.
    + destruct Ha as (b & Hev & Hb). destruct (ri_lookup _ _ _ _ Hi' _ _ _ _ Hev) as (-> & certs & Hg).
      unfold UponLookupBatchResponse_local. do 2 wp_step.
      destruct (br_RequestState _ !! reqID) as [req|] eqn:Hq; [|wp_step; by exists g].
      destruct found.
      * eapply wp_mono; [eapply saveAndFinish_inv; [done|exact Hg|auto]|]. intros [] s o Hs. by exists g.
      * wp_step. exists g. by apply RecInv_emit.
    + unfold UponLookupBatchResponse_remote. destruct found; simpl; wp_step; exists g; [|done]. by apply RecInv_emit.
    + unfold UponRequestBatchMessageReceived. destruct (Nodes _ !! from); wp_step; exists g; [|done].
      destruct Hi' as [Hn Hd Hl Hs Ho]. split; simpl; try done.
      * intros ? ? ? ? [?|[[= _ ?]|?%not_elem_of_nil]%elem_of_cons]%elem_of_app; [by eapply Hl|done..].
      * intros ? ? ? [?|[|?%not_elem_of_nil]%elem_of_cons]%elem_of_app; [by eapply Ho|done..].
    + unfold UponProvideBatchMessageReceived. do 2 wp_step.
      destruct (Nodes (mp_Membership params) !! from), (br_RequestState (ms_reconstruct st) !! q) as [req|]; try (wp_step; by exists g).
      destruct (rr_Txs req !! b), txs; wp_step; exists g; try done. by apply RecInv_emit.
  - eapply wp_mono; [apply (apply_frame_reconstruct params rng i (ms_reconstruct st) out Hri)|].
    + split; [done|]. exists []. by rewrite app_nil_r.
    + intros [] st' out' (-> & es & -> & Hes). exists g. by apply RecInv_frame.
Qed.

Lemma msc_run_reconstruct st ins out :
  msc_run params st ins out → (N.of_nat (length ins) < u64_max)%N → ∃ g, RecInv ins (ms_reconstruct st) out g.
Proof.
  intros Hr. assert (StoreInv params ins st out ∧
    ((N.of_nat (length ins) < u64_max)%N → ∃ g, RecInv ins (ms_reconstruct st) out g)) as [_ ?]; [|done].
  revert st ins out Hr. apply (reach_invariant _ _ _ (λ st ins out, StoreInv params ins st out ∧
    ((N.of_nat (length ins) < u64_max)%N → ∃ g, RecInv ins (ms_reconstruct st) out g))).
  - split; [intros ev; set_solver|]. intros _. exists ∅.
    split; simpl; try done; try set_solver. intros r [? ?]. by simplify_map_eq.
  - intros s ins' out' rng i [Hst Hi] Ha. unfold wp.
    destruct (msc_apply params rng i s) as [[[[] s'] es]| |] eqn:Happ; [|done..]. split.
    + exact (wp_Ok _ _ _ _ _ _ _ (StoreInv_apply params rng i ins' s out' Hst Ha) Happ).
    + intros Hlen. destruct Hi as [g Hg]; [rewrite length_app in Hlen; lia|].
      exact (wp_Ok _ _ _ _ _ _ _ (RecInv_apply rng i ins' s out' g Hg Hst Hlen Ha) Happ).
Qed.
End reconstruction.

#[export] Instance Transaction_eq_dec : EqDecision Transaction.
Proof. solve_decision. Defined.

Lemma same_ids_same_batches {ids : MempoolIds} (bs1 bs2 : list (list Transaction)) :
  (λ b, batch_id (tx_id <$> b)) <$> bs1 = (λ b, batch_id (tx_id <$> b)) <$> bs2 →
  bs1 = bs2 ∨ ∃ b1 b2 : list Transaction, b1 ≠ b2 ∧ batch_id (tx_id <$> b1) = batch_id (tx_id <$> b2).
Proof.
  revert bs2. induction bs1 as [|b1 bs1 IH]; intros [|b2 bs2]; simpl; try done; [by left|].
  intros [= Hb Hbs]. destruct (decide (b1 = b2)) as [->|]; [|right; by exists b1, b2].
  destruct (IH bs2 Hbs) as [->|?]; [by left|by right].
Qed.

(** The transactions provided for a certificate are determined by it: they are the
    transactions of its batches in the order of the certificate, each batch having the identifier
    the certificate names, whoever sent it.  Two nodes that were asked for the transactions of
    the same certificate provide the same list, unless two batches with the same identifier exist. *)
Theorem provided_transactions_determined {ids : MempoolIds} {sigs : Verifier}
    params1 st1 ins1 out1 params2 st2 ins2 out2 certs dest1 txs1 origin1 dest2 txs2 origin2 :
  msc_run params1 st1 ins1 out1 → (N.of_nat (length ins1) < u64_max)%N →
  msc_run params2 st2 ins2 out2 → (N.of_nat (length ins2) < u64_max)%N →
  (∀ cert, MInRequestTransactions cert origin1 ∈ ins1 → cert = CertMscs certs) →
  (∀ cert, MInRequestTransactions cert origin2 ∈ ins2 → cert = CertMscs certs) →
  MscProvideTransactions dest1 txs1 origin1 ∈ out1 → MscProvideTransactions dest2 txs2 origin2 ∈ out2 →
  transactions_of certs txs1 ∧
  (txs1 = txs2 ∨ ∃ b1 b2 : list Transaction, b1 ≠ b2 ∧ batch_id (tx_id <$> b1) = batch_id (tx_id <$> b2)).
Proof.
  intros Hr1 Hl1 Hr2 Hl2 Ho1 Ho2 Hp1 Hp2.
  destruct (msc_run_reconstruct _ _ _ _ Hr1 Hl1) as [g1 Hg1].
  destruct (msc_run_reconstruct _ _ _ _ Hr2 Hl2) as [g2 Hg2].
  destruct (ri_out _ _ _ _ Hg1 _ _ _ Hp1) as (certs1 & Hin1 & Ht1).
  destruct (ri_out _ _ _ _ Hg2 _ _ _ Hp2) as (certs2 & Hin2 & Ht2).
  apply Ho1 in Hin1. apply Ho2 in Hin2. simplify_eq. split; [done|].
  destruct Ht1 as (bs1 & -> & H1), Ht2 as (bs2 & -> & H2). rewrite H1 in H2.
  destruct (same_ids_same_batches _ _ H2) as [->|?]; [by left|by right].
Qed.

(** A certificate with a signer outside the membership crashes every node that verifies
    it: the weight of the signers is computed, dereferencing the missing member, before the check
    that all signers are members.  A faulty leader can have such a certificate ordered. *)
Theorem foreign_signer_panics {ids : MempoolIds} {sigs : Verifier} params rng st c certs origin :
  voting (mp_Membership params) →
  (∃ id, id ∈ msc_Signers c ∧ Nodes (mp_Membership params) !! id = None) →
  msc_apply params rng (MInVerifyCert (CertMscs (c :: certs)) origin) st = Panic NilDeref.
Proof.
  intros Hv Hid. destruct (quorum_test_nonmember_panics _ (msc_Signers c) Hv Hid) as [_ Hq].
  simpl. unfold UponVerifyCert, verifyCertificateStructure, mbind, M_bind, get, modify. simpl.
  unfold verify_one. by rewrite Hq.
Qed.

(** ** Concrete runs

    A signature is valid when it is the signer followed by the signed data; a batch identifier is
    the concatenation of the data of the transactions. *)
Module MscToy.
#[export] Instance toy_ids : MempoolIds := {|
  tx_id tx := contents (tx_Data tx); batch_id l := String.concat "" l |}.
Definition sign (id : NodeID) (data : list bytes) : bytes :=
  Some (String.append id (Serialization.concat_bytes data)).
#[export] Instance toy_verifier : Verifier := {|
  verifier_Verify data sig id := if bool_decide (sig = sign id data) then Ok tt else Err "invalid" |}.

Definition params : MscParams := mkMscParams (Some "uid") mb4 1 10 0.
Definition txs : list Transaction := [mkTransaction "client" 0 0 (Some "pay")].
Definition batch : BatchID := "pay".
Definition data (b : BatchID) : list bytes := SigData (Some "uid") b.
Definition origin : Origin := mkOrigin "orderer" 7.

Definition data_b (d1 d2 : list bytes) : bool := bool_decide (d1 = d2).
Definition answers_b (out : list msc_event) (i : msc_input) : bool :=
  match i with
  | MInNewBatch _ _ r => existsb (λ ev, match ev with MscRequestBatch _ r' => bool_decide (r' = r) | _ => false end) out
  | MInBatchID b (OwnBatch r l) =>
      existsb (λ ev, match ev with
        | MscRequestBatchID txIDs (OwnBatch r' l') =>
            bool_decide (r' = r) && bool_decide (l' = l) && bool_decide (b = batch_id txIDs)
        | _ => false end) out
  | MInTxIDs l (ReceivedTxs src txs r) =>
      existsb (λ ev, match ev with
        | MscRequestTransactionIDs txs1 (ReceivedTxs src' txs' r') =>
            bool_decide (src' = src) && bool_decide (txs' = txs) && bool_decide (r' = r) &&
            bool_decide (l = tx_id <$> txs1)
        | _ => false end) out
  | MInBatchID b (ReceivedBatch src l txs r) =>
      existsb (λ ev, match ev with
        | MscRequestBatchID txIDs (ReceivedBatch src' l' txs' r') =>
            bool_decide (src' = src) && bool_decide (l' = l) && bool_decide (txs' = txs) &&
            bool_decide (r' = r) && bool_decide (b = batch_id txIDs)
        | _ => false end) out
  | MInBatchStored (StoreReceived src r b) =>
      existsb (λ ev, match ev with
        | MscStoreBatch _ _ _ (StoreReceived src' r' b') =>
            bool_decide (src' = src) && bool_decide (r' = r) && bool_decide (b' = b)
        | _ => false end) out
  | MInSigVerified id err r sig =>
      existsb (λ ev, match ev with
        | MscVerifySig d sig1 id' r' sig2 =>
            bool_decide (id' = id) && bool_decide (r' = r) && bool_decide (sig2 = sig) &&
            (err || bool_decide (sig1 = sign id d))
        | _ => false end) out
  | MInSigsVerified allOK (mkVerifySigsContext o r c) =>
      existsb (λ ev, match ev with
        | MscVerifySigs ds ss is' (mkVerifySigsContext o' r' c') =>
            bool_decide ((or_Module o', or_Context o') = (or_Module o, or_Context o)) && bool_decide (r' = r) &&
            bool_decide ((msc_BatchId c', msc_Signers c', msc_Signatures c') =
                         (msc_BatchId c, msc_Signers c, msc_Signatures c)) &&
            (negb allOK || bool_decide (ss = zip_with sign is' ds))
        | _ => false end) out
  | MInLookup found l (LookupLocally c o r) =>
      existsb (λ ev, match ev with
        | MscLookupBatch b (LookupLocally c' o' r') =>
            bool_decide ((or_Module o', or_Context o') = (or_Module o, or_Context o)) && bool_decide (r' = r) &&
            bool_decide ((msc_BatchId c', msc_Signers c', msc_Signatures c') =
                         (msc_BatchId c, msc_Signers c, msc_Signatures c)) &&
            (negb found || match l with Some l => bool_decide (b = batch_id (tx_id <$> l)) | None => true end)
        | _ => false end) out
  | MInRequestCert _ | MInComputeCert | MInSig _ _ _ | MInRequestSig _ _ _ | MInVerifyCert _ _ | MInRequestTransactions _ _ => true
  | _ => false
  end.

Lemma msc_answers_b_sound out i : answers_b out i = true → msc_answers out i.
Proof.
  destruct i as [| | |b []|l []|from sig q|id err q sig| |[]| | |allOK [o q c]| |found l [c o q|]| |]; simpl; try done;
    intros (ev & Hev%list_elem_of_In & Ht)%existsb_exists; destruct ev; try done;
    try (destruct context; try done); simpl in Ht; rewrite ?andb_true_iff, ?bool_decide_eq_true in Ht;
    destruct_and?; subst; try by eauto.
  - do 2 eexists. split; [done|]. intros ->. simpl in *.
    match goal with H : bool_decide _ = true |- _ => by rewrite H end.
  - destruct vs_origin, o, vs_cert, c. simpl in *. simplify_eq.
    do 3 eexists. split; [done|]. intros -> k d sig id Hd Hs Hi. simpl in *.
    match goal with H : bool_decide _ = true |- _ => apply bool_decide_eq_true in H; subst end.
    rewrite lookup_zip_with, Hi in Hs. simpl in Hs. rewrite Hd in Hs. simpl in Hs. injection Hs as <-.
    by rewrite bool_decide_eq_true_2.
  - destruct cert, c, origin0, o. simpl in *. simplify_eq. eexists. split; [done|]. intros -> l' ->. simpl in *.
    by match goal with H : bool_decide _ = true |- _ => apply bool_decide_eq_true in H end.
Qed.

Definition run (ins : list msc_input) : option (MscState * list msc_event) :=
  checked (msc_apply params) answers_b range_id ins (NewModule params) [].
Lemma msc_run_reach ins st out : run ins = Some (st, out) → msc_run params st ins out.
Proof. intros Hr. exact (checked_reach _ _ _ msc_answers_b_sound _ range_id ins _ [] [] _ _ (reach_start _ _ _) Hr). Qed.

(** Node 3 answers the request it expects before it is made: its signature is on the still empty
    batch identifier. *)
Definition early : list msc_input :=
  [MInComputeCert;
   MInSig "3" (sign "3" (data "")) 0; MInSigVerified "3" false 0 (sign "3" (data ""));
   MInNewBatch [batch] txs 0; MInBatchID batch (OwnBatch 0 txs);
   MInSig "1" (sign "1" (data batch)) 0; MInSigVerified "1" false 0 (sign "1" (data batch));
   MInRequestCert origin].
(** A correct certificate is verified and its transactions are provided. *)
Definition good : MscCert := mkMscCert batch ["1"; "2"] [sign "1" (data batch); sign "2" (data batch)].
Definition verify : list msc_input :=
  [MInVerifyCert (CertMscs [good]) origin; MInSigsVerified true (mkVerifySigsContext origin 0 good);
   MInRequestTransactions (CertMscs [good]) origin; MInLookup true (Some txs) (LookupLocally good origin 0)].
(** A batch of another node is stored and signed. *)
Definition store : list msc_input :=
  [MInRequestSig "1" txs 5; MInTxIDs [batch] (ReceivedTxs "1" txs 5);
   MInBatchID batch (ReceivedBatch "1" [batch] txs 5); MInBatchStored (StoreReceived "1" 5 batch)].
End MscToy.
Import MscToy.

Ltac msc_start ins st out Hr :=
  destruct (run ins) as [[st out]|] eqn:Hr; [|by vm_compute in Hr].

Lemma verified_certificate_available_witness :
  ∃ certs, MInVerifyCert (CertMscs certs) origin ∈ MscToy.verify ∧
    ∀ faulty c, fault_bound mb4 faulty → c ∈ certs →
      ∃ id sig, id ∉ faulty ∧ is_Some (Nodes mb4 !! id) ∧
        verifier_Verify (SigData (Some "uid") (msc_BatchId c)) sig id = Ok tt.
Proof.
  msc_start MscToy.verify st out Hr.
  apply (verified_certificate_available MscToy.params st MscToy.verify out "orderer");
    [by apply msc_run_reach|vm_compute; reflexivity|].
  vm_compute in Hr. injection Hr as _ <-. right. left.
Defined.

Lemma collector_signs_what_it_stores_witness :
  ∃ st out, run store = Some (st, out) ∧
    ∃ txs r, let batchID := batch_id (tx_id <$> txs) in
      data batch = SigData (Some "uid") batchID ∧
      MscStoreBatch batchID txs r (StoreReceived "1" 5 batchID) ∈ out ∧
      MInBatchStored (StoreReceived "1" 5 batchID) ∈ store.
Proof.
  msc_start store st out Hr. exists st, out. split; [done|].
  apply (collector_signs_what_it_stores MscToy.params st store out); [by apply msc_run_reach|].
  vm_compute in Hr. injection Hr as _ <-. do 3 right. left.
Defined.

Lemma provided_transactions_determined_witness :
  transactions_of [good] MscToy.txs ∧
  (MscToy.txs = MscToy.txs ∨
   ∃ b1 b2 : list Transaction, b1 ≠ b2 ∧ batch_id (tx_id <$> b1) = batch_id (tx_id <$> b2)).
Proof.
  msc_start MscToy.verify st out Hr.
  assert (∀ cert, MInRequestTransactions cert origin ∈ MscToy.verify → cert = CertMscs [good]) as Honly.
  { intros cert H%list_elem_of_In.
    repeat (destruct H as [H|H]; [try discriminate H; injection H as <-; reflexivity|]). destruct H. }
  assert (MscProvideTransactions "orderer" MscToy.txs origin ∈ out) as Hp.
  { vm_compute in Hr. injection Hr as _ <-. do 3 right. left. }
  apply (provided_transactions_determined MscToy.params st MscToy.verify out MscToy.params st MscToy.verify out
           [good] "orderer" MscToy.txs origin "orderer" MscToy.txs origin);
    [by apply msc_run_reach|vm_compute; reflexivity|by apply msc_run_reach|vm_compute; reflexivity|done..].
Defined.

Lemma foreign_signer_panics_witness :
  msc_apply MscToy.params range_id
    (MInVerifyCert (CertMscs [mkMscCert "b" ["mallory"] [None]]) origin) (NewModule MscToy.params) = Panic NilDeref.
Proof.
  apply foreign_signer_panics; [apply mb4_voting|]. exists "mallory". split; [left|reflexivity].
Defined.

(** A faulty member can make a correct node produce invalid certificates: a signature
    for a request whose batch identifier is not computed yet is checked against the empty
    identifier and kept when the identifier is set.  The certificate made of it and of one correct
    signature does not verify. *)
Theorem early_signature_spoils_certificate :
  ∃ st ins out dest c,
    msc_run MscToy.params st ins out ∧ MscNewCert dest (CertMscs [c]) origin ∈ out ∧
    msc_BatchId c = batch ∧ ¬ cert_signed MscToy.params c ∧
    ∀ id sig reqID, MInSig id sig reqID ∈ ins → id ≠ "3" → sig = sign id (data batch).
Proof.
  msc_start early st out Hr.
  exists st, early, out, "orderer", (mkMscCert batch ["3"; "1"] [sign "3" (data ""); sign "1" (data batch)]).
  split_and!.
  - by apply msc_run_reach.
  - vm_compute in Hr. injection Hr as _ <-. do 5 right. left.
  - done.
  - intros Hs. by specialize (Hs 0 _ _ eq_refl eq_refl).
  - intros id sig q H%list_elem_of_In.
    repeat (destruct H as [H|H]; [try discriminate H; injection H as <- <- <-; try reflexivity; done|]). destruct H.
Qed.
