(* ===== verification/BatchDB.v ===== *)
(** * pkg/availability/batchdb/fakebatchdb: the batch database

    Models NewModule and its three handlers.  Each retention index has the set of the batches
    stored with it; garbage collection walks through the indices below the new one and deletes the
    batches that are not retained longer.  The specification is a function of the history of
    requests: the last garbage collection index, and per batch the request with the highest
    retention index. *)
From Stdlib Require Import ZArith Lia.
From stdpp Require Import prelude gmap strings list fin_maps numbers.
From S2P Require Import Prelude Util Membership ModuleRuns Checkpoint Availability AvailabilityProps.

Record db_batch := mkBatch { b_txs : list Transaction; b_maxRetIdx : N }.
Record DbState := mkDbState {
  db_batchStore : gmap BatchID db_batch; db_batchesByRetIdx : gmap N (gset BatchID); db_retIdx : N;
}.

Inductive db_event :=
| BatchStored (dest : string) (origin : Origin)
| LookupBatchResponse (dest : string) (found : bool) (txs : list Transaction) (origin : Origin).
Inductive db_input :=
| StoreBatch (batchID : BatchID) (txs : list Transaction) (retIdx : N) (origin : Origin)
| LookupBatch (batchID : BatchID) (origin : Origin)
| CollectGarbage (retentionIndex : N).

Module BatchDb.
Notation DB := (M DbState db_event).

Definition set_store m (st : DbState) : DbState := mkDbState m (db_batchesByRetIdx st) (db_retIdx st).

Definition NewModule : DbState := mkDbState ∅ ∅ 0.

Definition UponStoreBatch (batchID : BatchID) (txs : list Transaction) (retIdx : N) (origin : Origin)
    : DB unit :=
  st ← get;
  (if bool_decide (db_retIdx st ≤ retIdx)%N then
     (let old := db_batchStore st !! batchID in
      if match old with None => true | Some b => bool_decide (b_maxRetIdx b < retIdx)%N end
      then modify (set_store (<[batchID := mkBatch txs retIdx]> (db_batchStore st)))
      else skip);;
     modify (λ st,
       let batches := default ∅ (db_batchesByRetIdx st !! retIdx) in
       mkDbState (db_batchStore st) (<[retIdx := {[batchID]} ∪ batches]> (db_batchesByRetIdx st))
         (db_retIdx st))
   else skip);;
  emit (BatchStored (or_Module origin) origin).

Definition UponLookupBatch (batchID : BatchID) (origin : Origin) : DB unit :=
  st ← get;
  match db_batchStore st !! batchID with
  | None => emit (LookupBatchResponse (or_Module origin) false [] origin)
  | Some storedBatch => emit (LookupBatchResponse (or_Module origin) true (b_txs storedBatch) origin)
  end.

(** The body of the inner loop: an index into the store of a batch that is not there gives a nil
    pointer, which is dereferenced. *)
Definition collect_batch (retIdx : N) (batchID : BatchID) : DB unit :=
  st ← get;
  match db_batchStore st !! batchID with
  | None => lift (Panic NilDeref)
  | Some b =>
      if bool_decide (b_maxRetIdx b ≤ retIdx)%N
      then modify (set_store (delete batchID (db_batchStore st)))
      else skip
  end.

(** One retention index: the batches of a nil set are none. *)
Definition collect_index (rng : go_range) : DB unit :=
  st ← get;
  let retIdx := db_retIdx st in
  mfor (range_order rng 1 (elements (default ∅ (db_batchesByRetIdx st !! retIdx)))) (collect_batch retIdx);;
  modify (λ st, mkDbState (db_batchStore st) (delete retIdx (db_batchesByRetIdx st)) (u64_succ retIdx)).

Fixpoint collect_loop (rng : go_range) (fuel : nat) (retentionIndex : N) : DB unit :=
  st ← get;
  if bool_decide (db_retIdx st < retentionIndex)%N then
    match fuel with
    | O => skip
    | S fuel => collect_index rng;; collect_loop rng fuel retentionIndex
    end
  else skip.

Definition UponGarbageCollect (rng : go_range) (retentionIndex : N) : DB unit :=
  st ← get;
  collect_loop rng (N.to_nat (retentionIndex - db_retIdx st)) retentionIndex.

Definition db_apply (rng : go_range) (i : db_input) : DB unit :=
  match i with
  | StoreBatch batchID txs retIdx origin => UponStoreBatch batchID txs retIdx origin
  | LookupBatch batchID origin => UponLookupBatch batchID origin
  | CollectGarbage retentionIndex => UponGarbageCollect rng retentionIndex
  end.
End BatchDb.
Import BatchDb.

(** ** Specification *)

(** The lowest retention index not garbage-collected after a history of requests. *)
Fixpoint gc_index (hist : list db_input) : N :=
  match hist with
  | [] => 0
  | CollectGarbage r :: hist => r `max` gc_index hist
  | _ :: hist => gc_index hist
  end.
(** The request for a batch with the highest retention index, the first of them. *)
Definition better (id : BatchID) (acc : option db_batch) (i : db_input) : option db_batch :=
  match i with
  | StoreBatch batchID txs r _ =>
      if bool_decide (batchID = id) && match acc with Some b => bool_decide (b_maxRetIdx b < r)%N | None => true end
      then Some (mkBatch txs r) else acc
  | _ => acc
  end.
Definition best (hist : list db_input) (id : BatchID) : option db_batch := foldl (better id) None hist.
Definition retained (hist : list db_input) (id : BatchID) : option db_batch :=
  b ← best hist id; if bool_decide (gc_index hist ≤ b_maxRetIdx b)%N then Some b else None.
(** What the database answers to a request after a history of requests. *)
Definition db_spec (hist : list db_input) (i : db_input) : list db_event :=
  match i with
  | StoreBatch _ _ _ origin => [BatchStored (or_Module origin) origin]
  | LookupBatch id origin =>
      match retained hist id with
      | Some b => [LookupBatchResponse (or_Module origin) true (b_txs b) origin]
      | None => [LookupBatchResponse (or_Module origin) false [] origin]
      end
  | CollectGarbage _ => []
  end.

Lemma gc_index_app h1 h2 : gc_index (h1 ++ h2) = (gc_index h1 `max` gc_index h2)%N.
Proof. induction h1 as [|[] h1 IH]; simpl; rewrite ?IH; lia. Qed.
Lemma best_snoc hist i id : best (hist ++ [i]) id = better id (best hist id) i.
Proof. unfold best. by rewrite foldl_app. Qed.

(** The best request is one of the history, and the highest. *)
Lemma best_spec hist id :
  (∀ b, best hist id = Some b → ∃ origin, StoreBatch id (b_txs b) (b_maxRetIdx b) origin ∈ hist) ∧
  (∀ txs r origin, StoreBatch id txs r origin ∈ hist → ∃ b, best hist id = Some b ∧ (r ≤ b_maxRetIdx b)%N).
Proof.
  induction hist as [|i hist [IH1 IH2]] using rev_ind; [split; [done|set_solver]|]. rewrite best_snoc. split.
  - intros b Hb. destruct i as [id' txs r origin| |]; simpl in Hb; [|by apply IH1 in Hb; set_solver..].
    case_bool_decide as Hid; simpl in Hb; [|apply IH1 in Hb; set_solver]. subst.
    destruct (match best hist id with Some _ => _ | None => _ end); [|apply IH1 in Hb; set_solver].
    injection Hb as <-. simpl. set_solver.
  - intros txs r origin [Hin|Hin%list_elem_of_singleton]%elem_of_app.
    + destruct (IH2 _ _ _ Hin) as (b & Hb & Hle). rewrite Hb. destruct i as [id' txs' r' o'| |]; simpl; [|by eauto..].
      case_bool_decide; simpl; [case_bool_decide|]; eexists; (split; [done|]); simpl; lia.
    + subst i. simpl. rewrite bool_decide_eq_true_2 by done. simpl.
      destruct (best hist id) as [b|]; [case_bool_decide|]; eexists; (split; [done|]); simpl; lia.
Qed.

Lemma retained_iff hist id :
  (∃ txs r origin, StoreBatch id txs r origin ∈ hist ∧ (gc_index hist ≤ r)%N) ↔ is_Some (retained hist id).
Proof.
  unfold retained. destruct (best_spec hist id) as [H1 H2]. split.
  - intros (txs & r & origin & Hin & Hle). destruct (H2 _ _ _ Hin) as (b & -> & ?). simpl.
    rewrite bool_decide_eq_true_2 by lia. by eexists.
  - destruct (best hist id) as [b|]; simpl; [|by intros [? ?]]. destruct (H1 b eq_refl) as [origin ?].
    case_bool_decide; [|by intros [? ?]]. intros _. by eauto.
Qed.

(** ** The representation *)
Record DbInv (best : BatchID → option db_batch) (idx : N) (st : DbState) : Prop := {
  dbi_idx : db_retIdx st = idx;
  dbi_store id b : db_batchStore st !! id = Some b ↔ best id = Some b ∧ (idx ≤ b_maxRetIdx b)%N;
  dbi_index r ids : db_batchesByRetIdx st !! r = Some ids →
    (idx ≤ r)%N ∧ ∀ id, id ∈ ids → ∃ b, best id = Some b ∧ (r ≤ b_maxRetIdx b)%N;
  dbi_indexed id b : best id = Some b → (idx ≤ b_maxRetIdx b)%N →
    ∃ ids, db_batchesByRetIdx st !! b_maxRetIdx b = Some ids ∧ id ∈ ids;
}.

Lemma DbInv_new : DbInv (best []) 0 NewModule.
Proof. split; simpl; [done|by naive_solver| |done]. intros r ids. by rewrite lookup_empty. Qed.

(** One batch of the inner loop. *)
Lemma collect_batch_spec r id b st :
  db_batchStore st !! id = Some b →
  collect_batch r id st =
    Ok (tt, if bool_decide (b_maxRetIdx b ≤ r)%N then set_store (delete id (db_batchStore st)) st else st, []).
Proof.
  intros Hb. unfold collect_batch, mbind, M_bind, get. rewrite Hb. by case_bool_decide.
Qed.
Lemma mfor_cons_Ok {S E A} (f : A → M S E unit) a l (s s1 s2 : S) (es1 es2 : list E) :
  f a s = Ok (tt, s1, es1) → mfor l f s1 = Ok (tt, s2, es2) →
  mfor (a :: l) f s = Ok (tt, s2, es1 ++ es2).
Proof. intros H1 H2. simpl. unfold mbind, M_bind. by rewrite H1, H2. Qed.

(** The inner loop never meets a batch that is not stored, and deletes the batches of the list
    whose last retention index is the collected one, in any order. *)
Lemma collect_batches r (l : list BatchID) st :
  NoDup l → (∀ id, id ∈ l → is_Some (db_batchStore st !! id)) →
  ∃ store, mfor l (collect_batch r) st = Ok (tt, set_store store st, []) ∧
    ∀ id b, store !! id = Some b ↔
      db_batchStore st !! id = Some b ∧ (id ∈ l → (r < b_maxRetIdx b)%N).
Proof.
  revert st. induction l as [|id l IH]; intros st Hnd Hin.
  { exists (db_batchStore st). split; [by destruct st|]. set_solver. }
  inversion_clear Hnd as [|? ? Hni Hnd']. destruct (Hin id ltac:(left)) as [b Hb].
  pose proof (collect_batch_spec r id b st Hb) as Hstep. set (st1 := if bool_decide _ then _ else st) in Hstep.
  assert (∀ id', id' ≠ id → db_batchStore st1 !! id' = db_batchStore st !! id') as Hother.
  { intros id' Hne. unfold st1. case_bool_decide; [|done]. simpl. by rewrite lookup_delete_ne. }
  destruct (IH st1 Hnd') as (store & Hl & Hs).
  { intros id' Hid'. rewrite Hother by set_solver. apply Hin. set_solver. }
  exists store. split.
  - rewrite (mfor_cons_Ok _ _ _ _ _ _ _ _ Hstep Hl). unfold st1. by case_bool_decide.
  - intros id' b'. rewrite Hs. destruct (decide (id' = id)) as [->|Hne].
    + unfold st1. case_bool_decide; simpl; rewrite ?lookup_delete_eq.
      * split; [naive_solver|]. intros [? H2]. simplify_eq. specialize (H2 ltac:(left)). lia.
      * rewrite Hb. split; intros [? ?]; simplify_eq; (split; [done|intros; first [done|lia]]).
    + rewrite Hother by done. split; intros [? H']; (split; [done|]); intros Hl'; apply H'; set_solver.
Qed.

Lemma collect_index_inv rng best idx st :
  DbInv best idx st → (idx + 1 < u64_max)%N →
  ∃ st', collect_index rng st = Ok (tt, st', []) ∧ DbInv best (idx + 1) st'.
Proof.
  intros [Hidx Hst Hin Hix] Hlt. set (ids := default ∅ (db_batchesByRetIdx st !! idx)).
  assert (∀ id, id ∈ ids → ∃ b, best id = Some b ∧ (idx ≤ b_maxRetIdx b)%N) as Hids.
  { intros id. unfold ids. destruct (db_batchesByRetIdx st !! idx) eqn:E; simpl; [|set_solver].
    apply (Hin _ _ E). }
  destruct (collect_batches idx (range_order rng 1 (elements ids)) st) as (store & Hl & Hs).
  { rewrite range_order_perm. apply NoDup_elements. }
  { intros id. rewrite range_order_perm, elem_of_elements. intros (b & Hb & ?)%Hids. exists b. by apply Hst. }
  eexists. split.
  { unfold collect_index, mbind, M_bind, get, modify. simpl. rewrite Hidx. fold ids. by rewrite Hl. }
  assert (u64_succ idx = idx + 1)%N as Hsucc by (unfold u64_succ, wrap_u64; apply N.mod_small; lia).
  split; simpl; [done|..].
  - intros id b. rewrite Hs, Hst, range_order_perm, elem_of_elements. split.
    + intros [[Hb Hle] Hi]. split; [done|]. destruct (decide (b_maxRetIdx b = idx)) as [Heq|]; [|lia].
      destruct (Hix _ _ Hb Hle) as (ids' & Hl' & Hid). rewrite Heq in Hl'.
      unfold ids in Hi. rewrite Hl' in Hi. specialize (Hi Hid). lia.
    + intros [Hb Hle]. repeat split; [done|lia..].
  - intros r ids' (Hne & Hr)%lookup_delete_Some. destruct (Hin _ _ Hr) as [Hle ?]. split; [lia|done].
  - intros id b Hb Hle. destruct (Hix _ _ Hb ltac:(lia)) as (ids' & Hl' & ?). exists ids'.
    rewrite lookup_delete_ne by lia. done.
Qed.

(** The outer loop ends, with the index at the requested one unless it was already higher. *)
Lemma collect_loop_inv rng best fuel r : ∀ idx st,
  DbInv best idx st → (r < u64_max)%N → (N.to_nat (r - idx) ≤ fuel)%nat →
  ∃ st', collect_loop rng fuel r st = Ok (tt, st', []) ∧ DbInv best (idx `max` r) st'.
Proof.
  induction fuel as [|fuel IH]; intros idx st Hi Hr Hf; simpl; unfold mbind, M_bind, get; simpl;
    rewrite (dbi_idx _ _ _ Hi); case_bool_decide; try lia.
  - exists st. split; [done|]. by replace (idx `max` r)%N with idx by lia.
  - destruct (collect_index_inv rng best idx st Hi ltac:(lia)) as (st1 & H1 & Hi1).
    destruct (IH (idx + 1)%N st1 Hi1 Hr ltac:(lia)) as (st2 & H2 & Hi2).
    exists st2. rewrite H1, H2. split; [done|]. by replace (idx `max` r)%N with ((idx + 1) `max` r)%N by lia.
  - exists st. split; [done|]. by replace (idx `max` r)%N with idx by lia.
Qed.

(** Adding a batch to the set of a retention index not yet collected. *)
Lemma DbInv_add best best' idx st store id0 b0 r :
  DbInv best idx st → (idx ≤ r)%N → (∀ id, id ≠ id0 → best' id = best id) →
  best' id0 = Some b0 → (r ≤ b_maxRetIdx b0)%N → (b_maxRetIdx b0 = r ∨ best id0 = Some b0) →
  (∀ b, best id0 = Some b → (b_maxRetIdx b ≤ b_maxRetIdx b0)%N) →
  (∀ id b, store !! id = Some b ↔ best' id = Some b ∧ (idx ≤ b_maxRetIdx b)%N) →
  DbInv best' idx (mkDbState store
    (<[r := {[id0]} ∪ default ∅ (db_batchesByRetIdx st !! r)]> (db_batchesByRetIdx st)) (db_retIdx st)).
Proof.
  intros [Hidx _ Hin Hix] Hle Hother Hb0 Hr0 Hor Hmax Hstore.
  assert (∀ r' id, (∃ b, best id = Some b ∧ (r' ≤ b_maxRetIdx b)%N) →
            ∃ b, best' id = Some b ∧ (r' ≤ b_maxRetIdx b)%N) as Hup.
  { intros r' id (b & Hb & ?). destruct (decide (id = id0)) as [->|]; [|rewrite Hother by done; by eauto].
    exists b0. split; [done|]. specialize (Hmax _ Hb). lia. }
  split; simpl; [done|done|..].
  - intros r' ids [[<- <-]|[Hne Hr']]%lookup_insert_Some.
    + split; [done|]. intros id [->%elem_of_singleton|Hid]%elem_of_union; [by eauto|]. apply Hup.
      destruct (db_batchesByRetIdx st !! r) eqn:E; [|set_solver]. by apply (Hin _ _ E).
    + destruct (Hin _ _ Hr') as [? Hids]. split; [done|]. auto.
  - intros id b Hb Hib. destruct (decide (id = id0 ∧ b_maxRetIdx b = r)) as [[-> <-]|Hn].
    { eexists. rewrite lookup_insert_eq. split; [done|]. set_solver. }
    assert (best id = Some b) as Hb'.
    { destruct (decide (id = id0)) as [->|]; [|by rewrite <- Hother]. simplify_eq. naive_solver. }
    destruct (Hix _ _ Hb' Hib) as (ids & Hids & ?). destruct (decide (r = b_maxRetIdx b)) as [->|].
    + eexists. rewrite lookup_insert_eq, Hids. split; [done|]. set_solver.
    + exists ids. by rewrite lookup_insert_ne.
Qed.

(** The batch to store is newer than the retained one exactly when it is newer than the best. *)
Lemma newer_retained best idx st id0 r :
  DbInv best idx st → (idx ≤ r)%N →
  match db_batchStore st !! id0 with None => true | Some b => bool_decide (b_maxRetIdx b < r)%N end =
  match best id0 with None => true | Some b => bool_decide (b_maxRetIdx b < r)%N end.
Proof.
  intros Hi Hle. destruct (db_batchStore st !! id0) as [b|] eqn:E.
  - by apply (dbi_store _ _ _ Hi) in E as [-> _].
  - destruct (best id0) as [b|] eqn:E'; [|done]. rewrite bool_decide_eq_true_2; [done|].
    destruct (decide (idx ≤ b_maxRetIdx b)%N); [|lia].
    assert (db_batchStore st !! id0 = Some b) by by apply (dbi_store _ _ _ Hi). simplify_eq.
Qed.

Lemma DbInv_ext best best' idx st : (∀ id, best id = best' id) → DbInv best idx st → DbInv best' idx st.
Proof. intros He [H1 H2 H3 H4]. split; [done|..]; intros *; rewrite <- ?He; [apply H2| |apply H4].
  intros [? Hids]%H3. split; [done|]. intros id. rewrite <- He. apply Hids. Qed.

(** A batch below the garbage collection index is not recorded, and never answered. *)
Lemma DbInv_ignored best idx st id0 txs r origin :
  DbInv best idx st → (r < idx)%N → DbInv (λ id, better id (best id) (StoreBatch id0 txs r origin)) idx st.
Proof.
  intros [Hidx Hst Hin Hix] Hlt. split; [done|..].
  - intros id b. rewrite Hst. simpl. case_bool_decide; subst; [|done]. simpl.
    destruct (best id) as [b'|]; simpl; [case_bool_decide|]; split; intros [[=] ?]; simplify_eq; simpl in *;
      (split; [done|lia]) || lia.
  - intros r' ids [Hr' Hids]%Hin. split; [done|]. intros id (b & Hb & Hrb)%Hids. simpl. rewrite Hb.
    case_bool_decide; simpl; [case_bool_decide|]; eexists; (split; [done|]); simpl; lia.
  - intros id b. simpl. case_bool_decide; simpl; [|by apply Hix]. subst.
    destruct (best id) as [b'|] eqn:Hb'; simpl; [case_bool_decide|]; intros [= <-]; simpl; try lia. by apply Hix.
Qed.

Lemma store_inv best idx st id0 txs r origin :
  DbInv best idx st →
  ∃ st', UponStoreBatch id0 txs r origin st = Ok (tt, st', [BatchStored (or_Module origin) origin]) ∧
    DbInv (λ id, better id (best id) (StoreBatch id0 txs r origin)) idx st'.
Proof.
  intros Hi. unfold UponStoreBatch, mbind, M_bind, get, modify, emit. cbn -[better]. rewrite (dbi_idx _ _ _ Hi).
  case_bool_decide as Hle; [|eexists; split; [done|apply DbInv_ignored; [done|lia]]].
  rewrite (newer_retained _ _ _ id0 r Hi Hle). set (new := match best id0 with Some _ => _ | None => _ end).
  set (op := StoreBatch id0 txs r origin).
  assert (∀ id, id ≠ id0 → better id (best id) op = best id) as Hother.
  { intros id Hne. simpl. by rewrite bool_decide_eq_false_2. }
  assert (better id0 (best id0) op = if new then Some (mkBatch txs r) else best id0) as Hself.
  { simpl. by rewrite bool_decide_eq_true_2. }
  assert (∀ b, best id0 = Some b → if new then (b_maxRetIdx b ≤ r)%N else (r ≤ b_maxRetIdx b)%N) as Hcmp.
  { intros b Hb. unfold new. rewrite Hb. case_bool_decide; lia. }
  assert (new = false → is_Some (best id0)) as Hsome by (unfold new; by destruct (best id0)).
  clearbody new. destruct new; eexists; (split; [done|]).
  - apply (DbInv_add best _ idx st _ id0 (mkBatch txs r) r); [done|done|done|done|simpl; lia|by left|done|].
    intros id b. cbn [db_batchStore set_store]. destruct (decide (id = id0)) as [->|Hne].
    + rewrite Hself, lookup_insert_eq. split; [by intros [= <-]|by intros [[= <-] _]].
    + rewrite Hother, lookup_insert_ne by done. apply (dbi_store _ _ _ Hi).
  - destruct Hsome as [b0 Hb0]; [done|].
    apply (DbInv_add best _ idx st _ id0 b0 r);
      [done|done|done|by rewrite Hself|by apply Hcmp|by right|intros b Hb; simplify_eq; lia|].
    intros id b. destruct (decide (id = id0)) as [->|]; [rewrite Hself|rewrite Hother by done];
      apply (dbi_store _ _ _ Hi).
Qed.

(** ** Theorems *)
Definition db_answers (_ : list db_event) (i : db_input) : Prop :=
  match i with CollectGarbage r => (r < u64_max)%N | _ => True end.
Definition db_run : DbState → list db_input → list db_event → Prop :=
  reach db_apply db_answers NewModule.

(** Every handler returns, with the specified events, and keeps the representation. *)
Lemma db_apply_spec rng hist i st :
  DbInv (best hist) (gc_index hist) st → db_answers [] i →
  ∃ st', db_apply rng i st = Ok (tt, st', db_spec hist i) ∧
    DbInv (best (hist ++ [i])) (gc_index (hist ++ [i])) st'.
Proof.
  intros Hi Ha. rewrite gc_index_app. destruct i as [id txs r origin|id origin|r]; simpl.
  - destruct (store_inv _ _ _ id txs r origin Hi) as (st' & Hs & Hi'). exists st'. split; [done|].
    rewrite N.max_0_r. eapply DbInv_ext; [|exact Hi']. intros id'. by rewrite best_snoc.
  - exists st. split.
    + unfold UponLookupBatch, mbind, M_bind, get, retained. simpl.
      destruct (db_batchStore st !! id) as [b|] eqn:E.
      * apply (dbi_store _ _ _ Hi) in E as [-> ?]. simpl. by rewrite bool_decide_eq_true_2.
      * destruct (best hist id) as [b|] eqn:E'; [|done]. simpl. case_bool_decide; [|done].
        assert (db_batchStore st !! id = Some b) by by apply (dbi_store _ _ _ Hi). simplify_eq.
    + rewrite N.max_0_r. eapply DbInv_ext; [|exact Hi]. intros id'. by rewrite best_snoc.
  - destruct (collect_loop_inv rng _ (N.to_nat (r - db_retIdx st)) r _ _ Hi Ha) as (st' & Hs & Hi').
    { by rewrite (dbi_idx _ _ _ Hi). }
    exists st'. split.
    + unfold UponGarbageCollect, mbind, M_bind, get. simpl. by rewrite Hs.
    + rewrite N.max_0_r. eapply DbInv_ext; [|exact Hi']. intros id'. by rewrite best_snoc.
Qed.

Lemma db_run_inv st hist out : db_run st hist out → DbInv (best hist) (gc_index hist) st.
Proof.
  revert st hist out. apply reach_invariant; [exact DbInv_new|]. intros st hist out rng i Hi Ha.
  destruct (db_apply_spec rng hist i st Hi) as (st' & Hs & Hi'); [by destruct i|].
  unfold wp. by rewrite Hs.
Qed.

(** The batch database refines its history: after any requests, in whatever
    order Go iterates over the sets of batches, every further request terminates without a panic
    and with the answer that the history determines.  A lookup finds a batch exactly when some request
    stored it with a retention index that is not garbage-collected, and returns the
    transactions of the one with the highest index. *)
Theorem batchdb_refines_history st hist out rng i :
  db_run st hist out → db_answers out i →
  ∃ st', db_apply rng i st = Ok (tt, st', db_spec hist i) ∧
    ∀ id, (∃ txs r origin, StoreBatch id txs r origin ∈ hist ∧ (gc_index hist ≤ r)%N) ↔
      is_Some (retained hist id).
Proof.
  intros Hr Ha. destruct (db_apply_spec rng hist i st (db_run_inv _ _ _ Hr)) as (st' & Hs & _); [by destruct i|].
  exists st'. split; [done|]. intros id. apply retained_iff.
Qed.

(** ** The collector on top of the database

    The collector's requests to the database carry the position of the request as their context;
    the database also serves other instances of the collector, which store batches under their
    identifiers as this one does, and is garbage-collected at any time.  Answers are delivered in any order. *)
Section composition.
Context {ids : MempoolIds} {sigs : Verifier} (params : MscParams) (self : string).

Definition db_request (k : nat) (ev : msc_event) : option db_input :=
  match ev with
  | MscStoreBatch b txs r _ => Some (StoreBatch b txs r (mkOrigin self (N.of_nat k)))
  | MscLookupBatch b _ => Some (LookupBatch b (mkOrigin self (N.of_nat k)))
  | _ => None
  end.
Definition db_reply (out : list msc_event) (reply : db_event) : option msc_input :=
  match reply with
  | BatchStored _ o =>
      match out !! N.to_nat (or_Context o) with
      | Some (MscStoreBatch _ _ _ ctx) => Some (MInBatchStored ctx)
      | _ => None
      end
  | LookupBatchResponse _ found txs o =>
      match out !! N.to_nat (or_Context o) with
      | Some (MscLookupBatch _ ctx) => Some (MInLookup found (if found then Some txs else None) ctx)
      | _ => None
      end
  end.
Definition from_db (i : msc_input) : bool :=
  match i with MInBatchStored _ | MInLookup _ _ _ => true | _ => false end.
Definition stored_by_id (op : db_input) : Prop :=
  match op with StoreBatch b txs _ _ => b = batch_id (tx_id <$> txs) | _ => True end.

Inductive node_run : MscState → list msc_input → list msc_event →
    DbState → list db_input → list db_event → Prop :=
| node_start : node_run (Msc.NewModule params) [] [] NewModule [] []
| node_input rng i st ins out db hist replies st' es :
    node_run st ins out db hist replies → from_db i = false → msc_answers out i →
    msc_apply params rng i st = Ok (tt, st', es) →
    node_run st' (ins ++ [i]) (out ++ es) db hist replies
| node_request rng k ev op st ins out db hist replies db' es :
    node_run st ins out db hist replies → out !! k = Some ev → db_request k ev = Some op →
    db_apply rng op db = Ok (tt, db', es) →
    node_run st ins out db' (hist ++ [op]) (replies ++ es)
| node_other rng op st ins out db hist replies db' es :
    node_run st ins out db hist replies → stored_by_id op → db_answers [] op →
    db_apply rng op db = Ok (tt, db', es) →
    node_run st ins out db' (hist ++ [op]) replies
| node_reply rng reply i st ins out db hist replies st' es :
    node_run st ins out db hist replies → reply ∈ replies → db_reply out reply = Some i →
    msc_apply params rng i st = Ok (tt, st', es) →
    node_run st' (ins ++ [i]) (out ++ es) db hist replies.

(** An answer of the database is one that the collector's theorems assume. *)
Definition reply_ok (out : list msc_event) (reply : db_event) : Prop :=
  ∀ i, db_reply out reply = Some i → msc_answers out i.
Record CollectorDbInv (st : MscState) ins out (db : DbState) hist (replies : list db_event) : Prop := {
  ni_msc : msc_run params st ins out;
  ni_db : DbInv (best hist) (gc_index hist) db;
  ni_hist op : op ∈ hist → stored_by_id op;
  ni_replies reply : reply ∈ replies → ∃ k ev op, out !! k = Some ev ∧ db_request k ev = Some op ∧
    match op, reply with
    | StoreBatch _ _ _ o, BatchStored _ o' => o' = o
    | LookupBatch b o, LookupBatchResponse _ found txs o' =>
        o' = o ∧ (found = true → b = batch_id (tx_id <$> txs))
    | _, _ => False
    end;
}.

Lemma CollectorDbInv_reply st ins out db hist replies reply :
  CollectorDbInv st ins out db hist replies → reply ∈ replies → reply_ok out reply.
Proof.
  intros Hn (k & ev & op & Hk & Hop & Hr)%(ni_replies _ _ _ _ _ _ Hn) i.
  destruct ev; simplify_eq/=; destruct reply; try done; simpl.
  - subst. simpl. rewrite Nat2N.id, Hk. intros [= <-]. simpl. do 3 eexists. by eapply list_elem_of_lookup_2.
  - destruct Hr as [-> Hr]. simpl. rewrite Nat2N.id, Hk. intros [= <-]. simpl. eexists.
    split; [by eapply list_elem_of_lookup_2|]. intros Hf l. rewrite Hf. intros [= <-]. auto.
Qed.

(** What the database answers is stored under its identifier. *)
Lemma retained_by_id hist id b :
  (∀ op, op ∈ hist → stored_by_id op) → retained hist id = Some b → id = batch_id (tx_id <$> b_txs b).
Proof.
  unfold retained. destruct (best_spec hist id) as [Hin _]. intros Hh.
  destruct (best hist id) as [b'|]; [|done]. simpl. case_bool_decide; [|done]. intros [= <-].
  destruct (Hin _ eq_refl) as [o Ho]. exact (Hh _ Ho).
Qed.

Lemma CollectorDbInv_grow st st' ins ins' out es db hist replies :
  CollectorDbInv st ins out db hist replies → msc_run params st' ins' (out ++ es) →
  CollectorDbInv st' ins' (out ++ es) db hist replies.
Proof.
  intros [_ Hd Hh Hr] Hm. split; [done|done|done|].
  intros reply (k & ev & op & Hk & ? & ?)%Hr. exists k, ev, op. split; [by apply lookup_app_l_Some|done].
Qed.

Lemma CollectorDbInv_request rng k ev op st ins out db hist replies db' es :
  CollectorDbInv st ins out db hist replies → out !! k = Some ev → db_request k ev = Some op →
  db_apply rng op db = Ok (tt, db', es) → CollectorDbInv st ins out db' (hist ++ [op]) (replies ++ es).
Proof.
  intros Hn Hk Hop Happ. pose proof Hn as [Hm Hd Hh Hr].
  destruct (db_apply_spec rng hist op db Hd) as (db'' & Happ' & Hd'); [by destruct ev; simplify_eq/=|].
  rewrite Happ' in Happ. injection Happ as -> <-. split; [done|done|..].
  - intros op' [?| ->%list_elem_of_singleton]%elem_of_app; [by auto|].
    pose proof (msc_run_store _ _ _ _ Hm ev ltac:(by eapply list_elem_of_lookup_2)) as Hs.
    destruct ev; simplify_eq/=; [by destruct Hs|done].
  - intros reply [?|Hin]%elem_of_app; [by auto|]. exists k, ev, op. split; [done|]. split; [done|].
    destruct ev; simplify_eq/=; [by apply list_elem_of_singleton in Hin as ->|].
    destruct (retained hist batchID) as [b|] eqn:E; apply list_elem_of_singleton in Hin as ->;
      (split; [done|]); [|done]. intros _. by eapply retained_by_id.
Qed.

Lemma node_run_inv st ins out db hist replies :
  node_run st ins out db hist replies → CollectorDbInv st ins out db hist replies.
Proof.
  induction 1 as [|rng i st ins out db hist replies st' es _ IH _ Ha Happ
                 |rng k ev op st ins out db hist replies db' es _ IH Hk Hop Happ
                 |rng op st ins out db hist replies db' es _ IH Hs Ha Happ
                 |rng reply i st ins out db hist replies st' es _ IH Hin Hr Happ].
  - split; [constructor|apply DbInv_new|set_solver..].
  - eapply CollectorDbInv_grow; [exact IH|]. by eapply reach_apply; [apply IH|..].
  - by eapply CollectorDbInv_request.
  - destruct (db_apply_spec rng hist op db (ni_db _ _ _ _ _ _ IH) Ha) as (db'' & Happ' & Hd').
    rewrite Happ' in Happ. injection Happ as -> <-. destruct IH as [? _ Hh ?]. split; [done|done| |done].
    intros op' [?| ->%list_elem_of_singleton]%elem_of_app; auto.
  - eapply CollectorDbInv_grow; [exact IH|]. eapply reach_apply; [apply IH| |done]. by eapply CollectorDbInv_reply.
Qed.
End composition.

(** C17 (refinement).  The collector over the in-memory database, whatever the order in which the
    database serves its requests and those of other instances and however often it is
    garbage-collected, behaves as over the database that the collector's theorems assume: its
    runs are runs of the collector, and the database has an answer to every request. *)
Theorem collector_over_batchdb {ids : MempoolIds} {sigs : Verifier} params self st ins out db hist replies :
  node_run params self st ins out db hist replies →
  msc_run params st ins out ∧
  ∀ rng k ev op, out !! k = Some ev → db_request self k ev = Some op →
    ∃ db' reply i, db_apply rng op db = Ok (tt, db', [reply]) ∧ db_reply out reply = Some i ∧ msc_answers out i.
Proof.
  intros Hn%node_run_inv. split; [apply Hn|]. intros rng k ev op Hk Hop.
  destruct (db_apply_spec rng hist op db (ni_db _ _ _ _ _ _ _ _ Hn)) as (db' & Happ & _);
    [by destruct ev; simplify_eq/=|].
  pose proof (CollectorDbInv_request _ _ rng _ _ _ _ _ _ _ _ _ _ _ Hn Hk Hop Happ) as Hn'.
  assert (∃ reply i, db_spec hist op = [reply] ∧ db_reply out reply = Some i) as (reply & i & Hs & Hi).
  { destruct ev; simplify_eq/=; [|destruct (retained hist batchID)]; do 2 eexists; (split; [done|]); simpl;
      by rewrite Nat2N.id, Hk. }
  exists db', reply, i. rewrite <- Hs. split_and!; [done|done|]. eapply CollectorDbInv_reply; [exact Hn'| |done].
  rewrite Hs. set_solver.
Qed.

(** ** Concrete runs *)
Import MscToy.
Module DbToy.
Definition answers_b (_ : list db_event) (i : db_input) : bool :=
  match i with CollectGarbage r => bool_decide (r < u64_max)%N | _ => true end.
Lemma db_answers_b_sound out i : answers_b out i = true → db_answers out i.
Proof. destruct i; [done..|]. apply bool_decide_eq_true. Qed.
Definition hist : list db_input :=
  [StoreBatch "b" [] 2 MscToy.origin; StoreBatch "b" MscToy.txs 4 MscToy.origin;
   StoreBatch "c" MscToy.txs 2 MscToy.origin; CollectGarbage 3].
End DbToy.

Lemma batchdb_refines_history_witness :
  ∃ st, db_run st DbToy.hist [BatchStored "orderer" MscToy.origin; BatchStored "orderer" MscToy.origin;
                              BatchStored "orderer" MscToy.origin] ∧
    ∃ st', db_apply range_rev (LookupBatch "b" MscToy.origin) st =
      Ok (tt, st', [LookupBatchResponse "orderer" true MscToy.txs MscToy.origin]).
Proof.
  destruct (checked db_apply DbToy.answers_b range_id DbToy.hist NewModule []) as [[st out]|] eqn:Hc;
    [|by vm_compute in Hc].
  pose proof (checked_reach _ _ _ DbToy.db_answers_b_sound NewModule range_id _ _ [] [] _ _ (reach_start _ _ _) Hc) as Hr.
  replace out with [BatchStored "orderer" MscToy.origin; BatchStored "orderer" MscToy.origin;
                    BatchStored "orderer" MscToy.origin] in Hr by (vm_compute in Hc; injection Hc as _ <-; reflexivity).
  exists st. split; [exact Hr|].
  destruct (batchdb_refines_history _ _ _ range_rev (LookupBatch "b" MscToy.origin) Hr I) as (st' & Hs & _).
  exists st'. exact Hs.
Defined.

Lemma collector_over_batchdb_witness :
  ∃ st out db hist replies,
    node_run MscToy.params "mir" st MscToy.store out db hist replies ∧
    MscSignRequest (MscToy.data MscToy.batch) "1" 5 ∈ out ∧ msc_run MscToy.params st MscToy.store out.
Proof.
  assert (∃ st out db hist replies, node_run MscToy.params "mir" st MscToy.store out db hist replies ∧
    MscSignRequest (MscToy.data MscToy.batch) "1" 5 ∈ out) as (st & out & db & hist & replies & Hn & Hs).
  { pose proof (node_start MscToy.params "mir") as Hn.
    eapply (node_input _ _ range_id (MInRequestSig "1" MscToy.txs 5)) in Hn; [|reflexivity|exact I|reflexivity].
    eapply (node_input _ _ range_id (MInTxIDs [batch] (ReceivedTxs "1" MscToy.txs 5))) in Hn;
      [|reflexivity|by eexists; split; [left|]|reflexivity].
    eapply (node_input _ _ range_id (MInBatchID batch (ReceivedBatch "1" [batch] MscToy.txs 5))) in Hn;
      [|reflexivity|by eexists; split; [right; left|]|reflexivity].
    eapply (node_request _ _ range_id 2) in Hn; [|reflexivity..].
    eapply (node_reply _ _ range_id (BatchStored "mir" (mkOrigin "mir" 2))) in Hn; [|left|reflexivity..].
    do 5 eexists. split; [exact Hn|]. do 3 right. left. }
  exists st, out, db, hist, replies. split; [exact Hn|]. split; [exact Hs|].
  apply (collector_over_batchdb _ _ _ _ _ _ _ _ Hn).
Defined.
