(* ===== verification/BatchFetcher.v ===== *)
(** * pkg/batchfetcher: from ordered certificates to ordered transactions

    Models batchfetcher.go and outputqueue.go.  The batch fetcher relays the events of ISS to the
    application in order, with each certificate replaced by its transactions, which arrive
    later from the availability layer, without those already delivered.  Items of the output queue
    are pointers: the request for transactions keeps one in its context, also when the queue is
    replaced; they are addresses in a store here.  The hooks of the queue items are closures over the
    variables of the module, so they see the epoch number and the client progress at the time
    the item leaves the queue. *)
From Stdlib Require Import ZArith Lia.
From stdpp Require Import prelude gmap strings list fin_maps numbers.
From S2P Require Import Prelude Util Membership PbftTypes Orderer ClientProgress ModuleRuns Checkpoint Iss Availability.

(** config.go *)
Record BfModuleConfig := mkBfModuleConfig {
  bmc_Self : string; bmc_Availability : string; bmc_Checkpoint : string; bmc_Destination : string;
  bmc_Mempool : string;
}.

(** Events relayed to the application; [AppOther] is any protobuf event the batch fetcher does not
    handle (what [NewDest] does with standard events is in StdEvents). *)
Inductive app_event :=
| AppNewEpoch (dest : string) (epochNr : EpochNr) (protocolModule : string)
| AppNewOrderedBatch (dest : string) (txs : list Transaction)
| AppSnapshotRequest (dest replyTo : string)
| AppRestoreState (dest : string) (chkp : StableCheckpoint)
| AppOther (dest : string) (payload : string).

(** outputqueue.go: the hooks are those the handlers create. *)
Inductive hook := HookNewEpoch | HookFilterDuplicates | HookSnapshot.
Record outputItem := mkOutputItem { oi_event : option app_event; oi_f : option hook }.

Record BfState := mkBfState {
  bf_epochNr : EpochNr; bf_clientProgress : gmap ClientID DeliveredTXs;
  bf_items : gmap nat outputItem; bf_nextItem : nat; bf_output : list nat;
}.

Inductive bf_event :=
| BfEmit (ev : app_event)
| BfMempoolNewEpoch (dest : string) (epochNr : EpochNr) (progress : gmap ClientID DeliveredTXsPb)
| BfClientProgress (dest : string) (progress : gmap ClientID DeliveredTXsPb)
| BfRequestTransactions (dest : string) (cert : Cert) (queueItem : nat).

Inductive bf_input :=
| BfInInit
| BfInNewEpoch (epochNr : EpochNr) (protocolModule : string)
| BfInDeliverCert (sn : SeqNr) (cert : Cert) (empty : bool)
| BfInSnapshotRequest (replyTo : string)
| BfInRestoreState (chkp : StableCheckpoint)
| BfInProvideTransactions (txs : list Transaction) (queueItem : nat)
| BfInOther (payload : string).

Module Bf.
Notation BF := (M BfState bf_event).

Definition set_epochNr n (st : BfState) : BfState :=
  mkBfState n (bf_clientProgress st) (bf_items st) (bf_nextItem st) (bf_output st).
Definition set_progress p (st : BfState) : BfState :=
  mkBfState (bf_epochNr st) p (bf_items st) (bf_nextItem st) (bf_output st).
Definition set_output q (st : BfState) : BfState :=
  mkBfState (bf_epochNr st) (bf_clientProgress st) (bf_items st) (bf_nextItem st) q.
Definition set_item k i (st : BfState) : BfState :=
  mkBfState (bf_epochNr st) (bf_clientProgress st) (<[k := i]> (bf_items st)) (bf_nextItem st)
    (bf_output st).

Section bf.
Context (mc : BfModuleConfig).

Definition NewModule (epochNr : EpochNr) (clientProgress : gmap ClientID DeliveredTXs) : BfState :=
  mkBfState epochNr clientProgress ∅ 0 [].

(** The address of a new item, and [Enqueue]. *)
Definition alloc (item : outputItem) : BF nat :=
  st ← get;
  let k := bf_nextItem st in
  modify (λ st, mkBfState (bf_epochNr st) (bf_clientProgress st) (<[k := item]> (bf_items st)) (S k)
                  (bf_output st));;
  mret k.
Definition Enqueue (item : nat) : BF unit := modify (λ st, set_output (bf_output st ++ [item]) st).

(** The loop of [filterDuplicates]: the transactions to keep and the progress. *)
Fixpoint filter_txs (clientProgress : gmap ClientID DeliveredTXs) (txs : list Transaction)
    : list Transaction * gmap ClientID DeliveredTXs :=
  match txs with
  | [] => ([], clientProgress)
  | tx :: txs =>
      let '(added, clientProgress) := CP.Add clientProgress (tx_ClientId tx) (tx_TxNo tx) in
      let '(newTxs, clientProgress) := filter_txs clientProgress txs in
      ((if added then [tx] else []) ++ newTxs, clientProgress)
  end.
(** It replaces the transactions of the batch in place; another event fails the type assertion. *)
Definition filterDuplicates (ev : app_event) : BF app_event :=
  match ev with
  | AppNewOrderedBatch dest txs =>
      st ← get;
      let '(newTxs, clientProgress) := filter_txs (bf_clientProgress st) txs in
      modify (set_progress clientProgress);;
      mret (AppNewOrderedBatch dest newTxs)
  | _ => lift (Panic (ExplicitPanic "interface conversion"))
  end.

Definition collectGarbage : BF unit :=
  modify (λ st, set_progress (CP.GarbageCollect (bf_clientProgress st)).2 st).

Definition run_hook (f : hook) (ev : app_event) : BF app_event :=
  match f with
  | HookNewEpoch =>
      collectGarbage;;
      st ← get;
      emit (BfMempoolNewEpoch (bmc_Mempool mc) (bf_epochNr st) (CP.Pb (bf_clientProgress st)));;
      mret ev
  | HookFilterDuplicates => filterDuplicates ev
  | HookSnapshot =>
      collectGarbage;;
      st ← get;
      emit (BfClientProgress (ModuleID.Then (bmc_Checkpoint mc) (Iss.show (bf_epochNr st)))
              (CP.Pb (bf_clientProgress st)));;
      mret ev
  end.

(** One iteration of the loop of [Flush], on the first item of the queue and its event. *)
Definition flush_item (k : nat) (item : outputItem) (ev : app_event) (queue : list nat) : BF unit :=
  ev ← match oi_f item with None => mret ev | Some f => run_hook f ev end;
  modify (set_item k (mkOutputItem (Some ev) (oi_f item)));;
  emit (BfEmit ev);;
  modify (set_output queue).

(** The queue gets shorter with every iteration. *)
Fixpoint flush_loop (queue : list nat) : BF unit :=
  match queue with
  | [] => skip
  | k :: queue =>
      st ← get;
      item ← lift (deref (bf_items st !! k));
      match oi_event item with
      | None => skip
      | Some ev => flush_item k item ev queue;; flush_loop queue
      end
  end.
Definition Flush : BF unit := st ← get; flush_loop (bf_output st).

Definition enqueue_and_flush (item : outputItem) : BF unit := k ← alloc item; Enqueue k;; Flush.

Definition UponNewEpoch (newEpochNr : EpochNr) (protocolModule : string) : BF unit :=
  modify (set_epochNr newEpochNr);;
  enqueue_and_flush (mkOutputItem (Some (AppNewEpoch (bmc_Destination mc) newEpochNr protocolModule))
                       (Some HookNewEpoch)).

Definition UponDeliverCert (sn : SeqNr) (cert : Cert) (empty : bool) : BF unit :=
  k ← alloc (mkOutputItem None (Some HookFilterDuplicates));
  Enqueue k;;
  if empty then
    modify (set_item k (mkOutputItem (Some (AppNewOrderedBatch (bmc_Destination mc) []))
                          (Some HookFilterDuplicates)));;
    Flush
  else
    st ← get;
    emit (BfRequestTransactions (ModuleID.Then (bmc_Availability mc) (Iss.show (bf_epochNr st))) cert k).

Definition UponSnapshotRequest (replyTo : string) : BF unit :=
  enqueue_and_flush (mkOutputItem (Some (AppSnapshotRequest (bmc_Destination mc) replyTo))
                       (Some HookSnapshot)).

Definition UponRestoreState (mirChkp : StableCheckpoint) : BF unit :=
  epoch ← lift (Chkp.Epoch mirChkp);
  modify (set_epochNr epoch);;
  progress ← lift (Chkp.ClientProgress_of mirChkp);
  modify (set_progress progress);;
  modify (set_output []);;
  emit (BfEmit (AppRestoreState (bmc_Destination mc) mirChkp)).

Definition UponProvideTransactions (txs : list Transaction) (queueItem : nat) : BF unit :=
  st ← get;
  item ← lift (deref (bf_items st !! queueItem));
  modify (set_item queueItem (mkOutputItem (Some (AppNewOrderedBatch (bmc_Destination mc) txs)) (oi_f item)));;
  Flush.

Definition UponOtherEvent (payload : string) : BF unit :=
  enqueue_and_flush (mkOutputItem (Some (AppOther (bmc_Destination mc) payload)) None).

Definition bf_apply (_ : go_range) (i : bf_input) : BF unit :=
  match i with
  | BfInInit => skip
  | BfInNewEpoch epochNr protocolModule => UponNewEpoch epochNr protocolModule
  | BfInDeliverCert sn cert empty => UponDeliverCert sn cert empty
  | BfInSnapshotRequest replyTo => UponSnapshotRequest replyTo
  | BfInRestoreState chkp => UponRestoreState chkp
  | BfInProvideTransactions txs queueItem => UponProvideTransactions txs queueItem
  | BfInOther payload => UponOtherEvent payload
  end.
End bf.
End Bf.
Import Bf.

(** ** Specification

    The events for the application in the order of the inputs: a certificate, with the address
    of its item if transactions are requested for it, stands for the transactions that the
    availability layer provides. *)
Inductive entry :=
| ENewEpoch (epochNr : EpochNr) (protocolModule : string)
| ECert (item : option nat)
| ESnapshot (replyTo : string)
| EOther (payload : string).

Definition entry_of (k : nat) (i : bf_input) : option entry :=
  match i with
  | BfInNewEpoch epochNr protocolModule => Some (ENewEpoch epochNr protocolModule)
  | BfInDeliverCert _ _ empty => Some (ECert (if empty then None else Some k))
  | BfInSnapshotRequest replyTo => Some (ESnapshot replyTo)
  | BfInOther payload => Some (EOther payload)
  | BfInInit | BfInRestoreState _ | BfInProvideTransactions _ _ => None
  end.
Fixpoint log_from (k : nat) (ins : list bf_input) : list entry :=
  match ins with
  | [] => []
  | i :: ins =>
      match entry_of k i with Some en => en :: log_from (S k) ins | None => log_from k ins end
  end.
Definition provided (k : nat) (ins : list bf_input) : bool :=
  existsb (λ i, match i with BfInProvideTransactions _ k' => bool_decide (k' = k) | _ => false end) ins.
(** The certificate's transactions did not arrive yet. *)
Definition waiting (ins : list bf_input) (en : entry) : bool :=
  match en with ECert (Some k) => negb (provided k ins) | _ => false end.

Section spec.
Context (mc : BfModuleConfig) (provide : nat → list Transaction).

Definition raw_event (en : entry) : app_event :=
  match en with
  | ENewEpoch epochNr protocolModule => AppNewEpoch (bmc_Destination mc) epochNr protocolModule
  | ECert item => AppNewOrderedBatch (bmc_Destination mc) (from_option provide [] item)
  | ESnapshot replyTo => AppSnapshotRequest (bmc_Destination mc) replyTo
  | EOther payload => AppOther (bmc_Destination mc) payload
  end.
(** What the application gets for an entry, and the client progress after it. *)
Definition spec_entry (p : gmap ClientID DeliveredTXs) (en : entry)
    : app_event * gmap ClientID DeliveredTXs :=
  match en with
  | ENewEpoch _ _ | ESnapshot _ => (raw_event en, (CP.GarbageCollect p).2)
  | ECert item =>
      let '(txs, p) := filter_txs p (from_option provide [] item) in
      (AppNewOrderedBatch (bmc_Destination mc) txs, p)
  | EOther _ => (raw_event en, p)
  end.
Fixpoint spec_run (p : gmap ClientID DeliveredTXs) (ens : list entry)
    : list app_event * gmap ClientID DeliveredTXs :=
  match ens with
  | [] => ([], p)
  | en :: ens =>
      let '(ev, p) := spec_entry p en in
      let '(evs, p) := spec_run p ens in (ev :: evs, p)
  end.
End spec.

Definition app_stream (out : list bf_event) : list app_event :=
  omap (λ ev, match ev with BfEmit ev => Some ev | _ => None end) out.

Lemma app_stream_app o1 o2 : app_stream (o1 ++ o2) = app_stream o1 ++ app_stream o2.
Proof. apply omap_app. Qed.
Lemma log_from_app k i1 i2 :
  log_from k (i1 ++ i2) = log_from k i1 ++ log_from (k + length (log_from k i1)) i2.
Proof.
  revert k. induction i1 as [|i i1 IH]; intros k; simpl; [by rewrite Nat.add_0_r|].
  destruct (entry_of k i); simpl; rewrite IH; [|done]. do 2 f_equal. f_equal. lia.
Qed.
Lemma log_from_snoc k ins i :
  log_from k (ins ++ [i]) = log_from k ins ++ option_list (entry_of (k + length (log_from k ins)) i).
Proof. rewrite log_from_app. simpl. by destruct (entry_of _ i). Qed.
Lemma spec_run_snoc mc provide p ens en :
  spec_run mc provide p (ens ++ [en]) =
    let '(evs, p') := spec_run mc provide p ens in
    let '(ev, p'') := spec_entry mc provide p' en in (evs ++ [ev], p'').
Proof.
  revert p. induction ens as [|en' ens IH]; intros p; cbn [spec_run app].
  { by destruct (spec_entry mc provide p en). }
  destruct (spec_entry mc provide p en') as [ev p1]. rewrite IH.
  destruct (spec_run mc provide p1 ens) as [evs p2]. by destruct (spec_entry mc provide p2 en).
Qed.
Lemma spec_run_length mc provide ens p : length ens = length (spec_run mc provide p ens).1.
Proof.
  revert p. induction ens as [|en ens IH]; intros p; cbn [spec_run]; [done|].
  destruct (spec_entry mc provide p en) as [ev p1]. specialize (IH p1).
  destruct (spec_run mc provide p1 ens). simpl in *. by rewrite IH.
Qed.
Lemma provided_snoc k ins i :
  provided k (ins ++ [i]) =
    provided k ins || match i with BfInProvideTransactions _ k' => bool_decide (k' = k) | _ => false end.
Proof. unfold provided. rewrite existsb_app. simpl. by rewrite orb_false_r. Qed.

(** ** The invariant *)
Definition entry_hook (en : entry) : option hook :=
  match en with
  | ENewEpoch _ _ => Some HookNewEpoch
  | ECert _ => Some HookFilterDuplicates
  | ESnapshot _ => Some HookSnapshot
  | EOther _ => None
  end.

Section inv.
Context (mc : BfModuleConfig) (provide : nat → list Transaction) (st0 : BfState).
Notation first := (bf_nextItem st0).

Definition item_of (ins : list bf_input) (en : entry) : outputItem :=
  mkOutputItem (if waiting ins en then None else Some (raw_event mc provide en)) (entry_hook en).

(** The first [n] entries of the log were given to the application; the items of the others are
    in the queue. *)
Record BfInv (n : nat) (L : list entry) (ins : list bf_input) (st : BfState) (out : list bf_event)
    : Prop := {
  bi_le : n ≤ length L;
  bi_log : L = log_from first ins;
  bi_provided k : provided k ins = true → k < first + length L;
  bi_spec : (app_stream out, bf_clientProgress st) =
    spec_run mc provide (bf_clientProgress st0) (take n L);
  bi_next : bf_nextItem st = first + length L;
  bi_queue : bf_output st = seq (first + n) (length L - n);
  bi_items i en : n ≤ i → L !! i = Some en → bf_items st !! (first + i) = Some (item_of ins en);
  bi_alloc k : k < first + length L → is_Some (bf_items st !! k);
  bi_requests d c k : BfRequestTransactions d c k ∈ out →
    ∃ i, k = first + i ∧ L !! i = Some (ECert (Some k));
}.

(** The hook of an item does to the event and the client progress what the specification says,
    and emits nothing to the application. *)
Lemma run_hook_spec f en st out :
  entry_hook en = Some f →
  twp (run_hook mc f (raw_event mc provide en)) (λ ev st' out',
    (ev, bf_clientProgress st') = spec_entry mc provide (bf_clientProgress st) en ∧
    bf_items st' = bf_items st ∧ bf_nextItem st' = bf_nextItem st ∧ bf_output st' = bf_output st ∧
    ∃ es, out' = out ++ es ∧ app_stream es = [] ∧ ∀ d c k, BfRequestTransactions d c k ∉ es) st out.
Proof.
  destruct en as [e pm|item|r|x]; intros [= <-]; cbn [run_hook raw_event spec_entry]; unfold collectGarbage.
  - repeat twp_step. split_and!; [done..|]. eexists. split; [done|]. split; [done|]. set_solver.
  - unfold filterDuplicates. do 2 twp_step. destruct (filter_txs _ _) as [txs p]. repeat twp_step.
    split_and!; [done..|]. exists []. rewrite app_nil_r. split; [done|]. split; [done|]. set_solver.
  - repeat twp_step. split_and!; [done..|]. eexists. split; [done|]. split; [done|]. set_solver.
Qed.

Lemma spec_take_S L n en p evs :
  L !! n = Some en → (evs, p) = spec_run mc provide (bf_clientProgress st0) (take n L) →
  spec_run mc provide (bf_clientProgress st0) (take (S n) L) =
    (evs ++ [(spec_entry mc provide p en).1], (spec_entry mc provide p en).2).
Proof.
  intros HL Hs. rewrite (take_S_r _ _ _ HL), spec_run_snoc, <- Hs. by destruct (spec_entry mc provide p en).
Qed.

Lemma flush_item_inv n L ins st out en :
  BfInv n L ins st out → L !! n = Some en → waiting ins en = false →
  twp (flush_item mc (first + n) (item_of ins en) (raw_event mc provide en)
         (seq (first + S n) (length L - S n))) (λ _, BfInv (S n) L ins) st out.
Proof.
  intros [Hle Hlog Hpr Hs Hn Hq Hi Ha Hr] HL Hw. pose proof (lookup_lt_Some _ _ _ HL) as Hlt.
  assert (∀ ev p' (st' : BfState) es,
    (ev, p') = spec_entry mc provide (bf_clientProgress st) en →
    bf_clientProgress st' = p' → bf_items st' = bf_items st → bf_nextItem st' = bf_nextItem st →
    app_stream es = [] → (∀ d c k, BfRequestTransactions d c k ∉ es) →
    BfInv (S n) L ins (set_output (seq (first + S n) (length L - S n))
      (set_item (first + n) (mkOutputItem (Some ev) (entry_hook en)) st')) ((out ++ es) ++ [BfEmit ev])) as Hdone.
  { intros ev p' st' es He Hp Hit Hnx Hes Hreq. split; simpl; [lia|done|done| |by rewrite Hnx|done|..].
    - rewrite (spec_take_S _ _ _ _ _ HL Hs), <- He, !app_stream_app, Hes, app_nil_r, Hp. done.
    - intros i en' Hni HL'. rewrite Hit, lookup_insert_ne by lia. apply Hi; [lia|done].
    - intros k Hk. rewrite Hit, lookup_insert_is_Some'. right. by apply Ha.
    - intros d c k. rewrite !elem_of_app. intros [[?|?]|?%list_elem_of_singleton]; [by eauto|by edestruct Hreq|done]. }
  unfold flush_item, item_of. cbn [oi_f]. twp_step. destruct (entry_hook en) as [f|] eqn:Hf.
  - eapply twp_mono; [by apply (run_hook_spec f en)|].
    intros ev st' out' (He & Hit & Hnx & _ & es & -> & Hes & Hreq). repeat twp_step. by eapply Hdone.
  - repeat twp_step. destruct en; try done. rewrite <- (app_nil_r out) at 1.
    eapply Hdone; [done|done..|set_solver].
Qed.

Lemma flush_loop_inv m L ins : ∀ n st out,
  m = length L - n → BfInv n L ins st out →
  twp (flush_loop mc (seq (first + n) m)) (λ _ st' out',
    ∃ n', BfInv n' L ins st' out' ∧ ∀ en, L !! n' = Some en → waiting ins en = true) st out.
Proof.
  induction m as [|m IH]; intros n st out Hm Hi; cbn [seq flush_loop].
  { twp_step. exists n. split; [done|]. intros en Hen%lookup_lt_Some. lia. }
  destruct (lookup_lt_is_Some_2 L n) as [en HL]; [lia|].
  do 3 twp_step. eapply twp_lift; [by rewrite (bi_items _ _ _ _ _ Hi n en)|].
  cbn [oi_event item_of]. destruct (waiting ins en) eqn:Hw.
  - twp_step. exists n. split; [done|]. intros en' Hen'. by simplify_eq.
  - twp_step. eapply twp_mono.
    { replace (seq (S (first + n)) m) with (seq (first + S n) (length L - S n)) by (f_equal; lia).
      unfold item_of in *. by apply (flush_item_inv n L ins st out en). }
    intros [] st' out' Hi'. replace (S (first + n)) with (first + S n) by lia. apply IH; [lia|done].
Qed.

Lemma Flush_inv n L ins st out :
  BfInv n L ins st out →
  twp (Flush mc) (λ _ st' out',
    ∃ n', BfInv n' L ins st' out' ∧ ∀ en, L !! n' = Some en → waiting ins en = true) st out.
Proof.
  intros Hi. unfold Flush. do 2 twp_step. rewrite (bi_queue _ _ _ _ _ Hi). by apply flush_loop_inv.
Qed.

(** ** Inputs *)
Definition bf_quiet (ins : list bf_input) (st : BfState) (out : list bf_event) : Prop :=
  ∃ n L, BfInv n L ins st out ∧ ∀ en, L !! n = Some en → waiting ins en = true.
(** Transactions are provided for requests, and always the same for one request; requests made before the
    start (of an earlier queue) may still be answered. *)
Definition bf_answers (out : list bf_event) (i : bf_input) : Prop :=
  match i with
  | BfInProvideTransactions txs k =>
      txs = provide k ∧ (k < first ∨ ∃ d c, BfRequestTransactions d c k ∈ out)
  | BfInRestoreState _ => False
  | _ => True
  end.

Lemma log_cert k0 ins i k : log_from k0 ins !! i = Some (ECert (Some k)) → k = k0 + i.
Proof.
  revert k0 i. induction ins as [|x ins IH]; intros k0 i; [done|]. simpl. destruct (entry_of k0 x) as [en|] eqn:He; [|apply IH].
  destruct i as [|i]; simpl; [|intros ?%IH; lia].
  intros [= ->]. destruct x as [| |? ? []| | | |]; simplify_eq/=. lia.
Qed.

Lemma item_of_snoc ins i en :
  (∀ k, en = ECert (Some k) → provided k (ins ++ [i]) = provided k ins) → item_of (ins ++ [i]) en = item_of ins en.
Proof.
  intros He. unfold item_of, waiting. destruct en as [| [k|] | |]; try done. by rewrite He.
Qed.

Lemma BfInv_push n L ins st out i en st' :
  BfInv n L ins st out → entry_of (first + length L) i = Some en →
  bf_clientProgress st' = bf_clientProgress st → bf_nextItem st' = S (bf_nextItem st) →
  bf_output st' = bf_output st ++ [bf_nextItem st] →
  bf_items st' !! bf_nextItem st = Some (item_of (ins ++ [i]) en) →
  (∀ k, k ≠ bf_nextItem st → bf_items st' !! k = bf_items st !! k) →
  BfInv n (L ++ [en]) (ins ++ [i]) st' out.
Proof.
  intros [Hle Hlog Hpr Hs Hn Hq Hi Ha Hr] He Hp Hnx Hq' Hnew Hold.
  assert (∀ k, provided k (ins ++ [i]) = provided k ins) as Hpr'.
  { intros k. rewrite provided_snoc. destruct i; by rewrite ?orb_false_r. }
  split; rewrite ?length_app; simpl; try lia.
  - by rewrite Hlog, log_from_snoc, <- Hlog, He.
  - intros k. rewrite Hpr'. intros ?%Hpr. lia.
  - by rewrite take_app_le, Hp.
  - rewrite Hq', Hq, Hn. replace (length L + 1 - n) with (S (length L - n)) by lia. rewrite seq_S.
    do 2 f_equal. lia.
  - intros k en' Hk [HL|[Hlt HL]]%lookup_app_Some.
    + pose proof (lookup_lt_Some _ _ _ HL). rewrite Hold, item_of_snoc by (auto with lia). by apply Hi.
    + apply list_lookup_singleton_Some in HL as [? <-]. replace (first + k) with (bf_nextItem st) by lia. done.
  - intros k Hk. destruct (decide (k = bf_nextItem st)) as [->|]; [by rewrite Hnew|]. rewrite Hold by done. apply Ha. lia.
  - intros d c k Hin. destruct (Hr _ _ _ Hin) as (x & -> & HL). exists x. split; [done|]. by apply lookup_app_l_Some.
Qed.

Lemma BfInv_request n L ins st out d c k :
  L !! (k - first) = Some (ECert (Some k)) ∧ first ≤ k →
  BfInv n L ins st out → BfInv n L ins st (out ++ [BfRequestTransactions d c k]).
Proof.
  intros [HL Hk] [Hle Hlog Hpr Hs Hn Hq Hi Ha Hr]. split; try done.
  - by rewrite app_stream_app, app_nil_r.
  - intros d' c' k' [Hin|Hin%list_elem_of_singleton]%elem_of_app; [by eapply Hr|]. simplify_eq.
    exists (k - first). split; [lia|done].
Qed.

Lemma enqueue_inv n L ins st out i en st1 :
  BfInv n L ins st out → entry_of (first + length L) i = Some en → waiting (ins ++ [i]) en = false →
  st1 = st ∨ (∃ e, st1 = set_epochNr e st) →
  twp (enqueue_and_flush mc (mkOutputItem (Some (raw_event mc provide en)) (entry_hook en)))
    (λ _, bf_quiet (ins ++ [i])) st1 out.
Proof.
  intros Hi He Hw Hst. unfold enqueue_and_flush, alloc, Enqueue. repeat twp_step.
  eapply twp_mono; [apply (Flush_inv n (L ++ [en]) (ins ++ [i]))|].
  - eapply BfInv_push; [exact Hi|exact He|destruct Hst as [->|[e ->]]; simpl..]; try done.
    1, 2: by rewrite lookup_insert_eq; unfold item_of; rewrite Hw.
    1, 2: intros k Hk; by rewrite lookup_insert_ne.
  - intros [] st' out' (n' & Hi' & Hh). by exists n', (L ++ [en]).
Qed.

Lemma provide_inv n L ins st out k item :
  BfInv n L ins st out → (k < first ∨ ∃ d c, BfRequestTransactions d c k ∈ out) →
  bf_items st !! k = Some item →
  BfInv n L (ins ++ [BfInProvideTransactions (provide k) k])
    (set_item k (mkOutputItem (Some (AppNewOrderedBatch (bmc_Destination mc) (provide k))) (oi_f item)) st) out.
Proof.
  intros [Hle Hlog Hpr Hs Hn Hq Hi Ha Hr] Hk Hit.
  assert (∀ k', k' ≠ k → provided k' (ins ++ [BfInProvideTransactions (provide k) k]) = provided k' ins) as Hpr'.
  { intros k' Hne. rewrite provided_snoc, bool_decide_eq_false_2 by done. apply orb_false_r. }
  split; simpl; [done| | |done|done|done| | |done].
  - rewrite log_from_snoc. simpl. by rewrite app_nil_r.
  - intros k'. destruct (decide (k' = k)) as [->|Hne]; [|rewrite Hpr' by done; apply Hpr]. intros _.
    destruct Hk as [?|(d & c & (x & -> & HL%lookup_lt_Some)%Hr)]; lia.
  - intros x en Hx HL. assert (∀ k', en = ECert (Some k') → k' = first + x) as Hcert.
    { intros k' ->. subst L. by eapply log_cert. }
    destruct (decide (first + x = k)) as [<-|Hne].
    + destruct Hk as [?|(d & c & (x' & Heq & HL')%Hr)]; [lia|]. assert (x' = x) as -> by lia. simplify_eq.
      rewrite Hi with (en := ECert (Some (first + x))) in Hit by done. injection Hit as <-.
      rewrite lookup_insert_eq. unfold item_of, waiting. rewrite provided_snoc, bool_decide_eq_true_2, orb_true_r by done.
      done.
    + rewrite lookup_insert_ne by done. rewrite item_of_snoc; [by apply Hi|].
      intros k' ->. rewrite Hpr'; [done|]. rewrite (Hcert k' eq_refl). done.
  - intros k' Hk'. rewrite lookup_insert_is_Some'. right. by apply Ha.
Qed.

Lemma bf_apply_inv rng i ins st out :
  bf_quiet ins st out → bf_answers out i →
  twp (bf_apply mc rng i) (λ _, bf_quiet (ins ++ [i])) st out.
Proof.
  intros (n & L & Hi & Hh) Ha. destruct i as [|e pm|sn cert empty|replyTo|chkp|txs k|payload]; cbn [bf_apply].
  - twp_step. exists n, L. split; [|by intros en Hen; specialize (Hh en Hen);
      destruct en as [|[]| |]; simplify_eq/=; rewrite provided_snoc, orb_false_r].
    destruct Hi as [Hle Hlog Hpr Hs Hn Hq Hi Hal Hr]. split; try done.
    + by rewrite log_from_snoc, app_nil_r.
    + intros k. rewrite provided_snoc, orb_false_r. apply Hpr.
    + intros x en Hx HL. rewrite item_of_snoc; [by apply Hi|]. intros k _. by rewrite provided_snoc, orb_false_r.
  - unfold UponNewEpoch. do 2 twp_step. eapply (enqueue_inv n L _ _ _ _ (ENewEpoch e pm)); [done|done|done|].
    right. by eexists.
  - unfold UponDeliverCert, alloc, Enqueue. destruct empty; repeat twp_step.
    + eapply twp_mono; [apply (Flush_inv n (L ++ [ECert None]) (ins ++ [BfInDeliverCert sn cert true]))|].
      * eapply BfInv_push; [exact Hi|done..| |]; simpl; [by rewrite lookup_insert_eq|].
        intros k Hk. by rewrite !lookup_insert_ne.
      * intros [] st' out' (n' & Hi' & Hh'). by exists n', (L ++ [ECert None]).
    + pose proof (bi_next _ _ _ _ _ Hi) as Hn. rewrite Hn.
      assert (provided (first + length L) (ins ++ [BfInDeliverCert sn cert false]) = false) as Hnew.
      { rewrite provided_snoc, orb_false_r. apply not_true_iff_false. intros ?%(bi_provided _ _ _ _ _ Hi). lia. }
      exists n, (L ++ [ECert (Some (first + length L))]). split.
      * apply BfInv_request.
        { split; [|lia]. rewrite lookup_app_r by lia. by replace (first + length L - first - length L) with 0 by lia. }
        eapply BfInv_push; [exact Hi|done|done|by rewrite Hn|by rewrite Hn| |]; simpl; rewrite Hn.
        { rewrite lookup_insert_eq. unfold item_of, waiting. by rewrite Hnew. }
        { intros k Hk. by rewrite lookup_insert_ne. }
      * intros en [HL|[_ [_ <-]%list_lookup_singleton_Some]]%lookup_app_Some; simpl; [|by rewrite Hnew].
        specialize (Hh _ HL). destruct en as [|[]| |]; simplify_eq/=. by rewrite provided_snoc, orb_false_r.
  - eapply (enqueue_inv n L _ _ _ _ (ESnapshot replyTo)); [done|done|done|by left].
  - done.
  - destruct Ha as [-> Hk]. assert (k < first + length L) as Hlt.
    { destruct Hk as [?|(d & c & Hr)]; [lia|]. destruct (bi_requests _ _ _ _ _ Hi _ _ _ Hr) as (x & -> & ?%lookup_lt_Some). lia. }
    destruct (bi_alloc _ _ _ _ _ Hi k Hlt) as [item Hit].
    unfold UponProvideTransactions. do 3 twp_step. eapply twp_lift; [by rewrite Hit|]. do 2 twp_step.
    eapply twp_mono; [by eapply (Flush_inv n L), provide_inv|].
    intros [] st' out' (n' & Hi' & Hh'). by exists n', L.
  - eapply (enqueue_inv n L _ _ _ _ (EOther payload)); [done|done|done|by left].
Qed.

Lemma bf_quiet_start :
  bf_output st0 = [] → (∀ k, k < first → is_Some (bf_items st0 !! k)) → bf_quiet [] st0 [].
Proof.
  intros Hq Ha. exists 0, []. split; [|done]. split; simpl; try done; try set_solver.
  intros k Hk. apply Ha. lia.
Qed.
End inv.

Definition bf_run (mc : BfModuleConfig) (provide : nat → list Transaction) (st0 st : BfState)
    (ins : list bf_input) (out : list bf_event) : Prop :=
  reach (bf_apply mc) (bf_answers provide st0) st0 st ins out.

Lemma bf_run_quiet mc provide st0 st ins out :
  bf_output st0 = [] → (∀ k, k < bf_nextItem st0 → is_Some (bf_items st0 !! k)) →
  bf_run mc provide st0 st ins out → bf_quiet mc provide st0 ins st out.
Proof.
  intros Hq Ha. revert st ins out.
  apply (reach_invariant _ _ _ (λ st ins out, bf_quiet mc provide st0 ins st out)); [by apply bf_quiet_start|].
  intros st ins out rng i Hi Han. by apply twp_wp, bf_apply_inv.
Qed.

(** C18 (refinement).  The batch fetcher refines in-order relaying: from an empty queue (at the start or
    after restoring a checkpoint), whenever and in whatever order the transactions of the
    certificates arrive, the application has got exactly the first [n] events of the
    specified stream, which depends only on the order of the inputs and on the transactions of each certificate;
    the event after them is a certificate whose transactions did not arrive; and no
    handler fails. *)
Theorem batchfetcher_relays_in_order mc provide st0 st ins out :
  bf_output st0 = [] → (∀ k, k < bf_nextItem st0 → is_Some (bf_items st0 !! k)) →
  bf_run mc provide st0 st ins out →
  let log := log_from (bf_nextItem st0) ins in
  ∃ n, n ≤ length log ∧
    spec_run mc provide (bf_clientProgress st0) (take n log) = (app_stream out, bf_clientProgress st) ∧
    (∀ en, log !! n = Some en → ∃ k, en = ECert (Some k) ∧ ∀ txs, BfInProvideTransactions txs k ∉ ins) ∧
    ∀ rng i, bf_answers provide st0 out i → ∃ st' es, bf_apply mc rng i st = Ok (tt, st', es).
Proof.
  intros Hq Ha Hr. pose proof (bf_run_quiet _ _ _ _ _ _ Hq Ha Hr) as Hquiet.
  pose proof Hquiet as (n & L & Hi & Hh). simpl. rewrite <- (bi_log _ _ _ _ _ _ _ _ Hi).
  exists n. split; [apply Hi|]. split; [symmetry; apply Hi|]. split.
  - intros en Hen. specialize (Hh en Hen). destruct en as [|[k|]| |]; simplify_eq/=. exists k. split; [done|].
    intros txs Hin%list_elem_of_In. apply negb_true_iff, not_true_iff_false in Hh. apply Hh, existsb_exists.
    eexists. split; [exact Hin|]. by apply bool_decide_eq_true.
  - intros rng i Han. destruct (bf_apply_inv _ _ _ rng i _ _ _ Hquiet Han) as ([] & st' & es & ? & _). by eauto.
Qed.

(** ** Deduplication *)
Definition tx_key (tx : Transaction) : ClientID * TxNo := (tx_ClientId tx, tx_TxNo tx).
Definition batch_txs (ev : app_event) : list Transaction :=
  match ev with AppNewOrderedBatch _ txs => txs | _ => [] end.
Definition delivered (evs : list app_event) : list (ClientID * TxNo) := tx_key <$> (evs ≫= batch_txs).

(** [new] are transactions not in [s], each once, and [s'] adds them to [s]. *)
Record fresh_in (s s' : gset (ClientID * TxNo)) (new : list (ClientID * TxNo)) : Prop := {
  fr_nodup : NoDup new;
  fr_new x : x ∈ new → x ∉ s;
  fr_set x : x ∈ s' ↔ x ∈ s ∨ x ∈ new;
}.
Lemma fresh_in_nil s : fresh_in s s [].
Proof. split; [constructor|set_solver..]. Qed.
Lemma fresh_in_app s1 s2 s3 l1 l2 :
  fresh_in s1 s2 l1 → fresh_in s2 s3 l2 → fresh_in s1 s3 (l1 ++ l2).
Proof.
  intros [Hd1 Hn1 Hs1] [Hd2 Hn2 Hs2]. split; [|set_solver..].
  apply list.NoDup_app. split_and!; [done| |done]. intros x Hx1 Hx2%Hn2. apply Hx2, Hs1. by right.
Qed.

Lemma filter_txs_spec p s txs :
  CP.refines p s → (∀ tx, tx ∈ txs → (tx_TxNo tx < u64_max - 1)%N) →
  ∃ s', CP.refines (filter_txs p txs).2 s' ∧ fresh_in s s' (tx_key <$> (filter_txs p txs).1) ∧
    ∀ tx, tx ∈ txs → tx_key tx ∈ s'.
Proof.
  revert p s. induction txs as [|tx txs IH]; intros p s Hr Hb; simpl.
  { exists s. split_and!; [done|apply fresh_in_nil|set_solver]. }
  destruct (CP.refines_step p s (CP.OpAdd (tx_ClientId tx) (tx_TxNo tx))) as [Hr1 Hres]; [|done|].
  { intros c x [= <- <-]. apply Hb. left. }
  simpl in Hr1, Hres. destruct (CP.Add p (tx_ClientId tx) (tx_TxNo tx)) as [added p1]. simpl in *.
  destruct (IH p1 _ Hr1) as (s' & Hr' & Hf & Hin); [set_solver|].
  destruct (filter_txs p1 txs) as [new p']. simpl in *. injection Hres as ->. exists s'. split_and!; [done| |].
  - rewrite fmap_app. eapply fresh_in_app; [|exact Hf]. case_bool_decide as Hnew; simpl.
    + split; [apply NoDup_singleton|set_solver..].
    + replace ({[(tx_ClientId tx, tx_TxNo tx)]} ∪ s) with s by set_solver. apply fresh_in_nil.
  - intros tx' [->|Hin']%elem_of_cons; [apply (fr_set _ _ _ Hf); set_solver|by apply Hin].
Qed.

Lemma garbage_refines p s : CP.refines p s → CP.refines (CP.GarbageCollect p).2 s.
Proof. intros Hr. by apply (CP.refines_step p s CP.OpGarbageCollect). Qed.

Section dedup.
Context (mc : BfModuleConfig) (provide : nat → list Transaction).
Context (Hbound : ∀ k tx, tx ∈ provide k → (tx_TxNo tx < u64_max - 1)%N).

Lemma spec_run_fresh ens : ∀ p s, CP.refines p s →
  ∃ s', CP.refines (spec_run mc provide p ens).2 s' ∧
    fresh_in s s' (delivered (spec_run mc provide p ens).1) ∧
    ∀ k tx, ECert (Some k) ∈ ens → tx ∈ provide k → tx_key tx ∈ s'.
Proof.
  induction ens as [|en ens IH]; intros p s Hr; cbn [spec_run].
  { exists s. split_and!; [done|apply fresh_in_nil|set_solver]. }
  assert (∃ s1, CP.refines (spec_entry mc provide p en).2 s1 ∧
    fresh_in s s1 (delivered [(spec_entry mc provide p en).1]) ∧
    ∀ k tx, en = ECert (Some k) → tx ∈ provide k → tx_key tx ∈ s1) as (s1 & Hr1 & Hf1 & Hk1).
  { destruct en as [e pm|item|r|x]; cbn [spec_entry].
    - exists s. split_and!; [by apply garbage_refines|apply fresh_in_nil|done].
    - destruct (filter_txs_spec p s (from_option provide [] item) Hr) as (s1 & Hr1 & Hf1 & Hin).
      { destruct item; simpl; [by apply Hbound|set_solver]. }
      destruct (filter_txs p _) as [txs p1]. simpl in *. exists s1. unfold delivered. simpl.
      rewrite app_nil_r. split_and!; [done|done|]. intros k tx [= ->]. apply Hin.
    - exists s. split_and!; [by apply garbage_refines|apply fresh_in_nil|done].
    - exists s. split_and!; [done|apply fresh_in_nil|done]. }
  destruct (spec_entry mc provide p en) as [ev p1]. simpl in Hr1, Hf1. destruct (IH p1 s1 Hr1) as (s' & Hr' & Hf & Hk).
  destruct (spec_run mc provide p1 ens) as [evs p']. simpl in *. exists s'. split_and!; [done| |].
  - unfold delivered in *. rewrite bind_cons, fmap_app. simpl in Hf1. rewrite app_nil_r in Hf1.
    by eapply fresh_in_app.
  - intros k tx [<-|?]%elem_of_cons Htx; [|by eauto]. apply (fr_set _ _ _ Hf). left. by eapply Hk1.
Qed.
End dedup.


(** ** Concrete runs *)
Module BfToy.
Definition mc : BfModuleConfig := mkBfModuleConfig "fetcher" "availability" "checkpoint" "app" "mempool".
Definition tx (n : N) : Transaction := mkTransaction "client" n 0 None.
Definition provide (k : nat) : list Transaction :=
  match k with 1 => [tx 0; tx 1] | 2 => [tx 1; tx 2] | _ => [] end.
Definition st0 : BfState := NewModule 0 ∅.
Definition answers_b (out : list bf_event) (i : bf_input) : bool :=
  match i with
  | BfInProvideTransactions txs k =>
      match k, txs with
      | 1, [mkTransaction "client" 0 0 None; mkTransaction "client" 1 0 None]
      | 2, [mkTransaction "client" 1 0 None; mkTransaction "client" 2 0 None] =>
          existsb (λ ev, match ev with BfRequestTransactions _ _ k' => bool_decide (k' = k) | _ => false end) out
      | _, _ => false
      end
  | BfInRestoreState _ => false
  | _ => true
  end.
Lemma requested_sound out k :
  existsb (λ ev, match ev with BfRequestTransactions _ _ k' => bool_decide (k' = k) | _ => false end) out = true →
  ∃ d c, BfRequestTransactions d c k ∈ out.
Proof.
  intros (ev & Hin%list_elem_of_In & Hk)%existsb_exists. destruct ev; try done.
  apply bool_decide_eq_true in Hk as ->. by eauto.
Qed.
Lemma bf_answers_b_sound out i : answers_b out i = true → bf_answers provide st0 out i.
Proof.
  destruct i as [| | | | |txs k|]; try done. simpl. intros H.
  repeat (case_match; try done); subst; (split; [done|right]; by apply requested_sound).
Qed.
(** The transactions of the second certificate arrive first, those of the first one after the
    node entered the next epoch. *)
Definition inputs : list bf_input :=
  [BfInNewEpoch 1 "iss"; BfInDeliverCert 0 CertNone false; BfInDeliverCert 1 CertNone false;
   BfInSnapshotRequest "checkpoint/1"; BfInNewEpoch 2 "iss";
   BfInProvideTransactions (provide 2) 2; BfInProvideTransactions (provide 1) 1].
Definition final : option (BfState * list bf_event) :=
  checked (bf_apply mc) answers_b range_id inputs st0 [].
End BfToy.

(** The modules to which client progress was sent. *)
Definition progress_dests (out : list bf_event) : list string :=
  omap (λ ev, match ev with BfClientProgress dest _ => Some dest | _ => None end) out.

Lemma final_run : ∃ st out, bf_run BfToy.mc BfToy.provide BfToy.st0 st BfToy.inputs out ∧
  delivered (app_stream out) = [("client", 0%N); ("client", 1%N); ("client", 2%N)] ∧
  progress_dests out = ["checkpoint/2"] ∧ bf_output st = [].
Proof.
  destruct BfToy.final as [[st out]|] eqn:Hf; [|by vm_compute in Hf]. exists st, out.
  assert ((λ so, (delivered (app_stream so.2), progress_dests so.2, bf_output so.1)) <$> BfToy.final =
    Some ([("client", 0%N); ("client", 1%N); ("client", 2%N)], ["checkpoint/2"], [])) as Hv by (vm_compute; reflexivity).
  rewrite Hf in Hv. simpl in Hv. injection Hv as Hd Hp Hq. split_and!; [|exact Hd|exact Hp|exact Hq].
  exact (checked_reach _ _ _ BfToy.bf_answers_b_sound _ range_id _ _ [] [] _ _ (reach_start _ _ _) Hf).
Qed.

Lemma batchfetcher_relays_in_order_witness :
  ∃ out st, bf_run BfToy.mc BfToy.provide BfToy.st0 st BfToy.inputs out ∧
    ∃ n, spec_run BfToy.mc BfToy.provide ∅ (take n (log_from 0 BfToy.inputs)) =
      (app_stream out, bf_clientProgress st).
Proof.
  destruct final_run as (st & out & Hr & _). exists out, st. split; [exact Hr|].
  destruct (batchfetcher_relays_in_order BfToy.mc BfToy.provide BfToy.st0 st BfToy.inputs out eq_refl
              ltac:(simpl; lia) Hr) as (n & _ & Hs & _).
  exists n. exact Hs.
Defined.


(** The client progress for a snapshot goes to the checkpoint module of the epoch in
    which the request leaves the queue, not of the one in which it was made: the node requests
    a snapshot in epoch 1, an earlier certificate is resolved only in epoch 2, and the
    checkpoint module of epoch 1, to which the application sends the snapshot, never gets the progress. *)
Theorem snapshot_progress_misdirected :
  ∃ st out, bf_run BfToy.mc BfToy.provide BfToy.st0 st
      ([BfInNewEpoch 1 "iss"; BfInDeliverCert 0 CertNone false; BfInDeliverCert 1 CertNone false;
        BfInSnapshotRequest "checkpoint/1"; BfInNewEpoch 2 "iss";
        BfInProvideTransactions (BfToy.provide 2) 2; BfInProvideTransactions (BfToy.provide 1) 1]) out ∧
    bf_output st = [] ∧
    (∃ progress, BfClientProgress "checkpoint/2" progress ∈ out) ∧
    ∀ progress, BfClientProgress "checkpoint/1" progress ∉ out.
Proof.
  destruct final_run as (st & out & Hr & _ & Hp & Hq). exists st, out.
  assert (∀ dest, dest ∈ progress_dests out ↔ ∃ progress, BfClientProgress dest progress ∈ out) as Hin.
  { intros dest. unfold progress_dests. rewrite list_elem_of_omap. split.
    - intros (ev & Hev & He). destruct ev; simplify_eq. by eauto.
    - intros [progress Hev]. by eexists. }
  split_and!; [exact Hr|exact Hq| |].
  - apply Hin. rewrite Hp. left.
  - intros progress Hev. assert ("checkpoint/1" ∈ progress_dests out) as Hd by (apply Hin; by eexists).
    rewrite Hp in Hd. by apply list_elem_of_singleton in Hd.
Qed.
