(* ===== verification/IndexedList.v ===== *)
(** * pkg/util/indexedlist: a doubly linked list with an index and iterators

    Models indexedlist.go and iterator.go.  Elements and iterators are reached through pointers: they are
    records in stores, with addresses instead of pointers.  Every method takes the lock for its
    whole body, so methods are atomic.  The specification is a list of key-value pairs and, for each
    iterator, the number of elements before its position. *)
From Stdlib Require Import ZArith Lia.
From stdpp Require Import prelude gmap strings list fin_maps numbers.
From S2P Require Import Prelude Util.

Record element {K V : Type} := mkElement {
  el_prev : option nat; el_next : option nat; el_key : K; el_val : V;
}.
Arguments element : clear implicits.
Arguments mkElement {K V} _ _ _ _.
Record Iterator := mkIterator { it_lastOutput : option nat; it_stopped : bool }.
Record IndexedList {K : Type} `{Countable K} {V : Type} := mkIndexedList {
  il_elements : gmap nat (element K V); il_index : gmap K nat;
  il_first : option nat; il_last : option nat;
  il_its : gmap nat Iterator; il_iterators : gmap N (list nat); il_retIdx : N;
  il_fresh : nat;
}.
Arguments IndexedList K {_ _} V.
Arguments mkIndexedList {K _ _ V} _ _ _ _ _ _ _ _.

Module IL.
Section il.
Context {K : Type} `{Countable K} {V : Type}.
Notation IndexedList := (IndexedList K V).
Implicit Types il : IndexedList.

Definition New : IndexedList := mkIndexedList ∅ ∅ None None ∅ ∅ 0 0.
Definition Len il : Z := Z.of_nat (size (il_index il)).

Definition set_elements m il : IndexedList :=
  mkIndexedList m (il_index il) (il_first il) (il_last il) (il_its il) (il_iterators il) (il_retIdx il)
    (il_fresh il).
Definition set_index m il : IndexedList :=
  mkIndexedList (il_elements il) m (il_first il) (il_last il) (il_its il) (il_iterators il)
    (il_retIdx il) (il_fresh il).
Definition set_first a il : IndexedList :=
  mkIndexedList (il_elements il) (il_index il) a (il_last il) (il_its il) (il_iterators il)
    (il_retIdx il) (il_fresh il).
Definition set_last a il : IndexedList :=
  mkIndexedList (il_elements il) (il_index il) (il_first il) a (il_its il) (il_iterators il)
    (il_retIdx il) (il_fresh il).
Definition set_its m il : IndexedList :=
  mkIndexedList (il_elements il) (il_index il) (il_first il) (il_last il) m (il_iterators il)
    (il_retIdx il) (il_fresh il).
Definition with_prev p (e : element K V) := mkElement p (el_next e) (el_key e) (el_val e).
Definition with_next n (e : element K V) := mkElement (el_prev e) n (el_key e) (el_val e).

(** [*p] and the assignments [p.prev = x] and [p.next = x] through a pointer [p]. *)
Definition load (p : option nat) il : outcome (element K V) :=
  a ← deref p; deref (il_elements il !! a).
Definition store_prev (p : option nat) x il : outcome IndexedList :=
  a ← deref p; e ← load p il; Ok (set_elements (<[a := with_prev x e]> (il_elements il)) il).
Definition store_next (p : option nat) x il : outcome IndexedList :=
  a ← deref p; e ← load p il; Ok (set_elements (<[a := with_next x e]> (il_elements il)) il).

(** Found keys, their values and the missing keys. *)
Fixpoint LookUp il (keys : list K) : outcome (list K * list V * list K) :=
  match keys with
  | [] => Ok ([], [], [])
  | key :: keys =>
      match il_index il !! key with
      | Some a =>
          e ← load (Some a) il;
          r ← LookUp il keys;
          let '(foundKeys, foundVals, missingKeys) := r in
          Ok (key :: foundKeys, el_val e :: foundVals, missingKeys)
      | None =>
          r ← LookUp il keys;
          let '(foundKeys, foundVals, missingKeys) := r in
          Ok (foundKeys, foundVals, key :: missingKeys)
      end
  end.

(** The new element, and its address; the element exists also if it is not added. *)
Definition alloc_element (key : K) (val : V) il : nat * IndexedList :=
  let a := il_fresh il in
  (a, mkIndexedList (<[a := mkElement None None key val]> (il_elements il)) (il_index il) (il_first il)
        (il_last il) (il_its il) (il_iterators il) (il_retIdx il) (S a)).

Definition appendElement (a : nat) il : outcome (bool * IndexedList) :=
  e ← load (Some a) il;
  match il_index il !! el_key e with
  | Some _ => Ok (false, il)
  | None =>
      let il := set_index (<[el_key e := a]> (il_index il)) il in
      il ← match il_first il with
           | None => Ok (set_first (Some a) il)
           | Some _ =>
               il ← store_next (il_last il) (Some a) il;
               store_prev (Some a) (il_last il) il
           end;
      Ok (true, set_last (Some a) il)
  end.

Definition prependElement (a : nat) il : outcome IndexedList :=
  e ← load (Some a) il;
  match il_index il !! el_key e with
  | Some _ => Ok il
  | None =>
      let il := set_index (<[el_key e := a]> (il_index il)) il in
      il ← match il_first il with
           | None => Ok (set_last (Some a) il)
           | Some _ =>
               il ← store_prev (il_first il) (Some a) il;
               store_next (Some a) (il_first il) il
           end;
      Ok (set_first (Some a) il)
  end.

Fixpoint append_all (kvs : list (K * V)) il : outcome (list K * list V * IndexedList) :=
  match kvs with
  | [] => Ok ([], [], il)
  | (k, v) :: kvs =>
      let '(a, il) := alloc_element k v il in
      r ← appendElement a il;
      let '(added, il) := r in
      r ← append_all kvs il;
      let '(ks, vs, il) := r in
      Ok (if (added : bool) then (k :: ks, v :: vs, il) else (ks, vs, il))
  end.
Definition Append (keys : list K) (vals : list V) il : outcome (list K * list V * IndexedList) :=
  if bool_decide (length keys ≠ length vals)
  then Panic (ExplicitPanic "key and value slices have different lengths")
  else append_all (zip keys vals) il.

(** All registered iterators; what is done to one of them does not depend on the order. *)
Definition registered il : list nat := concat (map_to_list (il_iterators il)).*2.
Definition updateIterators (a : nat) (prev : option nat) il : IndexedList :=
  set_its (foldr (alter (λ it,
    if bool_decide (it_lastOutput it = Some a) then mkIterator prev (it_stopped it) else it))
    (il_its il) (registered il)) il.

Definition removeElement (a : nat) il : outcome IndexedList :=
  e ← load (Some a) il;
  let il := set_index (delete (el_key e) (il_index il)) il in
  let il := updateIterators a (el_prev e) il in
  il ← match el_next e with
       | Some _ => store_prev (el_next e) (el_prev e) il
       | None => Ok (set_last (el_prev e) il)
       end;
  match el_prev e with
  | Some _ => store_next (el_prev e) (el_next e) il
  | None => Ok (set_first (el_next e) il)
  end.

Fixpoint Remove (keys : list K) il : outcome (list K * list V * IndexedList) :=
  match keys with
  | [] => Ok ([], [], il)
  | key :: keys =>
      match il_index il !! key with
      | Some a =>
          e ← load (Some a) il;
          il ← removeElement a il;
          r ← Remove keys il;
          let '(ks, vs, il) := r in Ok (el_key e :: ks, el_val e :: vs, il)
      | None => Remove keys il
      end
  end.

(** The loop of [RemoveSelected] from the element [p] on. *)
Fixpoint remove_from (fuel : nat) (predicate : K → V → bool) (p : option nat) il
    : outcome (list K * list V * IndexedList) :=
  match fuel, p with
  | S fuel, Some a =>
      e ← load (Some a) il;
      if predicate (el_key e) (el_val e) then
        il ← removeElement a il;
        r ← remove_from fuel predicate (el_next e) il;
        let '(ks, vs, il) := r in Ok (el_key e :: ks, el_val e :: vs, il)
      else remove_from fuel predicate (el_next e) il
  | _, _ => Ok ([], [], il)
  end.
Definition RemoveSelected (predicate : K → V → bool) il : outcome (list K * list V * IndexedList) :=
  remove_from (size (il_index il)) predicate (il_first il) il.

Definition Iterator_ (retIdx : N) il : nat * IndexedList :=
  let i := il_fresh il in
  let stopped := bool_decide (retIdx < il_retIdx il)%N in
  let iterators :=
    if stopped then il_iterators il
    else <[retIdx := default [] (il_iterators il !! retIdx) ++ [i]]> (il_iterators il) in
  (i, mkIndexedList (il_elements il) (il_index il) (il_first il) (il_last il)
        (<[i := mkIterator None stopped]> (il_its il)) iterators (il_retIdx il) (S i)).

Definition stop (it : Iterator) : Iterator := mkIterator (it_lastOutput it) true.
Fixpoint collect (fuel : nat) (retIdx : N) il : IndexedList :=
  match fuel with
  | O => il
  | S fuel =>
      if bool_decide (il_retIdx il < retIdx)%N then
        let its := foldr (alter stop) (il_its il) (default [] (il_iterators il !! il_retIdx il)) in
        collect fuel retIdx
          (mkIndexedList (il_elements il) (il_index il) (il_first il) (il_last il) its
             (delete (il_retIdx il) (il_iterators il)) (u64_succ (il_retIdx il)) (il_fresh il))
      else il
  end.
Definition GarbageCollect (retIdx : N) il : IndexedList :=
  collect (N.to_nat (retIdx - il_retIdx il)) retIdx il.

(** *** iterator.go *)
Definition next_element (it : Iterator) il : outcome (option nat) :=
  match it_lastOutput it with
  | None => Ok (il_first il)
  | Some _ => e ← load (it_lastOutput it) il; Ok (el_next e)
  end.

Definition Next (i : nat) il : outcome (option (K * V) * IndexedList) :=
  it ← deref (il_its il !! i);
  if it_stopped it then Ok (None, il)
  else
    p ← next_element it il;
    match p with
    | None => Ok (None, il)
    | Some a =>
        e ← load p il;
        Ok (Some (el_key e, el_val e), set_its (<[i := mkIterator p (it_stopped it)]> (il_its il)) il)
    end.

(** The loop of [NextWhile]; the predicate is a closure with a state. *)
Fixpoint next_while {S : Type} (fuel : nat) (predicate : S → K → V → option S) (s : S) (last p : option nat) il
    : outcome (list K * list V * option nat * S) :=
  match fuel, p with
  | Datatypes.S fuel, Some a =>
      e ← load p il;
      match predicate s (el_key e) (el_val e) with
      | None => Ok ([], [], last, s)
      | Some s =>
          r ← next_while fuel predicate s p (el_next e) il;
          let '(ks, vs, last, s) := r in Ok (el_key e :: ks, el_val e :: vs, last, s)
      end
  | _, _ => Ok ([], [], last, s)
  end.
Definition NextWhile {S : Type} (i : nat) (predicate : S → K → V → option S) (s : S) il
    : outcome (list K * list V * bool * S * IndexedList) :=
  it ← deref (il_its il !! i);
  if it_stopped it then Ok ([], [], false, s, il)
  else
    p ← next_element it il;
    r ← next_while (size (il_index il)) predicate s (it_lastOutput it) p il;
    let '(ks, vs, last, s) := r in
    Ok (ks, vs, true, s, set_its (<[i := mkIterator last (it_stopped it)]> (il_its il)) il).
End il.
End IL.
Import IL.

(** ** Specification: a list of key-value pairs with cursors

    A cursor has the retention index with which it was created and the number of elements before
    its position; it is stopped when its retention index is garbage-collected. *)
Section spec.
Context {K : Type} `{Countable K} {V : Type}.

Record KVList := mkKVList { kv_items : list (K * V); kv_cursors : gmap nat (N * nat); kv_retIdx : N }.
Implicit Types s : KVList.

Definition kv_keys s : list K := (kv_items s).*1.
Definition kv_append (kv : K * V) s : KVList :=
  mkKVList (kv_items s ++ [kv]) (kv_cursors s) (kv_retIdx s).
Fixpoint kv_added s (kvs : list (K * V)) : list (K * V) :=
  match kvs with
  | [] => []
  | kv :: kvs =>
      if bool_decide (kv.1 ∉ kv_keys s) then kv :: kv_added (kv_append kv s) kvs else kv_added s kvs
  end.
(** Deleting the element at [i] moves the positions behind it. *)
Definition shift (i pos : nat) : nat := if bool_decide (i < pos) then pos - 1 else pos.
Definition kv_delete (i : nat) s : KVList :=
  mkKVList (delete i (kv_items s)) (prod_map id (shift i) <$> kv_cursors s) (kv_retIdx s).
Definition kv_set_pos (i : nat) (pos : nat) s : KVList :=
  mkKVList (kv_items s) (alter (prod_map id (λ _, pos)) i (kv_cursors s)) (kv_retIdx s).

(** What is before the position [pos] once the selected elements are removed. *)
Definition kept (P : K → V → bool) (l : list (K * V)) : list (K * V) :=
  filter (λ kv, P kv.1 kv.2 = false) l.
Definition kv_remove_selected (P : K → V → bool) s : KVList :=
  mkKVList (kept P (kv_items s))
    (prod_map id (λ pos, length (kept P (take pos (kv_items s)))) <$> kv_cursors s) (kv_retIdx s).
End spec.
Arguments KVList : clear implicits.

(** ** The representation *)
Definition prev_of (A : list nat) (i : nat) : option nat := match i with 0 => None | S j => A !! j end.

Section rep.
Context {K : Type} `{Countable K} {V : Type}.
Implicit Types il : IndexedList K V.
Implicit Types s : KVList K V.

(** [A] are the addresses of the list's elements, in order. *)
Record Linked il (A : list nat) (l : list (K * V)) : Prop := {
  ln_len : length A = length l;
  ln_elem i a kv : A !! i = Some a → l !! i = Some kv →
    il_elements il !! a = Some (mkElement (prev_of A i) (A !! S i) kv.1 kv.2);
  ln_first : il_first il = A !! 0;
  ln_last : il_last il = prev_of A (length A);
  ln_keys : NoDup l.*1;
  ln_addrs : NoDup A;
  ln_index k a : il_index il !! k = Some a ↔ ∃ i v, A !! i = Some a ∧ l !! i = Some (k, v);
  ln_fresh a : a ∈ A → a < il_fresh il;
}.
Record Cursors il (A : list nat) (cursors : gmap nat (N * nat)) (retIdx : N) : Prop := {
  cu_retIdx : il_retIdx il = retIdx;
  cu_its i : il_its il !! i = None ↔ cursors !! i = None;
  cu_stopped i it r pos : il_its il !! i = Some it → cursors !! i = Some (r, pos) →
    it_stopped it = bool_decide (r < retIdx)%N;
  cu_pos i it r pos : il_its il !! i = Some it → cursors !! i = Some (r, pos) → (retIdx ≤ r)%N →
    it_lastOutput it = prev_of A pos;
  cu_bound i r pos : cursors !! i = Some (r, pos) → pos ≤ length A;
  cu_registered i r pos : cursors !! i = Some (r, pos) → (retIdx ≤ r)%N →
    ∃ ids, il_iterators il !! r = Some ids ∧ i ∈ ids;
  cu_cursor i r ids : il_iterators il !! r = Some ids → i ∈ ids → (retIdx ≤ r)%N ∧ ∃ pos, cursors !! i = Some (r, pos);
  cu_low r : (r < retIdx)%N → il_iterators il !! r = None;
  cu_fresh i : is_Some (cursors !! i) → i < il_fresh il;
}.
Record Rep il (A : list nat) s : Prop := {
  rep_linked : Linked il A (kv_items s);
  rep_cursors : Cursors il A (kv_cursors s) (kv_retIdx s);
}.

Lemma Rep_New : Rep (New : IndexedList K V) [] (mkKVList [] ∅ 0).
Proof.
  split; split; simpl; try done; try set_solver; try lia.
  all: try by intros; simplify_map_eq.
  all: constructor.
Qed.

Lemma Linked_load il A l i a kv :
  Linked il A l → A !! i = Some a → l !! i = Some kv →
  load (Some a) il = Ok (mkElement (prev_of A i) (A !! S i) kv.1 kv.2).
Proof. intros HL Ha Hkv. unfold load. simpl. by rewrite (ln_elem _ _ _ HL _ _ _ Ha Hkv). Qed.

Lemma Linked_lookup il A l i a : Linked il A l → A !! i = Some a → ∃ kv, l !! i = Some kv.
Proof.
  intros HL Ha. apply lookup_lt_is_Some. rewrite <- (ln_len _ _ _ HL). by eapply lookup_lt_Some.
Qed.

Lemma Linked_index il A l k :
  Linked il A l → il_index il !! k = None ↔ k ∉ l.*1.
Proof.
  intros HL. rewrite eq_None_not_Some. apply not_iff_compat. split.
  - intros [a (i & v & _ & Hl)%(ln_index _ _ _ HL)]. apply list_elem_of_fmap. exists (k, v).
    split; [done|by eapply list_elem_of_lookup_2].
  - intros ([k' v] & -> & [i Hi]%list_elem_of_lookup)%list_elem_of_fmap.
    destruct (lookup_lt_is_Some_2 A i) as [a Ha].
    { rewrite (ln_len _ _ _ HL). by eapply lookup_lt_Some. }
    exists a. apply (ln_index _ _ _ HL). by eauto.
Qed.
Lemma Linked_size il A l : Linked il A l → size (il_index il) = length l.
Proof.
  intros HL. assert (dom (il_index il) = list_to_set l.*1) as Hd.
  { apply set_eq. intros k. rewrite elem_of_dom, elem_of_list_to_set.
    pose proof (Linked_index _ _ _ k HL) as Hk. destruct (decide (k ∈ l.*1)), (il_index il !! k); naive_solver. }
  rewrite <- size_dom, Hd, size_list_to_set by apply HL. by rewrite length_fmap.
Qed.

(** Only the addresses of the list matter. *)
Lemma Linked_same il il' A l :
  (∀ a, a ∈ A → il_elements il' !! a = il_elements il !! a) → il_index il' = il_index il →
  il_first il' = il_first il → il_last il' = il_last il → il_fresh il ≤ il_fresh il' →
  Linked il A l → Linked il' A l.
Proof.
  intros He Hi Hf Hl Hfr [H1 H2 H3 H4 H5 H6 H7 H8]. split; [done| |congruence..|done|done|by rewrite Hi|].
  - intros i a kv Ha. rewrite He by (by eapply list_elem_of_lookup_2). by apply H2.
  - intros a Ha. specialize (H8 a Ha). lia.
Qed.

Lemma prev_of_app A B i : i ≤ length A → prev_of (A ++ B) i = prev_of A i.
Proof. destruct i; [done|]. intros. simpl. by rewrite lookup_app_l by lia. Qed.

(** Positions stay valid when the list grows at the end. *)
Lemma Cursors_same il il' A B cursors retIdx :
  il_retIdx il' = il_retIdx il → il_its il' = il_its il → il_iterators il' = il_iterators il →
  il_fresh il ≤ il_fresh il' → Cursors il A cursors retIdx → Cursors il' (A ++ B) cursors retIdx.
Proof.
  intros Hr Hi Hit Hf [H1 H2 H3 H4 Hb H5 H6 H7 H8].
  split; rewrite ?Hr, ?Hi, ?Hit; try done.
  - intros i it r pos Hit' Hc Hle. rewrite (H4 _ _ _ _ Hit' Hc Hle). by rewrite prev_of_app by by eapply Hb.
  - intros i r pos Hc. rewrite length_app. specialize (Hb i r pos Hc). lia.
  - intros i Hc. specialize (H8 i Hc). lia.
Qed.

Lemma Linked_snoc il il' A l a k v :
  Linked il A l → k ∉ l.*1 → a ∉ A → a < il_fresh il' → il_fresh il ≤ il_fresh il' →
  (∀ i b kv, A !! i = Some b → l !! i = Some kv →
     il_elements il' !! b = Some (mkElement (prev_of A i) ((A ++ [a]) !! S i) kv.1 kv.2)) →
  il_elements il' !! a = Some (mkElement (prev_of A (length A)) None k v) →
  il_first il' = (A ++ [a]) !! 0 → il_last il' = Some a → il_index il' = <[k := a]> (il_index il) →
  Linked il' (A ++ [a]) (l ++ [(k, v)]).
Proof.
  intros HL Hk Ha Hfr Hfr' Hold Hnew Hf Hl Hi. pose proof (ln_len _ _ _ HL) as Hlen. split.
  - rewrite !length_app. simpl. lia.
  - intros i b kv [Hb|[Hge Hb]]%lookup_app_Some Hkv.
    + pose proof (lookup_lt_Some _ _ _ Hb). rewrite lookup_app_l in Hkv by lia.
      rewrite prev_of_app by lia. by apply Hold.
    + apply list_lookup_singleton_Some in Hb as [? <-]. assert (i = length A) as -> by lia.
      rewrite lookup_app_r in Hkv by lia. replace (length A - length l) with 0 in Hkv by lia.
      injection Hkv as <-. rewrite prev_of_app by lia. rewrite Hnew. do 2 f_equal.
      symmetry. apply lookup_ge_None. rewrite length_app. simpl. lia.
  - done.
  - rewrite Hl, length_app. simpl. rewrite Nat.add_1_r. simpl. by rewrite lookup_app_r, Nat.sub_diag by lia.
  - rewrite fmap_app. apply list.NoDup_app. split_and!; [apply HL|set_solver|apply NoDup_singleton].
  - apply list.NoDup_app. split_and!; [apply HL|set_solver|apply NoDup_singleton].
  - intros k' b. rewrite Hi, lookup_insert_Some, (ln_index _ _ _ HL). split.
    + intros [[<- <-]|(Hne & i & v' & Hb & Hv)].
      * exists (length A), v. rewrite !lookup_app_r, Hlen, !Nat.sub_diag by lia. done.
      * exists i, v'. split; by apply lookup_app_l_Some.
    + intros (i & v' & [Hb|[Hge Hb]]%lookup_app_Some & Hv).
      * pose proof (lookup_lt_Some _ _ _ Hb). rewrite lookup_app_l in Hv by lia. right. split; [|by eauto].
        intros <-. apply Hk, list_elem_of_fmap. exists (k, v'). split; [done|by eapply list_elem_of_lookup_2].
      * left. apply list_lookup_singleton_Some in Hb as [? <-].
        rewrite lookup_app_r in Hv by lia. replace (i - length l) with 0 in Hv by lia. by injection Hv.
  - intros b [Hb| ->%list_elem_of_singleton]%elem_of_app; [|done]. pose proof (ln_fresh _ _ _ HL b Hb). lia.
Qed.

Lemma store_next_ok il a e x :
  il_elements il !! a = Some e →
  store_next (Some a) x il = Ok (set_elements (<[a := with_next x e]> (il_elements il)) il).
Proof. intros He. unfold store_next, load. simpl. by rewrite He. Qed.
Lemma store_prev_ok il a e x :
  il_elements il !! a = Some e →
  store_prev (Some a) x il = Ok (set_elements (<[a := with_prev x e]> (il_elements il)) il).
Proof. intros He. unfold store_prev, load. simpl. by rewrite He. Qed.

(** Appending one pair: a key that is present leaves the list as it is. *)
Lemma append_one il A s k v :
  Rep il A s →
  ∃ il', appendElement (alloc_element k v il).1 (alloc_element k v il).2 =
      Ok (bool_decide (k ∉ kv_keys s), il') ∧
    ∃ A', Rep il' A' (if bool_decide (k ∉ kv_keys s) then kv_append (k, v) s else s).
Proof.
  intros [HL HC]. set (a := il_fresh il). set (il1 := (alloc_element k v il).2).
  assert (a ∉ A) as Ha by (intros Hin%(ln_fresh _ _ _ HL); unfold a in *; lia).
  assert (Linked il1 A (kv_items s)) as HL1.
  { apply (Linked_same il); [|done|done|done|unfold il1; simpl; lia|exact HL].
    intros b Hb. unfold il1. simpl. rewrite lookup_insert_ne; [done|]. intros <-. by apply Ha. }
  assert (load (Some a) il1 = Ok (mkElement None None k v)) as Hload.
  { unfold load, il1. simpl. by rewrite lookup_insert_eq. }
  assert (il_elements il1 !! a = Some (mkElement None None k v)) as Hea.
  { unfold il1. simpl. by rewrite lookup_insert_eq. }
  assert (il_retIdx il1 = il_retIdx il ∧ il_its il1 = il_its il ∧ il_iterators il1 = il_iterators il ∧
          il_fresh il1 = S a) as (Hr1 & Hi1 & Hit1 & Hfr1) by done.
  change (alloc_element k v il).1 with a. fold il1. clearbody il1. unfold appendElement. rewrite Hload.
  cbn [mbind outcome_bind el_key]. case_bool_decide as Hk.
  2: { destruct (il_index il1 !! k) eqn:E; [|by apply (Linked_index _ _ _ _ HL1) in E].
       exists il1. split; [done|]. exists A. split; [done|]. rewrite <- (app_nil_r A).
       eapply Cursors_same; [..|exact HC]; try done. lia. }
  rewrite (proj2 (Linked_index _ _ _ _ HL1) Hk). pose proof (ln_last _ _ _ HL1) as Hlast.
  assert (∀ il', il_retIdx il' = il_retIdx il → il_its il' = il_its il → il_iterators il' = il_iterators il →
    il_fresh il' = S a → Linked il' (A ++ [a]) (kv_items s ++ [(k, v)]) →
    ∃ A', Rep il' A' (kv_append (k, v) s)) as Hdone.
  { intros il' ? ? ? Hf HL'. exists (A ++ [a]). split; [done|]. eapply Cursors_same; [..|exact HC]; try done.
    rewrite Hf. unfold a. lia. }
  destruct (decide (A = [])) as [->|Hne].
  - simpl. rewrite (ln_first _ _ _ HL1). simpl. eexists. split; [done|]. apply Hdone; [done..|].
    apply (Linked_snoc il1); try done; simpl; lia.
  - destruct (exists_last Hne) as (A0 & b & HA). assert (A !! length A0 = Some b) as Hb.
    { by rewrite HA, lookup_app_r, Nat.sub_diag by lia. }
    assert (length A = S (length A0)) as HlenA by (rewrite HA, length_app; simpl; lia).
    assert (il_last il1 = Some b) as Hlb by (by rewrite Hlast, HlenA).
    assert (∃ a0, il_first il1 = Some a0) as [a0 Hf0].
    { rewrite (ln_first _ _ _ HL1). destruct A as [|a0 ?]; [done|by exists a0]. }
    destruct (Linked_lookup _ _ _ _ _ HL1 Hb) as [kvb Hkvb].
    assert (a ≠ b) as Hab by (intros ->; apply Ha; by eapply list_elem_of_lookup_2).
    pose proof (ln_elem _ _ _ HL1 _ _ _ Hb Hkvb) as Heb.
    cbn [il_first il_last set_index]. rewrite Hf0, Hlb.
    erewrite store_next_ok by exact Heb. cbn [mbind outcome_bind].
    erewrite store_prev_ok by (cbn [il_elements set_elements set_index]; by rewrite lookup_insert_ne).
    cbn [mbind outcome_bind il_last set_elements set_index]. rewrite Hlb.
    eexists. split; [done|]. apply Hdone; [done..|].
    apply (Linked_snoc il1); try done; cbn [il_elements il_first il_fresh set_elements set_index set_last]; try lia.
    + intros i b' kv Hb' Hkv. rewrite lookup_insert_ne by (intros <-; apply Ha; by eapply list_elem_of_lookup_2).
      destruct (decide (b' = b)) as [->|Hbb].
      * assert (i = length A0) as -> by exact (NoDup_lookup _ _ _ _ (ln_addrs _ _ _ HL1) Hb' Hb).
        rewrite lookup_insert_eq. unfold with_next. simplify_eq/=. do 2 f_equal.
        by rewrite lookup_app_r, <- HlenA, Nat.sub_diag by lia.
      * rewrite lookup_insert_ne by done. rewrite (ln_elem _ _ _ HL1 _ _ _ Hb' Hkv). do 2 f_equal.
        assert (i ≠ length A0) by (intros ->; congruence). pose proof (lookup_lt_Some _ _ _ Hb').
        symmetry. apply lookup_app_l. lia.
    + rewrite lookup_insert_eq. unfold with_prev. rewrite HlenA. simpl. by rewrite Hb.
    + rewrite lookup_app_l by lia. apply (ln_first _ _ _ HL1).
Qed.

Lemma append_all_spec kvs : ∀ il A s, Rep il A s →
  ∃ ks vs il', append_all kvs il = Ok (ks, vs, il') ∧
    ∃ A', Rep il' A' (foldl (λ s kv, if bool_decide (kv.1 ∉ kv_keys s) then kv_append kv s else s) s kvs) ∧
    zip ks vs = (kv_added s kvs) ∧ length ks = length vs.
Proof.
  induction kvs as [|[k v] kvs IH]; intros il A s Hr; cbn [append_all foldl kv_added].
  { do 3 eexists. split; [done|]. by exists A. }
  destruct (append_one il A s k v Hr) as (il1 & Happ & A1 & Hr1).
  destruct (alloc_element k v il) as [a il0]. simpl in Happ. rewrite Happ. cbn [mbind outcome_bind fst].
  destruct (IH il1 A1 _ Hr1) as (ks & vs & il' & Hall & A' & Hr' & Hz & Hlen). rewrite Hall. cbn [mbind outcome_bind].
  case_bool_decide; do 3 eexists; (split; [done|]); exists A'; (split; [done|]); simpl; by rewrite ?Hz, ?Hlen.
Qed.

(** *** Removal *)
Lemma prev_of_delete_le A i j : j ≤ i → prev_of (delete i A) j = prev_of A j.
Proof. destruct j as [|j]; [done|]. intros. simpl. by rewrite list_lookup_delete_lt by lia. Qed.
Lemma prev_of_delete_gt A i j : i < j → prev_of (delete i A) j = prev_of A (S j).
Proof. destruct j as [|j]; [lia|]. intros. simpl. by rewrite list_lookup_delete_ge by lia. Qed.
Lemma NoDup_delete {B} (l : list B) i : NoDup l → NoDup (delete i l).
Proof. intros Hnd. eapply sublist_NoDup; [exact Hnd|apply sublist_delete]. Qed.

(** An element other than the deleted one, at position [j] before the deletion. *)
Lemma delete_position {B} (l : list B) i j' x :
  delete i l !! j' = Some x → ∃ j, j ≠ i ∧ l !! j = Some x ∧ j = if bool_decide (j' < i) then j' else S j'.
Proof.
  intros Hx. exists (if bool_decide (j' < i) then j' else S j'). case_bool_decide.
  - rewrite list_lookup_delete_lt in Hx by done. split_and!; [lia|done|done].
  - rewrite list_lookup_delete_ge in Hx by lia. split_and!; [lia|done|done].
Qed.

Lemma Linked_delete il il' A l i a kv :
  Linked il A l → A !! i = Some a → l !! i = Some kv → il_fresh il' = il_fresh il →
  (∀ j b kv', A !! j = Some b → l !! j = Some kv' → j ≠ i →
     il_elements il' !! b = Some (mkElement (if bool_decide (j = S i) then prev_of A i else prev_of A j)
       (if bool_decide (S j = i) then A !! S i else A !! S j) kv'.1 kv'.2)) →
  il_first il' = (if bool_decide (i = 0) then A !! 1 else il_first il) →
  il_last il' = (if bool_decide (S i = length A) then prev_of A i else il_last il) →
  il_index il' = delete kv.1 (il_index il) →
  Linked il' (delete i A) (delete i l).
Proof.
  intros HL Ha Hkv Hfr Hel Hf Hl Hi. pose proof (ln_len _ _ _ HL) as Hlen.
  pose proof (lookup_lt_Some _ _ _ Ha) as Hlt. split.
  - rewrite !length_delete by (by eexists). lia.
  - intros j' b kv' Hb Hkv'. destruct (delete_position _ _ _ _ Hb) as (j & Hne & Hj & Heq).
    assert (l !! j = Some kv') as Hkvj.
    { destruct (delete_position _ _ _ _ Hkv') as (j2 & _ & Hj2 & Heq2). congruence. }
    rewrite (Hel _ _ _ Hj Hkvj Hne). clear Hf Hl Hel. case_bool_decide as Hlt'; subst j.
    + rewrite prev_of_delete_le, bool_decide_eq_false_2 by lia. do 2 f_equal. case_bool_decide.
      * subst i. by rewrite list_lookup_delete_ge by lia.
      * by rewrite list_lookup_delete_lt by lia.
    + rewrite (bool_decide_eq_false_2 (S (S j') = i)) by lia. rewrite list_lookup_delete_ge by lia.
      do 2 f_equal. destruct (decide (j' = i)) as [->|].
      * by rewrite bool_decide_eq_true_2, prev_of_delete_le by done.
      * by rewrite bool_decide_eq_false_2, prev_of_delete_gt by lia.
  - rewrite Hf. clear Hf Hl Hel. case_bool_decide; [subst; by rewrite list_lookup_delete_ge by lia|].
    rewrite list_lookup_delete_lt by lia. apply HL.
  - rewrite Hl, length_delete by (by eexists). clear Hf Hl Hel. case_bool_decide as Hend.
    + rewrite prev_of_delete_le by lia. f_equal. lia.
    + rewrite prev_of_delete_gt by lia. rewrite (ln_last _ _ _ HL). f_equal. lia.
  - rewrite list_fmap_delete. by apply NoDup_delete, HL.
  - by apply NoDup_delete, HL.
  - clear Hf Hl Hel. intros k b. rewrite Hi, lookup_delete_Some, (ln_index _ _ _ HL). split.
    + intros (Hne & j & v & Hb & Hv). assert (j ≠ i) by (intros ->; simplify_eq/=).
      exists (if bool_decide (j < i) then j else j - 1), v. case_bool_decide.
      * by rewrite !list_lookup_delete_lt.
      * rewrite !list_lookup_delete_ge by lia. by replace (S (j - 1)) with j by lia.
    + intros (j' & v & Hb & Hv). destruct (delete_position _ _ _ _ Hb) as (j & Hne & Hj & Heq).
      destruct (delete_position _ _ _ _ Hv) as (j2 & _ & Hj2 & Heq2). assert (j2 = j) as -> by congruence.
      split; [|by eauto]. intros <-. apply Hne. apply (NoDup_lookup l.*1 _ _ kv.1); [apply HL|..];
        rewrite list_lookup_fmap; [by rewrite Hj2|by rewrite Hkv].
  - intros b Hb. rewrite Hfr. apply (ln_fresh _ _ _ HL). eapply elem_of_submseteq; [exact Hb|].
    apply sublist_submseteq, sublist_delete.
Qed.

Lemma foldr_alter_lookup {B} (f : B → B) (l : list nat) (m : gmap nat B) i :
  (∀ x, f (f x) = f x) →
  foldr (alter f) m l !! i = if decide (i ∈ l) then f <$> m !! i else m !! i.
Proof.
  intros Hf. induction l as [|j l IH]; cbn [foldr].
  { by rewrite decide_False by set_solver. }
  destruct (decide (j = i)) as [->|Hne].
  - rewrite lookup_alter_eq, IH, (decide_True (P := i ∈ i :: l)) by set_solver.
    destruct (decide (i ∈ l)); [|done]. destruct (m !! i); simpl; [by rewrite Hf|done].
  - rewrite lookup_alter_ne, IH by done. destruct (decide (i ∈ l)) as [Hin|Hin].
    + by rewrite decide_True by set_solver.
    + by rewrite decide_False by set_solver.
Qed.

Lemma elem_of_registered il i : i ∈ registered il ↔ ∃ r ids, il_iterators il !! r = Some ids ∧ i ∈ ids.
Proof.
  unfold registered. rewrite list_elem_of_In, in_concat. split.
  - intros (ids & Hids%list_elem_of_In & Hi%list_elem_of_In). apply list_elem_of_fmap in Hids as ([r ids'] & -> & Hr).
    apply elem_of_map_to_list in Hr. by eauto.
  - intros (r & ids & Hr & Hi). exists ids. rewrite <- !list_elem_of_In. split; [|done].
    apply list_elem_of_fmap. exists (r, ids). split; [done|]. by apply elem_of_map_to_list.
Qed.

(** Iterators whose last output is the deleted element step back. *)
Lemma step_back A i a pos :
  NoDup A → A !! i = Some a → pos ≤ length A →
  (if bool_decide (prev_of A pos = Some a) then prev_of A i else prev_of A pos) =
    prev_of (delete i A) (shift i pos) ∧ shift i pos ≤ length (delete i A).
Proof.
  intros Hnd Ha Hpos. pose proof (lookup_lt_Some _ _ _ Ha). rewrite length_delete by (by eexists).
  unfold shift. destruct (decide (i < pos)) as [Hlt|Hge].
  - rewrite (bool_decide_eq_true_2 (i < pos)) by done. split; [|lia]. destruct pos as [|p]; [lia|]. simpl.
    rewrite Nat.sub_0_r. destruct (decide (p = i)) as [->|Hne].
    + by rewrite bool_decide_eq_true_2, prev_of_delete_le by done.
    + rewrite bool_decide_eq_false_2, prev_of_delete_gt by (try lia; intros Hp; by apply Hne, (NoDup_lookup A _ _ a)).
      done.
  - rewrite (bool_decide_eq_false_2 (i < pos)) by done. split; [|lia]. rewrite prev_of_delete_le by lia.
    rewrite bool_decide_eq_false_2; [done|]. destruct pos as [|p]; [done|]. simpl. intros Hp.
    pose proof (NoDup_lookup A _ _ a Hnd Hp Ha). lia.
Qed.

Lemma Cursors_delete il il' A i a cursors retIdx :
  Cursors il A cursors retIdx → NoDup A → A !! i = Some a →
  il_its il' = il_its (updateIterators a (prev_of A i) il) → il_retIdx il' = il_retIdx il →
  il_iterators il' = il_iterators il → il_fresh il' = il_fresh il →
  Cursors il' (delete i A) (prod_map id (shift i) <$> cursors) retIdx.
Proof.
  intros HC Hnd Ha Hits Hr Hit Hfr.
  assert (prev_of A i ≠ Some a) as Hself.
  { destruct i as [|i]; [done|]. simpl. intros Hp. pose proof (NoDup_lookup A _ _ a Hnd Hp Ha). lia. }
  assert (∀ j, il_its il' !! j = if decide (j ∈ registered il) then
    (λ it, if bool_decide (it_lastOutput it = Some a) then mkIterator (prev_of A i) (it_stopped it) else it)
      <$> il_its il !! j else il_its il !! j) as Hlook.
  { intros j. rewrite Hits. simpl. apply foldr_alter_lookup. intros it.
    destruct (bool_decide (it_lastOutput it = Some a)) eqn:E; simpl; [by rewrite bool_decide_eq_false_2|].
    by rewrite E. }
  assert (∀ j it', il_its il' !! j = Some it' → ∃ it, il_its il !! j = Some it ∧ it_stopped it' = it_stopped it) as Hold.
  { intros j it'. rewrite Hlook. destruct (decide _); [|by eauto].
    intros (it & -> & ->)%fmap_Some. exists it. split; [done|]. by case_bool_decide. }
  destruct HC as [H1 H2 H3 H4 Hb H5 H6 H7 H8]. split; rewrite ?Hr, ?Hit, ?Hfr; try done.
  - intros j. rewrite lookup_fmap, fmap_None, <- H2, Hlook. destruct (decide _); [by rewrite fmap_None|done].
  - intros j it' r pos (it & Hj & ->)%Hold Hc. rewrite lookup_fmap in Hc. apply fmap_Some in Hc as ([r0 pos0] & Hc & [= -> ->]).
    by eapply H3.
  - intros j it' r pos Hj Hc Hle. rewrite lookup_fmap in Hc. apply fmap_Some in Hc as ([r0 pos0] & Hc & [= -> ->]).
    destruct (H5 _ _ _ Hc Hle) as (ids & Hids & Hin).
    rewrite Hlook, decide_True in Hj by (apply elem_of_registered; eauto).
    apply fmap_Some in Hj as (it & Hj & ->). pose proof (H4 _ _ _ _ Hj Hc Hle) as Hlo.
    destruct (step_back A i a pos0 Hnd Ha (Hb _ _ _ Hc)) as [<- _]. rewrite <- Hlo. by case_bool_decide.
  - intros j r pos Hc. rewrite lookup_fmap in Hc. apply fmap_Some in Hc as ([r0 pos0] & Hc & [= -> ->]).
    by destruct (step_back A i a pos0 Hnd Ha (Hb _ _ _ Hc)).
  - intros j r pos Hc. rewrite lookup_fmap in Hc. apply fmap_Some in Hc as ([r0 pos0] & Hc & [= -> ->]). by eapply H5.
  - intros j r ids Hids Hin. destruct (H6 _ _ _ Hids Hin) as (Hle & pos & Hc). split; [done|].
    exists (shift i pos). by rewrite lookup_fmap, Hc.
  - intros j. rewrite lookup_fmap, fmap_is_Some. apply H8.
Qed.

(** The two assignments that take the element at [i] out of the chain. *)
Lemma unlink_next il A l i (x : option nat) :
  (∀ j b kv, A !! j = Some b → l !! j = Some kv →
     il_elements il !! b = Some (mkElement (prev_of A j) (A !! S j) kv.1 kv.2)) →
  length A = length l → NoDup A → i < length A →
  ∃ il', match A !! S i with Some _ => store_prev (A !! S i) x il | None => Ok (set_last x il) end = Ok il' ∧
    (∀ j b kv, A !! j = Some b → l !! j = Some kv →
       il_elements il' !! b = Some (mkElement (if bool_decide (j = S i) then x else prev_of A j)
         (A !! S j) kv.1 kv.2)) ∧
    il_last il' = (if bool_decide (S i = length A) then x else il_last il) ∧
    il_first il' = il_first il ∧ il_index il' = il_index il ∧ il_its il' = il_its il ∧
    il_iterators il' = il_iterators il ∧ il_retIdx il' = il_retIdx il ∧ il_fresh il' = il_fresh il.
Proof.
  intros Hel Hlen Hnd Hlt. destruct (A !! S i) as [n|] eqn:Hn.
  - destruct (lookup_lt_is_Some_2 l (S i)) as [kvn Hkvn]; [rewrite <- Hlen; by eapply lookup_lt_Some|].
    rewrite (store_prev_ok _ _ _ _ (Hel _ _ _ Hn Hkvn)). eexists. split; [done|]. simpl. split.
    + intros j b kv Hb Hkv. destruct (decide (j = S i)) as [->|Hne].
      * simplify_eq. by rewrite lookup_insert_eq, bool_decide_eq_true_2.
      * rewrite lookup_insert_ne by (intros <-; by apply Hne, (NoDup_lookup A _ _ n)).
        rewrite bool_decide_eq_false_2 by done. by apply Hel.
    + pose proof (lookup_lt_Some _ _ _ Hn). rewrite bool_decide_eq_false_2 by lia. done.
  - apply lookup_ge_None in Hn. eexists. split; [done|]. simpl. split.
    + intros j b kv Hb Hkv. pose proof (lookup_lt_Some _ _ _ Hb). rewrite bool_decide_eq_false_2 by lia. by apply Hel.
    + rewrite bool_decide_eq_true_2 by lia. done.
Qed.

Lemma unlink_prev il A l i (f : nat → option nat) :
  (∀ j b kv, A !! j = Some b → l !! j = Some kv →
     il_elements il !! b = Some (mkElement (f j) (A !! S j) kv.1 kv.2)) →
  length A = length l → NoDup A → i < length A →
  ∃ il', match prev_of A i with
         | Some _ => store_next (prev_of A i) (A !! S i) il
         | None => Ok (set_first (A !! S i) il)
         end = Ok il' ∧
    (∀ j b kv, A !! j = Some b → l !! j = Some kv →
       il_elements il' !! b = Some (mkElement (f j) (if bool_decide (S j = i) then A !! S i else A !! S j)
         kv.1 kv.2)) ∧
    il_first il' = (if bool_decide (i = 0) then A !! 1 else il_first il) ∧
    il_last il' = il_last il ∧ il_index il' = il_index il ∧ il_its il' = il_its il ∧
    il_iterators il' = il_iterators il ∧ il_retIdx il' = il_retIdx il ∧ il_fresh il' = il_fresh il.
Proof.
  intros Hel Hlen Hnd Hlt. destruct i as [|i]; simpl.
  { eexists. split; [done|]. simpl. split; [|done]. intros j b kv Hb Hkv. exact (Hel _ _ _ Hb Hkv). }
  destruct (lookup_lt_is_Some_2 A i) as [p Hp]; [lia|]. rewrite Hp.
  destruct (lookup_lt_is_Some_2 l i) as [kvp Hkvp]; [lia|].
  rewrite (store_next_ok _ _ _ _ (Hel _ _ _ Hp Hkvp)). eexists. split; [done|]. simpl. split; [|done].
  intros j b kv Hb Hkv. destruct (decide (j = i)) as [->|Hne].
  - simplify_eq. by rewrite lookup_insert_eq, bool_decide_eq_true_2.
  - rewrite lookup_insert_ne by (intros <-; by apply Hne, (NoDup_lookup A _ _ p)).
    rewrite bool_decide_eq_false_2 by congruence. by apply Hel.
Qed.

Lemma remove_one il A s i a :
  Rep il A s → A !! i = Some a →
  ∃ il', removeElement a il = Ok il' ∧ Rep il' (delete i A) (kv_delete i s).
Proof.
  intros [HL HC] Ha. destruct (Linked_lookup _ _ _ _ _ HL Ha) as [kv Hkv].
  pose proof (ln_addrs _ _ _ HL) as Hnd. pose proof (lookup_lt_Some _ _ _ Ha) as Hlt.
  pose proof (ln_len _ _ _ HL) as Hlen.
  unfold removeElement. rewrite (Linked_load _ _ _ _ _ _ HL Ha Hkv). cbn [mbind outcome_bind el_key el_prev el_next].
  set (il1 := updateIterators a (prev_of A i) (set_index (delete kv.1 (il_index il)) il)).
  destruct (unlink_next il1 A (kv_items s) i (prev_of A i) (ln_elem _ _ _ HL) Hlen Hnd Hlt)
    as (il2 & -> & Hel2 & Hla2 & Hfi2 & Hin2 & Hits2 & Hit2 & Hr2 & Hfr2).
  destruct (unlink_prev il2 A (kv_items s) i _ Hel2 Hlen Hnd Hlt)
    as (il3 & Heq & Hel3 & Hfi3 & Hla3 & Hin3 & Hits3 & Hit3 & Hr3 & Hfr3).
  exists il3. split; [exact Heq|]. split.
  - eapply (Linked_delete il); [done|done|done|by rewrite Hfr3, Hfr2| | | |].
    + intros j b kv' Hb Hkv' _. by apply Hel3.
    + by rewrite Hfi3, Hfi2.
    + by rewrite Hla3, Hla2.
    + by rewrite Hin3, Hin2.
  - eapply (Cursors_delete il); [done..| | | |]; [by rewrite Hits3, Hits2|by rewrite Hr3, Hr2|by rewrite Hit3, Hit2|by rewrite Hfr3, Hfr2].
Qed.

(** *** RemoveSelected: after the first [j] elements were visited *)
Definition kv_visited (P : K → V → bool) (j : nat) s : KVList K V :=
  mkKVList (kept P (take j (kv_items s)) ++ drop j (kv_items s))
    (prod_map id (λ pos, length (kept P (take (pos `min` j) (kv_items s))) + (pos - j)) <$> kv_cursors s)
    (kv_retIdx s).

Lemma kv_visited_0 P s : kv_visited P 0 s = s.
Proof.
  unfold kv_visited. destruct s as [l c r]. simpl. f_equal. rewrite <- (map_fmap_id c) at 2. apply map_fmap_ext.
  intros i [r' pos] _. unfold prod_map, id. simpl. f_equal. rewrite Nat.min_0_r. simpl. lia.
Qed.
Lemma kv_visited_all P s :
  (∀ i r pos, kv_cursors s !! i = Some (r, pos) → pos ≤ length (kv_items s)) →
  kv_visited P (length (kv_items s)) s = kv_remove_selected P s.
Proof.
  intros Hb. unfold kv_visited, kv_remove_selected. rewrite take_ge, drop_ge, app_nil_r by lia. f_equal.
  apply map_fmap_ext. intros i [r pos] Hc%Hb. unfold prod_map. simpl. f_equal.
  rewrite Nat.min_l by done. lia.
Qed.
Lemma kept_snoc P l (kv : K * V) : kept P (l ++ [kv]) = kept P l ++ if P kv.1 kv.2 then [] else [kv].
Proof.
  unfold kept. rewrite list.filter_app. f_equal. destruct (P kv.1 kv.2) eqn:E.
  - by rewrite filter_cons_False by (by rewrite E).
  - by rewrite filter_cons_True by done.
Qed.
(** Visiting one more element. *)
Lemma kv_visited_S P j s kv :
  kv_items s !! j = Some kv →
  kv_visited P (S j) s =
    if P kv.1 kv.2 then kv_delete (length (kept P (take j (kv_items s)))) (kv_visited P j s)
    else kv_visited P j s.
Proof.
  intros Hkv. unfold kv_visited. rewrite (take_S_r _ _ _ Hkv), kept_snoc, (drop_S _ _ _ Hkv).
  set (d := length (kept P (take j (kv_items s)))).
  assert (∀ pos, length (kept P (take (pos `min` S j) (kv_items s))) + (pos - S j) =
    if decide (j < pos) then d + (if P kv.1 kv.2 then 0 else 1) + (pos - S j)
    else length (kept P (take pos (kv_items s)))) as Hpos.
  { intros pos. destruct (decide (j < pos)).
    - rewrite Nat.min_r, (take_S_r _ _ _ Hkv), kept_snoc, length_app by lia. fold d. by destruct (P kv.1 kv.2).
    - rewrite Nat.min_l by lia. lia. }
  destruct (P kv.1 kv.2) eqn:E.
  - unfold kv_delete. simpl. rewrite app_nil_r. unfold d. rewrite delete_middle. f_equal.
    rewrite <- map_fmap_compose. apply map_fmap_ext. intros i [r pos] _. unfold prod_map, id. simpl. f_equal.
    rewrite Hpos. fold d. unfold shift. destruct (decide (j < pos)).
    + rewrite Nat.min_r by lia. fold d. rewrite bool_decide_eq_true_2 by lia. lia.
    + rewrite Nat.min_l by lia. assert (length (kept P (take pos (kv_items s))) ≤ d) as Hle.
      { unfold d. replace (take j (kv_items s)) with (take pos (kv_items s) ++ drop pos (take j (kv_items s))).
        - unfold kept. rewrite list.filter_app, length_app. lia.
        - rewrite <- (take_drop pos (take j (kv_items s))) at 2. rewrite take_take. do 2 f_equal. lia. }
      rewrite bool_decide_eq_false_2 by lia. lia.
  - f_equal; [by rewrite <- app_assoc|]. apply map_fmap_ext. intros i [r pos] _. unfold prod_map, id. simpl. f_equal.
    rewrite Hpos. destruct (decide (j < pos)).
    + rewrite Nat.min_r by lia. fold d. lia.
    + rewrite Nat.min_l by lia. lia.
Qed.

Definition selected (P : K → V → bool) (l : list (K * V)) : list (K * V) :=
  filter (λ kv, P kv.1 kv.2 = true) l.

Lemma remove_from_spec P s fuel : ∀ j il A,
  Rep il A (kv_visited P j s) → j ≤ length (kv_items s) → fuel = length (kv_items s) - j →
  ∃ ks vs il', remove_from fuel P (A !! length (kept P (take j (kv_items s)))) il = Ok (ks, vs, il') ∧
    zip ks vs = selected P (drop j (kv_items s)) ∧ length ks = length vs ∧
    ∃ A', Rep il' A' (kv_visited P (length (kv_items s)) s).
Proof.
  induction fuel as [|fuel IH]; intros j il A Hr Hj Hf; cbn [remove_from].
  { assert (j = length (kv_items s)) as -> by lia. do 3 eexists. split; [done|].
    rewrite drop_ge by lia. split_and!; [done|done|]. by exists A. }
  destruct (lookup_lt_is_Some_2 (kv_items s) j) as [kv Hkv]; [lia|].
  set (i := length (kept P (take j (kv_items s)))).
  assert (kv_items (kv_visited P j s) !! i = Some kv) as Hi.
  { simpl. rewrite lookup_app_r by done. fold i. rewrite Nat.sub_diag, lookup_drop. by rewrite Nat.add_0_r. }
  assert (is_Some (A !! i)) as [a Ha].
  { apply lookup_lt_is_Some. rewrite (ln_len _ _ _ (rep_linked _ _ _ Hr)). by eapply lookup_lt_Some. }
  rewrite Ha, (Linked_load _ _ _ _ _ _ (rep_linked _ _ _ Hr) Ha Hi). cbn [mbind outcome_bind el_key el_val el_next].
  pose proof (kv_visited_S P j s kv Hkv) as HS. fold i in HS.
  assert (length (kept P (take (S j) (kv_items s))) = i + if P kv.1 kv.2 then 0 else 1) as Hi'.
  { rewrite (take_S_r _ _ _ Hkv), kept_snoc, length_app. fold i. by destruct (P kv.1 kv.2). }
  assert (selected P (drop j (kv_items s)) =
    (if P kv.1 kv.2 then [kv] else []) ++ selected P (drop (S j) (kv_items s))) as Hsel.
  { rewrite (drop_S _ _ _ Hkv). unfold selected. destruct (P kv.1 kv.2) eqn:E.
    - by rewrite filter_cons_True.
    - by rewrite filter_cons_False by by rewrite E. }
  rewrite Hsel. destruct (P kv.1 kv.2) eqn:E.
  - destruct (remove_one il A _ i a Hr Ha) as (il1 & -> & Hr1). rewrite <- HS in Hr1. cbn [mbind outcome_bind].
    destruct (IH (S j) il1 _ Hr1 ltac:(lia) ltac:(lia)) as (ks & vs & il' & Hrf & Hz & Hl & Hr').
    rewrite Hi', Nat.add_0_r, list_lookup_delete_ge in Hrf by lia. rewrite Hrf. cbn [mbind outcome_bind].
    do 3 eexists. split; [done|]. simpl. rewrite Hz, Hl. split_and!; [by destruct kv|done|done].
  - rewrite <- HS in Hr. destruct (IH (S j) il A Hr ltac:(lia) ltac:(lia)) as (ks & vs & il' & Hrf & Hz & Hl & Hr').
    rewrite Hi', Nat.add_1_r in Hrf. rewrite Hrf. do 3 eexists. split; [done|]. done.
Qed.

Lemma RemoveSelected_spec P il A s :
  Rep il A s →
  ∃ ks vs il', RemoveSelected P il = Ok (ks, vs, il') ∧ zip ks vs = selected P (kv_items s) ∧
    length ks = length vs ∧ ∃ A', Rep il' A' (kv_remove_selected P s).
Proof.
  intros Hr. unfold RemoveSelected. rewrite (ln_first _ _ _ (rep_linked _ _ _ Hr)), (Linked_size _ _ _ (rep_linked _ _ _ Hr)).
  rewrite <- (kv_visited_0 P s) in Hr.
  destruct (remove_from_spec P s (length (kv_items s)) 0 il A Hr ltac:(lia) ltac:(lia)) as (ks & vs & il' & Hrf & Hz & Hl & A' & Hr').
  rewrite take_0, drop_0 in *. do 3 eexists. split; [exact Hrf|]. split_and!; [done|done|]. exists A'.
  rewrite kv_visited_all in Hr'; [done|]. intros i r pos Hc. rewrite kv_visited_0 in Hr.
  rewrite <- (ln_len _ _ _ (rep_linked _ _ _ Hr)). by eapply (cu_bound _ _ _ _ (rep_cursors _ _ _ Hr)).
Qed.

(** *** Lookups *)
Lemma Rep_lookup il A s k :
  Rep il A s →
  match il_index il !! k with
  | Some a => ∃ i v e, A !! i = Some a ∧ kv_items s !! i = Some (k, v) ∧ load (Some a) il = Ok e ∧ el_key e = k ∧ el_val e = v
  | None => k ∉ kv_keys s
  end.
Proof.
  intros [HL _]. destruct (il_index il !! k) as [a|] eqn:E.
  - apply (ln_index _ _ _ HL) in E as (i & v & Ha & Hv). do 3 eexists. split_and!; [done|done|by eapply Linked_load|done|done].
  - by apply (Linked_index _ _ _ _ HL).
Qed.

Definition kv_map s : gmap K V := list_to_map (kv_items s).
Lemma Rep_map il A s k i v : Rep il A s → kv_items s !! i = Some (k, v) → kv_map s !! k = Some v.
Proof.
  intros Hr Hi. apply elem_of_list_to_map_1; [apply (rep_linked _ _ _ Hr)|]. by eapply list_elem_of_lookup_2.
Qed.

Lemma LookUp_spec il A s keys :
  Rep il A s →
  ∃ ks vs ms, LookUp il keys = Ok (ks, vs, ms) ∧ length ks = length vs ∧
    zip ks vs = omap (λ k, (k,.) <$> kv_map s !! k) keys ∧ ms = filter (λ k, k ∉ kv_keys s) keys.
Proof.
  intros Hr. induction keys as [|k keys IH]; cbn [LookUp]; [by do 3 eexists|].
  destruct IH as (ks & vs & ms & -> & Hl & Hz & ->). pose proof (Rep_lookup il A s k Hr) as Hk.
  destruct (il_index il !! k) as [a|].
  - destruct Hk as (i & v & e & Ha & Hv & -> & He & Hev). cbn [mbind outcome_bind]. do 3 eexists. split; [done|].
    cbn [omap list_omap]. rewrite (Rep_map _ _ _ _ _ _ Hr Hv). simpl. rewrite Hl, Hz, Hev. split_and!; [done|done|].
    rewrite filter_cons_False; [done|]. intros Hn. apply Hn, list_elem_of_fmap. exists (k, v).
    split; [done|by eapply list_elem_of_lookup_2].
  - cbn [mbind outcome_bind]. do 3 eexists. split; [done|]. cbn [omap list_omap].
    rewrite filter_cons_True by done. assert (kv_map s !! k = None) as ->; [|done].
    apply not_elem_of_list_to_map_1. exact Hk.
Qed.

(** *** Remove *)
Definition kv_find (k : K) s : option nat := fst <$> list_find (λ kv, kv.1 = k) (kv_items s).
Definition kv_remove_key (k : K) s : KVList K V :=
  match kv_find k s with Some i => kv_delete i s | None => s end.
Fixpoint kv_removed (keys : list K) s : list (K * V) :=
  match keys with
  | [] => []
  | k :: keys =>
      match kv_map s !! k with
      | Some v => (k, v) :: kv_removed keys (kv_remove_key k s)
      | None => kv_removed keys s
      end
  end.
Definition kv_remove (keys : list K) s : KVList K V := foldl (λ s k, kv_remove_key k s) s keys.

Lemma kv_find_Some il A s k i v : Rep il A s → kv_items s !! i = Some (k, v) → kv_find k s = Some i.
Proof.
  intros Hr Hi. unfold kv_find.
  destruct (list_find_elem_of (λ kv : K * V, kv.1 = k) (kv_items s) (k, v)) as [[j [k' v']] Hj];
    [by eapply list_elem_of_lookup_2|done|].
  rewrite Hj. simpl. apply list_find_Some in Hj as (Hj & ? & _). simpl in *. subst k'. f_equal.
  apply (NoDup_lookup (kv_keys s) _ _ k); [apply (rep_linked _ _ _ Hr)|..]; unfold kv_keys;
    rewrite list_lookup_fmap; [by rewrite Hj|by rewrite Hi].
Qed.
Lemma kv_find_None s k : k ∉ kv_keys s → kv_find k s = None.
Proof.
  intros Hk. unfold kv_find. apply fmap_None, list_find_None, list.Forall_forall. intros kv Hin <-.
  apply Hk, list_elem_of_fmap. by exists kv.
Qed.

Lemma Remove_spec keys : ∀ il A s, Rep il A s →
  ∃ ks vs il', Remove keys il = Ok (ks, vs, il') ∧ zip ks vs = kv_removed keys s ∧ length ks = length vs ∧
    ∃ A', Rep il' A' (kv_remove keys s).
Proof.
  induction keys as [|k keys IH]; intros il A s Hr; cbn [Remove kv_removed].
  { do 3 eexists. split_and!; [done..|]. by exists A. }
  pose proof (Rep_lookup il A s k Hr) as Hk. unfold kv_remove. cbn [foldl]. fold (kv_remove keys).
  destruct (il_index il !! k) as [a|].
  - destruct Hk as (i & v & e & Ha & Hv & -> & He & Hev). cbn [mbind outcome_bind].
    destruct (remove_one il A s i a Hr Ha) as (il1 & -> & Hr1). cbn [mbind outcome_bind].
    unfold kv_remove_key. rewrite (kv_find_Some _ _ _ _ _ _ Hr Hv), (Rep_map _ _ _ _ _ _ Hr Hv).
    destruct (IH il1 _ _ Hr1) as (ks & vs & il' & -> & Hz & Hl & Hr'). cbn [mbind outcome_bind].
    do 3 eexists. split; [done|]. simpl. rewrite Hz, Hl, He, Hev. done.
  - unfold kv_remove_key. rewrite (kv_find_None _ _ Hk).
    assert (kv_map s !! k = None) as -> by (by apply not_elem_of_list_to_map_1). exact (IH il A s Hr).
Qed.

(** *** Iterators *)
Definition kv_iterator (i : nat) (r : N) s : KVList K V :=
  mkKVList (kv_items s) (<[i := (r, 0)]> (kv_cursors s)) (kv_retIdx s).
Definition kv_stopped (r : N) s : bool := bool_decide (r < kv_retIdx s)%N.
Definition kv_collect (r : N) s : KVList K V :=
  mkKVList (kv_items s) (kv_cursors s) (kv_retIdx s `max` r)%N.

Lemma Iterator_spec r il A s :
  Rep il A s →
  kv_cursors s !! (Iterator_ r il).1 = None ∧
  Rep (Iterator_ r il).2 A (kv_iterator (Iterator_ r il).1 r s).
Proof.
  intros [HL HC]. simpl. set (i := il_fresh il).
  assert (kv_cursors s !! i = None) as Hi.
  { apply eq_None_not_Some. intros Hs%(cu_fresh _ _ _ _ HC). unfold i in *. lia. }
  split; [done|]. split; [eapply Linked_same; [..|exact HL]; try done; simpl; lia|].
  destruct HC as [H1 H2 H3 H4 Hb H5 H6 H7 H8].
  assert (∀ ids, il_iterators il !! r = Some ids → (kv_retIdx s ≤ r)%N) as Hlow.
  { intros ids Hids. destruct (decide (kv_retIdx s ≤ r)%N); [done|]. rewrite H7 in Hids by lia. done. }
  split; simpl; try done.
  - intros j. destruct (decide (j = i)) as [->|]; [by rewrite !lookup_insert_eq|by rewrite !lookup_insert_ne].
  - intros j it r' pos. destruct (decide (j = i)) as [->|]; [|rewrite !lookup_insert_ne by done; apply H3].
    rewrite !lookup_insert_eq. intros [= <-] [= <- <-]. simpl. by rewrite H1.
  - intros j it r' pos. destruct (decide (j = i)) as [->|]; [|rewrite !lookup_insert_ne by done; apply H4].
    rewrite !lookup_insert_eq. by intros [= <-] [= <- <-].
  - intros j r' pos [[<- [= <- <-]]|[_ Hc]]%lookup_insert_Some; [lia|by eapply Hb].
  - rewrite H1. intros j r' pos [[<- [= <- <-]]|[_ Hc]]%lookup_insert_Some Hle.
    + rewrite bool_decide_eq_false_2 by lia. eexists. rewrite lookup_insert_eq. split; [done|set_solver].
    + destruct (H5 _ _ _ Hc Hle) as (ids & Hids & Hin). case_bool_decide; [by eauto|].
      destruct (decide (r' = r)) as [->|]; [|exists ids; by rewrite lookup_insert_ne].
      rewrite lookup_insert_eq, Hids. eexists. split; [done|]. set_solver.
  - rewrite H1. intros j r' ids Hids Hin. assert (j = i ∧ r' = r ∧ (kv_retIdx s ≤ r)%N ∨
      (∃ ids', il_iterators il !! r' = Some ids' ∧ j ∈ ids')) as [(-> & -> & Hle)|(ids' & Hids' & Hin')].
    { case_bool_decide; [by eauto|]. apply lookup_insert_Some in Hids as [[<- <-]|[_ ?]]; [|by eauto].
      apply elem_of_app in Hin as [Hin| ->%list_elem_of_singleton]; [|left; split_and!; [done|done|lia]].
      right. destruct (il_iterators il !! r) as [ids'|]; [by eauto|]. by apply not_elem_of_nil in Hin. }
    + split; [done|]. exists 0. by rewrite lookup_insert_eq.
    + destruct (H6 _ _ _ Hids' Hin') as (Hle & pos & Hc). split; [done|]. exists pos.
      rewrite lookup_insert_ne; [done|]. intros <-. by rewrite Hi in Hc.
  - rewrite H1. intros r' Hr'. case_bool_decide; [by apply H7|]. rewrite lookup_insert_ne by lia. by apply H7.
  - intros j. rewrite lookup_insert_is_Some'. intros [<-|?%H8]; unfold i in *; lia.
Qed.

Lemma collect_spec r fuel : ∀ il A s,
  Rep il A s → (r < u64_max)%N → N.to_nat (r - kv_retIdx s) ≤ fuel →
  Rep (collect fuel r il) A (kv_collect r s).
Proof.
  induction fuel as [|fuel IH]; intros il A s Hr Hu Hf; cbn [collect].
  { unfold kv_collect. replace (kv_retIdx s `max` r)%N with (kv_retIdx s) by lia. by destruct s. }
  pose proof (cu_retIdx _ _ _ _ (rep_cursors _ _ _ Hr)) as Hret. rewrite Hret. case_bool_decide as Hlt.
  2: { unfold kv_collect. replace (kv_retIdx s `max` r)%N with (kv_retIdx s) by lia. by destruct s. }
  assert (u64_succ (kv_retIdx s) = kv_retIdx s + 1)%N as Hsucc by (unfold u64_succ; apply wrap_u64_small; lia).
  replace (kv_collect r s) with (kv_collect r (mkKVList (kv_items s) (kv_cursors s) (kv_retIdx s + 1)%N))
    by (unfold kv_collect; simpl; f_equal; lia).
  apply IH; [|done|simpl; lia]. destruct Hr as [HL HC]. split; [by eapply Linked_same; [..|exact HL]|].
  simpl. set (ids := default [] (il_iterators il !! kv_retIdx s)).
  assert (∀ i, foldr (alter stop) (il_its il) ids !! i =
    if decide (i ∈ ids) then stop <$> il_its il !! i else il_its il !! i) as Hits.
  { intros i. by apply foldr_alter_lookup. }
  destruct HC as [H1 H2 H3 H4 Hb H5 H6 H7 H8].
  assert (∀ i r' pos, kv_cursors s !! i = Some (r', pos) → i ∈ ids → r' = kv_retIdx s) as Hids.
  { intros i r' pos Hc Hin. unfold ids in Hin. destruct (il_iterators il !! kv_retIdx s) as [l|] eqn:E;
      [|by apply not_elem_of_nil in Hin]. destruct (H6 _ _ _ E Hin) as (_ & pos' & Hc'). congruence. }
  split; simpl; try done.
  - intros i. rewrite Hits. destruct (decide (i ∈ ids)); [|done]. by rewrite fmap_None.
  - intros i it r' pos. rewrite Hits. destruct (decide (i ∈ ids)) as [Hin|Hin].
    + intros (it' & Hit & ->)%fmap_Some Hc. rewrite (Hids _ _ _ Hc Hin). simpl.
      by rewrite bool_decide_eq_true_2 by lia.
    + intros Hit Hc. rewrite (H3 _ _ _ _ Hit Hc). destruct (decide (r' = kv_retIdx s)) as [->|].
      * exfalso. destruct (H5 _ _ _ Hc) as (l & Hl & ?); [lia|]. unfold ids in Hin. by rewrite Hl in Hin.
      * apply bool_decide_ext. lia.
  - intros i it r' pos Hit Hc Hle. rewrite Hits in Hit. destruct (decide (i ∈ ids)) as [Hin|Hin].
    + rewrite (Hids _ _ _ Hc Hin) in Hle. lia.
    + apply (H4 _ _ _ _ Hit Hc). lia.
  - intros i r' pos Hc Hle. destruct (H5 _ _ _ Hc) as (l & Hl & ?); [lia|]. exists l.
    by rewrite lookup_delete_ne by lia.
  - intros i r' l [Hne Hl]%lookup_delete_Some Hin. destruct (H6 _ _ _ Hl Hin) as (Hle & pos & ?).
    split; [lia|by eauto].
  - intros r' Hr'. destruct (decide (r' = kv_retIdx s)) as [->|]; [by rewrite lookup_delete_eq|].
    rewrite lookup_delete_ne by done. apply H7. lia.
Qed.
Lemma GarbageCollect_spec r il A s :
  Rep il A s → (r < u64_max)%N → Rep (GarbageCollect r il) A (kv_collect r s).
Proof.
  intros Hr Hu. apply collect_spec; [done|done|].
  by rewrite (cu_retIdx _ _ _ _ (rep_cursors _ _ _ Hr)).
Qed.

(** A live iterator: its record, and the element it would visit next. *)
Lemma live_iterator il A s i r pos :
  Rep il A s → kv_cursors s !! i = Some (r, pos) → kv_stopped r s = false →
  ∃ it, il_its il !! i = Some it ∧ it_stopped it = false ∧ it_lastOutput it = prev_of A pos ∧
    next_element it il = Ok (A !! pos) ∧ pos ≤ length A.
Proof.
  intros Hr Hc Hst. pose proof (rep_cursors _ _ _ Hr) as HC. unfold kv_stopped in Hst.
  destruct (il_its il !! i) as [it|] eqn:Hit; [|apply (cu_its _ _ _ _ HC) in Hit; congruence].
  apply bool_decide_eq_false in Hst as Hge. pose proof (cu_pos _ _ _ _ HC _ _ _ _ Hit Hc ltac:(lia)) as Hlo.
  pose proof (cu_bound _ _ _ _ HC _ _ _ Hc) as Hb.
  exists it. split_and!; [done|by rewrite (cu_stopped _ _ _ _ HC _ _ _ _ Hit Hc)|done| |done].
  unfold next_element. rewrite Hlo. destruct pos as [|j]; simpl; [by rewrite (ln_first _ _ _ (rep_linked _ _ _ Hr))|].
  destruct (lookup_lt_is_Some_2 A j) as [a Ha]; [lia|].
  destruct (Linked_lookup _ _ _ _ _ (rep_linked _ _ _ Hr) Ha) as [kv Hkv]. rewrite Ha.
  by rewrite (Linked_load _ _ _ _ _ _ (rep_linked _ _ _ Hr) Ha Hkv).
Qed.

Lemma Rep_set_pos il A s i r pos pos' it :
  Rep il A s → kv_cursors s !! i = Some (r, pos) → il_its il !! i = Some it → it_stopped it = false →
  pos' ≤ length A →
  Rep (set_its (<[i := mkIterator (prev_of A pos') (it_stopped it)]> (il_its il)) il) A (kv_set_pos i pos' s).
Proof.
  intros [HL HC] Hc Hit Hst Hb'. split; [by eapply Linked_same; [..|exact HL]|].
  destruct HC as [H1 H2 H3 H4 Hb H5 H6 H7 H8].
  assert (∀ j, alter (prod_map id (λ _, pos')) i (kv_cursors s) !! j =
    if decide (j = i) then Some (r, pos') else kv_cursors s !! j) as Hal.
  { intros j. destruct (decide (j = i)) as [->|]; [by rewrite lookup_alter_eq, Hc|by rewrite lookup_alter_ne]. }
  split; simpl; try done.
  - intros j. rewrite Hal. destruct (decide (j = i)) as [->|]; [by rewrite lookup_insert_eq|by rewrite lookup_insert_ne].
  - intros j it' r' p. rewrite Hal. destruct (decide (j = i)) as [->|].
    + rewrite lookup_insert_eq. intros [= <-] [= <- <-]. simpl. by eapply H3.
    + rewrite lookup_insert_ne by done. apply H3.
  - intros j it' r' p. rewrite Hal. destruct (decide (j = i)) as [->|].
    + rewrite lookup_insert_eq. by intros [= <-] [= <- <-].
    + rewrite lookup_insert_ne by done. apply H4.
  - intros j r' p. rewrite Hal. destruct (decide (j = i)); [by intros [= <- <-]|apply Hb].
  - intros j r' p. rewrite Hal. destruct (decide (j = i)) as [->|]; [intros [= <- <-]; by apply (H5 _ _ pos)|apply H5].
  - intros j r' ids Hids Hin. destruct (H6 _ _ _ Hids Hin) as (Hle & p & Hp). split; [done|]. rewrite Hal.
    destruct (decide (j = i)) as [->|]; [|by eauto]. exists pos'. congruence.
  - intros j. rewrite Hal. destruct (decide (j = i)) as [->|]; intros Hs; apply H8; [by rewrite Hc|done].
Qed.

(** What [NextWhile] outputs: the longest prefix of the remaining elements that the predicate accepts. *)
Fixpoint accepted {S : Type} (P : S → K → V → option S) (st : S) (l : list (K * V)) : list (K * V) * S :=
  match l with
  | [] => ([], st)
  | kv :: l =>
      match P st kv.1 kv.2 with
      | None => ([], st)
      | Some st => let '(out, st) := accepted P st l in (kv :: out, st)
      end
  end.

Lemma next_while_spec {S : Type} (P : S → K → V → option S) il A s fuel : ∀ pos st,
  Rep il A s → length (kv_items s) - pos ≤ fuel → pos ≤ length A →
  ∃ ks vs, next_while fuel P st (prev_of A pos) (A !! pos) il =
      Ok (ks, vs, prev_of A (pos + length ks), (accepted P st (drop pos (kv_items s))).2) ∧
    zip ks vs = (accepted P st (drop pos (kv_items s))).1 ∧ length ks = length vs ∧ pos + length ks ≤ length A.
Proof.
  induction fuel as [|fuel IH]; intros pos st Hr Hf Hpos; cbn [next_while];
    pose proof (ln_len _ _ _ (rep_linked _ _ _ Hr)) as Hlen.
  { rewrite drop_ge by lia. exists [], []. simpl. rewrite Nat.add_0_r. done. }
  destruct (A !! pos) as [a|] eqn:Ha.
  2: { apply lookup_ge_None in Ha. rewrite drop_ge by lia. exists [], []. simpl. rewrite Nat.add_0_r. done. }
  destruct (Linked_lookup _ _ _ _ _ (rep_linked _ _ _ Hr) Ha) as [kv Hkv].
  pose proof (lookup_lt_Some _ _ _ Ha) as Hlt.
  rewrite (Linked_load _ _ _ _ _ _ (rep_linked _ _ _ Hr) Ha Hkv). cbn [mbind outcome_bind el_key el_val el_next].
  rewrite (drop_S _ _ _ Hkv). cbn [accepted]. destruct (P st kv.1 kv.2) as [st'|].
  2: { exists [], []. simpl. rewrite Nat.add_0_r. done. }
  destruct (IH (Datatypes.S pos) st' Hr ltac:(lia) ltac:(lia)) as (ks & vs & Hn & Hz & Hl & Hb).
  change (prev_of A (Datatypes.S pos)) with (A !! pos) in Hn. rewrite Ha in Hn. rewrite Hn. cbn [mbind outcome_bind].
  destruct (accepted P st' (drop (Datatypes.S pos) (kv_items s))) as [out st'']. cbn [fst snd] in *.
  exists (kv.1 :: ks), (kv.2 :: vs). cbn [length zip]. rewrite Nat.add_succ_r. cbn [Nat.add] in *.
  split_and!; [done|simpl; rewrite Hz; by destruct kv|by rewrite Hl|lia].
Qed.

Lemma NextWhile_spec {S : Type} (P : S → K → V → option S) (st : S) il A s i r pos :
  Rep il A s → kv_cursors s !! i = Some (r, pos) → kv_stopped r s = false →
  ∃ ks vs il', NextWhile i P st il = Ok (ks, vs, true, (accepted P st (drop pos (kv_items s))).2, il') ∧
    zip ks vs = (accepted P st (drop pos (kv_items s))).1 ∧ length ks = length vs ∧
    Rep il' A (kv_set_pos i (pos + length ks) s).
Proof.
  intros Hr Hc Hst. destruct (live_iterator _ _ _ _ _ _ Hr Hc Hst) as (it & Hit & Hsp & Hlo & Hn & Hb).
  unfold NextWhile. rewrite Hit. cbn [deref mbind outcome_bind]. rewrite Hsp, Hn, Hlo. cbn [mbind outcome_bind].
  rewrite (Linked_size _ _ _ (rep_linked _ _ _ Hr)).
  destruct (next_while_spec P il A s (length (kv_items s)) pos st Hr ltac:(lia) Hb) as (ks & vs & -> & Hz & Hl & Hb').
  cbn [mbind outcome_bind]. do 3 eexists. split; [done|]. split_and!; [done|done|]. rewrite <- Hsp. by eapply Rep_set_pos.
Qed.

Lemma Next_spec il A s i r pos :
  Rep il A s → kv_cursors s !! i = Some (r, pos) → kv_stopped r s = false →
  ∃ il', Next i il = Ok (kv_items s !! pos, il') ∧
    Rep il' A (match kv_items s !! pos with Some _ => kv_set_pos i (Datatypes.S pos) s | None => s end).
Proof.
  intros Hr Hc Hst. destruct (live_iterator _ _ _ _ _ _ Hr Hc Hst) as (it & Hit & Hsp & Hlo & Hn & Hb).
  unfold Next. rewrite Hit. cbn [deref mbind outcome_bind]. rewrite Hsp, Hn. cbn [mbind outcome_bind].
  destruct (A !! pos) as [a|] eqn:Ha.
  - destruct (Linked_lookup _ _ _ _ _ (rep_linked _ _ _ Hr) Ha) as [kv Hkv].
    rewrite (Linked_load _ _ _ _ _ _ (rep_linked _ _ _ Hr) Ha Hkv), Hkv. cbn [mbind outcome_bind el_key el_val].
    eexists. split; [by destruct kv|]. rewrite <- Hsp, <- Ha. apply (Rep_set_pos il A s i r pos (Datatypes.S pos) it); try done.
    by eapply lookup_lt_Some.
  - assert (kv_items s !! pos = None) as ->.
    { apply lookup_ge_None. rewrite <- (ln_len _ _ _ (rep_linked _ _ _ Hr)). by apply lookup_ge_None. }
    by exists il.
Qed.

Lemma stopped_iterator il A s i r pos :
  Rep il A s → kv_cursors s !! i = Some (r, pos) → kv_stopped r s = true →
  Next i il = Ok (None, il) ∧
  ∀ (S : Type) (P : S → K → V → option S) (st : S), NextWhile i P st il = Ok ([], [], false, st, il).
Proof.
  intros Hr Hc Hst. pose proof (rep_cursors _ _ _ Hr) as HC.
  destruct (il_its il !! i) as [it|] eqn:Hit; [|apply (cu_its _ _ _ _ HC) in Hit; congruence].
  pose proof (cu_stopped _ _ _ _ HC _ _ _ _ Hit Hc) as Hsp. fold (kv_stopped r s) in Hsp. rewrite Hst in Hsp.
  unfold Next, NextWhile. rewrite Hit. cbn [deref mbind outcome_bind]. by rewrite Hsp.
Qed.
End rep.

(** ** Refinement *)
Section refinement.
Context {K : Type} `{Countable K} {V : Type}.

Inductive il_op :=
| OpLen | OpLookUp (keys : list K) | OpAppend (keys : list K) (vals : list V) | OpRemove (keys : list K)
| OpRemoveSelected (P : K → V → bool) | OpIterator (r : N) | OpGarbageCollect (r : N)
| OpNext (i : nat) | OpNextWhile (i : nat) (P : K → V → bool).
Inductive il_res :=
| RUnit | RLen (n : Z) | RItems (keys : list K) (vals : list V) (missing : list K) (ok : bool)
| RIterator (i : nat) | RNext (kv : option (K * V)).

Definition while (P : K → V → bool) (_ : unit) (k : K) (v : V) : option unit :=
  if P k v then Some tt else None.

(** The methods. *)
Definition il_exec (op : il_op) (il : IndexedList K V) : outcome (il_res * IndexedList K V) :=
  match op with
  | OpLen => Ok (RLen (Len il), il)
  | OpLookUp keys => r ← LookUp il keys; let '(ks, vs, ms) := r in Ok (RItems ks vs ms true, il)
  | OpAppend keys vals => r ← Append keys vals il; let '(ks, vs, il) := r in Ok (RItems ks vs [] true, il)
  | OpRemove keys => r ← Remove keys il; let '(ks, vs, il) := r in Ok (RItems ks vs [] true, il)
  | OpRemoveSelected P => r ← RemoveSelected P il; let '(ks, vs, il) := r in Ok (RItems ks vs [] true, il)
  | OpIterator r => let '(i, il) := Iterator_ r il in Ok (RIterator i, il)
  | OpGarbageCollect r => Ok (RUnit, GarbageCollect r il)
  | OpNext i => r ← Next i il; let '(kv, il) := r in Ok (RNext kv, il)
  | OpNextWhile i P =>
      r ← NextWhile i (while P) tt il; let '(ks, vs, ok, _, il) := r in Ok (RItems ks vs [] ok, il)
  end.

Definition items_are (res : il_res) (kvs : list (K * V)) (missing : list K) (ok : bool) : Prop :=
  res = RItems kvs.*1 kvs.*2 missing ok.
(** The same on the list with cursors; the name of a new cursor is not determined. *)
Inductive kv_step (s : KVList K V) : il_op → il_res → KVList K V → Prop :=
| step_len : kv_step s OpLen (RLen (Z.of_nat (length (kv_items s)))) s
| step_lookup keys res :
    items_are res (omap (λ k, (k,.) <$> kv_map s !! k) keys) (filter (λ k, k ∉ kv_keys s) keys) true →
    kv_step s (OpLookUp keys) res s
| step_append keys vals res :
    length keys = length vals → items_are res (kv_added s (zip keys vals)) [] true →
    kv_step s (OpAppend keys vals) res
      (mkKVList (kv_items s ++ kv_added s (zip keys vals)) (kv_cursors s) (kv_retIdx s))
| step_remove keys res :
    items_are res (kv_removed keys s) [] true → kv_step s (OpRemove keys) res (kv_remove keys s)
| step_remove_selected P res :
    items_are res (selected P (kv_items s)) [] true →
    kv_step s (OpRemoveSelected P) res (kv_remove_selected P s)
| step_iterator r i :
    kv_cursors s !! i = None → kv_step s (OpIterator r) (RIterator i) (kv_iterator i r s)
| step_collect r : kv_step s (OpGarbageCollect r) RUnit (kv_collect r s)
| step_next i r pos :
    kv_cursors s !! i = Some (r, pos) → kv_stopped r s = false →
    kv_step s (OpNext i) (RNext (kv_items s !! pos))
      (match kv_items s !! pos with Some _ => kv_set_pos i (S pos) s | None => s end)
| step_next_while i r pos P kvs res :
    kv_cursors s !! i = Some (r, pos) → kv_stopped r s = false →
    kvs = (accepted (while P) tt (drop pos (kv_items s))).1 → items_are res kvs [] true →
    kv_step s (OpNextWhile i P) res (kv_set_pos i (pos + length kvs) s)
| step_next_stopped i r pos :
    kv_cursors s !! i = Some (r, pos) → kv_stopped r s = true → kv_step s (OpNext i) (RNext None) s
| step_while_stopped i r pos P :
    kv_cursors s !! i = Some (r, pos) → kv_stopped r s = true →
    kv_step s (OpNextWhile i P) (RItems [] [] [] false) s.

(** Retention indices are uint64; keys and values come in equal numbers, iterators from [Iterator]. *)
Definition op_ok (op : il_op) : Prop :=
  match op with OpGarbageCollect r => (r < u64_max)%N | _ => True end.
Definition kv_valid (s : KVList K V) (op : il_op) : Prop :=
  match op with
  | OpAppend keys vals => length keys = length vals
  | OpNext i | OpNextWhile i _ => is_Some (kv_cursors s !! i)
  | _ => True
  end.

Lemma valid_dec s op : kv_valid s op ∨ ¬ kv_valid s op.
Proof.
  destruct op as [| |keys vals| | | | |i|i P]; simpl; try by left.
  - destruct (decide (length keys = length vals)); auto.
  - destruct (kv_cursors s !! i); [by left; eexists|]. right. by intros [? ?].
  - destruct (kv_cursors s !! i); [by left; eexists|]. right. by intros [? ?].
Qed.
Lemma items_are_zip ks vs kvs ms ok :
  zip ks vs = kvs → length ks = length vs → items_are (RItems ks vs ms ok) kvs ms ok.
Proof. intros <- Hl. unfold items_are. by rewrite fst_zip, snd_zip by lia. Qed.

Lemma foldl_added (kvs : list (K * V)) s :
  foldl (λ s kv, if bool_decide (kv.1 ∉ kv_keys s) then kv_append kv s else s) s kvs =
    mkKVList (kv_items s ++ kv_added s kvs) (kv_cursors s) (kv_retIdx s).
Proof.
  revert s. induction kvs as [|kv kvs IH]; intros s; cbn [foldl kv_added].
  { rewrite app_nil_r. by destruct s. }
  rewrite IH. case_bool_decide; [|done]. simpl. by rewrite <- app_assoc.
Qed.

(** Every method simulates a step. *)
Lemma il_exec_step op il A s :
  Rep il A s → op_ok op → kv_valid s op →
  ∃ res il' A' s', il_exec op il = Ok (res, il') ∧ kv_step s op res s' ∧ Rep il' A' s'.
Proof.
  intros Hr Ho Hv. destruct op as [|keys|keys vals|keys|P|r|r|i|i P]; cbn [il_exec].
  - exists (RLen (Len il)), il, A, s. split_and!; [done| |done]. unfold Len.
    rewrite (Linked_size _ _ _ (rep_linked _ _ _ Hr)). constructor.
  - destruct (LookUp_spec il A s keys Hr) as (ks & vs & ms & -> & Hl & Hz & ->). cbn [mbind outcome_bind].
    do 4 eexists. split_and!; [done| |done]. constructor. by apply items_are_zip.
  - unfold Append. simpl in Hv. rewrite bool_decide_eq_false_2 by tauto.
    destruct (append_all_spec (zip keys vals) il A s Hr) as (ks & vs & il' & -> & A' & Hr' & Hz & Hl).
    cbn [mbind outcome_bind]. rewrite foldl_added in Hr'. do 4 eexists. split_and!; [done| |done].
    constructor; [done|]. by apply items_are_zip.
  - destruct (Remove_spec keys il A s Hr) as (ks & vs & il' & -> & Hz & Hl & A' & Hr'). cbn [mbind outcome_bind].
    do 4 eexists. split_and!; [done| |done]. constructor. by apply items_are_zip.
  - destruct (RemoveSelected_spec P il A s Hr) as (ks & vs & il' & -> & Hz & Hl & A' & Hr'). cbn [mbind outcome_bind].
    do 4 eexists. split_and!; [done| |done]. constructor. by apply items_are_zip.
  - destruct (Iterator_spec r il A s Hr) as [Hi Hr']. destruct (Iterator_ r il) as [i il'].
    do 4 eexists. split_and!; [done| |done]. by constructor.
  - do 4 eexists. split_and!; [done|constructor|by apply GarbageCollect_spec].
  - destruct Hv as [[r pos] Hc]. destruct (kv_stopped r s) eqn:Hst.
    + destruct (stopped_iterator _ _ _ _ _ _ Hr Hc Hst) as [-> _]. cbn [mbind outcome_bind].
      do 4 eexists. split_and!; [done| |done]. by eapply step_next_stopped.
    + destruct (Next_spec _ _ _ _ _ _ Hr Hc Hst) as (il' & -> & Hr'). cbn [mbind outcome_bind].
      do 4 eexists. split_and!; [done| |done]. by eapply step_next.
  - destruct Hv as [[r pos] Hc]. destruct (kv_stopped r s) eqn:Hst.
    + destruct (stopped_iterator _ _ _ _ _ _ Hr Hc Hst) as [_ Hn]. rewrite Hn. cbn [mbind outcome_bind].
      do 4 eexists. split_and!; [done| |done]. by eapply step_while_stopped.
    + destruct (NextWhile_spec (while P) tt _ _ _ _ _ _ Hr Hc Hst) as (ks & vs & il' & -> & Hz & Hl & Hr').
      cbn [mbind outcome_bind]. do 4 eexists. split_and!; [done| |exact Hr'].
      replace (length ks) with (length (accepted (while P) tt (drop pos (kv_items s))).1)
        by (rewrite <- Hz, length_zip_with; lia).
      eapply step_next_while; [done..|]. by apply items_are_zip.
Qed.

Lemma il_exec_invalid op il A s : Rep il A s → ¬ kv_valid s op → ∃ p, il_exec op il = Panic p.
Proof.
  intros Hr Hv. destruct op as [|keys|keys vals|keys|P|r|r|i|i P]; simpl in Hv; try tauto; cbn [il_exec].
  - unfold Append. rewrite bool_decide_eq_true_2 by done. by eexists.
  - unfold Next. assert (il_its il !! i = None) as -> by (apply (cu_its _ _ _ _ (rep_cursors _ _ _ Hr)); by apply eq_None_not_Some).
    by eexists.
  - unfold NextWhile. assert (il_its il !! i = None) as -> by (apply (cu_its _ _ _ _ (rep_cursors _ _ _ Hr)); by apply eq_None_not_Some).
    by eexists.
Qed.

(** Sequences of calls with their results. *)
Inductive il_reach : IndexedList K V → list (il_op * il_res) → Prop :=
| il_start : il_reach New []
| il_call il trace op res il' :
    il_reach il trace → op_ok op → il_exec op il = Ok (res, il') → il_reach il' (trace ++ [(op, res)]).
Inductive kv_reach : KVList K V → list (il_op * il_res) → Prop :=
| kv_start : kv_reach (mkKVList [] ∅ 0) []
| kv_call s trace op res s' :
    kv_reach s trace → kv_step s op res s' → kv_reach s' (trace ++ [(op, res)]).

Lemma il_reach_rep il trace : il_reach il trace → ∃ A s, Rep il A s ∧ kv_reach s trace.
Proof.
  induction 1 as [|il trace op res il' _ (A & s & Hr & Hk) Ho He].
  { exists [], (mkKVList [] ∅ 0). split; [apply Rep_New|constructor]. }
  destruct (valid_dec s op) as [Hv|Hv].
  - destruct (il_exec_step op il A s Hr Ho Hv) as (res' & il'' & A' & s' & He' & Hs & Hr').
    rewrite He in He'. injection He' as <- <-. exists A', s'. split; [done|]. by econstructor.
  - destruct (il_exec_invalid op il A s Hr Hv) as [p Hp]. congruence.
Qed.
End refinement.

(** C27 (refinement).  The indexed list refines a list of key-value pairs with cursors: every sequence
    of calls, iterators advanced, elements appended and removed and indices garbage-collected in
    any order, returns what the list returns.  A removed element is skipped by no iterator and an
    appended one reached by all, since positions are those of the remaining list.  No call
    dereferences a dangling or nil pointer, and every valid call returns. *)
Theorem indexedlist_refines_list {K : Type} `{Countable K} {V : Type}
    (il : IndexedList K V) (trace : list (il_op * il_res)) :
  il_reach il trace →
  ∃ s, kv_reach s trace ∧ NoDup (kv_keys s) ∧
    ∀ op, op_ok op → kv_valid s op →
      ∃ res il' s', il_exec op il = Ok (res, il') ∧ kv_step s op res s' ∧
        kv_reach s' (trace ++ [(op, res)]).
Proof.
  intros (A & s & Hr & Hk)%il_reach_rep. exists s. split; [done|]. split; [apply (rep_linked _ _ _ Hr)|].
  intros op Ho Hv. destruct (il_exec_step op il A s Hr Ho Hv) as (res & il' & A' & s' & He & Hs & _).
  exists res, il', s'. split_and!; [done|done|by econstructor].
Qed.

(** ** A concrete run *)
Module IlToy.
Fixpoint calls (ops : list (il_op (K := string) (V := N))) (il : IndexedList string N)
    (trace : list (il_op * il_res)) : option (IndexedList string N * list (il_op * il_res)) :=
  match ops with
  | [] => Some (il, trace)
  | op :: ops =>
      match il_exec op il with Ok (res, il) => calls ops il (trace ++ [(op, res)]) | _ => None end
  end.
Lemma calls_reach ops il trace il' trace' :
  il_reach il trace → Forall op_ok ops → calls ops il trace = Some (il', trace') → il_reach il' trace'.
Proof.
  revert il trace. induction ops as [|op ops IH]; intros il trace Hr Ho; simpl; [by intros [= <- <-]|].
  inversion_clear Ho. destruct (il_exec op il) as [[res il1]| |] eqn:He; [|done..].
  apply IH; [by econstructor|done].
Qed.
(** The iterator has passed "b" when it is removed, and then reaches what was appended. *)
Definition ops : list (il_op (K := string) (V := N)) :=
  [OpAppend ["a"; "b"; "a"] [1%N; 2%N; 3%N]; OpIterator 0; OpNext 3; OpNext 3; OpRemove ["b"]; OpAppend ["c"] [4%N];
   OpNextWhile 3 (λ _ _, true)].
Definition results : list (il_res (K := string) (V := N)) :=
  [RItems ["a"; "b"] [1%N; 2%N] [] true; RIterator 3; RNext (Some ("a", 1%N)); RNext (Some ("b", 2%N));
   RItems ["b"] [2%N] [] true; RItems ["c"] [4%N] [] true; RItems ["c"] [4%N] [] true].
End IlToy.

Lemma indexedlist_refines_list_witness :
  ∃ (il : IndexedList string N) s, il_reach il (zip IlToy.ops IlToy.results) ∧
    kv_reach s (zip IlToy.ops IlToy.results).
Proof.
  destruct (IlToy.calls IlToy.ops New []) as [[il trace]|] eqn:Hc; [|by vm_compute in Hc].
  assert (trace = zip IlToy.ops IlToy.results) as -> by (vm_compute in Hc; by injection Hc as _ <-).
  assert (il_reach il (zip IlToy.ops IlToy.results)) as Hr.
  { eapply IlToy.calls_reach; [apply il_start| |exact Hc]. repeat constructor. }
  destruct (indexedlist_refines_list il _ Hr) as (s & Hs & _). exists il, s. split; [exact Hr|exact Hs].
Defined.
