(* ===== verification/Mempool.v ===== *)
(** * pkg/mempool/simplemempool: transactions waiting to be ordered

    Models the parts computeids, lookuptxs, formbatchesint and formbatchesext, one definition per
    handler and helper; they share the indexed list of transactions.  Hashes are computed by the hasher
    module; transaction identifiers that the mempool itself requests come back to it as
    answers with their context.  The numbers of transactions, bytes and batch requests that the
    mempool counts fit in an int, as transactions and requests are in memory. *)
From Stdlib Require Import ZArith Lia.
From stdpp Require Import prelude gmap strings list fin_maps numbers.
From S2P Require Import Prelude Util PbftTypes Orderer ClientProgress ModuleRuns Checkpoint IndexedList Availability AvailabilityProps.
Import Serializing.

(** common.go *)
Record MpParams := mkMpParams {
  MaxTransactionsInBatch : Z; MaxPayloadInBatch : Z; BatchTimeout : Z;
}.
Notation TxList := (IndexedList TxID Transaction) (only parsing).

(** Who asked for transaction identifiers: another module, or the mempool itself with the
    transactions to save (formbatchesint) or to put in a batch (formbatchesext). *)
Inductive ids_origin :=
| IdsFor (origin : Origin)
| IdsToSave (txs : list Transaction)
| IdsForBatch (txs : list Transaction) (origin : Origin).

(** formbatchesint.State *)
Record MpState := mkMpState {
  mp_Transactions : TxList;
  mp_Epoch : EpochNr; mp_ClientProgress : gmap ClientID DeliveredTXs;
  TotalPayloadSize : Z; UnproposedPayloadSize : Z; NumUnproposed : Z;
  mp_Iterator : nat;
  EarlyBatchRequests : gmap EpochNr (list Origin); PendingBatchRequests : gmap Z Origin;
  FirstPendingBatchReqID : Z; NextPendingBatchReqID : Z;
}.

Inductive mp_event :=
| MpHashRequest (data : list (list bytes)) (origin : ids_origin)
| MpTransactionIDsResponse (txIDs : list TxID) (origin : ids_origin)
| MpHashRequestOne (data : list bytes) (origin : Origin)
| MpBatchIDResponse (dest : string) (batchID : BatchID) (origin : Origin)
| MpTransactionsResponse (dest : string) (foundIDs : list TxID) (foundTXs : list Transaction)
    (missingIDs : list TxID) (origin : Origin)
| MpRequestTransactionIDs (txs : list Transaction) (origin : ids_origin)
| MpNewBatch (dest : string) (txIDs : list TxID) (txs : list Transaction) (origin : Origin)
| MpTimerDelay (delay : Z) (batchReqID : N).

Inductive mp_input :=
| MpInRequestTransactionIDs (txs : list (option Transaction)) (origin : ids_origin)
| MpInResult (hashes : list bytes) (origin : ids_origin)
| MpInRequestBatchID (txIDs : list TxID) (origin : Origin)
| MpInResultOne (hash : bytes) (origin : Origin)
| MpInRequestTransactions (txIDs : list TxID) (origin : Origin)
| MpInNewEpoch (epochNr : EpochNr) (clientProgress : gmap ClientID DeliveredTXsPb)
| MpInNewTransactions (txs : list Transaction)
| MpInTransactionIDsResponse (txIDs : list TxID) (txs : list Transaction)
| MpInRequestBatch (epoch : EpochNr) (origin : Origin)
| MpInBatchTimeout (batchReqID : N).

Definition payload (tx : Transaction) : Z := Z.of_nat (String.length (contents (tx_Data tx))).

Module Mp.
Notation MP := (M MpState mp_event).

Definition set_transactions l (st : MpState) : MpState :=
  mkMpState l (mp_Epoch st) (mp_ClientProgress st) (TotalPayloadSize st) (UnproposedPayloadSize st)
    (NumUnproposed st) (mp_Iterator st) (EarlyBatchRequests st) (PendingBatchRequests st)
    (FirstPendingBatchReqID st) (NextPendingBatchReqID st).
Definition set_epoch e (st : MpState) : MpState :=
  mkMpState (mp_Transactions st) e (mp_ClientProgress st) (TotalPayloadSize st) (UnproposedPayloadSize st)
    (NumUnproposed st) (mp_Iterator st) (EarlyBatchRequests st) (PendingBatchRequests st)
    (FirstPendingBatchReqID st) (NextPendingBatchReqID st).
Definition set_progress p (st : MpState) : MpState :=
  mkMpState (mp_Transactions st) (mp_Epoch st) p (TotalPayloadSize st) (UnproposedPayloadSize st)
    (NumUnproposed st) (mp_Iterator st) (EarlyBatchRequests st) (PendingBatchRequests st)
    (FirstPendingBatchReqID st) (NextPendingBatchReqID st).
Definition set_counters total unproposed num (st : MpState) : MpState :=
  mkMpState (mp_Transactions st) (mp_Epoch st) (mp_ClientProgress st) total unproposed num
    (mp_Iterator st) (EarlyBatchRequests st) (PendingBatchRequests st)
    (FirstPendingBatchReqID st) (NextPendingBatchReqID st).
Definition set_iterator i (st : MpState) : MpState :=
  mkMpState (mp_Transactions st) (mp_Epoch st) (mp_ClientProgress st) (TotalPayloadSize st)
    (UnproposedPayloadSize st) (NumUnproposed st) i (EarlyBatchRequests st) (PendingBatchRequests st)
    (FirstPendingBatchReqID st) (NextPendingBatchReqID st).
Definition set_early m (st : MpState) : MpState :=
  mkMpState (mp_Transactions st) (mp_Epoch st) (mp_ClientProgress st) (TotalPayloadSize st)
    (UnproposedPayloadSize st) (NumUnproposed st) (mp_Iterator st) m (PendingBatchRequests st)
    (FirstPendingBatchReqID st) (NextPendingBatchReqID st).
Definition set_pending m first next (st : MpState) : MpState :=
  mkMpState (mp_Transactions st) (mp_Epoch st) (mp_ClientProgress st) (TotalPayloadSize st)
    (UnproposedPayloadSize st) (NumUnproposed st) (mp_Iterator st) (EarlyBatchRequests st) m first next.

(** A method of the list of transactions. *)
Definition on_list {A} (f : TxList → outcome (A * TxList)) : MP A :=
  st ← get;
  r ← lift (f (mp_Transactions st));
  modify (set_transactions r.2);;
  mret r.1.

Section mp.
Context (params : MpParams).

(** *** computeids *)
Definition serializeTXForHash (tx : option Transaction) : option (list bytes) :=
  tx ← tx; Some [Some (tx_ClientId tx); Uint64ToBytes (tx_TxNo tx); tx_Data tx].

Definition UponRequestTransactionIDs (txs : list (option Transaction)) (origin : ids_origin) : MP unit :=
  if bool_decide (MaxTransactionsInBatch params < Z.of_nat (length txs))%Z then skip
  else
    match mapM serializeTXForHash txs with
    | None => skip
    | Some txMsgs => emit (MpHashRequest txMsgs origin)
    end.

Definition UponResult (hashes : list bytes) (origin : ids_origin) : MP unit :=
  emit (MpTransactionIDsResponse (contents <$> hashes) origin).

Definition UponRequestBatchID (txIDs : list TxID) (origin : Origin) : MP unit :=
  emit (MpHashRequestOne (Some <$> txIDs) origin).

Definition UponResultOne (hash : bytes) (origin : Origin) : MP unit :=
  emit (MpBatchIDResponse (or_Module origin) (contents hash) origin).

(** *** lookuptxs *)
Definition UponRequestTransactions (txIDs : list TxID) (origin : Origin) : MP unit :=
  st ← get;
  r ← lift (IL.LookUp (mp_Transactions st) txIDs);
  let '(foundIDs, foundTXs, missingIDs) := r in
  emit (MpTransactionsResponse (or_Module origin) foundIDs foundTXs missingIDs origin).

(** *** formbatchesint *)
Definition IncludeBatchCreation : MpState :=
  let '(i, l) := IL.Iterator_ 0 IL.New in
  mkMpState l 0 CP.NewClientProgress 0 0 0 i ∅ ∅ 0 0.

(** The variables that the closure passed to [NextWhile] changes: [txCount], [batchSize] and the
    two counters of the state. *)
Record cut := mkCut { txCount : Z; batchSize : Z; cut_num : Z; cut_unproposed : Z }.
Definition cut_next (s : cut) (_ : TxID) (tx : Transaction) : option cut :=
  if bool_decide (txCount s < MaxTransactionsInBatch params)%Z &&
     bool_decide (batchSize s + payload tx ≤ MaxPayloadInBatch params)%Z
  then Some (mkCut (txCount s + 1) (batchSize s + payload tx) (cut_num s - 1) (cut_unproposed s - payload tx))
  else None.

Definition cutBatch (origin : Origin) : MP unit :=
  st ← get;
  r ← on_list (λ l,
    r ← IL.NextWhile (mp_Iterator st) cut_next
          (mkCut 0 0 (NumUnproposed st) (UnproposedPayloadSize st)) l;
    let '(txIDs, txs, _, s, l) := r in Ok ((txIDs, txs, s), l));
  let '(txIDs, txs, s) := r in
  modify (λ st, set_counters (TotalPayloadSize st) (cut_unproposed s) (cut_num s) st);;
  emit (MpNewBatch (or_Module origin) txIDs txs origin).

Definition storePendingRequest (origin : Origin) : MP Z :=
  st ← get;
  let next := NextPendingBatchReqID st in
  modify (set_pending (<[next := origin]> (PendingBatchRequests st)) (FirstPendingBatchReqID st)
            (next + 1)%Z);;
  mret next.

Definition haveFullBatch (st : MpState) : bool :=
  bool_decide (MaxTransactionsInBatch params ≤ NumUnproposed st)%Z ||
  bool_decide (MaxPayloadInBatch params ≤ UnproposedPayloadSize st)%Z.

(** The loop that advances the pointer to the first pending request. *)
Fixpoint advance_first (fuel : nat) (pending : gmap Z Origin) (first next : Z) : Z :=
  match fuel with
  | O => first
  | S fuel =>
      match pending !! first with
      | Some _ => first
      | None => if bool_decide (first < next)%Z then advance_first fuel pending (first + 1) next else first
      end
  end.

(** The origin of a request that is not pending is a nil pointer. *)
Definition servePendingReq (batchReqID : Z) : MP unit :=
  st ← get;
  origin ← lift (deref (PendingBatchRequests st !! batchReqID));
  cutBatch origin;;
  modify (λ st,
    let pending := delete batchReqID (PendingBatchRequests st) in
    let first := FirstPendingBatchReqID st in
    let next := NextPendingBatchReqID st in
    set_pending pending (advance_first (Z.to_nat (next - first)) pending first next) next st).

Definition handleBatchRequest (origin : Origin) : MP unit :=
  st ← get;
  if haveFullBatch st then cutBatch origin
  else
    reqID ← storePendingRequest origin;
    emit (MpTimerDelay (BatchTimeout params) (u64_of_int reqID)).

(** One epoch of the buffered requests. *)
Definition handle_early (entry : EpochNr * list Origin) : MP unit :=
  st ← get;
  let '(epoch, batchReqs) := entry in
  if bool_decide (epoch < mp_Epoch st)%N then modify (λ st, set_early (delete epoch (EarlyBatchRequests st)) st)
  else if bool_decide (epoch = mp_Epoch st) then mfor batchReqs handleBatchRequest
  else skip.

Definition UponNewEpoch (rng : go_range) (epochNr : EpochNr) (clientProgress : gmap ClientID DeliveredTXsPb)
    : MP unit :=
  modify (set_epoch epochNr);;
  on_list (λ l, Ok (tt, IL.GarbageCollect epochNr l));;
  i ← on_list (λ l, Ok (IL.Iterator_ epochNr l));
  modify (set_iterator i);;
  modify (set_progress (CP.LoadPb clientProgress));;
  removedTXs ← on_list (λ l,
    r ← IL.RemoveSelected (λ _ tx, CP.Contains (CP.LoadPb clientProgress) (tx_ClientId tx) (tx_TxNo tx)) l;
    let '(_, txs, l) := r in Ok (txs, l));
  modify (λ st,
    let total := foldl (λ n tx, (n - payload tx)%Z) (TotalPayloadSize st) removedTXs in
    set_counters total total (IL.Len (mp_Transactions st)) st);;
  st ← get;
  mfor (range_order rng 1 (map_to_list (EarlyBatchRequests st))) handle_early.

Definition UponNewTransactions (txsReceived : list Transaction) : MP unit :=
  let txsToSave := filter (λ tx, payload tx ≤ MaxPayloadInBatch params)%Z txsReceived in
  if bool_decide (0 < length txsToSave) then emit (MpRequestTransactionIDs txsToSave (IdsToSave txsToSave))
  else skip.

(** The counters after a transaction was added; one that was delivered already is not counted. *)
Definition count_added (st : MpState) (tx : Transaction) : MpState :=
  if CP.Contains (mp_ClientProgress st) (tx_ClientId tx) (tx_TxNo tx) then st
  else set_counters (TotalPayloadSize st + payload tx) (UnproposedPayloadSize st + payload tx)
         (NumUnproposed st + 1) st.

Fixpoint serve_while_full (fuel : nat) : MP unit :=
  match fuel with
  | O => skip
  | S fuel =>
      st ← get;
      if haveFullBatch st && bool_decide (FirstPendingBatchReqID st < NextPendingBatchReqID st)%Z
      then servePendingReq (FirstPendingBatchReqID st);; serve_while_full fuel
      else skip
  end.

Definition UponTransactionIDsResponse (txIDs : list TxID) (txs : list Transaction) : MP unit :=
  addedTxs ← on_list (λ l, r ← IL.Append txIDs txs l; let '(_, vs, l) := r in Ok (vs, l));
  modify (λ st, foldl count_added st addedTxs);;
  st ← get;
  serve_while_full (Z.to_nat (NextPendingBatchReqID st - FirstPendingBatchReqID st)).

Definition UponRequestBatch (epoch : EpochNr) (origin : Origin) : MP unit :=
  st ← get;
  if bool_decide (epoch = mp_Epoch st) then handleBatchRequest origin
  else if bool_decide (mp_Epoch st < epoch)%N then
    modify (set_early (<[epoch := default [] (EarlyBatchRequests st !! epoch) ++ [origin]]>
                         (EarlyBatchRequests st)))
  else skip.

Definition UponBatchTimeout (batchReqID : N) : MP unit :=
  st ← get;
  let reqID := int_of_u64 batchReqID in
  match PendingBatchRequests st !! reqID with
  | Some _ => servePendingReq reqID
  | None => skip
  end.

Definition mp_apply (rng : go_range) (i : mp_input) : MP unit :=
  match i with
  | MpInRequestTransactionIDs txs origin => UponRequestTransactionIDs txs origin
  | MpInResult hashes origin => UponResult hashes origin
  | MpInRequestBatchID txIDs origin => UponRequestBatchID txIDs origin
  | MpInResultOne hash origin => UponResultOne hash origin
  | MpInRequestTransactions txIDs origin => UponRequestTransactions txIDs origin
  | MpInNewEpoch epochNr clientProgress => UponNewEpoch rng epochNr clientProgress
  | MpInNewTransactions txs => UponNewTransactions txs
  | MpInTransactionIDsResponse txIDs txs => UponTransactionIDsResponse txIDs txs
  | MpInRequestBatch epoch origin => UponRequestBatch epoch origin
  | MpInBatchTimeout batchReqID => UponBatchTimeout batchReqID
  end.
End mp.

(** *** formbatchesext: transactions are pulled from a function of the application when a batch is
    requested; its result is an argument of the handler. *)
Module Ext.
Definition UponTransactionIDsResponse (txIDs : list TxID) (txs : list Transaction) (origin : Origin) : MP unit :=
  emit (MpNewBatch (or_Module origin) txIDs txs origin).
Definition UponRequestBatch (fetched : list Transaction) (origin : Origin) : MP unit :=
  emit (MpRequestTransactionIDs fetched (IdsForBatch fetched origin)).
End Ext.
End Mp.
Import Mp.

(** ** Identifiers

    Transaction and batch identifiers as computeids and the hasher compute them: this is what
    the availability layer assumes of the mempool. *)
#[export] Instance mempool_ids `{!HashImpl} : MempoolIds := {|
  tx_id tx := hash_Sum (Serialization.concat_bytes
    [Some (tx_ClientId tx); Uint64ToBytes (tx_TxNo tx); tx_Data tx]);
  batch_id txIDs := hash_Sum (Serialization.concat_bytes (Some <$> txIDs));
|}.

Definition mp_answers `{!HashImpl} (out : list mp_event) (i : mp_input) : Prop :=
  match i with
  | MpInRequestTransactionIDs txs (IdsToSave l) =>
      txs = Some <$> l ∧ MpRequestTransactionIDs l (IdsToSave l) ∈ out
  | MpInRequestTransactionIDs _ (IdsForBatch _ _) => False
  | MpInResult hashes origin => ∃ data, MpHashRequest data origin ∈ out ∧ hashes = Hasher.computeDigests data
  | MpInResultOne hash origin => ∃ data, MpHashRequestOne data origin ∈ out ∧ [hash] = Hasher.computeDigests [data]
  | MpInNewEpoch epochNr _ => (epochNr < u64_max)%N
  | MpInTransactionIDsResponse txIDs txs => MpTransactionIDsResponse txIDs (IdsToSave txs) ∈ out
  | MpInBatchTimeout batchReqID => ∃ d, MpTimerDelay d batchReqID ∈ out
  | _ => True
  end.

Lemma hashed_transactions `{!HashImpl} (txs : list Transaction) data :
  mapM serializeTXForHash (Some <$> txs) = Some data →
  contents <$> Hasher.computeDigests data = tx_id <$> txs.
Proof.
  revert data. induction txs as [|tx txs IH]; intros data; [by intros [= <-]|].
  cbn [fmap list_fmap mapM]. intros Hm. destruct (mapM serializeTXForHash (Some <$> txs)) as [data'|] eqn:E; [|done].
  cbn in Hm. injection Hm as <-. cbn. f_equal. by apply IH.
Qed.

(** ** What batches contain *)
Definition payloads (txs : list Transaction) : Z := foldr (λ tx n, (payload tx + n)%Z) 0%Z txs.

Lemma accepted_prefix {S} (P : S → TxID → Transaction → option S) s l :
  (accepted P s l).1 = take (length (accepted P s l).1) l.
Proof.
  revert s. induction l as [|kv l IH]; intros s; [done|]. cbn [accepted]. destruct (P s kv.1 kv.2) as [s'|]; [|done].
  specialize (IH s'). destruct (accepted P s' l) as [kvs s'']. simpl in *. by rewrite <- IH.
Qed.
Lemma accepted_limits params s l :
  let kvs := (accepted (cut_next params) s l).1 in
  (txCount s ≤ MaxTransactionsInBatch params → batchSize s ≤ MaxPayloadInBatch params →
   txCount s + Z.of_nat (length kvs) ≤ MaxTransactionsInBatch params ∧
   batchSize s + payloads kvs.*2 ≤ MaxPayloadInBatch params)%Z.
Proof.
  revert s. induction l as [|kv l IH]; intros s; cbn [accepted]; [simpl; lia|].
  destruct (cut_next params s kv.1 kv.2) as [s'|] eqn:E; [|simpl; lia].
  unfold cut_next in E. destruct (bool_decide (txCount s < _)%Z) eqn:H1; [|done].
  destruct (bool_decide (batchSize s + _ ≤ _)%Z) eqn:H2; [|done]. injection E as <-.
  apply bool_decide_eq_true in H1, H2. intros _ _.
  specialize (IH (mkCut (txCount s + 1) (batchSize s + payload kv.2) (cut_num s - 1)
    (cut_unproposed s - payload kv.2))). simpl in IH. specialize (IH ltac:(lia) ltac:(lia)).
  destruct (accepted (cut_next params) _ l) as [kvs s'']. simpl in *. change (list_fmap _ _ snd kvs) with kvs.*2. lia.
Qed.

(** The transactions output in batches, with their identifiers. *)
Definition batch_items (out : list mp_event) : list (TxID * Transaction) :=
  out ≫= λ ev, match ev with MpNewBatch _ txIDs txs _ => zip txIDs txs | _ => [] end.

Section inv.
Context `{!HashImpl} (params : MpParams).
Context (Hmax : (0 ≤ MaxTransactionsInBatch params)%Z) (Hpay : (0 ≤ MaxPayloadInBatch params)%Z).

Definition tx_ok (kv : TxID * Transaction) : Prop :=
  kv.1 = tx_id kv.2 ∧ (payload kv.2 ≤ MaxPayloadInBatch params)%Z.
Definition small (txs : list Transaction) : Prop :=
  ∀ tx, tx ∈ txs → (payload tx ≤ MaxPayloadInBatch params)%Z.
Definition batch_ok (txIDs : list TxID) (txs : list Transaction) : Prop :=
  txIDs = tx_id <$> txs ∧ (Z.of_nat (length txs) ≤ MaxTransactionsInBatch params)%Z ∧
  (payloads txs ≤ MaxPayloadInBatch params)%Z.
Definition mp_event_ok (ev : mp_event) : Prop :=
  match ev with
  | MpRequestTransactionIDs txs (IdsToSave txs') => txs' = txs ∧ small txs
  | MpHashRequest data (IdsToSave txs) => mapM serializeTXForHash (Some <$> txs) = Some data ∧ small txs
  | MpTransactionIDsResponse txIDs (IdsToSave txs) => txIDs = tx_id <$> txs ∧ small txs
  | MpNewBatch _ txIDs txs _ => batch_ok txIDs txs
  | _ => True
  end.

(** The batches output since position [k] of the output are the first elements of the list, up
    to the position of the iterator. *)
Record MpList (k : nat) (st : MpState) (out : list mp_event) (s : KVList TxID Transaction) (r : N) (pos : nat)
    : Prop := {
  ml_rep : ∃ A, Rep (mp_Transactions st) A s;
  ml_cursor : kv_cursors s !! mp_Iterator st = Some (r, pos);
  ml_output : batch_items (drop k out) = take pos (kv_items s);
  ml_ok kv : kv ∈ kv_items s → tx_ok kv;
}.
Record Pending (st : MpState) (out : list mp_event) : Prop := {
  pe_bounds : (0 ≤ FirstPendingBatchReqID st ≤ NextPendingBatchReqID st)%Z;
  pe_range id : is_Some (PendingBatchRequests st !! id) →
    (FirstPendingBatchReqID st ≤ id < NextPendingBatchReqID st)%Z;
  pe_first : (FirstPendingBatchReqID st < NextPendingBatchReqID st)%Z →
    is_Some (PendingBatchRequests st !! FirstPendingBatchReqID st);
  pe_timer id : is_Some (PendingBatchRequests st !! id) →
    MpTimerDelay (BatchTimeout params) (u64_of_int id) ∈ out;
}.
Record MpInv (k : nat) (st : MpState) (out : list mp_event) : Prop := {
  mi_k : k ≤ length out;
  mi_list : ∃ s r pos, MpList k st out s r pos;
  mi_pending : Pending st out;
  mi_out ev : ev ∈ out → mp_event_ok ev;
}.

Lemma batch_items_app o1 o2 : batch_items (o1 ++ o2) = batch_items o1 ++ batch_items o2.
Proof. apply bind_app. Qed.

(** Events other than batches, and changes of the other fields. *)
Lemma MpInv_emit k st out ev :
  MpInv k st out → mp_event_ok ev → (∀ d ids txs o, ev ≠ MpNewBatch d ids txs o) → MpInv k st (out ++ [ev]).
Proof.
  intros [Hk (s & r & pos & [Hr Hc Ho Hi]) [H1 H2 H3 H4] He] Hev Hn. split.
  - rewrite length_app. lia.
  - exists s, r, pos. split; try done. rewrite drop_app_le by done. rewrite batch_items_app, Ho.
    destruct ev; try (by rewrite app_nil_r). by edestruct Hn.
  - split; try done. intros id Hid. apply elem_of_app. left. auto.
  - intros ev' [?| ->%list_elem_of_singleton]%elem_of_app; auto.
Qed.

Lemma on_list_spec {A} (f : TxList → outcome (A * TxList)) a l Q (st : MpState) (out : list mp_event) :
  f (mp_Transactions st) = Ok (a, l) → Q a (set_transactions l st) out → twp (on_list f) Q st out.
Proof.
  intros Hf HQ. unfold on_list. do 3 twp_step. eapply twp_lift; [exact Hf|]. by repeat twp_step.
Qed.

(** What a cut batch is, and that nothing else changes. *)
Definition same_requests (st st' : MpState) : Prop :=
  mp_Epoch st' = mp_Epoch st ∧ mp_ClientProgress st' = mp_ClientProgress st ∧
  EarlyBatchRequests st' = EarlyBatchRequests st ∧ PendingBatchRequests st' = PendingBatchRequests st ∧
  FirstPendingBatchReqID st' = FirstPendingBatchReqID st ∧ NextPendingBatchReqID st' = NextPendingBatchReqID st.

Lemma cutBatch_spec k origin st out :
  MpInv k st out →
  twp (cutBatch params origin) (λ _ st' out',
    MpInv k st' out' ∧ same_requests st st' ∧
    ∃ txIDs txs, out' = out ++ [MpNewBatch (or_Module origin) txIDs txs origin]) st out.
Proof.
  intros [Hk (s & r & pos & [[A Hr] Hc Ho Hi]) Hp He].
  set (c0 := mkCut 0 0 (NumUnproposed st) (UnproposedPayloadSize st)).
  assert (∃ txIDs txs ok c il' s', IL.NextWhile (mp_Iterator st) (cut_next params) c0 (mp_Transactions st) =
      Ok (txIDs, txs, ok, c, il') ∧ batch_ok txIDs txs ∧ Rep il' A s' ∧
    kv_items s' = kv_items s ∧ kv_cursors s' !! mp_Iterator st = Some (r, pos + length txs) ∧
    zip txIDs txs = take (length txs) (drop pos (kv_items s)))
    as (txIDs & txs & ok & c & il' & s' & Hn & Hb & Hr' & His & Hcs & Hz).
  { destruct (kv_stopped r s) eqn:Hst.
    - destruct (stopped_iterator _ _ _ _ _ _ Hr Hc Hst) as [_ Hn].
      exists [], [], false, c0, (mp_Transactions st), s. rewrite Hn. split_and!; try done.
      simpl. by rewrite Nat.add_0_r.
    - destruct (NextWhile_spec (cut_next params) c0 _ _ _ _ _ _ Hr Hc Hst) as (ks & vs & il' & Hn & Hz & Hl & Hr').
      set (kvs := (accepted (cut_next params) c0 (drop pos (kv_items s))).1) in *.
      assert (length kvs = length vs) as Hlk by (rewrite <- Hz, length_zip_with; lia).
      assert (kvs.*2 = vs) as Hvs by (rewrite <- Hz; apply snd_zip; lia).
      assert (kvs = take (length vs) (drop pos (kv_items s))) as Hpre by (rewrite <- Hlk; apply accepted_prefix).
      do 6 eexists. split; [exact Hn|]. split_and!; [|exact Hr'|done| |by rewrite Hz].
      + destruct (accepted_limits params c0 (drop pos (kv_items s))) as [Hl1 Hl2]; [done|done|].
        fold kvs in Hl1, Hl2. rewrite Hvs in Hl2. simpl in Hl1, Hl2. split; [|split; lia].
        assert (kvs.*1 = ks) as <- by (rewrite <- Hz; apply fst_zip; lia). rewrite <- Hvs, <- list_fmap_compose.
        apply list_fmap_ext. intros j kv Hj. apply Hi. rewrite Hpre in Hj. apply lookup_take_Some in Hj as [Hj _].
        rewrite lookup_drop in Hj. by eapply list_elem_of_lookup_2.
      + simpl. by rewrite lookup_alter_eq, Hc, Hl. }
  unfold cutBatch. do 3 twp_step. eapply on_list_spec; [fold c0; by rewrite Hn|]. simpl. repeat twp_step.
  split; [|split; [by repeat split|by eauto]]. split.
  - rewrite length_app. simpl. lia.
  - exists s', r, (pos + length txs). split; simpl; [by eauto|done| |by rewrite His].
    rewrite drop_app_le, batch_items_app, Ho, His by done. simpl. rewrite app_nil_r, Hz.
    by rewrite take_take_drop.
  - destruct Hp as [H1 H2 H3 H4]. split; simpl; try done. intros id Hid. apply elem_of_app. left. auto.
  - intros ev [?| ->%list_elem_of_singleton]%elem_of_app; auto.
Qed.

Lemma advance_first_spec fuel pending first next :
  (first ≤ next)%Z → Z.to_nat (next - first) ≤ fuel →
  let f := advance_first fuel pending first next in
  (first ≤ f ≤ next)%Z ∧ (∀ id, (first ≤ id < f)%Z → pending !! id = None) ∧
  ((f < next)%Z → is_Some (pending !! f)).
Proof.
  revert first. induction fuel as [|fuel IH]; intros first Hle Hf; cbn [advance_first].
  { split_and!; intros; lia. }
  destruct (pending !! first) as [o|] eqn:E; [split_and!; [lia|lia|intros; lia|by eauto]|].
  case_bool_decide; [|split_and!; intros; lia].
  destruct (IH (first + 1)%Z ltac:(lia) ltac:(lia)) as (H1 & H2 & H3). split_and!; [lia|lia| |done].
  intros id Hid. destruct (decide (id = first)) as [->|]; [done|]. apply H2. lia.
Qed.

(** A pending request is served with one batch and removed. *)
Lemma servePendingReq_spec k id o st out :
  MpInv k st out → PendingBatchRequests st !! id = Some o →
  twp (servePendingReq params id) (λ _ st' out',
    MpInv k st' out' ∧ PendingBatchRequests st' = delete id (PendingBatchRequests st) ∧
    NextPendingBatchReqID st' = NextPendingBatchReqID st ∧
    (FirstPendingBatchReqID st = id → (FirstPendingBatchReqID st < FirstPendingBatchReqID st')%Z) ∧
    ∃ txIDs txs, out' = out ++ [MpNewBatch (or_Module o) txIDs txs o]) st out.
Proof.
  intros Hi Hid. unfold servePendingReq. do 3 twp_step. eapply twp_lift; [by rewrite Hid|]. twp_step.
  eapply twp_mono; [by apply (cutBatch_spec k)|].
  intros [] st1 out1 (Hi1 & (He & Hpr & Hea & Hpe & Hf & Hnx) & Hout). twp_step.
  destruct (mi_pending _ _ _ Hi1) as [[H0 H1] H2 H3 H4]. rewrite Hpe, Hf, Hnx in *.
  assert (FirstPendingBatchReqID st < NextPendingBatchReqID st)%Z as Hlt.
  { destruct (H2 id) as [? ?]; [by rewrite Hid|lia]. }
  destruct (advance_first_spec (Z.to_nat (NextPendingBatchReqID st - FirstPendingBatchReqID st))
    (delete id (PendingBatchRequests st)) _ _ H1 ltac:(done)) as ([Hb1 Hb2] & Hnone & Hsome).
  set (f := advance_first _ _ _ _) in *. split_and!; [|done|done| |done].
  - destruct Hi1 as [Hk (s & r & pos & [Hr Hc Ho Hit]) _ Hev]. split; [done| | |done].
    + exists s, r, pos. by split.
    + split; simpl; [lia| |done|].
      * intros j Hj. destruct (decide (j < f)%Z) as [Hjf|].
        -- assert (is_Some (PendingBatchRequests st !! j)) as Hj' by (destruct Hj as [? [_ ?]%lookup_delete_Some]; eauto).
           specialize (H2 j Hj'). rewrite Hnone in Hj by lia. by destruct Hj.
        -- destruct Hj as [? [_ ?]%lookup_delete_Some]. destruct (H2 j); [by eexists|]. lia.
      * intros j [? [_ ?]%lookup_delete_Some]. apply H4. by eexists.
  - simpl. intros Hid'. destruct (decide (f = FirstPendingBatchReqID st)) as [Hff|]; [|lia].
    destruct Hsome as [o' Ho']; [lia|]. rewrite Hff, Hid' in Ho'. by rewrite lookup_delete_eq in Ho'.
Qed.

Lemma handleBatchRequest_spec k origin st out :
  MpInv k st out →
  twp (handleBatchRequest params origin) (λ _ st' out', MpInv k st' out' ∧
    mp_Epoch st' = mp_Epoch st ∧ EarlyBatchRequests st' = EarlyBatchRequests st) st out.
Proof.
  intros Hi. unfold handleBatchRequest, storePendingRequest. do 2 twp_step. destruct (haveFullBatch params st).
  { eapply twp_mono; [by apply (cutBatch_spec k)|]. intros [] st' out' (? & (? & ? & ? & _) & _). done. }
  repeat twp_step. split; [|done]. set (next := NextPendingBatchReqID st).
  pose proof (MpInv_emit k st out (MpTimerDelay (BatchTimeout params) (u64_of_int next)) Hi I ltac:(done)) as Hi'.
  destruct Hi' as [Hk (s & r & pos & [Hr Hc Ho Hit]) [[H0 H1] H2 H3 H4] Hev]. split; [done| | |done].
  { exists s, r, pos. by split. }
  split; simpl; fold next in H1, H2, H3 |- *; [lia|..].
  - intros id Hid. destruct (decide (id = next)) as [->|]; [lia|]. rewrite lookup_insert_ne in Hid by done.
    specialize (H2 id Hid). lia.
  - intros _. destruct (decide (FirstPendingBatchReqID st = next)) as [->|]; [by rewrite lookup_insert_eq|].
    rewrite lookup_insert_ne by done. apply H3. lia.
  - intros id. destruct (decide (id = next)) as [->|]; [intros _; set_solver|].
    rewrite lookup_insert_ne by done. apply H4.
Qed.

Lemma handle_requests_spec k l st out :
  MpInv k st out →
  twp (mfor l (handleBatchRequest params)) (λ _ st' out', MpInv k st' out' ∧
    mp_Epoch st' = mp_Epoch st ∧ EarlyBatchRequests st' = EarlyBatchRequests st) st out.
Proof.
  revert st out. induction l as [|o l IH]; intros st out Hi; cbn [mfor]; [by twp_step|].
  twp_step. eapply twp_mono; [by apply (handleBatchRequest_spec k)|]. intros [] st1 out1 (Hi1 & He1 & Hq1).
  eapply twp_mono; [by apply IH|]. intros [] st2 out2 (Hi2 & He2 & Hq2). split_and!; congruence.
Qed.

Lemma MpInv_early k st out m : MpInv k st out → MpInv k (set_early m st) out.
Proof. intros [Hk (s & r & pos & [? ? ? ?]) [? ? ? ?] ?]. split; [done|exists s, r, pos; by split|by split|done]. Qed.

Lemma handle_early_spec k l st out :
  MpInv k st out → twp (mfor l (handle_early params)) (λ _ st' out', MpInv k st' out') st out.
Proof.
  revert st out. induction l as [|[e reqs] l IH]; intros st out Hi; cbn [mfor]; [by twp_step|].
  twp_step. unfold handle_early at 1. do 2 twp_step. cbv iota. case_bool_decide.
  { twp_step. apply IH. by apply MpInv_early. }
  case_bool_decide; [|twp_step; by apply IH].
  eapply twp_mono; [by apply (handle_requests_spec k)|]. intros [] st1 out1 (Hi1 & _). by apply IH.
Qed.

Lemma no_pending k st out :
  MpInv k st out → ¬ (FirstPendingBatchReqID st < NextPendingBatchReqID st)%Z → PendingBatchRequests st = ∅.
Proof.
  intros Hi Hn. apply map_empty. intros id. apply eq_None_not_Some. intros Hid.
  apply (pe_range _ _ (mi_pending _ _ _ Hi)) in Hid. lia.
Qed.
(** The fuel is enough: the loop stops because no batch is full or no request is pending. *)
Lemma serve_while_full_spec k fuel st out :
  MpInv k st out → Z.to_nat (NextPendingBatchReqID st - FirstPendingBatchReqID st) ≤ fuel →
  twp (serve_while_full params fuel) (λ _ st' out', MpInv k st' out' ∧
    (haveFullBatch params st' = true → PendingBatchRequests st' = ∅)) st out.
Proof.
  revert st out. induction fuel as [|fuel IH]; intros st out Hi Hf; cbn [serve_while_full].
  { twp_step. split; [done|]. intros _. by eapply no_pending; [exact Hi|lia]. }
  do 2 twp_step. destruct (haveFullBatch params st) eqn:Hfull; cbn [andb]; [|twp_step; by rewrite Hfull].
  case_bool_decide as Hlt; [|twp_step; split; [done|]; intros _; by eapply no_pending].
  destruct (pe_first _ _ (mi_pending _ _ _ Hi) Hlt) as [o Ho]. twp_step.
  eapply twp_mono; [by apply (servePendingReq_spec k _ o)|]. intros [] st1 out1 (Hi1 & _ & Hn & Hadv & _).
  apply IH; [done|]. specialize (Hadv eq_refl). lia.
Qed.

(** Counters do not matter for the invariant. *)
Lemma MpInv_counters k st out a b c : MpInv k st out → MpInv k (set_counters a b c st) out.
Proof. intros [Hk (s & r & pos & [? ? ? ?]) [? ? ? ?] ?]. split; [done|exists s, r, pos; by split|by split|done]. Qed.
Lemma MpInv_counted k txs st out : MpInv k st out → MpInv k (foldl count_added st txs) out.
Proof.
  revert st. induction txs as [|tx txs IH]; intros st Hi; [done|]. cbn [foldl]. apply IH. unfold count_added.
  destruct (CP.Contains _ _ _); [done|by apply MpInv_counters].
Qed.

Lemma kv_added_elem (kvs : list (TxID * Transaction)) s kv : kv ∈ kv_added s kvs → kv ∈ kvs.
Proof.
  revert s. induction kvs as [|kv' kvs IH]; intros s; cbn [kv_added]; [done|].
  case_bool_decide; [rewrite elem_of_cons; intros [->|?%IH]; set_solver|intros ?%IH; set_solver].
Qed.

(** Appending transactions with their identifiers. *)
Lemma append_spec k txs st out :
  MpInv k st out → small txs →
  twp (on_list (λ l, r ← IL.Append (tx_id <$> txs) txs l; let '(_, vs, l) := r in Ok (vs, l)))
    (λ _ st' out', MpInv k st' out') st out.
Proof.
  intros [Hk (s & r & pos & [[A Hr] Hc Ho Hi]) Hp Hev] Hs.
  destruct (append_all_spec (zip (tx_id <$> txs) txs) (mp_Transactions st) A s Hr)
    as (ks & vs & il' & Hall & A' & Hr' & _). rewrite foldl_added in Hr'.
  eapply on_list_spec.
  { unfold IL.Append. rewrite bool_decide_eq_false_2 by (rewrite length_fmap; tauto). by rewrite Hall. }
  assert (pos ≤ length (kv_items s)) as Hpos.
  { rewrite <- (ln_len _ _ _ (rep_linked _ _ _ Hr)). by eapply (cu_bound _ _ _ _ (rep_cursors _ _ _ Hr)). }
  split; [done| |by destruct Hp|done].
  eexists _, r, pos. split; [by exists A'|done|rewrite Ho; simpl; by rewrite take_app_le|].
  intros kv. simpl. intros [?|Hin%kv_added_elem]%elem_of_app; [by apply Hi|].
  apply list_elem_of_lookup in Hin as [j Hj]. apply lookup_zip_with_Some in Hj as (id & tx & -> & Hid & Htx).
  rewrite list_lookup_fmap, Htx in Hid. injection Hid as <-. split; [done|]. apply Hs. by eapply list_elem_of_lookup_2.
Qed.

(** Afterwards no request waits for a batch that is full. *)
Lemma UponTransactionIDsResponse_spec k txs st out :
  MpInv k st out → small txs →
  twp (UponTransactionIDsResponse params (tx_id <$> txs) txs) (λ _ st' out', MpInv k st' out' ∧
    (haveFullBatch params st' = true → PendingBatchRequests st' = ∅)) st out.
Proof.
  intros Hi Hs. unfold UponTransactionIDsResponse. twp_step. eapply twp_mono; [by apply (append_spec k)|].
  intros added st1 out1 Hi1. do 4 twp_step. apply serve_while_full_spec; [by apply MpInv_counted|done].
Qed.

(** A new epoch starts with a fresh iterator: nothing was output in it yet. *)
Lemma UponNewEpoch_spec k rng e progress st out :
  MpInv k st out → (e < u64_max)%N →
  twp (UponNewEpoch params rng e progress) (λ _ st' out', MpInv (length out) st' out') st out.
Proof.
  intros [Hk (s & r & pos & [[A Hr] Hc Ho Hi]) Hp Hev] He. unfold UponNewEpoch. do 3 twp_step.
  eapply on_list_spec; [done|]. cbv beta. twp_step. eapply on_list_spec; [done|]. cbv beta. do 5 twp_step.
  pose proof (GarbageCollect_spec e _ _ _ Hr He) as Hr1.
  destruct (Iterator_spec e _ _ _ Hr1) as [_ Hr2]. simpl in *.
  set (i := il_fresh _) in *. set (P := λ (_ : TxID) tx, CP.Contains (CP.LoadPb progress) (tx_ClientId tx) (tx_TxNo tx)).
  destruct (RemoveSelected_spec P _ _ _ Hr2) as (ks & vs & il' & Hrem & _ & _ & A' & Hr3).
  eapply on_list_spec; [simpl; fold P; rewrite Hrem; done|]. do 4 twp_step. apply handle_early_spec. simpl.
  split; [done| |by destruct Hp|done].
  exists (kv_remove_selected P (kv_iterator i e (kv_collect e s))), e, 0. split; simpl.
  - by exists A'.
  - by rewrite lookup_fmap, lookup_insert_eq.
  - by rewrite drop_all.
  - intros kv [_ Hin]%list_elem_of_filter. by apply Hi.
Qed.

Definition epoch_start (i : mp_input) (out : list mp_event) (k : nat) : nat :=
  match i with MpInNewEpoch _ _ => length out | _ => k end.

Lemma mp_apply_inv k rng i st out :
  MpInv k st out → mp_answers out i →
  twp (mp_apply params rng i) (λ _ st' out', MpInv (epoch_start i out k) st' out') st out.
Proof.
  intros Hi Ha. destruct i as [txs origin|hashes origin|txIDs origin|hash origin|txIDs origin|e progress|txs|txIDs txs|e origin|id];
    cbn [mp_apply epoch_start].
  - unfold UponRequestTransactionIDs. case_bool_decide; [by twp_step|].
    destruct (mapM serializeTXForHash txs) as [data|] eqn:E; [|by twp_step]. twp_step. apply MpInv_emit; [done| |done].
    destruct origin as [o|l|l o]; [done| |done]. destruct Ha as [-> Hin]. split; [done|].
    by apply (mi_out _ _ _ Hi) in Hin as [_ ?].
  - unfold UponResult. twp_step. apply MpInv_emit; [done| |done]. destruct Ha as (data & Hin & ->).
    destruct origin as [o|l|l o]; [done| |done]. apply (mi_out _ _ _ Hi) in Hin as [Hd ?].
    split; [by apply hashed_transactions|done].
  - unfold UponRequestBatchID. twp_step. by apply MpInv_emit.
  - unfold UponResultOne. twp_step. by apply MpInv_emit.
  - unfold UponRequestTransactions. do 3 twp_step. pose proof (mi_list _ _ _ Hi) as (s & r & pos & [[A Hr] _ _ _]).
    destruct (LookUp_spec _ _ _ txIDs Hr) as (ks & vs & ms & Hl & _). eapply twp_lift; [exact Hl|]. simpl.
    twp_step. by apply MpInv_emit.
  - by eapply UponNewEpoch_spec.
  - unfold UponNewTransactions. case_bool_decide; [|by twp_step]. twp_step. apply MpInv_emit; [done| |done].
    split; [done|]. intros tx [? _]%list_elem_of_filter. done.
  - apply (mi_out _ _ _ Hi) in Ha as [-> Hs].
    eapply twp_mono; [by apply (UponTransactionIDsResponse_spec k)|]. by intros [] st' out' [? _].
  - unfold UponRequestBatch. do 2 twp_step. case_bool_decide.
    { eapply twp_mono; [by apply (handleBatchRequest_spec k)|]. by intros [] st' out' [? _]. }
    case_bool_decide; twp_step; [by apply MpInv_early|done].
  - unfold UponBatchTimeout. do 2 twp_step. destruct (PendingBatchRequests st !! int_of_u64 id) as [o|] eqn:E; [|by twp_step].
    eapply twp_mono; [by apply (servePendingReq_spec k _ o)|]. by intros [] st' out' [? _].
Qed.

(** Runs: [k] is the length of the output when the current epoch started. *)
Inductive mp_run : MpState → list mp_event → nat → Prop :=
| mp_start : mp_run IncludeBatchCreation [] 0
| mp_step st out k rng i st' es :
    mp_run st out k → mp_answers out i → mp_apply params rng i st = Ok (tt, st', es) →
    mp_run st' (out ++ es) (epoch_start i out k).

Lemma MpInv_start : MpInv 0 IncludeBatchCreation [].
Proof.
  destruct (Iterator_spec 0 (IL.New : TxList) _ _ Rep_New) as [_ Hr].
  split; [done| |split; simpl; try done; try lia; intros id [? ?]; by simplify_map_eq|set_solver].
  eexists _, 0%N, 0. split; [by eexists|by apply lookup_insert_eq|done|]. simpl. set_solver.
Qed.
Lemma mp_run_inv st out k : mp_run st out k → MpInv k st out.
Proof.
  induction 1 as [|st out k rng i st' es _ IH Ha Happ]; [apply MpInv_start|].
  destruct (mp_apply_inv k rng i st out IH Ha) as ([] & st'' & es' & Happ' & Hi).
  rewrite Happ in Happ'. by injection Happ' as <- <-.
Qed.
End inv.

Lemma LookUp_one {K V} `{Countable K} (l : IndexedList K V) A s key v :
  Rep l A s → IL.LookUp l [key] = Ok ([key], [v], []) ↔ (key, v) ∈ kv_items s.
Proof.
  intros HR. destruct (LookUp_spec _ _ _ [key] HR) as (ks & vs & ms & -> & Hl & Hz & ->).
  assert (NoDup (kv_items s).*1) as Hnd by apply (rep_linked _ _ _ HR).
  rewrite (elem_of_list_to_map (M := gmap K)) by done. change (list_to_map _) with (kv_map s). cbn [omap list_omap] in Hz.
  destruct (kv_map s !! key) as [v'|] eqn:E; cbn in Hz.
  - destruct ks as [|k' [|]], vs as [|w [|]]; try done. injection Hz as -> ->.
    rewrite filter_cons_False, filter_nil; [by split; [intros [= ->]|intros [= ->]]|].
    intros Hn. apply Hn. apply elem_of_list_to_map_2 in E. apply list_elem_of_fmap. by exists (key, v').
  - by destruct ks, vs.
Qed.


(** C26 (liveness).  Every batch request of the current epoch is answered: it is answered with a
    batch at once, or it waits with its timer set.  When the timer of a waiting request fires,
    the request is answered with exactly one batch and no longer waits; and after transactions
    were added, no request waits while a batch is full. *)
Theorem batch_requests_answered `{!HashImpl} params st out k :
  (0 ≤ MaxTransactionsInBatch params)%Z → (0 ≤ MaxPayloadInBatch params)%Z →
  mp_run params st out k → (NextPendingBatchReqID st < 2 ^ 63)%Z →
  (∀ rng origin, ∃ st' ev, mp_apply params rng (MpInRequestBatch (mp_Epoch st) origin) st = Ok (tt, st', [ev]) ∧
     ((∃ txIDs txs, ev = MpNewBatch (or_Module origin) txIDs txs origin) ∨
      (∃ id, ev = MpTimerDelay (BatchTimeout params) (u64_of_int id) ∧
         PendingBatchRequests st' = <[id := origin]> (PendingBatchRequests st) ∧
         PendingBatchRequests st !! id = None))) ∧
  (∀ id origin, PendingBatchRequests st !! id = Some origin →
     MpTimerDelay (BatchTimeout params) (u64_of_int id) ∈ out ∧
     ∀ rng, ∃ st' txIDs txs, mp_apply params rng (MpInBatchTimeout (u64_of_int id)) st =
         Ok (tt, st', [MpNewBatch (or_Module origin) txIDs txs origin]) ∧
       PendingBatchRequests st' = delete id (PendingBatchRequests st)) ∧
  (∀ rng txIDs txs, MpTransactionIDsResponse txIDs (IdsToSave txs) ∈ out →
     ∃ st' es, mp_apply params rng (MpInTransactionIDsResponse txIDs txs) st = Ok (tt, st', es) ∧
       (haveFullBatch params st' = true → PendingBatchRequests st' = ∅)).
Proof.
  intros Hm Hp Hr Hn. pose proof (mp_run_inv _ Hm Hp _ _ _ Hr) as Hi.
  pose proof (mi_pending _ _ _ _ Hi) as Hpe. split_and!.
  - intros rng origin. cbn [mp_apply]. unfold UponRequestBatch. unfold mbind at 1, M_bind at 1, get at 1.
    rewrite bool_decide_eq_true_2 by done. destruct (haveFullBatch params st) eqn:Hf.
    + destruct (cutBatch_spec _ Hm Hp k origin _ _ Hi)
        as ([] & st' & es & Hs & _ & _ & txIDs & txs & ->%app_inv_head).
      exists st', (MpNewBatch (or_Module origin) txIDs txs origin). split; [|by eauto].
      unfold handleBatchRequest, mbind, M_bind, get. by rewrite Hf, Hs.
    + do 2 eexists. split; [unfold handleBatchRequest, mbind, M_bind, get; by rewrite Hf|].
      right. exists (NextPendingBatchReqID st). split_and!; [done..|]. apply eq_None_not_Some.
      intros ?%(pe_range _ _ _ Hpe). lia.
  - intros id origin Hid. split; [apply (pe_timer _ _ _ Hpe); by eexists|]. intros rng.
    assert (0 ≤ id < 2 ^ 63)%Z as Hb.
    { pose proof (pe_bounds _ _ _ Hpe). pose proof (pe_range _ _ _ Hpe id (mk_is_Some _ _ Hid)). lia. }
    cbn [mp_apply]. unfold UponBatchTimeout. rewrite int_of_u64_of_int by lia.
    destruct (servePendingReq_spec _ Hm Hp k _ _ _ _ Hi Hid)
      as ([] & st' & es & Hs & _ & Hpend & _ & _ & txIDs & txs & ->%app_inv_head).
    exists st', txIDs, txs. split; [|done]. unfold mbind, M_bind, get. by rewrite Hid, Hs.
  - intros rng txIDs txs Hin. apply (mi_out _ _ _ _ Hi) in Hin as [-> Hs].
    destruct (UponTransactionIDsResponse_spec _ Hm Hp k _ _ _ Hi Hs) as ([] & st' & es & ? & _ & ?). by eauto.
Qed.

(** ** Transaction identifiers are ambiguous *)
Lemma le_bytes_surj k s :
  k ≤ String.length s → ∃ v rest, s = String.append (le_bytes k v) rest ∧ (v < 256 ^ N.of_nat k)%N.
Proof.
  revert s. induction k as [|k IH]; intros s Hs; [by exists 0%N, s|].
  destruct s as [|c s]; simpl in Hs; [lia|]. destruct (IH s) as (v & rest & -> & Hv); [lia|].
  pose proof (Ascii.N_ascii_bounded c) as Hc. exists (Ascii.N_of_ascii c + 256 * v)%N, rest.
  rewrite Nat2N.inj_succ, N.pow_succ_r'. split; [|lia]. cbn [le_bytes].
  rewrite N.add_mod, N.mul_comm, N.Div0.mod_mul, N.add_0_r, N.Div0.mod_mod, N.mod_small, N.div_add, N.div_small by done.
  by rewrite Ascii.ascii_N_embedding.
Qed.

(** Transaction identifiers do not identify transactions: the client, the
    transaction number and the data are hashed one after the other without their lengths, so
    for every transaction with data there is one of another client with the same identifier, whatever
    the hash function.  The type is not hashed at all.  Batches of them have the same identifier,
    so a certificate does not determine the transactions it is for. *)
Theorem transaction_ids_ambiguous `{!HashImpl} tx c d :
  tx_Data tx = Some (String c d) →
  ∃ tx', tx_ClientId tx' ≠ tx_ClientId tx ∧ (tx_TxNo tx' < 2 ^ 64)%N ∧ tx_id tx' = tx_id tx ∧
    batch_id (tx_id <$> [tx']) = batch_id (tx_id <$> [tx]).
Proof.
  intros Hd. set (b := Ascii.ascii_of_N (tx_TxNo tx `mod` 256)).
  set (rest := String.append (le_bytes 7 (tx_TxNo tx `div` 256)) (String c d)).
  destruct (le_bytes_surj 8 rest) as (v & d' & Hrest & Hv).
  { unfold rest. rewrite length_append, le_bytes_length. simpl. lia. }
  exists (mkTransaction (String.append (tx_ClientId tx) (String b "")) v (tx_Type tx) (Some d')). simpl tx_ClientId.
  assert (tx_id (mkTransaction (String.append (tx_ClientId tx) (String b "")) v (tx_Type tx) (Some d')) = tx_id tx) as Hid.
  { unfold tx_id, mempool_ids. f_equal. unfold Serialization.concat_bytes, Uint64ToBytes. rewrite Hd.
    cbn [foldr tx_ClientId tx_TxNo tx_Data contents default from_option id].
    by rewrite !Serialization.append_nil_r, <- Hrest, append_assoc. }
  split_and!; [|done|done|cbn [fmap list_fmap]; by rewrite Hid].
  intros Heq. apply (f_equal String.length) in Heq. rewrite length_append in Heq. simpl in Heq. lia.
Qed.
Lemma small_filter params txs :
  small params txs → filter (λ tx, payload tx ≤ MaxPayloadInBatch params)%Z txs = txs.
Proof.
  intros Hs. induction txs as [|tx txs IH]; [done|].
  rewrite filter_cons_True by (apply Hs; left). by rewrite IH by (intros tx' ?; apply Hs; by right).
Qed.

(** Transactions that arrive together in a larger number than fits in a batch
    are lost: the request for their identifiers, which the mempool sends to itself, is
    refused by its own handler, without a state change or any output. *)
Theorem many_transactions_lost params rng txs st :
  small params txs → (MaxTransactionsInBatch params < Z.of_nat (length txs))%Z → txs ≠ [] →
  mp_apply params rng (MpInNewTransactions txs) st = Ok (tt, st, [MpRequestTransactionIDs txs (IdsToSave txs)]) ∧
  mp_apply params rng (MpInRequestTransactionIDs (Some <$> txs) (IdsToSave txs)) st = Ok (tt, st, []).
Proof.
  intros Hs Hl Hne. cbn [mp_apply]. split.
  - unfold UponNewTransactions. rewrite (small_filter params txs Hs).
    rewrite bool_decide_eq_true_2; [done|]. destruct txs; [done|simpl; lia].
  - unfold UponRequestTransactionIDs. by rewrite length_fmap, bool_decide_eq_true_2.
Qed.

(** ** Concrete runs *)
Import ToyChkp.
Module MpToy.
Definition params : MpParams := mkMpParams 2 16 100.
Definition tx (n : N) : Transaction := mkTransaction "client" n 0 (Some "pay").
Definition origin : Origin := mkOrigin "availability" 0.
(** A client submits transactions, and their identifiers are computed. *)
Definition submit (txs : list Transaction) : list mp_input :=
  [MpInNewTransactions txs; MpInRequestTransactionIDs (Some <$> txs) (IdsToSave txs);
   MpInResult (Hasher.computeDigests (omap serializeTXForHash (Some <$> txs))) (IdsToSave txs);
   MpInTransactionIDsResponse (tx_id <$> txs) txs].
Definition epoch (n : N) : mp_input := MpInNewEpoch n {[ "client" := mkDeliveredTXsPb n [] ]}.
Definition served : list mp_input :=
  submit [tx 0] ++ [MpInRequestBatch 0 origin; MpInBatchTimeout 0; MpInRequestBatch 0 origin].
(** A transaction that was delivered in epoch 0 arrives again. *)
Definition again : list mp_input :=
  [epoch 1] ++ submit [tx 0] ++ [MpInRequestBatch 1 origin; MpInBatchTimeout 0; epoch 2].
End MpToy.
Import MpToy.

Lemma transaction_ids_ambiguous_witness :
  ∃ tx', tx_ClientId tx' ≠ "client" ∧ (tx_TxNo tx' < 2 ^ 64)%N ∧
    tx_id tx' = tx_id (mkTransaction "client" 7 0 (Some "pay")) ∧
    batch_id (tx_id <$> [tx']) = batch_id (tx_id <$> [mkTransaction "client" 7 0 (Some "pay")]).
Proof. by eapply (transaction_ids_ambiguous (mkTransaction "client" 7 0 (Some "pay"))). Defined.

Lemma many_transactions_lost_witness :
  let txs := [tx 0; tx 1; tx 2] in
  mp_apply MpToy.params range_id (MpInNewTransactions txs) IncludeBatchCreation =
    Ok (tt, IncludeBatchCreation, [MpRequestTransactionIDs txs (IdsToSave txs)]) ∧
  mp_apply MpToy.params range_id (MpInRequestTransactionIDs (Some <$> txs) (IdsToSave txs)) IncludeBatchCreation =
    Ok (tt, IncludeBatchCreation, []).
Proof.
  apply many_transactions_lost; [|done|done]. intros tx Htx. repeat (apply elem_of_cons in Htx as [->|Htx]; [done|]).
  by apply not_elem_of_nil in Htx.
Defined.

(** A run given by its inputs, whose guards are checked by evaluation. *)
Ltac mp_input Hr i :=
  eapply (mp_step _ _ _ _ range_id i) in Hr;
  [|first [exact I|reflexivity|by repeat first [left|right]|eexists; split; [by repeat first [left|right]|reflexivity]
          |split; [reflexivity|by repeat first [left|right]]|eexists; by repeat first [left|right]]
   |vm_compute; reflexivity]; vm_compute in Hr.
Ltac mp_inputs Hr l :=
  lazymatch eval vm_compute in l with
  | ?i :: ?l' => mp_input Hr i; mp_inputs Hr l'
  | [] => idtac
  end.


Lemma batch_requests_answered_witness :
  ∃ st out k, mp_run MpToy.params st out k ∧
    MpTimerDelay 100 1 ∈ out ∧
    ∃ st' txIDs txs, mp_apply MpToy.params range_id (MpInBatchTimeout 1) st =
      Ok (tt, st', [MpNewBatch "availability" txIDs txs MpToy.origin]).
Proof.
  pose proof (mp_start MpToy.params) as Hr. mp_inputs Hr MpToy.served. do 3 eexists. split; [exact Hr|].
  destruct (batch_requests_answered MpToy.params _ _ _ ltac:(done) ltac:(done) Hr ltac:(vm_compute; reflexivity))
    as (_ & Ht & _).
  destruct (Ht 1%Z MpToy.origin ltac:(vm_compute; reflexivity)) as [Hin Hb]. split; [exact Hin|].
  destruct (Hb range_id) as (st' & txIDs & txs & Hs & _). by exists st', txIDs, txs.
Defined.

(** Transactions that were delivered already are kept and proposed again: when one of them
    arrives again, the counters leave it out but the list keeps it, and the next batch
    contains it.  The number of transactions not proposed yet becomes negative, and so does the
    total payload when the next epoch removes the transaction, as its payload was never added. *)
Theorem delivered_transaction_proposed_again :
  ∃ st1 out1 k1 st2 out2 k2,
    mp_run MpToy.params st1 out1 k1 ∧
    CP.Contains (mp_ClientProgress st1) (tx_ClientId (tx 0)) (tx_TxNo (tx 0)) = true ∧
    batch_items (drop k1 out1) = [(tx_id (tx 0), tx 0)] ∧ (NumUnproposed st1 < 0)%Z ∧
    mp_apply MpToy.params range_id (MpToy.epoch 2) st1 = Ok (tt, st2, []) ∧ mp_run MpToy.params st2 out2 k2 ∧
    IL.Len (mp_Transactions st2) = 0%Z ∧ (TotalPayloadSize st2 < 0)%Z.
Proof.
  pose proof (mp_start MpToy.params) as Hr. mp_inputs Hr (take 7 MpToy.again).
  pose proof Hr as Hr2. mp_inputs Hr2 (drop 7 MpToy.again).
  do 6 eexists. split; [exact Hr|]. split_and!; [reflexivity..| |exact Hr2|reflexivity|reflexivity].
  vm_compute. reflexivity.
Qed.
