(* ===== verification/EventProcessing.v ===== *)
(** * stdtypes/eventlist.go and pkg/modules/eventprocessing.go: lists of events and how modules
    apply them

    Event lists are the currency between the modules of a node.  A module applies the events of
    a list one after the other ([ApplyEventsSequentially]) or each in a goroutine of its own
    ([ApplyEventsConcurrently]); the latter is modelled as a step relation over all
    interleavings of the workers with the goroutine that collects their results. *)
From Stdlib Require Import ZArith Lia.
From stdpp Require Import prelude strings list relations.
From S2P Require Import Prelude.

(** ** stdtypes/eventlist.go *)
Module EventList.
Section eventlist.
Context {Event : Type}.

(** The list stays nil until the first event is added. *)
Definition t := option (list Event).
Implicit Types (el : t) (ev : Event).

Definition EmptyList : t := None.
(** What an iterator over the list returns. *)
Definition events el : list Event := default [] el.

Definition Len el : Z := match el with None => 0 | Some l => Z.of_nat (length l) end.
Definition PushBack el ev : t := Some (events el ++ [ev]).
Definition ListOf (evs : list Event) : t := foldl PushBack EmptyList evs.
Definition PushBackSlice el (evs : list Event) : t := Some (events el ++ evs).
Definition PushBackList el newEvents : t :=
  match newEvents with None => el | Some l => Some (events el ++ l) end.

(** The position of an iterator is the list of the remaining elements. *)
Definition Iterator el : list Event := events el.
Definition Next (it : list Event) : option Event * list Event :=
  match it with [] => (None, []) | ev :: it => (Some ev, it) end.

Fixpoint head_loop (n : nat) (it : list Event) (result : t) : t :=
  match n with
  | O => result
  | S n =>
      match Next it with
      | (None, _) => result
      | (Some ev, it) => head_loop n it (PushBack result ev)
      end
  end.
Definition Head el (n : Z) : t :=
  match el with None => EmptyList | Some _ => head_loop (Z.to_nat n) (Iterator el) EmptyList end.

(** The loop of [RemoveFront] and the number of events it removed: [i] if the list ends
    before [n] events are removed. *)
Fixpoint remove_loop (n : nat) (i : Z) (l : list Event) : Z * list Event :=
  match n with
  | O => (i, l)
  | S n => match l with [] => (i, []) | _ :: l => remove_loop n (i + 1) l end
  end.
Definition RemoveFront el (n : Z) : Z * t :=
  match el with
  | None => (0%Z, None)
  | Some l =>
      if bool_decide (n < 0)%Z then (n, Some l)
      else let '(i, l) := remove_loop (Z.to_nat n) 0 l in (i, Some l)
  end.

(** A nil slice and an empty one are told apart. *)
Definition Slice el : option (list Event) :=
  match el with None => None | Some _ => Some (Iterator el) end.

Fixpoint filter_loop (predicate : Event → bool) (it : list Event) (filtered : t) : t :=
  match it with
  | [] => filtered
  | ev :: it => filter_loop predicate it (if predicate ev then PushBack filtered ev else filtered)
  end.
Definition Filter el (predicate : Event → bool) : t := filter_loop predicate (Iterator el) None.

Lemma events_ListOf evs : events (ListOf evs) = evs.
Proof.
  unfold ListOf. assert (∀ el, events (foldl PushBack el evs) = events el ++ evs) as H.
  { induction evs as [|ev evs IH]; intros el; simpl; [by rewrite app_nil_r|]. rewrite IH. simpl. by rewrite <- app_assoc. }
  by rewrite H.
Qed.
Lemma events_PushBackList el el' : events (PushBackList el el') = events el ++ events el'.
Proof. destruct el'; simpl; [done|by rewrite app_nil_r]. Qed.
Lemma Len_events el : Len el = Z.of_nat (length (events el)).
Proof. by destruct el. Qed.
Lemma head_loop_events n it result : events (head_loop n it result) = events result ++ take n it.
Proof.
  revert it result. induction n as [|n IH]; intros it result; simpl; [by rewrite app_nil_r|].
  destruct it as [|ev it]; simpl; [by rewrite app_nil_r|]. rewrite IH. simpl. by rewrite <- app_assoc.
Qed.
Lemma Head_events el n : events (Head el n) = take (Z.to_nat n) (events el).
Proof. destruct el as [l|]; simpl; [by rewrite head_loop_events|by rewrite take_nil]. Qed.
Lemma remove_loop_spec n i l : remove_loop n i l = ((i + Z.of_nat (length (take n l)))%Z, drop n l).
Proof.
  revert i l. induction n as [|n IH]; intros i [|ev l]; simpl; f_equal; try lia. rewrite IH. f_equal. lia.
Qed.
Lemma RemoveFront_spec el n :
  (0 ≤ n)%Z →
  (RemoveFront el n).1 = Z.min n (Len el) ∧ events (RemoveFront el n).2 = drop (Z.to_nat n) (events el).
Proof.
  intros Hn. destruct el as [l|]; cbn [RemoveFront Len events default]; [|split; [simpl; lia|by rewrite drop_nil]].
  rewrite bool_decide_eq_false_2 by lia. rewrite remove_loop_spec. simpl. split; [|done]. rewrite length_take. lia.
Qed.
Lemma Filter_events el predicate : events (Filter el predicate) = filter (λ ev, predicate ev = true) (events el).
Proof.
  unfold Filter, Iterator. assert (∀ it r, events (filter_loop predicate it r) =
    events r ++ filter (λ ev, predicate ev = true) it) as H; [|by rewrite H].
  induction it as [|ev it IH]; intros r; simpl; [by rewrite app_nil_r|]. rewrite IH, filter_cons.
  case_decide as Hp; [rewrite Hp; simpl; by rewrite <- app_assoc|]. by destruct (predicate ev).
Qed.
End eventlist.
Arguments t : clear implicits.
End EventList.

(** ** eventprocessing.go *)
Section processing.
Context {In Out : Type}.

(** [ApplyEventsSequentially] of a handler that changes the state of its module. *)
Fixpoint ApplyEventsSequentially {S} (eventsIn : list In) (applyEvent : In → S → outcome (list Out * S)) (s : S)
    : outcome (list Out * S) :=
  match eventsIn with
  | [] => Ok ([], s)
  | event :: eventsIn =>
      r ← applyEvent event s;
      let '(evts, s) := r in
      r ← ApplyEventsSequentially eventsIn applyEvent s;
      let '(eventsOut, s) := r in Ok (evts ++ eventsOut, s)
  end.

Context (applyEvent : In → outcome (list Out)).

(** The error that a panic is turned into, without the stack trace. *)
Definition applySafely (event : In) : option (list Out) * option string :=
  match applyEvent event with
  | Ok result => (Some result, None)
  | Err e => (None, Some e)
  | Panic _ => (None, Some "event application panicked")
  end.

(** A worker computes its result, then writes the result and then the error to its own unbuffered
    channels: each write waits for the collector to read. *)
Inductive worker :=
| Computing (event : In)
| WritingResult (result : option (list Out)) (err : option string)
| WritingError (err : option string)
| WorkerDone.

(** The loop that collects: its index, whether it reads the result or the error next,
    and what it has aggregated. *)
Record collector := mkCollector {
  col_i : nat; col_readError : bool; col_eventsOut : list Out; col_firstError : option string;
}.
Record conc := mkConc { conc_workers : list worker; conc_main : collector }.

Definition conc_start (eventsIn : list In) : conc :=
  mkConc (Computing <$> eventsIn) (mkCollector 0 false [] None).

Inductive conc_step : conc → conc → Prop :=
| conc_compute ws m j event result err :
    ws !! j = Some (Computing event) → applySafely event = (result, err) →
    conc_step (mkConc ws m) (mkConc (<[j := WritingResult result err]> ws) m)
| conc_result ws i out fe result err :
    ws !! i = Some (WritingResult result err) →
    conc_step (mkConc ws (mkCollector i false out fe))
      (mkConc (<[i := WritingError err]> ws) (mkCollector i true (out ++ default [] result) fe))
| conc_error ws i out fe err :
    ws !! i = Some (WritingError err) →
    conc_step (mkConc ws (mkCollector i true out fe))
      (mkConc (<[i := WorkerDone]> ws)
         (mkCollector (S i) false out (match fe with None => err | Some _ => fe end))).

(** The function returns when the loop is over. *)
Definition conc_return (eventsIn : list In) (c : conc) : option (outcome (list Out)) :=
  if bool_decide (col_i (conc_main c) = length eventsIn) then
    Some (match col_firstError (conc_main c) with Some e => Err e | None => Ok (col_eventsOut (conc_main c)) end)
  else None.

(** The events of the inputs in the order of the inputs, or the first error in that order. *)
Fixpoint in_order (eventsIn : list In) : list Out * option string :=
  match eventsIn with
  | [] => ([], None)
  | event :: eventsIn =>
      let '(result, err) := applySafely event in
      let '(out, fe) := in_order eventsIn in
      (default [] result ++ out, match err with Some _ => err | None => fe end)
  end.
Definition conc_result_of (eventsIn : list In) : outcome (list Out) :=
  match (in_order eventsIn).2 with Some e => Err e | None => Ok (in_order eventsIn).1 end.

Lemma in_order_snoc l event :
  in_order (l ++ [event]) =
    ((in_order l).1 ++ default [] (applySafely event).1,
     match (in_order l).2 with None => (applySafely event).2 | Some e => Some e end).
Proof.
  induction l as [|event' l IH]; cbn [in_order app]; [destruct (applySafely event) as [r []]; simpl; by rewrite app_nil_r|].
  rewrite IH. destruct (applySafely event') as [r err], (in_order l) as [out fe]. simpl.
  rewrite <- app_assoc. by destruct err.
Qed.

(** The state of worker [j] when the collector is at [i]. *)
Definition worker_ok (i : nat) (readError : bool) (j : nat) (event : In) (w : worker) : Prop :=
  match w with
  | Computing event' => event' = event ∧ (i < j ∨ i = j ∧ readError = false)
  | WritingResult r err => applySafely event = (r, err) ∧ (i < j ∨ i = j ∧ readError = false)
  | WritingError err => err = (applySafely event).2 ∧ i = j ∧ readError = true
  | WorkerDone => j < i
  end.
Record ConcInv (eventsIn : list In) (c : conc) : Prop := {
  ci_length : length (conc_workers c) = length eventsIn;
  ci_workers j event w : eventsIn !! j = Some event → conc_workers c !! j = Some w →
    worker_ok (col_i (conc_main c)) (col_readError (conc_main c)) j event w;
  ci_bound : col_i (conc_main c) ≤ length eventsIn;
  ci_reading : col_readError (conc_main c) = true → col_i (conc_main c) < length eventsIn;
  ci_out : col_eventsOut (conc_main c) =
    (in_order (take (if col_readError (conc_main c) then S (col_i (conc_main c)) else col_i (conc_main c)) eventsIn)).1;
  ci_error : col_firstError (conc_main c) = (in_order (take (col_i (conc_main c)) eventsIn)).2;
}.

Lemma ConcInv_start eventsIn : ConcInv eventsIn (conc_start eventsIn).
Proof.
  split; simpl; [by rewrite length_fmap| |lia|done|done|done].
  intros j event w He Hw. rewrite list_lookup_fmap, He in Hw. injection Hw as <-. split; [done|]. lia.
Qed.

(** Another worker than [i] is not affected when the collector moves. *)
Lemma conc_event eventsIn c j w :
  ConcInv eventsIn c → conc_workers c !! j = Some w → ∃ event, eventsIn !! j = Some event.
Proof. intros Hi Hw%lookup_lt_Some. apply lookup_lt_is_Some_2. by rewrite <- (ci_length _ _ Hi). Qed.

Lemma ConcInv_step eventsIn c c' : ConcInv eventsIn c → conc_step c c' → ConcInv eventsIn c'.
Proof.
  intros Hi Hs. destruct Hs as [ws m j event result err Hj Ha|ws i out fe result err Hj|ws i out fe err Hj];
    destruct (conc_event _ _ _ _ Hi Hj) as [ev Hev]; destruct Hi as [Hl Hw Hb Hre Ho He]; simpl in *;
    pose proof (Hw _ _ _ Hev Hj) as Hok; simpl in Hok.
  - split; simpl; [by rewrite length_insert| |done..]. intros j' ev' w Hev' [(<- & <- & _)|[Hne Hw']]%list_lookup_insert_Some.
    + simplify_eq. simpl. by destruct Hok as [-> ?].
    + by apply Hw.
  - destruct Hok as [Ha _]. split; simpl; [by rewrite length_insert| |done| |..].
    + intros j' ev' w Hev' [(<- & <- & _)|[Hne Hw']]%list_lookup_insert_Some; [simplify_eq; simpl; by rewrite Ha|].
      specialize (Hw _ _ _ Hev' Hw'). destruct w; simpl in *; intuition lia.
    + intros _. by eapply lookup_lt_Some.
    + by rewrite (take_S_r _ _ _ Hev), in_order_snoc, Ho, Ha.
    + done.
  - destruct Hok as [-> _]. split; simpl; [by rewrite length_insert| |by eapply lookup_lt_Some|done|done|].
    + intros j' ev' w Hev' [(<- & <- & _)|[Hne Hw']]%list_lookup_insert_Some; [simpl; lia|].
      specialize (Hw _ _ _ Hev' Hw'). destruct w; simpl in *; intuition lia.
    + rewrite (take_S_r _ _ _ Hev), in_order_snoc, <- He. simpl. by destruct fe.
Qed.

(** Progress: the collector waits for a worker that can take a step. *)
Lemma conc_progress eventsIn c :
  ConcInv eventsIn c → col_i (conc_main c) < length eventsIn → ∃ c', conc_step c c'.
Proof.
  intros Hi Hlt. destruct (lookup_lt_is_Some_2 _ _ Hlt) as [event He].
  destruct (lookup_lt_is_Some_2 (conc_workers c) (col_i (conc_main c))) as [w Hw]; [by rewrite (ci_length _ _ Hi)|].
  pose proof (ci_workers _ _ Hi _ _ _ He Hw) as Hok. destruct c as [ws [i b out fe]]. simpl in *.
  destruct w as [ev|r err|err|]; simpl in Hok.
  - destruct (applySafely ev) as [r err] eqn:E. eexists. by eapply conc_compute.
  - destruct Hok as [_ [?|[_ ->]]]; [lia|]. eexists. by eapply conc_result.
  - destruct Hok as (_ & _ & ->). eexists. by eapply conc_error.
  - lia.
Qed.

(** Termination: the steps that the workers still have to take. *)
Definition steps_left (w : worker) : nat :=
  match w with Computing _ => 3 | WritingResult _ _ => 2 | WritingError _ => 1 | WorkerDone => 0 end.
Definition conc_left (c : conc) : nat := sum_list_with steps_left (conc_workers c).

Lemma sum_insert (l : list worker) j w w' :
  l !! j = Some w → steps_left w = S (steps_left w') →
  sum_list_with steps_left l = S (sum_list_with steps_left (<[j := w']> l)).
Proof.
  intros Hj Hs. rewrite <- (take_drop_middle l j w Hj) at 1. rewrite insert_take_drop by (by eapply lookup_lt_Some).
  rewrite !sum_list_with_app. simpl. lia.
Qed.
Lemma conc_left_step c c' : conc_step c c' → conc_left c = S (conc_left c').
Proof. intros [ws m j event r err Hj _|ws i out fe r err Hj|ws i out fe err Hj]; by eapply sum_insert. Qed.
Lemma conc_left_start eventsIn : conc_left (conc_start eventsIn) = 3 * length eventsIn.
Proof.
  unfold conc_left, conc_start. cbn [conc_workers]. induction eventsIn as [|ev l IH]; [done|].
  change (3 + sum_list_with steps_left (Computing <$> l) = 3 * S (length l)). lia.
Qed.

(** Without panics this is what sequential processing returns. *)
Lemma sequential_result eventsIn :
  (∀ event p, event ∈ eventsIn → applyEvent event ≠ Panic p) →
  ApplyEventsSequentially eventsIn (λ event _, r ← applyEvent event; Ok (r, tt)) tt =
    (r ← conc_result_of eventsIn; Ok (r, tt)).
Proof.
  unfold conc_result_of. induction eventsIn as [|event l IH]; intros Hp; [done|].
  cbn [ApplyEventsSequentially in_order]. unfold applySafely.
  assert (∀ event p, event ∈ l → applyEvent event ≠ Panic p) as Hl by (intros ??; set_solver).
  destruct (applyEvent event) as [r|e|p] eqn:E; [|by destruct (in_order l)|by edestruct Hp; [left|]].
  cbn [mbind outcome_bind]. rewrite (IH Hl). by destruct (in_order l) as [out [e|]].
Qed.
End processing.

(** Every run of the workers and the collector. *)
Lemma conc_run_result {In Out} (applyEvent : In → outcome (list Out)) eventsIn n c :
  nsteps (conc_step applyEvent) n (conc_start eventsIn) c →
  n ≤ 3 * length eventsIn ∧
  ((∃ c', conc_step applyEvent c c') ∨ conc_return eventsIn c = Some (conc_result_of applyEvent eventsIn)) ∧
  (∀ r, conc_return eventsIn c = Some r → r = conc_result_of applyEvent eventsIn).
Proof.
  intros Hn.
  assert (ConcInv applyEvent eventsIn c ∧ n + conc_left c = 3 * length eventsIn) as [Hi Hl].
  { rewrite <- (conc_left_start (In := In) (Out := Out)). revert Hn. generalize (ConcInv_start applyEvent eventsIn).
    generalize (conc_start (Out := Out) eventsIn). intros c0 H0 Hn. induction Hn as [c0|n c0 c1 c2 Hs Hn IH]; [done|].
    destruct IH as [Hi Hl]; [by eapply ConcInv_step|]. apply conc_left_step in Hs. split; [done|lia]. }
  assert (col_i (conc_main c) = length eventsIn →
    conc_return eventsIn c = Some (conc_result_of applyEvent eventsIn)) as Hret.
  { intros He. unfold conc_return, conc_result_of. rewrite bool_decide_eq_true_2 by done.
    rewrite (ci_out _ _ _ Hi), (ci_error _ _ _ Hi), He.
    destruct (col_readError (conc_main c)) eqn:Er; [pose proof (ci_reading _ _ _ Hi Er); lia|]. by rewrite firstn_all. }
  split; [lia|]. split.
  - destruct (decide (col_i (conc_main c) = length eventsIn)) as [He|Hne]; [by right; auto|].
    left. eapply conc_progress; [exact Hi|]. pose proof (ci_bound _ _ _ Hi). lia.
  - intros r Hr. rewrite Hret in Hr; [congruence|]. unfold conc_return in Hr. by case_bool_decide.
Qed.

(** C24 (equivalence).  Applying events concurrently is applying them in order: whatever the
    interleaving, the workers never deadlock, the function returns after three steps for each
    event, and it returns the output events in the order of the input events, or the error
    of the first event, in that order, that failed or panicked.  If no event makes the handler
    panic, this is the result of applying the events sequentially. *)
Theorem concurrent_application_in_order {In Out} (applyEvent : In → outcome (list Out)) eventsIn n c :
  nsteps (conc_step applyEvent) n (conc_start eventsIn) c →
  n ≤ 3 * length eventsIn ∧
  ((∃ c', conc_step applyEvent c c') ∨ conc_return eventsIn c = Some (conc_result_of applyEvent eventsIn)) ∧
  (∀ r, conc_return eventsIn c = Some r → r = conc_result_of applyEvent eventsIn) ∧
  ((∀ event p, event ∈ eventsIn → applyEvent event ≠ Panic p) →
   ApplyEventsSequentially eventsIn (λ event _, r ← applyEvent event; Ok (r, tt)) tt =
     (r ← conc_result_of applyEvent eventsIn; Ok (r, tt))).
Proof.
  intros (? & ? & ?)%conc_run_result. split_and!; [done..|]. apply sequential_result.
Qed.

Lemma concurrent_application_in_order_witness :
  let apply (n : nat) := if bool_decide (n = 2) then Panic NilDeref else Ok [n; n] in
  conc_result_of apply [1; 3] = Ok [1; 1; 3; 3] ∧
  ∃ c, nsteps (conc_step apply) 6 (conc_start [1; 3]) c ∧
    ((∃ c', conc_step apply c c') ∨ conc_return [1; 3] c = Some (conc_result_of apply [1; 3])).
Proof.
  intros apply. split; [reflexivity|].
  assert (∃ c, nsteps (conc_step apply) 6 (conc_start [1; 3]) c) as [c Hc].
  { eexists. unfold conc_start. simpl.
    eapply nsteps_l; [by eapply (conc_compute _ _ _ 1)|]. eapply nsteps_l; [by eapply (conc_compute _ _ _ 0)|].
    eapply nsteps_l; [by eapply conc_result|]. eapply nsteps_l; [by eapply conc_error|].
    eapply nsteps_l; [by eapply conc_result|]. eapply nsteps_l; [by eapply conc_error|]. apply nsteps_O. }
  exists c. split; [exact Hc|]. apply (concurrent_application_in_order apply [1; 3] 6 c Hc).
Defined.
