(* ===== verification/Node.v ===== *)
(** * The runtime of a node: node.go, eventbuffer.go, workers.go, workerrornotifier.go, config.go

    A node routes events between its modules.  The goroutine of [process] owns a buffer of events
    for each module and exchanges event lists over unbuffered channels with one worker for each
    module and one importer for each active module.  The functions that run between two
    synchronizations are definitions; [node_step] is one synchronization or one local computation
    of a goroutine, in any interleaving.  What modules do with events, the output of active modules,
    injected events, the interceptor and the cancellation of the context are the environment.
    Statistics, stopwatches and logging are left out. *)
From Stdlib Require Import ZArith Lia.
From stdpp Require Import prelude strings gmap list fin_maps relations.
From S2P Require Import Prelude PbftTypes Orderer Iss EventProcessing.

(** ** config.go *)
Record NodeConfig := mkNodeConfig {
  MaxEventBatchSize : Z; PauseInputThreshold : Z; ResumeInputThreshold : Z;
}.
Definition DefaultNodeConfig : NodeConfig := mkNodeConfig 512 8192 6144.
Definition Validate (c : NodeConfig) : outcome unit :=
  if bool_decide (MaxEventBatchSize c ≤ 0)%Z then Err "MaxEventBatchSize must be greater than 0"
  else if bool_decide (PauseInputThreshold c ≤ 0)%Z then Err "PauseInputThreshold must be greater than 0"
  else if bool_decide (ResumeInputThreshold c < 0)%Z then
    Err "ResumeInputThreshold must be greater than or equal to 0"
  else if bool_decide (PauseInputThreshold c < ResumeInputThreshold c)%Z then
    Err "PauseInputThreshold must be greater than or equal to ResumeInputThreshold"
  else Ok tt.

(** ** workerrornotifier.go: the error, and whether [exitC] and [exitStatusC] are closed *)
Record workErrNotifier := mkWorkErrNotifier {
  wen_err : option string; wen_exitC : bool; wen_exitStatusC : bool;
}.
Module Wen.
Definition newWorkErrNotifier : workErrNotifier := mkWorkErrNotifier None false false.
Definition Fail (wen : workErrNotifier) (err : string) : workErrNotifier :=
  match wen_err wen with
  | Some _ => wen
  | None => mkWorkErrNotifier (Some err) true (wen_exitStatusC wen)
  end.
(** Closing the channel a second time panics. *)
Definition SetExitStatus (wen : workErrNotifier) : outcome workErrNotifier :=
  if wen_exitStatusC wen then Panic (ExplicitPanic "close of closed channel")
  else Ok (mkWorkErrNotifier (wen_err wen) (wen_exitC wen) true).
End Wen.
Definition ErrStopped : string := "stopped at caller request".

(** Every module of a node is passive or active; a module of another type is not considered. *)
Inductive module_kind := PassiveModule | ActiveModule.
#[export] Instance module_kind_dec : EqDecision module_kind.
Proof. solve_decision. Defined.

Section node.
Context {Event : Type} (Dest : Event → string) (NewInit : string → Event).
Notation EventList := (EventList.t Event).

(** ** eventbuffer.go *)
Record eventBuffer := mkEventBuffer { eb_buffers : gmap string EventList; eb_totalEvents : Z }.

Definition newEventBuffer {A} (modules : gmap string A) : eventBuffer :=
  mkEventBuffer ((λ _, EventList.EmptyList) <$> modules) 0.

Fixpoint add_loop (it : list Event) (eb : eventBuffer) : eventBuffer :=
  match it with
  | [] => eb
  | event :: it =>
      let dest := ModuleID.Top (Dest event) in
      add_loop it
        match eb_buffers eb !! dest with
        | Some buffer =>
            mkEventBuffer (<[dest := EventList.PushBack buffer event]> (eb_buffers eb)) (eb_totalEvents eb + 1)
        | None => eb
        end
  end.
Definition Add (eb : eventBuffer) (events : EventList) : eventBuffer := add_loop (EventList.Iterator events) eb.
Definition Stats (eb : eventBuffer) : gmap string Z := EventList.Len <$> eb_buffers eb.

(** ** The state of a node *)
Context {St : Type}.

(** Where the events of modules are written: back to the event loop, to the debug channel, or
    nowhere. *)
Inductive sink := SinkLoop | SinkDebug | SinkNil.

(** A worker waits for a list of events, processes one, or waits for its output to be read. *)
Inductive wstate := WorkerReading | WorkerProcessing (eventsIn : EventList) | WorkerWriting (eventsOut : EventList) | WorkerExited.
(** The program points of [importEvents]: an importer waits until input is enabled, reads the
    output of its module, or waits for it to be read.  Its transitions are steps of [internal_step]
    and [external_step]. *)
Inductive istate := ImportWaiting | ImportReading | ImportWriting (newEvents : EventList) | ImportExited.

Record Node := mkNode {
  n_pendingEvents : eventBuffer; n_inputPaused : bool; n_workErrNotifier : workErrNotifier;
  n_modules : gmap string (module_kind * St);
  n_workers : gmap string wstate; n_importers : gmap string istate;
  n_ctxDone : bool; n_stopped : bool;
}.

Definition with_pending eb (n : Node) : Node :=
  mkNode eb (n_inputPaused n) (n_workErrNotifier n) (n_modules n) (n_workers n) (n_importers n) (n_ctxDone n) (n_stopped n).
Definition with_paused b (n : Node) : Node :=
  mkNode (n_pendingEvents n) b (n_workErrNotifier n) (n_modules n) (n_workers n) (n_importers n) (n_ctxDone n) (n_stopped n).
Definition with_notifier w (n : Node) : Node :=
  mkNode (n_pendingEvents n) (n_inputPaused n) w (n_modules n) (n_workers n) (n_importers n) (n_ctxDone n) (n_stopped n).
Definition with_module m x (n : Node) : Node :=
  mkNode (n_pendingEvents n) (n_inputPaused n) (n_workErrNotifier n) (<[m := x]> (n_modules n)) (n_workers n)
    (n_importers n) (n_ctxDone n) (n_stopped n).
Definition with_worker m w (n : Node) : Node :=
  mkNode (n_pendingEvents n) (n_inputPaused n) (n_workErrNotifier n) (n_modules n) (<[m := w]> (n_workers n))
    (n_importers n) (n_ctxDone n) (n_stopped n).
Definition with_importer m i (n : Node) : Node :=
  mkNode (n_pendingEvents n) (n_inputPaused n) (n_workErrNotifier n) (n_modules n) (n_workers n)
    (<[m := i]> (n_importers n)) (n_ctxDone n) (n_stopped n).
Definition with_stopped c s (n : Node) : Node :=
  mkNode (n_pendingEvents n) (n_inputPaused n) (n_workErrNotifier n) (n_modules n) (n_workers n) (n_importers n) c s.

Definition pauseInput (n : Node) : Node := with_paused true n.
Definition resumeInput (n : Node) : Node := with_paused false n.
Definition fail (err : string) (n : Node) : Node := with_notifier (Wen.Fail (n_workErrNotifier n) err) n.

Context (config : NodeConfig) (debugMode : sink).

(** ** The reactions of the event loop *)
Definition receiveEvents (newEvents : EventList) (n : Node) : Node :=
  let n := with_pending (Add (n_pendingEvents n) newEvents) n in
  if bool_decide (PauseInputThreshold config < eb_totalEvents (n_pendingEvents n))%Z then pauseInput n else n.

(** The batch that the loop offers to the worker of a module with a non-empty buffer. *)
Definition eventBatch (mID : string) (n : Node) : option EventList :=
  buffer ← eb_buffers (n_pendingEvents n) !! mID;
  if bool_decide (0 < EventList.Len buffer)%Z then Some (EventList.Head buffer (MaxEventBatchSize config)) else None.

Definition dispatched (mID : string) (numEvents : Z) (n : Node) : Node :=
  let eb := n_pendingEvents n in
  let n := with_pending (mkEventBuffer
    (alter (λ buffer, (EventList.RemoveFront buffer numEvents).2) mID (eb_buffers eb))
    (eb_totalEvents eb - numEvents)) n in
  if bool_decide (eb_totalEvents (n_pendingEvents n) ≤ ResumeInputThreshold config)%Z then resumeInput n else n.

(** The loop is over: the deferred call resumes the input. *)
Definition exitLoop (n : Node) : outcome Node :=
  wen ← Wen.SetExitStatus (n_workErrNotifier n);
  Ok (resumeInput (with_stopped (n_ctxDone n) true (with_notifier wen n))).

(** ** workers.go *)
Context (passive_apply : string → EventList → St → outcome (EventList * St)).
Context (active_apply : string → EventList → St → outcome St).
Context (interceptor : option (EventList → option string)).

Definition interceptEvents (events : EventList) (n : Node) : Node :=
  match interceptor with
  | None => n
  | Some intercept => match intercept events with None => n | Some err => fail err n end
  end.

(** A panic of the module is recovered. *)
Definition recovered {A} (r : outcome A) : outcome A :=
  match r with Panic _ => Err "module panicked" | _ => r end.
Definition safelyApplyEventsPassive m (events : EventList) (s : St) : outcome (EventList * St) :=
  recovered (passive_apply m events s).
Definition safelyApplyEventsActive m (events : EventList) (s : St) : outcome St :=
  recovered (active_apply m events s).

(** From the reading of [eventsIn] to the writing of the output, with the error handling of the
    worker's loop in [startModules]. *)
Definition processModuleEvents (mID : string) (eventsIn : EventList) (n : Node) : Node :=
  let n := interceptEvents eventsIn n in
  match n_modules n !! mID with
  | None => n
  | Some (kind, s) =>
      let result :=
        match kind with
        | PassiveModule => r ← safelyApplyEventsPassive mID eventsIn s;
                           Ok (EventList.PushBackList EventList.EmptyList r.1, r.2)
        | ActiveModule => s ← safelyApplyEventsActive mID eventsIn s; Ok (EventList.EmptyList, s)
        end in
      match result with
      | Ok (eventsOut, s) =>
          let n := with_module mID (kind, s) n in
          if bool_decide (EventList.Len eventsOut = 0)%Z then with_worker mID WorkerReading n
          else match debugMode with
               | SinkNil => with_worker mID WorkerReading n
               | _ => with_worker mID (WorkerWriting eventsOut) n
               end
      | Err e => with_worker mID WorkerExited (fail ("could not process PassiveModule (" +:+ mID +:+ ") events: " +:+ e) n)
      | Panic _ => n
      end
  end.

(** ** Starting *)
Definition createInitEvents {A} (rng : go_range) (modules : gmap string A) : EventList :=
  foldl (λ l '(moduleID, _), EventList.PushBack l (NewInit moduleID)) EventList.EmptyList
    (range_order rng 1 (map_to_list modules)).

Definition NewNode (modules : gmap string (module_kind * St)) : outcome Node :=
  Validate config;;
  Ok (mkNode (newEventBuffer modules) false Wen.newWorkErrNotifier modules ∅ ∅ false false).

Definition startModules (n : Node) : Node :=
  mkNode (n_pendingEvents n) (n_inputPaused n) (n_workErrNotifier n) (n_modules n)
    ((λ _, WorkerReading) <$> n_modules n)
    ((λ _, ImportWaiting) <$> filter (λ '(_, (kind, _)), kind = ActiveModule) (n_modules n))
    (n_ctxDone n) (n_stopped n).
Definition Run (rng : go_range) (n : Node) : Node :=
  startModules (with_pending (Add (n_pendingEvents n) (createInitEvents rng (n_modules n))) n).
Definition Debug (n : Node) : Node := startModules n.

(** ** Steps

    A label records the events that the loop received, and the batches handed to and processed by
    the workers. *)
Inductive label := LReceive (newEvents : EventList) | LDispatch (mID : string) (batch : EventList)
                 | LProcess (mID : string) (eventsIn : EventList) | LOther.

Definition exiting (n : Node) : Prop := n_ctxDone n = true ∨ wen_exitC (n_workErrNotifier n) = true.

(** Steps of the node's own goroutines. *)
Inductive internal_step : Node → label → Node → Prop :=
(** [process]: one select case. *)
| loop_from_worker n mID eventsOut :
    n_stopped n = false → debugMode = SinkLoop → n_workers n !! mID = Some (WorkerWriting eventsOut) →
    internal_step n (LReceive eventsOut) (receiveEvents eventsOut (with_worker mID WorkerReading n))
| loop_from_importer n mID newEvents :
    n_stopped n = false → debugMode = SinkLoop → n_importers n !! mID = Some (ImportWriting newEvents) →
    internal_step n (LReceive newEvents) (receiveEvents newEvents (with_importer mID ImportWaiting n))
| loop_dispatch n mID batch :
    n_stopped n = false → eventBatch mID n = Some batch → n_workers n !! mID = Some WorkerReading →
    internal_step n (LDispatch mID batch)
      (dispatched mID (EventList.Len batch) (with_worker mID (WorkerProcessing batch) n))
| loop_ctx_done n :
    n_stopped n = false → n_ctxDone n = true → internal_step n LOther (fail ErrStopped n)
| loop_exit n n' :
    n_stopped n = false → wen_exitC (n_workErrNotifier n) = true → exitLoop n = Ok n' → internal_step n LOther n'
(** Workers. *)
| worker_process n mID eventsIn :
    n_workers n !! mID = Some (WorkerProcessing eventsIn) →
    internal_step n (LProcess mID eventsIn) (processModuleEvents mID eventsIn n)
| worker_exit n mID w :
    exiting n → n_workers n !! mID = Some w → (w = WorkerReading ∨ ∃ eventsOut, w = WorkerWriting eventsOut) →
    internal_step n LOther (with_worker mID WorkerExited n)
(** Importers. *)
| importer_enabled n mID :
    n_importers n !! mID = Some ImportWaiting → n_inputPaused n = false →
    internal_step n LOther (with_importer mID ImportReading n)
| importer_exit n mID i :
    exiting n → n_importers n !! mID = Some i → (i = ImportReading ∨ ∃ newEvents, i = ImportWriting newEvents) →
    internal_step n LOther (with_importer mID ImportExited n).

(** Steps of the environment. *)
Inductive external_step : Node → label → Node → Prop :=
| env_inject n events :
    n_stopped n = false → external_step n (LReceive events) (receiveEvents events n)
| env_active_output n mID newEvents :
    n_importers n !! mID = Some ImportReading →
    external_step n LOther (with_importer mID
      match debugMode with SinkNil => ImportWaiting | _ => ImportWriting newEvents end n)
| env_active_closed n mID :
    n_importers n !! mID = Some ImportReading → external_step n LOther (with_importer mID ImportExited n)
| env_debug_from_worker n mID eventsOut :
    debugMode = SinkDebug → n_workers n !! mID = Some (WorkerWriting eventsOut) →
    external_step n LOther (with_worker mID WorkerReading n)
| env_debug_from_importer n mID newEvents :
    debugMode = SinkDebug → n_importers n !! mID = Some (ImportWriting newEvents) →
    external_step n LOther (with_importer mID ImportWaiting n)
| env_cancel n : external_step n LOther (with_stopped true (n_stopped n) n)
| env_stop n : external_step n LOther (fail ErrStopped n).

Definition node_step (n : Node) (l : label) (n' : Node) : Prop := internal_step n l n' ∨ external_step n l n'.

Inductive node_run (n0 : Node) : list label → Node → Prop :=
| run_start : node_run n0 [] n0
| run_step tr n l n' : node_run n0 tr n → node_step n l n' → node_run n0 (tr ++ [l]) n'.

(** ** Observations of a run *)
Definition received (tr : list label) : list Event :=
  tr ≫= λ l, match l with LReceive newEvents => EventList.events newEvents | _ => [] end.
Definition batches_to (m : string) (tr : list label) : list EventList :=
  omap (λ l, match l with LDispatch m' batch => if decide (m' = m) then Some batch else None | _ => None end) tr.
Definition processed_by (m : string) (tr : list label) : list EventList :=
  omap (λ l, match l with LProcess m' batch => if decide (m' = m) then Some batch else None | _ => None end) tr.
Definition for_module (m : string) (evs : list Event) : list Event :=
  filter (λ ev, ModuleID.Top (Dest ev) = m) evs.

(** ** The event buffer *)
Definition total (b : gmap string EventList) : Z := map_fold (λ _ el n, (EventList.Len el + n)%Z) 0%Z b.
Definition eb_ok (eb : eventBuffer) : Prop := eb_totalEvents eb = total (eb_buffers eb).

Lemma total_insert m el (b : gmap string EventList) :
  b !! m = None → total (<[m := el]> b) = (EventList.Len el + total b)%Z.
Proof. intros Hm. unfold total. rewrite map_fold_insert_L; [done|intros; lia|done]. Qed.
Lemma total_lookup m el (b : gmap string EventList) :
  b !! m = Some el → total b = (EventList.Len el + total (delete m b))%Z.
Proof. intros Hm. rewrite <- (insert_delete_id b m el Hm) at 1. apply total_insert, lookup_delete_eq. Qed.
Lemma total_update m el el' (b : gmap string EventList) :
  b !! m = Some el → total (<[m := el']> b) = (total b - EventList.Len el + EventList.Len el')%Z.
Proof.
  intros Hm. rewrite <- (insert_delete_eq b m el'), total_insert by apply lookup_delete_eq.
  rewrite (total_lookup _ _ _ Hm). lia.
Qed.
Lemma total_pos (b : gmap string EventList) : (0 < total b)%Z → ∃ m el, b !! m = Some el ∧ (0 < EventList.Len el)%Z.
Proof.
  induction b as [|m el b Hm IH] using map_ind; [done|]. rewrite total_insert by done. intros Ht.
  destruct (decide (0 < EventList.Len el)%Z); [exists m, el; by rewrite lookup_insert_eq|].
  destruct IH as (m' & el' & Hl & ?); [lia|]. exists m', el'. split; [|done]. rewrite lookup_insert_ne; [done|congruence].
Qed.

(** [Add] appends to each buffer the events for its module and drops the others. *)
Lemma add_loop_spec it eb :
  (∀ m, (EventList.events <$> eb_buffers (add_loop it eb) !! m) =
        (λ el, EventList.events el ++ for_module m it) <$> eb_buffers eb !! m) ∧
  (eb_ok eb → eb_ok (add_loop it eb)).
Proof.
  revert eb. induction it as [|ev it IH]; intros eb; cbn [add_loop].
  { split; [|done]. intros m. destruct (eb_buffers eb !! m); simpl; [by rewrite app_nil_r|done]. }
  set (dest := ModuleID.Top (Dest ev)). destruct (eb_buffers eb !! dest) as [el|] eqn:E.
  - match goal with |- context [add_loop it ?eb'] => destruct (IH eb') as [IHm IHt] end. split.
    + intros m. rewrite IHm. simpl. unfold for_module. rewrite filter_cons. fold dest.
      destruct (decide (dest = m)) as [<-|Hne]; [by rewrite lookup_insert_eq, E; simpl; rewrite <- app_assoc|].
      by rewrite lookup_insert_ne by done.
    + intros Hok. apply IHt. unfold eb_ok in *. simpl. rewrite (total_update _ _ _ _ E), Hok.
      rewrite !EventList.Len_events. simpl. rewrite length_app. simpl. lia.
  - destruct (IH eb) as [IHm IHt]. split; [|done]. intros m. rewrite IHm. unfold for_module. rewrite filter_cons. fold dest.
    destruct (decide (dest = m)) as [<-|]; [by rewrite E|done].
Qed.

(** ** Invariant of the buffers *)
Record BufferInv (initial : list Event) (tr : list label) (n : Node) : Prop := {
  bi_ok : eb_ok (n_pendingEvents n);
  bi_fifo m el : eb_buffers (n_pendingEvents n) !! m = Some el →
    concat (EventList.events <$> batches_to m tr) ++ EventList.events el = for_module m (initial ++ received tr);
  bi_batch m batch : batch ∈ batches_to m tr →
    (0 < EventList.Len batch ≤ MaxEventBatchSize config)%Z;
}.

Lemma received_snoc tr l :
  received (tr ++ [l]) = received tr ++ match l with LReceive newEvents => EventList.events newEvents | _ => [] end.
Proof. unfold received. rewrite bind_app. simpl. by rewrite app_nil_r. Qed.
Lemma batches_to_snoc m tr l :
  batches_to m (tr ++ [l]) = batches_to m tr ++
    match l with LDispatch m' batch => if decide (m' = m) then [batch] else [] | _ => [] end.
Proof. unfold batches_to. rewrite omap_app. simpl. destruct l; try done. by destruct (decide _). Qed.
Lemma processed_by_snoc m tr l :
  processed_by m (tr ++ [l]) = processed_by m tr ++
    match l with LProcess m' batch => if decide (m' = m) then [batch] else [] | _ => [] end.
Proof. unfold processed_by. rewrite omap_app. simpl. destruct l; try done. by destruct (decide _). Qed.

Lemma for_module_app m l1 l2 : for_module m (l1 ++ l2) = for_module m l1 ++ for_module m l2.
Proof. apply list.filter_app. Qed.

Lemma receiveEvents_pending newEvents n :
  n_pendingEvents (receiveEvents newEvents n) = Add (n_pendingEvents n) newEvents.
Proof. unfold receiveEvents. by case_bool_decide. Qed.
Lemma BufferInv_receive initial tr n newEvents n' :
  BufferInv initial tr n → n_pendingEvents n' = Add (n_pendingEvents n) newEvents →
  BufferInv initial (tr ++ [LReceive newEvents]) n'.
Proof.
  intros [Hok Hf Hb] Hp. unfold Add, EventList.Iterator in Hp.
  destruct (add_loop_spec (EventList.events newEvents) (n_pendingEvents n)) as [Hadd Ht].
  split; rewrite ?Hp; [by apply Ht| |].
  - intros m el Hel. rewrite batches_to_snoc, app_nil_r, received_snoc, (assoc_L (++)), for_module_app.
    specialize (Hadd m). rewrite Hel in Hadd. destruct (eb_buffers (n_pendingEvents n) !! m) as [el'|] eqn:E; [|done].
    simpl in Hadd. injection Hadd as ->. rewrite (assoc_L (++)). f_equal. by apply Hf.
  - intros m batch. rewrite batches_to_snoc, app_nil_r. apply Hb.
Qed.

Lemma eventBatch_Some m n batch :
  (0 < MaxEventBatchSize config)%Z → eventBatch m n = Some batch →
  ∃ buffer, eb_buffers (n_pendingEvents n) !! m = Some buffer ∧
    EventList.events batch = take (Z.to_nat (MaxEventBatchSize config)) (EventList.events buffer) ∧
    (0 < EventList.Len batch ≤ MaxEventBatchSize config)%Z ∧
    EventList.events (EventList.RemoveFront buffer (EventList.Len batch)).2 =
      drop (Z.to_nat (MaxEventBatchSize config)) (EventList.events buffer).
Proof.
  intros Hmax Hb. unfold eventBatch in Hb. destruct (eb_buffers (n_pendingEvents n) !! m) as [buffer|]; [|done].
  simpl in Hb. case_bool_decide as Hl; [|done]. injection Hb as <-. exists buffer. split; [done|].
  assert (EventList.Len (EventList.Head buffer (MaxEventBatchSize config)) =
    Z.min (MaxEventBatchSize config) (EventList.Len buffer)) as Hlen.
  { rewrite !EventList.Len_events, EventList.Head_events, length_take. lia. }
  split; [apply EventList.Head_events|]. split; [lia|].
  destruct (EventList.RemoveFront_spec buffer (EventList.Len (EventList.Head buffer (MaxEventBatchSize config))))
    as [_ ->]; [lia|].
  rewrite Hlen. destruct (decide (MaxEventBatchSize config ≤ EventList.Len buffer)%Z).
  - by rewrite Z.min_l.
  - rewrite Z.min_r, !drop_ge; [done|..]; rewrite ?EventList.Len_events in *; lia.
Qed.

Lemma dispatched_pending m k n :
  n_pendingEvents (dispatched m k n) = mkEventBuffer
    (alter (λ buffer, (EventList.RemoveFront buffer k).2) m (eb_buffers (n_pendingEvents n)))
    (eb_totalEvents (n_pendingEvents n) - k).
Proof. unfold dispatched. by case_bool_decide. Qed.
Lemma BufferInv_dispatch initial tr n m batch n' :
  (0 < MaxEventBatchSize config)%Z → BufferInv initial tr n → eventBatch m n = Some batch →
  n_pendingEvents n' = n_pendingEvents (dispatched m (EventList.Len batch) n) →
  BufferInv initial (tr ++ [LDispatch m batch]) n'.
Proof.
  intros Hmax [Hok Hf Hb] Hbatch Hp. rewrite dispatched_pending in Hp.
  destruct (eventBatch_Some _ _ _ Hmax Hbatch) as (buffer & Hbuf & Hev & Hlen & Hrem). split; rewrite ?Hp.
  - unfold eb_ok in *. simpl.
    assert (alter (λ buffer, (EventList.RemoveFront buffer (EventList.Len batch)).2) m (eb_buffers (n_pendingEvents n)) =
      <[m := (EventList.RemoveFront buffer (EventList.Len batch)).2]> (eb_buffers (n_pendingEvents n))) as ->.
    { apply map_eq. intros j. destruct (decide (j = m)) as [->|]; [by rewrite lookup_alter_eq, lookup_insert_eq, Hbuf|].
      by rewrite lookup_alter_ne, lookup_insert_ne. }
    rewrite (total_update _ _ _ _ Hbuf), Hok, (EventList.Len_events (EventList.RemoveFront _ _).2), Hrem.
    rewrite !EventList.Len_events, Hev, length_take, length_drop. lia.
  - intros j el Hel. rewrite batches_to_snoc, received_snoc, app_nil_r. simpl in Hel.
    destruct (decide (m = j)) as [<-|Hne].
    + rewrite lookup_alter_eq, Hbuf in Hel. injection Hel as <-. rewrite Hrem, fmap_app, concat_app. simpl.
      rewrite app_nil_r, Hev, <- (assoc_L (++)), take_drop. by apply Hf.
    + rewrite lookup_alter_ne in Hel by done. rewrite app_nil_r. by apply Hf.
  - intros j b. rewrite batches_to_snoc. case_decide; [|rewrite app_nil_r; apply Hb].
    intros [?| ->%list_elem_of_singleton]%elem_of_app; [by eapply Hb|done].
Qed.
Lemma BufferInv_other initial tr n n' l :
  BufferInv initial tr n → n_pendingEvents n' = n_pendingEvents n →
  match l with LProcess _ _ | LOther => True | _ => False end → BufferInv initial (tr ++ [l]) n'.
Proof.
  intros [Hok Hf Hb] Hp Hl. split; rewrite ?Hp; [done| |].
  - intros m el Hel. rewrite batches_to_snoc, received_snoc. destruct l; try done; rewrite !app_nil_r; by apply Hf.
  - intros m b. rewrite batches_to_snoc. destruct l; try done; rewrite app_nil_r; apply Hb.
Qed.

(** ** Invariants of the goroutines *)

(** The notifier only moves from no error to the first one. *)
Definition wen_le (w w' : workErrNotifier) : Prop :=
  w' = w ∨ (wen_err w = None ∧ ∃ e, w' = mkWorkErrNotifier (Some e) true (wen_exitStatusC w)).
Lemma wen_le_Fail w e : wen_le w (Wen.Fail w e).
Proof. unfold Wen.Fail. destruct (wen_err w) eqn:E; [by left|]. right. split; [done|by eexists]. Qed.
Lemma Fail_err w e : is_Some (wen_err (Wen.Fail w e)).
Proof. unfold Wen.Fail. destruct (wen_err w) eqn:E; [by rewrite E|done]. Qed.
#[global] Instance wen_le_trans : Transitive wen_le.
Proof.
  intros w1 w2 w3 [->|[H1 [e1 ->]]]; [done|]. intros [->|[H2 _]]; [|done]. right. split; [done|by eexists].
Qed.

(** What processing does: the module's state and worker change, an error may be reported. *)
Definition replay_one (m : string) (kind : module_kind) (s : St) (evs : EventList) : St :=
  match kind with
  | PassiveModule => match passive_apply m evs s with Ok (_, s) => s | _ => s end
  | ActiveModule => match active_apply m evs s with Ok s => s | _ => s end
  end.
Definition replay m kind := foldl (replay_one m kind).

Lemma interceptEvents_frame evs n :
  ∃ w, wen_le (n_workErrNotifier n) w ∧ interceptEvents evs n = with_notifier w n.
Proof.
  unfold interceptEvents. destruct interceptor as [f|]; [destruct (f evs) as [e|]|].
  - eexists. split; [apply wen_le_Fail|done].
  - exists (n_workErrNotifier n). split; [by left|by destruct n].
  - exists (n_workErrNotifier n). split; [by left|by destruct n].
Qed.
Lemma processModuleEvents_spec m evs n kind s :
  n_modules n !! m = Some (kind, s) →
  ∃ w wn, wen_le (n_workErrNotifier n) wn ∧
    ((∀ b, w ≠ WorkerProcessing b) ∧ (w = WorkerExited → is_Some (wen_err wn))) ∧
    processModuleEvents m evs n =
      with_worker m w (with_module m (kind, replay_one m kind s evs) (with_notifier wn n)).
Proof.
  intros Hm. unfold processModuleEvents. destruct (interceptEvents_frame evs n) as (wn & Hw & ->).
  cbn [with_notifier n_modules]. rewrite Hm.
  set (result := match kind with PassiveModule => _ | ActiveModule => _ end).
  assert ((∃ out, result = Ok (out, replay_one m kind s evs)) ∨ ∃ e, result = Err e ∧ replay_one m kind s evs = s)
    as [[out Hr]|(e & Hr & Hs)].
  { subst result. unfold replay_one, safelyApplyEventsPassive, safelyApplyEventsActive.
    destruct kind; [destruct (passive_apply m evs s) as [[out s']|e|p]|destruct (active_apply m evs s) as [s'|e|p]];
      simpl; eauto. }
  - rewrite Hr. exists (if bool_decide (EventList.Len out = 0%Z) then WorkerReading
      else match debugMode with SinkNil => WorkerReading | _ => WorkerWriting out end), wn.
    split; [done|]. split; [|by case_bool_decide; [|destruct debugMode]].
    split; [intros b|]; (case_bool_decide; [done|by destruct debugMode]).
  - rewrite Hr, Hs. exists WorkerExited. eexists. split; [etrans; [exact Hw|apply wen_le_Fail]|].
    split; [split; [done|intros _; apply Fail_err]|].
    unfold with_worker, with_module, fail, with_notifier. cbn. by rewrite (insert_id (n_modules n)).
Qed.

Record WorkerInv (modules0 : gmap string (module_kind * St)) (tr : list label) (n : Node) : Prop := {
  wi_workers m : is_Some (n_workers n !! m) ↔ is_Some (modules0 !! m);
  wi_buffers m : is_Some (eb_buffers (n_pendingEvents n) !! m) ↔ is_Some (modules0 !! m);
  wi_batches m w : n_workers n !! m = Some w →
    batches_to m tr = processed_by m tr ++ match w with WorkerProcessing b => [b] | _ => [] end;
  wi_state m kind s : modules0 !! m = Some (kind, s) →
    n_modules n !! m = Some (kind, replay m kind s (processed_by m tr));
}.

Lemma Add_dom eb evs m : is_Some (eb_buffers (Add eb evs) !! m) ↔ is_Some (eb_buffers eb !! m).
Proof.
  unfold Add. destruct (add_loop_spec (EventList.Iterator evs) eb) as [Ha _]. specialize (Ha m).
  split; intros [el Hel]; rewrite Hel in Ha.
  - by destruct (eb_buffers eb !! m).
  - by destruct (eb_buffers (add_loop _ eb) !! m).
Qed.

(** Steps that only move one worker, without a batch. *)
Lemma WorkerInv_worker modules0 tr n m w w' :
  WorkerInv modules0 tr n → n_workers n !! m = Some w →
  (∀ b, w ≠ WorkerProcessing b) → (∀ b, w' ≠ WorkerProcessing b) → WorkerInv modules0 tr (with_worker m w' n).
Proof.
  intros [H1 H2 H3 H4] Hw Hn Hn'. split; simpl; [|done| |done].
  - intros j. rewrite <- H1. destruct (decide (j = m)) as [->|]; [rewrite lookup_insert_eq, Hw; split; by eexists|].
    by rewrite lookup_insert_ne.
  - intros j x [[<- <-]|[_ Hx]]%lookup_insert_Some; [|by apply H3]. rewrite (H3 _ _ Hw).
    f_equal. destruct w; [|by edestruct Hn|..]; (destruct w'; [done|by edestruct Hn'|done..]).
Qed.
Lemma WorkerInv_frame modules0 tr n n' l :
  WorkerInv modules0 tr n → n_workers n' = n_workers n → n_modules n' = n_modules n →
  (∀ m, is_Some (eb_buffers (n_pendingEvents n') !! m) ↔ is_Some (eb_buffers (n_pendingEvents n) !! m)) →
  match l with LReceive _ | LOther => True | _ => False end → WorkerInv modules0 (tr ++ [l]) n'.
Proof.
  intros [H1 H2 H3 H4] Hw Hm Hb Hl. split; rewrite ?Hw, ?Hm; [done|intros m; by rewrite Hb|..].
  - intros m w Hmw. rewrite batches_to_snoc, processed_by_snoc, (H3 _ _ Hmw).
    destruct l; try done; by rewrite !app_nil_r.
  - intros m kind s Hs. rewrite processed_by_snoc, (H4 _ _ _ Hs). destruct l; try done; by rewrite app_nil_r.
Qed.
Lemma WorkerInv_dispatch modules0 tr n m batch :
  WorkerInv modules0 tr n → n_workers n !! m = Some WorkerReading →
  WorkerInv modules0 (tr ++ [LDispatch m batch])
    (dispatched m (EventList.Len batch) (with_worker m (WorkerProcessing batch) n)).
Proof.
  intros [H1 H2 H3 H4] Hw. assert (∀ k n, n_workers (dispatched m k n) = n_workers n ∧
    n_modules (dispatched m k n) = n_modules n) as Hd by (intros k n'; unfold dispatched; by case_bool_decide).
  split; rewrite ?(proj1 (Hd _ _)), ?(proj2 (Hd _ _)); simpl.
  - intros j. rewrite <- H1. destruct (decide (j = m)) as [->|]; [rewrite lookup_insert_eq, Hw; split; by eexists|].
    by rewrite lookup_insert_ne.
  - intros j. rewrite dispatched_pending. simpl. by rewrite lookup_alter_is_Some.
  - intros j x [[<- <-]|[Hne Hx]]%lookup_insert_Some; rewrite batches_to_snoc, processed_by_snoc, app_nil_r.
    + rewrite decide_True by done. by rewrite (H3 _ _ Hw), app_nil_r.
    + rewrite decide_False, app_nil_r by done. by apply H3.
  - intros j kind s Hs. rewrite processed_by_snoc, app_nil_r. by apply H4.
Qed.
Lemma WorkerInv_process modules0 tr n m evs :
  WorkerInv modules0 tr n → n_workers n !! m = Some (WorkerProcessing evs) →
  WorkerInv modules0 (tr ++ [LProcess m evs]) (processModuleEvents m evs n).
Proof.
  intros [H1 H2 H3 H4] Hw.
  assert (is_Some (modules0 !! m)) as [[kind s] Hs] by (apply H1; by eexists).
  destruct (processModuleEvents_spec m evs n kind _ (H4 _ _ _ Hs)) as (w & wn & _ & [Hnp _] & ->).
  split; simpl; [|done|..].
  - intros j. rewrite <- H1. destruct (decide (j = m)) as [->|]; [rewrite lookup_insert_eq, Hw; split; by eexists|].
    by rewrite lookup_insert_ne.
  - intros j x [[<- <-]|[Hne Hx]]%lookup_insert_Some; rewrite batches_to_snoc, processed_by_snoc, app_nil_r.
    + rewrite decide_True by done. rewrite (H3 _ _ Hw). destruct w; try (by rewrite app_nil_r). by edestruct Hnp.
    + rewrite decide_False, app_nil_r by done. by apply H3.
  - intros j kind' s' Hs'. rewrite processed_by_snoc. destruct (decide (m = j)) as [<-|].
    + rewrite lookup_insert_eq. simplify_eq. unfold replay. by rewrite foldl_app.
    + rewrite lookup_insert_ne, app_nil_r by done. by apply H4.
Qed.

(** Pausing and stopping. *)
Record ControlInv (n : Node) : Prop := {
  co_paused : n_inputPaused n = true →
    (ResumeInputThreshold config < eb_totalEvents (n_pendingEvents n))%Z ∧ n_stopped n = false;
  co_exit : wen_exitC (n_workErrNotifier n) = bool_decide (is_Some (wen_err (n_workErrNotifier n)));
  co_status : wen_exitStatusC (n_workErrNotifier n) = n_stopped n;
  co_stopped : n_stopped n = true → wen_exitC (n_workErrNotifier n) = true;
  co_exited m : n_workers n !! m = Some WorkerExited → exiting n;
}.

Lemma exiting_mono n n' :
  exiting n → wen_le (n_workErrNotifier n) (n_workErrNotifier n') →
  (n_ctxDone n = true → n_ctxDone n' = true) → exiting n'.
Proof. intros [H|H] [Hw|[_ [e Hw]]] Hc; [left; auto..| |]; right; rewrite Hw; done. Qed.
Lemma ControlInv_notifier n n' :
  ControlInv n → wen_le (n_workErrNotifier n) (n_workErrNotifier n') →
  n_inputPaused n' = n_inputPaused n → n_pendingEvents n' = n_pendingEvents n → n_stopped n' = n_stopped n →
  (n_ctxDone n = true → n_ctxDone n' = true) →
  (∀ m, n_workers n' !! m = Some WorkerExited → n_workers n !! m = Some WorkerExited ∨ exiting n') →
  ControlInv n'.
Proof.
  intros [H1 H2 H3 H4 H5] Hw Hp He Hs Hc Hx. split; rewrite ?Hp, ?He, ?Hs; [done|..].
  1-3: destruct Hw as [->|[Hn [e ->]]]; simpl; try done.
  intros m [Hm|?]%Hx; [|done]. eapply exiting_mono; [by eapply H5|done..].
Qed.
Lemma ControlInv_same n n' :
  ControlInv n → n_workErrNotifier n' = n_workErrNotifier n → n_inputPaused n' = n_inputPaused n →
  n_pendingEvents n' = n_pendingEvents n → n_stopped n' = n_stopped n → (n_ctxDone n = true → n_ctxDone n' = true) →
  (∀ m, n_workers n' !! m = Some WorkerExited → n_workers n !! m = Some WorkerExited ∨ exiting n') → ControlInv n'.
Proof. intros. eapply ControlInv_notifier; [done|by left|done..]. Qed.
Lemma worker_not_exited (n : Node) m w j :
  w ≠ WorkerExited → n_workers (with_worker m w n) !! j = Some WorkerExited → n_workers n !! j = Some WorkerExited.
Proof. simpl. intros Hw [[_ ?]|[_ ?]]%lookup_insert_Some; [by subst|done]. Qed.
Lemma add_total_ge it eb : (eb_totalEvents eb ≤ eb_totalEvents (add_loop it eb))%Z.
Proof.
  revert eb. induction it as [|ev it IH]; intros eb; cbn [add_loop]; [done|].
  destruct (eb_buffers eb !! _); etrans; [|apply IH| |apply IH]; simpl; lia.
Qed.
Lemma ControlInv_receive n evs :
  (ResumeInputThreshold config ≤ PauseInputThreshold config)%Z →
  ControlInv n → n_stopped n = false → ControlInv (receiveEvents evs n).
Proof.
  intros Hc [H1 H2 H3 H4 H5] Hs. pose proof (add_total_ge (EventList.Iterator evs) (n_pendingEvents n)) as Hge.
  unfold receiveEvents, Add. simpl. destruct (bool_decide (PauseInputThreshold config < _)%Z) eqn:Ht; split; simpl; try done.
  - intros _. apply bool_decide_eq_true in Ht. split; [lia|done].
  - intros Hp. destruct (H1 Hp). split; [lia|done].
Qed.
Lemma ControlInv_dispatched n m k w :
  w ≠ WorkerExited → ControlInv n → ControlInv (dispatched m k (with_worker m w n)).
Proof.
  intros Hw [H1 H2 H3 H4 H5]. unfold dispatched. simpl.
  destruct (bool_decide (_ ≤ ResumeInputThreshold config)%Z) eqn:Hd; split; simpl; try done;
    try (intros j [[_ ?]|[_ Hx]]%lookup_insert_Some; [by subst|by eapply (H5 j)]).
  intros Hp. destruct (H1 Hp). apply bool_decide_eq_false in Hd. split; [lia|done].
Qed.

(** ** Runs *)
Definition valid_config : Prop :=
  (0 < MaxEventBatchSize config ∧ 0 ≤ ResumeInputThreshold config ≤ PauseInputThreshold config)%Z.
Lemma Validate_valid : Validate config = Ok tt → valid_config.
Proof. unfold Validate, valid_config. repeat case_bool_decide; try done. lia. Qed.

Record NodeInv modules0 initial tr n : Prop := {
  no_buffers : BufferInv initial tr n;
  no_workers : WorkerInv modules0 tr n;
  no_control : ControlInv n;
}.

Lemma WorkerInv_other modules0 tr n n' :
  WorkerInv modules0 tr n → n_workers n' = n_workers n → n_modules n' = n_modules n →
  n_pendingEvents n' = n_pendingEvents n → WorkerInv modules0 (tr ++ [LOther]) n'.
Proof. intros Hi Hw Hm Hp. eapply WorkerInv_frame; [exact Hi|done..| |done]. intros m. by rewrite Hp. Qed.
Lemma receiveEvents_frame evs n :
  n_workers (receiveEvents evs n) = n_workers n ∧ n_modules (receiveEvents evs n) = n_modules n ∧
  n_importers (receiveEvents evs n) = n_importers n.
Proof. unfold receiveEvents. by case_bool_decide. Qed.

Lemma NodeInv_receive modules0 initial tr n n1 evs :
  valid_config → NodeInv modules0 initial tr n → n_stopped n = false →
  WorkerInv modules0 tr n1 → n_pendingEvents n1 = n_pendingEvents n → ControlInv n1 → n_stopped n1 = false →
  NodeInv modules0 initial (tr ++ [LReceive evs]) (receiveEvents evs n1).
Proof.
  intros Hv [Hb _ _] Hs Hw Hp Hc Hs1. destruct (receiveEvents_frame evs n1) as (H1 & H2 & _). split.
  - eapply BufferInv_receive; [exact Hb|]. by rewrite receiveEvents_pending, Hp.
  - eapply WorkerInv_frame; [exact Hw|done..| |done]. intros m. rewrite receiveEvents_pending. apply Add_dom.
  - apply ControlInv_receive; [unfold valid_config in Hv; lia|done..].
Qed.
Lemma NodeInv_other modules0 initial tr n n' :
  NodeInv modules0 initial tr n → n_pendingEvents n' = n_pendingEvents n →
  WorkerInv modules0 tr n' ∨ (n_workers n' = n_workers n ∧ n_modules n' = n_modules n) →
  ControlInv n' → NodeInv modules0 initial (tr ++ [LOther]) n'.
Proof.
  intros [Hb Hw _] Hp Hw' Hc. split; [by eapply BufferInv_other| |done].
  destruct Hw' as [Hw'|[H1 H2]]; [by eapply WorkerInv_other|by eapply WorkerInv_other].
Qed.

Lemma NodeInv_internal modules0 initial tr n l n' :
  valid_config → NodeInv modules0 initial tr n → internal_step n l n' → NodeInv modules0 initial (tr ++ [l]) n'.
Proof.
  intros Hv Hi Hs. pose proof Hi as [Hb Hw Hc].
  destruct Hs as [n m evs Hst Hd Hm|n m evs Hst Hd Hm|n m batch Hst Hbatch Hm|n Hst Hctx|n n' Hst Hex He|n m evs Hm
    |n m w Hex Hm Hwt|n m Hm Hp|n m i Hex Hm Hit].
  - eapply NodeInv_receive; [done..| |done| |done]; [by eapply WorkerInv_worker|].
    eapply ControlInv_same; [exact Hc|done..|]. intros j ?%worker_not_exited; [by left|done].
  - eapply NodeInv_receive; [done..| |done| |done]; [by destruct Hw|].
    eapply ControlInv_same; [exact Hc|done..|by left].
  - split; [|by apply WorkerInv_dispatch|by apply ControlInv_dispatched].
    eapply BufferInv_dispatch; [apply Hv|exact Hb|exact Hbatch|]. by rewrite !dispatched_pending.
  - eapply NodeInv_other; [done|done|by right|]. eapply ControlInv_notifier; [exact Hc|apply wen_le_Fail|done..|by left].
  - unfold exitLoop, Wen.SetExitStatus in He. rewrite (co_status _ Hc), Hst in He. injection He as <-.
    eapply NodeInv_other; [done|done|by right|]. split; simpl; [done|apply Hc|done|done|apply Hc].
  - split; [|by apply WorkerInv_process|];
      (assert (is_Some (modules0 !! m)) as [[kind s] Hms] by (apply (wi_workers _ _ _ Hw); by eexists));
      destruct (processModuleEvents_spec m evs n kind _ (wi_state _ _ _ Hw _ _ _ Hms)) as (w & wn & Hle & [_ Hx] & ->).
    + by eapply BufferInv_other.
    + eapply ControlInv_notifier; [exact Hc|exact Hle|done..|]. simpl. intros j [[_ Hw']|[_ ?]]%lookup_insert_Some; [|by left].
      right. right. simpl. destruct (Hx Hw') as [e He]. destruct Hle as [->|[_ [e' ->]]]; [|done].
      rewrite (co_exit _ Hc), He. by apply bool_decide_eq_true_2.
  - eapply NodeInv_other; [done|done| |eapply ControlInv_same; [exact Hc|done..|]; intros; by right].
    left. eapply WorkerInv_worker; [done..| |done]. by destruct Hwt as [->|[? ->]].
  - eapply NodeInv_other; [done|done|by right|eapply ControlInv_same; [exact Hc|done..|by left]].
  - eapply NodeInv_other; [done|done|by right|eapply ControlInv_same; [exact Hc|done..|by left]].
Qed.
Lemma NodeInv_external modules0 initial tr n l n' :
  valid_config → NodeInv modules0 initial tr n → external_step n l n' → NodeInv modules0 initial (tr ++ [l]) n'.
Proof.
  intros Hv Hi Hs. pose proof Hi as [Hb Hw Hc].
  destruct Hs as [n evs Hst|n m evs Hm|n m Hm|n m evs Hd Hm|n m evs Hd Hm|n|n].
  - by eapply NodeInv_receive.
  - eapply NodeInv_other; [done|done|by right|eapply ControlInv_same; [exact Hc|done..|by left]].
  - eapply NodeInv_other; [done|done|by right|eapply ControlInv_same; [exact Hc|done..|by left]].
  - eapply NodeInv_other; [done|done| |eapply ControlInv_same; [exact Hc|done..|]; intros j ?%worker_not_exited; [by left|done]].
    left. by eapply WorkerInv_worker.
  - eapply NodeInv_other; [done|done|by right|eapply ControlInv_same; [exact Hc|done..|by left]].
  - eapply NodeInv_other; [done|done|by right|eapply ControlInv_same; [exact Hc|done..|by left]].
  - eapply NodeInv_other; [done|done|by right|]. eapply ControlInv_notifier; [exact Hc|apply wen_le_Fail|done..|by left].
Qed.
Lemma mir_run_inv modules0 initial n0 tr n :
  valid_config → NodeInv modules0 initial [] n0 → node_run n0 tr n → NodeInv modules0 initial tr n.
Proof.
  intros Hv H0. induction 1 as [|tr n l n' _ IH [Hs|Hs]]; [done|by eapply NodeInv_internal|by eapply NodeInv_external].
Qed.

(** The two ways to start a node, with the Init events added before the loop starts. *)
Inductive started modules0 : list Event → Node → Prop :=
| started_Run n rng : NewNode modules0 = Ok n →
    started modules0 (EventList.events (createInitEvents rng modules0)) (Run rng n)
| started_Debug n : NewNode modules0 = Ok n → started modules0 [] (Debug n).

Lemma NewNode_Ok modules0 n :
  NewNode modules0 = Ok n → valid_config ∧
  n = mkNode (newEventBuffer modules0) false Wen.newWorkErrNotifier modules0 ∅ ∅ false false.
Proof.
  unfold NewNode. destruct (Validate config) as [[]| |] eqn:Hv; [|done..]. intros [= <-]. split; [by apply Validate_valid|done].
Qed.
Lemma newEventBuffer_ok {A} (m : gmap string A) : eb_ok (newEventBuffer m).
Proof.
  unfold eb_ok, newEventBuffer. cbn [eb_totalEvents eb_buffers]. induction m as [|i x m Hi IH] using map_ind; [done|].
  rewrite fmap_insert, total_insert; [simpl; lia|]. by rewrite lookup_fmap, Hi.
Qed.
Lemma started_inv modules0 initial n0 : started modules0 initial n0 → valid_config ∧ NodeInv modules0 initial [] n0.
Proof.
  assert (∀ n evs, NewNode modules0 = Ok n → valid_config ∧
    NodeInv modules0 (EventList.events evs) [] (startModules (with_pending (Add (n_pendingEvents n) evs) n))) as H.
  { intros n evs [Hv ->]%NewNode_Ok. split; [done|]. cbn [n_pendingEvents].
    destruct (add_loop_spec (EventList.Iterator evs) (newEventBuffer modules0)) as [Ha Ht]. split.
    - split; simpl; [by apply Ht, newEventBuffer_ok| |set_solver].
      intros m el Hel. rewrite app_nil_r. unfold Add in Hel. specialize (Ha m). rewrite Hel in Ha. simpl in Ha.
      rewrite lookup_fmap in Ha. destruct (modules0 !! m); [|done]. by injection Ha as ->.
    - split; simpl.
      + intros m. by rewrite lookup_fmap, fmap_is_Some.
      + intros m. rewrite Add_dom. simpl. by rewrite lookup_fmap, fmap_is_Some.
      + intros m w. rewrite lookup_fmap. by intros (? & _ & ->)%fmap_Some.
      + done.
    - split; simpl; try done. intros m. rewrite lookup_fmap. by intros (? & _ & ?)%fmap_Some. }
  intros [n rng Hn|n Hn]; [|by apply (H n EventList.EmptyList)].
  pose proof (NewNode_Ok _ _ Hn) as [_ ->]. by apply (H _ (createInitEvents rng modules0)).
Qed.

(** C21 (safety).  A node delivers events exactly once and in order: at any time, the events that a
    module has processed, followed by the list its worker is processing and by its buffer, are
    exactly the events addressed to it that reached the event loop, in the order in which they
    did, starting with its Init event.  A module processes one list at a time, never
    an empty one nor one longer than MaxEventBatchSize, and its state is the result of
    processing these lists one after the other. *)
Theorem node_delivers_in_order modules0 initial n0 tr n m kind s :
  started modules0 initial n0 → node_run n0 tr n → modules0 !! m = Some (kind, s) →
  ∃ buffer w,
    eb_buffers (n_pendingEvents n) !! m = Some buffer ∧ n_workers n !! m = Some w ∧
    concat (EventList.events <$> processed_by m tr) ++
      (match w with WorkerProcessing eventsIn => EventList.events eventsIn | _ => [] end) ++
      EventList.events buffer = for_module m (initial ++ received tr) ∧
    (∀ eventsIn, eventsIn ∈ processed_by m tr → (0 < EventList.Len eventsIn ≤ MaxEventBatchSize config)%Z) ∧
    n_modules n !! m = Some (kind, replay m kind s (processed_by m tr)).
Proof.
  intros [Hv H0]%started_inv Hr Hm. destruct (mir_run_inv _ _ _ _ _ Hv H0 Hr) as [Hb Hw _].
  assert (is_Some (modules0 !! m)) as Hsome by (by eexists).
  pose proof Hsome as [buffer Hbuf]%(wi_buffers _ _ _ Hw). pose proof Hsome as [w Hwk]%(wi_workers _ _ _ Hw).
  pose proof (wi_batches _ _ _ Hw _ _ Hwk) as Hbat. exists buffer, w. split_and!; [done|done| | |by apply (wi_state _ _ _ Hw)].
  - rewrite <- (bi_fifo _ _ _ Hb _ _ Hbuf), Hbat, fmap_app, concat_app, <- (assoc_L (++)). do 2 f_equal.
    destruct w; simpl; [done|by rewrite app_nil_r|done..].
  - intros eventsIn Hin. apply (bi_batch _ _ _ Hb m). rewrite Hbat. set_solver.
Qed.

(** Nothing to do for the node: everything was processed and input is awaited. *)
Record quiescent (n : Node) : Prop := {
  qu_workers m w : n_workers n !! m = Some w → w = WorkerReading;
  qu_buffers m buffer : eb_buffers (n_pendingEvents n) !! m = Some buffer → EventList.events buffer = [];
  qu_input : n_inputPaused n = false;
  qu_importers m i : n_importers n !! m = Some i → i = ImportReading ∨ i = ImportExited;
}.

Lemma paused_buffer n :
  valid_config → eb_ok (n_pendingEvents n) → ControlInv n → n_inputPaused n = true →
  ∃ m buffer, eb_buffers (n_pendingEvents n) !! m = Some buffer ∧ (0 < EventList.Len buffer)%Z.
Proof.
  intros Hv Hok Hc Hp. apply total_pos. rewrite <- Hok. destruct (co_paused _ Hc Hp). unfold valid_config in Hv. lia.
Qed.
Lemma Len_nil (el : EventList) : ¬ (0 < EventList.Len el)%Z → EventList.events el = [].
Proof. rewrite EventList.Len_events. intros Hl. apply length_zero_iff_nil. lia. Qed.

Definition is_reading (w : wstate) : bool := match w with WorkerReading => true | _ => false end.
Definition is_awaiting (i : istate) : bool := match i with ImportReading | ImportExited => true | _ => false end.

Lemma exiting_step n : ControlInv n → n_stopped n = false → exiting n → ∃ l n', internal_step n l n'.
Proof.
  intros Hc Hs [Hd|He]; do 2 eexists; [by apply loop_ctx_done|]. eapply loop_exit; [done|done|].
  unfold exitLoop, Wen.SetExitStatus. by rewrite (co_status _ Hc), Hs.
Qed.
Lemma busy_worker n m w :
  debugMode = SinkLoop → n_stopped n = false → ControlInv n → n_workers n !! m = Some w → is_reading w ≠ true →
  ∃ l n', internal_step n l n'.
Proof.
  intros Hd Hs Hc Hm Hw. destruct w as [|evs|evs|]; [done|..].
  - do 2 eexists. by eapply worker_process.
  - do 2 eexists. by eapply loop_from_worker.
  - apply exiting_step; [done..|by eapply co_exited].
Qed.
Lemma busy_importer n m i :
  debugMode = SinkLoop → n_stopped n = false → n_inputPaused n = false → n_importers n !! m = Some i →
  is_awaiting i ≠ true → ∃ l n', internal_step n l n'.
Proof.
  intros Hd Hs Hp Hm Hi. destruct i as [| |evs|]; try done; do 2 eexists; [by eapply importer_enabled|by eapply loop_from_importer].
Qed.

(** C22 (liveness).  A node never gets stuck: while it runs, one of its goroutines can take a step
    or it is quiescent, that is, every event was processed and all importers wait for their
    modules.  In particular, whenever the input is paused there are buffered events, so the
    input is resumed eventually: a valid configuration cannot block the node. *)
Theorem node_never_stuck modules0 initial n0 tr n :
  started modules0 initial n0 → node_run n0 tr n → debugMode = SinkLoop → n_stopped n = false →
  ((∃ l n', internal_step n l n') ∨ quiescent n) ∧
  (n_inputPaused n = true → ∃ m buffer, eb_buffers (n_pendingEvents n) !! m = Some buffer ∧ (0 < EventList.Len buffer)%Z).
Proof.
  intros [Hv H0]%started_inv Hr Hd Hs. destruct (mir_run_inv _ _ _ _ _ Hv H0 Hr) as [Hb Hw Hc].
  pose proof (paused_buffer n Hv (bi_ok _ _ _ Hb) Hc) as Hpb. split; [|exact Hpb].
  destruct (decide (map_Forall (λ _ w, is_reading w = true) (n_workers n))) as [Hwk|(m & w & Hm & Hmw)%map_not_Forall];
    [|by left; eapply busy_worker|apply _].
  destruct (decide (map_Forall (λ _ buffer, ¬ (0 < EventList.Len buffer)%Z) (eb_buffers (n_pendingEvents n))))
    as [Hbf|(m & buffer & Hm & Hl)%map_not_Forall]; [| |apply _].
  2: { left. apply dec_stable in Hl. assert (is_Some (n_workers n !! m)) as [w Hmw].
       { apply (wi_workers _ _ _ Hw), (wi_buffers _ _ _ Hw). by eexists. }
       pose proof (Hwk _ _ Hmw) as Hrd. destruct w; try done. do 2 eexists. eapply loop_dispatch; [done| |done].
       unfold eventBatch. rewrite Hm. simpl. by rewrite bool_decide_eq_true_2. }
  destruct (n_inputPaused n) eqn:Hp.
  { destruct (Hpb eq_refl) as (m & buffer & Hm & Hl). by specialize (Hbf _ _ Hm). }
  destruct (decide (map_Forall (λ _ i, is_awaiting i = true) (n_importers n))) as [Him|(m & i & Hm & Hmi)%map_not_Forall];
    [|by left; eapply busy_importer|apply _].
  right. split; [|intros m buffer Hm; by apply Len_nil, (Hbf _ _ Hm)|done|].
  - intros m w Hm. specialize (Hwk _ _ Hm). by destruct w.
  - intros m i Hm. specialize (Him _ _ Hm). destruct i; try done; auto.
Qed.

(** ** Shutdown *)
Definition worker_left (w : wstate) : nat :=
  match w with WorkerReading => 1 | WorkerProcessing _ => 3 | WorkerWriting _ => 2 | WorkerExited => 0 end.
Definition importer_left (i : istate) : nat :=
  match i with ImportWaiting => 3 | ImportReading => 2 | ImportWriting _ => 1 | ImportExited => 0 end.
Definition goroutines_left (n : Node) : nat :=
  map_fold (λ _ w k, worker_left w + k) 0 (n_workers n) + map_fold (λ _ i k, importer_left i + k) 0 (n_importers n).

Lemma left_update {A} (f : A → nat) (g : gmap string A) m a b :
  g !! m = Some a →
  f a + map_fold (λ _ x k, f x + k) 0 (<[m := b]> g) = f b + map_fold (λ _ x k, f x + k) 0 g.
Proof.
  intros Hm. rewrite <- (insert_delete_eq g m b). rewrite <- (insert_delete_id g m a Hm) at 2.
  rewrite !map_fold_insert_L by (try intros; try apply lookup_delete_eq; lia). lia.
Qed.
Lemma left_zero {A} (f : A → nat) (g : gmap string A) m a :
  map_fold (λ _ x k, f x + k) 0 g = 0 → g !! m = Some a → f a = 0.
Proof.
  intros Hz Hm. rewrite <- (insert_delete_id g m a Hm), map_fold_insert_L in Hz by (try intros; try apply lookup_delete_eq; lia).
  lia.
Qed.
Lemma left_pos {A} (f : A → nat) (g : gmap string A) :
  map_fold (λ _ x k, f x + k) 0 g ≠ 0 → ∃ m a, g !! m = Some a ∧ f a ≠ 0.
Proof.
  induction g as [|m a g Hm IH] using map_ind; [done|]. rewrite map_fold_insert_L by (try intros; try done; lia). intros Hne.
  destruct (decide (f a = 0)) as [Hz|]; [|exists m, a; by rewrite lookup_insert_eq].
  destruct IH as (m' & a' & Hl & ?); [lia|]. exists m', a'. split; [|done]. rewrite lookup_insert_ne; [done|congruence].
Qed.

Lemma left_worker n m w w' :
  n_workers n !! m = Some w → worker_left w' < worker_left w → goroutines_left (with_worker m w' n) < goroutines_left n.
Proof. intros Hm Hl. unfold goroutines_left. simpl. pose proof (left_update worker_left _ _ _ w' Hm). lia. Qed.
Lemma left_importer n m i i' :
  n_importers n !! m = Some i → importer_left i' < importer_left i →
  goroutines_left (with_importer m i' n) < goroutines_left n.
Proof. intros Hm Hl. unfold goroutines_left. simpl. pose proof (left_update importer_left _ _ _ i' Hm). lia. Qed.

Lemma internal_left modules0 tr n l n' :
  WorkerInv modules0 tr n → n_stopped n = true → internal_step n l n' →
  n_stopped n' = true ∧ goroutines_left n' < goroutines_left n.
Proof.
  intros Hw Hst Hs. destruct Hs as [n m evs Hs|n m evs Hs|n m batch Hs|n Hs|n n' Hs|n m evs Hm
    |n m w Hex Hm Hwt|n m Hm Hp|n m i Hex Hm Hit]; try congruence.
  - assert (is_Some (modules0 !! m)) as [[kind s] Hms] by (apply (wi_workers _ _ _ Hw); by eexists).
    destruct (processModuleEvents_spec m evs n kind _ (wi_state _ _ _ Hw _ _ _ Hms)) as (w & wn & _ & [Hnp _] & ->).
    split; [done|]. apply (left_worker (with_module m _ (with_notifier wn n)) m (WorkerProcessing evs)); [done|].
    destruct w; simpl; try lia. by edestruct Hnp.
  - split; [done|]. eapply left_worker; [done|]. destruct Hwt as [->|[? ->]]; simpl; lia.
  - split; [done|]. eapply left_importer; [done|]. simpl. lia.
  - split; [done|]. eapply left_importer; [done|]. destruct Hit as [->|[? ->]]; simpl; lia.
Qed.
Lemma external_left n l n' :
  debugMode = SinkLoop → n_stopped n = true → external_step n l n' →
  n_stopped n' = true ∧ goroutines_left n' ≤ goroutines_left n.
Proof.
  intros Hd Hst Hs. destruct Hs as [n evs Hs|n m evs Hm|n m Hm|n m evs Hdb|n m evs Hdb|n|n]; try congruence; try done;
    (split; [done|]); rewrite ?Hd; apply Nat.lt_le_incl, (left_importer n m ImportReading); try done; simpl; lia.
Qed.
(** The first error stays. *)
Lemma node_step_err modules0 tr n l n' :
  WorkerInv modules0 tr n → node_step n l n' →
  wen_err (n_workErrNotifier n) = None ∨ wen_err (n_workErrNotifier n') = wen_err (n_workErrNotifier n).
Proof.
  assert (∀ w w', wen_le w w' → wen_err w = None ∨ wen_err w' = wen_err w) as Hle.
  { intros w w' [->|[? _]]; auto. }
  assert (∀ evs n, n_workErrNotifier (receiveEvents evs n) = n_workErrNotifier n) as Hrecv.
  { intros evs n0. unfold receiveEvents. by case_bool_decide. }
  intros Hw [Hs|Hs].
  - destruct Hs as [n m evs _ _ _|n m evs _ _ _|n m batch _ _ _|n _ _|n n' _ _ He|n m evs Hm|n m w _ _ _|n m _ _|n m i _ _ _];
      try (by right); try (rewrite Hrecv; by right).
    + right. unfold dispatched. by case_bool_decide.
    + apply Hle, wen_le_Fail.
    + right. unfold exitLoop, Wen.SetExitStatus in He. destruct (wen_exitStatusC _); [done|]. by injection He as <-.
    + assert (is_Some (modules0 !! m)) as [[kind s] Hms] by (apply (wi_workers _ _ _ Hw); by eexists).
      destruct (processModuleEvents_spec m evs n kind _ (wi_state _ _ _ Hw _ _ _ Hms)) as (w & wn & ? & _ & ->). by apply Hle.
  - destruct Hs as [n evs _|n m evs _|n m _|n m evs _ _|n m evs _ _|n|n]; try (by right); [rewrite Hrecv; by right|].
    apply Hle, wen_le_Fail.
Qed.

(** C23 (termination).  A node that leaves its event loop shuts down: it does so because of an error,
    the first one that occurred, which is kept.  Afterwards every step of a worker or importer
    brings the end of its goroutine nearer, whatever active modules still output, and as long as
    a goroutine is left, one can take a step: waiting for all of them ends. *)
Theorem node_shuts_down modules0 initial n0 tr n :
  started modules0 initial n0 → node_run n0 tr n → debugMode = SinkLoop → n_stopped n = true →
  is_Some (wen_err (n_workErrNotifier n)) ∧
  (∀ l n', node_step n l n' → n_stopped n' = true ∧ wen_err (n_workErrNotifier n') = wen_err (n_workErrNotifier n) ∧
     goroutines_left n' ≤ goroutines_left n ∧ (internal_step n l n' → goroutines_left n' < goroutines_left n)) ∧
  (goroutines_left n = 0 ∧ (∀ m w, n_workers n !! m = Some w → w = WorkerExited) ∧
     (∀ m i, n_importers n !! m = Some i → i = ImportExited) ∨ ∃ l n', internal_step n l n').
Proof.
  intros [Hv H0]%started_inv Hr Hd Hs. destruct (mir_run_inv _ _ _ _ _ Hv H0 Hr) as [_ Hw Hc].
  pose proof (co_stopped _ Hc Hs) as Hex. assert (is_Some (wen_err (n_workErrNotifier n))) as [e He].
  { rewrite (co_exit _ Hc) in Hex. by apply bool_decide_eq_true in Hex. }
  split_and!; [by eexists| |].
  - intros l n' Hstep. destruct (node_step_err _ _ _ _ _ Hw Hstep) as [?|Herr]; [congruence|].
    destruct Hstep as [Hi|Hext].
    + destruct (internal_left _ _ _ _ _ Hw Hs Hi). split_and!; [done|done|lia|done].
    + destruct (external_left _ _ _ Hd Hs Hext). split_and!; [done|done|done|]. intros Hi. by eapply internal_left.
  - destruct (decide (map_fold (λ _ w k, worker_left w + k) 0 (n_workers n) = 0)) as [Hzw|(m & w & Hm & Hl)%left_pos].
    2: { right. destruct w; [| | |done]; do 2 eexists; try (by eapply worker_process);
         eapply worker_exit; eauto; by right. }
    destruct (decide (map_fold (λ _ i k, importer_left i + k) 0 (n_importers n) = 0)) as [Hzi|(m & i & Hm & Hl)%left_pos].
    2: { right. destruct i; [| | |done]; do 2 eexists; [|eapply importer_exit; eauto; by right..].
         eapply importer_enabled; [done|]. destruct (n_inputPaused n) eqn:Hp; [|done].
         destruct (co_paused _ Hc Hp). congruence. }
    left. split_and!; [unfold goroutines_left; lia|..].
    + intros m w Hm. pose proof (left_zero _ _ _ _ Hzw Hm). by destruct w.
    + intros m i Hm. pose proof (left_zero _ _ _ _ Hzi Hm). by destruct i.
Qed.
End node.

(** ** A concrete node

    A passive module that answers every event but Init with one for the submodule "x" of an active
    module. *)
Module NodeToy.
Definition Event : Type := string * nat.
Definition NewInit (m : string) : Event := (m, 0).
Definition config : NodeConfig := mkNodeConfig 2 3 1.
Definition modules : gmap string (module_kind * nat) := {[ "a" := (PassiveModule, 0); "b" := (ActiveModule, 0) ]}.
Definition passive_apply (_ : string) (evs : EventList.t Event) (s : nat) : outcome (EventList.t Event * nat) :=
  Ok (EventList.ListOf (omap (λ ev, if bool_decide (ev.2 = 0) then None else Some ("b/x", ev.2)) (EventList.events evs)),
      s + length (EventList.events evs)).
Definition active_apply (_ : string) (evs : EventList.t Event) (s : nat) : outcome nat :=
  if bool_decide (("b/x", 2) ∈ EventList.events evs) then Err "two" else Ok (s + length (EventList.events evs)).
Notation run := (node_run fst config SinkLoop passive_apply active_apply None).
Notation start := (started fst NewInit config modules).
Definition input : EventList.t Event := EventList.ListOf [("a", 1); ("c", 5); ("a", 2)].
Definition n0 : Node :=
  Run fst NewInit range_id (mkNode (newEventBuffer modules) false Wen.newWorkErrNotifier modules ∅ ∅ false false).

Lemma n0_started : start (EventList.events (createInitEvents NewInit range_id modules)) n0.
Proof. by apply started_Run. Defined.

(** One more step of a run, with the new state evaluated. *)
Ltac evaluate Hr :=
  lazymatch type of Hr with
  | node_run _ _ _ _ _ _ _ _ ?n =>
      let n' := eval vm_compute in n in
      let H := fresh in
      assert (n = n') as H by (vm_compute; reflexivity); rewrite H in Hr; clear H
  end.
Tactic Notation "go" ident(Hr) tactic3(step) := eapply run_step in Hr; [|step]; evaluate Hr.

(** Init events are processed, events are injected, and the module "a" answers them. *)
Lemma serving : ∃ tr n, run n0 tr n ∧ n_stopped n = false ∧ processed_by "a" tr = [EventList.ListOf [NewInit "a"]; EventList.ListOf [("a", 1); ("a", 2)]] ∧
  n_workers n !! "a" = Some (WorkerWriting (EventList.ListOf [("b/x", 1); ("b/x", 2)])).
Proof.
  assert (run n0 [] n0) as Hr by constructor.
  set (start := n0) in Hr at 1. evaluate Hr.
  go Hr (left; by eapply (loop_dispatch _ _ _ _ _ _ _ "a")).
  go Hr (left; by eapply (worker_process _ _ _ _ _ _ _ "a")).
  go Hr (right; by eapply (env_inject _ _ _ _ input)).
  go Hr (left; by eapply (loop_dispatch _ _ _ _ _ _ _ "a")).
  go Hr (left; by eapply (worker_process _ _ _ _ _ _ _ "a")).
  do 2 eexists. split; [exact Hr|]. split_and!; reflexivity.
Qed.

(** The module "b" fails on an event, and the loop ends. *)
Lemma failing : ∃ tr n, run n0 tr n ∧ n_stopped n = true ∧
  wen_err (n_workErrNotifier n) = Some "could not process PassiveModule (b) events: two".
Proof.
  assert (run n0 [] n0) as Hr by constructor.
  set (start := n0) in Hr at 1. evaluate Hr.
  go Hr (right; by eapply (env_inject _ _ _ _ (EventList.ListOf [("b/x", 2)]))).
  go Hr (left; by eapply (loop_dispatch _ _ _ _ _ _ _ "b")).
  go Hr (left; by eapply (worker_process _ _ _ _ _ _ _ "b")).
  go Hr (left; by eapply loop_exit).
  do 2 eexists. split; [exact Hr|]. split; reflexivity.
Qed.
End NodeToy.

Lemma node_delivers_in_order_witness :
  ∃ tr n buffer w, node_run fst NodeToy.config SinkLoop NodeToy.passive_apply NodeToy.active_apply None NodeToy.n0 tr n ∧
    eb_buffers (n_pendingEvents n) !! "a" = Some buffer ∧ n_workers n !! "a" = Some w ∧
    n_modules n !! "a" = Some (PassiveModule,
      replay NodeToy.passive_apply NodeToy.active_apply "a" PassiveModule 0 (processed_by "a" tr)).
Proof.
  destruct NodeToy.serving as (tr & n & Hr & _).
  destruct (node_delivers_in_order _ _ _ _ _ _ _ _ _ _ _ _ "a" PassiveModule 0 NodeToy.n0_started Hr ltac:(reflexivity))
    as (buffer & w & Hb & Hw & _ & _ & Hm).
  exists tr, n, buffer, w. split_and!; [exact Hr|exact Hb|exact Hw|exact Hm].
Defined.

Lemma node_never_stuck_witness :
  ∃ tr n, node_run fst NodeToy.config SinkLoop NodeToy.passive_apply NodeToy.active_apply None NodeToy.n0 tr n ∧
    ((∃ l n', internal_step fst NodeToy.config SinkLoop NodeToy.passive_apply NodeToy.active_apply None n l n') ∨ quiescent n).
Proof.
  destruct NodeToy.serving as (tr & n & Hr & Hs & _). exists tr, n. split; [exact Hr|].
  apply (node_never_stuck _ _ _ _ _ _ _ _ _ _ _ _ NodeToy.n0_started Hr eq_refl Hs).
Defined.

Lemma node_shuts_down_witness :
  ∃ tr n, node_run fst NodeToy.config SinkLoop NodeToy.passive_apply NodeToy.active_apply None NodeToy.n0 tr n ∧
    n_stopped n = true ∧ is_Some (wen_err (n_workErrNotifier n)).
Proof.
  destruct NodeToy.failing as (tr & n & Hr & Hs & _). exists tr, n. split; [exact Hr|]. split; [exact Hs|].
  apply (node_shuts_down _ _ _ _ _ _ _ _ _ _ _ _ NodeToy.n0_started Hr eq_refl Hs).
Defined.
