(* ===== verification/Crypto.v ===== *)
(** * pkg/crypto and pkg/threshcrypto: the modules that hash, sign and verify

    Models crypto.go, the module part of hasher.go and threshcrypto.go; the hash function and the
    signature schemes are parameters.  The crypto module answers requests to sign and to verify with a [Crypto] implementation, here the
    classes [Signer] and [Verifier].  What it answers is what the checkpoint protocol, the availability
    layer, the orderers and the broadcast assume of signature checks. *)
From Stdlib Require Import ZArith Lia.
From stdpp Require Import prelude strings list.
From S2P Require Import Prelude Util PbftTypes Membership Orderer Checkpoint EventProcessing.

Class Signer := { signer_Sign : list bytes → outcome bytes }.

Module Crypto.
(** The origin of a request: the module to answer and a context. *)
Inductive event {Origin : Type} :=
| Init
| SignRequest (data : list bytes) (origin : Origin)
| VerifySigs (data : list (list bytes)) (signatures : list bytes) (nodeIDs : list NodeID) (origin : Origin)
| VerifySig (data : list bytes) (signature : bytes) (nodeID : NodeID) (origin : Origin)
| OtherEvent.
Arguments event : clear implicits.
Inductive answer {Origin : Type} :=
| SignResult (signature : bytes) (origin : Origin)
| SigsVerified (origin : Origin) (nodeIDs : list NodeID) (errors : list (option string)) (allOK : bool)
| SigVerified (origin : Origin) (nodeID : NodeID) (err : option string).
Arguments answer : clear implicits.

Section crypto.
Context {signer : Signer} {sigs : Verifier} {Origin : Type}.

(** An error returned by [Verify], as a value. *)
Definition verify_error (data : list bytes) (signature : bytes) (nodeID : NodeID) : outcome (option string) :=
  match verifier_Verify data signature nodeID with
  | Ok _ => Ok None
  | Err e => Ok (Some e)
  | Panic p => Panic p
  end.

(** The loop over the data; signatures and node identifiers are accessed by index. *)
Fixpoint verify_loop (i : Z) (data : list (list bytes)) (signatures : list bytes) (nodeIDs : list NodeID)
    : outcome (list (option string) * bool) :=
  match data with
  | [] => Ok ([], true)
  | d :: data =>
      signature ← index signatures i;
      nodeID ← index nodeIDs i;
      err ← verify_error d signature nodeID;
      r ← verify_loop (i + 1) data signatures nodeIDs;
      let '(errors, allOK) := r in Ok (err :: errors, bool_decide (err = None) && allOK)
  end.

Definition ApplyEvent (ev : event Origin) : outcome (list (answer Origin)) :=
  match ev with
  | Init => Ok []
  | SignRequest data origin => signature ← signer_Sign data; Ok [SignResult signature origin]
  | VerifySigs data signatures nodeIDs origin =>
      r ← verify_loop 0 data signatures nodeIDs;
      let '(errors, allOK) := r in Ok [SigsVerified origin nodeIDs errors allOK]
  | VerifySig data signature nodeID origin =>
      err ← verify_error data signature nodeID; Ok [SigVerified origin nodeID err]
  | OtherEvent => Err "unexpected type of MirModule event"
  end.

Lemma verify_loop_spec i data signatures nodeIDs errors allOK :
  (0 ≤ i)%Z → verify_loop i data signatures nodeIDs = Ok (errors, allOK) →
  length errors = length data ∧
  (allOK = true ↔ ∀ k d, data !! k = Some d → ∃ sig id, signatures !! (Z.to_nat i + k) = Some sig ∧
     nodeIDs !! (Z.to_nat i + k) = Some id ∧ verifier_Verify d sig id = Ok tt).
Proof.
  revert i errors allOK. induction data as [|d data IH]; intros i errors allOK Hi; cbn [verify_loop].
  { intros [= <- <-]. split; [done|]. by split. }
  intros Hv. outcome_inv. repeat match goal with x : _ * _ |- _ => destruct x end. simplify_eq.
  match goal with
  | H1 : index signatures i = Ok ?sig, H2 : index nodeIDs i = Ok ?id, H3 : verify_error d ?sig ?id = Ok ?err,
    H4 : verify_loop (i + 1) _ _ _ = Ok (?errs, ?ok) |- _ =>
      apply index_lookup in H1 as [_ Hsig], H2 as [_ Hid]; rename H3 into Herr;
      destruct (IH (i + 1)%Z errs ok ltac:(lia) H4) as [Hl Hall]
  end.
  assert (Z.to_nat (i + 1) = S (Z.to_nat i)) as Hs by lia. rewrite Hs in Hall. split; [simpl; by rewrite Hl|].
  rewrite andb_true_iff, bool_decide_eq_true, Hall. unfold verify_error in Herr. split.
  - intros [-> Hk] [|k] d'; simpl.
    + intros [= <-]. rewrite Nat.add_0_r. do 2 eexists. split_and!; [done..|]. by destruct (verifier_Verify _ _ _) as [[]| |].
    + intros Hd. destruct (Hk k d' Hd) as (sig & id & H1 & H2 & H3). exists sig, id. by rewrite <- !plus_n_Sm in *.
  - intros Hk. split.
    + destruct (Hk 0 d eq_refl) as (sig & id & H1 & H2 & H3). rewrite Nat.add_0_r in H1, H2. simplify_eq.
      rewrite H3 in Herr. by injection Herr as <-.
    + intros k d' Hd. destruct (Hk (S k) d' Hd) as (sig & id & H1 & H2 & H3). exists sig, id.
      by rewrite <- !plus_n_Sm in *.
Qed.
Lemma verify_loop_total i data signatures nodeIDs :
  (0 ≤ i)%Z → (∀ d sig id p, verifier_Verify d sig id ≠ Panic p) →
  Z.to_nat i + length data ≤ length signatures → Z.to_nat i + length data ≤ length nodeIDs →
  ∃ errors allOK, verify_loop i data signatures nodeIDs = Ok (errors, allOK).
Proof.
  intros Hi Hv. revert i Hi. induction data as [|d data IH]; intros i Hi Hs Hn; cbn [verify_loop]; simpl in *; [by do 2 eexists|].
  destruct (lookup_lt_is_Some_2 signatures (Z.to_nat i)) as [sig Hsig]; [lia|].
  destruct (lookup_lt_is_Some_2 nodeIDs (Z.to_nat i)) as [id Hid]; [lia|].
  rewrite (proj2 (index_lookup signatures i sig)) by done. cbn [mbind outcome_bind].
  rewrite (proj2 (index_lookup nodeIDs i id)) by done. cbn [mbind outcome_bind].
  destruct (IH (i + 1)%Z) as (errors & allOK & ->); [lia..|]. unfold verify_error.
  destruct (verifier_Verify d sig id) as [[]|e|p] eqn:E; [by do 2 eexists..|by edestruct Hv].
Qed.
End crypto.
End Crypto.

(** The crypto module keeps its promise: a batch of signatures is reported as valid
    exactly if every signature is the node's on the data, provided that there are as many signatures and
    nodes as data. *)
Theorem crypto_verifies {signer : Signer} {sigs : Verifier} {Origin} data signatures nodeIDs (origin : Origin) :
  (∀ d sig id p, verifier_Verify d sig id ≠ Panic p) →
  (length data ≤ length signatures → length data ≤ length nodeIDs →
   ∃ errors allOK, Crypto.ApplyEvent (Crypto.VerifySigs data signatures nodeIDs origin) =
       Ok [Crypto.SigsVerified origin nodeIDs errors allOK] ∧ length errors = length data ∧
     (allOK = true ↔ ∀ k d, data !! k = Some d → ∃ sig id, signatures !! k = Some sig ∧ nodeIDs !! k = Some id ∧
        verifier_Verify d sig id = Ok tt)).
Proof.
  intros Hv Hs Hn. destruct (Crypto.verify_loop_total 0 data signatures nodeIDs) as (errors & allOK & Hl); [done..|].
  exists errors, allOK. cbn [Crypto.ApplyEvent]. rewrite Hl. split; [done|].
  by apply (Crypto.verify_loop_spec 0).
Qed.

(** ** pkg/crypto/hasher.go *)
Module HasherModule.
Inductive event {Origin : Type} :=
| Init
| Request (data : list (list bytes)) (origin : Origin)
| RequestOne (data : list bytes) (origin : Origin)
| OtherEvent.
Arguments event : clear implicits.
Inductive answer {Origin : Type} :=
| Result (digests : list bytes) (origin : Origin)
| ResultOne (digest : bytes) (origin : Origin).
Arguments answer : clear implicits.

Definition ApplyEvent `{!HashImpl} {Origin} (ev : event Origin) : outcome (list (answer Origin)) :=
  match ev with
  | Init => Ok []
  | Request data origin => Ok [Result (Hasher.computeDigests data) origin]
  | RequestOne data origin => digest ← index (Hasher.computeDigests [data]) 0; Ok [ResultOne digest origin]
  | OtherEvent => Err "unexpected type of Hash event"
  end.

(** The answer that is due. *)
Definition answer_of `{!HashImpl} {Origin} (ev : event Origin) : list (answer Origin) :=
  match ev with
  | Init | OtherEvent => []
  | Request data origin => [Result ((λ d, Some (hash_Sum (Serialization.concat_bytes d))) <$> data) origin]
  | RequestOne data origin => [ResultOne (Some (hash_Sum (Serialization.concat_bytes data))) origin]
  end.
End HasherModule.

(** The hasher computes concurrently and answers in order: whatever the interleaving of its
    goroutines, it returns, and what it returns are the hashes of the data of every request, one answer
    for each request in the order of the requests. *)
Theorem hasher_answers_in_order `{!HashImpl} {Origin} (evs : list (HasherModule.event Origin)) n c :
  HasherModule.OtherEvent ∉ evs → nsteps (conc_step HasherModule.ApplyEvent) n (conc_start evs) c →
  (∃ c', conc_step HasherModule.ApplyEvent c c') ∨ conc_return evs c = Some (Ok (evs ≫= HasherModule.answer_of)).
Proof.
  intros Ho (_ & [?|Hr] & _)%conc_run_result; [by left|]. right. rewrite Hr. f_equal. clear Hr.
  unfold conc_result_of. induction evs as [|ev evs IH]; [done|]. apply not_elem_of_cons in Ho as [Hne Ho]. specialize (IH Ho).
  cbn [in_order mbind list_bind]. destruct (in_order _ evs) as [out [e|]]; simplify_eq/=. by destruct ev.
Qed.

(** ** pkg/threshcrypto/threshcrypto.go *)
Class ThreshCrypto := {
  tc_SignShare : list bytes → outcome bytes;
  tc_VerifyShare : list bytes → bytes → NodeID → outcome unit;
  tc_VerifyFull : list bytes → bytes → outcome unit;
  tc_Recover : list bytes → list bytes → outcome bytes;
}.
Module Thresh.
Inductive event {Origin : Type} :=
| Init
| SignShare (data : list bytes) (origin : Origin)
| VerifyShare (data : list bytes) (share : bytes) (nodeID : NodeID) (origin : Origin)
| VerifyFull (data : list bytes) (full : bytes) (origin : Origin)
| Recover (data : list bytes) (shares : list bytes) (origin : Origin)
| OtherEvent.
Arguments event : clear implicits.
Inductive answer {Origin : Type} :=
| SignShareResult (share : bytes) (origin : Origin)
| VerifyShareResult (ok : bool) (err : string) (origin : Origin)
| VerifyFullResult (ok : bool) (err : string) (origin : Origin)
| RecoverResult (full : bytes) (ok : bool) (err : string) (origin : Origin).
Arguments answer : clear implicits.

Section thresh.
Context {tc : ThreshCrypto} {Origin : Type}.
(** The result of a check and its error as a string, empty for none. *)
Definition ok_err {A} (r : outcome A) : outcome (option A * bool * string) :=
  match r with Ok a => Ok (Some a, true, EmptyString) | Err e => Ok (None, false, e) | Panic p => Panic p end.

Definition applyTCEvent (ev : event Origin) : outcome (list (answer Origin)) :=
  match ev with
  | SignShare data origin => sigShare ← tc_SignShare data; Ok [SignShareResult sigShare origin]
  | VerifyShare data share nodeID origin =>
      r ← ok_err (tc_VerifyShare data share nodeID);
      let '(_, ok, errStr) := r in Ok [VerifyShareResult ok errStr origin]
  | VerifyFull data full origin =>
      r ← ok_err (tc_VerifyFull data full);
      let '(_, ok, errStr) := r in Ok [VerifyFullResult ok errStr origin]
  | Recover data shares origin =>
      r ← ok_err (tc_Recover data shares);
      let '(fullSig, ok, errStr) := r in Ok [RecoverResult (default None fullSig) ok errStr origin]
  | Init | OtherEvent => Err "unexpected type of threshcrypto event in threshcrypto MirModule"
  end.
Definition ApplyEvent (ev : event Origin) : outcome (list (answer Origin)) :=
  match ev with
  | Init => Ok []
  | OtherEvent => Err "unexpected type of event in threshcrypto MirModule"
  | _ => applyTCEvent ev
  end.
End thresh.
End Thresh.
