(* ===== verification/Bcb.v ===== *)
(** * pkg/bcb: Byzantine consistent broadcast

    Models bcbmodule.go, the Signed Echo Broadcast: one definition per handler, the handler of
    [UponStateUpdates] after every list of events.  Signatures are checked by the crypto module.
    The result of a signature request carries the request it answers, as its context identifies it. *)
From Stdlib Require Import ZArith Lia.
From stdpp Require Import prelude gmap strings list fin_maps fin_sets.
From S2P Require Import Prelude Util Membership PbftTypes Orderer ModuleRuns Checkpoint Crypto.
Import Maputil.

Record BcbConfig := mkBcbConfig { bcb_Self : string; Consumer : string; bcb_Net : string; bcb_Crypto : string }.
Record BcbParams := mkBcbParams { bcb_InstanceUID : bytes; AllNodes : list NodeID; bcb_Leader : NodeID }.

(** [receivedEcho] maps to true only: it is a set. *)
Record bcbModuleState := mkBcbModuleState {
  bcb_request : bytes; sentEcho : bool; sentFinal : bool; bcb_delivered : bool;
  receivedEcho : gset NodeID; echoSigs : gmap NodeID bytes;
}.

Inductive bcb_message :=
| StartMessage (data : bytes)
| EchoMessage (signature : bytes)
| FinalMessage (data : bytes) (signers : list NodeID) (signatures : list bytes).

Inductive bcb_event :=
| BcbSendMessage (msg : bcb_message) (destinations : list NodeID)
| BcbSignRequest (data : list bytes)
| BcbVerifySig (data : list bytes) (signature : bytes) (nodeID : NodeID)
| BcbVerifySigs (data : list (list bytes)) (signatures : list bytes) (nodeIDs : list NodeID) (context : bytes)
| BcbDeliver (dest : string) (data : bytes).

(** The context of a single signature is the signature. *)
Inductive bcb_input :=
| BcbInRequest (data : bytes)
| BcbInMessage (from : NodeID) (msg : bcb_message)
| BcbInSignResult (signature : bytes) (request : list bytes)
| BcbInSigVerified (nodeID : NodeID) (err : option string) (context : bytes)
| BcbInSigsVerified (allOK : bool) (context : bytes).

Module Bcb.
Notation BCB := (M bcbModuleState bcb_event).

Definition set_request r (st : bcbModuleState) : bcbModuleState :=
  mkBcbModuleState r (sentEcho st) (sentFinal st) (bcb_delivered st) (receivedEcho st) (echoSigs st).
Definition set_flags e f d (st : bcbModuleState) : bcbModuleState :=
  mkBcbModuleState (bcb_request st) e f d (receivedEcho st) (echoSigs st).
Definition set_echos r s (st : bcbModuleState) : bcbModuleState :=
  mkBcbModuleState (bcb_request st) (sentEcho st) (sentFinal st) (bcb_delivered st) r s.

Definition GetN (params : BcbParams) : Z := Z.of_nat (length (AllNodes params)).
Definition GetF (params : BcbParams) : Z := Z.quot (GetN params - 1) 3.
Definition echo_data (params : BcbParams) (data : bytes) : list bytes := [bcb_InstanceUID params; Some "ECHO"; data].

Definition NewModule : bcbModuleState := mkBcbModuleState None false false false ∅ ∅.

Section bcb.
Context (mc : BcbConfig) (params : BcbParams) (nodeID : NodeID).

(** More than (N+f)/2. *)
Definition have_quorum (n : Z) : bool := bool_decide (Z.quot (GetN params + GetF params) 2 < n)%Z.

Definition UponBroadcastRequest (data : bytes) : BCB unit :=
  if bool_decide (nodeID ≠ bcb_Leader params) then lift (Err "only the leader node can receive requests")
  else
    modify (set_request data);;
    emit (BcbSendMessage (StartMessage data) (AllNodes params)).

Definition UponStartMessageReceived (from : NodeID) (data : bytes) : BCB unit :=
  st ← get;
  if bool_decide (from = bcb_Leader params) && negb (sentEcho st) then emit (BcbSignRequest (echo_data params data))
  else skip.

Definition UponSignResult (signature : bytes) : BCB unit :=
  st ← get;
  if negb (sentEcho st) then
    modify (λ st, set_flags true (sentFinal st) (bcb_delivered st) st);;
    emit (BcbSendMessage (EchoMessage signature) [bcb_Leader params])
  else skip.

Definition UponEchoMessageReceived (from : NodeID) (signature : bytes) : BCB unit :=
  st ← get;
  if bool_decide (nodeID = bcb_Leader params) && bool_decide (from ∉ receivedEcho st) &&
     bool_decide (bcb_request st ≠ None) then
    modify (λ st, set_echos ({[from]} ∪ receivedEcho st) (echoSigs st) st);;
    emit (BcbVerifySig (echo_data params (bcb_request st)) signature from)
  else skip.

Definition UponSigVerified (id : NodeID) (err : option string) (context : bytes) : BCB unit :=
  match err with
  | None => modify (λ st, set_echos (receivedEcho st) (<[id := context]> (echoSigs st)) st)
  | Some _ => skip
  end.

Definition UponStateUpdates : BCB unit :=
  st ← get;
  if have_quorum (Z.of_nat (size (echoSigs st))) && negb (sentFinal st) then
    modify (λ st, set_flags (sentEcho st) true (bcb_delivered st) st);;
    let '(certSigners, certSignatures) := GetKeysAndValues (echoSigs st) in
    emit (BcbSendMessage (FinalMessage (bcb_request st) certSigners certSignatures) (AllNodes params))
  else skip.

Definition UponFinalMessageReceived (data : bytes) (signers : list NodeID) (signatures : list bytes) : BCB unit :=
  st ← get;
  if bool_decide (length signers = length signatures) && have_quorum (Z.of_nat (length signers)) &&
     negb (bcb_delivered st) then
    sigMsgs ← lift (Sliceutil.Repeat (echo_data params data) (Z.of_nat (length signers)));
    emit (BcbVerifySigs sigMsgs signatures signers data)
  else skip.

Definition UponSigsVerified (allOK : bool) (context : bytes) : BCB unit :=
  st ← get;
  if allOK && negb (bcb_delivered st) then
    modify (λ st, set_flags (sentEcho st) (sentFinal st) true st);;
    emit (BcbDeliver (Consumer mc) context)
  else skip.

Definition bcb_handle (i : bcb_input) : BCB unit :=
  match i with
  | BcbInRequest data => UponBroadcastRequest data
  | BcbInMessage from (StartMessage data) => UponStartMessageReceived from data
  | BcbInMessage from (EchoMessage signature) => UponEchoMessageReceived from signature
  | BcbInMessage from (FinalMessage data signers signatures) => UponFinalMessageReceived data signers signatures
  | BcbInSignResult signature _ => UponSignResult signature
  | BcbInSigVerified id err context => UponSigVerified id err context
  | BcbInSigsVerified allOK context => UponSigsVerified allOK context
  end.

(** [ApplyEvents]: the handlers of a list of events, then the condition on the state. *)
Definition bcb_apply (_ : go_range) (evs : list bcb_input) : BCB unit :=
  mfor evs bcb_handle;; UponStateUpdates.
End bcb.
End Bcb.
Import Bcb.

(** What the crypto module promises; requests are answered after the list of events that made them. *)
Definition bcb_answers {sigs : Verifier} (out : list bcb_event) (evs : list bcb_input) : Prop :=
  ∀ i, i ∈ evs →
  match i with
  | BcbInSignResult _ request => BcbSignRequest request ∈ out
  | BcbInSigVerified id err context => ∃ data, BcbVerifySig data context id ∈ out ∧
      (err = None → verifier_Verify data context id = Ok tt)
  | BcbInSigsVerified allOK context => ∃ data signatures ids, BcbVerifySigs data signatures ids context ∈ out ∧
      (allOK = true → ∀ k d, data !! k = Some d → ∃ sig id, signatures !! k = Some sig ∧ ids !! k = Some id ∧
         verifier_Verify d sig id = Ok tt)
  | _ => True
  end.

Notation bcb_run mc params nodeID := (reach (bcb_apply mc params nodeID) bcb_answers NewModule).

(** The first signature that a node received from its crypto module, and what was signed: the only one it sends. *)
Definition signed (i : bcb_input) : option (bytes * list bytes) :=
  match i with BcbInSignResult sig request => Some (sig, request) | _ => None end.
Definition echoed (ins : list (list bcb_input)) : option (bytes * list bytes) := head (omap signed (concat ins)).

Definition echo_message (ev : bcb_event) : option (bytes * list NodeID) :=
  match ev with BcbSendMessage (EchoMessage sig) dests => Some (sig, dests) | _ => None end.
Definition delivery (ev : bcb_event) : option bytes := match ev with BcbDeliver _ data => Some data | _ => None end.

Section inv.
Context {sigs : Verifier} (mc : BcbConfig) (params : BcbParams) (nodeID : NodeID).

(** A valid certificate for [data], as received from another node. *)
Definition certified (ins : list bcb_input) (data : bytes) : Prop :=
  ∃ from signers signatures, BcbInMessage from (FinalMessage data signers signatures) ∈ ins ∧
    have_quorum params (Z.of_nat (length signers)) = true ∧
    ∀ k id, signers !! k = Some id → ∃ sig, signatures !! k = Some sig ∧
      verifier_Verify (echo_data params data) sig id = Ok tt.

(** What the node signs, has checked and sends. *)
Definition bcb_event_ok (ins : list bcb_input) (ev : bcb_event) : Prop :=
  match ev with
  | BcbSignRequest data =>
      ∃ m, data = echo_data params m ∧ BcbInMessage (bcb_Leader params) (StartMessage m) ∈ ins
  | BcbVerifySigs data signatures ids context =>
      ∃ from, BcbInMessage from (FinalMessage context ids signatures) ∈ ins ∧ length ids = length signatures ∧
        have_quorum params (Z.of_nat (length ids)) = true ∧ data = replicate (length ids) (echo_data params context)
  | BcbVerifySig data sig id => ∃ m, data = echo_data params m ∧ BcbInRequest m ∈ ins
  | BcbSendMessage (FinalMessage data signers signatures) dests =>
      NoDup signers ∧ length signers = length signatures ∧ have_quorum params (Z.of_nat (length signers)) = true ∧
      BcbInRequest data ∈ ins ∧ dests = AllNodes params ∧
      ∀ k id sig, signers !! k = Some id → signatures !! k = Some sig →
        ∃ m, BcbInRequest m ∈ ins ∧ verifier_Verify (echo_data params m) sig id = Ok tt
  | _ => True
  end.

Record BcbInv (st : bcbModuleState) (ins : list bcb_input) (out : list bcb_event) : Prop := {
  bc_delivered : bcb_delivered st = bool_decide (omap delivery out ≠ []);
  bc_once : length (omap delivery out) ≤ 1;
  bc_certified data : data ∈ omap delivery out → certified ins data;
  bc_echo : omap echo_message out = (λ x, (x.1, [bcb_Leader params])) <$> option_list (head (omap signed ins));
  bc_sentEcho : sentEcho st = bool_decide (is_Some (head (omap signed ins)));
  bc_request : (bcb_request st = None ∧ ∀ m, BcbInRequest m ∉ ins) ∨ BcbInRequest (bcb_request st) ∈ ins;
  bc_echoSigs id sig : echoSigs st !! id = Some sig →
    ∃ m, BcbInRequest m ∈ ins ∧ verifier_Verify (echo_data params m) sig id = Ok tt;
  bc_out ev : ev ∈ out → bcb_event_ok ins ev;
}.

Lemma bcb_event_ok_mono ins ins' ev : ins ⊆ ins' → bcb_event_ok ins ev → bcb_event_ok ins' ev.
Proof.
  intros Hs. destruct ev as [[|?|?]| | | |]; simpl; naive_solver.
Qed.
Lemma bcb_certified_mono ins ins' data : ins ⊆ ins' → certified ins data → certified ins' data.
Proof. intros Hs (from & signers & signatures & H1 & H2 & H3). exists from, signers, signatures. auto. Qed.

(** One more input that is not a signature. *)
Lemma BcbInv_input st ins out i :
  BcbInv st ins out → signed i = None → (∀ m, i ≠ BcbInRequest m) → BcbInv st (ins ++ [i]) out.
Proof.
  intros [H1 H2 H3 H4 H5 H6 H7 H8] Hi Hn. assert (ins ⊆ ins ++ [i]) as Hs by (intros x; set_solver).
  assert (omap signed (ins ++ [i]) = omap signed ins) as Hom by (rewrite omap_app; simpl; by rewrite Hi, app_nil_r).
  split; rewrite ?Hom; try done.
  - intros data Hd. eapply bcb_certified_mono; [exact Hs|auto].
  - destruct H6 as [[H6 H6']|]; [left|by auto]. split; [done|].
    intros m [?| ?%list_elem_of_singleton]%elem_of_app; [by eapply H6'|by eapply Hn].
  - intros id sig Hid. destruct (H7 _ _ Hid) as (m & ? & ?). exists m. auto.
  - intros ev Hev. eapply bcb_event_ok_mono; [exact Hs|auto].
Qed.
(** One more event, that is neither an echo nor a delivery. *)
Lemma BcbInv_emit st ins out ev :
  BcbInv st ins out → bcb_event_ok ins ev → echo_message ev = None → delivery ev = None → BcbInv st ins (out ++ [ev]).
Proof.
  intros [H1 H2 H3 H4 H5 H6 H7 H8] Hok He Hd.
  assert (omap echo_message (out ++ [ev]) = omap echo_message out) as E1 by (rewrite omap_app; simpl; by rewrite He, app_nil_r).
  assert (omap delivery (out ++ [ev]) = omap delivery out) as E2 by (rewrite omap_app; simpl; by rewrite Hd, app_nil_r).
  split; rewrite ?E1, ?E2; try done. intros ev' [?| ->%list_elem_of_singleton]%elem_of_app; auto.
Qed.

Lemma UponSignResult_inv sig request st ins out :
  BcbInv st ins out →
  wp (UponSignResult params sig) (λ _ st' out', BcbInv st' (ins ++ [BcbInSignResult sig request]) out') st out.
Proof.
  intros [H1 H2 H3 H4 H5 H6 H7 H8]. unfold UponSignResult.
  set (i := BcbInSignResult sig request). assert (ins ⊆ ins ++ [i]) as Hs by (intros x; set_solver).
  assert (omap signed (ins ++ [i]) = omap signed ins ++ [(sig, request)]) as Hom by (by rewrite omap_app).
  repeat wp_step; simpl; match goal with H : negb _ = _ |- _ => rename H into Hse end; rewrite H5 in Hse.
  - apply negb_true_iff, bool_decide_eq_false in Hse.
    assert (omap signed ins = []) as Hnil by (destruct (omap signed ins); [done|by edestruct Hse]).
    rewrite Hnil in H4. split; simpl; rewrite ?Hom, ?Hnil, ?omap_app; simpl; rewrite ?app_nil_r; try done.
    + intros data Hd. eapply bcb_certified_mono; [exact Hs|auto].
    + by rewrite H4.
    + destruct H6 as [[H6 H6']|]; [left|by auto]. split; [done|]. subst i. set_solver.
    + intros id s Hid. destruct (H7 _ _ Hid) as (m & ? & ?). exists m. auto.
    + intros ev [?| ->%list_elem_of_singleton]%elem_of_app; [|done]. eapply bcb_event_ok_mono; [exact Hs|auto].
  - apply negb_false_iff, bool_decide_eq_true in Hse.
    assert (head (omap signed (ins ++ [i])) = head (omap signed ins)) as Hhd.
    { rewrite Hom. destruct (omap signed ins); [by destruct Hse|done]. }
    split; rewrite ?Hhd; try done.
    + intros data Hd. eapply bcb_certified_mono; [exact Hs|auto].
    + destruct H6 as [[H6 H6']|]; [left|by auto]. split; [done|]. subst i. set_solver.
    + intros id s Hid. destruct (H7 _ _ Hid) as (m & ? & ?). exists m. auto.
    + intros ev Hev. eapply bcb_event_ok_mono; [exact Hs|auto].
Qed.

Lemma bcb_UponSigsVerified_inv allOK context st ins out :
  BcbInv st ins out → bcb_answers out [BcbInSigsVerified allOK context] →
  wp (UponSigsVerified mc allOK context) (λ _ st' out', BcbInv st' ins out') st out.
Proof.
  intros Hi Ha. destruct (Ha _ ltac:(by left)) as (data & signatures & ids & Hin & Hok).
  apply (bc_out _ _ _ Hi) in Hin as (from & Hfm & Hlen & Hq & ->). destruct Hi as [H1 H2 H3 H4 H5 H6 H7 H8].
  unfold UponSigsVerified. repeat wp_step; [|by split].
  match goal with H : _ && _ = true |- _ => apply andb_true_iff in H as [-> Hd] end.
  apply negb_true_iff in Hd. rewrite Hd in H1. symmetry in H1. apply bool_decide_eq_false, dec_stable in H1.
  split; simpl; rewrite ?omap_app, ?H1; simpl; rewrite ?app_nil_r; try done.
  - intros data ->%list_elem_of_singleton. exists from, ids, signatures. split_and!; [done|done|].
    intros k id Hk. destruct (Hok eq_refl k (echo_data params context)) as (sig & id' & Hs & Hid & Hv).
    { apply lookup_replicate_2. by eapply lookup_lt_Some. }
    simplify_eq. by exists sig.
  - intros ev [?| ->%list_elem_of_singleton]%elem_of_app; auto. done.
Qed.

Lemma UponFinal_inv from data signers signatures st ins out :
  BcbInv st ins out → BcbInMessage from (FinalMessage data signers signatures) ∈ ins →
  wp (UponFinalMessageReceived params data signers signatures) (λ _ st' out', BcbInv st' ins out') st out.
Proof.
  intros Hi Hin. unfold UponFinalMessageReceived. repeat wp_step; [|done].
  match goal with H : _ && _ = true |- _ => apply andb_true_iff in H as [[Hl Hq]%andb_true_iff _] end.
  apply bool_decide_eq_true in Hl. unfold Sliceutil.Repeat in Hlift. rewrite bool_decide_eq_false_2 in Hlift by lia.
  injection Hlift as <-. apply BcbInv_emit; [done| |done|done]. simpl. exists from. by rewrite Nat2Z.id.
Qed.

Lemma UponEcho_inv from sig st ins out :
  BcbInv st ins out → wp (UponEchoMessageReceived params nodeID from sig) (λ _ st' out', BcbInv st' ins out') st out.
Proof.
  intros Hi. unfold UponEchoMessageReceived. repeat wp_step; [|done].
  match goal with H : _ && _ = true |- _ => apply andb_true_iff in H as [_ Hr] end. apply bool_decide_eq_true in Hr.
  pose proof Hi as [H1 H2 H3 H4 H5 H6 H7 H8]. apply (BcbInv_emit (set_echos _ _ st)); [by split| |done|done].
  simpl. destruct H6 as [[??]|]; [done|]. by eexists.
Qed.

Lemma UponSigVerified_inv id err context st ins out :
  BcbInv st ins out → bcb_answers out [BcbInSigVerified id err context] →
  wp (UponSigVerified id err context) (λ _ st' out', BcbInv st' ins out') st out.
Proof.
  intros Hi Ha. destruct (Ha _ ltac:(by left)) as (data & Hin & Hok). apply (bc_out _ _ _ Hi) in Hin as (m & -> & Hm).
  unfold UponSigVerified. destruct err as [e|]; wp_step; [done|]. destruct Hi as [H1 H2 H3 H4 H5 H6 H7 H8].
  split; simpl; try done. intros id' sig' [[<- <-]|[_ Hl]]%lookup_insert_Some; [|by apply H7]. exists m. auto.
Qed.

Lemma BcbInv_request st ins out data :
  BcbInv st ins out → BcbInv (set_request data st) (ins ++ [BcbInRequest data]) out.
Proof.
  intros [H1 H2 H3 H4 H5 H6 H7 H8]. assert (ins ⊆ ins ++ [BcbInRequest data]) as Hs by (intros x; set_solver).
  assert (omap signed (ins ++ [BcbInRequest data]) = omap signed ins) as Hom by (rewrite omap_app; simpl; by rewrite app_nil_r).
  split; rewrite ?Hom; try done.
  - intros d Hd. eapply bcb_certified_mono; [exact Hs|auto].
  - right. simpl. set_solver.
  - intros id sig Hid. destruct (H7 _ _ Hid) as (m & ? & ?). exists m. auto.
  - intros ev Hev. eapply bcb_event_ok_mono; [exact Hs|auto].
Qed.

Lemma bcb_handle_inv i st ins out :
  BcbInv st ins out → bcb_answers out [i] →
  wp (bcb_handle mc params nodeID i) (λ _ st' out', BcbInv st' (ins ++ [i]) out') st out.
Proof.
  intros Hi Ha. destruct i as [data|from [data|sig|data signers signatures]|sig request|id err ctx|allOK ctx]; cbn [bcb_handle].
  - unfold UponBroadcastRequest. wp_step; [by repeat wp_step|]. repeat wp_step.
    apply (BcbInv_emit (set_request data st)); [|done..]. by apply BcbInv_request.
  - pose proof (BcbInv_input _ _ _ (BcbInMessage from (StartMessage data)) Hi eq_refl ltac:(done)) as Hi'.
    unfold UponStartMessageReceived. repeat wp_step; [|done].
    match goal with H : _ && _ = true |- _ => apply andb_true_iff in H as [->%bool_decide_eq_true _] end.
    apply BcbInv_emit; [done| |done|done]. exists data. split; [done|set_solver].
  - apply UponEcho_inv. by apply BcbInv_input.
  - apply (UponFinal_inv from); [by apply BcbInv_input|set_solver].
  - by apply UponSignResult_inv.
  - apply UponSigVerified_inv; [by apply BcbInv_input|done].
  - apply bcb_UponSigsVerified_inv; [by apply BcbInv_input|done].
Qed.

Lemma bcb_answers_mono out out' evs : bcb_answers out evs → out ⊆ out' → bcb_answers out' evs.
Proof. intros Ha Hs i Hi. specialize (Ha i Hi). destruct i; naive_solver. Qed.
Lemma wp_extends {A} (m : M bcbModuleState bcb_event A) Q st out :
  wp m Q st out → wp m (λ a st' out', Q a st' out' ∧ out ⊆ out') st out.
Proof. unfold wp. destruct (m st) as [[[a st'] es]| |]; [|done..]. intros HQ. split; [done|]. intros x; set_solver. Qed.

Lemma bcb_handles_inv evs st ins out :
  BcbInv st ins out → bcb_answers out evs →
  wp (mfor evs (bcb_handle mc params nodeID)) (λ _ st' out', BcbInv st' (ins ++ evs) out') st out.
Proof.
  revert st ins out. induction evs as [|i evs IH]; intros st ins out Hi Ha; cbn [mfor]; [wp_step; by rewrite app_nil_r|].
  wp_step. eapply wp_mono; [apply wp_extends, bcb_handle_inv; [exact Hi|]|].
  { intros j ->%list_elem_of_singleton. apply Ha. by left. }
  intros [] st1 out1 [Hi1 Hs]. replace (ins ++ i :: evs) with ((ins ++ [i]) ++ evs) by by rewrite <- app_assoc.
  apply IH; [done|]. eapply bcb_answers_mono; [|exact Hs]. intros j Hj. apply Ha. by right.
Qed.

Lemma GetKeysAndValues_fmap {K V} `{Countable K} (m : gmap K V) :
  GetKeysAndValues m = ((map_to_list m).*1, (map_to_list m).*2).
Proof.
  unfold GetKeysAndValues. assert (∀ (l : list (K * V)) a b, foldl (λ '(ks, vs) '(k, v), (ks ++ [k], vs ++ [v])) (a, b) l =
    (a ++ l.*1, b ++ l.*2)) as Hf; [|by rewrite Hf].
  intros l. induction l as [|[k v] l IH]; intros a b; simpl; [by rewrite !app_nil_r|]. by rewrite IH, <- !app_assoc.
Qed.

Lemma UponStateUpdates_inv st ins out :
  BcbInv st ins out → wp (UponStateUpdates params) (λ _ st' out', BcbInv st' ins out') st out.
Proof.
  intros Hi. unfold UponStateUpdates. do 3 wp_step; [|by wp_step].
  match goal with H : _ && _ = true |- _ => apply andb_true_iff in H as [Hq _] end.
  rewrite GetKeysAndValues_fmap. repeat wp_step. pose proof Hi as [H1 H2 H3 H4 H5 H6 H7 H8].
  apply (BcbInv_emit (set_flags _ _ _ st)); [by split| |done|done].
  unfold bcb_event_ok. split_and!; [apply NoDup_fst_map_to_list|by rewrite !length_fmap|by rewrite length_fmap, length_map_to_list| |done|].
  { destruct H6 as [[_ Hno]|]; [|done]. exfalso.
    assert (∀ id sig, echoSigs st !! id ≠ Some sig) as Hemp by (intros id sig (m & ? & _)%H7; by eapply Hno).
    assert (echoSigs st = ∅) as He by (apply map_empty; intros id; destruct (echoSigs st !! id) eqn:E; [by edestruct Hemp|done]).
    rewrite He, map_size_empty in Hq. apply bool_decide_eq_true in Hq. unfold GetF, GetN in Hq.
    pose proof (Z.quot_pos (Z.of_nat (length (AllNodes params)) - 1) 3). 
    destruct (AllNodes params) as [|x l]; [done|]. simpl length in *.
    pose proof (Z.quot_pos (Z.of_nat (S (length l)) + Z.quot (Z.of_nat (S (length l)) - 1) 3) 2). lia. }
  intros k id sig Hk Hs. rewrite list_lookup_fmap in Hk. rewrite list_lookup_fmap in Hs.
  destruct (map_to_list (echoSigs st) !! k) as [[id' sig']|] eqn:E; [|done]. simplify_eq/=.
  apply (H7 id sig). apply elem_of_map_to_list. by eapply list_elem_of_lookup_2.
Qed.

Lemma BcbInv_start : BcbInv NewModule [] [].
Proof. split; simpl; try done; try lia; try set_solver; by left. Qed.

Lemma bcb_run_inv st ins out : bcb_run mc params nodeID st ins out → BcbInv st (concat ins) out.
Proof.
  apply (reach_invariant _ _ _ (λ st ins out, BcbInv st (concat ins) out)); [apply BcbInv_start|]. intros s ins' out' rng evs Hi Ha. unfold bcb_apply.
  rewrite concat_app. simpl. rewrite app_nil_r. wp_step. eapply wp_mono; [by apply bcb_handles_inv|].
  intros [] st1 out1 Hi1. by apply UponStateUpdates_inv.
Qed.

(** A signature result is preceded by a request, which a message of the leader caused. *)
Lemma sign_requested st ins out sig request :
  bcb_run mc params nodeID st ins out → BcbInSignResult sig request ∈ concat ins →
  ∃ m, request = echo_data params m ∧ BcbInMessage (bcb_Leader params) (StartMessage m) ∈ concat ins.
Proof.
  induction 1 as [|s ins out rng evs s' es Hr IH Ha _]; [set_solver|]. rewrite concat_app. simpl. rewrite app_nil_r.
  intros [Hin|Hin]%elem_of_app.
  - destruct (IH Hin) as (m & ? & ?). exists m. set_solver.
  - apply Ha in Hin. apply (bc_out _ _ _ (bcb_run_inv _ _ _ Hr)) in Hin as (m & ? & ?). exists m. set_solver.
Qed.
End inv.

(** ** Agreement of the nodes *)

(** Quorums of more than (N+f)/2 nodes have a correct node in common. *)
Lemma quorum_intersection params (faulty : gset NodeID) (s1 s2 : list NodeID) :
  (Z.of_nat (size faulty) ≤ GetF params)%Z → NoDup s1 → NoDup s2 → s1 ⊆ AllNodes params → s2 ⊆ AllNodes params →
  have_quorum params (Z.of_nat (length s1)) = true → have_quorum params (Z.of_nat (length s2)) = true →
  ∃ id, id ∈ s1 ∧ id ∈ s2 ∧ id ∉ faulty.
Proof.
  intros Hf Hn1 Hn2 Hs1 Hs2 Hq1%bool_decide_eq_true Hq2%bool_decide_eq_true.
  set (A := list_to_set s1 : gset NodeID). set (B := list_to_set s2 : gset NodeID).
  assert (size A = length s1) as HA by by apply size_list_to_set. assert (size B = length s2) as HB by by apply size_list_to_set.
  assert (size (A ∪ B) ≤ length (AllNodes params)) as HU.
  { apply submseteq_length, NoDup_submseteq; [apply NoDup_elements|]. intros x. subst A B. set_solver. }
  rewrite size_union_alt in HU. pose proof (size_difference_alt B A) as HD.
  assert (size (B ∩ A) ≤ size B) as HBA by (apply subseteq_size; set_solver).
  assert (Z.of_nat (size faulty) < Z.of_nat (size (B ∩ A)))%Z as Hlt.
  { pose proof (Z.quot_rem' (GetN params + GetF params) 2) as Hdiv.
    pose proof (Z.rem_bound_abs (GetN params + GetF params) 2 ltac:(done)) as Hr.
    unfold GetN in *. lia. }
  destruct (decide (size ((B ∩ A) ∖ faulty) = 0)) as [Hz|Hnz].
  { rewrite size_difference_alt in Hz. assert (size (B ∩ A ∩ faulty) ≤ size faulty) by (apply subseteq_size; set_solver). lia. }
  destruct (size_pos_elem_of ((B ∩ A) ∖ faulty)) as [x Hx]; [lia|]. exists x. subst A B. set_solver.
Qed.


(** The leader's certificates are accepted: if the leader was asked to broadcast
    one message, the final message it sends carries this message and a quorum of distinct
    signers with valid signatures on it.  A node that has not delivered yet has them checked, and delivers
    the message when they are reported as valid. *)
Theorem bcb_final_accepted {sigs : Verifier} mc params leader st ins out data signers signatures dests m :
  bcb_run mc params leader st ins out → (∀ m', BcbInRequest m' ∈ concat ins → m' = m) →
  BcbSendMessage (FinalMessage data signers signatures) dests ∈ out →
  dests = AllNodes params ∧ data = m ∧ NoDup signers ∧
  (∀ k id, signers !! k = Some id → ∃ sig, signatures !! k = Some sig ∧
     verifier_Verify (echo_data params m) sig id = Ok tt) ∧
  (∀ node st' from, bcb_delivered st' = false →
     bcb_handle mc params node (BcbInMessage from (FinalMessage data signers signatures)) st' =
       Ok (tt, st', [BcbVerifySigs (replicate (length signers) (echo_data params m)) signatures signers m]) ∧
     ∃ st'', bcb_handle mc params node (BcbInSigsVerified true m) st' = Ok (tt, st'', [BcbDeliver (Consumer mc) m]) ∧
       bcb_delivered st'' = true).
Proof.
  intros Hr Hm Hin. apply (bc_out _ _ _ _ (bcb_run_inv _ _ _ _ _ _ Hr)) in Hin as (Hnd & Hl & Hq & Hreq & Hd & Hv).
  apply Hm in Hreq as ->. split_and!; [done..| |].
  - intros k id Hk. destruct (lookup_lt_is_Some_2 signatures k) as [sig Hs]; [rewrite <- Hl; by eapply lookup_lt_Some|].
    exists sig. split; [done|]. destruct (Hv k id sig Hk Hs) as (m' & Hm' & Hok). by apply Hm in Hm' as ->.
  - intros node st' from Hst. cbn [bcb_handle]. split.
    + unfold UponFinalMessageReceived, mbind, M_bind, get. rewrite bool_decide_eq_true_2, Hq, Hst by done.
      unfold Sliceutil.Repeat. rewrite bool_decide_eq_false_2 by lia. by rewrite Nat2Z.id.
    + eexists. unfold UponSigsVerified, mbind, M_bind, get. by rewrite Hst.
Qed.

(** ** Concrete runs

    A signature is valid when it is the signer followed by the signed data.  Node "3" is faulty. *)
Module BcbToy.
#[export] Instance toy : Verifier := {|
  verifier_Verify data sig id :=
    if bool_decide (sig = Some (id +:+ Serialization.concat_bytes data)) then Ok tt else Err "invalid" |}.
Definition mc : BcbConfig := mkBcbConfig "bcb" "app" "net" "crypto".
Definition params : BcbParams := mkBcbParams (Some "uid") ["0"; "1"; "2"; "3"] "0".
Definition sign (id : NodeID) (data : bytes) : bytes := Some (id +:+ Serialization.concat_bytes (echo_data params data)).
Definition m : bytes := Some "pay".
Definition final (signers : list NodeID) (data : bytes) : bcb_input :=
  BcbInMessage "3" (FinalMessage data signers ((λ id, sign id data) <$> signers)).

(** A node answers the leader's message and delivers on a certificate. *)
Definition follower (id : NodeID) : list (list bcb_input) :=
  [[BcbInMessage "0" (StartMessage m)]; [BcbInSignResult (sign id m) (echo_data params m)];
   [final ["0"; "1"; "2"] m]; [BcbInSigsVerified true m]].
Definition leader : list (list bcb_input) :=
  [[BcbInRequest m]; [BcbInMessage "0" (StartMessage m)]; [BcbInSignResult (sign "0" m) (echo_data params m)];
   (λ id, BcbInMessage id (EchoMessage (sign id m))) <$> ["0"; "1"; "2"];
   (λ id, BcbInSigVerified id None (sign id m)) <$> ["0"; "1"; "2"];
   [final ["0"; "1"; "2"] m]; [BcbInSigsVerified true m]].
Definition hist (id : NodeID) : list (list bcb_input) :=
  if decide (id = "0") then leader else if decide (id = "1") then follower "1"
  else if decide (id = "2") then follower "2" else [].
(** A faulty node repeats its own signature. *)
Definition forged (data : bytes) : list (list bcb_input) := [[final ["3"; "3"; "3"] data]; [BcbInSigsVerified true data]].

Definition input_ok (out : list bcb_event) (i : bcb_input) : bool :=
  match i with
  | BcbInSignResult _ request =>
      existsb (λ ev, match ev with BcbSignRequest d => bool_decide (d = request) | _ => false end) out
  | BcbInSigVerified id err context =>
      existsb (λ ev, match ev with
        | BcbVerifySig d s id' => bool_decide (s = context) && bool_decide (id' = id) &&
            match verifier_Verify d context id with Ok _ => true | _ => bool_decide (err ≠ None) end
        | _ => false end) out
  | BcbInSigsVerified allOK context =>
      existsb (λ ev, match ev with
        | BcbVerifySigs d s ids c => bool_decide (c = context) &&
            match Crypto.verify_loop 0 d s ids with Ok (_, ok) => implb allOK ok | _ => false end
        | _ => false end) out
  | _ => true
  end.
Definition answers_b (out : list bcb_event) (evs : list bcb_input) : bool := forallb (input_ok out) evs.

Lemma input_ok_sound out evs : answers_b out evs = true → bcb_answers out evs.
Proof.
  intros Hf i Hi. unfold answers_b in Hf. rewrite forallb_forall in Hf. specialize (Hf i ltac:(by apply list_elem_of_In)).
  destruct i as [| |sig req|id err ctx|allOK ctx]; try done; apply existsb_exists in Hf as (ev & Hin%list_elem_of_In & Hev);
    destruct ev as [|d|d s id'|d s ids c|]; try done.
  - by apply bool_decide_eq_true in Hev as ->.
  - apply andb_true_iff in Hev as [[->%bool_decide_eq_true ->%bool_decide_eq_true]%andb_true_iff Hv].
    exists d. split; [done|]. intros ->. destruct (verifier_Verify d ctx id) as [[]| |]; done.
  - apply andb_true_iff in Hev as [->%bool_decide_eq_true Hv].
    destruct (Crypto.verify_loop 0 d s ids) as [[errs ok]| |] eqn:E; [|done..]. exists d, s, ids. split; [done|].
    intros ->. apply Crypto.verify_loop_spec in E as [_ Hok]; [|done]. by apply Hok.
Qed.

Definition exec (id : NodeID) (h : list (list bcb_input)) : bcbModuleState * list bcb_event :=
  default (NewModule, []) (checked (bcb_apply mc params id) answers_b range_id h NewModule []).
Lemma exec_run id h :
  checked (bcb_apply mc params id) answers_b range_id h NewModule [] ≠ None →
  bcb_run mc params id (exec id h).1 h (exec id h).2.
Proof.
  intros Hc. unfold exec. destruct (checked _ _ _ h _ _) as [[st out]|] eqn:E; [|done].
  exact (checked_reach _ _ _ input_ok_sound NewModule range_id _ _ [] [] _ _ (reach_start _ _ _) E).
Qed.
End BcbToy.
Import BcbToy.

(** One faulty node can make correct nodes deliver different messages: a certificate may
    name the same signer several times, so a node that signs alone forges one.  The
    description of the protocol asks for more than (N+f)/2 distinct processes. *)
Theorem bcb_repeated_signer :
  ∃ st1 out1 st2 out2,
    bcb_run BcbToy.mc BcbToy.params "1" st1 (forged (Some "x")) out1 ∧
    bcb_run BcbToy.mc BcbToy.params "2" st2 (forged (Some "y")) out2 ∧
    omap delivery out1 = [Some "x"] ∧ omap delivery out2 = [Some "y"] ∧ (1 ≤ GetF BcbToy.params)%Z.
Proof.
  exists (exec "1" (forged (Some "x"))).1, (exec "1" (forged (Some "x"))).2,
    (exec "2" (forged (Some "y"))).1, (exec "2" (forged (Some "y"))).2.
  split_and!; [apply exec_run; vm_compute; done..|vm_compute; reflexivity|vm_compute; reflexivity|done].
Qed.

Lemma hist_final p from data signers signatures :
  BcbInMessage from (FinalMessage data signers signatures) ∈ concat (hist p) →
  (p = "0" ∨ p = "1" ∨ p = "2") ∧ data = m ∧ signers = ["0"; "1"; "2"].
Proof.
  unfold hist. destruct (decide (p = "0")) as [->|]; [|destruct (decide (p = "1")) as [->|]; [|destruct (decide (p = "2")) as [->|]]];
    intros Hin%list_elem_of_In; repeat (destruct Hin as [Hin|Hin]; [try discriminate Hin; injection Hin as <- <- <- <-; auto|]);
    by destruct Hin.
Qed.


Lemma bcb_final_accepted_witness :
  ∃ data signers signatures dests,
    BcbSendMessage (FinalMessage data signers signatures) dests ∈ (exec "0" leader).2 ∧ data = m ∧ NoDup signers.
Proof.
  assert (∃ data signers signatures dests,
    BcbSendMessage (FinalMessage data signers signatures) dests ∈ (exec "0" leader).2)
    as (data & signers & signatures & dests & Hin).
  { do 4 eexists. vm_compute. do 6 right. left. }
  exists data, signers, signatures, dests. split; [exact Hin|].
  destruct (bcb_final_accepted BcbToy.mc BcbToy.params "0" (exec "0" leader).1 leader (exec "0" leader).2 data signers
    signatures dests m) as (_ & Hd & Hn & _); [apply exec_run; vm_compute; done| |exact Hin|split; [exact Hd|exact Hn]].
  intros m' Hm'%list_elem_of_In. repeat (destruct Hm' as [Hm'|Hm']; [try discriminate Hm'; by injection Hm' as <-|]).
  by destruct Hm'.
Defined.
