(* ===== verification/Dsl.v ===== *)
(** * pkg/dsl and pkg/contextstore: modules made of event handlers

    Most modules register handlers for the types of events they process.  A handler that asks
    another module for something stores a context; the request carries its identifier, the answer
    brings it back, and the handler of the answer recovers the context.  [ApplyEvents] of
    dslmodule.go runs the handlers of a list of events.

    The models of the components let contexts travel with the events.  [contexts_travel] shows that
    this is what the context store amounts to. *)
From Stdlib Require Import ZArith Lia.
From stdpp Require Import prelude strings gmap list fin_maps fin_sets.
From S2P Require Import Prelude.

(** ** contextstore/sequential.go *)
Record contextStore (Ctx : Type) := mkContextStore { cs_nextID : N; cs_storage : gmap N Ctx }.
Arguments mkContextStore {Ctx} _ _.
Arguments cs_nextID {Ctx} _.
Arguments cs_storage {Ctx} _.

Module CtxStore.
Section contextstore.
Context {Ctx : Type}.
Implicit Types (s : contextStore Ctx).

Definition NewSequentialContextStore : contextStore Ctx := mkContextStore 0 ∅.
Definition Store s (t : Ctx) : N * contextStore Ctx :=
  (cs_nextID s, mkContextStore (wrap_u64 (cs_nextID s + 1)) (<[cs_nextID s := t]> (cs_storage s))).
Definition Recover s (id : N) : outcome Ctx :=
  match cs_storage s !! id with
  | Some item => Ok item
  | None => Panic (ExplicitPanic "item is not present in the ContextStore")
  end.
Definition Dispose s (id : N) : contextStore Ctx := mkContextStore (cs_nextID s) (delete id (cs_storage s)).
Definition RecoverAndDispose s (id : N) : outcome (Ctx * contextStore Ctx) :=
  t ← Recover s id; Ok (t, Dispose s id).
End contextstore.
End CtxStore.

(** ** dslmodule.go *)
Inductive event_type := PbType (t : string) | GoType (t : string).
Definition TransportType : event_type := PbType "Event_Transport".
Definition InitType : event_type := GoType "Init".

Section dsl.
Context {St P O Ctx : Type}.

(** An event: its type, its content, and the identifier in its origin, if it answers a request of a
    DSL module.  An event that a handler emits, with the context to store if it is a request. *)
Record dsl_event (C : Type) := mkDslEvent { de_type : event_type; de_content : P; de_context : option C }.
Arguments mkDslEvent {C} _ _ _.
Arguments de_type {C} _.
Arguments de_content {C} _.
Arguments de_context {C} _.
Notation emitted C := (O * option C)%type.
Notation body := (M St (O * option Ctx) unit).

(** Handlers as they are registered: for events, or for answers with a context of a certain type,
    [None] being a context of another type. *)
Inductive handler :=
| OnEvent (h : P → body)
| OnAnswer (h : P → Ctx → option body).

Record dslModuleImpl := mkDslModuleImpl {
  defaultEventHandler : event_type → P → body;
  eventHandlers : gmap string (list handler); pbEventHandlers : gmap string (list handler);
  stateUpdateHandlers : list body; stateUpdateBatchHandlers : list body;
}.

Definition failExceptForInit (ty : event_type) (_ : P) : body :=
  match ty with GoType t => if bool_decide (t = "Init") then skip else lift (Err "unknown event type")
              | PbType _ => lift (Err "unknown event type") end.
Definition failExceptForInitAndTransport (ty : event_type) (p : P) : body :=
  match ty with PbType t => if bool_decide (t = "Event_Transport") then skip else failExceptForInit ty p
              | GoType _ => failExceptForInit ty p end.

Definition NewModule : dslModuleImpl := mkDslModuleImpl failExceptForInitAndTransport ∅ ∅ [] [].
Definition UponEvent (t : string) (h : handler) (m : dslModuleImpl) : dslModuleImpl :=
  mkDslModuleImpl (defaultEventHandler m)
    (<[t := default [] (eventHandlers m !! t) ++ [h]]> (eventHandlers m)) (pbEventHandlers m)
    (stateUpdateHandlers m) (stateUpdateBatchHandlers m).
Definition UponMirEvent (t : string) (h : handler) (m : dslModuleImpl) : dslModuleImpl :=
  mkDslModuleImpl (defaultEventHandler m) (eventHandlers m)
    (<[t := default [] (pbEventHandlers m !! t) ++ [h]]> (pbEventHandlers m))
    (stateUpdateHandlers m) (stateUpdateBatchHandlers m).
Definition UponOtherEvent (h : event_type → P → body) (m : dslModuleImpl) : dslModuleImpl :=
  mkDslModuleImpl h (eventHandlers m) (pbEventHandlers m) (stateUpdateHandlers m) (stateUpdateBatchHandlers m).
Definition UponStateUpdate (h : body) (m : dslModuleImpl) : dslModuleImpl :=
  mkDslModuleImpl (defaultEventHandler m) (eventHandlers m) (pbEventHandlers m)
    (stateUpdateHandlers m ++ [h]) (stateUpdateBatchHandlers m).
Definition UponStateUpdates (h : body) (m : dslModuleImpl) : dslModuleImpl :=
  mkDslModuleImpl (defaultEventHandler m) (eventHandlers m) (pbEventHandlers m)
    (stateUpdateHandlers m) (stateUpdateBatchHandlers m ++ [h]).

Context (m : dslModuleImpl).
Definition handlers_for (ty : event_type) : option (list handler) :=
  match ty with PbType t => pbEventHandlers m !! t | GoType t => eventHandlers m !! t end.

(** The state of a module: what its handlers share, the context store, the contexts to
    dispose of after the list of events, and the output events. *)
Record dsl_state := mkDslState {
  d_state : St; d_store : contextStore Ctx; d_cleanup : gset N; d_output : list (emitted N);
}.
Definition dsl_start (s : St) : dsl_state := mkDslState s CtxStore.NewSequentialContextStore ∅ [].

(** [EmitEvent], and the generated functions that store a context and emit a request. *)
Definition emit_one (d : dsl_state) (e : emitted Ctx) : dsl_state :=
  match e with
  | (o, None) => mkDslState (d_state d) (d_store d) (d_cleanup d) (d_output d ++ [(o, None)])
  | (o, Some ctx) =>
      let '(id, store) := CtxStore.Store (d_store d) ctx in
      mkDslState (d_state d) store (d_cleanup d) (d_output d ++ [(o, Some id)])
  end.
Definition run_body (b : body) (d : dsl_state) : outcome dsl_state :=
  r ← b (d_state d);
  let '(_, s, es) := r in
  Ok (foldl emit_one (mkDslState s (d_store d) (d_cleanup d) (d_output d)) es).

Definition RecoverAndCleanupContext (id : N) (d : dsl_state) : outcome (Ctx * dsl_state) :=
  ctx ← CtxStore.Recover (d_store d) id;
  Ok (ctx, mkDslState (d_state d) (d_store d) ({[id]} ∪ d_cleanup d) (d_output d)).

Definition run_handler (ev : dsl_event N) (h : handler) (d : dsl_state) : outcome dsl_state :=
  match h with
  | OnEvent h => run_body (h (de_content ev)) d
  | OnAnswer h =>
      match de_context ev with
      | None => Ok d
      | Some id =>
          r ← RecoverAndCleanupContext id d;
          let '(ctx, d) := r in
          match h (de_content ev) ctx with None => Ok d | Some b => run_body b d end
      end
  end.

Fixpoint for_each {A D} (l : list A) (f : A → D → outcome D) (d : D) : outcome D :=
  match l with [] => Ok d | a :: l => d ← f a d; for_each l f d end.

Definition apply_event (ev : dsl_event N) (d : dsl_state) : outcome dsl_state :=
  d ← match handlers_for (de_type ev) with
      | None => run_body (defaultEventHandler m (de_type ev) (de_content ev)) d
      | Some handlers => for_each handlers (run_handler ev) d
      end;
  for_each (stateUpdateHandlers m) run_body d.

Definition ApplyEvents (evs : list (dsl_event N)) (d : dsl_state) : outcome (list (emitted N) * dsl_state) :=
  d ← for_each evs apply_event d;
  d ← for_each (stateUpdateBatchHandlers m) run_body d;
  let store := foldl CtxStore.Dispose (d_store d) (elements (d_cleanup d)) in
  Ok (d_output d, mkDslState (d_state d) store ∅ []).

(** ** The same module with contexts in the events *)
Definition abs_handler (ev : dsl_event Ctx) (h : handler) : body :=
  match h with
  | OnEvent h => h (de_content ev)
  | OnAnswer h =>
      match de_context ev with None => skip | Some ctx => default skip (h (de_content ev) ctx) end
  end.
Definition abs_event (ev : dsl_event Ctx) : body :=
  match handlers_for (de_type ev) with
  | None => defaultEventHandler m (de_type ev) (de_content ev)
  | Some handlers => mfor handlers (abs_handler ev)
  end;;
  mfor (stateUpdateHandlers m) id.
Definition abs_apply (evs : list (dsl_event Ctx)) : body :=
  mfor evs abs_event;; mfor (stateUpdateBatchHandlers m) id.

(** [g] lists the contexts stored so far: the identifier of a context is its position. *)
Definition with_context (g : list Ctx) (ev : dsl_event N) : dsl_event Ctx :=
  mkDslEvent (de_type ev) (de_content ev) (de_context ev ≫= λ id, g !! N.to_nat id).
Definition resolve (g : list Ctx) (e : emitted N) : emitted Ctx := (e.1, e.2 ≫= λ id, g !! N.to_nat id).
Definition contexts (es : list (emitted Ctx)) : list Ctx := omap snd es.

(** The contexts with identifiers outside [gone] are stored. *)
Record Stored (g : list Ctx) (gone : gset N) (cs : contextStore Ctx) : Prop := {
  so_next : cs_nextID cs = N.of_nat (length g);
  so_lookup id : cs_storage cs !! id = if decide (id ∈ gone) then None else g !! N.to_nat id;
  so_gone id : id ∈ gone → (id < N.of_nat (length g))%N;
}.

Lemma Store_stored g gone cs ctx :
  Stored g gone cs → (N.of_nat (S (length g)) < u64_max)%N →
  ∃ cs', CtxStore.Store cs ctx = (N.of_nat (length g), cs') ∧ Stored (g ++ [ctx]) gone cs'.
Proof.
  intros [H1 H2 H3] Hb. unfold CtxStore.Store. rewrite H1. eexists. split; [done|].
  split; simpl; rewrite ?length_app; simpl.
  - unfold wrap_u64, u64_max in *. rewrite N.mod_small by lia. lia.
  - intros id. destruct (decide (id = N.of_nat (length g))) as [->|Hne].
    + rewrite lookup_insert_eq, Nat2N.id, list_lookup_middle by done. rewrite decide_False; [done|]. intros ?%H3. lia.
    + rewrite lookup_insert_ne, H2 by done. case_decide; [done|].
      destruct (decide (N.to_nat id < length g)); [by rewrite lookup_app_l|].
      rewrite (lookup_ge_None_2 g) by lia. rewrite lookup_ge_None_2; [done|]. rewrite length_app. simpl. lia.
  - intros id ?%H3. lia.
Qed.

(** The state in the middle of a list of events: [es] was emitted so far. *)
Record Mid (g0 : list Ctx) (gone : gset N) (ids : gset N) (es : list (emitted Ctx)) (d : dsl_state) (s : St) : Prop := {
  mi_state : d_state d = s;
  mi_stored : Stored (g0 ++ contexts es) gone (d_store d);
  mi_output : resolve (g0 ++ contexts es) <$> d_output d = es;
  mi_ids o id : (o, Some id) ∈ d_output d → (N.to_nat id < length (g0 ++ contexts es))%nat;
  mi_cleanup : d_cleanup d ⊆ ids;
}.

Lemma resolve_more g g' (out : list (emitted N)) :
  (∀ o id, (o, Some id) ∈ out → N.to_nat id < length g) → resolve (g ++ g') <$> out = resolve g <$> out.
Proof.
  intros Hids. induction out as [|[o [id|]] out IH]; [done|..].
  - cbn [fmap list_fmap]. f_equal; [|apply IH; intros; eapply Hids; by right].
    unfold resolve. simpl. rewrite lookup_app_l; [done|]. eapply Hids. by left.
  - cbn [fmap list_fmap]. f_equal. apply IH. intros. eapply Hids. by right.
Qed.

Lemma emit_one_mid g0 gone ids es d s e :
  Mid g0 gone ids es d s → (N.of_nat (length (g0 ++ contexts (es ++ [e]))) < u64_max)%N →
  Mid g0 gone ids (es ++ [e]) (emit_one d e) s.
Proof.
  intros [H1 H2 H3 H4 H5] Hb. destruct e as [o [ctx|]]; cbn [emit_one].
  - assert (g0 ++ contexts (es ++ [(o, Some ctx)]) = (g0 ++ contexts es) ++ [ctx]) as Hg.
    { unfold contexts. rewrite omap_app. simpl. by rewrite (assoc_L (++)). }
    rewrite Hg in Hb. set (g := g0 ++ contexts es) in *.
    destruct (Store_stored g gone (d_store d) ctx H2) as (cs' & -> & Hcs).
    { rewrite length_app in Hb. simpl in Hb. by rewrite Nat.add_1_r in Hb. }
    split; rewrite ?Hg; cbn [d_state d_store d_output d_cleanup]; [done|done| | |done].
    + rewrite fmap_app, resolve_more by done. rewrite H3. f_equal. cbn. unfold resolve. cbn [fst snd mbind option_bind].
      by rewrite Nat2N.id, list_lookup_middle.
    + intros o' id. rewrite length_app. simpl. intros [?%H4|[= -> ->]%list_elem_of_singleton]%elem_of_app; [lia|].
      rewrite Nat2N.id. lia.
  - assert (g0 ++ contexts (es ++ [(o, None)]) = g0 ++ contexts es) as Hg.
    { unfold contexts. rewrite omap_app. simpl. by rewrite app_nil_r. }
    split; rewrite ?Hg; cbn [d_state d_store d_output d_cleanup]; [done|done| | |done].
    + by rewrite fmap_app, H3.
    + intros o' id [?%H4|?%list_elem_of_singleton]%elem_of_app; [done|congruence].
Qed.

(** [refines b c]: whenever [b] succeeds, within the number of identifiers, so does [c], and it emits the same. *)
Definition refines (g0 : list Ctx) (gone ids : gset N) (b : body) (c : dsl_state → outcome dsl_state) : Prop :=
  ∀ es d s s' es', Mid g0 gone ids es d s → b s = Ok (tt, s', es') →
    (N.of_nat (length (g0 ++ contexts (es ++ es'))) < u64_max)%N →
    ∃ d', c d = Ok d' ∧ Mid g0 gone ids (es ++ es') d' s'.

Lemma refines_run_body g0 gone ids b : refines g0 gone ids b (run_body b).
Proof.
  intros es d s s' es' Hm Hb Hlen. unfold run_body. rewrite (mi_state _ _ _ _ _ _ Hm), Hb. cbn [mbind outcome_bind].
  eexists. split; [done|]. assert (Mid g0 gone ids es (mkDslState s' (d_store d) (d_cleanup d) (d_output d)) s') as Hm'.
  { destruct Hm. by split. }
  clear Hm Hb. revert es Hlen Hm'. generalize (mkDslState s' (d_store d) (d_cleanup d) (d_output d)). clear d s.
  induction es' as [|e es' IH]; intros d es Hlen Hm; simpl; [by rewrite app_nil_r|].
  rewrite (cons_middle e es es'), (assoc_L (++)) in Hlen |- *. apply IH; [done|]. apply emit_one_mid; [done|].
  unfold contexts in *. rewrite omap_app, !length_app in Hlen. rewrite length_app. lia.
Qed.
Lemma refines_skip g0 gone ids c : (∀ d, c d = Ok d) → refines g0 gone ids skip c.
Proof. intros Hc es d s s' es' Hm [= <- <-] _. exists d. rewrite app_nil_r. by rewrite Hc. Qed.
Lemma refines_bind g0 gone ids b1 b2 c1 c2 :
  refines g0 gone ids b1 c1 → refines g0 gone ids b2 c2 → refines g0 gone ids (b1;; b2) (λ d, d ← c1 d; c2 d).
Proof.
  intros H1 H2 es d s s' es' Hm Hb Hlen. unfold mbind, M_bind in Hb.
  destruct (b1 s) as [[[[] s1] es1]| |] eqn:E1; [|done..]. destruct (b2 s1) as [[[[] s2] es2]| |] eqn:E2; [|done..].
  injection Hb as <- <-. rewrite (assoc_L (++)) in Hlen |- *.
  destruct (H1 _ _ _ _ _ Hm E1) as (d1 & Hc1 & Hm1).
  { unfold contexts in *. rewrite omap_app, !length_app in Hlen. rewrite length_app. lia. }
  destruct (H2 _ _ _ _ _ Hm1 E2 Hlen) as (d2 & Hc2 & Hm2). exists d2. rewrite Hc1. cbn [mbind outcome_bind]. by rewrite Hc2.
Qed.
Lemma refines_for {A B} g0 gone ids (l : list A) (l' : list B) (f : A → body) (c : B → dsl_state → outcome dsl_state) :
  Forall2 (λ a b, refines g0 gone ids (f a) (c b)) l l' → refines g0 gone ids (mfor l f) (for_each l' c).
Proof.
  induction 1 as [|a b l l' Ha _ IH]; cbn [mfor for_each]; [by apply refines_skip|]. by apply refines_bind.
Qed.

Lemma refines_answer g0 gone ids id ctx p (h : P → Ctx → option body) :
  g0 !! N.to_nat id = Some ctx → id ∈ ids → id ∉ gone →
  refines g0 gone ids (default skip (h p ctx))
    (λ d, r ← RecoverAndCleanupContext id d;
          let '(ctx, d) := r in match h p ctx with None => Ok d | Some b => run_body b d end).
Proof.
  intros Hg Hid Hgone es d s s' es' Hm Hb Hlen. pose proof Hm as [H1 H2 H3 H4 H5].
  unfold RecoverAndCleanupContext, CtxStore.Recover. rewrite (so_lookup _ _ _ H2), decide_False by done.
  rewrite lookup_app_l by (by eapply lookup_lt_Some). rewrite Hg. cbn [mbind outcome_bind].
  assert (Mid g0 gone ids es (mkDslState (d_state d) (d_store d) ({[id]} ∪ d_cleanup d) (d_output d)) s) as Hm'.
  { split; [done..|]. simpl. set_solver. }
  destruct (h p ctx) as [b|]; [by eapply refines_run_body|]. simpl in Hb. injection Hb as <- <-.
  rewrite app_nil_r. eexists. split; [done|done].
Qed.

(** The identifiers in a list of events. *)
Definition event_ids (evs : list (dsl_event N)) : gset N := list_to_set (omap de_context evs).
Definition answers_ok (g : list Ctx) (gone : gset N) (evs : list (dsl_event N)) : Prop :=
  ∀ id, id ∈ event_ids evs → (N.to_nat id < length g)%nat ∧ id ∉ gone.

Lemma refines_handler g0 gone ids ev h :
  (∀ id, de_context ev = Some id → (N.to_nat id < length g0)%nat ∧ id ∉ gone ∧ id ∈ ids) →
  refines g0 gone ids (abs_handler (with_context g0 ev) h) (run_handler ev h).
Proof.
  intros Hc. destruct h as [h|h]; cbn [abs_handler run_handler]; [apply refines_run_body|].
  destruct ev as [ty p [id|]]; simpl in *; [|by apply refines_skip].
  destruct (Hc id eq_refl) as (Hlt & Hgone & Hid). destruct (lookup_lt_is_Some_2 _ _ Hlt) as [ctx Hctx]. rewrite Hctx. simpl.
  by apply refines_answer.
Qed.

Lemma refines_hooks g0 gone ids (hooks : list body) : refines g0 gone ids (mfor hooks id) (for_each hooks run_body).
Proof. apply refines_for, Forall_Forall2_diag, list.Forall_forall. intros b _. apply refines_run_body. Qed.
Lemma refines_event g0 gone ids ev :
  (∀ id, de_context ev = Some id → (N.to_nat id < length g0)%nat ∧ id ∉ gone ∧ id ∈ ids) →
  refines g0 gone ids (abs_event (with_context g0 ev)) (apply_event ev).
Proof.
  intros Hc. unfold abs_event, apply_event. cbn [with_context de_type de_content].
  apply refines_bind; [|apply refines_hooks]. destruct (handlers_for (de_type ev)) as [handlers|]; [|apply refines_run_body].
  apply refines_for, Forall_Forall2_diag, list.Forall_forall. intros h _. by apply refines_handler.
Qed.

Lemma Dispose_stored g gone cs ids :
  Stored g gone cs → (∀ id, id ∈ ids → (id < N.of_nat (length g))%N) →
  Stored g (gone ∪ list_to_set ids) (foldl CtxStore.Dispose cs ids).
Proof.
  revert gone cs. induction ids as [|id ids IH]; intros gone cs [H1 H2 H3] Hids; simpl.
  { by rewrite (right_id_L ∅ (∪)). }
  rewrite (assoc_L (∪)). apply IH; [|intros; apply Hids; by right]. split; simpl; [done| |].
  - intros j. destruct (decide (j = id)) as [->|Hne]; [rewrite lookup_delete_eq, decide_True by set_solver; done|].
    rewrite lookup_delete_ne, H2 by done. destruct (decide (j ∈ gone)); [by rewrite decide_True by set_solver|].
    by rewrite decide_False by set_solver.
  - intros j [?|?%elem_of_singleton]%elem_of_union; [by apply H3|]. subst. apply Hids. by left.
Qed.

(** Between lists of events: [g] are the contexts stored so far, those in [gone] were disposed of. *)
Record Sim (g : list Ctx) (gone : gset N) (d : dsl_state) (s : St) : Prop := {
  sim_state : d_state d = s;
  sim_stored : Stored g gone (d_store d);
  sim_idle : d_cleanup d = ∅ ∧ d_output d = [];
}.

(** C29 (refinement).  Contexts travel with events: a module whose handlers store contexts and
    recover them by their identifiers behaves as if requests and answers carried the contexts
    themselves.  This holds at the start, and it is preserved by every list of
    events that answers requests made before it and not answered by an earlier list: whenever the module
    with contexts in its events handles the list, the module handles it too, with the
    same state and the same output, and afterwards it forgets only contexts of answers in the list. *)
Theorem contexts_travel s0 :
  Sim [] ∅ (dsl_start s0) s0 ∧
  ∀ g gone d s evs s' es,
    Sim g gone d s → answers_ok g gone evs → abs_apply (with_context g <$> evs) s = Ok (tt, s', es) →
    (N.of_nat (length (g ++ contexts es)) < u64_max)%N →
    ∃ out d' gone', ApplyEvents evs d = Ok (out, d') ∧ Sim (g ++ contexts es) gone' d' s' ∧
      resolve (g ++ contexts es) <$> out = es ∧ gone ⊆ gone' ⊆ gone ∪ event_ids evs.
Proof.
  split.
  { split; [done| |done]. split; [done| |set_solver]. intros id. simpl. by rewrite lookup_empty, decide_False by set_solver. }
  intros g gone d s evs s' es [Hs Hst [Hcl Hout]] Ha Habs Hlen.
  assert (Mid g gone (event_ids evs) [] d s) as Hm.
  { unfold contexts. split; simpl; rewrite ?app_nil_r, ?Hcl, ?Hout; try done; set_solver. }
  assert (refines g gone (event_ids evs) (abs_apply (with_context g <$> evs))
    (λ d, d ← for_each evs apply_event d; for_each (stateUpdateBatchHandlers m) run_body d)) as Href.
  { apply refines_bind; [|apply refines_hooks]. apply refines_for, Forall2_fmap_l, Forall_Forall2_diag, list.Forall_forall.
    intros ev Hev. apply refines_event. intros id Hid. assert (id ∈ event_ids evs) as Hin.
    { apply elem_of_list_to_set, list_elem_of_omap. by exists ev. }
    destruct (Ha id Hin). done. }
  destruct (Href _ _ _ _ _ Hm Habs Hlen) as (d1 & Hd1 & [H1 H2 H3 H4 H5]). simpl in H2, H3, H4.
  unfold ApplyEvents. destruct (for_each evs apply_event d) as [d2| |]; [|done..]. cbn [mbind outcome_bind] in Hd1 |- *.
  rewrite Hd1. cbn [mbind outcome_bind]. do 2 eexists. exists (gone ∪ d_cleanup d1). split; [done|].
  split_and!; [|done|set_solver|set_solver]. split; simpl; [done| |done].
  rewrite <- (list_to_set_elements_L (d_cleanup d1)) at 1. apply Dispose_stored; [done|].
  intros id Hid%elem_of_elements%H5. destruct (Ha id Hid). rewrite length_app. lia.
Qed.
End dsl.

(** ** A concrete module: it forwards questions and remembers, as their context, who asked. *)
Module DslToy.
Definition ask (p : nat) : M nat (string * nat * option string) unit :=
  modify Datatypes.S;; emit ("hash", p, Some "alice").
Definition answer (p : nat) (ctx : string) : option (M nat (string * nat * option string) unit) :=
  if bool_decide (ctx = "alice") then Some (emit (ctx, p, None)) else None.
Definition m := UponMirEvent "Ask" (OnEvent ask) (UponMirEvent "Answer" (OnAnswer answer) NewModule).
Definition questions : list (dsl_event (P := nat) N) :=
  [mkDslEvent N (PbType "Ask") 5 None; mkDslEvent N (PbType "Ask") 6 None; mkDslEvent N TransportType 7 None].
Definition answers : list (dsl_event (P := nat) N) := [mkDslEvent N (PbType "Answer") 55 (Some 1%N)].
End DslToy.

Lemma contexts_travel_witness :
  ∃ out d, ApplyEvents DslToy.m DslToy.questions (dsl_start 0) = Ok (out, d) ∧
    out = [("hash", 5, Some 0%N); ("hash", 6, Some 1%N)] ∧
    ∃ out' d' gone, ApplyEvents DslToy.m DslToy.answers d = Ok (out', d') ∧
      Sim ["alice"; "alice"] gone d' 2 ∧ out' = [("alice", 55, None)].
Proof.
  destruct (contexts_travel DslToy.m 0) as [H0 Hstep].
  destruct (Hstep _ _ _ _ DslToy.questions 2 [("hash", 5, Some "alice"); ("hash", 6, Some "alice")] H0)
    as (out & d & gone & Ha & Hs & _ & Hg); [intros id Hid; vm_compute in Hid; set_solver|reflexivity|reflexivity|].
  exists out, d. split; [exact Ha|]. vm_compute in Ha. injection Ha as <- <-. split; [reflexivity|].
  destruct (Hstep _ _ _ _ DslToy.answers 2 [("alice", 55, None)] Hs) as (out' & d' & gone' & Ha' & Hs' & _);
    [|reflexivity|reflexivity|].
  - intros id Hid. unfold event_ids, DslToy.answers in Hid. simpl in Hid. assert (id = 1%N) as -> by set_solver.
    split; [simpl; lia|]. intros Hin. apply Hg in Hin. unfold event_ids, DslToy.questions in Hin. simpl in Hin. set_solver.
  - exists out', d', gone'. split; [exact Ha'|]. split; [exact Hs'|]. vm_compute in Ha'. by injection Ha' as <- _.
Defined.
