(* ===== verification/Factory.v ===== *)
(** * stdmodules/factory: submodules that are created and garbage-collected at run time

    Models factory.go over the message buffer: one definition per function.  Submodules are a parameter:
    their state, what they do with a list of events, and the generator that creates them.
    Submodules run in goroutines of their own; the order in which they finish, like the order in which
    a map is visited, is a [go_range]. *)
From Stdlib Require Import ZArith Lia.
From stdpp Require Import prelude strings gmap list fin_maps.
From S2P Require Import Prelude Util MessageBuffer PbftTypes Orderer Iss EventProcessing.

(** The events for the factory itself. *)
Inductive factory_event (Params : Type) :=
| FInit
| FNewSubmodule (id : string) (params : Params) (retIdx : N)
| FGarbageCollect (retIdx : N)
| FOther.
Arguments FInit {Params}.
Arguments FNewSubmodule {Params} _ _ _.
Arguments FGarbageCollect {Params} _.
Arguments FOther {Params}.

Section factory.
Context {Event Params Sm : Type} `{!ProtoSize Event}.
Context (Dest : Event → string) (kind : Event → factory_event Params).
(** Whether an event is a protobuf event with a received message. *)
Context (isMessageReceived : Event → bool).
Context (NewInit : string → Event).
Context (generator : string → Params → outcome Sm).
Context (sm_apply : string → list Event → Sm → outcome (list Event * Sm)).
Context (ownID : string).

Record factory := mkFactory {
  fm_submodules : gmap string Sm; fm_moduleRetention : gmap N (list string); fm_retIdx : N;
  fm_messageBuffer : MessageBuffer Event; fm_eventBuffer : gmap string (list Event);
}.

Definition New (msgBufSize : Z) : factory := mkFactory ∅ ∅ 0 (MsgBuf.New msgBufSize) ∅.

Definition bufferSubmoduleEvent (event : Event) (fm : factory) : factory :=
  let smID := Dest event in
  mkFactory (fm_submodules fm) (fm_moduleRetention fm) (fm_retIdx fm) (fm_messageBuffer fm)
    (<[smID := default [] (fm_eventBuffer fm !! smID) ++ [event]]> (fm_eventBuffer fm)).

Definition tryBuffering (event : Event) (mb : MessageBuffer Event) : outcome (MessageBuffer Event) :=
  if isMessageReceived event then r ← MsgBuf.Store mb event; Ok r.2 else Ok mb.

Fixpoint bufferEarlyMsgs (events : list Event) (mb : MessageBuffer Event) : outcome (MessageBuffer Event) :=
  match events with
  | [] => Ok mb
  | event :: events => mb ← tryBuffering event mb; bufferEarlyMsgs events mb
  end.

(** The loop over the event buffer: the messages of submodules that do not exist are
    buffered; the others are started. *)
Fixpoint start_submodules (submodules : gmap string Sm) (entries : list (string * list Event)) (mb : MessageBuffer Event)
    : outcome (MessageBuffer Event * list (string * list Event)) :=
  match entries with
  | [] => Ok (mb, [])
  | (smID, eventList) :: entries =>
      match submodules !! smID with
      | None => mb ← bufferEarlyMsgs eventList mb; start_submodules submodules entries mb
      | Some _ => r ← start_submodules submodules entries mb; Ok (r.1, (smID, eventList) :: r.2)
      end
  end.

(** The results in the order in which the goroutines finish. *)
Fixpoint collect_results (finished : list (string * list Event)) (submodules : gmap string Sm)
    : outcome (list Event * gmap string Sm) :=
  match finished with
  | [] => Ok ([], submodules)
  | (smID, eventList) :: finished =>
      submodule ← deref (submodules !! smID);
      r ← sm_apply smID eventList submodule;
      let '(evtsOut, submodule) := r in
      r ← collect_results finished (<[smID := submodule]> submodules);
      Ok (evtsOut ++ r.1, r.2)
  end.

Definition applySubmodulesEvents (rng : go_range) (fm : factory) : outcome (list Event * factory) :=
  r ← start_submodules (fm_submodules fm) (range_order rng 1 (map_to_list (fm_eventBuffer fm))) (fm_messageBuffer fm);
  let '(mb, started) := r in
  r ← collect_results (range_order rng 2 started) (fm_submodules fm);
  let '(eventsOut, submodules) := r in
  Ok (eventsOut, mkFactory submodules (fm_moduleRetention fm) (fm_retIdx fm) mb ∅).

Definition NewSubmodule (id : string) (params : Params) (retIdx : N) (fm : factory) : outcome (list Event * factory) :=
  if bool_decide (ModuleID.Top id ≠ ownID) then Err "submodule must have the factory's ID as a prefix"
  else if bool_decide (retIdx < fm_retIdx fm)%N then Ok ([], fm)
  else
    submodule ← generator id params;
    let moduleRetention := <[retIdx := default [] (fm_moduleRetention fm !! retIdx) ++ [id]]> (fm_moduleRetention fm) in
    r ← sm_apply id [NewInit id] submodule;
    let '(eventsOut, submodule) := r in
    let '(mb, bufferedMessages) :=
      MsgBuf.Iterate (fm_messageBuffer fm) (λ msg, if bool_decide (Dest msg = id) then Current else Future) in
    r ← sm_apply id bufferedMessages submodule;
    let '(results, submodule) := r in
    Ok (eventsOut ++ results,
        mkFactory (<[id := submodule]> (fm_submodules fm)) moduleRetention (fm_retIdx fm) mb (fm_eventBuffer fm)).

(** The loop of [garbageCollect] on the submodules, the retention map and the retention index. *)
Fixpoint gc_loop {A} (fuel : nat) (retIdx : N) (st : gmap string A * gmap N (list string) * N)
    : gmap string A * gmap N (list string) * N :=
  match fuel with
  | O => st
  | S fuel =>
      let '(submodules, moduleRetention, current) := st in
      if bool_decide (current < retIdx)%N then
        gc_loop fuel retIdx
          (foldl (λ s mID, delete mID s) submodules (default [] (moduleRetention !! current)),
           delete current moduleRetention, (current + 1)%N)
      else st
  end.
Definition garbageCollect (retIdx : N) (fm : factory) : list Event * factory :=
  let '(submodules, moduleRetention, current) :=
    gc_loop (N.to_nat (retIdx - fm_retIdx fm)) retIdx (fm_submodules fm, fm_moduleRetention fm, fm_retIdx fm) in
  ([], mkFactory submodules moduleRetention current (fm_messageBuffer fm) (fm_eventBuffer fm)).

(** The output of the submodules is dropped on [Init]. *)
Definition applyEvent (rng : go_range) (event : Event) (fm : factory) : outcome (list Event * factory) :=
  if bool_decide (Dest event ≠ ownID) then Ok ([], bufferSubmoduleEvent event fm)
  else
    r ← applySubmodulesEvents rng fm;
    let '(eventsOut, fm) := r in
    match kind event with
    | FInit => Ok ([], fm)
    | FNewSubmodule id params retIdx =>
        r ← NewSubmodule id params retIdx fm; Ok (eventsOut ++ r.1, r.2)
    | FGarbageCollect retIdx => let r := garbageCollect retIdx fm in Ok (eventsOut ++ r.1, r.2)
    | FOther => Err "unexpected event type"
    end.

Definition ApplyEvents (rng : go_range) (evts : list Event) (fm : factory) : outcome (list Event * factory) :=
  r ← ApplyEventsSequentially evts (applyEvent rng) fm;
  let '(eventsOut, fm) := r in
  r ← applySubmodulesEvents rng fm;
  let '(submoduleEventsOut, fm) := r in
  Ok (eventsOut ++ submoduleEventsOut, fm).

(** ** Specification

    One event at a time: it goes to its submodule at once.  A live submodule is
    the parameters it was created with and the events it received. *)
Record fspec := mkFspec {
  fs_live : gmap string (Params * list Event); fs_retention : gmap N (list string); fs_retIdx : N;
  fs_early : list Event;
}.
Definition for_id (id : string) (evs : list Event) : list Event := filter (λ ev, Dest ev = id) evs.
Definition not_for (id : string) (evs : list Event) : list Event := filter (λ ev, Dest ev ≠ id) evs.

(** Whether a submodule is registered under one of the indices from [from] up to [to]. *)
Definition registered (ret : gmap N (list string)) (from to : N) (id : string) : Prop :=
  map_Exists (λ idx ids, (from ≤ idx < to)%N ∧ id ∈ ids) ret.
#[global] Instance registered_dec ret from to id : Decision (registered ret from to id).
Proof. unfold registered. apply _. Defined.
Definition collectable (σ : fspec) (retIdx : N) (id : string) : Prop :=
  registered (fs_retention σ) (fs_retIdx σ) retIdx id.
#[global] Instance collectable_dec σ retIdx id : Decision (collectable σ retIdx id).
Proof. unfold collectable. apply _. Defined.

Inductive fspec_step (σ : fspec) (ev : Event) : fspec → Prop :=
(** An event for a live submodule is appended to what it received. *)
| spec_live params evs :
    Dest ev ≠ ownID → fs_live σ !! Dest ev = Some (params, evs) →
    fspec_step σ ev (mkFspec (<[Dest ev := (params, evs ++ [ev])]> (fs_live σ)) (fs_retention σ) (fs_retIdx σ) (fs_early σ))
(** A message for a submodule that does not exist is kept, other events are ignored. *)
| spec_early :
    Dest ev ≠ ownID → fs_live σ !! Dest ev = None →
    fspec_step σ ev (mkFspec (fs_live σ) (fs_retention σ) (fs_retIdx σ)
      (fs_early σ ++ (if isMessageReceived ev then [ev] else [])))
(** A new submodule receives Init and messages that came early, in order; messages may
    have been lost. *)
| spec_new id params retIdx early :
    Dest ev = ownID → kind ev = FNewSubmodule id params retIdx → ModuleID.Top id = ownID → (fs_retIdx σ ≤ retIdx)%N →
    early `sublist_of` for_id id (fs_early σ) →
    fspec_step σ ev (mkFspec (<[id := (params, NewInit id :: early)]> (fs_live σ))
      (<[retIdx := default [] (fs_retention σ !! retIdx) ++ [id]]> (fs_retention σ)) (fs_retIdx σ)
      (not_for id (fs_early σ)))
| spec_old id params retIdx :
    Dest ev = ownID → kind ev = FNewSubmodule id params retIdx → (retIdx < fs_retIdx σ)%N → fspec_step σ ev σ
(** Collecting garbage deletes exactly the submodules registered under an index below the
    new one, and moves the index forward, never back. *)
| spec_collect retIdx live retention :
    Dest ev = ownID → kind ev = FGarbageCollect retIdx →
    (∀ id, live !! id = if decide (collectable σ retIdx id) then None else fs_live σ !! id) →
    (∀ idx, retention !! idx = if decide (fs_retIdx σ ≤ idx < retIdx)%N then None else fs_retention σ !! idx) →
    fspec_step σ ev (mkFspec live retention (N.max (fs_retIdx σ) retIdx) (fs_early σ))
| spec_init : Dest ev = ownID → kind ev = FInit → fspec_step σ ev σ.

Inductive fspec_run : list Event → fspec → Prop :=
| fspec_start : fspec_run [] (mkFspec ∅ ∅ 0 [])
| fspec_more hist σ ev σ' : fspec_run hist σ → fspec_step σ ev σ' → fspec_run (hist ++ [ev]) σ'.

(** ** Refinement *)
(** The state of a submodule that processed [batches] since its creation. *)
Fixpoint processed (id : string) (batches : list (list Event)) (sm sm' : Sm) : Prop :=
  match batches with
  | [] => sm' = sm
  | b :: batches => ∃ out sm1, sm_apply id b sm = Ok (out, sm1) ∧ processed id batches sm1 sm'
  end.
Definition received (id : string) (params : Params) (sm : Sm) (evs : list Event) : Prop :=
  ∃ sm0 batches, generator id params = Ok sm0 ∧ processed id batches sm0 sm ∧ concat batches = evs.

Definition pending (fm : factory) (id : string) : list Event := default [] (fm_eventBuffer fm !! id).
Record Refines (fm : factory) (σ : fspec) : Prop := {
  rf_live id :
    match fm_submodules fm !! id, fs_live σ !! id with
    | Some sm, Some (params, evs) => ∃ evs', received id params sm evs' ∧ evs = evs' ++ pending fm id
    | None, None => True
    | _, _ => False
    end;
  rf_retention : fm_moduleRetention fm = fs_retention σ;
  rf_retIdx : fm_retIdx fm = fs_retIdx σ;
  rf_dest id ev : ev ∈ pending fm id → Dest ev = id ∧ id ≠ ownID;
  rf_early id : for_id id (messages (fm_messageBuffer fm)) ++
      (if fm_submodules fm !! id then [] else filter (λ ev, isMessageReceived ev = true) (pending fm id))
    `sublist_of` for_id id (fs_early σ);
}.

(** *** The message buffer *)
Definition early_of (evs : list Event) : list Event := filter (λ ev, isMessageReceived ev = true) evs.

Lemma evict_suffix msgs size extra cap msgs' size' :
  MsgBuf.evict msgs size extra cap = Ok (msgs', size') → msgs' `suffix_of` msgs.
Proof.
  revert size. induction msgs as [|m msgs IH]; intros size; cbn [MsgBuf.evict]; (case_bool_decide; [|by intros [= <- <-]]); [done|].
  intros ?%IH. by apply suffix_cons_r.
Qed.
Lemma bufferEarlyMsgs_sublist evs mb mb' :
  bufferEarlyMsgs evs mb = Ok mb' → messages mb' `sublist_of` messages mb ++ early_of evs.
Proof.
  revert mb. induction evs as [|ev evs IH]; intros mb; cbn [bufferEarlyMsgs]; [intros [= ->]; by rewrite app_nil_r|].
  unfold tryBuffering, early_of. rewrite filter_cons. destruct (isMessageReceived ev); simpl; [|apply IH].
  unfold MsgBuf.Store. case_bool_decide.
  - intros Hb%IH. etrans; [exact Hb|]. apply sublist_app; [done|by apply sublist_cons].
  - destruct (MsgBuf.evict _ _ _ _) as [[msgs size]| |] eqn:E; [|done..]. simpl. intros Hb%IH. etrans; [exact Hb|]. simpl.
    rewrite <- (assoc_L (++)). apply sublist_app; [|done].
    destruct (evict_suffix _ _ _ _ _ _ E) as [l ->]. by apply sublist_inserts_l.
Qed.

Lemma for_id_app id l1 l2 : for_id id (l1 ++ l2) = for_id id l1 ++ for_id id l2.
Proof. apply list.filter_app. Qed.
Lemma for_id_sublist id l1 l2 : l1 `sublist_of` l2 → for_id id l1 `sublist_of` for_id id l2.
Proof.
  unfold for_id. induction 1 as [|x l1 l2 _ IH|x l1 l2 _ IH]; [done|..]; rewrite !filter_cons; case_decide; try done.
  - by apply sublist_skip.
  - by apply sublist_cons.
Qed.
Lemma for_id_all id (evs : list Event) : (∀ ev, ev ∈ evs → Dest ev = id) → for_id id (early_of evs) = early_of evs.
Proof.
  intros Hd. unfold for_id, early_of. induction evs as [|ev evs IH]; [done|]. rewrite !filter_cons.
  case_decide; [|apply IH; intros; apply Hd; by right]. rewrite filter_cons, decide_True by (apply Hd; by left).
  f_equal. apply IH. intros. apply Hd. by right.
Qed.
Lemma for_id_none id (evs : list Event) : (∀ ev, ev ∈ evs → Dest ev ≠ id) → for_id id (early_of evs) = [].
Proof.
  intros Hd. unfold for_id, early_of. induction evs as [|ev evs IH]; [done|]. rewrite filter_cons.
  case_decide; [|apply IH; intros; apply Hd; by right]. rewrite filter_cons, decide_False by (apply Hd; by left).
  apply IH. intros. apply Hd. by right.
Qed.

(** *** One round of [applySubmodulesEvents] *)
Lemma start_submodules_spec subs entries mb mb' started id :
  start_submodules subs entries mb = Ok (mb', started) → NoDup entries.*1 →
  (∀ e ev, e ∈ entries → ev ∈ e.2 → Dest ev = e.1) →
  started = filter (λ e, is_Some (subs !! e.1)) entries ∧
  for_id id (messages mb') `sublist_of` for_id id (messages mb) ++
    (if subs !! id then [] else early_of (default [] ((list_to_map entries : gmap string (list Event)) !! id))).
Proof.
  revert mb mb' started. induction entries as [|[k evs] entries IH]; intros mb mb' started; cbn [start_submodules].
  { intros [= -> <-] _ _. split; [done|]. destruct (subs !! id); by rewrite app_nil_r. }
  intros Hs [Hk Hnd]%list.NoDup_cons Hd. simpl in Hk.
  assert (∀ e ev, e ∈ entries → ev ∈ e.2 → Dest ev = e.1) as Hd' by (intros e ev He; apply Hd; by right).
  assert ((list_to_map entries : gmap string (list Event)) !! k = None) as Hnone by by apply not_elem_of_list_to_map_1.
  rewrite filter_cons. cbn [fst]. destruct (subs !! k) as [sm|] eqn:E.
  - destruct (start_submodules subs entries mb) as [[mb1 st1]| |] eqn:E1; [|done..]. injection Hs as <- <-.
    destruct (IH _ _ _ E1 Hnd Hd') as [-> Hsub]. rewrite decide_True by done. split; [done|]. simpl.
    destruct (decide (k = id)) as [->|]; [by rewrite E in Hsub |- *|]. by rewrite lookup_insert_ne.
  - destruct (bufferEarlyMsgs evs mb) as [mb1| |] eqn:E1; [|done..]. cbn [mbind outcome_bind] in Hs.
    destruct (IH _ _ _ Hs Hnd Hd') as [-> Hsub]. rewrite decide_False by (by intros [? ?]). split; [done|].
    etrans; [exact Hsub|]. apply bufferEarlyMsgs_sublist, (for_id_sublist id) in E1. rewrite for_id_app in E1. simpl.
    assert (∀ ev, ev ∈ evs → Dest ev = k) as Hdk by (intros ev; apply (Hd (k, evs)); by left).
    destruct (decide (k = id)) as [->|Hne].
    + rewrite lookup_insert_eq, E, Hnone. simpl. rewrite app_nil_r. by rewrite for_id_all in E1.
    + rewrite lookup_insert_ne by done. apply sublist_app; [|done].
      rewrite for_id_none, app_nil_r in E1; [done|]. intros ev Hev. by rewrite (Hdk _ Hev).
Qed.

Lemma collect_results_spec finished subs out subs' id :
  collect_results finished subs = Ok (out, subs') → NoDup finished.*1 →
  match (list_to_map finished : gmap string (list Event)) !! id with
  | None => subs' !! id = subs !! id
  | Some evs => ∃ sm o sm', subs !! id = Some sm ∧ sm_apply id evs sm = Ok (o, sm') ∧ subs' !! id = Some sm'
  end.
Proof.
  revert subs out. induction finished as [|[k evs] finished IH]; intros subs out; cbn [collect_results].
  { intros [= <- <-] _. done. }
  intros Hc [Hk Hnd]%list.NoDup_cons. simpl in Hk.
  destruct (subs !! k) as [sm|] eqn:E; [|done]. cbn [deref mbind outcome_bind] in Hc.
  destruct (sm_apply k evs sm) as [[o sm']| |] eqn:Ea; [|done..]. cbn [mbind outcome_bind] in Hc.
  destruct (collect_results finished _) as [[out1 subs1]| |] eqn:Ec; [|done..]. injection Hc as <- <-.
  specialize (IH _ _ Ec Hnd). simpl. destruct (decide (k = id)) as [->|Hne].
  - rewrite lookup_insert_eq. assert ((list_to_map finished : gmap string (list Event)) !! id = None) as Hn
      by by apply not_elem_of_list_to_map_1.
    rewrite Hn, lookup_insert_eq in IH. by exists sm, o, sm'.
  - rewrite lookup_insert_ne by done. rewrite lookup_insert_ne in IH by done. exact IH.
Qed.

Lemma started_lookup (subs : gmap string Sm) (eb : gmap string (list Event)) entries finished id :
  entries ≡ₚ map_to_list eb → finished ≡ₚ filter (λ e, is_Some (subs !! e.1)) entries →
  NoDup entries.*1 ∧ NoDup finished.*1 ∧
  (list_to_map entries : gmap string (list Event)) = eb ∧
  (list_to_map finished : gmap string (list Event)) !! id = if subs !! id then eb !! id else None.
Proof.
  intros He Hf. assert (NoDup entries.*1) as Hn by (rewrite He; apply NoDup_fst_map_to_list).
  assert (NoDup finished.*1) as Hn'.
  { rewrite Hf. eapply sublist_NoDup; [exact Hn|]. apply fmap_sublist, sublist_filter. }
  split_and!; [done|done|by rewrite <- (list_to_map_to_list eb); apply list_to_map_proper|].
  apply option_eq. intros evs. rewrite <- elem_of_list_to_map, Hf, list_elem_of_filter, He, elem_of_map_to_list by done.
  simpl. destruct (subs !! id); [|split; [by intros [[? ?] _]|done]]. split; [by intros [_ ?]|done].
Qed.

Lemma applySubmodulesEvents_refines rng fm σ out fm' :
  Refines fm σ → applySubmodulesEvents rng fm = Ok (out, fm') → Refines fm' σ ∧ fm_eventBuffer fm' = ∅.
Proof.
  intros [H1 H2 H3 H4 H5]. unfold applySubmodulesEvents.
  set (entries := range_order rng 1 _). destruct (start_submodules _ entries _) as [[mb started]| |] eqn:Es; [|done..].
  cbn [mbind outcome_bind]. destruct (collect_results _ _) as [[out1 subs']| |] eqn:Ec; [|done..]. intros [= <- <-].
  assert (entries ≡ₚ map_to_list (fm_eventBuffer fm)) as Hent by apply range_order_perm.
  assert (∀ e ev, e ∈ entries → ev ∈ e.2 → Dest ev = e.1) as Hd.
  { intros [k evs] ev He Hev. simpl in *. rewrite Hent, elem_of_map_to_list in He. apply (H4 k). unfold pending. by rewrite He. }
  assert (NoDup entries.*1) as Hn by (rewrite Hent; apply NoDup_fst_map_to_list).
  pose proof (start_submodules_spec _ _ _ _ _ "" Es Hn Hd) as [-> _].
  assert (range_order rng 2 (filter (λ e, is_Some (fm_submodules fm !! e.1)) entries) ≡ₚ
    filter (λ e, is_Some (fm_submodules fm !! e.1)) entries) as Hfin by apply range_order_perm.
  split; [|done]. split; simpl; [|done|done|unfold pending; simpl; intros id ev; rewrite lookup_empty; set_solver|].
  - intros id. destruct (started_lookup _ _ _ _ id Hent Hfin) as (_ & Hnf & _ & Hl).
    pose proof (collect_results_spec _ _ _ _ id Ec Hnf) as Hc. rewrite Hl in Hc. specialize (H1 id).
    unfold pending in *. simpl. rewrite lookup_empty. simpl. destruct (fm_submodules fm !! id) as [sm|] eqn:Esm.
    + destruct (fm_eventBuffer fm !! id) as [evs|] eqn:Eev.
      * destruct Hc as (sm0 & o & sm' & [= <-] & Ha & ->). destruct (fs_live σ !! id) as [[params all]|]; [|done].
        destruct H1 as (evs' & (sm1 & batches & Hg & Hp & Hcat) & ->). simpl. exists (evs' ++ evs).
        rewrite app_nil_r. split; [|done]. exists sm1, (batches ++ [evs]). split_and!; [done| |by rewrite concat_app, Hcat; simpl; rewrite app_nil_r].
        clear -Hp Ha. revert sm1 Hp. induction batches as [|b batches IH]; simpl; [intros sm1 ->; eauto|].
        intros sm1 (o1 & sm2 & ? & ?). exists o1, sm2. split; [done|]. by apply IH.
      * rewrite Hc. done.
    + rewrite Hc. done.
  - intros id. destruct (started_lookup _ _ _ _ id Hent Hfin) as (_ & Hnf & Hmap & Hl).
    pose proof (start_submodules_spec _ _ _ _ _ id Es Hn Hd) as [_ Hsub]. rewrite Hmap in Hsub.
    unfold pending. simpl. rewrite lookup_empty. simpl. etrans; [|apply (H5 id)]. etrans; [|exact Hsub].
    by destruct (subs' !! id); rewrite app_nil_r.
Qed.

Lemma bufferSubmoduleEvent_refines ev fm σ :
  Refines fm σ → Dest ev ≠ ownID → ∃ σ', fspec_step σ ev σ' ∧ Refines (bufferSubmoduleEvent ev fm) σ'.
Proof.
  intros [H1 H2 H3 H4 H5] Hd.
  assert (∀ id, pending (bufferSubmoduleEvent ev fm) id = if decide (id = Dest ev) then pending fm id ++ [ev] else pending fm id) as Hp.
  { intros id. unfold pending, bufferSubmoduleEvent. simpl. case_decide as Heq; [subst; by rewrite lookup_insert_eq|by rewrite lookup_insert_ne]. }
  assert (∀ id ev', ev' ∈ pending (bufferSubmoduleEvent ev fm) id → Dest ev' = id ∧ id ≠ ownID) as Hdest.
  { intros id ev'. rewrite Hp. case_decide as Heq; [subst|by apply H4].
    intros [?%H4| ->%list_elem_of_singleton]%elem_of_app; done. }
  pose proof (H1 (Dest ev)) as Hlive. destruct (fm_submodules fm !! Dest ev) as [sm|] eqn:Esm;
    destruct (fs_live σ !! Dest ev) as [[params evs]|] eqn:Elive; try done.
  - eexists. split; [by eapply spec_live|]. split; [|done|done|done|]; cbn [fs_live fs_retention fs_retIdx fs_early].
    + intros id. simpl. destruct (decide (id = Dest ev)) as [->|Hne].
      * rewrite Esm, lookup_insert_eq, Hp, decide_True by done. destruct Hlive as (evs' & Hr & ->). exists evs'.
        split; [done|]. by rewrite (assoc_L (++)).
      * rewrite lookup_insert_ne, Hp, decide_False by done. apply H1.
    + intros id. rewrite Hp. simpl. specialize (H5 id). case_decide as Heq; [subst; by rewrite Esm in H5 |- *|done].
  - eexists. split; [by eapply spec_early|]. split; [|done|done|done|]; cbn [fs_live fs_retention fs_retIdx fs_early].
    + intros id. simpl. rewrite Hp. case_decide as Heq; [subst; by rewrite Esm, Elive|apply H1].
    + intros id. rewrite Hp. simpl. specialize (H5 id). rewrite for_id_app. case_decide as Heq.
      * subst. rewrite Esm in H5 |- *. unfold early_of in *. rewrite list.filter_app, (assoc_L (++)). apply sublist_app; [done|].
        rewrite filter_cons. case_decide as Hm; [|by apply sublist_nil_l].
        rewrite Hm. unfold for_id. by rewrite filter_cons, decide_True.
      * etrans; [exact H5|]. by apply sublist_inserts_r.
Qed.

Lemma Iterate_for_id id (mb : MessageBuffer Event) :
  let r := MsgBuf.Iterate mb (λ msg, if bool_decide (Dest msg = id) then Current else Future) in
  messages r.1 = not_for id (messages mb) ∧ r.2 = for_id id (messages mb).
Proof.
  unfold MsgBuf.Iterate. set (flt := λ msg, if bool_decide (Dest msg = id) then Current else Future).
  destruct (MsgBuf.iterate_msgs_spec flt (messages mb) (buf_size mb)) as (size' & -> & _).
  split; simpl; apply list_filter_iff; intros ev; unfold flt; by case_bool_decide.
Qed.
Lemma for_id_not_for id id' (evs : list Event) : for_id id (not_for id' evs) = if decide (id = id') then [] else for_id id evs.
Proof.
  unfold for_id, not_for. rewrite list_filter_filter. case_decide as Heq.
  - subst. induction evs as [|ev evs IH]; [done|]. rewrite filter_cons, decide_False; [done|]. by intros [? ?].
  - apply list_filter_iff. intros ev. split; [by intros [? _]|]. intros <-. split; [done|]. congruence.
Qed.

Lemma NewSubmodule_refines ev id params retIdx fm σ out fm' :
  Refines fm σ → fm_eventBuffer fm = ∅ → Dest ev = ownID → kind ev = FNewSubmodule id params retIdx →
  NewSubmodule id params retIdx fm = Ok (out, fm') →
  ∃ σ', fspec_step σ ev σ' ∧ Refines fm' σ' ∧ fm_eventBuffer fm' = ∅.
Proof.
  intros Hr He Hd Hk. pose proof Hr as [H1 H2 H3 H4 H5]. unfold NewSubmodule. case_bool_decide as Htop; [done|].
  case_bool_decide as Hold.
  { intros [= <- <-]. exists σ. split; [|done]. eapply spec_old; [done|done|by rewrite <- H3]. }
  destruct (generator id params) as [sm0| |] eqn:Eg; [|done..]. cbn [mbind outcome_bind].
  destruct (sm_apply id [NewInit id] sm0) as [[o1 sm1]| |] eqn:E1; [|done..]. cbn [mbind outcome_bind].
  pose proof (Iterate_for_id id (fm_messageBuffer fm)) as [Hkept Hcur]. destruct (MsgBuf.Iterate _ _) as [mb cur]. simpl in Hkept, Hcur.
  destruct (sm_apply id cur sm1) as [[o2 sm2]| |] eqn:E2; [|done..]. cbn [mbind outcome_bind]. intros [= <- <-].
  assert (∀ j, pending fm j = []) as Hpend by (intros j; unfold pending; by rewrite He, lookup_empty).
  assert (∀ j, for_id j (messages (fm_messageBuffer fm)) `sublist_of` for_id j (fs_early σ)) as Hsub.
  { intros j. etrans; [|apply (H5 j)]. by apply sublist_inserts_r. }
  eexists. split; [eapply (spec_new σ ev id params retIdx cur); [done|done|done|rewrite <- H3; lia|by rewrite Hcur]|].
  split; [|done]. split; cbn [fm_submodules fm_moduleRetention fm_retIdx fm_messageBuffer fs_live fs_retention fs_retIdx fs_early].
  - intros j. unfold pending. simpl. fold (pending fm j). rewrite Hpend. destruct (decide (id = j)) as [<-|Hne].
    + rewrite !lookup_insert_eq. exists (NewInit id :: cur). rewrite app_nil_r. split; [|done].
      exists sm0, [[NewInit id]; cur]. split_and!; [done| |simpl; by rewrite app_nil_r].
      simpl. exists o1, sm1. split; [done|]. by exists o2, sm2.
    + rewrite !lookup_insert_ne by done. specialize (H1 j). by rewrite Hpend in H1.
  - by rewrite H2.
  - done.
  - intros j ev'. unfold pending. simpl. by apply H4.
  - intros j. unfold pending. simpl. fold (pending fm j). rewrite Hpend, Hkept, !for_id_not_for.
    case_decide; [by destruct (<[id:=sm2]> _ !! j)|]. by destruct (<[id:=sm2]> _ !! j); rewrite app_nil_r.
Qed.

(** What the loop of [garbageCollect] computes. *)
Lemma delete_all_lookup {A} l (m : gmap string A) id :
  foldl (λ s mID, delete mID s) m l !! id = if decide (id ∈ l) then None else m !! id.
Proof.
  revert m. induction l as [|x l IHl]; intros m; simpl; [done|]. rewrite IHl. destruct (decide (id = x)) as [->|].
  - rewrite lookup_delete_eq. case_decide; (rewrite decide_True by set_solver); done.
  - rewrite lookup_delete_ne by done. destruct (decide (id ∈ l)); [by rewrite decide_True by set_solver|].
    by rewrite decide_False by set_solver.
Qed.
Lemma registered_next ret from to id :
  (from < to)%N →
  registered ret from to id ↔ id ∈ default [] (ret !! from) ∨ registered (delete from ret) (from + 1) to id.
Proof.
  intros Hlt. unfold registered, map_Exists. split.
  - intros (idx & ids & Hl & Hr & Hin). destruct (decide (from = idx)) as [<-|Hne]; [left; by rewrite Hl|].
    right. exists idx, ids. rewrite lookup_delete_ne by done. split_and!; [done|lia|lia|done].
  - intros [Hin|(idx & ids & [Hne Hl]%lookup_delete_Some & Hr & Hin)]; [|exists idx, ids; split_and!; [done|lia|lia|done]].
    destruct (ret !! from) as [ids|] eqn:E; [|set_solver]. exists from, ids. split_and!; [done|lia|lia|done].
Qed.
Lemma gc_loop_spec {A} r idx (g : gmap string A) ret :
  let '(g', ret', idx') := gc_loop (N.to_nat (r - idx)) r (g, ret, idx) in
  idx' = N.max idx r ∧
  (∀ j, ret' !! j = if decide (idx ≤ j < r)%N then None else ret !! j) ∧
  (∀ id, g' !! id = if decide (registered ret idx r id) then None else g !! id).
Proof.
  remember (N.to_nat (r - idx)) as fuel eqn:Hf. revert g ret idx Hf. induction fuel as [|fuel IH]; intros g ret idx Hf; cbn [gc_loop].
  { split_and!; [lia|intros j; rewrite decide_False by lia; done|]. intros id. rewrite decide_False; [done|].
    intros (j & ids & _ & Hr & _). lia. }
  rewrite bool_decide_eq_true_2 by lia.
  specialize (IH (foldl (λ s mID, delete mID s) g (default [] (ret !! idx))) (delete idx ret) (idx + 1)%N ltac:(lia)).
  destruct (gc_loop fuel r _) as [[g' ret'] idx']. destruct IH as (-> & Hret & Hg). split_and!; [lia|..].
  - intros j. rewrite Hret. destruct (decide (idx = j)) as [<-|Hne].
    + rewrite lookup_delete_eq, (decide_True (P := (idx ≤ idx < r)%N)) by lia. by case_decide.
    + rewrite lookup_delete_ne by done. case_decide; [by rewrite decide_True by lia|by rewrite decide_False by lia].
  - intros id. rewrite Hg, delete_all_lookup. pose proof (registered_next ret idx r id ltac:(lia)) as Hn.
    repeat case_decide; tauto.
Qed.
Lemma garbageCollect_refines ev retIdx fm σ :
  Refines fm σ → fm_eventBuffer fm = ∅ → Dest ev = ownID → kind ev = FGarbageCollect retIdx →
  ∃ σ', fspec_step σ ev σ' ∧ Refines (garbageCollect retIdx fm).2 σ' ∧ fm_eventBuffer (garbageCollect retIdx fm).2 = ∅.
Proof.
  intros [H1 H2 H3 H4 H5] He Hd Hk. unfold garbageCollect.
  assert (∀ j, pending fm j = []) as Hpend by (intros j; unfold pending; by rewrite He, lookup_empty).
  pose proof (gc_loop_spec retIdx (fm_retIdx fm) (fm_submodules fm) (fm_moduleRetention fm)) as G1.
  pose proof (gc_loop_spec retIdx (fs_retIdx σ) (fs_live σ) (fs_retention σ)) as G2.
  destruct (gc_loop _ retIdx (fm_submodules fm, _, _)) as [[subs ret1] idx1].
  destruct (gc_loop _ retIdx (fs_live σ, _, _)) as [[live ret2] idx2].
  destruct G1 as (-> & Hret1 & Hg1), G2 as (-> & Hret2 & Hg2).
  eexists. split; [by eapply (spec_collect σ ev retIdx live ret2)|]. split; [|done].
  split; cbn [fm_submodules fm_moduleRetention fm_retIdx fm_messageBuffer fs_live fs_retention fs_retIdx fs_early].
  - intros id. unfold pending. simpl. fold (pending fm id). rewrite Hg1, Hg2, H2, H3. case_decide; [done|apply H1].
  - apply map_eq. intros idx. by rewrite Hret1, Hret2, H2, H3.
  - by rewrite H3.
  - intros id ev'. unfold pending. simpl. apply H4.
  - intros id. unfold pending. simpl. fold (pending fm id). specialize (H5 id). rewrite Hpend in H5 |- *.
    etrans; [|exact H5]. by destruct (subs !! id), (fm_submodules fm !! id).
Qed.

Lemma applyEvent_refines rng ev fm σ out fm' :
  Refines fm σ → applyEvent rng ev fm = Ok (out, fm') → ∃ σ', fspec_step σ ev σ' ∧ Refines fm' σ'.
Proof.
  intros Hr. unfold applyEvent. case_bool_decide as Hd; [intros [= <- <-]; by apply bufferSubmoduleEvent_refines|].
  destruct (applySubmodulesEvents rng fm) as [[o fm1]| |] eqn:Es; [|done..]. cbn [mbind outcome_bind].
  destruct (applySubmodulesEvents_refines _ _ _ _ _ Hr Es) as [Hr1 He1]. destruct (kind ev) as [|id params r|r|] eqn:Hk.
  - intros [= <- <-]. exists σ. split; [by apply spec_init|done].
  - destruct (NewSubmodule id params r fm1) as [[o2 fm2]| |] eqn:En; [|done..]. cbn. intros [= <- <-].
    destruct (NewSubmodule_refines _ _ _ _ _ _ _ _ Hr1 He1 Hd Hk En) as (σ' & ? & ? & _). by exists σ'.
  - intros [= <- <-]. destruct (garbageCollect_refines _ _ _ _ Hr1 He1 Hd Hk) as (σ' & ? & ? & _). by exists σ'.
  - done.
Qed.

(** ** Runs *)
Inductive factory_run (msgBufSize : Z) : list Event → factory → Prop :=
| factory_start : factory_run msgBufSize [] (New msgBufSize)
| factory_step hist fm rng evts out fm' :
    factory_run msgBufSize hist fm → ApplyEvents rng evts fm = Ok (out, fm') →
    factory_run msgBufSize (hist ++ evts) fm'.

Lemma Refines_start cap : Refines (New cap) (mkFspec ∅ ∅ 0 []).
Proof.
  split; simpl; [by intros id; rewrite !lookup_empty|done|done|..].
  - intros id ev. unfold pending. simpl. rewrite lookup_empty. set_solver.
  - intros id. unfold pending. simpl. rewrite !lookup_empty. done.
Qed.
Lemma sequential_refines rng evts hist fm σ out fm' :
  Refines fm σ → fspec_run hist σ → ApplyEventsSequentially evts (applyEvent rng) fm = Ok (out, fm') →
  ∃ σ', fspec_run (hist ++ evts) σ' ∧ Refines fm' σ'.
Proof.
  revert hist fm σ out. induction evts as [|ev evts IH]; intros hist fm σ out Hr Hs; cbn [ApplyEventsSequentially].
  { intros [= <- <-]. exists σ. by rewrite app_nil_r. }
  destruct (applyEvent rng ev fm) as [[o1 fm1]| |] eqn:Ea; [|done..]. cbn [mbind outcome_bind].
  destruct (ApplyEventsSequentially evts _ fm1) as [[o2 fm2]| |] eqn:Eb; [|done..]. intros [= <- <-].
  destruct (applyEvent_refines _ _ _ _ _ _ Hr Ea) as (σ1 & Hstep & Hr1).
  replace (hist ++ ev :: evts) with ((hist ++ [ev]) ++ evts) by by rewrite <- app_assoc.
  eapply IH; [exact Hr1|by eapply fspec_more|exact Eb].
Qed.
Lemma factory_run_refines cap hist fm :
  factory_run cap hist fm → ∃ σ, fspec_run hist σ ∧ Refines fm σ ∧ fm_eventBuffer fm = ∅.
Proof.
  induction 1 as [|hist fm rng evts out fm' _ (σ & Hs & Hr & _) Ha].
  { eexists. split; [apply fspec_start|]. split; [apply Refines_start|done]. }
  unfold ApplyEvents in Ha. destruct (ApplyEventsSequentially evts _ fm) as [[o1 fm1]| |] eqn:Ea; [|done..].
  cbn [mbind outcome_bind] in Ha. destruct (applySubmodulesEvents rng fm1) as [[o2 fm2]| |] eqn:Eb; [|done..].
  injection Ha as <- <-. destruct (sequential_refines _ _ _ _ _ _ _ Hr Hs Ea) as (σ1 & Hs1 & Hr1).
  destruct (applySubmodulesEvents_refines _ _ _ _ _ Hr1 Eb) as [Hr2 He2]. by exists σ1.
Qed.

(** *** The factory itself never fails *)
Definition buffer_ok (fm : factory) : Prop := MsgBuf.inv (fm_messageBuffer fm).

Lemma bufferEarlyMsgs_total evs mb : MsgBuf.inv mb → ∃ mb', bufferEarlyMsgs evs mb = Ok mb' ∧ MsgBuf.inv mb'.
Proof.
  revert mb. induction evs as [|ev evs IH]; intros mb Hi; cbn [bufferEarlyMsgs]; [by exists mb|]. unfold tryBuffering.
  destruct (isMessageReceived ev); [|by apply IH].
  assert (∃ r, MsgBuf.Store mb ev = Ok r) as [[b mb1] Hst].
  { destruct (decide (proto_Size ev ≤ capacity mb)%Z); [rewrite MsgBuf.Store_fit by done; by eexists|].
    unfold MsgBuf.Store. rewrite bool_decide_eq_true_2 by lia. by eexists. }
  rewrite Hst. apply IH. by destruct (MsgBuf.Store_inv _ _ _ _ Hi Hst).
Qed.
Lemma start_submodules_total subs entries mb :
  MsgBuf.inv mb → ∃ mb' started, start_submodules subs entries mb = Ok (mb', started) ∧ MsgBuf.inv mb' ∧
    ∀ e, e ∈ started → is_Some (subs !! e.1).
Proof.
  revert mb. induction entries as [|[k evs] entries IH]; intros mb Hi; cbn [start_submodules].
  { exists mb, []. split_and!; [done|done|set_solver]. }
  destruct (subs !! k) as [sm|] eqn:E.
  - destruct (IH mb Hi) as (mb' & st & -> & Hi' & Hst). exists mb', ((k, evs) :: st). split_and!; [done|done|].
    intros e [->|?]%elem_of_cons; [simpl; by rewrite E|by apply Hst].
  - destruct (bufferEarlyMsgs_total evs mb Hi) as (mb1 & -> & Hi1). by apply IH.
Qed.

Section total.
Context (sm_total : ∀ id evs sm, ∃ r, sm_apply id evs sm = Ok r) (gen_total : ∀ id params, ∃ sm, generator id params = Ok sm).

Lemma collect_results_total finished (subs : gmap string Sm) :
  (∀ e, e ∈ finished → is_Some (subs !! e.1)) → ∃ r, collect_results finished subs = Ok r.
Proof.
  revert subs. induction finished as [|[k evs] finished IH]; intros subs Hl; cbn [collect_results]; [by eexists|].
  destruct (Hl (k, evs) ltac:(by left)) as [sm Hsm]. simpl in Hsm. rewrite Hsm. cbn [deref mbind outcome_bind].
  destruct (sm_total k evs sm) as [[o sm'] ->]. cbn [mbind outcome_bind].
  destruct (IH (<[k := sm']> subs)) as [r ->]; [|by eexists].
  intros e He. rewrite lookup_insert_is_Some'. right. apply Hl. by right.
Qed.
Lemma applySubmodulesEvents_total rng fm :
  buffer_ok fm → ∃ out fm', applySubmodulesEvents rng fm = Ok (out, fm') ∧ buffer_ok fm'.
Proof.
  intros Hi. unfold applySubmodulesEvents.
  destruct (start_submodules_total (fm_submodules fm) (range_order rng 1 (map_to_list (fm_eventBuffer fm))) _ Hi)
    as (mb & st & -> & Hi' & Hst). cbn [mbind outcome_bind].
  destruct (collect_results_total (range_order rng 2 st) (fm_submodules fm)) as [[o subs] ->].
  { intros e. rewrite range_order_perm. apply Hst. }
  by do 2 eexists.
Qed.

(** Events for the factory that it accepts. *)
Definition accepted_event (ev : Event) : Prop :=
  Dest ev = ownID → kind ev ≠ FOther ∧ ∀ id params r, kind ev = FNewSubmodule id params r → ModuleID.Top id = ownID.

Lemma applyEvent_total rng ev fm :
  buffer_ok fm → accepted_event ev → ∃ out fm', applyEvent rng ev fm = Ok (out, fm') ∧ buffer_ok fm'.
Proof.
  intros Hi Hacc. unfold applyEvent. case_bool_decide as Hd; [by do 2 eexists|].
  destruct (applySubmodulesEvents_total rng fm Hi) as (o & fm1 & -> & Hi1). cbn [mbind outcome_bind].
  destruct (Hacc Hd) as [Hno Hnew]. destruct (kind ev) as [|id params r|r|] eqn:Hk; [by do 2 eexists| | |done].
  - unfold NewSubmodule. rewrite bool_decide_eq_false_2 by (intros Hn; apply Hn; by eapply Hnew).
    case_bool_decide; [by do 2 eexists|]. destruct (gen_total id params) as [sm0 ->]. cbn [mbind outcome_bind].
    destruct (sm_total id [NewInit id] sm0) as [[o1 sm1] ->]. cbn [mbind outcome_bind].
    pose proof (MsgBuf.Iterate_spec (fm_messageBuffer fm1)
      (λ msg, if bool_decide (Dest msg = id) then Current else Future) Hi1) as (_ & _ & Hi2).
    destruct (MsgBuf.Iterate _ _) as [mb cur]. destruct (sm_total id cur sm1) as [[o2 sm2] ->]. by do 2 eexists.
  - do 2 eexists. split; [done|]. unfold garbageCollect. destruct (gc_loop _ _ _) as [[? ?] ?]. done.
Qed.
Lemma ApplyEvents_total rng evts fm :
  buffer_ok fm → (∀ ev, ev ∈ evts → accepted_event ev) → ∃ out fm', ApplyEvents rng evts fm = Ok (out, fm') ∧ buffer_ok fm'.
Proof.
  intros Hi Hacc. unfold ApplyEvents.
  assert (∃ o fm1, ApplyEventsSequentially evts (applyEvent rng) fm = Ok (o, fm1) ∧ buffer_ok fm1) as (o & fm1 & -> & Hi1).
  { revert fm Hi. induction evts as [|ev evts IH]; intros fm Hi; cbn [ApplyEventsSequentially]; [by do 2 eexists|].
    destruct (applyEvent_total rng ev fm Hi (Hacc ev ltac:(by left))) as (o1 & fm1 & -> & Hi1). cbn [mbind outcome_bind].
    destruct (IH ltac:(intros; apply Hacc; by right) fm1 Hi1) as (o2 & fm2 & -> & Hi2). by do 2 eexists. }
  cbn [mbind outcome_bind]. destruct (applySubmodulesEvents_total rng fm1 Hi1) as (o2 & fm2 & -> & Hi2). by do 2 eexists.
Qed.
Lemma factory_run_buffer cap hist fm :
  (0 ≤ cap)%Z → factory_run cap hist fm → (∀ ev, ev ∈ hist → accepted_event ev) → buffer_ok fm.
Proof.
  intros Hc. induction 1 as [|hist fm rng evts out fm' _ IH Ha]; intros Hacc; [by split|].
  destruct (ApplyEvents_total rng evts fm) as (o & fm2 & Ha2 & Hi2); [apply IH; set_solver|set_solver|].
  rewrite Ha in Ha2. by injection Ha2 as <- <-.
Qed.

End total.


Lemma applySubmodulesEvents_none rng fm :
  fm_eventBuffer fm = ∅ → applySubmodulesEvents rng fm = Ok ([], fm).
Proof.
  intros He. unfold applySubmodulesEvents.
  assert (∀ i A, range_order rng i (@nil A) = []) as Hnil by (intros; apply Permutation_nil_r, range_order_perm).
  rewrite He, map_to_list_empty, Hnil. simpl. rewrite Hnil. simpl. by destruct fm; simpl in *; subst.
Qed.
(** The output of submodules is lost when an Init event for the factory comes after their
    events in one list: the submodules process their events as without it, and the factory
    returns nothing. *)
Theorem init_drops_output rng ev init fm out fm' :
  Dest ev ≠ ownID → Dest init = ownID → kind init = FInit →
  ApplyEvents rng [ev] fm = Ok (out, fm') → ApplyEvents rng [ev; init] fm = Ok ([], fm').
Proof.
  intros Hd Hi Hk. unfold ApplyEvents, applyEvent. cbn [ApplyEventsSequentially].
  rewrite (bool_decide_eq_true_2 (Dest ev ≠ ownID)), (bool_decide_eq_false_2 (Dest init ≠ ownID)), Hk by (done || by intros []).
  cbn [mbind outcome_bind fst snd app].
  destruct (applySubmodulesEvents rng (bufferSubmoduleEvent ev fm)) as [[o fm1]| |] eqn:E; [|done..]. simpl. intros [= <- <-].
  rewrite applySubmodulesEvents_none; [done|].
  unfold applySubmodulesEvents in E. destruct (start_submodules _ _ _) as [[mb st]| |]; [|done..]. simpl in E.
  destruct (collect_results _ _) as [[o1 subs]| |]; [|done..]. by injection E as <- <-.
Qed.
End factory.

(** ** A factory of modules that echo what they receive *)
Module Echo.
Inductive event := EvInit (dest : string) | EvNew (id : string) (retIdx : N) | EvCollect (retIdx : N) | EvMsg (dest : string) (n : nat).
Definition dest_of (ev : event) : string :=
  match ev with EvInit d => d | EvNew _ _ => "f" | EvCollect _ => "f" | EvMsg d _ => d end.
Definition kind_of (ev : event) : factory_event unit :=
  match ev with EvInit _ => FInit | EvNew id r => FNewSubmodule id () r | EvCollect r => FGarbageCollect r | EvMsg _ _ => FOther end.
Definition is_msg (ev : event) : bool := match ev with EvMsg _ _ => true | _ => false end.
#[export] Instance event_size : ProtoSize event.
Proof. by refine {| proto_Size := λ _, 1%Z |}. Defined.
Definition generate (id : string) (_ : unit) : outcome (list event) := Ok [].
Definition echo (id : string) (evs : list event) (sm : list event) : outcome (list event * list event) := Ok (evs, sm ++ evs).

Definition apply (evts : list event) (fm : factory) : outcome (list event * factory) :=
  ApplyEvents dest_of kind_of is_msg EvInit generate echo "f" range_id evts fm.
Definition history : list event := [EvMsg "f/a" 1; EvInit "f"; EvMsg "f/a" 2; EvNew "f/a" 3; EvMsg "f/a" 4].
Definition after : factory := match apply history (New 10) with Ok r => r.2 | _ => New 10 end.

Notation accepted := (accepted_event dest_of kind_of "f").
Lemma message_accepted d n : d ≠ "f" → accepted (EvMsg d n).
Proof. by intros ? ?. Qed.
Lemma history_accepted ev : ev ∈ history → accepted ev.
Proof.
  unfold history. rewrite !elem_of_cons. intros [->|[->|[->|[->|[->|[]%not_elem_of_nil]]]]]; try by apply message_accepted.
  - by intros _.
  - intros _. split; [done|]. by intros id params r [= <- _ _].
Qed.
Lemma more_accepted ev : ev ∈ [EvCollect 4; EvMsg "f/a" 5] → accepted ev.
Proof. rewrite !elem_of_cons. intros [->|[->|[]%not_elem_of_nil]]; [by intros _|by apply message_accepted]. Qed.

Definition after5 : factory := match apply [EvMsg "f/a" 5] after with Ok r => r.2 | _ => after end.
End Echo.
Import Echo.

Lemma init_drops_output_witness :
  apply [EvMsg "f/a" 5] after = Ok ([EvMsg "f/a" 5], after5) ∧ apply [EvMsg "f/a" 5; EvInit "f"] after = Ok ([], after5).
Proof.
  assert (apply [EvMsg "f/a" 5] after = Ok ([EvMsg "f/a" 5], after5)) as E by (vm_compute; reflexivity).
  split; [exact E|].
  refine (init_drops_output dest_of kind_of is_msg EvInit generate echo "f" range_id (EvMsg "f/a" 5) (EvInit "f") after
    [EvMsg "f/a" 5] after5 _ eq_refl eq_refl E). discriminate.
Defined.
