(* ===== verification/Timer.v ===== *)
(** * stdmodules/timer: delayed and repeated events

    Models timer.go.  Delay and Repeat start a goroutine each; a goroutine is a task here, and a
    step of the timer is a step of one of its tasks, the passing of time, a request, or the
    cancellation of the context.  Time counts nanoseconds, as time.Duration does.  A Go ticker
    has a channel that holds one tick: a tick that is not consumed in time is
    lost.  [tm_writes] records who wrote to the output channel and when. *)
From Stdlib Require Import ZArith Lia.
From stdpp Require Import prelude gmap strings list fin_maps numbers.
From S2P Require Import Prelude.

Section timer.
Context {Events : Type}.

Inductive job := JobDelay (delay : Z) | JobRepeat (period : Z) (retIndex : N).
Record ticker := mkTicker { tk_next : Z; tk_ready : bool }.
(** The program points of the two goroutines. *)
Inductive progress :=
| Spawned
| DelayWaiting (until : Z) | DelayWriting
| RepeatChecking (t : ticker) | RepeatWriting (t : ticker) | RepeatWaiting (t : ticker)
| Finished.
Record task := mkTask { ta_events : Events; ta_job : job; ta_requested : Z; ta_at : progress }.

Record Timer := mkTimer {
  tm_retIndex : N; tm_tasks : list task; tm_now : Z; tm_ctxDone : bool; tm_crashed : bool;
  tm_writes : list (nat * Z * Events);
}.

Definition New (now : Z) : Timer := mkTimer 0 [] now false false [].

Definition with_task i ta (tm : Timer) : Timer :=
  mkTimer (tm_retIndex tm) (<[i := ta]> (tm_tasks tm)) (tm_now tm) (tm_ctxDone tm) (tm_crashed tm) (tm_writes tm).
Definition spawn (j : job) (events : Events) (tm : Timer) : Timer :=
  mkTimer (tm_retIndex tm) (tm_tasks tm ++ [mkTask events j (tm_now tm) Spawned]) (tm_now tm) (tm_ctxDone tm) (tm_crashed tm)
    (tm_writes tm).

Definition Delay (events : Events) (delay : Z) (tm : Timer) : Timer := spawn (JobDelay delay) events tm.
Definition Repeat (events : Events) (period : Z) (retIndex : N) (tm : Timer) : Timer :=
  spawn (JobRepeat period retIndex) events tm.
Definition GarbageCollect (retIndex : N) (tm : Timer) : Timer :=
  mkTimer (if bool_decide (tm_retIndex tm < retIndex)%N then retIndex else tm_retIndex tm)
    (tm_tasks tm) (tm_now tm) (tm_ctxDone tm) (tm_crashed tm) (tm_writes tm).

Inductive timer_event :=
| TInit | TDelay (events : Events) (delay : Z) | TRepeat (events : Events) (period : Z) (retIndex : N)
| TGarbageCollect (retIndex : N) | TOther.

Definition applyEvent (ev : timer_event) (tm : Timer) : outcome Timer :=
  match ev with
  | TInit => Ok tm
  | TDelay events delay => Ok (Delay events delay tm)
  | TRepeat events period retIndex => Ok (Repeat events period retIndex tm)
  | TGarbageCollect retIndex => Ok (GarbageCollect retIndex tm)
  | TOther => Err "unexpected event type"
  end.
Fixpoint ApplyEvents (evs : list timer_event) (tm : Timer) : outcome Timer :=
  match evs with [] => Ok tm | ev :: evs => tm ← applyEvent ev tm; ApplyEvents evs tm end.

(** What time does to a ticker and to a task. *)
Definition tick (period now : Z) (t : ticker) : ticker :=
  if bool_decide (tk_next t ≤ now)%Z then mkTicker (tk_next t + period) true else t.
Definition tick_task (now : Z) (ta : task) : task :=
  match ta_job ta with
  | JobDelay _ => ta
  | JobRepeat period _ =>
      mkTask (ta_events ta) (ta_job ta) (ta_requested ta)
        match ta_at ta with
        | RepeatChecking t => RepeatChecking (tick period now t)
        | RepeatWriting t => RepeatWriting (tick period now t)
        | RepeatWaiting t => RepeatWaiting (tick period now t)
        | at_ => at_
        end
  end.

Definition move (i : nat) (ta : task) (p : progress) (tm : Timer) : Timer :=
  with_task i (mkTask (ta_events ta) (ta_job ta) (ta_requested ta) p) tm.
(** Somebody reads the events from the output channel. *)
Definition write (i : nat) (ta : task) (p : progress) (tm : Timer) : Timer :=
  let tm := move i ta p tm in
  mkTimer (tm_retIndex tm) (tm_tasks tm) (tm_now tm) (tm_ctxDone tm) (tm_crashed tm)
    (tm_writes tm ++ [(i, tm_now tm, ta_events ta)]).

(** Steps of the [i]-th goroutine. *)
Inductive task_step (tm : Timer) (i : nat) (ta : task) : Timer → Prop :=
(** Delay *)
| delay_start delay : ta_job ta = JobDelay delay → ta_at ta = Spawned →
    task_step tm i ta (move i ta (DelayWaiting (tm_now tm + delay)) tm)
| delay_elapsed delay until : ta_job ta = JobDelay delay → ta_at ta = DelayWaiting until → (until ≤ tm_now tm)%Z →
    task_step tm i ta (move i ta DelayWriting tm)
| delay_write delay : ta_job ta = JobDelay delay → ta_at ta = DelayWriting →
    task_step tm i ta (write i ta Finished tm)
| delay_canceled delay until : ta_job ta = JobDelay delay → ta_at ta = DelayWaiting until ∨ ta_at ta = DelayWriting →
    tm_ctxDone tm = true → task_step tm i ta (move i ta Finished tm)
(** Repeat; time.NewTicker panics when the period is not positive, and nothing recovers it. *)
| repeat_start period retIndex : ta_job ta = JobRepeat period retIndex → ta_at ta = Spawned → (0 < period)%Z →
    task_step tm i ta (move i ta (RepeatChecking (mkTicker (tm_now tm + period) false)) tm)
| repeat_panic period retIndex : ta_job ta = JobRepeat period retIndex → ta_at ta = Spawned → (period ≤ 0)%Z →
    task_step tm i ta
      (mkTimer (tm_retIndex tm) (tm_tasks tm) (tm_now tm) (tm_ctxDone tm) true (tm_writes tm))
| repeat_check period retIndex t : ta_job ta = JobRepeat period retIndex → ta_at ta = RepeatChecking t →
    task_step tm i ta (move i ta (if bool_decide (tm_retIndex tm ≤ retIndex)%N then RepeatWriting t else Finished) tm)
| repeat_write period retIndex t : ta_job ta = JobRepeat period retIndex → ta_at ta = RepeatWriting t →
    task_step tm i ta (write i ta (RepeatWaiting t) tm)
| repeat_tick period retIndex t : ta_job ta = JobRepeat period retIndex → ta_at ta = RepeatWaiting t → tk_ready t = true →
    task_step tm i ta (move i ta (RepeatChecking (mkTicker (tk_next t) false)) tm)
| repeat_canceled period retIndex t : ta_job ta = JobRepeat period retIndex →
    ta_at ta = RepeatWriting t ∨ ta_at ta = RepeatWaiting t → tm_ctxDone tm = true →
    task_step tm i ta (move i ta Finished tm).

Inductive timer_step (tm : Timer) : Timer → Prop :=
| timer_task i ta tm' : tm_crashed tm = false → tm_tasks tm !! i = Some ta → task_step tm i ta tm' → timer_step tm tm'
| timer_clock : tm_crashed tm = false →
    timer_step tm (mkTimer (tm_retIndex tm) (tick_task (tm_now tm + 1) <$> tm_tasks tm) (tm_now tm + 1) (tm_ctxDone tm) false
      (tm_writes tm))
| timer_request evs tm' : tm_crashed tm = false → ApplyEvents evs tm = Ok tm' → timer_step tm tm'
| timer_cancel : tm_crashed tm = false →
    timer_step tm (mkTimer (tm_retIndex tm) (tm_tasks tm) (tm_now tm) true false (tm_writes tm)).

(** The times at which the [i]-th goroutine wrote. *)
Definition writes_of (i : nat) (tm : Timer) : list Z := omap (λ '(j, t, _), if bool_decide (j = i) then Some t else None) (tm_writes tm).

(** ** The invariant of a task *)
(** [consumed] ticks were consumed; the ticker has produced at least that many, one more if one
    is ready. *)
Definition ticker_ok (requested period now : Z) (t : ticker) (consumed : nat) : Prop :=
  (now < tk_next t)%Z ∧
  ∃ ticks : nat, (requested + period * (Z.of_nat ticks + 1) ≤ tk_next t)%Z ∧ (tk_next t ≤ now + period)%Z ∧
    consumed + (if tk_ready t then 1 else 0) ≤ ticks.
Definition task_ok (now : Z) (writes : list Z) (ta : task) : Prop :=
  (ta_requested ta ≤ now)%Z ∧
  match ta_job ta with
  | JobDelay delay =>
      length writes ≤ 1 ∧ (∀ t, t ∈ writes → ta_requested ta + delay ≤ t)%Z ∧
      match ta_at ta with
      | Spawned => writes = []
      | DelayWaiting until => writes = [] ∧ (ta_requested ta + delay ≤ until)%Z
      | DelayWriting => writes = [] ∧ (ta_requested ta + delay ≤ now)%Z
      | Finished => True
      | _ => False
      end
  | JobRepeat period retIndex =>
      (∀ (j : nat) t, writes !! j = Some t → ta_requested ta + period * Z.of_nat j ≤ t)%Z ∧
      match ta_at ta with
      | Spawned => writes = []
      | RepeatChecking t | RepeatWriting t => (0 < period)%Z ∧ ticker_ok (ta_requested ta) period now t (length writes)
      | RepeatWaiting t => (0 < period)%Z ∧ ∃ n, length writes = S n ∧ ticker_ok (ta_requested ta) period now t n
      | Finished => True
      | _ => False
      end
  end.
Record TimerInv (tm : Timer) : Prop := {
  ti_tasks i ta : tm_tasks tm !! i = Some ta → task_ok (tm_now tm) (writes_of i tm) ta;
  ti_writes i t ev : (i, t, ev) ∈ tm_writes tm → ∃ ta, tm_tasks tm !! i = Some ta ∧ ta_events ta = ev;
  ti_crashed : tm_crashed tm = true →
    ∃ ta period retIndex, ta ∈ tm_tasks tm ∧ ta_job ta = JobRepeat period retIndex ∧ (period ≤ 0)%Z;
}.
(** *** Preservation *)
Lemma task_ok_clock now writes ta : task_ok now writes ta → task_ok (now + 1) writes (tick_task (now + 1) ta).
Proof.
  destruct ta as [ev [delay|period retIndex] req at_]; unfold task_ok, tick_task; simpl.
  - intros (? & ? & ? & Hat). split_and!; [lia|done|done|]. destruct at_; try done. destruct Hat. split; [done|lia].
  - intros (? & Hw & Hat). split_and!; [lia|done|].
    assert (∀ t n, (0 < period)%Z → ticker_ok req period now t n → ticker_ok req period (now + 1) (tick period (now + 1) t) n) as Htick.
    { intros [next ready] n Hp (Hnext & ticks & H1 & H2 & H3). unfold tick, ticker_ok in *. simpl in *. case_bool_decide; simpl.
      - split; [lia|]. exists (S ticks). split_and!; [nia|lia|]. destruct ready; lia.
      - split; [lia|]. exists ticks. split_and!; [lia|lia|done]. }
    destruct at_; try done; destruct Hat as [Hp Hat]; (split; [done|]); [by apply Htick..|].
    destruct Hat as (n & ? & ?). exists n. split; [done|by apply Htick].
Qed.

(** Jobs do not change. *)
Definition jobs (tm : Timer) : list job := ta_job <$> tm_tasks tm.
Lemma bad_job tm :
  (∃ ta period retIndex, ta ∈ tm_tasks tm ∧ ta_job ta = JobRepeat period retIndex ∧ (period ≤ 0)%Z) ↔
  ∃ period retIndex, JobRepeat period retIndex ∈ jobs tm ∧ (period ≤ 0)%Z.
Proof.
  unfold jobs. split.
  - intros (ta & p & r & Hin & Hj & Hp). exists p, r. split; [|done]. rewrite <- Hj. by apply list_elem_of_fmap_2.
  - intros (p & r & (ta & Hj & Hin)%list_elem_of_fmap & Hp). eauto 10.
Qed.
Lemma jobs_move i ta p tm : tm_tasks tm !! i = Some ta → jobs (move i ta p tm) = jobs tm.
Proof.
  intros Hi. unfold jobs, move, with_task. simpl. rewrite list_fmap_insert. simpl. apply list_insert_id.
  by rewrite list_lookup_fmap, Hi.
Qed.
Lemma writes_of_move j i ta p tm : writes_of j (move i ta p tm) = writes_of j tm.
Proof. done. Qed.
Lemma writes_of_write j i ta p tm :
  writes_of j (write i ta p tm) = writes_of j tm ++ (if bool_decide (i = j) then [tm_now tm] else []).
Proof. unfold writes_of, write. simpl. rewrite omap_app. simpl. by case_bool_decide. Qed.
Lemma move_inv i ta p tm :
  TimerInv tm → tm_tasks tm !! i = Some ta →
  task_ok (tm_now tm) (writes_of i tm) (mkTask (ta_events ta) (ta_job ta) (ta_requested ta) p) → TimerInv (move i ta p tm).
Proof.
  intros [H1 H2 H3] Hi Hok. split; [..|by intros ?%H3; apply bad_job; rewrite jobs_move; [apply bad_job|]].
  - intros j tb. unfold move, with_task. simpl. intros [(<- & <- & _)|[Hne Hj]]%list_lookup_insert_Some; [exact Hok|by apply H1].
  - intros j t ev Hin. destruct (H2 j t ev Hin) as (tb & Hj & Hev). destruct (decide (i = j)) as [<-|Hne].
    + eexists. split; [by apply list_lookup_insert_eq, lookup_lt_is_Some; eauto|]. simpl. congruence.
    + exists tb. split; [|done]. unfold move, with_task. simpl. by rewrite list_lookup_insert_ne.
Qed.
Lemma write_inv i ta p tm :
  TimerInv tm → tm_tasks tm !! i = Some ta →
  task_ok (tm_now tm) (writes_of i tm ++ [tm_now tm]) (mkTask (ta_events ta) (ta_job ta) (ta_requested ta) p) →
  TimerInv (write i ta p tm).
Proof.
  intros [H1 H2 H3] Hi Hok. split; [..|by intros ?%H3; apply bad_job; change (jobs (write i ta p tm)) with (jobs (move i ta p tm));
    rewrite jobs_move; [apply bad_job|]].
  - intros j tb. rewrite writes_of_write. unfold write, move, with_task. simpl.
    intros [(<- & <- & _)|[Hne Hj]]%list_lookup_insert_Some; [by rewrite bool_decide_eq_true_2|].
    rewrite bool_decide_eq_false_2, app_nil_r by done. by apply H1.
  - intros j t ev. unfold write, move, with_task. simpl. intros [Hin| [= -> -> ->]%list_elem_of_singleton]%elem_of_app.
    + destruct (H2 j t ev Hin) as (tb & Hj & Hev). destruct (decide (i = j)) as [<-|Hne].
      * eexists. split; [by apply list_lookup_insert_eq, lookup_lt_is_Some; eauto|]. simpl. congruence.
      * exists tb. by rewrite list_lookup_insert_ne.
    + eexists. split; [by apply list_lookup_insert_eq, lookup_lt_is_Some; eauto|]. done.
Qed.

Lemma task_step_inv tm i ta tm' :
  TimerInv tm → tm_tasks tm !! i = Some ta → task_step tm i ta tm' → TimerInv tm'.
Proof.
  intros Hinv Hi Hstep. pose proof (ti_tasks _ Hinv _ _ Hi) as Hok. destruct ta as [ev j req at_].
  destruct Hstep; simpl in *; subst; unfold task_ok in Hok; simpl in Hok.
  - apply move_inv; [done..|]. unfold task_ok. simpl. destruct Hok as (? & ? & ? & ?). split_and!; [done..|lia].
  - apply move_inv; [done..|]. unfold task_ok. simpl. destruct Hok as (? & ? & ? & ? & ?). split_and!; [done..|lia].
  - apply write_inv; [done..|]. unfold task_ok. simpl. destruct Hok as (? & _ & _ & -> & ?). split_and!; simpl; [done|lia| |done].
    intros t ->%list_elem_of_singleton. done.
  - apply move_inv; [done..|]. unfold task_ok. simpl. by destruct Hok as (? & ? & ? & _).
  - apply move_inv; [done..|]. unfold task_ok. simpl. destruct Hok as (? & Hw & Hnil). split_and!; [done..|].
    unfold ticker_ok. simpl. split; [lia|]. exists 0. rewrite Hnil. simpl. split_and!; lia.
  - destruct Hinv. split; [done|done|]. intros _. simpl. do 3 eexists. split; [by eapply list_elem_of_lookup_2|done].
  - apply move_inv; [done..|]. unfold task_ok. simpl. destruct Hok as (? & Hw & ?). split_and!; [done..|]. by case_bool_decide.
  - apply write_inv; [done..|]. unfold task_ok. simpl. destruct Hok as (? & Hw & Hp & Ht). split_and!; [done| |done|].
    + intros n x [Hn|[Hn Hx]]%lookup_app_Some; [by apply Hw|]. destruct (n - _) as [|k] eqn:Hk; [|done]. injection Hx as <-.
      destruct Ht as (_ & ticks & ? & ? & ?). assert (n = length (writes_of i tm)) as -> by lia. destruct (tk_ready t); nia.
    + exists (length (writes_of i tm)). split; [rewrite length_app; simpl; lia|done].
  - apply move_inv; [done..|]. unfold task_ok. simpl. destruct Hok as (? & Hw & Hp & n & Hn & Ht). split_and!; [done..|].
    destruct Ht as (? & ticks & ? & ? & Hle). unfold ticker_ok. simpl. split; [done|]. exists ticks.
    match goal with H : tk_ready _ = true |- _ => rewrite H in Hle end. split_and!; [done..|lia].
  - apply move_inv; [done..|]. unfold task_ok. simpl. by destruct Hok as (? & ? & _).
Qed.

Lemma spawn_inv j ev tm : TimerInv tm → TimerInv (spawn j ev tm).
Proof.
  intros [H1 H2 H3]. assert (writes_of (length (tm_tasks tm)) tm = []) as Hnone.
  { apply list.elem_of_nil_inv. intros t (x & Hin & Hx)%list_elem_of_omap. destruct x as [[i t'] e]. case_bool_decide; [|done]. subst.
    destruct (H2 _ _ _ Hin) as (ta & Hl%lookup_lt_Some & _). lia. }
  split; simpl.
  - intros i ta [Hi|[Hi Hx]]%lookup_app_Some; [by apply H1|]. destruct (i - length (tm_tasks tm)) as [|k] eqn:Hk; [|done]. injection Hx as <-.
    assert (i = length (tm_tasks tm)) as -> by lia. change (writes_of _ (spawn j ev tm)) with (writes_of (length (tm_tasks tm)) tm).
    rewrite Hnone. unfold task_ok. simpl. split; [lia|]. destruct j; simpl; split_and!; try done; [lia|set_solver].
  - intros i t e Hin. destruct (H2 _ _ _ Hin) as (ta & Hta & ?). exists ta. split; [|done]. by apply lookup_app_l_Some.
  - intros (ta & p & r & Hin & ?)%H3. exists ta, p, r. split; [|done]. apply elem_of_app. by left.
Qed.
Lemma ApplyEvents_inv evs tm tm' : TimerInv tm → ApplyEvents evs tm = Ok tm' → TimerInv tm'.
Proof.
  revert tm. induction evs as [|ev evs IH]; intros tm Hi; simpl; [by intros [= <-]|].
  destruct ev; simpl; try done; apply IH; [done|by apply spawn_inv|by apply spawn_inv|]. by destruct Hi.
Qed.
Lemma timer_step_inv tm tm' : TimerInv tm → timer_step tm tm' → TimerInv tm'.
Proof.
  intros Hinv Hs. pose proof Hinv as [H1 H2 H3].
  destruct Hs as [i ta tm' Hc Hi Hstep|Hc|evs tm' Hc Ha|Hc]; [by eapply task_step_inv| |by eapply ApplyEvents_inv|by split].
  split; [..|done]; simpl.
  - intros i ta. rewrite list_lookup_fmap, fmap_Some. intros (tb & Hi & ->). by apply task_ok_clock, H1.
  - intros i t e Hin. destruct (H2 _ _ _ Hin) as (ta & Hi & Hev). eexists. rewrite list_lookup_fmap, Hi. split; [done|].
    rewrite <- Hev. unfold tick_task. by destruct (ta_job ta).
Qed.
Lemma timer_run_inv now tm : rtc timer_step (New now) tm → TimerInv tm.
Proof.
  intros Hr. assert (TimerInv (New now)) as H0.
  { split; simpl; [done| |done]. intros i t e ?%not_elem_of_nil. done. }
  revert H0. induction Hr as [|tm1 tm2 tm3 Hs _ IH]; intros H0; [done|]. by apply IH, (timer_step_inv tm1).
Qed.

(** *** Garbage collection *)
Definition writing (ta : task) : nat := match ta_at ta with RepeatWriting _ => 1 | _ => 0 end.
(** The task is collected, and may write [n] more times at most. *)
Definition collected (i n : nat) (tm : Timer) : Prop :=
  ∃ ta period retIndex, tm_tasks tm !! i = Some ta ∧ ta_job ta = JobRepeat period retIndex ∧
    (retIndex < tm_retIndex tm)%N ∧ length (writes_of i tm) + writing ta ≤ n.

Lemma collected_move i n j tb p tm :
  collected i n tm → tm_tasks tm !! j = Some tb →
  (∀ period retIndex, ta_job tb = JobRepeat period retIndex → (retIndex < tm_retIndex tm)%N →
     writing (mkTask (ta_events tb) (ta_job tb) (ta_requested tb) p) ≤ writing tb) →
  collected i n (move j tb p tm).
Proof.
  intros (ta & period & retIndex & Hi & Hj & Hr & Hn) Htb Hw. unfold collected, move, with_task. simpl.
  destruct (decide (j = i)) as [->|Hne].
  - rewrite Hi in Htb. injection Htb as <-. do 3 eexists.
    split; [by apply list_lookup_insert_eq, lookup_lt_is_Some; eauto|]. split; [exact Hj|]. split; [done|].
    specialize (Hw _ _ Hj Hr). change (writes_of i (mkTimer _ _ _ _ _ _)) with (writes_of i tm). lia.
  - exists ta, period, retIndex. by rewrite list_lookup_insert_ne.
Qed.
Lemma collected_write i n j tb p tm :
  collected i n tm → tm_tasks tm !! j = Some tb →
  (∀ period retIndex, ta_job tb = JobRepeat period retIndex →
     S (writing (mkTask (ta_events tb) (ta_job tb) (ta_requested tb) p)) ≤ writing tb) →
  collected i n (write j tb p tm).
Proof.
  intros (ta & period & retIndex & Hi & Hj & Hr & Hn) Htb Hw. unfold collected. rewrite writes_of_write. unfold write, move, with_task. simpl.
  destruct (decide (j = i)) as [->|Hne].
  - rewrite Hi in Htb. injection Htb as <-. do 3 eexists.
    split; [by apply list_lookup_insert_eq, lookup_lt_is_Some; eauto|]. split; [exact Hj|]. split; [done|].
    specialize (Hw _ _ Hj). rewrite bool_decide_eq_true_2, length_app by done. simpl. lia.
  - exists ta, period, retIndex. rewrite list_lookup_insert_ne, bool_decide_eq_false_2, app_nil_r by done. done.
Qed.
Lemma collected_requests i n evs tm tm' : collected i n tm → ApplyEvents evs tm = Ok tm' → collected i n tm'.
Proof.
  revert tm. induction evs as [|ev evs IH]; intros tm Hc; simpl; [by intros [= <-]|].
  destruct Hc as (ta & period & retIndex & Hi & Hj & Hr & Hn).
  destruct ev; simpl; try done; apply IH; exists ta, period, retIndex; simpl; split_and!; try done; try by apply lookup_app_l_Some.
  case_bool_decide; lia.
Qed.
Lemma collected_step i n tm tm' : collected i n tm → timer_step tm tm' → collected i n tm'.
Proof.
  intros Hcol Hs. destruct Hs as [j tb tm' Hc Htb Hstep|Hc|evs tm' Hc Ha|Hc]; [| |by eapply collected_requests|done].
  - destruct Hstep.
    + apply collected_move; [done..|]. intros; apply Nat.le_0_l.
    + apply collected_move; [done..|]. intros; apply Nat.le_0_l.
    + apply collected_write; [done..|]. congruence.
    + apply collected_move; [done..|]. intros; apply Nat.le_0_l.
    + apply collected_move; [done..|]. intros; apply Nat.le_0_l.
    + exact Hcol.
    + apply collected_move; [done..|]. intros p' r' Hj Hlt. rewrite bool_decide_eq_false_2; [unfold writing; simpl; lia|].
      assert (retIndex = r') by congruence. lia.
    + apply collected_write; [done..|]. intros p' r' Hj. unfold writing. simpl.
      match goal with H : ta_at tb = RepeatWriting _ |- _ => by rewrite H end.
    + apply collected_move; [done..|]. intros; apply Nat.le_0_l.
    + apply collected_move; [done..|]. intros; apply Nat.le_0_l.
  - destruct Hcol as (ta & period & retIndex & Hi & Hj & Hr & Hn). exists (tick_task (tm_now tm + 1) ta), period, retIndex.
    simpl. rewrite list_lookup_fmap, Hi. split; [done|]. unfold tick_task. rewrite Hj. split; [done|]. split; [done|].
    change (writes_of i (mkTimer _ _ _ _ _ _)) with (writes_of i tm). unfold writing in *. simpl. destruct (ta_at ta); simpl; lia.
Qed.
Lemma collected_run i n tm tm' : collected i n tm → rtc timer_step tm tm' → length (writes_of i tm') ≤ n.
Proof.
  intros Hc Hr. assert (collected i n tm') as (ta & p & r & _ & _ & _ & Hn); [|lia].
  induction Hr as [|tm1 tm2 tm3 Hs _ IH]; [done|]. by apply IH, (collected_step _ _ tm1).
Qed.

(** C32 (bounds).  The timer keeps time: whatever the scheduling, delayed events are output at most
    once and not before their delay has passed since the request, and repeated events are output for
    the (j+1)-th time not before j periods have passed.  Once a repetition was garbage-collected,
    at most one more output follows, the one already waiting to be read.  Only
    requested events are output, and the timer panics only on a period that is not positive. *)
Theorem timer_keeps_time now tm :
  rtc timer_step (New now) tm →
  (∀ i ta, tm_tasks tm !! i = Some ta →
     match ta_job ta with
     | JobDelay delay => length (writes_of i tm) ≤ 1 ∧ ∀ t, t ∈ writes_of i tm → (ta_requested ta + delay ≤ t)%Z
     | JobRepeat period retIndex =>
         (∀ (j : nat) t, writes_of i tm !! j = Some t → (ta_requested ta + period * Z.of_nat j ≤ t)%Z) ∧
         ((retIndex < tm_retIndex tm)%N → ∀ tm', rtc timer_step tm tm' →
            length (writes_of i tm') ≤ length (writes_of i tm) + writing ta)
     end) ∧
  (∀ i t events, (i, t, events) ∈ tm_writes tm → ∃ ta, tm_tasks tm !! i = Some ta ∧ ta_events ta = events) ∧
  ((∀ ta period retIndex, ta ∈ tm_tasks tm → ta_job ta = JobRepeat period retIndex → (0 < period)%Z) → tm_crashed tm = false).
Proof.
  intros Hr. pose proof (timer_run_inv _ _ Hr) as [H1 H2 H3]. split_and!; [|exact H2|].
  - intros i ta Hi. destruct (H1 i ta Hi) as [_ Hok]. destruct (ta_job ta) as [delay|period retIndex] eqn:Hj.
    + destruct Hok as (? & ? & _). done.
    + destruct Hok as [Hw _]. split; [exact Hw|]. intros Hlt tm'. apply collected_run. by exists ta, period, retIndex.
  - intros Hpos. destruct (tm_crashed tm); [|done]. destruct (H3 eq_refl) as (ta & p & r & Hin & Hj & Hp).
    specialize (Hpos _ _ _ Hin Hj). lia.
Qed.

(** A repetition with a period that is not positive, such as a resend period of zero, which the
    parameter check of ISS accepts, ends the process: time.NewTicker panics in a goroutine of its own. *)
Theorem bad_period_crashes events period retIndex tm tm' :
  tm_crashed tm = false → (period ≤ 0)%Z → ApplyEvents [TRepeat events period retIndex] tm = Ok tm' →
  ∃ tm'', timer_step tm' tm'' ∧ tm_crashed tm'' = true.
Proof.
  intros Hc Hp. simpl. intros [= <-]. eexists. split.
  - eapply (timer_task _ (length (tm_tasks tm))); [done|by apply list_lookup_middle|]. by eapply repeat_panic.
  - done.
Qed.
End timer.

(** ** A run: a delay of one and a repetition every two time units, garbage-collected *)
Module TimerToy.
Definition req : list (timer_event (Events := string)) := [TInit; TDelay "d" 1; TRepeat "r" 2 0].
Definition tm0 : Timer (Events := string) := match ApplyEvents req (New 10) with Ok tm => tm | _ => New 10 end.
Definition clock (tm : Timer (Events := string)) : Timer :=
  mkTimer (tm_retIndex tm) (tick_task (tm_now tm + 1) <$> tm_tasks tm) (tm_now tm + 1) (tm_ctxDone tm) false (tm_writes tm).
Definition task_of (i : nat) (tm : Timer (Events := string)) : task := default (mkTask "" (JobDelay 0) 0 Finished) (tm_tasks tm !! i).
Definition go (i : nat) (p : progress) (tm : Timer (Events := string)) : Timer := move i (task_of i tm) p tm.
Definition out (i : nat) (p : progress) (tm : Timer (Events := string)) : Timer := write i (task_of i tm) p tm.

Definition tm1 := go 1 (RepeatChecking (mkTicker 12 false)) (go 0 (DelayWaiting 11) tm0).
Definition tm2 := out 1 (RepeatWaiting (mkTicker 12 false)) (go 1 (RepeatWriting (mkTicker 12 false)) tm1).
Definition tm3 := out 0 Finished (go 0 DelayWriting (clock tm2)).
Definition tm4 := go 1 (RepeatWriting (mkTicker 14 false)) (go 1 (RepeatChecking (mkTicker 14 false)) (clock tm3)).
Definition tm5 := GarbageCollect 1 tm4.
Definition tm6 := out 1 (RepeatWaiting (mkTicker 14 false)) tm5.

Lemma step_task i tm tm' : tm_crashed tm = false → tm_tasks tm !! i = Some (task_of i tm) → task_step tm i (task_of i tm) tm' → rtc timer_step tm tm'.
Proof. intros. by eapply rtc_once, timer_task. Qed.
Lemma reached : rtc timer_step (New 10) tm5.
Proof.
  transitivity tm0; [by eapply rtc_once, (timer_request _ req)|].
  assert (∀ i tm tm', tm_crashed tm = false → tm_tasks tm !! i = Some (task_of i tm) → task_step tm i (task_of i tm) tm' →
    rtc timer_step tm tm') as step by apply step_task.
  transitivity (go 0 (DelayWaiting 11) tm0); [exact (step 0 tm0 _ eq_refl eq_refl (delay_start tm0 0 (task_of 0 tm0) 1 eq_refl eq_refl))|].
  transitivity tm1;
    [exact (step 1 (go 0 (DelayWaiting 11) tm0) _ eq_refl eq_refl (repeat_start (go 0 (DelayWaiting 11) tm0) 1 (task_of 1 (go 0 (DelayWaiting 11) tm0)) 2 0 eq_refl eq_refl eq_refl))|].
  transitivity (go 1 (RepeatWriting (mkTicker 12 false)) tm1);
    [exact (step 1 tm1 _ eq_refl eq_refl (repeat_check tm1 1 (task_of 1 tm1) 2 0 (mkTicker 12 false) eq_refl eq_refl))|].
  transitivity tm2;
    [exact (step 1 (go 1 (RepeatWriting (mkTicker 12 false)) tm1) _ eq_refl eq_refl (repeat_write (go 1 (RepeatWriting (mkTicker 12 false)) tm1) 1 (task_of 1 (go 1 (RepeatWriting (mkTicker 12 false)) tm1)) 2 0 (mkTicker 12 false) eq_refl eq_refl))|].
  transitivity (clock tm2); [exact (rtc_once _ _ (timer_clock tm2 eq_refl))|].
  transitivity (go 0 DelayWriting (clock tm2));
    [exact (step 0 (clock tm2) _ eq_refl eq_refl (delay_elapsed (clock tm2) 0 (task_of 0 (clock tm2)) 1 11 eq_refl eq_refl (Z.le_refl 11)))|].
  transitivity tm3; [exact (step 0 (go 0 DelayWriting (clock tm2)) _ eq_refl eq_refl (delay_write (go 0 DelayWriting (clock tm2)) 0 (task_of 0 (go 0 DelayWriting (clock tm2))) 1 eq_refl eq_refl))|].
  transitivity (clock tm3); [exact (rtc_once _ _ (timer_clock tm3 eq_refl))|].
  transitivity (go 1 (RepeatChecking (mkTicker 14 false)) (clock tm3));
    [exact (step 1 (clock tm3) _ eq_refl eq_refl (repeat_tick (clock tm3) 1 (task_of 1 (clock tm3)) 2 0 (mkTicker 14 true) eq_refl eq_refl eq_refl))|].
  transitivity tm4;
    [exact (step 1 (go 1 (RepeatChecking (mkTicker 14 false)) (clock tm3)) _ eq_refl eq_refl
       (repeat_check (go 1 (RepeatChecking (mkTicker 14 false)) (clock tm3)) 1 (task_of 1 (go 1 (RepeatChecking (mkTicker 14 false)) (clock tm3))) 2 0 (mkTicker 14 false) eq_refl eq_refl))|].
  exact (rtc_once _ _ (timer_request tm4 [TGarbageCollect 1] tm5 eq_refl eq_refl)).
Qed.
Lemma reached_more : rtc timer_step tm5 tm6.
Proof. exact (step_task 1 tm5 tm6 eq_refl eq_refl (repeat_write tm5 1 (task_of 1 tm5) 2 0 (mkTicker 14 false) eq_refl eq_refl)). Qed.
End TimerToy.
Import TimerToy.

Lemma timer_keeps_time_witness :
  writes_of 0 tm5 = [11%Z] ∧ writes_of 1 tm5 = [10%Z] ∧ writes_of 1 tm6 = [10%Z; 12%Z] ∧ length (writes_of 1 tm6) ≤ 2 ∧
  tm_crashed tm5 = false.
Proof.
  destruct (timer_keeps_time 10 tm5 reached) as (H1 & _ & H3). split_and!; [vm_compute; reflexivity..| |].
  - destruct (H1 1 (task_of 1 tm5) eq_refl) as [_ H]. exact (H eq_refl tm6 reached_more).
  - apply H3. intros ta period retIndex. simpl. rewrite !elem_of_cons, elem_of_nil. intros [->|[->|[]]] Hj; [discriminate Hj|].
    injection Hj as <- <-. lia.
Defined.
Lemma bad_period_crashes_witness :
  ∃ tm', timer_step (Repeat "r" (-1) 0 tm5) tm' ∧ tm_crashed tm' = true.
Proof. apply (bad_period_crashes "r" (-1) 0 tm5); [reflexivity|lia|reflexivity]. Defined.
