(* ===== verification/Replication.v ===== *)
(** * Replication: ISS, the availability layer and the batch fetcher composed

    A replica is a run of ISS (Iss) and a run of the batch fetcher (BatchFetcher) that gets the
    certificates ISS delivers, in order (as the node runtime hands events over, see Node), and, for
    each of its requests, transactions that its certificate determines (as the availability
    layer promises, see AvailabilityProps).  Theorem: replicas give their applications the same batches of transactions. *)
From Stdlib Require Import ZArith Lia.
From stdpp Require Import prelude gmap strings list fin_maps numbers.
From S2P Require Import Prelude Util Membership PbftTypes Orderer LeaderSelection ClientProgress ModuleRuns Checkpoint Iss IssProps IssRuns Availability AvailabilityProps BatchFetcher.
Import Bf.

(** ** The order of certificates *)
Definition iss_certs (out : list iss_event) : list (SeqNr * Cert * bool) :=
  omap (λ ev, match ev with DeliverCert _ sn cert empty => Some (sn, cert, empty) | _ => None end) out.
Definition restored (out : list iss_event) : list StableCheckpoint :=
  omap (λ ev, match ev with RestoreState _ chkp => Some chkp | _ => None end) out.
Definition bf_certs (ins : list bf_input) : list (SeqNr * Cert * bool) :=
  omap (λ i, match i with BfInDeliverCert sn cert empty => Some (sn, cert, empty) | _ => None end) ins.

(** The [i]-th sequence number from [sn] on. *)
Definition sn_from (sn : SeqNr) (i : nat) : SeqNr := Nat.iter i u64_succ sn.

Definition numbered (sn : SeqNr) (certs : list (SeqNr * Cert * bool)) : Prop :=
  ∀ i x, certs !! i = Some x → x.1.1 = sn_from sn i.
Lemma numbered_snoc sn certs x :
  numbered sn certs → x.1.1 = sn_from sn (length certs) → numbered sn (certs ++ [x]).
Proof.
  intros Hn Hx i y [Hi|[Hi Hy]]%lookup_app_Some; [by apply Hn|]. destruct (i - length certs) as [|j] eqn:Hd; [|done].
  injection Hy as <-. rewrite Hx. f_equal. lia.
Qed.

(** What the contract of the application says about the certificates since the only restored
    checkpoint. *)
Lemma contract_numbered out a :
  app_run out = Some a →
  match restored out with
  | [] => a = None ∧ iss_certs out = []
  | [chkp] => ∃ b, a = Some b ∧ a_next b = sn_from (sc_Sn chkp) (length (iss_certs out)) ∧
      numbered (sc_Sn chkp) (iss_certs out)
  | _ => is_Some a
  end.
Proof.
  revert a. induction out as [|ev out IH] using rev_ind; intros a; [by intros [= <-]|].
  rewrite app_run_snoc. destruct (app_run out) as [a0|]; [|done]. specialize (IH a0 eq_refl).
  unfold restored, iss_certs in *. rewrite !omap_app. cbn [mbind option_bind].
  destruct ev as [d chkp|d nr pm| | | | |d sn cert empty|d sn snap cert| | | | |]; cbn [app_step omap list_omap];
    rewrite ?app_nil_r; try (intros [= <-]; exact IH).
  - destruct (Chkp.Epoch chkp) as [nr| |]; [|done..]. intros [= <-].
    destruct (omap _ out) as [|c0 [|c1 l]]; simpl; [|by eexists..]. destruct IH as [-> ->]. by eexists.
  - destruct a0 as [b|]; [|done]. simpl. case_bool_decide; [|done]. intros [= <-].
    destruct (omap _ out) as [|c0 [|c1 l]]; [by destruct IH| |by eexists]. destruct IH as (b' & [= <-] & ? & ?). by eexists.
  - destruct a0 as [b|]; [|done]. simpl. destruct (bool_decide (sn = a_next b)) eqn:Hsn; [|done].
    apply bool_decide_eq_true in Hsn as ->. case_bool_decide; [|done]. intros [= <-].
    destruct (omap _ out) as [|c0 [|c1 l]]; [by destruct IH| |by eexists]. destruct IH as (b' & [= <-] & Hn & Hnum).
    eexists. split; [done|]. simpl. rewrite length_app, Nat.add_comm, Hn. split; [done|]. by apply numbered_snoc.
  - destruct a0 as [b|]; [|done]. simpl. case_bool_decide; [|done]. intros [= <-].
    destruct (omap _ out) as [|c0 [|c1 l]]; [by destruct IH| |by eexists]. destruct IH as (b' & [= <-] & ? & ?). by eexists.
Qed.

Lemma pointwise_prefix {A} (l1 l2 : list A) :
  (∀ i x y, l1 !! i = Some x → l2 !! i = Some y → x = y) → l1 `prefix_of` l2 ∨ l2 `prefix_of` l1.
Proof.
  revert l2. induction l1 as [|x l1 IH]; intros [|y l2] H; [left|left|right|]; try apply prefix_nil.
  pose proof (H 0 x y eq_refl eq_refl) as ->. destruct (IH l2) as [Hp|Hp]; [by intros i; apply (H (S i))|left|right]; by apply prefix_cons.
Qed.
Lemma comparable_prefixes {A} (l1 l2 k1 k2 : list A) :
  l1 `prefix_of` k1 → l2 `prefix_of` k2 → k1 `prefix_of` k2 ∨ k2 `prefix_of` k1 → l1 `prefix_of` l2 ∨ l2 `prefix_of` l1.
Proof.
  intros H1 H2 [Hk|Hk]; [apply (prefix_weak_total l1 l2 k2)|apply (prefix_weak_total l1 l2 k1)]; try done; by etrans.
Qed.

Lemma fmap_prefix_of {A B} (f : A → B) l k : l `prefix_of` k → f <$> l `prefix_of` f <$> k.
Proof. intros [l' ->]. rewrite fmap_app. by apply prefix_app_r. Qed.

(** ** Certificates of two replicas *)
Section certs.
Context {cbor : Cbor} {codec : ChkpCodec} {himpl : HashImpl} {sigs : Verifier} {certs : CertCodec}.

(** The orderers of two nodes decide alike, and the availability layer judges alike. *)
Definition decisions_agree (ins1 ins2 : list iss_input) : Prop :=
  ∀ sn d1 a1 l1 id1 d2 a2 l2 id2,
    IssInSBDeliver sn d1 a1 l1 id1 ∈ ins1 → ModuleID.Sub (ModuleID.Sub id1) ≠ "chkp" →
    IssInSBDeliver sn d2 a2 l2 id2 ∈ ins2 → ModuleID.Sub (ModuleID.Sub id2) ≠ "chkp" → d1 = d2 ∧ a1 = a2.
Definition verdicts_agree (ins1 ins2 : list iss_input) : Prop :=
  ∀ sn data l1 l2 v1 v2,
    IssInCertVerified v1 (mkVerifyCertContext sn data false l1) ∈ ins1 →
    IssInCertVerified v2 (mkVerifyCertContext sn data false l2) ∈ ins2 → v1 = v2.

Lemma delivered_agree ins1 ins2 sn c1 e1 c2 e2 :
  decisions_agree ins1 ins2 → verdicts_agree ins1 ins2 →
  delivered_ok ins1 sn c1 e1 → delivered_ok ins2 sn c2 e2 → (c1, e1) = (c2, e2).
Proof.
  intros Hdec Hver (d1 & a1 & l1 & (id1 & Hin1 & Hid1) & H1) (d2 & a2 & l2 & (id2 & Hin2 & Hid2) & H2).
  destruct (Hdec _ _ _ _ _ _ _ _ _ Hin1 Hid1 Hin2 Hid2) as [-> ->].
  destruct e1, e2; unfold refused, verified in *.
  - destruct H1 as [-> _], H2 as [-> _]. done.
  - destruct H1 as [_ [?|[[? ?]|Hr]]], H2 as (? & ? & Hv); [congruence..|]. by specialize (Hver _ _ _ _ _ _ Hr Hv).
  - destruct H2 as [_ [?|[[? ?]|Hr]]], H1 as (? & ? & Hv); [congruence..|]. by specialize (Hver _ _ _ _ _ _ Hv Hr).
  - destruct H1 as (_ & Hc1 & _), H2 as (_ & Hc2 & _). congruence.
Qed.

Lemma iss_certs_agree own1 mc1 params1 own2 mc2 params2 chkp st1 ins1 out1 st2 ins2 out2 :
  iss_run own1 mc1 params1 chkp st1 ins1 out1 → iss_run own2 mc2 params2 chkp st2 ins2 out2 →
  restored out1 = [chkp] → restored out2 = [chkp] →
  decisions_agree ins1 ins2 → verdicts_agree ins1 ins2 →
  iss_certs out1 `prefix_of` iss_certs out2 ∨ iss_certs out2 `prefix_of` iss_certs out1.
Proof.
  intros Hi1 Hi2 Hr1 Hr2 Hdec Hver.
  assert (∀ own mc params st ins out, iss_run own mc params chkp st ins out → restored out = [chkp] →
    numbered (sc_Sn chkp) (iss_certs out) ∧
    ∀ i sn c e, iss_certs out !! i = Some (sn, c, e) → delivered_ok ins sn c e) as Hone.
  { intros own mc params st ins out [Hi _]%iss_run_inv Hr. split.
    - pose proof (ii_app _ _ _ _ Hi) as Ha. unfold app_inv in Ha.
      assert (∃ a, app_run out = Some a) as [a Ha'] by (destruct (is_epoch st); [eauto|destruct Ha; eauto]).
      apply contract_numbered in Ha'. rewrite Hr in Ha'. by destruct Ha' as (b & _ & _ & ?).
    - intros i sn c e (ev & Hev & Hin)%list_elem_of_lookup_2%list_elem_of_omap.
      destruct ev; simplify_eq/=. exact (ii_out _ _ _ _ Hi _ Hev). }
  destruct (Hone _ _ _ _ _ _ Hi1 Hr1) as [Hn1 Ho1], (Hone _ _ _ _ _ _ Hi2 Hr2) as [Hn2 Ho2].
  apply pointwise_prefix. intros i [[sn c1] e1] [[sn2 c2] e2] H1 H2.
  pose proof (Hn1 _ _ H1) as Hs1. pose proof (Hn2 _ _ H2) as Hs2. simpl in Hs1, Hs2. subst sn sn2.
  pose proof (delivered_agree _ _ _ _ _ _ _ Hdec Hver (Ho1 _ _ _ _ H1) (Ho2 _ _ _ _ H2)) as [= -> ->]. done.
Qed.
End certs.

(** ** Batches *)
Definition batches (evs : list app_event) : list (list Transaction) :=
  omap (λ ev, match ev with AppNewOrderedBatch _ txs => Some txs | _ => None end) evs.

(** Batches without the transactions in [s] and those of earlier batches. *)
Fixpoint dedup_txs (s : gset (ClientID * TxNo)) (txs : list Transaction) : list Transaction * gset (ClientID * TxNo) :=
  match txs with
  | [] => ([], s)
  | tx :: txs =>
      let '(new, s') := dedup_txs ({[tx_key tx]} ∪ s) txs in
      ((if bool_decide (tx_key tx ∈ s) then [] else [tx]) ++ new, s')
  end.
Fixpoint dedup_batches (s : gset (ClientID * TxNo)) (bs : list (list Transaction)) : list (list Transaction) :=
  match bs with [] => [] | b :: bs => let '(b, s) := dedup_txs s b in b :: dedup_batches s bs end.

Lemma dedup_batches_prefix s bs1 bs2 :
  bs1 `prefix_of` bs2 → dedup_batches s bs1 `prefix_of` dedup_batches s bs2.
Proof.
  intros [bs ->]. revert s. induction bs1 as [|b bs1 IH]; intros s; simpl; [apply prefix_nil|].
  destruct (dedup_txs s b) as [b' s']. by apply prefix_cons.
Qed.

Lemma filter_txs_dedup p s txs :
  CP.refines p s → (∀ tx, tx ∈ txs → (tx_TxNo tx < u64_max - 1)%N) →
  (filter_txs p txs).1 = (dedup_txs s txs).1 ∧ CP.refines (filter_txs p txs).2 (dedup_txs s txs).2.
Proof.
  revert p s. induction txs as [|tx txs IH]; intros p s Hr Hb; simpl; [done|].
  destruct (CP.refines_step p s (CP.OpAdd (tx_ClientId tx) (tx_TxNo tx))) as [Hr1 Hres]; [|done|].
  { intros c x [= <- <-]. apply Hb. left. }
  simpl in Hr1, Hres. destruct (CP.Add p (tx_ClientId tx) (tx_TxNo tx)) as [added p1]. simpl in *.
  destruct (IH p1 _ Hr1) as [He Hr']; [set_solver|]. unfold tx_key in *.
  destruct (filter_txs p1 txs), (dedup_txs _ txs). simpl in *. injection Hres as ->. subst. split; [|done].
  by repeat case_bool_decide.
Qed.

(** The batches of the log before duplicates are removed. *)
Definition raw_batches (provide : nat → list Transaction) (ens : list entry) : list (list Transaction) :=
  omap (λ en, match en with ECert item => Some (from_option provide [] item) | _ => None end) ens.

Lemma spec_run_batches mc provide p s ens :
  (∀ k tx, tx ∈ provide k → (tx_TxNo tx < u64_max - 1)%N) → CP.refines p s →
  batches (spec_run mc provide p ens).1 = dedup_batches s (raw_batches provide ens).
Proof.
  intros Hb. revert p s. induction ens as [|en ens IH]; intros p s Hr; cbn [spec_run]; [done|].
  assert (∀ p', CP.refines p' s → batches (let '(evs, p'') := spec_run mc provide p' ens in evs) =
    dedup_batches s (raw_batches provide ens)) as Hskip.
  { intros p' Hr'. specialize (IH p' s Hr'). by destruct (spec_run mc provide p' ens). }
  destruct en as [e pm|item|r|x]; cbn [spec_entry raw_event raw_batches omap list_omap].
  - specialize (Hskip _ (garbage_refines _ _ Hr)). by destruct (spec_run mc provide _ ens).
  - destruct (filter_txs_dedup p s (from_option provide [] item) Hr) as [He Hr1].
    { destruct item; simpl; [by apply Hb|set_solver]. }
    destruct (filter_txs p _) as [txs p1]. simpl in He, Hr1 |- *. destruct (dedup_txs s _) as [b s1]. simpl in *. subst b.
    specialize (IH p1 s1 Hr1). destruct (spec_run mc provide p1 ens) as [evs p2]. simpl in *. unfold batches in *. simpl. by rewrite IH.
  - specialize (Hskip _ (garbage_refines _ _ Hr)). by destruct (spec_run mc provide _ ens).
  - specialize (Hskip _ Hr). by destruct (spec_run mc provide _ ens).
Qed.

(** *** Requests name the certificates *)
Lemma requests_made mc provide st0 st ins out :
  bf_output st0 = [] → (∀ k, k < bf_nextItem st0 → is_Some (bf_items st0 !! k)) →
  bf_run mc provide st0 st ins out →
  ∀ i1 sn cert i2, ins = i1 ++ BfInDeliverCert sn cert false :: i2 →
    ∃ d, BfRequestTransactions d cert (bf_nextItem st0 + length (log_from (bf_nextItem st0) i1)) ∈ out.
Proof.
  intros Hq Ha. induction 1 as [|st ins out rng i st' es Hrun IH Hans Happ]; intros i1 sn cert i2 He; [by destruct i1|].
  destruct i2 as [|i' i2 _] using rev_ind.
  - apply app_inj_tail in He as [-> ->]. destruct (bf_run_quiet _ _ _ _ _ _ Hq Ha Hrun) as (n & L & Hi & _).
    pose proof (bi_next _ _ _ _ _ _ _ _ Hi) as Hn. rewrite (bi_log _ _ _ _ _ _ _ _ Hi) in Hn. cbn in Happ.
    injection Happ as <- <-. rewrite Hn. eexists. apply elem_of_app. right. by apply list_elem_of_singleton.
  - rewrite app_comm_cons, (assoc_L (++)) in He. apply app_inj_tail in He as [He _].
    destruct (IH _ _ _ _ He) as [d Hd]. exists d. apply elem_of_app. by left.
Qed.

Definition content (txs_of : Cert → list Transaction) (x : SeqNr * Cert * bool) : list Transaction :=
  let '(_, cert, empty) := x in if empty then [] else txs_of cert.
Lemma raw_batches_content provide txs_of k ins :
  (∀ i1 sn cert i2, ins = i1 ++ BfInDeliverCert sn cert false :: i2 → provide (k + length (log_from k i1)) = txs_of cert) →
  raw_batches provide (log_from k ins) = content txs_of <$> bf_certs ins.
Proof.
  induction ins as [|i ins IH] using rev_ind; intros Hp; [done|].
  rewrite log_from_snoc. unfold raw_batches, bf_certs in *. rewrite !omap_app, fmap_app, IH.
  2: { intros i1 sn cert i2 ->. eapply Hp. by rewrite <- (assoc_L (++)). }
  f_equal. destruct i as [|e pm|sn cert empty|r|chkp|txs k'|x]; try done. simpl. destruct empty; simpl; [done|].
  by rewrite (Hp ins sn cert []).
Qed.

(** ** Replicas *)
Section replicas.
Context {cbor : Cbor} {codec : ChkpCodec} {himpl : HashImpl} {sigs : Verifier} {certs : CertCodec}.
(** The transactions that a certificate determines. *)
Context (txs_of : Cert → list Transaction).

Record replica := mkReplica {
  rp_iss_in : list iss_input; rp_iss_out : list iss_event; rp_bf_in : list bf_input; rp_bf_out : list bf_event;
}.

(** A replica started from a checkpoint, without a state transfer since. *)
Record replica_run (chkp : StableCheckpoint) (r : replica) : Prop := {
  rr_iss : ∃ ownID mc params st, iss_run ownID mc params chkp st (rp_iss_in r) (rp_iss_out r);
  rr_restored : restored (rp_iss_out r) = [chkp];
  rr_bf : ∃ mc rng epochNr progress st0 es provide st,
    bf_apply mc rng (BfInRestoreState chkp) (NewModule epochNr progress) = Ok (tt, st0, es) ∧
    bf_run mc provide st0 st (rp_bf_in r) (rp_bf_out r) ∧
    (** Transactions are provided as their certificate determines. *)
    (∀ d cert k, BfRequestTransactions d cert k ∈ rp_bf_out r → provide k = txs_of cert) ∧
    (∀ k tx, tx ∈ provide k → (tx_TxNo tx < u64_max - 1)%N);
  (** The batch fetcher got the certificates of ISS in order. *)
  rr_certs : bf_certs (rp_bf_in r) `prefix_of` iss_certs (rp_iss_out r);
}.

Lemma restore_start mc rng chkp epochNr progress st0 es :
  bf_apply mc rng (BfInRestoreState chkp) (NewModule epochNr progress) = Ok (tt, st0, es) →
  Chkp.ClientProgress_of chkp = Ok (bf_clientProgress st0) ∧ bf_output st0 = [] ∧ bf_nextItem st0 = 0.
Proof.
  cbn [bf_apply]. unfold UponRestoreState. intros H. destruct (Chkp.Epoch chkp) as [nr| |] eqn:E1; [|by cbv in H..].
  destruct (Chkp.ClientProgress_of chkp) as [p| |] eqn:E2; [|done..]. cbn in H. by injection H as <- <-.
Qed.

(** What a replica has given to its application. *)
Lemma replica_batches chkp r p s :
  replica_run chkp r → Chkp.ClientProgress_of chkp = Ok p → CP.refines p s →
  ∃ bs, bs `prefix_of` (content txs_of <$> iss_certs (rp_iss_out r)) ∧
    batches (app_stream (rp_bf_out r)) = dedup_batches s bs.
Proof.
  intros [_ _ (mc & rng & e0 & p0 & st0 & es & provide & st & Hst & Hrun & Hprov & Hb) Hcerts] Hp Href.
  destruct (restore_start _ _ _ _ _ _ _ Hst) as (Hp0 & Hq & Hn). rewrite Hp in Hp0. injection Hp0 as ->.
  assert (∀ k, k < bf_nextItem st0 → is_Some (bf_items st0 !! k)) as Hal by (rewrite Hn; lia).
  destruct (bf_run_quiet _ _ _ _ _ _ Hq Hal Hrun) as (n & L & Hi & _).
  pose proof (bi_spec _ _ _ _ _ _ _ _ Hi) as Hs. pose proof (bi_log _ _ _ _ _ _ _ _ Hi) as HL.
  exists (raw_batches provide (take n L)). split.
  - etrans; [|by apply fmap_prefix_of, Hcerts]. rewrite <- (raw_batches_content provide txs_of (bf_nextItem st0)).
    + rewrite <- HL. unfold raw_batches. rewrite <- (take_drop n L) at 2. rewrite omap_app. by apply prefix_app_r.
    + intros i1 sn cert i2 He. destruct (requests_made _ _ _ _ _ _ Hq Hal Hrun _ _ _ _ He) as [d Hd]. by eapply Hprov.
  - rewrite <- (spec_run_batches mc provide (bf_clientProgress st0) s) by done. by rewrite <- Hs.
Qed.

Lemma replicas_prefix chkp r1 r2 p s :
  replica_run chkp r1 → replica_run chkp r2 → Chkp.ClientProgress_of chkp = Ok p → CP.refines p s →
  decisions_agree (rp_iss_in r1) (rp_iss_in r2) → verdicts_agree (rp_iss_in r1) (rp_iss_in r2) →
  batches (app_stream (rp_bf_out r1)) `prefix_of` batches (app_stream (rp_bf_out r2)) ∨
  batches (app_stream (rp_bf_out r2)) `prefix_of` batches (app_stream (rp_bf_out r1)).
Proof.
  intros H1 H2 Hp Hs Hdec Hver.
  destruct (rr_iss _ _ H1) as (own1 & mc1 & params1 & st1 & Hi1), (rr_iss _ _ H2) as (own2 & mc2 & params2 & st2 & Hi2).
  pose proof (iss_certs_agree _ _ _ _ _ _ _ _ _ _ _ _ _ Hi1 Hi2 (rr_restored _ _ H1) (rr_restored _ _ H2) Hdec Hver) as Hc.
  destruct (replica_batches _ _ _ _ H1 Hp Hs) as (bs1 & Hb1 & ->), (replica_batches _ _ _ _ H2 Hp Hs) as (bs2 & Hb2 & ->).
  assert (bs1 `prefix_of` bs2 ∨ bs2 `prefix_of` bs1) as [Hb|Hb].
  { eapply comparable_prefixes; [exact Hb1|exact Hb2|]. destruct Hc; [left|right]; by apply fmap_prefix_of. }
  - left. by apply dedup_batches_prefix.
  - right. by apply dedup_batches_prefix.
Qed.

(** State machine replication: if the orderers of two replicas decide alike and the
    availability layer judges certificates alike, whatever they decide, in whatever order
    decisions, verdicts, checkpoints and transactions reach each of them, then the batches
    of transactions that one of the applications has got are a prefix of those of the other. *)
Theorem replicas_agree chkp r1 r2 p s :
  replica_run chkp r1 → replica_run chkp r2 → Chkp.ClientProgress_of chkp = Ok p → CP.refines p s →
  decisions_agree (rp_iss_in r1) (rp_iss_in r2) → verdicts_agree (rp_iss_in r1) (rp_iss_in r2) →
  batches (app_stream (rp_bf_out r1)) `prefix_of` batches (app_stream (rp_bf_out r2)) ∨
  batches (app_stream (rp_bf_out r2)) `prefix_of` batches (app_stream (rp_bf_out r1)).
Proof. apply replicas_prefix. Qed.
End replicas.

(** ** Two replicas *)
Module RepToy.
Import IssToy.
Definition cert (b : string) : Cert := CertMscs [mkMscCert b [] []].
Definition txs_of (c : Cert) : list Transaction :=
  match c with
  | CertMscs [mkMscCert "a" _ _] => BfToy.provide 1
  | CertMscs [mkMscCert "b" _ _] => BfToy.provide 2
  | _ => []
  end.

(** The first replica is ahead of the second one, and got the decisions and transactions in
    another order. *)
Definition ins1 : list iss_input := epoch0.
Definition ins2 : list iss_input :=
  [IssInInit; IssInSBDeliver 0 (Some "a") false "0" "ordering/0/0";
   IssInCertVerified true (ctx 0 (Some "a") "0"); IssInSBDeliver 1 (Some "b") false "1" "ordering/0/1"].
Definition bf_ins1 : list bf_input :=
  [BfInNewEpoch 0 "iss"; BfInDeliverCert 0 (cert "a") false; BfInDeliverCert 1 (cert "b") false;
   BfInProvideTransactions (BfToy.provide 2) 2; BfInProvideTransactions (BfToy.provide 1) 1].
Definition bf_ins2 : list bf_input :=
  [BfInNewEpoch 0 "iss"; BfInDeliverCert 0 (cert "a") false; BfInProvideTransactions (BfToy.provide 1) 1].

Definition bf_exec (ins : list bf_input) : option (BfState * list bf_event) :=
  checked (bf_apply BfToy.mc) BfToy.answers_b range_id ins BfToy.st0 [].
Definition requests_ok (out : list bf_event) : bool :=
  forallb (λ ev, match ev with
    | BfRequestTransactions _ c k => bool_decide (BfToy.provide k = txs_of c)
    | _ => true
    end) out.

Lemma bounded k tx : tx ∈ BfToy.provide k → (tx_TxNo tx < u64_max - 1)%N.
Proof.
  destruct k as [|[|[|k]]]; simpl; rewrite ?elem_of_cons, ?elem_of_nil; try done;
    (intros [->|[->|[]]]; by vm_compute).
Qed.

Lemma replica_of ins bf_ins st out bst bout :
  run ins = Some (st, out) → bf_exec bf_ins = Some (bst, bout) →
  (uncurry (λ _ out, restored out) <$> run ins) = Some [genesis] →
  (uncurry (λ _ out, requests_ok out) <$> bf_exec bf_ins) = Some true →
  (uncurry (λ _ out, take (length (bf_certs bf_ins)) (iss_certs out)) <$> run ins) = Some (bf_certs bf_ins) →
  replica_run txs_of genesis (mkReplica ins out bf_ins bout).
Proof.
  intros Hr Hb Hres Hreq Hcs.
  apply (run_fact (λ _ out, restored out) _ _ _ _ Hr) in Hres. apply (run_fact (λ _ out, requests_ok out) _ _ _ _ Hb) in Hreq.
  apply (run_fact (λ _ out, take (length (bf_certs bf_ins)) (iss_certs out)) _ _ _ _ Hr) in Hcs. split; simpl.
  - exists "0", mc, params, st. by apply iss_run_reach.
  - done.
  - exists BfToy.mc, range_id, 0%N, ∅, BfToy.st0, [BfEmit (AppRestoreState "app" genesis)], BfToy.provide, bst.
    split_and!; [vm_compute; reflexivity| | |exact bounded].
    + exact (checked_reach _ _ _ BfToy.bf_answers_b_sound _ range_id _ _ [] [] _ _ (reach_start _ _ _) Hb).
    + intros d c k Hin. apply forallb_forall with (x := BfRequestTransactions d c k) in Hreq; [|by apply list_elem_of_In].
      by apply bool_decide_eq_true in Hreq.
  - rewrite <- Hcs at 1. apply prefix_take.
Qed.

(** Agreement of decisions and verdicts, by evaluation. *)
Definition decided (ins : list iss_input) : list (SeqNr * (bytes * bool)) :=
  omap (λ i, match i with
    | IssInSBDeliver sn d a _ id => if bool_decide (ModuleID.Sub (ModuleID.Sub id) = "chkp") then None else Some (sn, (d, a))
    | _ => None
    end) ins.
Definition judged (ins : list iss_input) : list (SeqNr * bytes * bool) :=
  omap (λ i, match i with IssInCertVerified v c => Some (vc_sn c, vc_data c, v) | _ => None end) ins.
Definition consistent {A B} `{EqDecision A, EqDecision B} (l1 l2 : list (A * B)) : bool :=
  forallb (λ x, forallb (λ y, implb (bool_decide (x.1 = y.1)) (bool_decide (x.2 = y.2))) l2) l1.
Lemma consistent_sound {A B} `{EqDecision A, EqDecision B} (l1 l2 : list (A * B)) a b1 b2 :
  consistent l1 l2 = true → (a, b1) ∈ l1 → (a, b2) ∈ l2 → b1 = b2.
Proof.
  unfold consistent. rewrite forallb_forall. intros H H1%list_elem_of_In H2%list_elem_of_In. specialize (H _ H1). simpl in H.
  rewrite forallb_forall in H. specialize (H _ H2). simpl in H. rewrite bool_decide_eq_true_2 in H by done. by apply bool_decide_eq_true in H.
Qed.
Lemma decisions_agree_b i1 i2 : consistent (decided i1) (decided i2) = true → decisions_agree i1 i2.
Proof.
  intros Hc sn d1 a1 l1 id1 d2 a2 l2 id2 H1 N1 H2 N2.
  assert ((d1, a1) = (d2, a2)) as [= -> ->]; [|done]. apply (consistent_sound _ _ sn _ _ Hc); apply list_elem_of_omap.
  - eexists. split; [exact H1|]. simpl. by rewrite bool_decide_eq_false_2.
  - eexists. split; [exact H2|]. simpl. by rewrite bool_decide_eq_false_2.
Qed.
Lemma verdicts_agree_b i1 i2 : consistent (judged i1) (judged i2) = true → verdicts_agree i1 i2.
Proof.
  intros Hc sn data l1 l2 v1 v2 H1 H2. apply (consistent_sound _ _ (sn, data) _ _ Hc); apply list_elem_of_omap; by eexists.
Qed.
Lemma nothing_delivered : CP.refines ∅ ∅.
Proof. split; [apply map_Forall_empty|]. intros clID txNo. split; [done|]. by intros ?%not_elem_of_empty. Qed.
End RepToy.
Import IssToy RepToy.

Lemma replicas_agree_witness :
  ∃ r1 r2, replica_run txs_of genesis r1 ∧ replica_run txs_of genesis r2 ∧
    batches (app_stream (rp_bf_out r1)) = [[BfToy.tx 0; BfToy.tx 1]; [BfToy.tx 2]] ∧
    batches (app_stream (rp_bf_out r2)) = [[BfToy.tx 0; BfToy.tx 1]] ∧
    (batches (app_stream (rp_bf_out r1)) `prefix_of` batches (app_stream (rp_bf_out r2)) ∨
     batches (app_stream (rp_bf_out r2)) `prefix_of` batches (app_stream (rp_bf_out r1))).
Proof.
  destruct (run_some (run ins1)) as (st1 & out1 & Hr1); [vm_compute; reflexivity|].
  destruct (run_some (run ins2)) as (st2 & out2 & Hr2); [vm_compute; reflexivity|].
  destruct (run_some (bf_exec bf_ins1)) as (bst1 & bout1 & Hb1); [vm_compute; reflexivity|].
  destruct (run_some (bf_exec bf_ins2)) as (bst2 & bout2 & Hb2); [vm_compute; reflexivity|].
  assert (replica_run txs_of genesis (mkReplica ins1 out1 bf_ins1 bout1)) as R1
    by (eapply replica_of; [exact Hr1|exact Hb1|vm_compute; reflexivity..]).
  assert (replica_run txs_of genesis (mkReplica ins2 out2 bf_ins2 bout2)) as R2
    by (eapply replica_of; [exact Hr2|exact Hb2|vm_compute; reflexivity..]).
  exists (mkReplica ins1 out1 bf_ins1 bout1), (mkReplica ins2 out2 bf_ins2 bout2). split; [exact R1|]. split; [exact R2|].
  split; [apply (run_fact (λ _ out, batches (app_stream out)) _ _ _ _ Hb1); vm_compute; reflexivity|].
  split; [apply (run_fact (λ _ out, batches (app_stream out)) _ _ _ _ Hb2); vm_compute; reflexivity|].
  refine (replicas_agree txs_of genesis _ _ ∅ ∅ R1 R2 _ _ (decisions_agree_b _ _ _) (verdicts_agree_b _ _ _)).
  - vm_compute; reflexivity.
  - exact nothing_delivered.
  - vm_compute; reflexivity.
  - vm_compute; reflexivity.
Defined.
