(* ===== verification/Net.v ===== *)
(** * pkg/net/grpc: connections to other nodes

    Models remoteconnection.go, selfconnection.go and transport.go.  A connection has a buffered
    channel for outgoing messages and a goroutine that takes them out and writes them to a network
    stream, which it opens again when writing fails.  The goroutine's program points and the
    outcomes of network operations are steps here; the network itself (dialing, writing to a
    stream) is the environment, which decides whether an operation succeeds. *)
From Stdlib Require Import ZArith Lia.
From stdpp Require Import prelude gmap strings list fin_maps numbers.
From S2P Require Import Prelude Util PbftTypes Membership Iss EventProcessing Node.

Section net.
(** Protobuf messages; payloads of raw messages with their serialization. *)
Context {Pb Payload : Type} (pb_DestModule : Pb → string) (ToBytes : Payload → outcome bytes).

Inductive GrpcType := GrpcPbMsg (pbMsg : Pb) | GrpcRawMsg (destModule : string) (data : bytes) | GrpcNoType.
Record GrpcMessage := mkGrpcMessage { gm_Sender : string; gm_Type : GrpcType }.

(** ** remoteconnection.go *)
Inductive rc_point :=
| RcTop                (** the head of the loop of [process] *)
| RcConnect            (** the head of the loop of [connect] *)
| RcDialing            (** in [tryConnecting] *)
| RcNext               (** waiting for a message or for [stop] *)
| RcSend               (** in [sendGrpcMessage] *)
| RcExited.
(** [rc_stream] numbers the stream in use, nil if there is none; [rc_grpcMessage] is the local
    variable of [process].  [rc_sent] records what was written to which stream. *)
Record remoteConnection := mkRemoteConnection {
  rc_addr : string; rc_bufferSize : nat; rc_msgBuffer : list GrpcMessage; rc_stop : bool; rc_done : bool;
  rc_stream : option nat; rc_streams : nat; rc_grpcMessage : option GrpcMessage; rc_at : rc_point;
  rc_sent : list (nat * GrpcMessage);
}.

Definition newRemoteConnection (bufferSize : nat) (addr : string) : remoteConnection :=
  mkRemoteConnection addr bufferSize [] false false None 0 None RcTop [].

Definition rc_move (p : rc_point) (c : remoteConnection) : remoteConnection :=
  mkRemoteConnection (rc_addr c) (rc_bufferSize c) (rc_msgBuffer c) (rc_stop c) (rc_done c) (rc_stream c) (rc_streams c)
    (rc_grpcMessage c) p (rc_sent c).
Definition rc_take (buffer : list GrpcMessage) (msg : option GrpcMessage) (p : rc_point) (c : remoteConnection) : remoteConnection :=
  mkRemoteConnection (rc_addr c) (rc_bufferSize c) buffer (rc_stop c) (rc_done c) (rc_stream c) (rc_streams c) msg p (rc_sent c).

(** A buffered channel accepts a message when it is not full; an unbuffered one, when the
    goroutine waits for a message. *)
Definition Send (msg : GrpcMessage) (c : remoteConnection) : outcome remoteConnection :=
  if bool_decide (length (rc_msgBuffer c) < rc_bufferSize c) then
    Ok (rc_take (rc_msgBuffer c ++ [msg]) (rc_grpcMessage c) (rc_at c) c)
  else match rc_bufferSize c, rc_at c with
  | O, RcNext => Ok (rc_take (rc_msgBuffer c) (Some msg) RcSend c)
  | _, _ => Err "send buffer full"
  end.

(** [Close] up to waiting for [done]. *)
Definition Close (c : remoteConnection) : remoteConnection :=
  mkRemoteConnection (rc_addr c) (rc_bufferSize c) (rc_msgBuffer c) true (rc_done c) (rc_stream c) (rc_streams c)
    (rc_grpcMessage c) (rc_at c) (rc_sent c).

Definition closeClientConn (c : remoteConnection) : remoteConnection :=
  mkRemoteConnection (rc_addr c) (rc_bufferSize c) (rc_msgBuffer c) (rc_stop c) (rc_done c) None (rc_streams c)
    (rc_grpcMessage c) (rc_at c) (rc_sent c).
(** The goroutine returns; the deferred calls close the stream and [done]. *)
Definition rc_exit (c : remoteConnection) : remoteConnection :=
  let c := closeClientConn c in
  mkRemoteConnection (rc_addr c) (rc_bufferSize c) (rc_msgBuffer c) (rc_stop c) true (rc_stream c) (rc_streams c)
    (rc_grpcMessage c) RcExited (rc_sent c).
(** Where the loop continues once there is a stream. *)
Definition rc_connected (c : remoteConnection) : remoteConnection :=
  rc_move (match rc_grpcMessage c with None => RcNext | Some _ => RcSend end) c.
(** [tryConnecting] succeeded: a new stream. *)
Definition rc_open (c : remoteConnection) : remoteConnection :=
  mkRemoteConnection (rc_addr c) (rc_bufferSize c) (rc_msgBuffer c) (rc_stop c) (rc_done c) (Some (rc_streams c)) (S (rc_streams c))
    (rc_grpcMessage c) RcConnect (rc_sent c).
(** The message was written to the stream. *)
Definition rc_write (s : nat) (msg : GrpcMessage) (c : remoteConnection) : remoteConnection :=
  mkRemoteConnection (rc_addr c) (rc_bufferSize c) (rc_msgBuffer c) (rc_stop c) (rc_done c) (rc_stream c) (rc_streams c) None RcTop
    (rc_sent c ++ [(s, msg)]).

Inductive rc_step (c : remoteConnection) : remoteConnection → Prop :=
| rc_top_stop : rc_at c = RcTop → rc_stop c = true → rc_step c (rc_exit c)
| rc_top : rc_at c = RcTop → rc_stop c = false →
    rc_step c (match rc_stream c with None => rc_move RcConnect c | Some _ => rc_connected c end)
| rc_connect_done s : rc_at c = RcConnect → rc_stream c = Some s → rc_step c (rc_connected c)
| rc_connect_stop : rc_at c = RcConnect → rc_stream c = None → rc_stop c = true → rc_step c (rc_exit c)
| rc_connect_try : rc_at c = RcConnect → rc_stream c = None → rc_stop c = false → rc_step c (rc_move RcDialing c)
| rc_dial_failed : rc_at c = RcDialing → rc_step c (rc_move RcConnect c)
| rc_dial_ok : rc_at c = RcDialing → rc_step c (rc_open c)
| rc_next_stop : rc_at c = RcNext → rc_stop c = true → rc_step c (rc_exit c)
| rc_next msg buffer : rc_at c = RcNext → rc_msgBuffer c = msg :: buffer → rc_step c (rc_take buffer (Some msg) RcSend c)
| rc_send_ok s msg : rc_at c = RcSend → rc_stream c = Some s → rc_grpcMessage c = Some msg → gm_Type msg ≠ GrpcNoType →
    rc_step c (rc_write s msg c)
| rc_send_failed msg : rc_at c = RcSend → rc_grpcMessage c = Some msg → gm_Type msg ≠ GrpcNoType →
    rc_step c (rc_move RcTop (closeClientConn c))
(** An unsupported message makes [sendGrpcMessage] panic; [process] recovers and is over. *)
| rc_send_panic msg : rc_at c = RcSend → rc_grpcMessage c = Some msg → gm_Type msg = GrpcNoType → rc_step c (rc_exit c).

(** A connection with the messages it accepted. *)
Inductive rc_run (bufferSize : nat) (addr : string) : list GrpcMessage → remoteConnection → Prop :=
| rc_start : rc_run bufferSize addr [] (newRemoteConnection bufferSize addr)
| rc_process acc c c' : rc_run bufferSize addr acc c → rc_step c c' → rc_run bufferSize addr acc c'
| rc_accept acc c msg c' : rc_run bufferSize addr acc c → Send msg c = Ok c' → rc_run bufferSize addr (acc ++ [msg]) c'
| rc_close acc c : rc_run bufferSize addr acc c → rc_run bufferSize addr acc (Close c).

Record RcInv (acc : list GrpcMessage) (c : remoteConnection) : Prop := {
  ri_order : acc = (rc_sent c).*2 ++ option_list (rc_grpcMessage c) ++ rc_msgBuffer c;
  ri_bound : length (rc_msgBuffer c) ≤ rc_bufferSize c;
  ri_send : rc_at c = RcSend → is_Some (rc_grpcMessage c) ∧ is_Some (rc_stream c);
  ri_next : rc_at c = RcNext → rc_grpcMessage c = None ∧ is_Some (rc_stream c);
  ri_dialing : rc_at c = RcDialing → rc_stream c = None;
  ri_done : rc_done c = true ↔ rc_at c = RcExited;
  ri_exited : rc_at c = RcExited → rc_stream c = None ∧ (rc_stop c = true ∨ ∃ msg, msg ∈ acc ∧ gm_Type msg = GrpcNoType);
  ri_fresh s msg : (s, msg) ∈ rc_sent c → s < rc_streams c;
  ri_stream s : rc_stream c = Some s → s < rc_streams c;
}.

Lemma rc_not_done acc c : RcInv acc c → rc_at c ≠ RcExited → rc_done c = false.
Proof. intros Hi Hne. destruct (rc_done c) eqn:Hd; [|done]. by destruct Hne; apply (ri_done _ _ Hi). Qed.
Lemma rc_exit_inv acc c :
  RcInv acc c → rc_stop c = true ∨ (∃ msg, msg ∈ acc ∧ gm_Type msg = GrpcNoType) → RcInv acc (rc_exit c).
Proof. intros [H1 H2 H3 H4 H5 H6 H7 H8 H9] Hw. by split. Qed.
Lemma rc_move_inv acc c p :
  RcInv acc c → rc_at c ≠ RcExited → p ≠ RcExited →
  (p = RcSend → is_Some (rc_grpcMessage c) ∧ is_Some (rc_stream c)) → (p = RcNext → rc_grpcMessage c = None ∧ is_Some (rc_stream c)) →
  (p = RcDialing → rc_stream c = None) → RcInv acc (rc_move p c).
Proof.
  intros Hi Hne Hp Hs Hn Hd. pose proof (rc_not_done _ _ Hi Hne) as Hdone. destruct Hi as [H1 H2 H3 H4 H5 H6 H7 H8 H9].
  split; simpl; try done. rewrite Hdone. by split.
Qed.
Lemma rc_connected_inv acc c s : RcInv acc c → rc_at c ≠ RcExited → rc_stream c = Some s → RcInv acc (rc_connected c).
Proof.
  intros Hi Hne Hs. unfold rc_connected. destruct (rc_grpcMessage c) eqn:Hm; apply rc_move_inv; try done; intros _; rewrite Hs; eauto.
Qed.

Lemma rc_step_inv acc c c' : RcInv acc c → rc_step c c' → RcInv acc c'.
Proof.
  intros Hi Hs. assert (rc_at c ≠ RcExited) as Hne by (destruct Hs; congruence). pose proof (rc_not_done _ _ Hi Hne) as Hdone.
  destruct Hs as [Ha Hst|Ha Hst|s Ha Hs|Ha Hn Hst|Ha Hn Hst|Ha|Ha|Ha Hst|msg buffer Ha Hb|s msg Ha Hs Hm Ht|msg Ha Hm Ht|msg Ha Hm Ht].
  - apply rc_exit_inv; auto.
  - destruct (rc_stream c) eqn:Es; [by eapply rc_connected_inv|by apply rc_move_inv].
  - by eapply rc_connected_inv.
  - apply rc_exit_inv; auto.
  - by apply rc_move_inv.
  - by apply rc_move_inv.
  - destruct Hi as [H1 H2 H3 H4 H5 H6 H7 H8 H9]. split; simpl; try done.
    + rewrite Hdone. by split.
    + intros s msg Hin. specialize (H8 s msg Hin). lia.
    + intros s [= <-]. lia.
  - apply rc_exit_inv; auto.
  - destruct Hi as [H1 H2 H3 H4 H5 H6 H7 H8 H9]. destruct (H4 Ha) as [Hm Hstr]. split; simpl; try done.
    + by rewrite H1, Hm, Hb.
    + rewrite Hb in H2. simpl in H2. lia.
    + rewrite Hdone. by split.
  - destruct Hi as [H1 H2 H3 H4 H5 H6 H7 H8 H9]. split; simpl; try done.
    + rewrite fmap_app, H1, Hm. simpl. by rewrite <- (assoc_L (++)).
    + rewrite Hdone. by split.
    + intros s' msg' [?|[= -> ->]%list_elem_of_singleton]%elem_of_app; [by eapply H8|by apply H9].
  - destruct Hi as [H1 H2 H3 H4 H5 H6 H7 H8 H9]. split; simpl; try done. rewrite Hdone. by split.
  - apply rc_exit_inv; [done|]. right. exists msg. split; [|done]. rewrite (ri_order _ _ Hi), Hm. apply elem_of_app. right. by left.
Qed.
Lemma rc_run_inv bufferSize addr acc c : rc_run bufferSize addr acc c → RcInv acc c ∧ rc_bufferSize c = bufferSize.
Proof.
  induction 1 as [|acc c c' Hr [IH Hb] Hs|acc c msg c' Hr [IH Hb] Hs|acc c Hr [IH Hb]].
  - split; [|done]. split; simpl; try done; try lia. by intros s msg ?%not_elem_of_nil.
  - split; [by eapply rc_step_inv|]. rewrite <- Hb. destruct Hs; try done; [by destruct (rc_stream c)].
  - destruct IH as [H1 H2 H3 H4 H5 H6 H7 H8 H9]. unfold Send in Hs. case_bool_decide as Hlt.
    + injection Hs as <-. split; [|done]. split; simpl; try done.
      * by rewrite H1, !(assoc_L (++)).
      * rewrite length_app. simpl. lia.
      * intros [? [?|(m & Hm & ?)]]%H7; (split; [done|]); [by left|right]. exists m. split; [|done]. apply elem_of_app. by left.
    + destruct (rc_bufferSize c) eqn:Es; [|done]. destruct (rc_at c) eqn:Ea; try done. injection Hs as <-. split; [|simpl; congruence].
      destruct (H4 eq_refl) as [Hm Hst]. assert (rc_msgBuffer c = []) as Hnil by (apply nil_length_inv; lia).
      split; simpl; try done; [by rewrite H1, Hm, Hnil, app_nil_r|rewrite Hnil; simpl; lia|].
      rewrite H6. split; done.
  - split; [|done]. destruct IH as [H1 H2 H3 H4 H5 H6 H7 H8 H9]. split; simpl; try done. intros [? _]%H7. by split; [|left].
Qed.

(** After [Close], the steps left to the goroutine. *)
Definition rc_left (c : remoteConnection) : nat :=
  match rc_at c with
  | RcExited => 0 | RcTop => 1 | RcSend => 2 | RcNext => 3
  | RcConnect => if rc_stream c then 4 else 1
  | RcDialing => 5
  end.
Lemma rc_left_step c c' : rc_stop c = true → rc_step c c' → rc_left c' < rc_left c ∧ rc_stop c' = true.
Proof.
  intros Hst Hs. unfold rc_left.
  destruct Hs as [Ha ?|Ha ?|s Ha Hs|Ha Hn ?|Ha Hn ?|Ha|Ha|Ha ?|msg buffer Ha Hb|s msg Ha Hs Hm Ht|msg Ha Hm Ht|msg Ha Hm Ht];
    try congruence; rewrite Ha; (split; [|done || by destruct (rc_grpcMessage c)]); try (simpl; lia).
  - unfold rc_connected. rewrite Hs. simpl. destruct (rc_grpcMessage c); lia.
  - rewrite Hn. simpl. lia.
  - simpl. destruct (rc_stream c); lia.
Qed.
Lemma rc_progress acc c :
  RcInv acc c → rc_at c ≠ RcExited →
  (∃ c', rc_step c c') ∨ (rc_at c = RcNext ∧ rc_stop c = false ∧ rc_msgBuffer c = []).
Proof.
  intros Hi Hne. destruct (rc_at c) eqn:Ha; [..|done].
  - left. destruct (rc_stop c) eqn:Hst; eexists; [by apply rc_top_stop|by apply rc_top].
  - left. destruct (rc_stream c) eqn:Es; [eexists; by eapply rc_connect_done|].
    destruct (rc_stop c) eqn:Hst; eexists; [by apply rc_connect_stop|by apply rc_connect_try].
  - left. eexists. by apply rc_dial_failed.
  - destruct (rc_stop c) eqn:Hst; [left; eexists; by apply rc_next_stop|].
    destruct (rc_msgBuffer c) eqn:Hb; [by right|left]. eexists. by eapply rc_next.
  - left. destruct (ri_send _ _ Hi Ha) as [[msg Hm] _]. destruct (gm_Type msg) eqn:Ht; eexists;
      [eapply rc_send_failed|eapply rc_send_failed|eapply rc_send_panic]; try done; congruence.
Qed.

(** C34 (refinement).  A connection is a bounded queue to the network: the messages written to its streams, over
    all reconnections, followed by the one being sent and the buffer, are exactly the accepted
    messages in the order in which they were accepted; none is written twice or out of
    order and none overtaken.  [Send] never blocks, and refuses a message only if the
    buffer is full.  The goroutine is never stuck: it can take a step or waits for a message. *)
Theorem connection_is_fifo bufferSize addr acc c :
  rc_run bufferSize addr acc c →
  acc = (rc_sent c).*2 ++ option_list (rc_grpcMessage c) ++ rc_msgBuffer c ∧
  length (rc_msgBuffer c) ≤ bufferSize ∧
  (∀ msg, length (rc_msgBuffer c) < bufferSize → ∃ c', Send msg c = Ok c') ∧
  (rc_done c = false → (∃ c', rc_step c c') ∨ (rc_at c = RcNext ∧ rc_stop c = false ∧ rc_msgBuffer c = [])).
Proof.
  intros [Hi <-]%rc_run_inv. split; [apply Hi|]. split; [apply Hi|]. split.
  - intros msg Hlt. unfold Send. rewrite bool_decide_eq_true_2 by done. by eexists.
  - intros Hd. apply (rc_progress acc); [done|]. intros He. apply (ri_done _ _ Hi) in He. congruence.
Qed.


(** What the goroutine of [Wait] writes: an error ([Some (Some err)]), or nothing before it closes the
    channel ([Some None]); [None] while it waits.  [abort]: the returned function was called. *)
Definition Wait (abort : bool) (c : remoteConnection) : option (option string) :=
  match rc_stream c with
  | None => if abort then Some (Some "waiting aborted") else if rc_stop c then Some (Some "connection closed") else None
  | Some _ => if abort then Some (Some "waiting aborted") else Some None
  end.

(** ** Events that arrive at a node

    A raw message sent to the own node arrives as the payload itself; one that came over the
    network, as its bytes.  An event that was never assigned is nil ([None]). *)
Inductive message := MsgPayload (payload : Payload) | RawMessage (data : bytes).
Inductive RcvEvent :=
| PbMessageReceived (dest : string) (sender : NodeID) (msg : Pb)
| MessageReceived (dest : string) (sender : NodeID) (payload : message).
Definition RcvEvent_Dest (e : RcvEvent) : string :=
  match e with PbMessageReceived dest _ _ => dest | MessageReceived dest _ _ => dest end.

(** stdtypes.ListOf, and the iterator over a list that may hold nil events: the assertion that
    the value is an event panics on nil. *)
Definition rcv_list : Type := list (option RcvEvent).
Definition rcv_Next (it : rcv_list) : outcome (option RcvEvent * rcv_list) :=
  match it with
  | [] => Ok (None, [])
  | None :: _ => Panic (ExplicitPanic "interface conversion: interface is nil, not stdtypes.Event")
  | Some e :: it => Ok (Some e, it)
  end.

(** ** selfconnection.go *)
Inductive sc_point := ScWaiting | ScDelivering (ev : option RcvEvent) | ScExited.
(** [sc_delivered] records what was written to [deliverChan]. *)
Record selfConnection := mkSelfConnection {
  sc_ownAddr : string; sc_bufferSize : nat; sc_msgBuffer : list GrpcMessage; sc_stop : bool; sc_done : bool;
  sc_at : sc_point; sc_delivered : list rcv_list;
}.
Definition newSelfConnection (bufferSize : nat) (ownAddr : string) : selfConnection :=
  mkSelfConnection ownAddr bufferSize [] false false ScWaiting [].

(** The event made from a message; the destination module of a protobuf message is not read from
    the message, so that it is empty. *)
Definition self_event (grpcMsg : GrpcMessage) : option RcvEvent :=
  match gm_Type grpcMsg with
  | GrpcPbMsg pbMsg => Some (PbMessageReceived "" (gm_Sender grpcMsg) pbMsg)
  | GrpcRawMsg destModule data => Some (MessageReceived destModule (gm_Sender grpcMsg) (RawMessage data))
  | GrpcNoType => None
  end.

Definition sc_with (buffer : list GrpcMessage) (p : sc_point) (delivered : list rcv_list) (c : selfConnection) : selfConnection :=
  mkSelfConnection (sc_ownAddr c) (sc_bufferSize c) buffer (sc_stop c) (sc_done c) p delivered.
Definition self_Send (msg : GrpcMessage) (c : selfConnection) : outcome selfConnection :=
  if bool_decide (length (sc_msgBuffer c) < sc_bufferSize c) then
    Ok (sc_with (sc_msgBuffer c ++ [msg]) (sc_at c) (sc_delivered c) c)
  else match sc_bufferSize c, sc_at c with
  | O, ScWaiting => Ok (sc_with (sc_msgBuffer c) (ScDelivering (self_event msg)) (sc_delivered c) c)
  | _, _ => Err "send buffer full"
  end.
Definition self_Close (c : selfConnection) : selfConnection :=
  mkSelfConnection (sc_ownAddr c) (sc_bufferSize c) (sc_msgBuffer c) true (sc_done c) (sc_at c) (sc_delivered c).
(** What the channel returned by [Wait] holds: an error, or nothing (it is closed). *)
Definition self_Wait (c : selfConnection) : option string := if sc_stop c then Some "connection closed" else None.
Definition sc_exit (c : selfConnection) : selfConnection :=
  mkSelfConnection (sc_ownAddr c) (sc_bufferSize c) (sc_msgBuffer c) (sc_stop c) true ScExited (sc_delivered c).

Inductive sc_step (c : selfConnection) : selfConnection → Prop :=
| sc_wait_stop : sc_at c = ScWaiting → sc_stop c = true → sc_step c (sc_exit c)
| sc_wait_msg msg buffer : sc_at c = ScWaiting → sc_msgBuffer c = msg :: buffer →
    sc_step c (sc_with buffer (ScDelivering (self_event msg)) (sc_delivered c) c)
| sc_deliver_stop ev : sc_at c = ScDelivering ev → sc_stop c = true → sc_step c (sc_exit c)
| sc_deliver ev : sc_at c = ScDelivering ev →
    sc_step c (sc_with (sc_msgBuffer c) ScWaiting (sc_delivered c ++ [[ev]]) c).

(** ** connection.go: what a transport uses of a connection *)
Inductive connection := RemoteConn (c : remoteConnection) | SelfConn (c : selfConnection).
Definition conn_Address (conn : connection) : string :=
  match conn with RemoteConn c => rc_addr c | SelfConn c => sc_ownAddr c end.
Definition conn_Send (msg : GrpcMessage) (conn : connection) : outcome connection :=
  match conn with
  | RemoteConn c => c ← Send msg c; Ok (RemoteConn c)
  | SelfConn c => c ← self_Send msg c; Ok (SelfConn c)
  end.
Definition conn_Close (conn : connection) : connection :=
  match conn with RemoteConn c => RemoteConn (Close c) | SelfConn c => SelfConn (self_Close c) end.
Inductive conn_step : connection → connection → Prop :=
| conn_remote c c' : rc_step c c' → conn_step (RemoteConn c) (RemoteConn c')
| conn_self c c' : sc_step c c' → conn_step (SelfConn c) (SelfConn c').

(** ** transport.go *)
(** Addresses and the two functions on them are the multiaddr library's. *)
Context {Addr : Type} (NewMultiaddr : string → outcome Addr) (DialArgs : Addr → outcome string).

(** [tr_deliveries] are the goroutines that wait to write a message of the node to itself to
    [incomingMessages]; [tr_stats]: statistics are collected; [tr_grpcServer]: there is a server. *)
Record Transport := mkTransport {
  tr_ownAddr : Addr; tr_ownID : NodeID; tr_ConnectionBufferSize : nat; tr_stats : bool; tr_grpcServer : bool;
  tr_connections : gmap NodeID connection; tr_nodeIDs : gmap string NodeID; tr_stop : bool;
  tr_deliveries : list rcv_list;
}.

Definition NewTransport (bufferSize : nat) (ownID : NodeID) (ownAddr : string) (stats : bool) : outcome Transport :=
  match NewMultiaddr ownAddr with
  | Ok addr => Ok (mkTransport addr ownID bufferSize stats false ∅ ∅ false [])
  | Err err => Err ("failed parsing own address: " +:+ err)
  | Panic p => Panic p
  end.

Definition with_connections (conns : gmap NodeID connection) (ids : gmap string NodeID) (tr : Transport) : Transport :=
  mkTransport (tr_ownAddr tr) (tr_ownID tr) (tr_ConnectionBufferSize tr) (tr_stats tr) (tr_grpcServer tr) conns ids
    (tr_stop tr) (tr_deliveries tr).
Definition with_deliveries (ds : list rcv_list) (tr : Transport) : Transport :=
  mkTransport (tr_ownAddr tr) (tr_ownID tr) (tr_ConnectionBufferSize tr) (tr_stats tr) (tr_grpcServer tr)
    (tr_connections tr) (tr_nodeIDs tr) (tr_stop tr) ds.
Definition close_stop (tr : Transport) : Transport :=
  mkTransport (tr_ownAddr tr) (tr_ownID tr) (tr_ConnectionBufferSize tr) (tr_stats tr) (tr_grpcServer tr)
    (tr_connections tr) (tr_nodeIDs tr) true (tr_deliveries tr).

Definition getConnection (nodeID : NodeID) (tr : Transport) : outcome connection :=
  match tr_connections tr !! nodeID with Some conn => Ok conn | None => Err "no connection to node" end.
Definition send_to (destNode : NodeID) (conn : connection) (msg : GrpcMessage) (tr : Transport) : outcome Transport :=
  conn ← conn_Send msg conn;
  Ok (with_connections (<[destNode := conn]> (tr_connections tr)) (tr_nodeIDs tr) tr).
Definition SendPbMessage (destNode : NodeID) (msg : Pb) (tr : Transport) : outcome Transport :=
  conn ← getConnection destNode tr;
  send_to destNode conn (mkGrpcMessage (tr_ownID tr) (GrpcPbMsg msg)) tr.
Definition SendRawMessage (destNode : NodeID) (destModule : string) (msg : Payload) (tr : Transport) : outcome Transport :=
  conn ← getConnection destNode tr;
  match ToBytes msg with
  | Ok msgData => send_to destNode conn (mkGrpcMessage (tr_ownID tr) (GrpcRawMsg destModule msgData)) tr
  | Err err => Err ("failed serializing message data: " +:+ err)
  | Panic p => Panic p
  end.

(** The events for the transport. *)
Inductive PbEvent := PbSendMessage (destinations : list NodeID) (msg : Pb) | PbOtherTransport | PbOther.
Inductive NetEvent :=
| NetInit | NetSendMessage (destNodes : list NodeID) (remoteDestModule : string) (payload : Payload)
| NetPb (evt : PbEvent) | NetOther.

(** Handlers return their error, if any, and keep what they did before it. *)
Definition deliver_self (e : RcvEvent) (tr : Transport) : Transport := with_deliveries (tr_deliveries tr ++ [[Some e]]) tr.
(** A message that could not be sent is dropped; the statistics record its size. *)
Fixpoint send_raw_loop (destNodes : list NodeID) (destModule : string) (payload : Payload) (tr : Transport)
    : outcome unit * Transport :=
  match destNodes with
  | [] => (Ok tt, tr)
  | destID :: destNodes =>
      if bool_decide (destID = tr_ownID tr) then
        send_raw_loop destNodes destModule payload
          (deliver_self (MessageReceived destModule (tr_ownID tr) (MsgPayload payload)) tr)
      else match SendRawMessage destID destModule payload tr with
      | Ok tr => send_raw_loop destNodes destModule payload tr
      | Panic p => (Panic p, tr)
      | Err _ =>
          if tr_stats tr then
            match ToBytes payload with
            | Ok _ => send_raw_loop destNodes destModule payload tr
            | Err err => (Err ("failed serializing message data: " +:+ err), tr)
            | Panic p => (Panic p, tr)
            end
          else send_raw_loop destNodes destModule payload tr
      end
  end.
Fixpoint send_pb_loop (destinations : list NodeID) (msg : Pb) (tr : Transport) : outcome unit * Transport :=
  match destinations with
  | [] => (Ok tt, tr)
  | destID :: destinations =>
      if bool_decide (destID = tr_ownID tr) then
        send_pb_loop destinations msg (deliver_self (PbMessageReceived (pb_DestModule msg) (tr_ownID tr) msg) tr)
      else match SendPbMessage destID msg tr with
      | Ok tr => send_pb_loop destinations msg tr
      | Panic p => (Panic p, tr)
      | Err _ => send_pb_loop destinations msg tr
      end
  end.
Definition ApplyPbEvent (evt : PbEvent) (tr : Transport) : outcome unit * Transport :=
  match evt with
  | PbSendMessage destinations msg => send_pb_loop destinations msg tr
  | PbOtherTransport => (Err "unexpected type of transport event", tr)
  | PbOther => (Err "unexpected type of Net event", tr)
  end.
Fixpoint ApplyEvents (eventList : list NetEvent) (tr : Transport) : outcome unit * Transport :=
  match eventList with
  | [] => (Ok tt, tr)
  | NetInit :: eventList => ApplyEvents eventList tr
  | NetSendMessage destNodes destModule payload :: eventList =>
      match send_raw_loop destNodes destModule payload tr with
      | (Ok _, tr) => ApplyEvents eventList tr
      | (r, tr) => (r, tr)
      end
  | NetPb evt :: _ => ApplyPbEvent evt tr
  | NetOther :: _ => (Err "GRPC transport only supports proto events and OutgoingMessage", tr)
  end.

(** One iteration of [Connect] for a node; a failure of [DialArgs] leaves the address empty. *)
Definition connect_one (tr : Transport) (node : NodeID * NodeIdentity) : Transport :=
  let '(nodeID, identity) := node in
  match tr_connections tr !! nodeID with
  | Some _ => tr
  | None =>
      match NewMultiaddr (ni_Addr identity) with
      | Ok addr =>
          let dialAddr := match DialArgs addr with Ok a => a | _ => "" end in
          let conn := if bool_decide (nodeID = tr_ownID tr) then SelfConn (newSelfConnection (tr_ConnectionBufferSize tr) dialAddr)
                      else RemoteConn (newRemoteConnection (tr_ConnectionBufferSize tr) dialAddr) in
          with_connections (<[nodeID := conn]> (tr_connections tr)) (<[conn_Address conn := nodeID]> (tr_nodeIDs tr)) tr
      | _ => tr
      end
  end.
Definition Connect (rng : go_range) (membership : Membership) (tr : Transport) : Transport :=
  if tr_stop tr then tr
  else foldl connect_one tr (range_order rng 0 (map_to_list (Nodes membership))).

(** The connections that are not kept, closed, and the transport without them. *)
Definition CloseOldConnections (newMembership : Membership) (tr : Transport) : gmap NodeID connection * Transport :=
  let toClose := filter (λ p, Nodes newMembership !! p.1 = None) (tr_connections tr) in
  (conn_Close <$> toClose,
   with_connections (tr_connections tr ∖ toClose)
     (foldl (λ ids p, delete (conn_Address p.2) ids) (tr_nodeIDs tr) (map_to_list toClose)) tr).

(** [Stop] closes the channel [stop], which panics if it is closed, and uses the server, which
    [Start] creates. *)
Definition Stop (tr : Transport) : outcome unit * Transport :=
  if tr_stop tr then (Panic (ExplicitPanic "close of closed channel"), tr)
  else
    let tr := (CloseOldConnections (mkMembership ∅) (close_stop tr)).2 in
    (if tr_grpcServer tr then Ok tt else Panic NilDeref, tr).

(** The messages that a stream delivers to [readAndProcessMessages], each with whether its event
    is read from [incomingMessages] before the stream's context is done. *)
Definition received_event (grpcMsg : GrpcMessage) : option RcvEvent :=
  match gm_Type grpcMsg with
  | GrpcPbMsg pbMsg => Some (PbMessageReceived (pb_DestModule pbMsg) (gm_Sender grpcMsg) pbMsg)
  | GrpcRawMsg destModule data => Some (MessageReceived destModule (gm_Sender grpcMsg) (RawMessage data))
  | GrpcNoType => None
  end.
Fixpoint readAndProcessMessages (stream : list (GrpcMessage * bool)) : list rcv_list :=
  match stream with
  | [] => []
  | (grpcMsg, true) :: stream => [received_event grpcMsg] :: readAndProcessMessages stream
  | (_, false) :: stream => readAndProcessMessages stream
  end.

(** The loop of [WaitFor]: what it receives, from a connection ([inl], its error if any) or because
    [stop] is closed; [None] while it waits for more. *)
Fixpoint wait_loop (n : Z) (numConnected : Z) (inputs : list (option string + unit)) : option (outcome unit) :=
  if bool_decide (numConnected < n)%Z then
    match inputs with
    | [] => None
    | inl (Some err) :: _ => Some (Err err)
    | inl None :: inputs => wait_loop n (numConnected + 1) inputs
    | inr _ :: _ => Some (Err "transport stopped while waiting for connections")
    end
  else Some (Ok tt).
Definition WaitFor (n : Z) (inputs : list (option string + unit)) : option (outcome unit) := wait_loop n 0 inputs.

(** ** Runs of a transport

    The operations of the node and the goroutines of the connections, in any order.  A goroutine
    that delivers a message to the own node is done when the message is read, or when its context is
    cancelled. *)
Inductive tr_step (tr : Transport) : Transport → Prop :=
| tr_apply evs r tr' : ApplyEvents evs tr = (r, tr') → tr_step tr tr'
| tr_send destNode msg tr' : SendPbMessage destNode msg tr = Ok tr' → tr_step tr tr'
| tr_connect rng mb : tr_step tr (Connect rng mb tr)
| tr_close_old mb : tr_step tr (CloseOldConnections mb tr).2
| tr_Stop r tr' : Stop tr = (r, tr') → tr_step tr tr'
| tr_conn id conn conn' : tr_connections tr !! id = Some conn → conn_step conn conn' →
    tr_step tr (with_connections (<[id := conn']> (tr_connections tr)) (tr_nodeIDs tr) tr)
| tr_delivered ds1 l ds2 : tr_deliveries tr = ds1 ++ l :: ds2 → tr_step tr (with_deliveries (ds1 ++ ds2) tr).

(** A connection that the transport uses: to the own node without, to others over the network,
    open, and given messages of the own node only. *)
Definition own_message (own : NodeID) (msg : GrpcMessage) : Prop := gm_Sender msg = own ∧ gm_Type msg ≠ GrpcNoType.
Definition conn_ok (own : NodeID) (size : nat) (id : NodeID) (conn : connection) : Prop :=
  match conn with
  | RemoteConn c => id ≠ own ∧ rc_stop c = false ∧
      ∃ acc, rc_run size (rc_addr c) acc c ∧ Forall (own_message own) acc
  | SelfConn c => id = own ∧ sc_stop c = false ∧ sc_done c = false ∧ length (sc_msgBuffer c) ≤ size ∧ sc_bufferSize c = size ∧ sc_at c ≠ ScExited
  end.
Record TrInv (own : NodeID) (size : nat) (tr : Transport) : Prop := {
  ti_own : tr_ownID tr = own;
  ti_size : tr_ConnectionBufferSize tr = size;
  ti_nodeIDs addr id : tr_nodeIDs tr !! addr = Some id →
    ∃ conn, tr_connections tr !! id = Some conn ∧ conn_Address conn = addr;
  ti_connections : map_Forall (conn_ok own size) (tr_connections tr);
  ti_stop : tr_stop tr = true → tr_connections tr = ∅;
}.

Lemma rc_step_addr c c' : rc_step c c' → rc_addr c' = rc_addr c ∧ rc_stop c' = rc_stop c.
Proof. intros []; try done; [destruct (rc_stream c); done]. Qed.
Lemma Send_addr msg c c' : Send msg c = Ok c' → rc_addr c' = rc_addr c ∧ rc_stop c' = rc_stop c.
Proof.
  unfold Send. case_bool_decide; [by intros [= <-]|]. destruct (rc_bufferSize c); [|done]. destruct (rc_at c); try done. by intros [= <-].
Qed.
Lemma self_Send_addr msg c c' : self_Send msg c = Ok c' →
  sc_ownAddr c' = sc_ownAddr c ∧ sc_stop c' = sc_stop c ∧ sc_done c' = sc_done c ∧ sc_bufferSize c' = sc_bufferSize c ∧
  (length (sc_msgBuffer c) ≤ sc_bufferSize c → length (sc_msgBuffer c') ≤ sc_bufferSize c) ∧ (sc_at c' = ScExited → sc_at c = ScExited).
Proof.
  unfold self_Send. case_bool_decide.
  - intros [= <-]. simpl. split_and!; try done. rewrite length_app. simpl. lia.
  - destruct (sc_bufferSize c) eqn:Hs; [|done]. destruct (sc_at c) eqn:Ha; try done. intros [= <-]. simpl. by rewrite Hs.
Qed.
Lemma conn_Send_Address msg conn conn' : conn_Send msg conn = Ok conn' → conn_Address conn' = conn_Address conn.
Proof.
  destruct conn as [c|c]; simpl.
  - destruct (Send msg c) eqn:Hs; [|done..]. intros [= <-]. by apply Send_addr in Hs as [? _].
  - destruct (self_Send msg c) eqn:Hs; [|done..]. intros [= <-]. by apply self_Send_addr in Hs as [? _].
Qed.
Lemma conn_step_Address conn conn' : conn_step conn conn' → conn_Address conn' = conn_Address conn.
Proof. intros [c c' [? _]%rc_step_addr|c c' Hs]; [done|]. by destruct Hs. Qed.

Lemma conn_Send_ok own size id msg conn conn' :
  conn_ok own size id conn → own_message own msg → conn_Send msg conn = Ok conn' → conn_ok own size id conn'.
Proof.
  intros Hok Hm. destruct conn as [c|c]; simpl.
  - destruct (Send msg c) as [c'| |] eqn:Hs; [|done..]. intros [= <-]. destruct Hok as (Hid & Hst & acc & Hr & Hacc).
    pose proof (Send_addr _ _ _ Hs) as [Ha Hst']. split; [done|]. split; [by rewrite Hst'|].
    exists (acc ++ [msg]). rewrite Ha. split; [by eapply rc_accept|]. apply Forall_app. split; [done|]. by constructor.
  - destruct (self_Send msg c) as [c'| |] eqn:Hs; [|done..]. intros [= <-]. destruct Hok as (Hid & Hst & Hd & Hl & Hb & Ha). simpl.
    apply self_Send_addr in Hs as (_ & -> & -> & Hb' & Hl' & Ha'). rewrite Hb', Hb in *. split_and!; auto.
Qed.
Lemma conn_step_ok own size id conn conn' : conn_ok own size id conn → conn_step conn conn' → conn_ok own size id conn'.
Proof.
  intros Hok Hs. revert Hok. destruct Hs as [c c' Hs|c c' Hs]; simpl; intros Hok.
  - destruct Hok as (Hid & Hst & acc & Hr & Hacc). pose proof (rc_step_addr _ _ Hs) as [Ha Hst']. simpl.
    rewrite Hst', Ha. split_and!; [done..|]. exists acc. split; [by eapply rc_process|done].
  - destruct Hok as (Hid & Hst & Hd & Hl & Hb & Ha).
    destruct Hs as [? ?|msg buffer ? Hm|ev ? ?|ev ?]; try congruence; simpl; split_and!; try done.
    rewrite Hm in Hl. simpl in Hl. lia.
Qed.

(** Replacing a connection by a later state of it. *)
Lemma update_conn_inv own size tr id conn conn' :
  TrInv own size tr → tr_connections tr !! id = Some conn → conn_ok own size id conn' → conn_Address conn' = conn_Address conn →
  TrInv own size (with_connections (<[id := conn']> (tr_connections tr)) (tr_nodeIDs tr) tr).
Proof.
  intros [H1 H2 H3 H4 H5] Hc Hok Ha. split; simpl; try done.
  - intros addr i Hi. destruct (H3 addr i Hi) as (conn0 & Hc0 & Ha0). destruct (decide (i = id)) as [->|Hne].
    + exists conn'. rewrite lookup_insert_eq. split; [done|]. congruence.
    + exists conn0. by rewrite lookup_insert_ne.
  - by apply map_Forall_insert_2.
  - intros Hst. rewrite (H5 Hst) in Hc. done.
Qed.
Lemma send_to_inv own size destNode conn msg tr tr' :
  TrInv own size tr → tr_connections tr !! destNode = Some conn → own_message own msg → send_to destNode conn msg tr = Ok tr' →
  TrInv own size tr'.
Proof.
  intros Hi Hc Hm. unfold send_to. destruct (conn_Send msg conn) as [conn'| |] eqn:Hs; [|done..]. intros [= <-].
  apply (update_conn_inv _ _ _ _ conn); [done..| |by eapply conn_Send_Address].
  eapply conn_Send_ok; [|done..]. by apply (ti_connections _ _ _ Hi).
Qed.
Lemma SendPbMessage_inv own size destNode msg tr tr' : TrInv own size tr → SendPbMessage destNode msg tr = Ok tr' → TrInv own size tr'.
Proof.
  intros Hi. unfold SendPbMessage, getConnection. destruct (tr_connections tr !! destNode) eqn:Hc; [|done]. simpl.
  apply send_to_inv; [done..|]. split; [apply Hi|done].
Qed.
Lemma SendRawMessage_inv own size destNode destModule msg tr tr' :
  TrInv own size tr → SendRawMessage destNode destModule msg tr = Ok tr' → TrInv own size tr'.
Proof.
  intros Hi. unfold SendRawMessage, getConnection. destruct (tr_connections tr !! destNode) eqn:Hc; [|done]. simpl.
  destruct (ToBytes msg); [|done..]. apply send_to_inv; [done..|]. split; [apply Hi|done].
Qed.
Lemma deliveries_inv own size ds tr : TrInv own size tr → TrInv own size (with_deliveries ds tr).
Proof. intros [H1 H2 H3 H4 H5]. by split. Qed.
Lemma send_raw_loop_inv own size destNodes destModule payload tr r tr' :
  TrInv own size tr → send_raw_loop destNodes destModule payload tr = (r, tr') → TrInv own size tr'.
Proof.
  revert tr. induction destNodes as [|d ds IH]; intros tr Hi; simpl; [by intros [= <- <-]|].
  case_bool_decide; [by apply IH, deliveries_inv|].
  destruct (SendRawMessage d destModule payload tr) eqn:Hs; [by eapply IH, SendRawMessage_inv| |by intros [= <- <-]].
  destruct (tr_stats tr); [|by apply IH]. destruct (ToBytes payload); [by apply IH|by intros [= <- <-]..].
Qed.
Lemma send_pb_loop_inv own size destinations msg tr r tr' :
  TrInv own size tr → send_pb_loop destinations msg tr = (r, tr') → TrInv own size tr'.
Proof.
  revert tr. induction destinations as [|d ds IH]; intros tr Hi; simpl; [by intros [= <- <-]|].
  case_bool_decide; [by apply IH, deliveries_inv|].
  destruct (SendPbMessage d msg tr) eqn:Hs; [by eapply IH, SendPbMessage_inv|by apply IH|by intros [= <- <-]].
Qed.
Lemma tr_ApplyEvents_inv own size evs tr r tr' : TrInv own size tr → ApplyEvents evs tr = (r, tr') → TrInv own size tr'.
Proof.
  revert tr. induction evs as [|[|dests m p|[dests msg| |]|] evs IH]; intros tr Hi; simpl; try (by intros [= <- <-]); [by apply IH| |].
  - destruct (send_raw_loop dests m p tr) as [r1 tr1] eqn:Hs. apply send_raw_loop_inv with (own := own) (size := size) in Hs; [|done].
    destruct r1; [by apply IH|by intros [= <- <-]..].
  - by apply send_pb_loop_inv.
Qed.
Lemma connect_one_inv own size tr node : tr_stop tr = false → TrInv own size tr → TrInv own size (connect_one tr node) ∧ tr_stop (connect_one tr node) = false.
Proof.
  intros Hst Hi. destruct node as [id ident]. simpl. destruct (tr_connections tr !! id) eqn:Hc; [done|].
  destruct (NewMultiaddr (ni_Addr ident)) as [addr| |]; [|done..]. split; [|done].
  destruct Hi as [H1 H2 H3 H4 H5]. split; simpl; [done..| | |congruence].
  - intros a i. set (conn0 := if bool_decide (id = tr_ownID tr) then _ else _). destruct (decide (a = conn_Address conn0)) as [->|Hne].
    + rewrite lookup_insert_eq. intros [= <-]. rewrite lookup_insert_eq. eauto.
    + rewrite lookup_insert_ne by done. intros Hi. destruct (H3 a i Hi) as (conn & Hconn & Ha). exists conn.
      rewrite lookup_insert_ne; [done|congruence].
  - apply map_Forall_insert_2; [|done]. case_bool_decide; simpl; rewrite H2.
    + split_and!; [congruence|done..|simpl; lia|done|done].
    + split_and!; [congruence|done|]. exists []. split; [constructor|constructor].
Qed.
Lemma Connect_inv own size rng mb tr : TrInv own size tr → TrInv own size (Connect rng mb tr).
Proof.
  intros Hi. unfold Connect. destruct (tr_stop tr) eqn:Hst; [done|]. generalize (range_order rng 0 (map_to_list (Nodes mb))) as l.
  intros l. revert tr Hst Hi. induction l as [|p l IH]; intros tr Hst Hi; simpl; [done|].
  destruct (connect_one_inv _ _ _ p Hst Hi). by apply IH.
Qed.
Lemma delete_ids_lookup (l : list (NodeID * connection)) (ids : gmap string NodeID) addr id :
  foldl (λ ids p, delete (conn_Address p.2) ids) ids l !! addr = Some id ↔
  ids !! addr = Some id ∧ ∀ p, p ∈ l → conn_Address p.2 ≠ addr.
Proof.
  revert ids. induction l as [|p l IH]; intros ids; simpl.
  - split; [|tauto]. intros ?. split; [done|]. by intros ? ?%not_elem_of_nil.
  - rewrite IH, lookup_delete_Some. setoid_rewrite elem_of_cons. naive_solver.
Qed.
Lemma CloseOld_inv own size mb tr : TrInv own size tr → TrInv own size (CloseOldConnections mb tr).2.
Proof.
  intros [H1 H2 H3 H4 H5]. split; simpl; [done..| | |].
  - intros addr id [Hi Hdel]%delete_ids_lookup. destruct (H3 _ _ Hi) as (conn & Hc & Ha). exists conn. split; [|done].
    apply lookup_difference_Some. split; [done|]. apply map_lookup_filter_None. right. intros conn' Hc' Hn. simpl in Hn.
    apply (Hdel (id, conn)); [|done]. apply elem_of_map_to_list, map_lookup_filter_Some. split; [done|]. simpl. congruence.
  - intros id conn [Hc _]%lookup_difference_Some. by apply H4.
  - intros Hst. apply map_empty. intros id. apply lookup_difference_None. left. by rewrite (H5 Hst).
Qed.
Lemma Stop_inv own size tr r tr' : TrInv own size tr → Stop tr = (r, tr') → TrInv own size tr'.
Proof.
  intros Hi. unfold Stop. destruct (tr_stop tr) eqn:Hst; [by intros [= <- <-]|]. intros [= <- <-].
  destruct Hi as [H1 H2 H3 H4 H5]. set (all := filter _ _). assert (all = tr_connections tr) as -> by (apply map_filter_id; done).
  split; simpl; [done..| | |].
  - intros addr id [Hi Hdel]%delete_ids_lookup. destruct (H3 _ _ Hi) as (conn & Hc & Ha). by destruct (Hdel (id, conn)); [apply elem_of_map_to_list|].
  - rewrite map_difference_diag. apply map_Forall_empty.
  - intros _. apply map_difference_diag.
Qed.
Lemma tr_step_inv own size tr tr' : TrInv own size tr → tr_step tr tr' → TrInv own size tr'.
Proof.
  intros Hi [evs r tr1 He|d msg tr1 Hs|rng mb|mb|r tr1 Hs|id conn conn' Hc Hs|ds1 l ds2 _].
  - by eapply tr_ApplyEvents_inv.
  - by eapply SendPbMessage_inv.
  - by apply Connect_inv.
  - by apply CloseOld_inv.
  - by eapply Stop_inv.
  - eapply update_conn_inv; [done..| |by apply conn_step_Address]. eapply conn_step_ok; [|done]. by apply (ti_connections _ _ _ Hi).
  - by apply deliveries_inv.
Qed.
Lemma tr_run_inv bufferSize ownID ownAddr stats tr0 tr :
  NewTransport bufferSize ownID ownAddr stats = Ok tr0 → rtc tr_step tr0 tr → TrInv ownID bufferSize tr.
Proof.
  intros H0 Hr. assert (TrInv ownID bufferSize tr0) as Hi0.
  { revert H0. unfold NewTransport. destruct (NewMultiaddr ownAddr); [|done..]. intros [= <-]. by split. }
  clear H0. induction Hr as [|tr0 tr1 tr2 Hs _ IH]; [done|]. by eapply IH, tr_step_inv.
Qed.
(** An open connection that was given messages with a type only is alive. *)
Lemma conn_alive own size c acc addr :
  rc_run size addr acc c → Forall (own_message own) acc → rc_stop c = false →
  rc_done c = false ∧ length (rc_msgBuffer c) ≤ size ∧ (∀ s msg, (s, msg) ∈ rc_sent c → own_message own msg).
Proof.
  intros [Hi <-]%rc_run_inv Hacc Hst. rewrite list.Forall_forall in Hacc. split_and!.
  - destruct (rc_done c) eqn:Hd; [|done]. apply (ri_done _ _ Hi) in Hd.
    destruct (ri_exited _ _ Hi Hd) as [_ [?|(msg & Hm & ?)]]; [congruence|]. by destruct (Hacc msg Hm).
  - apply Hi.
  - intros s msg Hin. apply Hacc. rewrite (ri_order _ _ Hi). apply elem_of_app. left. apply list_elem_of_fmap. by exists (s, msg).
Qed.

(** C36 (type).  The state of a transport is well-formed in every run, whatever events it
    applies, whichever memberships it is given and whatever the network does: the connection under the
    own ID is the only one that bypasses the network; every connection in use is open, its
    goroutine is running, its buffer is within the configured size, and only messages that
    name the own node as sender and have a type were written to the network; addresses are
    registered only for nodes whose connection has that address; a stopped transport has no connections and
    makes none. *)
Theorem transport_well_formed bufferSize ownID ownAddr stats tr0 tr :
  NewTransport bufferSize ownID ownAddr stats = Ok tr0 → rtc tr_step tr0 tr →
  (∀ id conn, tr_connections tr !! id = Some conn →
     match conn with
     | RemoteConn c => id ≠ ownID ∧ rc_stop c = false ∧ rc_done c = false ∧ length (rc_msgBuffer c) ≤ bufferSize ∧
         (∀ s msg, (s, msg) ∈ rc_sent c → gm_Sender msg = ownID ∧ gm_Type msg ≠ GrpcNoType)
     | SelfConn c => id = ownID ∧ sc_stop c = false ∧ sc_done c = false ∧ length (sc_msgBuffer c) ≤ bufferSize
     end) ∧
  (∀ addr id, tr_nodeIDs tr !! addr = Some id → ∃ conn, tr_connections tr !! id = Some conn ∧ conn_Address conn = addr) ∧
  (tr_stop tr = true → tr_connections tr = ∅ ∧ tr_nodeIDs tr = ∅ ∧ ∀ rng mb, Connect rng mb tr = tr).
Proof.
  intros H0 Hr. pose proof (tr_run_inv _ _ _ _ _ _ H0 Hr) as Hi. split_and!.
  - intros id [c|c] Hc; apply (ti_connections _ _ _ Hi) in Hc; simpl in Hc.
    + destruct Hc as (Hid & Hst & acc & Hrun & Hacc). by destruct (conn_alive _ _ _ _ _ Hrun Hacc Hst) as (? & ? & ?).
    + tauto.
  - apply Hi.
  - intros Hst. pose proof (ti_stop _ _ _ Hi Hst) as He. split_and!; [done| |].
    + apply map_empty. intros a. destruct (tr_nodeIDs tr !! a) eqn:Ha; [|done].
      destruct (ti_nodeIDs _ _ _ Hi _ _ Ha) as (conn & Hc & _). by rewrite He in Hc.
    + intros rng mb. unfold Connect. by rewrite Hst.
Qed.

(** ** What sending does *)
Definition sent (msg : GrpcMessage) (conn : connection) : connection :=
  match conn_Send msg conn with Ok conn' => conn' | _ => conn end.
Definition send_one (e : RcvEvent) (msg : GrpcMessage) (tr : Transport) (destID : NodeID) : Transport :=
  if bool_decide (destID = tr_ownID tr) then deliver_self e tr
  else with_connections (alter (sent msg) destID (tr_connections tr)) (tr_nodeIDs tr) tr.
(** What a message to several nodes does: it is handed to the connection of each of them that
    there is, which keeps it if it has room, and delivered to the own node if that is
    one of them. *)
Definition broadcast (e : RcvEvent) (msg : GrpcMessage) (dests : list NodeID) (tr tr' : Transport) : Prop :=
  (∀ id, tr_connections tr' !! id =
     if bool_decide (id ∈ dests ∧ id ≠ tr_ownID tr) then sent msg <$> tr_connections tr !! id else tr_connections tr !! id) ∧
  tr_deliveries tr' = tr_deliveries tr ++ (if bool_decide (tr_ownID tr ∈ dests) then [[Some e]] else []) ∧
  tr_nodeIDs tr' = tr_nodeIDs tr ∧ tr_stop tr' = tr_stop tr.

Lemma conn_Send_no_panic msg conn p : conn_Send msg conn ≠ Panic p.
Proof.
  destruct conn as [c|c]; simpl; [unfold Send|unfold self_Send]; case_bool_decide; simpl; try done.
  - destruct (rc_bufferSize c), (rc_at c); done.
  - destruct (sc_bufferSize c), (sc_at c); done.
Qed.
Lemma send_one_spec e msg destID tr :
  destID ≠ tr_ownID tr →
  match (conn ← getConnection destID tr; send_to destID conn msg tr) with
  | Ok tr' => tr' = send_one e msg tr destID | Err _ => tr = send_one e msg tr destID | Panic _ => False
  end.
Proof.
  intros Hne. unfold send_one. rewrite bool_decide_eq_false_2 by done. unfold getConnection.
  destruct (tr_connections tr !! destID) as [conn|] eqn:Hc; simpl.
  - unfold send_to. pose proof (conn_Send_no_panic msg conn) as Hp. destruct (conn_Send msg conn) as [conn'|err|p] eqn:Hs; simpl.
    + f_equal. apply map_eq. intros i. destruct (decide (i = destID)) as [->|].
      * by rewrite lookup_insert_eq, lookup_alter_eq, Hc; simpl; unfold sent; rewrite Hs.
      * by rewrite lookup_insert_ne, lookup_alter_ne.
    + rewrite alter_id; [by destruct tr|]. intros x. rewrite Hc. intros [= <-]. unfold sent. by rewrite Hs.
    + by apply (Hp p).
  - rewrite alter_id; [by destruct tr|]. intros x. by rewrite Hc.
Qed.
Lemma send_one_ownID e msg tr d : tr_ownID (send_one e msg tr d) = tr_ownID tr.
Proof. unfold send_one. by case_bool_decide. Qed.
Lemma send_raw_loop_all own destModule payload data dests tr :
  ToBytes payload = Ok data → tr_ownID tr = own →
  send_raw_loop dests destModule payload tr =
    (Ok tt, foldl (send_one (MessageReceived destModule own (MsgPayload payload))
                            (mkGrpcMessage own (GrpcRawMsg destModule data))) tr dests).
Proof.
  intros Hb. set (e := MessageReceived _ _ _). set (msg := mkGrpcMessage _ _).
  revert tr. induction dests as [|d dests IH]; intros tr Ho; [done|]. simpl.
  rewrite <- IH by by rewrite send_one_ownID. case_bool_decide as Hd.
  { unfold send_one. rewrite bool_decide_eq_true_2 by done. by rewrite Ho. }
  pose proof (send_one_spec e msg d tr Hd) as Hs.
  unfold SendRawMessage. rewrite Hb, Ho. subst msg. destruct (getConnection d tr ≫= _) as [tr'|err|p]; [by rewrite Hs| |done].
  rewrite <- Hs. by destruct (tr_stats tr).
Qed.
Lemma send_pb_loop_all own msg dests tr :
  tr_ownID tr = own →
  send_pb_loop dests msg tr =
    (Ok tt, foldl (send_one (PbMessageReceived (pb_DestModule msg) own msg) (mkGrpcMessage own (GrpcPbMsg msg))) tr dests).
Proof.
  set (e := PbMessageReceived _ _ _). set (gmsg := mkGrpcMessage _ _).
  revert tr. induction dests as [|d dests IH]; intros tr Ho; [done|]. simpl.
  rewrite <- IH by by rewrite send_one_ownID. case_bool_decide as Hd.
  { unfold send_one. rewrite bool_decide_eq_true_2 by done. by rewrite Ho. }
  pose proof (send_one_spec e gmsg d tr Hd) as Hs.
  unfold SendPbMessage. rewrite Ho. subst gmsg. destruct (getConnection d tr ≫= _) as [tr'|err|p]; [by rewrite Hs| |done].
  by rewrite <- Hs.
Qed.
Lemma send_one_lookup e msg tr d id :
  tr_connections (send_one e msg tr d) !! id =
    if bool_decide (id = d ∧ id ≠ tr_ownID tr) then sent msg <$> tr_connections tr !! id else tr_connections tr !! id.
Proof.
  unfold send_one. case_bool_decide as Hd; [by rewrite bool_decide_eq_false_2 by (intros [-> ?]; done)|]. simpl.
  destruct (decide (id = d)) as [->|Hne]; [rewrite bool_decide_eq_true_2 by done; apply lookup_alter_eq|].
  rewrite bool_decide_eq_false_2 by (by intros [? _]). by apply lookup_alter_ne.
Qed.
Lemma send_all_broadcast e msg dests tr : NoDup dests → broadcast e msg dests tr (foldl (send_one e msg) tr dests).
Proof.
  clear NewMultiaddr DialArgs. intros Hnd. revert tr. induction Hnd as [|d dests Hd _ IH]; intros tr.
  { split_and!; [|by simpl; rewrite app_nil_r|done..]. intros id. by rewrite bool_decide_eq_false_2 by (by intros [?%not_elem_of_nil _]). }
  destruct (IH (send_one e msg tr d)) as (H1 & H2 & H3 & H4). rewrite send_one_ownID in H1, H2. simpl. split_and!.
  - intros id. rewrite H1, send_one_lookup. destruct (decide (id = d)) as [->|Hne].
    + rewrite bool_decide_eq_false_2 by (by intros [? _]). apply (f_equal (λ b : bool, if b then _ else _)), bool_decide_ext.
      split; intros [_ ?]; (split; [|done]); [by left|done].
    + rewrite (bool_decide_eq_false_2 (id = d ∧ _)) by (by intros [? _]).
      apply (f_equal (λ b : bool, if b then _ else _)), bool_decide_ext. rewrite elem_of_cons. tauto.
  - rewrite H2. unfold send_one. destruct (decide (d = tr_ownID tr)) as [Hdo|Hdo];
      [rewrite (bool_decide_eq_true_2 (d = _)) by done|rewrite (bool_decide_eq_false_2 (d = _)) by done]; simpl.
    + rewrite <- Hdo, bool_decide_eq_false_2 by done. rewrite bool_decide_eq_true_2 by (by left). by rewrite app_nil_r.
    + rewrite (bool_decide_ext (tr_ownID tr ∈ dests) (tr_ownID tr ∈ d :: dests)); [done|].
      rewrite elem_of_cons. split; [by right|]. intros [Heq|?]; [by destruct Hdo|done].
  - rewrite H3. unfold send_one. by destruct (bool_decide (d = tr_ownID tr)).
  - rewrite H4. unfold send_one. by destruct (bool_decide (d = tr_ownID tr)).
Qed.


(** A message without a type, which the sender's transport never sends but another program may, becomes a list
    with a nil event; the node that iterates over the list panics. *)
Theorem untyped_message_panics stream sender :
  (mkGrpcMessage sender GrpcNoType, true) ∈ stream →
  ∃ l, l ∈ readAndProcessMessages stream ∧ is_Panic (rcv_Next l) = true.
Proof.
  intros Hin. exists [None]. split; [|done]. induction stream as [|[m b] stream IH]; [by apply not_elem_of_nil in Hin|].
  apply elem_of_cons in Hin as [[= <- <-]|Hin]; [by left|]. destruct b; simpl; [right|]; by apply IH.
Qed.

(** A protobuf message sent over the connection to the own node arrives without its destination
    module, so that the node's buffer drops it. *)
Theorem self_connection_drops (msg : Pb) sender (eb : eventBuffer) :
  eb_buffers (Event := RcvEvent) eb !! "" = None →
  ∃ e, self_event (mkGrpcMessage sender (GrpcPbMsg msg)) = Some e ∧ Add RcvEvent_Dest eb (EventList.ListOf [e]) = eb.
Proof.
  intros Hb. eexists. split; [done|]. unfold Add, EventList.ListOf, EventList.Iterator, EventList.PushBack.
  cbn -[ModuleID.Top lookup]. assert (ModuleID.Top "" = "") as -> by done. by rewrite Hb.
Qed.

(** [WaitFor] returns successfully when [n] connections report success before any other input. *)
Lemma WaitFor_spec n inputs :
  (∃ r, WaitFor n inputs = Some r ∧ is_Ok r = true) ↔ take (Z.to_nat n) inputs = replicate (Z.to_nat n) (inl None).
Proof.
  unfold WaitFor. assert (∀ k inputs m, (n - k = Z.of_nat m ∨ n - k ≤ 0 ∧ m = 0%nat)%Z →
    (∃ r, wait_loop n k inputs = Some r ∧ is_Ok r = true) ↔ take m inputs = replicate m (inl None)) as H;
    [|apply H; lia]. clear inputs.
  intros k inputs. revert k. induction inputs as [|i inputs IH]; intros k m Hm; cbn [wait_loop]; destruct (decide (k < n)%Z);
    (rewrite bool_decide_eq_true_2 by done) || (rewrite bool_decide_eq_false_2 by done); destruct m as [|m]; try lia.
  - simpl. naive_solver.
  - split; [done|]. intros _. by exists (Ok tt).
  - destruct i as [[err|]|[]]; simpl; [naive_solver| |naive_solver]. rewrite (IH (k + 1)%Z m) by lia. split; [by intros ->|by intros [=]].
  - split; [done|]. intros _. by exists (Ok tt).
Qed.
End net.

(** ** A connection and a transport at work *)
Module NetExample.
Definition m1 : @GrpcMessage string := mkGrpcMessage "a" (GrpcRawMsg "m" (Some "hello")).
Definition ToBytes (p : string) : outcome bytes := Ok (Some p).
Definition parse (a : string) : outcome string := if bool_decide (a = "") then Err "empty multiaddr" else Ok a.
(** [m1] is accepted and taken from the buffer; dialing fails once; the first write fails. *)
Definition c0 : @remoteConnection string := newRemoteConnection 1 "addr".
Definition c1 := rc_take [m1] None RcTop c0.
Definition c2 := rc_move RcConnect (rc_move RcDialing (rc_move RcConnect c1)).
Definition c3 := rc_connected (rc_open (rc_move RcDialing c2)).
Definition c4 := rc_take [] (Some m1) RcSend c3.
Definition c5 := rc_move RcConnect (rc_move RcTop (closeClientConn c4)).
Definition c6 := rc_write 1 m1 (rc_connected (rc_open (rc_move RcDialing c5))).

Ltac run1 r := eapply rc_process; [|eapply r; reflexivity || (intros ?; discriminate)].
Lemma run_c6 : rc_run 1 "addr" [m1] c6.
Proof.
  unfold c6. run1 @rc_send_ok. run1 @rc_connect_done. run1 @rc_dial_ok. run1 @rc_connect_try.
  unfold c5. apply (rc_process _ _ _ (rc_move RcTop (closeClientConn c4))); [|exact (rc_top (rc_move RcTop (closeClientConn c4)) eq_refl eq_refl)]. run1 @rc_send_failed.
  unfold c4. run1 @rc_next. unfold c3. run1 @rc_connect_done. run1 @rc_dial_ok. run1 @rc_connect_try.
  unfold c2. run1 @rc_dial_failed. run1 @rc_connect_try. apply (rc_process _ _ _ c1); [|exact (rc_top c1 eq_refl eq_refl)].
  apply (rc_accept 1 "addr" [] c0 m1); [constructor|reflexivity].
Qed.

Lemma connection_is_fifo_witness :
  rc_run 1 "addr" [m1] c6 ∧ rc_sent c6 = [(1, m1)] ∧ ∃ c', Send m1 c6 = Ok c'.
Proof.
  split; [exact run_c6|]. split; [reflexivity|].
  apply (connection_is_fifo 1 "addr" [m1] c6 run_c6). vm_compute. lia.
Defined.

Definition mb : Membership :=
  mkMembership {[ "a" := mkNodeIdentity "a" "addrA" None "1"; "b" := mkNodeIdentity "b" "addrB" None "1";
                  "c" := mkNodeIdentity "c" "" None "1" ]}.
Definition tr0 : @Transport string string string := mkTransport "addrA" "a" 1 true false ∅ ∅ false [].
Definition tr1 := Connect parse parse range_id mb tr0.
Definition evs : list (@NetEvent string string) := [NetInit; NetSendMessage ["a"; "b"; "c"] "m" "hello"; NetPb (PbSendMessage ["b"] "m")].
Definition tr2 := (ApplyEvents (λ m, m) ToBytes evs tr1).2.

Lemma transport_run : rtc (tr_step (λ m, m) ToBytes parse parse) tr0 tr2.
Proof.
  eapply rtc_l; [apply (tr_connect _ _ _ _ tr0 range_id mb)|]. apply rtc_once.
  eapply (tr_apply _ _ _ _ _ evs). exact (surjective_pairing _).
Qed.
Lemma transport_well_formed_witness :
  NewTransport parse 1 "a" "addrA" true = Ok tr0 ∧
  ∃ c, tr_connections tr2 !! "b" = Some (RemoteConn c) ∧ rc_msgBuffer c = [m1] ∧ rc_done c = false.
Proof.
  split; [reflexivity|]. exists (rc_take [m1] None RcTop (newRemoteConnection 1 "addrB")).
  assert (tr_connections tr2 !! "b" = Some (RemoteConn (rc_take [m1] None RcTop (newRemoteConnection 1 "addrB")))) as Hc
    by (vm_compute; reflexivity).
  split; [exact Hc|]. split; [reflexivity|].
  pose proof (proj1 (transport_well_formed (λ m, m) ToBytes parse parse 1 "a" "addrA" true tr0 tr2 eq_refl transport_run) "b" _ Hc) as H.
  exact (proj1 (proj2 (proj2 H))).
Defined.
End NetExample.
