(* ===== verification/Json.v ===== *)
(** * encoding/json and encoding/base64, as stdevents uses them

    JSON values, their text as [json.Marshal] writes it and the parser of [json.Unmarshal], with
    Go's escapes and its treatment of invalid UTF-8; [[]byte] values as base64 strings; integers
    at their width.  Printing takes the text that follows as an argument.  The theorem the other
    files use is [parse_print]. *)
From Stdlib Require Import ZArith Lia Ascii String DecimalString DecimalPos DecimalZ.
From stdpp Require Import prelude strings list numbers.
From S2P Require Import Prelude Membership.
Local Open Scope string_scope.
Local Open Scope nat_scope.

(** The literal of a number is kept: what it is read as depends on the type it is read into. *)
Inductive json :=
| JNull | JBool (b : bool) | JNum (lit : string) | JStr (s : string) | JArr (l : list json) | JObj (fields : list (string * json)).

Definition ord (a : ascii) : N := N_of_ascii a.
Definition chr (n : N) : ascii := ascii_of_N n.
Definition between (lo : N) (a : ascii) (hi : N) : bool := (lo <=? ord a)%N && (ord a <=? hi)%N.

(** ** UTF-8: the sequences of two, three and four bytes that encode a character *)
Definition cont (a : ascii) : bool := between 128 a 191.
Definition two (a b : ascii) : bool := between 194 a 223 && cont b.
Definition three (a b c : ascii) : bool :=
  ((ord a =? 224)%N && between 160 b 191 || (ord a =? 237)%N && between 128 b 159 ||
   (between 225 a 236 || between 238 a 239) && cont b) && cont c.
Definition four (a b c d : ascii) : bool :=
  ((ord a =? 240)%N && between 144 b 191 || between 241 a 243 && cont b || (ord a =? 244)%N && between 128 b 143) &&
  cont c && cont d.
Fixpoint valid_utf8 (s : string) : bool :=
  match s with
  | "" => true
  | String a s1 =>
      if (ord a <? 128)%N then valid_utf8 s1 else
      match s1 with
      | String b s2 =>
          if two a b then valid_utf8 s2 else
          match s2 with
          | String c s3 =>
              if three a b c then valid_utf8 s3 else
              match s3 with String d s4 => four a b c d && valid_utf8 s4 | "" => false end
          | "" => false
          end
      | "" => false
      end
  end.
(** utf8.EncodeRune. *)
Definition EncodeRune (r : N) (k : string) : string :=
  if (r <? 128)%N then String (chr r) k
  else if (r <? 2048)%N then String (chr (192 + r / 64)) (String (chr (128 + r mod 64)) k)
  else if (r <? 65536)%N then
    String (chr (224 + r / 4096)) (String (chr (128 + r / 64 mod 64)) (String (chr (128 + r mod 64)) k))
  else String (chr (240 + r / 262144)) (String (chr (128 + r / 4096 mod 64)) (String (chr (128 + r / 64 mod 64))
         (String (chr (128 + r mod 64)) k))).
Definition RuneError : N := 65533.

(** ** Strings *)
Definition hex (n : N) : ascii := if (n <? 10)%N then chr (48 + n) else chr (87 + n).
Definition unhex (a : ascii) : option N :=
  if between 48 a 57 then Some (ord a - 48)%N
  else if between 97 a 102 then Some (ord a - 87)%N
  else if between 65 a 70 then Some (ord a - 55)%N else None.

(** The bytes below 128 that are written as they are. *)
Definition htmlSafe (a : ascii) : bool :=
  (32 <=? ord a)%N && negb (bool_decide (a ∈ ["034"; "092"; "060"; "062"; "038"]%char)).
Definition esc_ascii (a : ascii) (k : string) : string :=
  if htmlSafe a then String a k
  else String "092" match ord a with
  | 34%N | 92%N => String a k
  | 10%N => String "n" k
  | 13%N => String "r" k
  | 9%N => String "t" k
  | n => String "u" (String "0" (String "0" (String (hex (n / 16)) (String (hex (n mod 16)) k))))
  end.
(** Three-byte characters are copied, but for U+2028 and U+2029. *)
Definition esc_three (a b c : ascii) (k : string) : string :=
  if (ord a =? 226)%N && (ord b =? 128)%N && ((ord c =? 168)%N || (ord c =? 169)%N) then
    String "092" (String "u" (String "2" (String "0" (String "2" (String (hex (ord c mod 16)) k)))))
  else String a (String b (String c k)).
Fixpoint esc (s : string) (k : string) : string :=
  match s with
  | "" => k
  | String a s1 =>
      if (ord a <? 128)%N then esc_ascii a (esc s1 k) else
      match s1 with
      | String b s2 =>
          if two a b then String a (String b (esc s2 k)) else
          match s2 with
          | String c s3 =>
              if three a b c then esc_three a b c (esc s3 k) else
              match s3 with
              | String d s4 => if four a b c d then String a (String b (String c (String d (esc s4 k))))
                               else "\ufffd" +:+ esc s1 k
              | "" => "\ufffd" +:+ esc s1 k
              end
          | "" => "\ufffd" +:+ esc s1 k
          end
      | "" => "\ufffd" +:+ esc s1 k
      end
  end.
Definition print_string (s k : string) : string := String "034" (esc s (String "034" k)).

(** Four hexadecimal digits. *)
Definition getu4 (a b c d : ascii) : option N :=
  a ← unhex a; b ← unhex b; c ← unhex c; d ← unhex d; Some (4096 * a + 256 * b + 16 * c + d)%N.
Definition surrogate (r : N) : bool := (55296 <=? r)%N && (r <? 57344)%N.
(** utf16.DecodeRune: the character of a pair of surrogates. *)
Definition DecodeRune (r1 r2 : N) : option N :=
  if (55296 <=? r1)%N && (r1 <? 56320)%N && (56320 <=? r2)%N && (r2 <? 57344)%N
  then Some ((r1 - 55296) * 1024 + (r2 - 56320) + 65536)%N else None.
Definition simple_escape (e : ascii) : option ascii :=
  match ord e with
  | 34%N | 92%N | 47%N => Some e
  | 98%N => Some "008" | 102%N => Some "012" | 110%N => Some "010" | 114%N => Some "013" | 116%N => Some "009"
  | _ => None
  end%char.
(** After the opening quote: the contents of the string and what follows it. *)
Fixpoint unquote (s : string) : option (string * string) :=
  match s with
  | "" => None
  | String a s1 =>
      if (ord a =? 34)%N then Some ("", s1)
      else if (ord a =? 92)%N then
        match s1 with
        | String e s2 =>
            if (ord e =? 117)%N then
              match s2 with
              | String h1 (String h2 (String h3 (String h4 s6))) =>
                  r ← getu4 h1 h2 h3 h4;
                  if surrogate r then
                    match s6 with
                    | String q (String v (String h1 (String h2 (String h3 (String h4 s12))))) =>
                        match (if (ord q =? 92)%N && (ord v =? 117)%N then getu4 h1 h2 h3 h4 ≫= DecodeRune r else None) with
                        | Some dec => '(x, rest) ← unquote s12; Some (EncodeRune dec x, rest)
                        | None => '(x, rest) ← unquote s6; Some (EncodeRune RuneError x, rest)
                        end
                    | _ => '(x, rest) ← unquote s6; Some (EncodeRune RuneError x, rest)
                    end
                  else '(x, rest) ← unquote s6; Some (EncodeRune r x, rest)
              | _ => None
              end
            else c ← simple_escape e; '(x, rest) ← unquote s2; Some (String c x, rest)
        | "" => None
        end
      else if (ord a <? 32)%N then None
      else if (ord a <? 128)%N then '(x, rest) ← unquote s1; Some (String a x, rest)
      else match s1 with
      | String b s2 =>
          if two a b then '(x, rest) ← unquote s2; Some (String a (String b x), rest) else
          match s2 with
          | String c s3 =>
              if three a b c then '(x, rest) ← unquote s3; Some (String a (String b (String c x)), rest) else
              match s3 with
              | String d s4 =>
                  if four a b c d then '(x, rest) ← unquote s4; Some (String a (String b (String c (String d x))), rest)
                  else '(x, rest) ← unquote s1; Some (EncodeRune RuneError x, rest)
              | "" => '(x, rest) ← unquote s1; Some (EncodeRune RuneError x, rest)
              end
          | "" => '(x, rest) ← unquote s1; Some (EncodeRune RuneError x, rest)
          end
      | "" => '(x, rest) ← unquote s1; Some (EncodeRune RuneError x, rest)
      end
  end.

(** ** Numbers *)
Definition digit (a : ascii) : bool := between 48 a 57.
Fixpoint span_digits (s : string) : string * string :=
  match s with
  | String a s1 => if digit a then let '(ds, rest) := span_digits s1 in (String a ds, rest) else ("", s)
  | "" => ("", "")
  end.
Definition scan_sign (plus : bool) (s : string) : string * string :=
  match s with
  | String a s1 => if (ord a =? 45)%N || plus && (ord a =? 43)%N then (String a "", s1) else ("", s)
  | "" => ("", s)
  end.
Definition scan_int (s : string) : option (string * string) :=
  match span_digits s with
  | ("", _) => None
  | (String a (String _ _) as ds, rest) => if (ord a =? 48)%N then None else Some (ds, rest)
  | (ds, rest) => Some (ds, rest)
  end.
Definition scan_frac (s : string) : option (string * string) :=
  match s with
  | String a s1 =>
      if (ord a =? 46)%N then match span_digits s1 with ("", _) => None | (ds, rest) => Some (String a ds, rest) end
      else Some ("", s)
  | "" => Some ("", s)
  end.
Definition scan_exp (s : string) : option (string * string) :=
  match s with
  | String a s1 =>
      if (ord a =? 101)%N || (ord a =? 69)%N then
        let '(sg, s2) := scan_sign true s1 in
        match span_digits s2 with ("", _) => None | (ds, rest) => Some (String a (sg +:+ ds), rest) end
      else Some ("", s)
  | "" => Some ("", s)
  end.
Definition scan_number (s : string) : option (string * string) :=
  let '(sg, s) := scan_sign false s in
  '(i, s) ← scan_int s; '(f, s) ← scan_frac s; '(e, s) ← scan_exp s; Some (sg +:+ i +:+ f +:+ e, s).

(** ** Values *)
Fixpoint skip_ws (s : string) : string :=
  match s with
  | String a s1 => if (ord a =? 32)%N || (ord a =? 9)%N || (ord a =? 10)%N || (ord a =? 13)%N then skip_ws s1 else s
  | "" => ""
  end.
Fixpoint strip_prefix (p s : string) : option string :=
  match p, s with
  | "", _ => Some s
  | String a p, String b s => if bool_decide (a = b) then strip_prefix p s else None
  | _, _ => None
  end.

(** Arrays and objects may be nested to a depth of [depth].  Two calls are made for each byte of the
    text at most, so that the bound on the recursion in [parse] is never reached. *)
Fixpoint value (fuel depth : nat) (s : string) {struct fuel} : option (json * string) :=
  match fuel with
  | O => None
  | S fuel =>
      match skip_ws s with
      | "" => None
      | String a s1 as s0 =>
          match ord a with
          | 34%N => '(x, rest) ← unquote s1; Some (JStr x, rest)
          | 91%N =>
              match depth, skip_ws s1 with
              | O, _ => None
              | S depth, String b s2 as s1 =>
                  if (ord b =? 93)%N then Some (JArr [], s2) else '(l, rest) ← elements fuel depth s1; Some (JArr l, rest)
              | S _, "" => None
              end
          | 123%N =>
              match depth, skip_ws s1 with
              | O, _ => None
              | S depth, String b s2 as s1 =>
                  if (ord b =? 125)%N then Some (JObj [], s2) else '(l, rest) ← members fuel depth s1; Some (JObj l, rest)
              | S _, "" => None
              end
          | 110%N => rest ← strip_prefix "null" s0; Some (JNull, rest)
          | 116%N => rest ← strip_prefix "true" s0; Some (JBool true, rest)
          | 102%N => rest ← strip_prefix "false" s0; Some (JBool false, rest)
          | _ => '(lit, rest) ← scan_number s0; Some (JNum lit, rest)
          end
      end
  end
with elements (fuel depth : nat) (s : string) {struct fuel} : option (list json * string) :=
  match fuel with
  | O => None
  | S fuel =>
      '(v, s1) ← value fuel depth s;
      match skip_ws s1 with
      | String a s2 =>
          if (ord a =? 44)%N then '(l, rest) ← elements fuel depth s2; Some (v :: l, rest)
          else if (ord a =? 93)%N then Some ([v], s2) else None
      | "" => None
      end
  end
with members (fuel depth : nat) (s : string) {struct fuel} : option (list (string * json) * string) :=
  match fuel with
  | O => None
  | S fuel =>
      match skip_ws s with
      | String q s1 =>
          if (ord q =? 34)%N then
            '(key, s2) ← unquote s1;
            match skip_ws s2 with
            | String c s3 =>
                if (ord c =? 58)%N then
                  '(v, s4) ← value fuel depth s3;
                  match skip_ws s4 with
                  | String a s5 =>
                      if (ord a =? 44)%N then '(l, rest) ← members fuel depth s5; Some ((key, v) :: l, rest)
                      else if (ord a =? 125)%N then Some ([(key, v)], s5) else None
                  | "" => None
                  end
                else None
            | "" => None
            end
          else None
      | "" => None
      end
  end.
Definition maxNestingDepth : nat := 10000.
Definition parse (s : string) : option json :=
  '(v, rest) ← value (2 * String.length s + 2) maxNestingDepth s;
  match skip_ws rest with "" => Some v | _ => None end.

Fixpoint print (j : json) (k : string) {struct j} : string :=
  match j with
  | JNull => "null" +:+ k
  | JBool true => "true" +:+ k
  | JBool false => "false" +:+ k
  | JNum lit => lit +:+ k
  | JStr s => print_string s k
  | JArr [] => "[]" +:+ k
  | JArr (v :: l) =>
      String "[" (print v ((fix go l := match l with [] => String "]" k | v :: l => String "," (print v (go l)) end) l))
  | JObj [] => "{}" +:+ k
  | JObj ((key, v) :: l) =>
      String "{" (print_string key (String ":" (print v
        ((fix go l := match l with [] => String "}" k | (key, v) :: l => String "," (print_string key (String ":" (print v (go l)))) end) l))))
  end.

(** ** base64.StdEncoding *)
Definition b64_char (n : N) : ascii :=
  if (n <? 26)%N then chr (65 + n) else if (n <? 52)%N then chr (71 + n) else if (n <? 62)%N then chr (n - 4)
  else if (n =? 62)%N then "+"%char else "/"%char.
Definition b64_val (a : ascii) : option N :=
  if between 65 a 90 then Some (ord a - 65)%N else if between 97 a 122 then Some (ord a - 71)%N
  else if between 48 a 57 then Some (ord a + 4)%N else if (ord a =? 43)%N then Some 62%N
  else if (ord a =? 47)%N then Some 63%N else None.
Fixpoint b64_encode (s : string) : string :=
  match s with
  | "" => ""
  | String a "" => String (b64_char (ord a / 4)) (String (b64_char (ord a mod 4 * 16)) "==")
  | String a (String b "") =>
      String (b64_char (ord a / 4)) (String (b64_char (ord a mod 4 * 16 + ord b / 16)) (String (b64_char (ord b mod 16 * 4)) "="))
  | String a (String b (String c s)) =>
      String (b64_char (ord a / 4)) (String (b64_char (ord a mod 4 * 16 + ord b / 16))
        (String (b64_char (ord b mod 16 * 4 + ord c / 64)) (String (b64_char (ord c mod 64)) (b64_encode s))))
  end.
Fixpoint strip_newlines (s : string) : string :=
  match s with
  | "" => ""
  | String a s => if (ord a =? 10)%N || (ord a =? 13)%N then strip_newlines s else String a (strip_newlines s)
  end.
Fixpoint b64_quads (s : string) : option string :=
  match s with
  | "" => Some ""
  | String a (String b (String c (String d s))) =>
      a ← b64_val a; b ← b64_val b;
      if (ord c =? 61)%N then
        if (ord d =? 61)%N && bool_decide (s = "") then Some (String (chr (a * 4 + b / 16)) "") else None
      else
        c ← b64_val c;
        if (ord d =? 61)%N then
          if bool_decide (s = "") then Some (String (chr (a * 4 + b / 16)) (String (chr (b mod 16 * 16 + c / 4)) "")) else None
        else
          d ← b64_val d; r ← b64_quads s;
          Some (String (chr (a * 4 + b / 16)) (String (chr (b mod 16 * 16 + c / 4)) (String (chr (c mod 4 * 64 + d)) r)))
  | _ => None
  end.
Definition b64_decode (s : string) : option string := b64_quads (strip_newlines s).

(** ** Strings round trip *)
Lemma unquote_ascii a X : (ord a <? 128)%N = true → unquote (esc_ascii a X) = '(x, rest) ← unquote X; Some (String a x, rest).
Proof. destruct a as [[] [] [] [] [] [] [] []]; intros Ha; try discriminate Ha; reflexivity. Qed.
Definition multi (a : ascii) (s1 : string) : option (string * string) :=
  match s1 with
  | String b s2 =>
      if two a b then '(x, rest) ← unquote s2; Some (String a (String b x), rest) else
      match s2 with
      | String c s3 =>
          if three a b c then '(x, rest) ← unquote s3; Some (String a (String b (String c x)), rest) else
          match s3 with
          | String d s4 =>
              if four a b c d then '(x, rest) ← unquote s4; Some (String a (String b (String c (String d x))), rest)
              else '(x, rest) ← unquote s1; Some (EncodeRune RuneError x, rest)
          | "" => '(x, rest) ← unquote s1; Some (EncodeRune RuneError x, rest)
          end
      | "" => '(x, rest) ← unquote s1; Some (EncodeRune RuneError x, rest)
      end
  | "" => '(x, rest) ← unquote s1; Some (EncodeRune RuneError x, rest)
  end.
Lemma unquote_high a s1 : (ord a <? 128)%N = false → unquote (String a s1) = multi a s1.
Proof. destruct a as [[] [] [] [] [] [] [] []]; intros Ha; try discriminate Ha; reflexivity. Qed.
(** The third byte of U+2028 and U+2029 comes back from the escape. *)
Lemma unquote_three a b c X :
  (ord a <? 128)%N = false → two a b = false → three a b c = true →
  unquote (esc_three a b c X) = '(x, rest) ← unquote X; Some (String a (String b (String c x)), rest).
Proof.
  intros Ha H2 H3. unfold esc_three. destruct (_ && _) eqn:Hu.
  - apply andb_prop in Hu as [[Ea Eb]%andb_prop Ec]. apply N.eqb_eq in Ea, Eb.
    assert (a = chr 226) as -> by (rewrite <- Ea; symmetry; apply ascii_N_embedding).
    assert (b = chr 128) as -> by (rewrite <- Eb; symmetry; apply ascii_N_embedding).
    apply orb_prop in Ec as [Ec|Ec]; apply N.eqb_eq in Ec;
      [assert (c = chr 168) as -> by (rewrite <- Ec; symmetry; apply ascii_N_embedding)|
       assert (c = chr 169) as -> by (rewrite <- Ec; symmetry; apply ascii_N_embedding)]; reflexivity.
  - rewrite unquote_high by done. cbn [multi]. by rewrite H2, H3.
Qed.
Lemma unquote_esc s k : valid_utf8 s = true → unquote (esc s (String "034" k)) = Some (s, k).
Proof.
  remember (String.length s) as n eqn:Hn. revert s Hn. induction (lt_wf n) as [n _ IH]. intros s -> Hv.
  assert (∀ s', String.length s' < String.length s → valid_utf8 s' = true → unquote (esc s' (String "034" k)) = Some (s', k)) as IH'
    by (intros s' Hl; by apply (IH _ Hl)).
  clear IH. destruct s as [|a s1]; [done|]. cbn [valid_utf8 esc] in *. destruct (ord a <? 128)%N eqn:Ha.
  { rewrite unquote_ascii by done. rewrite IH'; [done|simpl; lia|done]. }
  destruct s1 as [|b s2]; [done|]. destruct (two a b) eqn:H2.
  { rewrite unquote_high by done. cbn [multi]. rewrite H2, IH'; [done|simpl; lia|done]. }
  destruct s2 as [|c s3]; [done|]. destruct (three a b c) eqn:H3.
  { rewrite unquote_three by done. rewrite IH'; [done|simpl; lia|done]. }
  destruct s3 as [|d s4]; [done|]. apply andb_prop in Hv as [H4 Hv]. rewrite H4, unquote_high by done. cbn [multi].
  rewrite H2, H3, H4, IH'; [done|simpl; lia|done].
Qed.

(** ** Integers round trip *)
Definition stops (k : string) : bool :=
  match k with "" => true | String a _ => negb (digit a || (ord a =? 46)%N || (ord a =? 101)%N || (ord a =? 69)%N) end.
Definition int_lit (z : Z) : string := VoteWeight.big_String z.
Lemma span_digits_uint d k :
  stops k = true → span_digits (NilEmpty.string_of_uint d +:+ k) = (NilEmpty.string_of_uint d, k).
Proof.
  intros Hk. induction d as [|d IH|d IH|d IH|d IH|d IH|d IH|d IH|d IH|d IH|d IH]; simpl; try (by rewrite IH).
  destruct k as [|a k]; [done|]. simpl in *. destruct (digit a); [done|reflexivity].
Qed.
Lemma scan_tail k : stops k = true → scan_frac k = Some ("", k) ∧ scan_exp k = Some ("", k).
Proof.
  destruct k as [|a k]; [done|]. simpl. intros Hk. apply negb_true_iff in Hk.
  apply orb_false_elim in Hk as [[[_ Hd]%orb_false_elim He]%orb_false_elim HE]. by rewrite Hd, He, HE.
Qed.
Lemma pos_uint_head p d : Pos.to_uint p ≠ Decimal.D0 d.
Proof.
  intros Hp. pose proof (DecimalPos.Unsigned.to_of (Pos.to_uint p)) as He. rewrite (DecimalPos.Unsigned.of_to p) in He.
  simpl in He. rewrite Hp in He. unfold Decimal.unorm in He. simpl in He.
  destruct (Decimal.nzhead d) as [|d'|d'|d'|d'|d'|d'|d'|d'|d'|d'] eqn:Hn; try discriminate He.
  - by apply (DecimalPos.Unsigned.to_uint_nonzero p); rewrite Hp, He.
  - by apply (DecimalFacts.nzhead_nonzero d d').
Qed.
Definition pos_lit (p : positive) : string := NilEmpty.string_of_uint (Pos.to_uint p).
Lemma pos_lit_head p : ∃ a s, pos_lit p = String a s ∧ digit a = true ∧ (ord a =? 48)%N = false.
Proof.
  unfold pos_lit. destruct (Pos.to_uint p) as [|d|d|d|d|d|d|d|d|d|d] eqn:Hd; try (by do 2 eexists; split_and!).
  - by destruct (DecimalPos.Unsigned.to_uint_nonnil p).
  - by destruct (pos_uint_head p d).
Qed.
Lemma int_lit_cases z : int_lit z = match z with Z0 => "0" | Zpos p => pos_lit p | Zneg p => String "-" (pos_lit p) end.
Proof.
  unfold int_lit, VoteWeight.big_String, pos_lit. destruct z as [|p|p]; [done| |]; simpl; unfold NilZero.string_of_uint;
    pose proof (DecimalPos.Unsigned.to_uint_nonnil p); by destruct (Pos.to_uint p).
Qed.
Lemma scan_int_pos p k : stops k = true → scan_int (pos_lit p +:+ k) = Some (pos_lit p, k).
Proof.
  intros Hk. unfold scan_int. destruct (pos_lit_head p) as (a & s & Hp & _ & Ha). unfold pos_lit in *.
  rewrite span_digits_uint by done. rewrite Hp. destruct s; [done|]. by rewrite Ha.
Qed.
Lemma string_app_nil_r (s : string) : s +:+ "" = s.
Proof. induction s as [|a s IH]; [done|]. exact (f_equal (String a) IH). Qed.
Lemma digit_no_sign a : digit a = true → (ord a =? 45)%N = false.
Proof. intros Ha. destruct (ord a =? 45)%N eqn:He; [|done]. apply N.eqb_eq in He. unfold digit, between in Ha. by rewrite He in Ha. Qed.
Lemma scan_int_zero k : stops k = true → scan_int ("0" +:+ k) = Some ("0", k).
Proof.
  intros Hk. unfold scan_int. change ("0" +:+ k) with (NilEmpty.string_of_uint (Decimal.D0 Decimal.Nil) +:+ k).
  by rewrite span_digits_uint.
Qed.
Lemma scan_number_int z k : stops k = true → scan_number (int_lit z +:+ k) = Some (int_lit z, k).
Proof.
  intros Hk. destruct (scan_tail k Hk) as [Hf He]. rewrite int_lit_cases.
  assert (∀ sg i, scan_sign false (sg +:+ i +:+ k) = (sg, i +:+ k) → scan_int (i +:+ k) = Some (i, k) →
    scan_number (sg +:+ i +:+ k) = Some (sg +:+ i, k)) as Hscan.
  { intros sg i Hs Hi. unfold scan_number. rewrite Hs, Hi. cbn -[scan_frac scan_exp append]. rewrite Hf. cbn -[scan_exp append].
    rewrite He. cbn -[append]. by rewrite !string_app_nil_r. }
  destruct z as [|p|p].
  - apply (Hscan "" "0"); [done|by apply scan_int_zero].
  - apply (Hscan "" (pos_lit p)); [|by apply scan_int_pos]. destruct (pos_lit_head p) as (a & s & -> & Hd & _). simpl.
    by rewrite (digit_no_sign a Hd).
  - apply (Hscan "-" (pos_lit p)); [done|by apply scan_int_pos].
Qed.
(** How an integer starts: the parser takes it for a number. *)
Lemma int_lit_head z : ∃ a s, int_lit z = String a s ∧ (digit a || (ord a =? 45)%N) = true.
Proof.
  rewrite int_lit_cases. destruct z as [|p|p]; [by exists "0"%char, ""| |by exists "-"%char, (pos_lit p)].
  destruct (pos_lit_head p) as (a & s & -> & Ha & _). exists a, s. by rewrite Ha.
Qed.

(** ** Values round trip *)
(** Values that [Marshal] writes for events: valid strings, integers, bounded nesting. *)
Fixpoint json_ok (d : nat) (j : json) {struct j} : Prop :=
  match j with
  | JNull | JBool _ => True
  | JNum lit => ∃ z, lit = int_lit z
  | JStr s => valid_utf8 s = true
  | JArr l => match d with O => False | S d => (fix all l := match l with [] => True | v :: l => json_ok d v ∧ all l end) l end
  | JObj l =>
      match d with
      | O => False
      | S d => (fix all l := match l with [] => True | (key, v) :: l => valid_utf8 key = true ∧ json_ok d v ∧ all l end) l
      end
  end.
(** Calls that the parser needs for a value. *)
Fixpoint need (j : json) : nat :=
  match j with
  | JArr l => S ((fix sum l := match l with [] => O | v :: l => S (need v) + sum l end) l)
  | JObj l => S ((fix sum l := match l with [] => O | (_, v) :: l => S (need v) + sum l end) l)
  | _ => 1
  end.
Fixpoint need_elems (l : list json) : nat := match l with [] => O | v :: l => S (need v) + need_elems l end.
Fixpoint need_members (l : list (string * json)) : nat := match l with [] => O | (_, v) :: l => S (need v) + need_members l end.
Definition elems_tail (l : list json) (k : string) : string :=
  (fix go l := match l with [] => String "]" k | v :: l => String "," (print v (go l)) end) l.
Definition members_tail (l : list (string * json)) (k : string) : string :=
  (fix go l := match l with [] => String "}" k | (key, v) :: l => String "," (print_string key (String ":" (print v (go l)))) end) l.
Definition elems_ok (d : nat) : list json → Prop :=
  fix all l := match l with [] => True | v :: l => json_ok d v ∧ all l end.
Definition members_ok (d : nat) : list (string * json) → Prop :=
  fix all l := match l with [] => True | (key, v) :: l => valid_utf8 key = true ∧ json_ok d v ∧ all l end.

(** A printed value starts with a byte that is not white space and ends no array. *)
Lemma print_head j d k :
  json_ok d j → ∃ a s, print j k = String a s ∧ skip_ws (String a s) = String a s ∧ (ord a =? 93)%N = false.
Proof.
  destruct j as [|[]|lit|s|[|v l]|[|[key v] l]]; intros Hok; try (by do 2 eexists; split_and!).
  simpl in Hok. destruct Hok as [z ->]. destruct (int_lit_head z) as (a & s & Hz & Ha). exists a, (s +:+ k). simpl. rewrite Hz. split; [done|].
  clear -Ha. destruct a as [[] [] [] [] [] [] [] []]; try discriminate Ha; by split.
Qed.
Lemma value_string f d s k : valid_utf8 s = true → value (S f) d (print_string s k) = Some (JStr s, k).
Proof.
  intros Hv. change (value (S f) d (print_string s k)) with ('(x, rest) ← unquote (esc s (String "034" k)); Some (JStr x, rest)).
  by rewrite unquote_esc.
Qed.
Definition after_member (fuel depth : nat) (key : string) (s3 : string) : option (list (string * json) * string) :=
  '(v, s4) ← value fuel depth s3;
  match skip_ws s4 with
  | String a s5 =>
      if (ord a =? 44)%N then '(l, rest) ← members fuel depth s5; Some ((key, v) :: l, rest)
      else if (ord a =? 125)%N then Some ([(key, v)], s5) else None
  | "" => None
  end.
Lemma members_key f d key t : valid_utf8 key = true → members (S f) d (print_string key (String ":" t)) = after_member f d key t.
Proof.
  intros Hv. change (members (S f) d (print_string key (String ":" t))) with
    ('(key, s2) ← unquote (esc key (String "034" (String ":" t)));
     match skip_ws s2 with String c s3 => if (ord c =? 58)%N then after_member f d key s3 else None | "" => None end).
  by rewrite unquote_esc.
Qed.
Lemma value_number f d a t :
  (digit a || (ord a =? 45)%N) = true →
  value (S f) d (String a t) = '(lit, rest) ← scan_number (String a t); Some (JNum lit, rest).
Proof. destruct a as [[] [] [] [] [] [] [] []]; intros Ha; try discriminate Ha; reflexivity. Qed.
Lemma value_int f d z k : stops k = true → value (S f) d (int_lit z +:+ k) = Some (JNum (int_lit z), k).
Proof.
  intros Hk. pose proof (scan_number_int z k Hk) as Hs. destruct (int_lit_head z) as (a & s & Hz & Ha). rewrite Hz in *.
  etrans; [exact (value_number f d a (s +:+ k) Ha)|].
  change (scan_number (String a (s +:+ k)) = Some (String a s, k)) in Hs. by rewrite Hs.
Qed.
Lemma stops_tails l m k : stops (elems_tail l k) = true ∧ stops (members_tail m k) = true.
Proof. by destruct l, m as [|[] ?]. Qed.

Section tails.
Context (n : nat) (IH : ∀ j d k f, need j ≤ n → json_ok d j → stops k = true → need j ≤ f → value f d (print j k) = Some (j, k)).
Lemma elements_print l v d k f :
  need_elems (v :: l) ≤ n → elems_ok d (v :: l) → need_elems (v :: l) ≤ f →
  elements f d (print v (elems_tail l k)) = Some (v :: l, k).
Proof.
  revert v f. induction l as [|w l IHl]; intros v [|f] Hn [Hv Hl] Hf; simpl in Hn, Hf; try lia; cbn [elements].
  - rewrite IH; [reflexivity|lia|done|done|lia].
  - rewrite IH; [|lia|done|done|lia].
    change (('(l0, rest) ← elements f d (print w (elems_tail l k)); Some (v :: l0, rest)) = Some (v :: w :: l, k)).
    by rewrite IHl; [|simpl; lia|done|simpl; lia].
Qed.
Lemma members_print l key v d k f :
  need_members ((key, v) :: l) ≤ n → members_ok d ((key, v) :: l) → need_members ((key, v) :: l) ≤ f →
  members f d (print_string key (String ":" (print v (members_tail l k)))) = Some ((key, v) :: l, k).
Proof.
  revert key v f. induction l as [|[key' w] l IHl]; intros key v [|f] Hn (Hkey & Hv & Hl) Hf; simpl in Hn, Hf; try lia;
    rewrite members_key by done; unfold after_member; (rewrite IH; [|lia|done|done|lia]); [reflexivity|].
  change (('(l0, rest) ← members f d (print_string key' (String ":" (print w (members_tail l k)))); Some ((key, v) :: l0, rest)) =
    Some ((key, v) :: (key', w) :: l, k)).
  by rewrite IHl; [|simpl; lia|done|simpl; lia].
Qed.
End tails.

Lemma value_print n j d k f :
  need j ≤ n → json_ok d j → stops k = true → need j ≤ f → value f d (print j k) = Some (j, k).
Proof.
  revert j d k f. induction n as [|n IH]; intros j d k [|f] Hn Hok Hk Hf; try (destruct j; simpl in *; lia).
  destruct j as [|[]|lit|s|[|v l]|[|[key v] l]].
  - reflexivity.
  - reflexivity.
  - reflexivity.
  - destruct Hok as [z ->]. by apply value_int.
  - by apply value_string.
  - simpl in Hok. destruct d; [done|]. reflexivity.
  - destruct d as [|d]; [done|]. change (S (need_elems (v :: l)) ≤ S n) in Hn. change (S (need_elems (v :: l)) ≤ S f) in Hf.
    change (elems_ok d (v :: l)) in Hok. pose proof Hok as [Hv _].
    assert (elements f d (print v (elems_tail l k)) = Some (v :: l, k)) as He by (apply (elements_print n IH); [lia|done|lia]).
    destruct (print_head v d (elems_tail l k) Hv) as (a & s & Hp & Hw & Ha).
    change (value (S f) (S d) (print (JArr (v :: l)) k)) with
      (match skip_ws (print v (elems_tail l k)) with
       | String b s2 as s1 => if (ord b =? 93)%N then Some (JArr [], s2) else '(l, rest) ← elements f d s1; Some (JArr l, rest)
       | "" => None end).
    rewrite Hp, Hw, Ha, <- Hp, He. done.
  - simpl in Hok. destruct d; [done|]. reflexivity.
  - destruct d as [|d]; [done|]. change (S (need_members ((key, v) :: l)) ≤ S n) in Hn.
    change (S (need_members ((key, v) :: l)) ≤ S f) in Hf. change (members_ok d ((key, v) :: l)) in Hok.
    change (value (S f) (S d) (print (JObj ((key, v) :: l)) k)) with
      ('(l, rest) ← members f d (print_string key (String ":" (print v (members_tail l k)))); Some (JObj l, rest)).
    by rewrite (members_print n IH); [|lia|done|lia].
Qed.

Lemma string_length_app (s t : string) : String.length (s +:+ t) = String.length s + String.length t.
Proof. induction s as [|a s IH]; [done|]. exact (f_equal S IH). Qed.
Lemma esc_length s k : String.length k ≤ String.length (esc s k).
Proof.
  remember (String.length s) as n eqn:Hn. revert s Hn. induction (lt_wf n) as [n _ IH]. intros s ->.
  assert (∀ s', String.length s' < String.length s → String.length k ≤ String.length (esc s' k)) as IH' by (intros s' Hl; by apply (IH _ Hl)).
  clear IH. destruct s as [|a s1]; [done|]. cbn [esc].
  pose proof (IH' s1 ltac:(simpl; lia)). assert (∀ t, String.length t ≤ String.length (esc_ascii a t)) as Ha.
  { intros t. destruct a as [[] [] [] [] [] [] [] []]; simpl; lia. }
  specialize (Ha (esc s1 k)). destruct (_ <? _)%N; [lia|]. destruct s1 as [|b s2]; [rewrite ?string_length_app; cbn; lia|].
  pose proof (IH' s2 ltac:(simpl; lia)). destruct (two a b); [rewrite ?string_length_app; cbn; lia|]. destruct s2 as [|c s3]; [rewrite ?string_length_app; cbn in *; lia|].
  pose proof (IH' s3 ltac:(simpl; lia)). destruct (three a b c).
  { unfold esc_three. destruct (_ && _); simpl; lia. }
  destruct s3 as [|d s4]; [rewrite ?string_length_app; cbn in *; lia|]. pose proof (IH' s4 ltac:(simpl; lia)). destruct (four a b c d); rewrite ?string_length_app; cbn in *; lia.
Qed.
Lemma print_string_length s k : 2 + String.length k ≤ String.length (print_string s k).
Proof. unfold print_string. pose proof (esc_length s (String "034" k)). cbn in *. lia. Qed.
Lemma need_length n j d k : need j ≤ n → json_ok d j → need j + 2 * String.length k ≤ 2 * String.length (print j k).
Proof.
  revert j d k. induction n as [|n IH]; intros j d k Hn Hok; [destruct j; simpl in *; lia|].
  destruct j as [|[]|lit|s|[|v l]|[|[key v] l]]; cbn [need print]; rewrite ?string_length_app; try (cbn; lia).
  - destruct Hok as [z ->]. destruct (int_lit_head z) as (a & s & -> & _). cbn. lia.
  - pose proof (print_string_length s k). lia.
  - destruct d as [|d]; [done|]. change (elems_ok d (v :: l)) in Hok. change (S (need_elems (v :: l)) ≤ S n) in Hn.
    change (S (need_elems (v :: l)) + 2 * String.length k ≤ 2 * S (String.length (print v (elems_tail l k)))).
    assert (∀ l, need_elems l ≤ n → elems_ok d l → need_elems l + 2 * String.length k + 2 ≤ 2 * String.length (elems_tail l k)) as Ht.
    { clear -IH. induction l as [|w l IHl]; intros Hn Hok; [cbn; lia|]. destruct Hok as [Hw Hl]. cbn [need_elems] in *.
      change (elems_tail (w :: l) k) with (String "," (print w (elems_tail l k))).
      pose proof (IH w d (elems_tail l k) ltac:(lia) Hw). specialize (IHl ltac:(lia) Hl). cbn [String.length]. lia. }
    destruct Hok as [Hv Hl]. cbn [need_elems] in *. pose proof (IH v d (elems_tail l k) ltac:(lia) Hv). specialize (Ht l ltac:(lia) Hl). lia.
  - destruct d as [|d]; [done|]. change (members_ok d ((key, v) :: l)) in Hok. change (S (need_members ((key, v) :: l)) ≤ S n) in Hn.
    change (S (need_members ((key, v) :: l)) + 2 * String.length k ≤
      2 * S (String.length (print_string key (String ":" (print v (members_tail l k)))))).
    pose proof (print_string_length key (String ":" (print v (members_tail l k)))) as Hs. cbn [String.length] in Hs.
    assert (∀ l, need_members l ≤ n → members_ok d l → need_members l + 2 * String.length k + 2 ≤ 2 * String.length (members_tail l k)) as Ht.
    { clear -IH. induction l as [|[key w] l IHl]; intros Hn Hok; [cbn; lia|]. destruct Hok as (_ & Hw & Hl). cbn [need_members] in *.
      change (members_tail ((key, w) :: l) k) with (String "," (print_string key (String ":" (print w (members_tail l k))))).
      pose proof (print_string_length key (String ":" (print w (members_tail l k)))) as Hs.
      pose proof (IH w d (members_tail l k) ltac:(lia) Hw). specialize (IHl ltac:(lia) Hl). cbn [String.length] in *. lia. }
    destruct Hok as (_ & Hv & Hl). cbn [need_members] in *. pose proof (IH v d (members_tail l k) ltac:(lia) Hv).
    specialize (Ht l ltac:(lia) Hl). lia.
Qed.
Lemma json_ok_mono d d' j : d ≤ d' → json_ok d j → json_ok d' j.
Proof.
  assert (∀ n j d d', need j ≤ n → d ≤ d' → json_ok d j → json_ok d' j) as H; [|by apply (H (need j))].
  clear. induction n as [|n IH]; intros j d d' Hn Hd; [destruct j; simpl in *; lia|].
  destruct j as [|b|lit|s|l|l]; try done; (destruct d as [|d]; [done|]); (destruct d' as [|d']; [lia|]).
  - change (S (need_elems l) ≤ S n) in Hn. change (elems_ok d l → elems_ok d' l). induction l as [|v l IHl]; [done|].
    cbn [need_elems] in Hn. intros [Hv Hl]. split; [apply (IH v d); [lia..|done]|apply IHl; [lia|done]].
  - change (S (need_members l) ≤ S n) in Hn. change (members_ok d l → members_ok d' l). induction l as [|[key v] l IHl]; [done|].
    cbn [need_members] in Hn. intros (Hk & Hv & Hl). split_and!; [done|apply (IH v d); [lia..|done]|apply IHl; [lia|done]].
Qed.
Lemma parse_print j : json_ok 5 j → parse (print j "") = Some j.
Proof.
  intros Hok. apply (json_ok_mono _ maxNestingDepth) in Hok; [|apply Nat.leb_le; reflexivity].
  unfold parse. pose proof (need_length (need j) j _ "" (le_n _) Hok) as Hl. cbn [String.length] in Hl.
  rewrite (value_print (need j) j _ "" _ (le_n _) Hok eq_refl) by lia. done.
Qed.

(** ** base64 round trip *)
Lemma b64_val_char n : (n < 64)%N → b64_val (b64_char n) = Some n ∧ (ord (b64_char n) =? 61)%N = false ∧
  (ord (b64_char n) =? 10)%N = false ∧ (ord (b64_char n) =? 13)%N = false.
Proof.
  intros Hn. assert (∀ m, m < 64 → let n := N.of_nat m in b64_val (b64_char n) = Some n ∧ (ord (b64_char n) =? 61)%N = false ∧
    (ord (b64_char n) =? 10)%N = false ∧ (ord (b64_char n) =? 13)%N = false) as H.
  { intros m Hm. do 64 (destruct m as [|m]; [by vm_compute|]). lia. }
  specialize (H (N.to_nat n) ltac:(lia)). by rewrite N2Nat.id in H.
Qed.
Lemma ord_bound a : (ord a < 256)%N.
Proof. apply N_ascii_bounded. Qed.
Lemma chr_ord a n : n = ord a → chr n = a.
Proof. intros ->. apply ascii_N_embedding. Qed.
Lemma strip_char n s : (n < 64)%N → strip_newlines (String (b64_char n) s) = String (b64_char n) (strip_newlines s).
Proof. intros Hn. destruct (b64_val_char n Hn) as (_ & _ & H1 & H2). cbn. by rewrite H1, H2. Qed.
Ltac divmod :=
  repeat match goal with a : ascii |- _ => lazymatch goal with _ : (ord a < 256)%N |- _ => fail | _ => pose proof (ord_bound a) end end;
  zify; Z.to_euclidean_division_equations; lia.
Lemma b64_quads_1 x y : (x < 64 → y < 64 → b64_quads (String (b64_char x) (String (b64_char y) "==")) = Some (String (chr (x * 4 + y / 16)) ""))%N.
Proof. intros Hx Hy. cbn. by rewrite (proj1 (b64_val_char x Hx)), (proj1 (b64_val_char y Hy)). Qed.
Lemma b64_quads_2 x y z : (x < 64 → y < 64 → z < 64 →
  b64_quads (String (b64_char x) (String (b64_char y) (String (b64_char z) "="))) =
    Some (String (chr (x * 4 + y / 16)) (String (chr (y mod 16 * 16 + z / 4)) "")))%N.
Proof.
  intros Hx Hy Hz. cbn. destruct (b64_val_char z Hz) as (Hv & He & _).
  rewrite (proj1 (b64_val_char x Hx)), (proj1 (b64_val_char y Hy)). cbn. by rewrite He, Hv.
Qed.
Lemma b64_quads_3 x y z w s : (x < 64 → y < 64 → z < 64 → w < 64 →
  b64_quads (String (b64_char x) (String (b64_char y) (String (b64_char z) (String (b64_char w) s)))) =
    r ← b64_quads s;
    Some (String (chr (x * 4 + y / 16)) (String (chr (y mod 16 * 16 + z / 4)) (String (chr (z mod 4 * 64 + w)) r))))%N.
Proof.
  intros Hx Hy Hz Hw. cbn -[b64_quads]. cbn [b64_quads]. destruct (b64_val_char z Hz) as (Hv & He & _), (b64_val_char w Hw) as (Hv' & He' & _).
  rewrite (proj1 (b64_val_char x Hx)), (proj1 (b64_val_char y Hy)). cbn. by rewrite He, Hv, He'; cbn; rewrite Hv'.
Qed.
Lemma b64_round_trip s : b64_decode (b64_encode s) = Some s.
Proof.
  unfold b64_decode. remember (String.length s) as n eqn:Hn. revert s Hn. induction (lt_wf n) as [n _ IH]. intros s ->.
  destruct s as [|a [|b [|c s]]]; [done| | |]; cbn [b64_encode].
  - clear IH. rewrite !strip_char by divmod. change (strip_newlines "==") with "==". rewrite b64_quads_1 by divmod.
    do 2 f_equal. apply chr_ord. divmod.
  - clear IH. rewrite !strip_char by divmod. change (strip_newlines "=") with "=". rewrite b64_quads_2 by divmod.
    do 2 f_equal; [apply chr_ord; divmod|]. f_equal. apply chr_ord. divmod.
  - pose proof (IH (String.length s) ltac:(cbn; lia) s eq_refl) as Hs. clear IH. rewrite !strip_char by divmod. rewrite b64_quads_3 by divmod. rewrite Hs.
    cbn -[N.mul N.add N.div N.modulo]. do 2 f_equal; [apply chr_ord; divmod|]. f_equal; [apply chr_ord; divmod|]. f_equal. apply chr_ord. divmod.
Qed.
Lemma valid_char n s : (n < 64)%N → valid_utf8 (String (b64_char n) s) = valid_utf8 s.
Proof.
  intros Hn. cbn. assert ((ord (b64_char n) <? 128)%N = true) as ->; [|done].
  assert (∀ m, m < 64 → (ord (b64_char (N.of_nat m)) <? 128)%N = true) as H.
  { intros m Hm. do 64 (destruct m as [|m]; [reflexivity|]). lia. }
  specialize (H (N.to_nat n) ltac:(lia)). by rewrite N2Nat.id in H.
Qed.
Lemma valid_b64 s : valid_utf8 (b64_encode s) = true.
Proof.
  remember (String.length s) as n eqn:Hn. revert s Hn. induction (lt_wf n) as [n _ IH]. intros s ->.
  destruct s as [|a [|b [|c s]]]; [done| | |]; cbn [b64_encode]; [clear IH; by rewrite !valid_char by divmod..|].
  pose proof (IH (String.length s) ltac:(cbn; lia) s eq_refl) as Hs. clear IH. by rewrite !valid_char by divmod.
Qed.
