(* ===== verification/StdEvents.v ===== *)
(** * stdevents: the standard events and their serialization

    The ten event types with their constructors and methods, [serialize] and [Deserialize].  An
    event holds its source and destination module; messages and parameters are values of the
    application that can be turned into bytes, and come back from serialization as raw bytes;
    the events in a timer event come back as [Raw] events.  The main theorem is the round trip
    [deserialize_serialize]. *)
From Stdlib Require Import ZArith Lia Ascii DecimalString.
From stdpp Require Import prelude strings list numbers pretty.
From S2P Require Import Prelude Membership Json.

Record mirEvent := mkMirEvent { SrcModule : string; DestModule : string }.

Section stdevents.
(** Values of the application with their serialization, and events of other packages. *)
Context {Ser Ext : Type} (Ser_ToBytes : Ser → outcome bytes)
  (Ext_Src Ext_Dest : Ext → string) (Ext_ToBytes : Ext → outcome bytes).

(** A stdtypes.Message or stdtypes.Serializable: a value of the application, or raw bytes. *)
Inductive payload := PApp (x : Ser) | PRaw (data : bytes).
Definition payload_ToBytes (p : payload) : outcome bytes := match p with PApp x => Ser_ToBytes x | PRaw data => Ok data end.

(** The events of timers: [None] is a nil [*Raw], which only [Deserialize] produces. *)
Inductive Event :=
| Raw (m : mirEvent) (Data : bytes)
| Init (m : mirEvent)
| SendMessage (m : mirEvent) (DestNodes : option (list NodeID)) (RemoteDestModule : string) (Payload : payload)
| MessageReceived (m : mirEvent) (Sender : NodeID) (Payload : payload)
| TimerDelay (m : mirEvent) (Events : list (option Event)) (Delay : Z)
| TimerRepeat (m : mirEvent) (Events : list (option Event)) (Period : Z) (RetentionIndex : N)
| NewSubmodule (m : mirEvent) (SubmoduleID : string) (Params : payload) (RetentionIndex : N)
| GarbageCollect (m : mirEvent) (RetentionIndex : N)
| TestString (m : mirEvent) (Value : string)
| TestUint64 (m : mirEvent) (Value : N)
| Other (e : Ext).

(** ** Constructors: the destination is given, the source is empty or given *)
Definition to (dest : string) : mirEvent := mkMirEvent "" dest.
Definition NewRaw dest data := Raw (to dest) data.
Definition NewRawWithSrc src dest data := Raw (mkMirEvent src dest) data.
Definition NewInit dest := Init (to dest).
Definition NewInitWithSrc src dest := Init (mkMirEvent src dest).
Definition NewSendMessage localDestModule remoteDestModule message destNodes :=
  SendMessage (to localDestModule) destNodes remoteDestModule message.
Definition NewSendMessageWithSrc src localDestModule remoteDestModule message destNodes :=
  SendMessage (mkMirEvent src localDestModule) destNodes remoteDestModule message.
Definition NewMessageReceived dest sender p := MessageReceived (to dest) sender p.
Definition NewMessageReceivedWithSrc src dest sender p := MessageReceived (mkMirEvent src dest) sender p.
Definition NewTimerDelay dest delay (events : list Event) := TimerDelay (to dest) (Some <$> events) delay.
Definition NewTimerDelayWithSrc src dest delay (events : list Event) := TimerDelay (mkMirEvent src dest) (Some <$> events) delay.
Definition NewTimerRepeat dest period retentionIndex (events : list Event) :=
  TimerRepeat (to dest) (Some <$> events) period retentionIndex.
Definition NewTimerRepeatWithSrc src dest period retentionIndex (events : list Event) :=
  TimerRepeat (mkMirEvent src dest) (Some <$> events) period retentionIndex.
Definition NewNewSubmodule dest submoduleID params retIdx := NewSubmodule (to dest) submoduleID params retIdx.
Definition NewNewSubmoduleWithSrc src dest submoduleID params retIdx := NewSubmodule (mkMirEvent src dest) submoduleID params retIdx.
Definition NewGarbageCollect dest retIdx := GarbageCollect (to dest) retIdx.
Definition NewGarbageCollectWithSrc src dest retIdx := GarbageCollect (mkMirEvent src dest) retIdx.
Definition NewTestString dest value := TestString (to dest) value.
Definition NewTestStringWithSrc src dest value := TestString (mkMirEvent src dest) value.
Definition NewTestUint64 dest value := TestUint64 (to dest) value.
Definition NewTestUint64WithSrc src dest value := TestUint64 (mkMirEvent src dest) value.

(** ** Source and destination *)
Definition mir_of (e : Event) : option mirEvent :=
  match e with
  | Raw m _ | Init m | SendMessage m _ _ _ | MessageReceived m _ _ | TimerDelay m _ _ | TimerRepeat m _ _ _
  | NewSubmodule m _ _ _ | GarbageCollect m _ | TestString m _ | TestUint64 m _ => Some m
  | Other _ => None
  end.
Definition Src (e : Event) : string := match e with Other x => Ext_Src x | _ => from_option SrcModule "" (mir_of e) end.
Definition Dest (e : Event) : string := match e with Other x => Ext_Dest x | _ => from_option DestModule "" (mir_of e) end.
Definition set_mir (f : mirEvent → mirEvent) (e : Event) : Event :=
  match e with
  | Raw m data => Raw (f m) data
  | Init m => Init (f m)
  | SendMessage m ns d p => SendMessage (f m) ns d p
  | MessageReceived m s p => MessageReceived (f m) s p
  | TimerDelay m evs d => TimerDelay (f m) evs d
  | TimerRepeat m evs d r => TimerRepeat (f m) evs d r
  | NewSubmodule m s p r => NewSubmodule (f m) s p r
  | GarbageCollect m r => GarbageCollect (f m) r
  | TestString m v => TestString (f m) v
  | TestUint64 m v => TestUint64 (f m) v
  | Other x => Other x
  end.
(** The methods copy the event and then change the receiver, not the copy, which they
    return: the receiver afterwards and the result. *)
Definition NewSrc (e : Event) (newSrc : string) : Event * Event :=
  let newE := e in (set_mir (λ m, mkMirEvent newSrc (DestModule m)) e, newE).
Definition NewDest (e : Event) (newDest : string) : Event * Event :=
  let newE := e in (set_mir (λ m, mkMirEvent (SrcModule m) newDest) e, newE).

(** ** The serializable structs and their JSON *)
Definition raw_event : Type := mirEvent * bytes.
Inductive serializable :=
| SRaw (r : raw_event)
| SInit (m : mirEvent)
| SSendMessage (m : mirEvent) (DestNodes : option (list NodeID)) (RemoteDestModule : string) (Payload : bytes)
| SMessageReceived (m : mirEvent) (Sender : NodeID) (Payload : bytes)
| STimerDelay (m : mirEvent) (Events : list raw_event) (Delay : Z)
| STimerRepeat (m : mirEvent) (Events : list raw_event) (Period : Z) (RetentionIndex : N)
| SNewSubmodule (m : mirEvent) (SubmoduleID : string) (Params : bytes) (RetentionIndex : N)
| SGarbageCollect (m : mirEvent) (RetentionIndex : N)
| STestString (m : mirEvent) (Value : string)
| STestUint64 (m : mirEvent) (Value : N).

Definition j_mir (m : mirEvent) : list (string * json) := [("SrcModule", JStr (SrcModule m)); ("DestModule", JStr (DestModule m))].
Definition j_bytes (b : bytes) : json := match b with None => JNull | Some s => JStr (b64_encode s) end.
Definition j_Z (z : Z) : json := JNum (int_lit z).
Definition j_N (n : N) : json := j_Z (Z.of_N n).
Definition j_strings (l : option (list string)) : json := match l with None => JNull | Some l => JArr (JStr <$> l) end.
Definition j_raw (r : raw_event) : json := JObj (j_mir r.1 ++ [("Data", j_bytes r.2)]).
Definition evType (s : serializable) : string :=
  match s with
  | SRaw _ => "Raw" | SInit _ => "Init" | SSendMessage _ _ _ _ => "SendMessage" | SMessageReceived _ _ _ => "MessageReceived"
  | STimerDelay _ _ _ => "TimerDelay" | STimerRepeat _ _ _ _ => "TimerRepeat" | SNewSubmodule _ _ _ _ => "NewSubmodule"
  | SGarbageCollect _ _ => "GarbageCollect" | STestString _ _ => "TestString" | STestUint64 _ _ => "TestUint"
  end.
Definition evData (s : serializable) : json :=
  match s with
  | SRaw r => j_raw r
  | SInit m => JObj (j_mir m)
  | SSendMessage m ns d p => JObj (j_mir m ++ [("DestNodes", j_strings ns); ("RemoteDestModule", JStr d); ("Payload", j_bytes p)])
  | SMessageReceived m s p => JObj (j_mir m ++ [("Sender", JStr s); ("Payload", j_bytes p)])
  | STimerDelay m evs d => JObj (j_mir m ++ [("Events", JArr (j_raw <$> evs)); ("Delay", j_Z d)])
  | STimerRepeat m evs d r => JObj (j_mir m ++ [("Events", JArr (j_raw <$> evs)); ("Period", j_Z d); ("RetentionIndex", j_N r)])
  | SNewSubmodule m s p r => JObj (j_mir m ++ [("SubmoduleID", JStr s); ("Params", j_bytes p); ("RetentionIndex", j_N r)])
  | SGarbageCollect m r => JObj (j_mir m ++ [("RetentionIndex", j_N r)])
  | STestString m v => JObj (j_mir m ++ [("Value", JStr v)])
  | STestUint64 m v => JObj (j_mir m ++ [("Value", j_N v)])
  end.
Definition serialize (s : serializable) : string := print (JObj [("EvType", JStr (evType s)); ("EvData", evData s)]) "".

(** ** ToBytes

    [to_serializable] is the method [serializable], or the event itself where it has none. *)
Section to_serializable.
Context (ToBytes : Event → outcome bytes).
Definition WrapInRaw (e : Event) : outcome raw_event := data ← ToBytes e; Ok (mkMirEvent (Src e) (Dest e), data).
Definition wrap_error (what : string) (i : N) (err : string) : string :=
  "failed serializing " +:+ what +:+ " event at index " +:+ pretty i +:+ ": " +:+ err.
Definition wrap_all (what : string) : N → list (option Event) → outcome (list raw_event) :=
  fix go i evs :=
    match evs with
    | [] => Ok []
    | None :: _ => Panic NilDeref
    | Some e :: evs =>
        match WrapInRaw e with
        | Ok raw => raws ← go (i + 1)%N evs; Ok (raw :: raws)
        | Err err => Err (wrap_error what i err)
        | Panic p => Panic p
        end
    end.
Definition to_serializable (e : Event) : option (outcome serializable) :=
  match e with
  | Raw m data => Some (Ok (SRaw (m, data)))
  | Init m => Some (Ok (SInit m))
  | SendMessage m ns d p => Some (data ← payload_ToBytes p; Ok (SSendMessage m ns d data))
  | MessageReceived m s p => Some (data ← payload_ToBytes p; Ok (SMessageReceived m s data))
  | TimerDelay m evs d => Some (raws ← wrap_all "delayed" 0 evs; Ok (STimerDelay m raws d))
  | TimerRepeat m evs d r => Some (raws ← wrap_all "repeated" 0 evs; Ok (STimerRepeat m raws d r))
  | NewSubmodule m s p r => Some (data ← payload_ToBytes p; Ok (SNewSubmodule m s data r))
  | GarbageCollect m r => Some (Ok (SGarbageCollect m r))
  | TestString m v => Some (Ok (STestString m v))
  | TestUint64 m v => Some (Ok (STestUint64 m v))
  | Other _ => None
  end.
End to_serializable.
Fixpoint ToBytes (e : Event) : outcome bytes :=
  match to_serializable ToBytes e with
  | Some s => s ← s; Ok (Some (serialize s))
  | None => match e with Other x => Ext_ToBytes x | _ => Ok None end
  end.

(** ** json.Unmarshal into the structs

    Keys are matched up to case; null leaves a value as it is and makes a slice nil; a value of
    another type is an error.  For a key that occurs several times, which [serialize] does not
    write, the last slice counts. *)
Fixpoint fold_key (s : string) : string :=
  match s with
  | "" => ""
  | String a s1 =>
      let rest := String (if between 65 a 90 then chr (ord a + 32) else a) (fold_key s1) in
      match s1 with
      | String b s2 =>
          if (ord a =? 197)%N && (ord b =? 191)%N then String "s" (fold_key s2)
          else match s2 with
          | String c s3 => if (ord a =? 226)%N && (ord b =? 132)%N && (ord c =? 170)%N then String "k" (fold_key s3) else rest
          | "" => rest
          end
      | "" => rest
      end
  end.
Definition field {A} (fields : list (string * json)) (name : string) (dec : json → A → option A) (zero : A) : option A :=
  foldl (λ acc '(key, v), a ← acc; if bool_decide (fold_key key = fold_key name) then dec v a else Some a) (Some zero) fields.
Definition object (v : json) : option (list (string * json)) := match v with JNull => Some [] | JObj fields => Some fields | _ => None end.

Definition dec_string (v : json) (old : string) : option string :=
  match v with JNull => Some old | JStr s => Some s | _ => None end.
Definition dec_int64 (v : json) (old : Z) : option Z :=
  match v with
  | JNull => Some old
  | JNum lit =>
      z ← Z.of_int <$> NilZero.int_of_string lit;
      if bool_decide (- 2 ^ 63 ≤ z < 2 ^ 63)%Z then Some z else None
  | _ => None
  end.
Definition dec_uint (bits : N) (v : json) (old : N) : option N :=
  match v with
  | JNull => Some old
  | JNum lit => n ← N.of_uint <$> NilZero.uint_of_string lit; if bool_decide (n < 2 ^ bits)%N then Some n else None
  | _ => None
  end.
Definition dec_bytes (v : json) (_ : bytes) : option bytes :=
  match v with
  | JNull => Some None
  | JStr s => Some <$> b64_decode s
  | JArr l => l ← mapM (λ v, dec_uint 8 v 0) l; Some (Some (foldr (λ n, String (chr n)) "" l))
  | _ => None
  end.
Definition dec_strings (v : json) (_ : option (list string)) : option (option (list string)) :=
  match v with JNull => Some None | JArr l => Some <$> mapM (λ v, dec_string v "") l | _ => None end.
Definition dec_mir (fields : list (string * json)) : option mirEvent :=
  src ← field fields "SrcModule" dec_string ""; dst ← field fields "DestModule" dec_string ""; Some (mkMirEvent src dst).
Definition dec_raw (v : json) : option raw_event :=
  fields ← object v; m ← dec_mir fields; data ← field fields "Data" dec_bytes None; Some (m, data).
Definition dec_elem (v : json) : option (option raw_event) := match v with JNull => Some None | _ => Some <$> dec_raw v end.
Definition dec_raws (v : json) (_ : list (option raw_event)) : option (list (option raw_event)) :=
  match v with
  | JNull => Some []
  | JArr l => mapM dec_elem l
  | _ => None
  end.

(** ** Deserialize *)
Definition raw_Event (r : raw_event) : Event := Raw r.1 r.2.
Definition raw_Events : list (option raw_event) → list (option Event) := map (option_map raw_Event).
Definition decode_event (evType : string) (v : json) : option Event :=
  fields ← object v; m ← dec_mir fields;
  if bool_decide (evType = "Raw") then data ← field fields "Data" dec_bytes None; Some (Raw m data)
  else if bool_decide (evType = "Init") then Some (Init m)
  else if bool_decide (evType = "SendMessage") then
    ns ← field fields "DestNodes" dec_strings None; d ← field fields "RemoteDestModule" dec_string "";
    p ← field fields "Payload" dec_bytes None; Some (SendMessage m ns d (PRaw p))
  else if bool_decide (evType = "MessageReceived") then
    s ← field fields "Sender" dec_string ""; p ← field fields "Payload" dec_bytes None; Some (MessageReceived m s (PRaw p))
  else if bool_decide (evType = "TimerDelay") then
    evs ← field fields "Events" dec_raws []; d ← field fields "Delay" dec_int64 0%Z;
    Some (TimerDelay m (raw_Events evs) d)
  else if bool_decide (evType = "TimerRepeat") then
    evs ← field fields "Events" dec_raws []; d ← field fields "Period" dec_int64 0%Z; r ← field fields "RetentionIndex" (dec_uint 64) 0%N;
    Some (TimerRepeat m (raw_Events evs) d r)
  else if bool_decide (evType = "NewSubmodule") then
    s ← field fields "SubmoduleID" dec_string ""; p ← field fields "Params" dec_bytes None;
    r ← field fields "RetentionIndex" (dec_uint 64) 0%N; Some (NewSubmodule m s (PRaw p) r)
  else if bool_decide (evType = "GarbageCollect") then
    r ← field fields "RetentionIndex" (dec_uint 64) 0%N; Some (GarbageCollect m r)
  else if bool_decide (evType = "TestString") then v ← field fields "Value" dec_string ""; Some (TestString m v)
  else v ← field fields "Value" (dec_uint 64) 0%N; Some (TestUint64 m v).
Definition known (evType : string) : bool :=
  bool_decide (evType ∈ ["Raw"; "Init"; "SendMessage"; "MessageReceived"; "TimerDelay"; "TimerRepeat"; "NewSubmodule";
                         "GarbageCollect"; "TestString"; "TestUint"]).
(** A [json.RawMessage] that is not set is nil, which is no JSON text. *)
Definition Deserialize (data : bytes) : outcome Event :=
  match (v ← parse (contents data); fields ← object v; t ← field fields "EvType" dec_string "";
         d ← field fields "EvData" (λ v _, Some (Some v)) None; Some (t, d)) with
  | None => Err "json: cannot unmarshal"
  | Some (t, d) =>
      if known t then
        match d with
        | None => Err "unexpected end of JSON input"
        | Some v => match decode_event t v with Some e => Ok e | None => Err "json: cannot unmarshal" end
        end
      else Err ("unknown event type: " +:+ t)
  end.

(** ** Reading what was written *)
Lemma field_none {A} (dec : json → A → option A) name (fields : list (string * json)) :
  foldl (λ acc '(key, v), a ← acc; if bool_decide (fold_key key = fold_key name) then dec v a else Some a) None fields = None.
Proof. induction fields as [|[k v] fields IH]; [done|]. exact IH. Qed.
Lemma field_hit {A} (dec : json → A → option A) name zero key v fields :
  fold_key key = fold_key name → field ((key, v) :: fields) name dec zero = a ← dec v zero; field fields name dec a.
Proof.
  intros Hk. unfold field. simpl. rewrite bool_decide_eq_true_2 by done. destruct (dec v zero); [done|]. apply field_none.
Qed.
Lemma field_miss {A} (dec : json → A → option A) name zero key v fields :
  fold_key key ≠ fold_key name → field ((key, v) :: fields) name dec zero = field fields name dec zero.
Proof. intros Hk. unfold field. simpl. by rewrite bool_decide_eq_false_2. Qed.
Lemma field_nil {A} (dec : json → A → option A) name zero : field [] name dec zero = Some zero.
Proof. done. Qed.

Lemma dec_bytes_ok b old : dec_bytes (j_bytes b) old = Some b.
Proof. destruct b as [s|]; [|done]. simpl. by rewrite b64_round_trip. Qed.
Lemma int_of_lit z : Z.of_int <$> NilZero.int_of_string (int_lit z) = Some z.
Proof.
  destruct (VoteWeight.to_int_nonnil z) as [H1 H2]. unfold int_lit, VoteWeight.big_String.
  rewrite (NilZero.isi _ H1 H2). simpl. f_equal. apply DecimalZ.of_to.
Qed.
Lemma dec_int64_ok z old : (- 2 ^ 63 ≤ z < 2 ^ 63)%Z → dec_int64 (j_Z z) old = Some z.
Proof. intros Hz. unfold dec_int64, j_Z. rewrite int_of_lit. cbn -[Z.pow]. by rewrite bool_decide_eq_true_2. Qed.
Lemma uint_of_lit n : N.of_uint <$> NilZero.uint_of_string (int_lit (Z.of_N n)) = Some n.
Proof.
  rewrite int_lit_cases. destruct n as [|p]; [done|]. simpl. unfold pos_lit.
  assert (NilEmpty.string_of_uint (Pos.to_uint p) = NilZero.string_of_uint (Pos.to_uint p)) as ->.
  { pose proof (DecimalPos.Unsigned.to_uint_nonnil p). by destruct (Pos.to_uint p). }
  rewrite NilZero.usu by apply DecimalPos.Unsigned.to_uint_nonnil. simpl. f_equal. exact (DecimalPos.Unsigned.of_to p).
Qed.
Lemma dec_uint64_ok n old : (n < 2 ^ 64)%N → dec_uint 64 (j_N n) old = Some n.
Proof. intros Hn. unfold dec_uint, j_N, j_Z. rewrite uint_of_lit. cbn -[N.pow]. by rewrite bool_decide_eq_true_2. Qed.
Lemma dec_strings_ok l old : dec_strings (j_strings l) old = Some l.
Proof.
  destruct l as [l|]; [|done]. simpl. assert (mapM (λ v, dec_string v "") (JStr <$> l) = Some l) as ->; [|done].
  induction l as [|s l IH]; [done|]. exact (f_equal (λ o, r ← o; Some (s :: r)) IH).
Qed.

Ltac read_fields :=
  repeat first
    [rewrite field_hit by reflexivity; cbn [dec_string mbind option_bind]; rewrite ?dec_bytes_ok, ?dec_strings_ok, ?dec_int64_ok, ?dec_uint64_ok by done;
       cbn [mbind option_bind]
    |rewrite field_miss by (vm_compute; discriminate)
    |rewrite field_nil; cbn [mbind option_bind]].
Lemma dec_raw_ok r : dec_raw (j_raw r) = Some r.
Proof. destruct r as [[src dst] data]. unfold dec_raw, dec_mir, j_raw, j_mir. cbn [object app mbind option_bind fst snd SrcModule DestModule]. by read_fields. Qed.
Lemma dec_raws_ok evs old : dec_raws (JArr (j_raw <$> evs)) old = Some (Some <$> evs).
Proof.
  apply mapM_Some_2, Forall2_fmap, Forall_Forall2_diag, list.Forall_forall. intros r _.
  change (dec_elem (j_raw r)) with (@Some raw_event <$> dec_raw (j_raw r)). by rewrite dec_raw_ok.
Qed.

(** ** Round trip *)
Definition mir_ok (m : mirEvent) : Prop := valid_utf8 (SrcModule m) = true ∧ valid_utf8 (DestModule m) = true.
Definition int64 (z : Z) : Prop := (- 2 ^ 63 ≤ z < 2 ^ 63)%Z.
Definition uint64 (n : N) : Prop := (n < 2 ^ 64)%N.
Definition raws_ok (evs : list raw_event) : Prop := Forall (λ r, mir_ok r.1) evs.
Definition s_ok (s : serializable) : Prop :=
  match s with
  | SRaw r => mir_ok r.1
  | SInit m => mir_ok m
  | SSendMessage m ns d _ => mir_ok m ∧ Forall (λ n, valid_utf8 n = true) (default [] ns) ∧ valid_utf8 d = true
  | SMessageReceived m s _ => mir_ok m ∧ valid_utf8 s = true
  | STimerDelay m evs d => mir_ok m ∧ raws_ok evs ∧ int64 d
  | STimerRepeat m evs d r => mir_ok m ∧ raws_ok evs ∧ int64 d ∧ uint64 r
  | SNewSubmodule m s _ r => mir_ok m ∧ valid_utf8 s = true ∧ uint64 r
  | SGarbageCollect m r => mir_ok m ∧ uint64 r
  | STestString m v => mir_ok m ∧ valid_utf8 v = true
  | STestUint64 m v => mir_ok m ∧ uint64 v
  end.
Definition event_of (s : serializable) : Event :=
  match s with
  | SRaw r => raw_Event r
  | SInit m => Init m
  | SSendMessage m ns d p => SendMessage m ns d (PRaw p)
  | SMessageReceived m s p => MessageReceived m s (PRaw p)
  | STimerDelay m evs d => TimerDelay m (raw_Events (Some <$> evs)) d
  | STimerRepeat m evs d r => TimerRepeat m (raw_Events (Some <$> evs)) d r
  | SNewSubmodule m s p r => NewSubmodule m s (PRaw p) r
  | SGarbageCollect m r => GarbageCollect m r
  | STestString m v => TestString m v
  | STestUint64 m v => TestUint64 m v
  end.

Ltac pick_type := repeat first [rewrite bool_decide_eq_true_2 by reflexivity|rewrite bool_decide_eq_false_2 by discriminate].
Lemma decode_ok s : s_ok s → decode_event (evType s) (evData s) = Some (event_of s).
Proof.
  unfold decode_event, dec_mir.
  destruct s as [[[? ?] ?]|[? ?]|[? ?] ns d p|[? ?] s p|[? ?] evs d|[? ?] evs d r|[? ?] s p r|[? ?] r|[? ?] v|[? ?] v]; simpl s_ok;
    unfold int64, uint64; intros Hok; destruct_and?; cbn [evType]; pick_type;
    cbn [object evData j_raw j_mir app mbind option_bind SrcModule DestModule fst snd]; read_fields;
    try reflexivity; rewrite dec_raws_ok; read_fields; reflexivity.
Qed.
Lemma j_bytes_ok d b : json_ok d (j_bytes b).
Proof. destruct b as [s|]; [apply valid_b64|done]. Qed.
Lemma j_Z_ok d z : json_ok d (j_Z z).
Proof. by exists z. Qed.
Lemma elems_ok_Forall d l : Forall (json_ok d) l → elems_ok d l.
Proof. induction 1; [done|]. by split. Qed.
Lemma j_strings_ok d l : Forall (λ n, valid_utf8 n = true) (default [] l) → json_ok (S d) (j_strings l).
Proof. destruct l as [l|]; [|done]. simpl. intros Hl. apply elems_ok_Forall, Forall_fmap. eapply list.Forall_impl; [exact Hl|done]. Qed.
Lemma j_raws_ok d evs : raws_ok evs → json_ok (S (S d)) (JArr (j_raw <$> evs)).
Proof.
  intros Hr. apply elems_ok_Forall, Forall_fmap. eapply list.Forall_impl; [exact Hr|]. intros [m b] [Hs Hd]. simpl. split_and!; try done.
  apply j_bytes_ok.
Qed.
Lemma evData_ok s : s_ok s → json_ok 4 (evData s).
Proof.
  destruct s as [[m ?]|m|m ns d p|m s p|m evs d|m evs d r|m s p r|m r|m v|m v]; cbn [s_ok]; intros Hok; unfold mir_ok in Hok;
    destruct_and?; cbn [evData j_raw j_mir app fst snd]; repeat (split; [done|split; [first [done|apply j_bytes_ok|apply j_Z_ok|by apply j_strings_ok|by apply j_raws_ok]|]]); done.
Qed.
Lemma evType_ok s : valid_utf8 (evType s) = true ∧ known (evType s) = true.
Proof. destruct s; split; reflexivity. Qed.
Lemma deserialize_ok s : s_ok s → Deserialize (Some (serialize s)) = Ok (event_of s).
Proof.
  intros Hok. destruct (evType_ok s) as [Hv Hk]. unfold Deserialize.
  change (contents (Some (serialize s))) with (print (JObj [("EvType", JStr (evType s)); ("EvData", evData s)]) "").
  rewrite parse_print by (split_and!; [reflexivity|exact Hv|reflexivity|by apply evData_ok|done]).
  cbn [object mbind option_bind]. read_fields. by rewrite Hk, decode_ok.
Qed.

(** What an event becomes: payloads become the bytes they are serialized to, and the events of a timer
    become raw events with their source, destination and bytes. *)
Definition raw_copy (o o' : option Event) : Prop :=
  ∃ e b, o = Some e ∧ ToBytes e = Ok b ∧ o' = Some (Raw (mkMirEvent (Src e) (Dest e)) b).
Definition restored (e e' : Event) : Prop :=
  match e with
  | SendMessage m ns d p => ∃ b, payload_ToBytes p = Ok b ∧ e' = SendMessage m ns d (PRaw b)
  | MessageReceived m s p => ∃ b, payload_ToBytes p = Ok b ∧ e' = MessageReceived m s (PRaw b)
  | NewSubmodule m s p r => ∃ b, payload_ToBytes p = Ok b ∧ e' = NewSubmodule m s (PRaw b) r
  | TimerDelay m evs d => ∃ evs', Forall2 raw_copy evs evs' ∧ e' = TimerDelay m evs' d
  | TimerRepeat m evs d r => ∃ evs', Forall2 raw_copy evs evs' ∧ e' = TimerRepeat m evs' d r
  | Other _ => False
  | _ => e' = e
  end.
(** Strings are UTF-8 and integers in range, as they are in Go for the integers; [Other] events are not
    of this package. *)
Definition inner_ok (o : option Event) : Prop :=
  match o with Some e => valid_utf8 (Src e) = true ∧ valid_utf8 (Dest e) = true | None => True end.
Definition ev_ok (e : Event) : Prop :=
  match e with
  | Raw m _ | Init m => mir_ok m
  | SendMessage m ns d _ => mir_ok m ∧ Forall (λ n, valid_utf8 n = true) (default [] ns) ∧ valid_utf8 d = true
  | MessageReceived m s _ => mir_ok m ∧ valid_utf8 s = true
  | TimerDelay m evs d => mir_ok m ∧ Forall inner_ok evs ∧ int64 d
  | TimerRepeat m evs d r => mir_ok m ∧ Forall inner_ok evs ∧ int64 d ∧ uint64 r
  | NewSubmodule m s _ r => mir_ok m ∧ valid_utf8 s = true ∧ uint64 r
  | GarbageCollect m r => mir_ok m ∧ uint64 r
  | TestString m v => mir_ok m ∧ valid_utf8 v = true
  | TestUint64 m v => mir_ok m ∧ uint64 v
  | Other _ => False
  end.

Lemma ToBytes_eq e :
  ToBytes e = match to_serializable ToBytes e with
              | Some s => s ← s; Ok (Some (serialize s))
              | None => match e with Other x => Ext_ToBytes x | _ => Ok None end
              end.
Proof. by destruct e. Qed.
Lemma wrap_all_ok what i evs raws :
  wrap_all ToBytes what i evs = Ok raws → Forall inner_ok evs →
  raws_ok raws ∧ Forall2 raw_copy evs (raw_Events (Some <$> raws)).
Proof.
  revert i raws. induction evs as [|[e|] evs IH]; intros i raws; simpl; [intros [= <-] _; by split; constructor| |done].
  unfold WrapInRaw. destruct (ToBytes e) as [b| |] eqn:Hb; [|done..]. simpl.
  destruct (wrap_all ToBytes what (i + 1) evs) as [raws'| |] eqn:Hr; [|done..]. simpl. intros [= <-] [[Hs Hd] Hevs]%Forall_cons.
  destruct (IH _ _ Hr Hevs) as [Hok Hc]. split; [by constructor|]. constructor; [|done]. by exists e, b.
Qed.
Lemma to_serializable_ok e s :
  ev_ok e → to_serializable ToBytes e = Some (Ok s) → s_ok s ∧ restored e (event_of s).
Proof.
  destruct e as [m b|m|m ns d p|m snd p|m evs d|m evs d r|m sm p r|m r|m v|m v|x]; cbn [to_serializable ev_ok]; intros Hok;
    try (intros [= <-]; by destruct m); try (destruct (payload_ToBytes p) eqn:Hp; [|done..]; intros [= <-]; cbn [s_ok event_of restored]; eauto);
    try (destruct (wrap_all ToBytes _ _ evs) as [raws| |] eqn:Hw; [|done..]; intros [= <-]; destruct_and!;
         edestruct wrap_all_ok as [? ?]; [exact Hw|eassumption|]; cbn [s_ok event_of restored]; eauto 10).
Qed.

(** C38 (roundtrip).  The standard events survive serialization: if an event whose strings are valid UTF-8 is serialized, then
    [Deserialize] accepts the bytes and returns an event of the same type with the same source, destination and fields, in which
    application data has become the bytes it serializes to, and each event of a timer the [Raw] event that
    wraps its bytes.  The JSON and base64 texts are those that Go's libraries write and
    read. *)
Theorem deserialize_serialize e data :
  ev_ok e → ToBytes e = Ok data → ∃ e', Deserialize data = Ok e' ∧ restored e e' ∧ Src e' = Src e ∧ Dest e' = Dest e.
Proof.
  intros Hok Hb. assert (∃ s, to_serializable ToBytes e = Some (Ok s) ∧ data = Some (serialize s)) as (s & Hs & ->).
  { rewrite ToBytes_eq in Hb. destruct (to_serializable ToBytes e) as [[s| |]|] eqn:Hs; [|done..|by destruct e].
    exists s. split; [done|]. by injection Hb as <-. }
  destruct (to_serializable_ok e s Hok Hs) as [Hsok Hr]. exists (event_of s). split; [by apply deserialize_ok|].
  split; [done|]. revert Hr. generalize (event_of s). clear. intros e' Hr.
  destruct e; simpl in Hr; first [rewrite Hr|destruct Hr as (? & _ & ->)|destruct Hr]; done.
Qed.

(** The copies that [NewSrc] and [NewDest] return still have the old source and destination; it is the original that
    changes, which other holders of the event see. *)
Lemma new_copies_unchanged e x :
  mir_of e ≠ None → Src (NewSrc e x).2 = Src e ∧ Src (NewSrc e x).1 = x ∧ Dest (NewDest e x).2 = Dest e ∧ Dest (NewDest e x).1 = x.
Proof. by destruct e. Qed.
End stdevents.

(** ** An event with an event inside *)
Module StdEventsExample.
Definition Ser_ToBytes (x : string) : outcome bytes := Ok (Some x).
Definition Ext_ToBytes (_ : Empty_set) : outcome bytes := Ok None.
Definition no_ext (_ : Empty_set) : string := "".
Definition inner : @Event string Empty_set := NewMessageReceivedWithSrc "net" "iss/0" "node1" (PApp "a<b>&c").
Definition ev : @Event string Empty_set := NewTimerDelayWithSrc "src" "timer" 1000 [inner; NewInit "m"].

Lemma deserialize_serialize_witness :
  ev_ok no_ext no_ext ev ∧ ∃ data e', ToBytes Ser_ToBytes no_ext no_ext Ext_ToBytes ev = Ok data ∧ Deserialize data = Ok e' ∧
    restored Ser_ToBytes no_ext no_ext Ext_ToBytes ev e'.
Proof.
  assert (ev_ok no_ext no_ext ev) as Hok by (split; [done|]; split; [repeat constructor|split; [discriminate|reflexivity]]).
  split; [exact Hok|]. destruct (ToBytes Ser_ToBytes no_ext no_ext Ext_ToBytes ev) as [data| |] eqn:Hb; [|discriminate Hb..].
  destruct (deserialize_serialize Ser_ToBytes no_ext no_ext Ext_ToBytes ev data Hok Hb) as (e' & Hd & Hr & _).
  exists data, e'. split; [reflexivity|]. split; [exact Hd|exact Hr].
Defined.
End StdEventsExample.
