(* ===== verification/EventLog.v ===== *)
(** * pkg/eventlog: recording the events of a node

    Models newfilepolicy.go, recorder.go, recorderopts.go, multiinterceptor.go, eventwriter.go, eventwritergzip.go
    and reader.go.  A recorder receives the event lists of a node, splits them over files and
    hands them to a writer, at once or through a buffer and a goroutine.  What the recorder
    needs of a writer is the class [EventWriter]; the theorems about the recorder hold for
    all its instances, and the gzip writer is one, because the reader returns what was
    written. *)
From Stdlib Require Import ZArith Lia Ascii String.
From stdpp Require Import prelude strings list numbers pretty.
From S2P Require Import Prelude Json EventProcessing.

(** ** encoding/binary: variable-length integers *)
Module Varint.
(** The loop of PutUvarint writes ten bytes at most. *)
Fixpoint PutUvarint (fuel : nat) (x : N) : string :=
  match fuel with
  | O => ""
  | S fuel => if (x <? 128)%N then String (chr x) "" else String (chr (N.lor (x mod 128) 128)) (PutUvarint fuel (N.shiftr x 7))
  end.
(** An int64 with the sign in the lowest bit. *)
Definition zigzag (x : Z) : N := Z.to_N (if (x <? 0)%Z then - 2 * x - 1 else 2 * x).
Definition unzigzag (ux : N) : Z := if N.odd ux then (- Z.of_N (N.div2 ux) - 1)%Z else Z.of_N (N.div2 ux).
Definition PutVarint (x : Z) : string := PutUvarint 10 (zigzag x).
(** An error is EOF ([true]) or another one; [x] and [s] are the value and the shift so far. *)
Fixpoint ReadUvarint (fuel : nat) (x s : N) (r : string) : (N * string) + bool :=
  match fuel with
  | O => inr false
  | S fuel =>
      match r with
      | "" => inr (bool_decide (s = 0%N))
      | String b r =>
          if (ord b <? 128)%N then
            if (s =? 63)%N && (1 <? ord b)%N then inr false else inl (N.lor x (N.shiftl (ord b) s), r)
          else ReadUvarint fuel (N.lor x (N.shiftl (N.land (ord b) 127) s)) (s + 7) r
      end
  end.
Definition ReadVarint (r : string) : (Z * string) + bool :=
  match ReadUvarint 10 0 0 r with inl (ux, r) => inl (unzigzag ux, r) | inr eof => inr eof end.
(** What is written is read back. *)
Lemma split_septet x : N.lor (x mod 128) (N.shiftl (N.shiftr x 7) 7) = x.
Proof.
  change 128%N with (2 ^ 7)%N. rewrite <- N.land_ones, <- N.ldiff_ones_r, N.lor_comm. apply N.lor_ldiff_and.
Qed.
Lemma septet_byte x : ord (chr (N.lor (x mod 128) 128)) = (x mod 128 + 128)%N.
Proof.
  assert (x mod 128 < 128)%N as Hx by (apply N.mod_lt; done). revert Hx. generalize (x mod 128)%N. clear x. intros y Hy.
  assert (∀ n, n < 128 → ord (chr (N.lor (N.of_nat n) 128)) = (N.of_nat n + 128)%N) as H.
  { intros n Hn. do 128 (destruct n as [|n]; [reflexivity|]). lia. }
  specialize (H (N.to_nat y) ltac:(lia)). by rewrite N2Nat.id in H.
Qed.
Lemma septet_low y : (y < 128)%N → N.land (y + 128) 127 = y.
Proof.
  intros Hy. change 127%N with (N.ones 7). rewrite N.land_ones. change (2 ^ 7)%N with 128%N. 
  rewrite <- (N.Div0.add_mod_idemp_r y 128 128). change (128 mod 128)%N with 0%N. rewrite N.add_0_r. by apply N.mod_small.
Qed.
Lemma ReadUvarint_Put fuel acc s x rest :
  (7 * N.of_nat fuel + s = 70)%N → (s ≤ 63)%N → (x < 2 ^ (64 - s))%N →
  ReadUvarint fuel acc s (PutUvarint fuel x +:+ rest) = inl (N.lor acc (N.shiftl x s), rest).
Proof.
  revert acc s x. induction fuel as [|fuel IH]; intros acc s x Hf Hs Hx; [lia|]. cbn [PutUvarint].
  destruct (x <? 128)%N eqn:Hlt.
  - apply N.ltb_lt in Hlt. change (String (chr x) "" +:+ rest) with (String (chr x) rest). cbn [ReadUvarint].
    assert (ord (chr x) = x) as -> by (apply N_ascii_embedding; lia).
    assert ((x <? 128)%N = true) as -> by (by apply N.ltb_lt).
    destruct ((s =? 63) && (1 <? x))%N eqn:Ho; [|done]. apply andb_prop in Ho as [->%N.eqb_eq Ho%N.ltb_lt]. change (2 ^ (64 - 63))%N with 2%N in Hx. lia.
  - apply N.ltb_ge in Hlt. assert (s + 7 ≤ 63)%N as Hs7.
    { destruct (decide (64 - s ≤ 7)%N) as [Hle|]; [|lia]. assert (2 ^ (64 - s) ≤ 128)%N by (change 128%N with (2 ^ 7)%N; apply N.pow_le_mono_r; lia). lia. }
    change (String ?a ?t +:+ rest) with (String a (t +:+ rest)). cbn [ReadUvarint]. rewrite septet_byte.
    assert (x mod 128 < 128)%N as Hm by (by apply N.mod_lt). assert ((x mod 128 + 128 <? 128)%N = false) as -> by (apply N.ltb_ge, N.le_add_l).
    rewrite septet_low by done. rewrite IH; [|lia|lia|].
    + f_equal. f_equal. rewrite <- N.lor_assoc, <- (N.shiftl_shiftl _ 7 s) || rewrite <- N.lor_assoc. f_equal.
      rewrite <- (split_septet x) at 3. rewrite N.shiftl_lor, N.shiftl_shiftl. do 2 f_equal. lia.
    + rewrite N.shiftr_div_pow2. apply N.Div0.div_lt_upper_bound. rewrite <- N.pow_add_r. replace (7 + (64 - (s + 7)))%N with (64 - s)%N by lia. done.
Qed.
Lemma unzigzag_zigzag x : unzigzag (zigzag x) = x.
Proof.
  unfold zigzag. destruct (x <? 0)%Z eqn:Hx; [apply Z.ltb_lt in Hx|apply Z.ltb_ge in Hx].
  - replace (Z.to_N (-2 * x - 1)) with (N.succ_double (Z.to_N (- x - 1))) by (rewrite N.succ_double_spec; lia).
    unfold unzigzag. rewrite N.div2_succ_double. assert (∀ k, N.odd (N.succ_double k) = true) as -> by (by intros []). lia.
  - replace (Z.to_N (2 * x)) with (N.double (Z.to_N x)) by (rewrite N.double_spec; lia).
    unfold unzigzag. rewrite N.div2_double. assert (∀ k, N.odd (N.double k) = false) as -> by (by intros []). lia.
Qed.
Lemma ReadVarint_Put x rest : (- 2 ^ 63 ≤ x < 2 ^ 63)%Z → ReadVarint (PutVarint x +:+ rest) = inl (x, rest).
Proof.
  intros Hx. unfold ReadVarint, PutVarint. rewrite ReadUvarint_Put; [|done|done|].
  - rewrite N.lor_0_l, N.shiftl_0_r. by rewrite unzigzag_zigzag.
  - unfold zigzag. change (2 ^ (64 - 0))%N with (2 ^ 64)%N. destruct (x <? 0)%Z eqn:Hneg; [apply Z.ltb_lt in Hneg|apply Z.ltb_ge in Hneg]; lia.
Qed.
Lemma PutVarint_nonempty x : ∃ a s, PutVarint x = String a s.
Proof. unfold PutVarint. cbn [PutUvarint]. destruct (_ <? _)%N; eauto. Qed.
End Varint.

Section eventlog.
Context {Event : Type}.
Record EventRecord := mkEventRecord { er_Events : EventList.t Event; er_Time : Z }.
Definition Filter (record : EventRecord) (predicate : Event → bool) : EventRecord :=
  mkEventRecord (EventList.Filter (er_Events record) predicate) (er_Time record).

(** ** newfilepolicy.go *)
Definition chunk_push (c : EventRecord) (event : Event) : EventRecord := mkEventRecord (EventList.PushBack (er_Events c) event) (er_Time c).
Definition empty_chunk (time : Z) : EventRecord := mkEventRecord EventList.EmptyList time.
Definition last_chunk (result : list EventRecord) (c : EventRecord) : list EventRecord :=
  if bool_decide (0 < EventList.Len (er_Events c))%Z then result ++ [c] else result.
Fixpoint tracker_loop (newFile : Event → bool) (time : Z) (events : list Event) (result : list EventRecord) (c : EventRecord) : list EventRecord :=
  match events with
  | [] => last_chunk result c
  | event :: events =>
      if newFile event then tracker_loop newFile time events (result ++ [c]) (chunk_push (empty_chunk time) event)
      else tracker_loop newFile time events result (chunk_push c event)
  end.
Definition EventTrackerLogger (newFile : Event → bool) (record : EventRecord) : list EventRecord :=
  tracker_loop newFile (er_Time record) (default [] (EventList.Slice (er_Events record))) [] (empty_chunk (er_Time record)).
(** The events that open an epoch: the application module's NewEpoch events, recognized by [is_NewEpoch]. *)
Definition EventNewEpochLogger (is_NewEpoch : Event → bool) (Dest : Event → string) (appModuleID : string) :
    EventRecord → list EventRecord :=
  EventTrackerLogger (λ event, is_NewEpoch event && bool_decide (Dest event = appModuleID)).

(** The returned function counts events over all its calls; the remainder by 0 panics. *)
Fixpoint limit_loop (eventLimit time : Z) (events : list Event) (eventCount : Z) (result : list EventRecord) (c : EventRecord)
    : outcome (list EventRecord * Z) :=
  match events with
  | [] => Ok (last_chunk result c, eventCount)
  | event :: events =>
      let c := chunk_push c event in
      let eventCount := (eventCount + 1)%Z in
      if bool_decide (eventLimit = 0)%Z then Panic (ExplicitPanic "integer divide by zero")
      else if bool_decide (Z.rem eventCount eventLimit = 0)%Z then
        limit_loop eventLimit time events eventCount (result ++ [c]) (empty_chunk time)
      else limit_loop eventLimit time events eventCount result c
  end.
Definition EventLimitLogger (eventLimit : Z) (eventCount : Z) (record : EventRecord) : outcome (list EventRecord * Z) :=
  limit_loop eventLimit (er_Time record) (default [] (EventList.Slice (er_Events record))) eventCount [] (empty_chunk (er_Time record)).
Definition OneFileLogger (record : EventRecord) : list EventRecord := [record].

(** A way to split records over files, with the state of its closure. *)
Inductive splitter := OneFile | Tracker (newFile : Event → bool) | Limit (eventLimit eventCount : Z).
Definition newDests (sp : splitter) (record : EventRecord) : outcome (list EventRecord * splitter) :=
  match sp with
  | OneFile => Ok (OneFileLogger record, sp)
  | Tracker newFile => Ok (EventTrackerLogger newFile record, sp)
  | Limit eventLimit eventCount =>
      '(recs, eventCount) ← EventLimitLogger eventLimit eventCount record; Ok (recs, Limit eventLimit eventCount)
  end.

(** ** eventwriter.go: writers, with the entries that they hold *)
Context {Entry : Type} (entry_of : EventRecord → outcome Entry).
Class EventWriter (W : Type) := {
  ew_new : string → outcome W;
  ew_Write : EventRecord → W → outcome W;
  ew_Flush : W → outcome W;
  ew_Close : W → outcome W;
  ew_holds : W → list Entry → Prop;
  ew_new_holds name w : ew_new name = Ok w → ew_holds w [];
  ew_Write_holds rec w w' es : ew_holds w es → ew_Write rec w = Ok w' → ∃ e, entry_of rec = Ok e ∧ ew_holds w' (es ++ [e]);
  ew_Flush_holds w w' es : ew_holds w es → ew_Flush w = Ok w' → ew_holds w' es;
  ew_Close_holds w w' es : ew_holds w es → ew_Close w = Ok w' → ew_holds w' es;
}.

(** ** recorder.go *)
Context {W : Type} `{!EventWriter W}.
Definition errStopped : string := "interceptor stopped at caller request".
Definition DefaultBufferSize : nat := 5000.
Inductive run_point := RunLoop | RunDraining | RunExited (exitErr : string).
(** [r_closed] are the files that were closed, in order. *)
Record Recorder := mkRecorder {
  r_dest : W; r_closed : list W; r_newDests : splitter; r_path : string; r_filter : Event → bool; r_syncWrite : bool;
  r_bufferSize : nat; r_eventC : list EventRecord; r_doneC : bool; r_at : run_point; r_fileCount : nat;
}.
Definition file_name (path : string) (n : nat) : string := path +:+ "/eventlog" +:+ pretty n.

(** recorderopts.go; the time source is an argument of [Intercept], and the writer is the instance of the class. *)
Inductive RecorderOpt := BufferSizeOpt (size : nat) | FileSplitterOpt (sp : splitter) | EventFilterOpt (filter : Event → bool) | SyncWriteOpt.
Definition apply_opt (r : Recorder) (opt : RecorderOpt) : Recorder :=
  match opt with
  | BufferSizeOpt size => mkRecorder (r_dest r) (r_closed r) (r_newDests r) (r_path r) (r_filter r) (r_syncWrite r) size (r_eventC r) (r_doneC r) (r_at r) (r_fileCount r)
  | FileSplitterOpt sp => mkRecorder (r_dest r) (r_closed r) sp (r_path r) (r_filter r) (r_syncWrite r) (r_bufferSize r) (r_eventC r) (r_doneC r) (r_at r) (r_fileCount r)
  | EventFilterOpt v => mkRecorder (r_dest r) (r_closed r) (r_newDests r) (r_path r) (λ e, r_filter r e && v e) (r_syncWrite r) (r_bufferSize r) (r_eventC r) (r_doneC r) (r_at r) (r_fileCount r)
  | SyncWriteOpt => mkRecorder (r_dest r) (r_closed r) (r_newDests r) (r_path r) (r_filter r) true (r_bufferSize r) (r_eventC r) (r_doneC r) (r_at r) (r_fileCount r)
  end.
Definition NewRecorder (path : string) (opts : list RecorderOpt) : outcome Recorder :=
  w ← ew_new (file_name path 0);
  Ok (foldl apply_opt (mkRecorder w [] OneFile path (λ _, true) false DefaultBufferSize [] false RunLoop 1) opts).

Definition with_dest (w : W) (closed : list W) (n : nat) (r : Recorder) : Recorder :=
  mkRecorder w closed (r_newDests r) (r_path r) (r_filter r) (r_syncWrite r) (r_bufferSize r) (r_eventC r) (r_doneC r) (r_at r) n.
Definition with_newDests (sp : splitter) (r : Recorder) : Recorder :=
  mkRecorder (r_dest r) (r_closed r) sp (r_path r) (r_filter r) (r_syncWrite r) (r_bufferSize r) (r_eventC r) (r_doneC r) (r_at r) (r_fileCount r).
Definition with_queue (q : list EventRecord) (r : Recorder) : Recorder :=
  mkRecorder (r_dest r) (r_closed r) (r_newDests r) (r_path r) (r_filter r) (r_syncWrite r) (r_bufferSize r) q (r_doneC r) (r_at r) (r_fileCount r).
Definition with_run (done : bool) (p : run_point) (r : Recorder) : Recorder :=
  mkRecorder (r_dest r) (r_closed r) (r_newDests r) (r_path r) (r_filter r) (r_syncWrite r) (r_bufferSize r) (r_eventC r) done p (r_fileCount r).

(** One iteration of the loop of [writeEvents]; [first]: the count is 0.  The result is the error, if any, and the
    recorder with what was done before it. *)
Definition next_file (r : Recorder) : outcome unit * Recorder :=
  match ew_new (file_name (r_path r) (r_fileCount r)) with
  | Ok w =>
      match ew_Close (r_dest r) with
      | Ok old => (Ok tt, with_dest w (r_closed r ++ [old]) (S (r_fileCount r)) r)
      | Err err => (Err err, r)
      | Panic p => (Panic p, r)
      end
  | Err err => (Err err, r)
  | Panic p => (Panic p, r)
  end.
Definition write_rec (rec : EventRecord) (r : Recorder) : outcome unit * Recorder :=
  if bool_decide (EventList.Len (er_Events rec) ≠ 0)%Z then
    match ew_Write (Filter rec (r_filter r)) (r_dest r) with
    | Ok w => (Ok tt, with_dest w (r_closed r) (r_fileCount r) r)
    | Err err => (Err err, r)
    | Panic p => (Panic p, r)
    end
  else (Ok tt, r).
Fixpoint write_loop (first : bool) (recs : list EventRecord) (r : Recorder) : outcome unit * Recorder :=
  match recs with
  | [] => (Ok tt, r)
  | rec :: recs =>
      match (if first then (Ok tt, r) else next_file r) with
      | (Ok _, r) => match write_rec rec r with (Ok _, r) => write_loop false recs r | res => res end
      | res => res
      end
  end.
Definition writeEvents (record : EventRecord) (r : Recorder) : outcome unit * Recorder :=
  match newDests (r_newDests r) record with
  | Ok (recs, sp) => write_loop true recs (with_newDests sp r)
  | Err err => (Err err, r)
  | Panic p => (Panic p, r)
  end.

(** [Intercept] in synchronous mode. *)
Definition InterceptSync (events : EventList.t Event) (time : Z) (r : Recorder) : outcome unit * Recorder :=
  match writeEvents (mkEventRecord events time) r with
  | (Ok _, r) =>
      match ew_Flush (r_dest r) with
      | Ok w => (Ok tt, with_dest w (r_closed r) (r_fileCount r) r)
      | Err err => (Err ("error flushing written events: " +:+ err), r)
      | Panic p => (Panic p, r)
      end
  | (Err err, r) => (Err ("error writing events: " +:+ err), r)
  | (Panic p, r) => (Panic p, r)
  end.
(** In asynchronous mode it takes one of the cases that are ready; it blocks if none is. *)
Inductive intercept (events : EventList.t Event) (time : Z) (r : Recorder) : option string → Recorder → Prop :=
| intercept_enqueue : length (r_eventC r) < r_bufferSize r →
    intercept events time r None (with_queue (r_eventC r ++ [mkEventRecord events time]) r)
| intercept_exited err : r_at r = RunExited err → intercept events time r (Some err) r.

(** The goroutine of [run], one record or one decision at a time; a panic ends the program. *)
Definition after_write (res : outcome unit * Recorder) : Recorder :=
  match res with
  | (Err err, r) => with_run (r_doneC r) (RunExited ("error serializing to stream: " +:+ err)) r
  | (_, r) => r
  end.
Inductive run_step (r : Recorder) : Recorder → Prop :=
| run_write record q : r_at r = RunLoop ∨ r_at r = RunDraining → r_eventC r = record :: q →
    is_Panic (writeEvents record (with_queue q r)).1 = false → run_step r (after_write (writeEvents record (with_queue q r)))
| run_done : r_at r = RunLoop → r_doneC r = true → run_step r (with_run true RunDraining r)
| run_stopped : r_at r = RunDraining → r_eventC r = [] → run_step r (with_run (r_doneC r) (RunExited errStopped) r).
(** [Stop] closes [doneC], waits for the goroutine and closes the file; the error it returns. *)
Definition stop_request (r : Recorder) : Recorder := with_run true (r_at r) r.
Definition StopResult (r : Recorder) : option (option string) :=
  if r_syncWrite r then Some None
  else match r_at r with
  | RunExited err => Some (if bool_decide (err = errStopped) then None else Some err)
  | _ => None
  end.

(** ** multiinterceptor.go: the first error ends the loop *)
Fixpoint repeater {I : Type} (Intercept : EventList.t Event → I → outcome I) (interceptors : list I) (events : EventList.t Event)
    : outcome (list I) :=
  match interceptors with
  | [] => Ok []
  | i :: interceptors => i ← Intercept events i; rest ← repeater Intercept interceptors events; Ok (i :: rest)
  end.


(** ** Splitting keeps the events *)
Definition evs (rec : EventRecord) : list Event := EventList.events (er_Events rec).
Lemma slice_events (el : EventList.t Event) : default [] (EventList.Slice el) = EventList.events el.
Proof. by destruct el. Qed.
Lemma chunk_push_events c event : evs (chunk_push c event) = evs c ++ [event].
Proof. done. Qed.
Lemma last_chunk_events result c : concat (evs <$> last_chunk result c) = concat (evs <$> result) ++ evs c.
Proof.
  unfold last_chunk. case_bool_decide as Hl; [by rewrite fmap_app, concat_app; simpl; rewrite app_nil_r|].
  rewrite EventList.Len_events in Hl. unfold evs at 3. destruct (EventList.events (er_Events c)); [by rewrite app_nil_r|simpl in Hl; lia].
Qed.
Lemma tracker_loop_events newFile time events result c :
  concat (evs <$> tracker_loop newFile time events result c) = concat (evs <$> result) ++ evs c ++ events.
Proof.
  revert result c. induction events as [|event events IH]; intros result c; simpl; [by rewrite last_chunk_events, app_nil_r|].
  destruct (newFile event); rewrite IH, chunk_push_events; [|by rewrite <- (assoc_L (++))].
  rewrite fmap_app, concat_app. simpl. by rewrite app_nil_r, <- !(assoc_L (++)).
Qed.
Lemma limit_loop_events eventLimit time events n result c recs n' :
  limit_loop eventLimit time events n result c = Ok (recs, n') →
  concat (evs <$> recs) = concat (evs <$> result) ++ evs c ++ events.
Proof.
  revert n result c. induction events as [|event events IH]; intros n result c; simpl.
  - intros [= <- <-]. by rewrite last_chunk_events, app_nil_r.
  - case_bool_decide; [done|]. case_bool_decide; intros Hl%IH; rewrite Hl, ?chunk_push_events; [|by rewrite <- (assoc_L (++))].
    rewrite fmap_app, concat_app. simpl. by rewrite app_nil_r, chunk_push_events, <- !(assoc_L (++)).
Qed.
Lemma newDests_events sp record recs sp' : newDests sp record = Ok (recs, sp') → concat (evs <$> recs) = evs record.
Proof.
  destruct sp as [|newFile|limit n]; simpl.
  - intros [= <- <-]. simpl. apply app_nil_r.
  - intros [= <- <-]. unfold EventTrackerLogger. rewrite tracker_loop_events. simpl. apply slice_events.
  - unfold EventLimitLogger. destruct (limit_loop _ _ _ _ _ _) as [[recs1 n1]| |] eqn:Hl; [|done..]. simpl. intros [= <- <-].
    apply limit_loop_events in Hl. rewrite Hl. simpl. apply slice_events.
Qed.
(** The limit is checked within one record only: records of one event never lead to a new file. *)
Lemma limit_single_record limit n record ev :
  evs record = [ev] → limit ≠ 0%Z → ∃ c n', EventLimitLogger limit n record = Ok ([c], n').
Proof.
  intros He Hl. unfold EventLimitLogger. rewrite slice_events. unfold evs in He. rewrite He. simpl.
  rewrite bool_decide_eq_false_2 by done. case_bool_decide; by do 2 eexists.
Qed.

(** ** The log *)
Definition Log (r : Recorder) (l : list Event) : Prop :=
  ∃ recs ess es, Forall2 ew_holds (r_closed r) ess ∧ ew_holds (r_dest r) es ∧
    Forall2 (λ rec e, entry_of rec = Ok e) recs (concat ess ++ es) ∧ concat (evs <$> recs) = l.
(** What writing leaves alone. *)
Definition same (r r' : Recorder) : Prop :=
  r_filter r' = r_filter r ∧ r_eventC r' = r_eventC r ∧ r_doneC r' = r_doneC r ∧ r_at r' = r_at r ∧
  r_bufferSize r' = r_bufferSize r ∧ r_syncWrite r' = r_syncWrite r.
Definition keep (p : Event → bool) (l : list Event) : list Event := filter (λ ev, p ev = true) l.

Lemma next_file_log r l r' : Log r l → next_file r = (Ok tt, r') → Log r' l ∧ same r r'.
Proof.
  intros (recs & ess & es & Hcl & Hd & Hf & Hc). unfold next_file. destruct (ew_new _) as [w| |] eqn:Hn; [|done..].
  destruct (ew_Close (r_dest r)) as [old| |] eqn:Ho; [|done..]. intros [= <-]. split; [|done]. exists recs, (ess ++ [es]), []. split_and!; simpl.
  - apply Forall2_app; [done|]. constructor; [by eapply ew_Close_holds|constructor].
  - by eapply ew_new_holds.
  - by rewrite concat_app, app_nil_r; simpl; rewrite app_nil_r.
  - done.
Qed.
Lemma write_rec_log r l rec r' : Log r l → write_rec rec r = (Ok tt, r') → Log r' (l ++ keep (r_filter r) (evs rec)) ∧ same r r'.
Proof.
  intros (recs & ess & es & Hcl & Hd & Hf & Hc). unfold write_rec. case_bool_decide as Hl.
  - destruct (ew_Write _ _) as [w| |] eqn:Hw; [|done..]. intros [= <-]. split; [|done].
    destruct (ew_Write_holds _ _ _ _ Hd Hw) as (e & He & Hent). exists (recs ++ [Filter rec (r_filter r)]), ess, (es ++ [e]). split_and!; simpl.
    + done.
    + done.
    + rewrite (assoc_L (++)). apply Forall2_app; [done|by repeat constructor].
    + rewrite fmap_app, concat_app, Hc. simpl. rewrite app_nil_r. unfold evs at 1. simpl. by rewrite EventList.Filter_events.
  - intros [= <-]. split; [|done]. rewrite EventList.Len_events in Hl. unfold evs. destruct (EventList.events (er_Events rec)); [|simpl in Hl; lia].
    unfold keep. simpl. rewrite app_nil_r. by exists recs, ess, es.
Qed.
Lemma keep_app p l1 l2 : keep p (l1 ++ l2) = keep p l1 ++ keep p l2.
Proof. apply filter_app. Qed.
Lemma same_trans r1 r2 r3 : same r1 r2 → same r2 r3 → same r1 r3.
Proof. unfold same. intros (? & ? & ? & ? & ? & ?) (? & ? & ? & ? & ? & ?). split_and!; congruence. Qed.
Lemma write_loop_log first recs r l r' :
  Log r l → write_loop first recs r = (Ok tt, r') → Log r' (l ++ keep (r_filter r) (concat (evs <$> recs))) ∧ same r r'.
Proof.
  revert first r l. induction recs as [|rec recs IH]; intros first r l Hlog; simpl; [intros [= <-]; by rewrite app_nil_r|].
  destruct (if first then _ else _) as [[[]| |] r1] eqn:Hn; [|done..].
  assert (Log r1 l ∧ same r r1) as [Hlog1 Hs1] by (destruct first; [by injection Hn as <-|by eapply next_file_log]).
  destruct (write_rec rec r1) as [[[]| |] r2] eqn:Hw; [|done..]. destruct (write_rec_log _ _ _ _ Hlog1 Hw) as [Hlog2 Hs2]. intros Hr.
  destruct (IH _ _ _ Hlog2 Hr) as [Hlog3 Hs3]. pose proof (same_trans _ _ _ Hs1 Hs2) as Hs12.
  split; [|by eapply same_trans]. rewrite keep_app, (assoc_L (++)). destruct Hs1 as [Hf1 _], Hs12 as [Hf2 _]. rewrite Hf2, Hf1 in Hlog3. done.
Qed.
(** Whatever its result, writing leaves the rest of the recorder alone. *)
Lemma write_loop_frame first recs r res r' : write_loop first recs r = (res, r') → same r r'.
Proof.
  revert first r. induction recs as [|rec recs IH]; intros first r; simpl; [by intros [= <- <-]|].
  assert (∀ res r1, (if first then (Ok tt, r) else next_file r) = (res, r1) → same r r1) as Hn.
  { intros res1 r1. destruct first; [by intros [= <- <-]|]. unfold next_file. destruct (ew_new _); [destruct (ew_Close _)|..]; by intros [= <- <-]. }
  destruct (if first then _ else _) as [[[]| |] r1] eqn:Hf; [|by intros [= <- <-]; eapply Hn..].
  specialize (Hn _ _ eq_refl). assert (∀ res r2, write_rec rec r1 = (res, r2) → same r1 r2) as Hw.
  { intros res2 r2. unfold write_rec. case_bool_decide; [destruct (ew_Write _ _)|]; by intros [= <- <-]. }
  destruct (write_rec rec r1) as [[[]| |] r2] eqn:Hwr; [|by intros [= <- <-]; eapply same_trans, Hw..].
  intros Hr%IH. eapply same_trans; [exact Hn|]. eapply same_trans; [by eapply Hw|done].
Qed.
Lemma writeEvents_frame record r res r' : writeEvents record r = (res, r') → same r r'.
Proof.
  unfold writeEvents. destruct (newDests _ _) as [[recs sp]| |]; [|by intros [= <- <-]..]. by intros Hw%write_loop_frame.
Qed.
Lemma writeEvents_log record r l r' :
  Log r l → writeEvents record r = (Ok tt, r') → Log r' (l ++ keep (r_filter r) (evs record)) ∧ same r r'.
Proof.
  intros Hlog. unfold writeEvents. destruct (newDests _ _) as [[recs sp]| |] eqn:Hn; [|done..]. intros Hw.
  rewrite <- (newDests_events _ _ _ _ Hn). by apply (write_loop_log true recs (with_newDests sp r) l r') in Hw.
Qed.

(** ** Runs of a recorder in asynchronous mode

    The records that [Intercept] accepted.  As its comment demands, [Stop] is called after the last
    [Intercept]. *)
Inductive rec_run (r0 : Recorder) : list EventRecord → Recorder → Prop :=
| rr_start : rec_run r0 [] r0
| rr_intercept acc r events time r' : rec_run r0 acc r → r_doneC r = false → intercept events time r None r' →
    rec_run r0 (acc ++ [mkEventRecord events time]) r'
| rr_run acc r r' : rec_run r0 acc r → run_step r r' → rec_run r0 acc r'
| rr_stop acc r : rec_run r0 acc r → rec_run r0 acc (stop_request r).

Definition healthy (p : run_point) : Prop := p = RunLoop ∨ p = RunDraining ∨ p = RunExited errStopped.
Record RecInv (p0 : Event → bool) (acc : list EventRecord) (r : Recorder) : Prop := {
  rv_filter : r_filter r = p0;
  rv_sync : r_syncWrite r = false;
  rv_done : r_at r = RunDraining ∨ r_at r = RunExited errStopped → r_doneC r = true;
  rv_empty : r_at r = RunExited errStopped → r_eventC r = [];
  rv_log : healthy (r_at r) → ∃ written, acc = written ++ r_eventC r ∧ Log r (keep p0 (concat (evs <$> written)));
}.
Lemma write_error_not_stopped err : RunExited ("error serializing to stream: " +:+ err) ≠ RunExited errStopped.
Proof. intros He. by injection He. Qed.

Lemma run_write_inv p0 acc r record q :
  RecInv p0 acc r → r_at r = RunLoop ∨ r_at r = RunDraining → r_eventC r = record :: q →
  is_Panic (writeEvents record (with_queue q r)).1 = false → RecInv p0 acc (after_write (writeEvents record (with_queue q r))).
Proof.
  intros [H1 H2 H3 H4 H5] Ha Hq Hp. destruct (writeEvents record (with_queue q r)) as [[[]|err|p] r'] eqn:Hw; simpl in *; [| |done].
  - destruct H5 as (written & Hacc & Hlog); [by unfold healthy; destruct Ha as [-> | ->]; auto|].
    destruct (writeEvents_log record (with_queue q r) _ r' Hlog Hw) as [Hlog' (Hf & Hq' & Hd & Ha' & _ & Hs)]. simpl in *.
    split; rewrite ?Hf, ?Hs, ?Ha', ?Hd, ?Hq'; try done.
    + intros He. destruct Ha; congruence.
    + intros _. exists (written ++ [record]). split; [by rewrite Hacc, Hq, <- (assoc_L (++))|].
      rewrite fmap_app, concat_app, keep_app. simpl. rewrite app_nil_r. by rewrite H1 in Hlog'.
  - destruct (writeEvents_frame _ _ _ _ Hw) as (Hf & _ & _ & _ & _ & Hs). simpl in Hf, Hs.
    split; simpl; rewrite ?Hf, ?Hs; try done.
    + intros [?|He]; [done|]. by destruct (write_error_not_stopped err He).
    + intros [?|[?|He]]; [done..|]. by destruct (write_error_not_stopped err He).
Qed.
(** The steps left to the goroutine. *)
Definition run_left (r : Recorder) : nat :=
  length (r_eventC r) + match r_at r with RunLoop => 2 | RunDraining => 1 | RunExited _ => 0 end.
Lemma run_left_step r r' : run_step r r' → run_left r' < run_left r.
Proof.
  unfold run_left. intros [record q Ha Hq Hp|Ha Hd|Ha Hq]; simpl; [|rewrite Ha; lia..].
  destruct (writeEvents record (with_queue q r)) as [res r1] eqn:Hw.
  destruct (writeEvents_frame _ _ _ _ Hw) as (_ & Hq' & _ & Ha' & _). simpl in Hq', Ha'. rewrite Hq.
  destruct res as [[]|err|p]; simpl in *; [rewrite Hq', Ha'; simpl; lia| |done]. rewrite Hq'. destruct Ha as [-> | ->]; lia.
Qed.
Lemma run_steps_bound n r r' : nsteps run_step n r r' → n ≤ length (r_eventC r) + 2.
Proof.
  intros Hn. assert (n + run_left r' ≤ run_left r) as Hl.
  { induction Hn as [r|n r r1 r2 Hs%run_left_step _ IH]; lia. }
  unfold run_left in Hl. destruct (r_at r); lia.
Qed.
Lemma rec_run_inv r0 acc r :
  Log r0 [] → r_syncWrite r0 = false → r_at r0 = RunLoop → r_eventC r0 = [] → rec_run r0 acc r → RecInv (r_filter r0) acc r.
Proof.
  intros Hlog Hs Ha Hq. induction 1 as [|acc r events time r' Hr IH Hd Hi|acc r r' Hr IH Hstep|acc r Hr IH].
  - split; try done; rewrite ?Ha, ?Hq; try done; [by intros [?|?]|]. intros _. by exists [].
  - destruct IH as [H1 H2 H3 H4 H5]. inversion Hi; subst. split; simpl; try done.
    + intros He. rewrite (H3 (or_intror He)) in Hd. done.
    + intros (written & -> & Hl)%H5. exists written. split; [by rewrite <- (assoc_L (++))|done].
  - destruct Hstep as [record q Hat Hq' Hp|Hat Hd|Hat Hq']; [by eapply run_write_inv|..]; destruct IH as [H1 H2 H3 H4 H5]; split; simpl; try done.
    + intros _. apply H5. by left.
    + intros _. apply H3. by left.
    + intros _. apply H5. right. by left.
  - destruct IH as [H1 H2 H3 H4 H5]. by split.
Qed.
Lemma new_recorder path opts r0 :
  NewRecorder path opts = Ok r0 → Log r0 [] ∧ r_at r0 = RunLoop ∧ r_eventC r0 = [].
Proof.
  unfold NewRecorder. destruct (ew_new _) as [w| |] eqn:Hw; [|done..]. simpl. intros [= <-].
  set (r := mkRecorder _ _ _ _ _ _ _ _ _ _ _). assert (Log r [] ∧ r_at r = RunLoop ∧ r_eventC r = []) as Hr.
  { split; [|done]. exists [], [], []. split_and!; [constructor|by eapply ew_new_holds|constructor|done]. }
  clearbody r. revert r Hr. induction opts as [|opt opts IH]; intros r Hr; [done|]. apply IH. by destruct opt.
Qed.

Lemma stopped_log p0 acc r : RecInv p0 acc r → StopResult r = Some None → Log r (keep p0 (concat (evs <$> acc))).
Proof.
  intros [H1 H2 H3 H4 H5]. unfold StopResult. rewrite H2. destruct (r_at r) as [| |err]; [done..|]. case_bool_decide as He; [|done].
  intros _. subst err. destruct H5 as (written & Hacc & Hl); [by right; right|]. by rewrite Hacc, H4, app_nil_r by done.
Qed.

(** The record is complete: in asynchronous mode, whatever writer is
    used and however records are split over files, the entries of the files together hold exactly the events of a
    prefix of the accepted records that pass the filter, in their order, as long as no write failed; the remaining records are in the
    buffer.  When [Stop] returns without error, all accepted events have been written.  Once
    stopping is requested, the goroutine exits after at most one step for each buffered record
    and two more: it can take a step unless it has exited or writing panics. *)
Theorem recorder_complete path opts r0 acc r :
  NewRecorder path opts = Ok r0 → r_syncWrite r0 = false → rec_run r0 acc r →
  (healthy (r_at r) → ∃ written, acc = written ++ r_eventC r ∧ Log r (keep (r_filter r0) (concat (evs <$> written)))) ∧
  (StopResult r = Some None → Log r (keep (r_filter r0) (concat (evs <$> acc)))) ∧
  (r_doneC r = true → (∀ n r', nsteps run_step n r r' → n ≤ length (r_eventC r) + 2) ∧
     ((∃ r', run_step r r') ∨ (∃ err, r_at r = RunExited err) ∨
      ∃ record q, r_eventC r = record :: q ∧ is_Panic (writeEvents record (with_queue q r)).1 = true)).
Proof.
  intros H0 Hs Hr. destruct (new_recorder _ _ _ H0) as (Hlog & Ha & Hq).
  pose proof (rec_run_inv _ _ _ Hlog Hs Ha Hq Hr) as Hi. split_and!.
  - apply Hi.
  - by apply stopped_log.
  - intros Hd. split; [intros n r'; apply run_steps_bound|]. destruct (r_at r) as [| |err] eqn:Hat; [left|..|right; left; by exists err].
    + eexists. by apply run_done.
    + destruct (r_eventC r) as [|record q] eqn:Hq'; [left; eexists; by apply run_stopped|].
      destruct (is_Panic (writeEvents record (with_queue q r)).1) eqn:Hp; [right; right; by exists record, q|].
      left. eexists. apply (run_write r record q); [by right|done..].
Qed.
End eventlog.

(** ** eventwritergzip.go and reader.go *)
Section gzip.
(** The events of a node, those of them that are protobuf events, and the protobuf event that wraps the bytes of another
    one; the encoding of entries is the protobuf library's. *)
Context {Event PbEvent : Type} (as_pb : Event → option PbEvent) (Dest : Event → string) (ToBytes : Event → outcome bytes)
  (Serialized : string → bytes → PbEvent).
Record Entry := mkEntry { en_NodeId : string; en_Time : Z; en_Events : list PbEvent }.
Context (Marshal : Entry → outcome string) (Unmarshal : string → outcome Entry) (create : string → outcome unit) (nodeID : string).

Definition pb_event (event : Event) : outcome PbEvent :=
  match as_pb event with
  | Some pbevent => Ok pbevent
  | None => data ← ToBytes event; Ok (Serialized (Dest event) data)
  end.
Definition pbEventSlice (el : EventList.t Event) : outcome (list PbEvent) := outcome_map pb_event (EventList.Iterator el).
Definition entry_of (record : EventRecord) : outcome Entry :=
  pbEvents ← pbEventSlice (er_Events record); Ok (mkEntry nodeID (er_Time record) pbEvents).

(** A file is the sequence of its gzip members, each with its uncompressed contents; reading it
    as a gzip stream yields their concatenation. *)
Record gzipWriter := mkGzipWriter { gw_members : list string; gw_closed : bool }.
Definition NewGzipWriter (filename : string) : outcome gzipWriter :=
  match create (filename +:+ ".gz") with
  | Ok _ => Ok (mkGzipWriter [] false)
  | Err err => Err ("error creating event log file: " +:+ err)
  | Panic p => Panic p
  end.
Definition writeSizePrefixedProto (msg : Entry) : outcome string :=
  match Marshal msg with
  | Ok msgBytes => Ok (Varint.PutVarint (Z.of_nat (String.length msgBytes)) +:+ msgBytes)
  | Err err => Err ("could not marshal: " +:+ err)
  | Panic p => Panic p
  end.
Definition gz_Write (record : EventRecord) (w : gzipWriter) : outcome gzipWriter :=
  if gw_closed w then Err "file already closed"
  else entry ← entry_of record; s ← writeSizePrefixedProto entry; Ok (mkGzipWriter (gw_members w ++ [s]) false).
Definition gz_Flush (w : gzipWriter) : outcome gzipWriter := if gw_closed w then Err "file already closed" else Ok w.
Definition gz_Close (w : gzipWriter) : outcome gzipWriter :=
  if gw_closed w then Err "file already closed" else Ok (mkGzipWriter (gw_members w) true).

(** *** The reader *)
Definition stream (w : gzipWriter) : string := foldr (λ m s, m +:+ s) "" (gw_members w).
(** An entry and the rest of the stream, the end of the stream, or another error. *)
Inductive read_result := ReadOk (e : Entry) (rest : string) | ReadEOF | ReadErr (err : string) | ReadPanic.
Fixpoint str_take (n : nat) (s : string) : string := match n, s with S n, String a s => String a (str_take n s) | _, _ => "" end.
Fixpoint str_drop (n : nat) (s : string) : string := match n, s with S n, String _ s => str_drop n s | _, _ => s end.
(** A message that is cut short ends the stream, since io.CopyN returns EOF then. *)
Definition readSizePrefixedProto (s : string) : read_result :=
  match Varint.ReadVarint s with
  | inr true => ReadEOF
  | inr false => ReadErr "could not read size prefix"
  | inl (l, s) =>
      if bool_decide (l < 0)%Z then ReadPanic
      else if bool_decide (Z.of_nat (String.length s) < l)%Z then ReadEOF
      else match Unmarshal (str_take (Z.to_nat l) s) with
      | Ok e => ReadOk e (str_drop (Z.to_nat l) s)
      | _ => ReadErr "could not unmarshal message"
      end
  end.
(** The loop of [ReadAllEvents], collecting entries; each entry takes at least a byte. *)
Fixpoint read_entries (fuel : nat) (s : string) : outcome (list Entry) :=
  match fuel with
  | O => Err "out of fuel"
  | S fuel =>
      match readSizePrefixedProto s with
      | ReadOk e rest => es ← read_entries fuel rest; Ok (e :: es)
      | ReadEOF => Ok []
      | ReadErr err => Err ("error reading event: " +:+ err)
      | ReadPanic => Panic (ExplicitPanic "bytes.Buffer.Grow: negative count")
      end
  end.
Definition ReadAllEntries (w : gzipWriter) : outcome (list Entry) := read_entries (S (String.length (stream w))) (stream w).
Definition ReadAllEvents (w : gzipWriter) : outcome (list PbEvent) := es ← ReadAllEntries w; Ok (concat (en_Events <$> es)).

(** *** What was written is read *)
Hypothesis Unmarshal_Marshal : ∀ e b, Marshal e = Ok b → Unmarshal b = Ok e ∧ (Z.of_nat (String.length b) < 2 ^ 63)%Z.

Lemma str_take_app s t : str_take (String.length s) (s +:+ t) = s.
Proof. induction s as [|a s IH]; [done|]. exact (f_equal (String a) IH). Qed.
Lemma str_drop_app s t : str_drop (String.length s) (s +:+ t) = t.
Proof. induction s as [|a s IH]; [done|]. exact IH. Qed.
Lemma string_app_assoc (s t u : string) : (s +:+ t) +:+ u = s +:+ (t +:+ u).
Proof. induction s as [|a s IH]; [done|]. exact (f_equal (String a) IH). Qed.
Lemma read_frame e f s : writeSizePrefixedProto e = Ok f → readSizePrefixedProto (f +:+ s) = ReadOk e s.
Proof.
  unfold writeSizePrefixedProto. destruct (Marshal e) as [b| |] eqn:Hm; [|done..]. intros [= <-].
  destruct (Unmarshal_Marshal _ _ Hm) as [Hu Hl]. unfold readSizePrefixedProto. rewrite string_app_assoc, Varint.ReadVarint_Put by lia.
  rewrite bool_decide_eq_false_2 by lia. rewrite bool_decide_eq_false_2 by (rewrite string_length_app; lia).
  by rewrite Nat2Z.id, str_take_app, Hu, str_drop_app.
Qed.
(** A file that was written with entries [es]. *)
Inductive written : list string → list Entry → Prop :=
| written_nil : written [] []
| written_snoc ms es e f : written ms es → writeSizePrefixedProto e = Ok f → written (ms ++ [f]) (es ++ [e]).
Lemma written_frames ms es : written ms es → Forall2 (λ f e, writeSizePrefixedProto e = Ok f) ms es.
Proof. induction 1; [constructor|]. apply Forall2_app; [done|by repeat constructor]. Qed.
Lemma frame_length e f : writeSizePrefixedProto e = Ok f → 0 < String.length f.
Proof.
  unfold writeSizePrefixedProto. destruct (Marshal e) as [b| |]; [|done..]. intros [= <-]. rewrite string_length_app.
  destruct (Varint.PutVarint_nonempty (Z.of_nat (String.length b))) as (a & s & ->). simpl. lia.
Qed.
Lemma read_written w es : written (gw_members w) es → ReadAllEntries w = Ok es.
Proof.
  intros Hw%written_frames. unfold ReadAllEntries, stream. destruct w as [ms c]. cbn [gw_members] in *.
  assert (∀ fuel, String.length (foldr (λ m s, m +:+ s) "" ms) < fuel → read_entries fuel (foldr (λ m s, m +:+ s) "" ms) = Ok es) as H;
    [|by apply H; lia].
  induction Hw as [|f e ms es Hf Hrest IH]; intros [|fuel] Hl; try lia; [done|]. cbn [foldr] in *. rewrite string_length_app in Hl.
  pose proof (frame_length _ _ Hf). cbn [read_entries]. rewrite (read_frame _ _ _ Hf). by rewrite (IH fuel) by lia.
Qed.

(** The gzip writer is an event writer. *)
#[local] Program Instance gzip_writer : EventWriter entry_of gzipWriter := {|
  ew_new := NewGzipWriter; ew_Write := gz_Write; ew_Flush := gz_Flush; ew_Close := gz_Close;
  ew_holds w := written (gw_members w);
|}.
Next Obligation. intros name w. unfold NewGzipWriter. destruct (create _); [|done..]. intros [= <-]. constructor. Qed.
Next Obligation.
  intros rec w w' es Hw. unfold gz_Write. destruct (gw_closed w); [done|]. destruct (entry_of rec) as [e| |]; [|done..]. simpl.
  destruct (writeSizePrefixedProto e) as [f| |] eqn:Hf; [|done..]. intros [= <-]. exists e. split; [done|]. by constructor.
Qed.
Next Obligation. intros w w' es Hw. unfold gz_Flush. destruct (gw_closed w); [done|]. by intros [= <-]. Qed.
Next Obligation. intros w w' es Hw. unfold gz_Close. destruct (gw_closed w); [done|]. by intros [= <-]. Qed.

Lemma outcome_map_app {A B} (f : A → outcome B) l1 l2 b1 b2 :
  outcome_map f l1 = Ok b1 → outcome_map f l2 = Ok b2 → outcome_map f (l1 ++ l2) = Ok (b1 ++ b2).
Proof.
  revert b1. induction l1 as [|a l1 IH]; intros b1; simpl; [by intros [= <-]|].
  destruct (f a) as [b| |]; [|done..]. simpl. destruct (outcome_map f l1) as [bs| |]; [|done..]. simpl. intros [= <-] H2. by rewrite (IH bs).
Qed.
Lemma entries_events recs es :
  Forall2 (λ rec e, entry_of rec = Ok e) recs es → outcome_map pb_event (concat (evs <$> recs)) = Ok (concat (en_Events <$> es)).
Proof.
  induction 1 as [|rec e recs es He _ IH]; [done|]. simpl. apply outcome_map_app; [|done]. revert He. unfold entry_of, pbEventSlice, evs, EventList.Iterator.
  destruct (outcome_map pb_event (EventList.events (er_Events rec))) as [pbs| |]; [|done..]. simpl. intros He. by injection He as <-.
Qed.
Lemma read_files (ws : list gzipWriter) ess :
  Forall2 (λ w, written (gw_members w)) ws ess → outcome_map ReadAllEvents ws = Ok ((λ es, concat (en_Events <$> es)) <$> ess).
Proof.
  induction 1 as [|w es ws ess Hw _ IH]; [done|].
  assert (ReadAllEvents w = Ok (concat (en_Events <$> es))) as Hr by (unfold ReadAllEvents; by rewrite (read_written _ _ Hw)).
  cbn [outcome_map]. rewrite Hr. cbn [mbind outcome_bind]. by rewrite IH.
Qed.

Lemma concat_files (ess : list (list Entry)) : concat ((λ es, concat (en_Events <$> es)) <$> ess) = concat (en_Events <$> concat ess).
Proof.
  induction ess as [|es ess IH]; [done|]. rewrite fmap_cons. cbn [concat]. by rewrite IH, fmap_app, concat_app.
Qed.

End gzip.

(** ** A recording of two events *)
Module EventLogExample.
Fixpoint marks (n : nat) : string := match n with O => "" | S n => String "x" (marks n) end.
Definition Marshal (e : @Entry unit) : outcome string :=
  if bool_decide (en_NodeId e = "n") && bool_decide (en_Time e = 0%Z) && bool_decide (length (en_Events e) < 1000)
  then Ok (marks (length (en_Events e))) else Err "unsupported".
Definition Unmarshal (b : string) : outcome (@Entry unit) := Ok (mkEntry "n" 0 (replicate (String.length b) tt)).
Lemma marks_length n : String.length (marks n) = n.
Proof. induction n; simpl; congruence. Qed.
Lemma Unmarshal_Marshal e b : Marshal e = Ok b → Unmarshal b = Ok e ∧ (Z.of_nat (String.length b) < 2 ^ 63)%Z.
Proof.
  unfold Marshal. destruct e as [n t l]. simpl. repeat case_bool_decide; simpl; try done. intros [= <-]. subst.
  unfold Unmarshal. rewrite marks_length. split; [|lia]. do 2 f_equal. clear. induction l as [|[] l IH]; [done|]. simpl. by rewrite IH.
Qed.
Definition as_pb (e : unit) : option unit := Some e.
Definition Dest (_ : unit) : string := "m".
Definition ToBytes (_ : unit) : outcome bytes := Ok None.
Definition Serialized (_ : string) (_ : bytes) : unit := tt.
Definition create (_ : string) : outcome unit := Ok tt.
Definition entry := entry_of as_pb Dest ToBytes Serialized "n".
Definition gz := gzip_writer as_pb Dest ToBytes Serialized Marshal create "n".
Definition rec1 : @EventRecord unit := mkEventRecord (Some [tt; tt]) 0.
Definition r0 : @Recorder unit gzipWriter := mkRecorder (mkGzipWriter [] false) [] OneFile "log" (λ _, true) false DefaultBufferSize [] false RunLoop 1.
Definition r1 := with_queue [rec1] r0.
Definition r2 := (writeEvents (EventWriter0 := gz) entry rec1 (with_queue [] r1)).2.
Definition r3 := with_run true (RunExited errStopped) r2.
Lemma run_r3 : rec_run (EventWriter0 := gz) entry r0 [rec1] r3.
Proof.
  apply (rr_run _ _ _ (with_run true RunDraining r2)); [|exact (run_stopped (EventWriter0 := gz) entry (with_run true RunDraining r2) eq_refl eq_refl)].
  apply (rr_run _ _ _ (with_run true RunLoop r2)); [|exact (run_done (EventWriter0 := gz) entry (with_run true RunLoop r2) eq_refl eq_refl)].
  apply (rr_stop _ _ _ r2). apply (rr_run _ _ _ r1); [|exact (run_write (EventWriter0 := gz) entry r1 rec1 [] (or_introl eq_refl) eq_refl eq_refl)].
  apply (rr_intercept _ r0 [] r0 (Some [tt; tt]) 0%Z); [constructor|done|]. constructor. simpl. unfold DefaultBufferSize. lia.
Qed.
Lemma recorder_complete_witness :
  StopResult r3 = Some None ∧ Log (EventWriter0 := gz) entry r3 (keep (r_filter r0) (concat (evs <$> [rec1]))).
Proof.
  split; [reflexivity|].
  apply (recorder_complete (EventWriter0 := gz) entry "log" [] r0 [rec1] r3); [reflexivity|reflexivity|exact run_r3|reflexivity].
Defined.
End EventLogExample.
