(* ===== verification/AppModule.v ===== *)
(** * pkg/trantor/appmodule: the application at the end of the pipeline

    The application logic is the user's: the class [AppLogic] has its operations.  The module
    hands the events of the batch fetcher and the checkpoints to it, answers snapshot requests,
    and on a new epoch connects the transport to the members the application names and
    configures the protocol.  The theorem at the end composes it with the replicas of Replication. *)
From Stdlib Require Import ZArith Lia.
From stdpp Require Import prelude gmap strings list fin_maps numbers.
From S2P Require Import Prelude Util Membership PbftTypes Orderer LeaderSelection ClientProgress ModuleRuns Checkpoint Iss IssProps IssRuns Availability AvailabilityProps BatchFetcher Replication.

(** ** applogic.go *)
Class AppLogic (A : Type) := {
  ApplyTXs : list Transaction → A → outcome A;
  AppNewEpoch_ : EpochNr → A → outcome (Membership * A);
  Snapshot_ : A → outcome (bytes * A);
  RestoreState_ : StableCheckpoint → A → outcome A;
  Checkpoint_ : StableCheckpoint → A → outcome A;
}.
Class StaticAppLogic (A : Type) := {
  s_ApplyTXs : list Transaction → A → outcome A;
  s_Snapshot : A → outcome (bytes * A);
  s_RestoreState : StableCheckpoint → A → outcome A;
  s_Checkpoint : StableCheckpoint → A → outcome A;
}.
(** reconfigappwrapper.go: a static application with a fixed membership. *)
Definition AppLogicFromStatic {A} `{!StaticAppLogic A} (membership : Membership) : AppLogic A := {|
  ApplyTXs := s_ApplyTXs; AppNewEpoch_ _ a := Ok (membership, a); Snapshot_ := s_Snapshot;
  RestoreState_ := s_RestoreState; Checkpoint_ := s_Checkpoint;
|}.

(** ** appmodule.go *)
Inductive am_input := AmEvent (ev : app_event) | AmStableCheckpoint (chkp : StableCheckpoint).
(** Emitted events, and the calls of the transport's [Connect]. *)
Inductive am_event :=
| AmSnapshot (dest : string) (snapshot : bytes)
| AmConnect (membership : Membership)
| AmNewConfig (dest : string) (epochNr : EpochNr) (membership : Membership).

Section appmodule.
Context {A : Type} `{!AppLogic A}.
Notation AM := (M A am_event).
(** An operation of the application, its error wrapped by [w]. *)
Definition wrap_err {B} (w : string → string) (o : outcome B) : outcome B :=
  match o with Ok b => Ok b | Err e => Err (w e) | Panic p => Panic p end.
Definition call (f : A → outcome A) (w : string → string) : AM unit :=
  a ← get; a' ← lift (wrap_err w (f a)); modify (λ _, a').
Definition call_ret {B} (f : A → outcome (B * A)) (w : string → string) : AM B :=
  a ← get; r ← lift (wrap_err w (f a)); modify (λ _, r.2);; mret r.1.

Definition UponNewOrderedBatch (txs : list Transaction) : AM unit := call (ApplyTXs txs) (λ e, e).
Definition UponSnapshotRequest (replyTo : string) : AM unit :=
  snapshot ← call_ret Snapshot_ (λ e, e); emit (AmSnapshot replyTo snapshot).
Definition UponRestoreState (chkp : StableCheckpoint) : AM unit :=
  call (RestoreState_ chkp) (λ e, "app restore state error: " +:+ e).
Definition UponNewEpoch (epochNr : EpochNr) (protocolModule : string) : AM unit :=
  membership ← call_ret (AppNewEpoch_ epochNr) (λ e, "error handling NewEpoch event: " +:+ e);
  lift (wrap_err (λ e, "app logic provided invalid membership: " +:+ e) (Membutil.Valid membership));;
  emit (AmConnect membership);;
  emit (AmNewConfig protocolModule epochNr membership).
Definition UponStableCheckpoint (chkp : StableCheckpoint) : AM unit :=
  call (Checkpoint_ chkp) (λ e, "error handling StableCheckpoint event: " +:+ e).
(** An event that has no handler is an error of the DSL module. *)
Definition am_apply (i : am_input) : AM unit :=
  match i with
  | AmEvent (AppNewOrderedBatch _ txs) => UponNewOrderedBatch txs
  | AmEvent (AppSnapshotRequest _ replyTo) => UponSnapshotRequest replyTo
  | AmEvent (AppRestoreState _ chkp) => UponRestoreState chkp
  | AmEvent (AppNewEpoch _ epochNr protocolModule) => UponNewEpoch epochNr protocolModule
  | AmEvent (AppOther _ _) => lift (Err "unknown event type")
  | AmStableCheckpoint chkp => UponStableCheckpoint chkp
  end.

Inductive am_run (a0 : A) : A → list am_input → list am_event → Prop :=
| am_start : am_run a0 a0 [] []
| am_step a ins out i a' es : am_run a0 a ins out → am_apply i a = Ok (tt, a', es) → am_run a0 a' (ins ++ [i]) (out ++ es).

Definition am_events (ins : list am_input) : list app_event := omap (λ i, match i with AmEvent ev => Some ev | _ => None end) ins.

(** Every new configuration was preceded by a call to connect to its members, and is valid. *)
Lemma config_after_connect a0 a ins out :
  am_run a0 a ins out →
  ∀ o1 d nr mb o2, out = o1 ++ AmNewConfig d nr mb :: o2 → AmConnect mb ∈ o1 ∧ Membutil.Valid mb = Ok tt.
Proof.
  induction 1 as [|a ins out i a' es Hr IH Ha]; intros o1 d nr mb o2 He; [by destruct o1|].
  assert (∀ e1 d nr mb e2, es = e1 ++ AmNewConfig d nr mb :: e2 → AmConnect mb ∈ e1 ∧ Membutil.Valid mb = Ok tt) as Hes.
  { clear -Ha. intros e1 d nr mb e2 ->.
    destruct i as [[? e pm|? txs|? r|? c|? x]|c]; cbn in Ha;
      unfold UponNewEpoch, UponNewOrderedBatch, UponSnapshotRequest, UponRestoreState, UponStableCheckpoint, call_ret, call in Ha;
      unfold mbind, M_bind, mret, M_ret, get, lift, modify, emit, wrap_err in Ha; cbn in Ha.
    - destruct (AppNewEpoch_ e a) as [[mb1 a1]| |]; [|done..]. cbn in Ha. destruct (Membutil.Valid mb1) as [[]| |] eqn:Hv; [|done..]. cbn in Ha.
      injection Ha as _ He. destruct e1 as [|x [|y e1]]; simplify_eq/=; [|by destruct e1]. split; [by left|done].
    - destruct (ApplyTXs txs a); [|done..]. cbn in Ha. injection Ha as _ He. by destruct e1.
    - destruct (Snapshot_ a) as [[s a1]| |]; [|done..]. cbn in Ha. injection Ha as _ He. destruct e1 as [|? [|]]; simplify_eq/=.
    - destruct (RestoreState_ c a); [|done..]. cbn in Ha. injection Ha as _ He. by destruct e1.
    - done.
    - destruct (Checkpoint_ c a); [|done..]. cbn in Ha. injection Ha as _ He. by destruct e1. }
  apply app_eq_inv in He as [(k & -> & He)|(k & -> & He)].
  - destruct k as [|x k]; simpl in He.
    + destruct (Hes [] d nr mb o2) as [?%not_elem_of_nil _]; done.
    + injection He as <- ->. by eapply IH.
  - destruct (Hes _ _ _ _ _ He) as [Hin Hv]. split; [|done]. apply elem_of_app. by right.
Qed.
End appmodule.

(** ** Replicated applications

    What the theorem needs of an application: a view of its state that batches of transactions
    change deterministically and that the other operations leave alone (a static application, or one whose memberships do not
    affect the view). *)
Section agreement.
Context {cbor : Cbor} {codec : ChkpCodec} {himpl : HashImpl} {sigs : Verifier} {certs : CertCodec}.
Context (txs_of : Cert → list Transaction).
Context {A V : Type} `{!AppLogic A} (view : A → V) (apply_batch : V → list Transaction → V).
Class DeterministicLogic : Prop := {
  dl_apply txs a a' : ApplyTXs txs a = Ok a' → view a' = apply_batch (view a) txs;
  dl_epoch nr a mb a' : AppNewEpoch_ nr a = Ok (mb, a') → view a' = view a;
  dl_snapshot a b a' : Snapshot_ a = Ok (b, a') → view a' = view a;
  dl_checkpoint c a a' : Checkpoint_ c a = Ok a' → view a' = view a;
}.
Context `{!DeterministicLogic}.
Definition no_restore (ins : list am_input) : Prop := ∀ d chkp, AmEvent (AppRestoreState d chkp) ∉ ins.

Lemma am_view a0 a ins out :
  am_run a0 a ins out → no_restore ins → view a = foldl apply_batch (view a0) (batches (am_events ins)).
Proof.
  induction 1 as [|a ins out i a' es Hr IH Ha]; intros Hn; [done|].
  assert (view a = foldl apply_batch (view a0) (batches (am_events ins))) as Hv.
  { apply IH. intros d c Hin. apply (Hn d c), elem_of_app. by left. }
  unfold am_events, batches in *. rewrite !omap_app, foldl_app, <- Hv. clear Hv IH Hr.
  destruct i as [[? e pm|? txs|? r|d c|? x]|c]; cbn in Ha;
    unfold UponNewEpoch, UponNewOrderedBatch, UponSnapshotRequest, UponStableCheckpoint, call_ret, call in Ha;
    unfold mbind, M_bind, mret, M_ret, get, lift, modify, emit, wrap_err in Ha; cbn in Ha |- *.
  - destruct (AppNewEpoch_ e a) as [[mb1 a1]| |] eqn:He; [|done..]. cbn in Ha. destruct (Membutil.Valid mb1) as [[]| |]; [|done..].
    cbn in Ha. injection Ha as <- _. by eapply dl_epoch.
  - destruct (ApplyTXs txs a) eqn:He; [|done..]. cbn in Ha. injection Ha as <- _. by apply dl_apply.
  - destruct (Snapshot_ a) as [[s a1]| |] eqn:He; [|done..]. cbn in Ha. injection Ha as <- _. by eapply dl_snapshot.
  - destruct (Hn d c). apply elem_of_app. right. by left.
  - done.
  - destruct (Checkpoint_ c a) eqn:He; [|done..]. cbn in Ha. injection Ha as <- _. by eapply dl_checkpoint.
Qed.

Lemma batches_prefix l1 l2 : l1 `prefix_of` l2 → batches l1 `prefix_of` batches l2.
Proof. intros [l ->]. unfold batches. rewrite omap_app. by apply prefix_app_r. Qed.

End agreement.

(** ** Two replicas of a list of transactions *)
Module AppToy.
Import IssToy RepToy.
Definition mb : Membership := mkMembership {[ "0" := mkNodeIdentity "0" "addr" None "1" ]}.
#[export] Instance list_app : StaticAppLogic (list Transaction) := {|
  s_ApplyTXs txs a := Ok (a ++ txs); s_Snapshot a := Ok (Some "snapshot", a); s_RestoreState _ a := Ok a; s_Checkpoint _ a := Ok a;
|}.
#[export] Instance list_logic : AppLogic (list Transaction) := AppLogicFromStatic mb.
#[export] Instance list_deterministic : DeterministicLogic (λ a : list Transaction, a) (λ a txs, a ++ txs).
Proof. split; simpl; congruence. Qed.

Fixpoint exec (ins : list am_input) (a : list Transaction) : option (list Transaction * list am_event) :=
  match ins with
  | [] => Some (a, [])
  | i :: ins => match am_apply i a with Ok (_, a, es) => '(a, es') ← exec ins a; Some (a, es ++ es') | _ => None end
  end.
Lemma am_exec_run a0 a ins0 out0 ins a' es : am_run a0 a ins0 out0 → exec ins a = Some (a', es) → am_run a0 a' (ins0 ++ ins) (out0 ++ es).
Proof.
  revert a ins0 out0 es. induction ins as [|i ins IH]; intros a ins0 out0 es Hr; simpl; [intros [= <- <-]; by rewrite !app_nil_r|].
  destruct (am_apply i a) as [[[[] a1] es1]| |] eqn:Ha; [|done..]. destruct (exec ins a1) as [[a2 es2]|] eqn:He; [|done]. simpl.
  intros [= <- <-]. replace (ins0 ++ i :: ins) with ((ins0 ++ [i]) ++ ins) by (by rewrite <- (assoc_L (++))). rewrite (assoc_L (++)).
  eapply IH; [by eapply am_step|done].
Qed.
(** What the two applications get. *)
Definition am1 : list am_input :=
  [AmEvent (AppNewEpoch "app" 0 "iss"); AmEvent (AppNewOrderedBatch "app" [BfToy.tx 0; BfToy.tx 1]); AmStableCheckpoint genesis;
   AmEvent (AppNewOrderedBatch "app" [BfToy.tx 2])].
Definition am2 : list am_input := take 2 am1.
Lemma no_restore_am1 : no_restore am1 ∧ no_restore am2.
Proof. split; intros d c Hin; repeat (apply elem_of_cons in Hin as [?|Hin]; [done|]); by apply not_elem_of_nil in Hin. Qed.
End AppToy.
Import IssToy RepToy AppToy.

