(* ===== verification/EventMangler.v ===== *)
(** * pkg/eventmangler: dropping and delaying events

    The module has one handler, for all events.  The values that its random number generator
    returns are arguments of the handler; a DropRate is the rational number that the float32 denotes. *)
From Stdlib Require Import ZArith QArith Lia.
From stdpp Require Import prelude strings list numbers.
From S2P Require Import Prelude.

Record ManglerConfig := mkManglerConfig { mg_Self : string; mg_Dest : string; mg_Timer : string }.
Record ManglerParams := mkManglerParams { mg_MinDelay : Z; mg_MaxDelay : Z; mg_DropRate : Q }.
Definition DefaultManglerParams : ManglerParams := mkManglerParams 0 1000000000 (5 # 100).

Definition CheckParams (p : ManglerParams) : outcome unit :=
  if bool_decide (mg_MinDelay p < 0)%Z then Err "MinDelay must be non-negative"
  else if bool_decide (mg_MaxDelay p < 0)%Z then Err "MaxDelay must be non-negative"
  else if bool_decide (mg_MaxDelay p < mg_MinDelay p)%Z then Err "MinDelay must be smaller than MaxDelay"
  else if negb (Qle_bool 0 (mg_DropRate p)) then Err "DropRate must be non-negative"
  else Ok tt.

Section mangler.
Context {Content : Type}.
(** Protobuf events, with their destination, and the standard events. *)
Inductive mg_input := MgPb (dest : string) (content : Content) | MgInit (dest : string) | MgStd (dest : string).
Inductive mg_output :=
| MgTimerDelay (timer : string) (delay : Z) (dest : string) (content : Content)
| MgEmit (dest : string) (content : Content).

(** rand.Int63n panics if its argument is not positive; otherwise it returns a number below it. *)
Definition Int63n (bound draw : Z) : outcome Z :=
  if bool_decide (bound ≤ 0)%Z then Panic (ExplicitPanic "invalid argument to Int63n") else Ok (draw mod bound)%Z.
Definition delay_of (p : ManglerParams) (draw : Z) : outcome Z :=
  if bool_decide (mg_MinDelay p = mg_MaxDelay p) then Ok (mg_MinDelay p)
  else n ← Int63n (mg_MaxDelay p - mg_MinDelay p) draw; Ok (mg_MinDelay p + n)%Z.
Definition UponAnyEvent (mc : ManglerConfig) (p : ManglerParams) (float : Q) (draw : Z) (ev : mg_input) : outcome (list mg_output) :=
  if negb (Qle_bool (mg_DropRate p) float) then Ok []
  else
    delay ← delay_of p draw;
    match ev with
    | MgPb _ content =>
        Ok [if bool_decide (0 < delay)%Z then MgTimerDelay (mg_Timer mc) delay (mg_Dest mc) content else MgEmit (mg_Dest mc) content]
    | _ => Err "Event mangler only supports proto events so far."
    end.
Definition NewMangler (mc : ManglerConfig) (p : ManglerParams) : outcome (Q → Z → mg_input → outcome (list mg_output)) :=
  match CheckParams p with
  | Ok _ => Ok (UponAnyEvent mc p)
  | Err err => Err ("invalid event mangler parameters: " +:+ err)
  | Panic p => Panic p
  end.

(** A mangler that was created drops a protobuf event, sends it on at once (only if the
    minimal delay is 0) or delays it by a time within the configured interval, and never panics. *)
Theorem mangler_delays mc p handler float draw dest content :
  NewMangler mc p = Ok handler →
  ∃ out, handler float draw (MgPb dest content) = Ok out ∧
    (out = [] ∧ (float < mg_DropRate p)%Q ∨
     out = [MgEmit (mg_Dest mc) content] ∧ mg_MinDelay p = 0%Z ∨
     ∃ delay, out = [MgTimerDelay (mg_Timer mc) delay (mg_Dest mc) content] ∧ (0 < delay ∧ mg_MinDelay p ≤ delay ≤ mg_MaxDelay p)%Z).
Proof.
  unfold NewMangler, CheckParams. repeat case_bool_decide; try done. destruct (negb (Qle_bool 0 _)); [done|]. intros [= <-].
  unfold UponAnyEvent. destruct (Qle_bool (mg_DropRate p) float) eqn:Hq; simpl.
  2: { eexists. split; [done|]. left. split; [done|]. apply Qnot_le_lt. intros Hle%Qle_bool_iff. congruence. }
  assert (∃ delay, delay_of p draw = Ok delay ∧ (mg_MinDelay p ≤ delay ≤ mg_MaxDelay p)%Z) as (delay & -> & Hd).
  { unfold delay_of. case_bool_decide; [eexists; split; [done|lia]|]. unfold Int63n. rewrite bool_decide_eq_false_2 by lia. simpl.
    eexists. split; [done|]. pose proof (Z.mod_pos_bound draw (mg_MaxDelay p - mg_MinDelay p)). lia. }
  simpl. eexists. split; [done|]. right. case_bool_decide; [right; eexists; split; [done|lia]|left; split; [done|lia]].
Qed.
(** The Init event that every module gets is an error, unless it happens to be dropped. *)
Theorem mangler_fails_on_init mc p handler float draw dest :
  NewMangler mc p = Ok handler → (mg_DropRate p <= float)%Q → ∃ err, handler float draw (MgInit dest) = Err err.
Proof.
  unfold NewMangler, CheckParams. repeat case_bool_decide; try done. destruct (negb (Qle_bool 0 _)); [done|]. intros [= <-] Hq.
  unfold UponAnyEvent. apply Qle_bool_iff in Hq. rewrite Hq. simpl. unfold delay_of, Int63n.
  case_bool_decide; [by eexists|]. rewrite bool_decide_eq_false_2 by lia. by eexists.
Qed.
End mangler.
