(* ===== verification/TestSim.v ===== *)
(** * pkg/testsim: simulated time

    The runtime executes scheduled actions in the order of their deadlines.  The queue
    (action-queue.go) is a binary heap maintained by container/heap, in which every action
    knows its index, so that it can be cancelled; runtime.go advances the time; processes
    (process.go) meet on channels (chan.go).  *)
From Stdlib Require Import ZArith Lia.
From stdpp Require Import prelude gmap list fin_maps numbers relations strings.
From S2P Require Import Prelude.

(** ** action-queue.go *)
Record action := mkAction { a_id : nat; a_deadline : Z }.
#[export] Instance action_eq_dec : EqDecision action.
Proof. solve_decision. Defined.
(** The queue and the field [index] of the actions, by their identity. *)
Record queue := mkQueue { q_els : list action; q_index : gmap nat Z }.
Definition Len (q : queue) : nat := length (q_els q).
Definition key (q : queue) (i : nat) : Z := from_option a_deadline 0%Z (q_els q !! i).
Definition Less (q : queue) (i j : nat) : bool := bool_decide (key q i < key q j)%Z.
(** Indices out of range, at which Go panics, do not occur. *)
Definition Swap (i j : nat) (q : queue) : queue :=
  match q_els q !! i, q_els q !! j with
  | Some x, Some y => mkQueue (<[j := x]> (<[i := y]> (q_els q))) (<[a_id x := Z.of_nat j]> (<[a_id y := Z.of_nat i]> (q_index q)))
  | _, _ => q
  end.
Definition aq_Push (e : action) (q : queue) : queue :=
  mkQueue (q_els q ++ [e]) (<[a_id e := Z.of_nat (Len q)]> (q_index q)).
Definition aq_Pop (q : queue) : option (action * queue) :=
  e ← last (q_els q);
  Some (e, mkQueue (take (Len q - 1) (q_els q)) (<[a_id e := (-1)%Z]> (q_index q))).

(** ** container/heap *)
Definition parent (j : nat) : nat := (j - 1) / 2.
Fixpoint up (fuel j : nat) (q : queue) : queue :=
  match fuel with
  | O => q
  | S fuel =>
      let i := parent j in
      if bool_decide (i = j) || negb (Less q j i) then q else up fuel i (Swap i j q)
  end.
(** The queue and the index at which the element ends. *)
Fixpoint down (fuel i n : nat) (q : queue) : queue * nat :=
  match fuel with
  | O => (q, i)
  | S fuel =>
      let j1 := 2 * i + 1 in
      if bool_decide (n ≤ j1) then (q, i)
      else
        let j := if bool_decide (j1 + 1 < n) && Less q (j1 + 1) j1 then j1 + 1 else j1 in
        if negb (Less q j i) then (q, i) else down fuel j n (Swap i j q)
  end.
Definition heap_Push (e : action) (q : queue) : queue := let q := aq_Push e q in up (Len q) (Len q - 1) q.
Definition heap_Pop (q : queue) : option (action * queue) :=
  let n := Len q - 1 in aq_Pop (down (Len q) 0 n (Swap 0 n q)).1.
Definition heap_Remove (i : nat) (q : queue) : option (action * queue) :=
  let n := Len q - 1 in
  aq_Pop (if bool_decide (n = i) then q
          else let '(q, i') := down (Len q) i n (Swap i n q) in if bool_decide (i < i') then q else up (Len q) i q).

(** ** Invariants *)
Definition indexed (q : queue) : Prop :=
  NoDup (a_id <$> q_els q) ∧ (∀ i a, q_els q !! i = Some a → q_index q !! a_id a = Some (Z.of_nat i)) ∧
  (∀ id i, q_index q !! id = Some (Z.of_nat i) → ∃ a, q_els q !! i = Some a ∧ a_id a = id).
(** The first [n] elements form a heap. *)
Definition heap (n : nat) (q : queue) : Prop := ∀ k, 0 < k < n → (key q (parent k) ≤ key q k)%Z.
(** ... but for element [j], which may be smaller than its parent. *)
Definition heap_up (n j : nat) (q : queue) : Prop :=
  (∀ k, 0 < k < n → k ≠ j → (key q (parent k) ≤ key q k)%Z) ∧
  (∀ k, 0 < k < n → parent k = j → 0 < j → (key q (parent j) ≤ key q k)%Z).
(** ... but for element [i], which may be larger than its children. *)
Definition heap_down (n i : nat) (q : queue) : Prop :=
  (∀ k, 0 < k < n → parent k ≠ i → (key q (parent k) ≤ key q k)%Z) ∧
  (∀ k, 0 < k < n → parent k = i → 0 < i → (key q (parent i) ≤ key q k)%Z).

Lemma parent_lt k : 0 < k → parent k < k.
Proof. intros Hk. unfold parent. apply Nat.Div0.div_lt_upper_bound. lia. Qed.
Lemma parent_child k i : 0 < k → parent k = i ↔ k = 2 * i + 1 ∨ k = 2 * i + 2.
Proof. intros Hk. unfold parent. pose proof (Nat.div_mod_eq (k - 1) 2). pose proof (Nat.mod_upper_bound (k - 1) 2). lia. Qed.

Lemma Swap_els i j q x y :
  q_els q !! i = Some x → q_els q !! j = Some y → q_els (Swap i j q) = <[j := x]> (<[i := y]> (q_els q)).
Proof. intros Hi Hj. unfold Swap. by rewrite Hi, Hj. Qed.
Lemma Swap_Len i j q : Len (Swap i j q) = Len q.
Proof. unfold Swap, Len. destruct (q_els q !! i), (q_els q !! j); simpl; by rewrite ?length_insert. Qed.
Lemma Swap_key i j q k :
  i < Len q → j < Len q → key (Swap i j q) k = if decide (k = j) then key q i else if decide (k = i) then key q j else key q k.
Proof.
  intros [x Hx]%lookup_lt_is_Some [y Hy]%lookup_lt_is_Some. unfold key at 1. rewrite (Swap_els _ _ _ _ _ Hx Hy).
  destruct (decide (k = j)) as [->|Hj].
  - rewrite list_lookup_insert_eq by (rewrite length_insert; by eapply lookup_lt_Some). unfold key. by rewrite Hx.
  - rewrite list_lookup_insert_ne by done. destruct (decide (k = i)) as [->|Hi].
    + rewrite list_lookup_insert_eq by (by eapply lookup_lt_Some). unfold key. by rewrite Hy.
    + by rewrite list_lookup_insert_ne by done.
Qed.
Lemma Swap_perm i j q : q_els (Swap i j q) ≡ₚ q_els q.
Proof.
  unfold Swap. destruct (q_els q !! i) as [x|] eqn:Hi; [|done]. destruct (q_els q !! j) as [y|] eqn:Hj; [|done]. simpl.
  by apply (Permutation_insert_swap (q_els q) i j x y).
Qed.
Lemma indexed_inj q m1 m2 a1 a2 :
  indexed q → q_els q !! m1 = Some a1 → q_els q !! m2 = Some a2 → a_id a1 = a_id a2 → m1 = m2.
Proof.
  intros (Hnd & _ & _) H1 H2 He. eapply NoDup_lookup; [exact Hnd| |]; rewrite list_lookup_fmap; [by rewrite H1|by rewrite H2; simpl; rewrite He].
Qed.
Lemma Swap_indexed i j q : indexed q → indexed (Swap i j q).
Proof.
  intros Hq. pose proof Hq as (Hnd & Hix & Hxi). split; [by rewrite (Swap_perm i j q)|]. unfold Swap.
  destruct (q_els q !! i) as [x|] eqn:Hi; [|done]. destruct (q_els q !! j) as [y|] eqn:Hj; [|done]. simpl.
  pose proof (lookup_lt_Some _ _ _ Hi). pose proof (lookup_lt_Some _ _ _ Hj).
  assert (<[j:=x]> (<[i:=y]> (q_els q)) !! j = Some x) as Ej by (apply list_lookup_insert_eq; by rewrite length_insert).
  assert (j ≠ i → <[j:=x]> (<[i:=y]> (q_els q)) !! i = Some y) as Ei
    by (intros; rewrite list_lookup_insert_ne by done; by apply list_lookup_insert_eq).
  assert (∀ m, m ≠ i → m ≠ j → <[j:=x]> (<[i:=y]> (q_els q)) !! m = q_els q !! m) as Em
    by (intros; by rewrite !list_lookup_insert_ne by done).
  split.
  - intros m a Hm. destruct (decide (m = j)) as [->|Hmj]; [rewrite Ej in Hm; injection Hm as <-; apply lookup_insert_eq|].
    destruct (decide (m = i)) as [->|Hmi].
    + rewrite Ei in Hm by done. injection Hm as <-. rewrite lookup_insert_ne; [apply lookup_insert_eq|]. intros He. by destruct Hmj; eapply indexed_inj.
    + rewrite Em in Hm by done.
      rewrite !lookup_insert_ne; [by apply Hix| |]; intros He; [by destruct Hmj; eapply indexed_inj|by destruct Hmi; eapply indexed_inj].
  - intros id m Hm. destruct (decide (id = a_id x)) as [->|Hx].
    { rewrite lookup_insert_eq in Hm. injection Hm as <-%Nat2Z.inj. eauto. }
    rewrite lookup_insert_ne in Hm by done. destruct (decide (id = a_id y)) as [->|Hy].
    { rewrite lookup_insert_eq in Hm. injection Hm as <-%Nat2Z.inj. exists y. split; [apply Ei; congruence|done]. }
    rewrite lookup_insert_ne in Hm by done. destruct (Hxi _ _ Hm) as (a & Ha & Hid). exists a. split; [|done]. rewrite Em; [done|congruence..].
Qed.

(** What a sequence of swaps keeps. *)
Definition swapped (q q' : queue) : Prop := q_els q' ≡ₚ q_els q ∧ (indexed q → indexed q').
Lemma swapped_Len q q' : swapped q q' → Len q' = Len q.
Proof. intros [Hp _]. by apply Permutation_length. Qed.
Lemma swapped_refl q : swapped q q.
Proof. by split. Qed.
Lemma swapped_Swap i j q q' : swapped (Swap i j q) q' → swapped q q'.
Proof. intros [Hp Hi]. split; [by rewrite Hp, Swap_perm|]. intros H. by apply Hi, Swap_indexed. Qed.
Lemma up_swapped fuel j q : swapped q (up fuel j q).
Proof.
  revert j q. induction fuel as [|fuel IH]; intros j q; simpl; [apply swapped_refl|].
  destruct (_ || _); [apply swapped_refl|]. eapply swapped_Swap, IH.
Qed.
Lemma down_swapped fuel i n q : swapped q (down fuel i n q).1.
Proof.
  revert i q. induction fuel as [|fuel IH]; intros i q; cbn [down]; [apply swapped_refl|].
  destruct (bool_decide _); [apply swapped_refl|]. destruct (negb _); [apply swapped_refl|]. eapply swapped_Swap, IH.
Qed.

Lemma heap_up_swap n j q :
  heap_up n j q → 0 < j < n → n ≤ Len q → (key q j < key q (parent j))%Z → heap_up n (parent j) (Swap (parent j) j q).
Proof.
  intros [H1 H2] Hj Hn Hlt. pose proof (parent_lt j ltac:(lia)) as Hp. split.
  - intros k Hk Hne. pose proof (parent_lt k ltac:(lia)). rewrite !Swap_key by lia. destruct (decide (k = j)) as [->|Hkj].
    { destruct (decide (parent j = j)); [lia|]. rewrite decide_True by done. lia. }
    rewrite (decide_False (P := k = parent j)) by done. destruct (decide (parent k = j)) as [Hpk|Hpk]; [apply H2; [lia|done|lia]|].
    pose proof (H1 k Hk Hkj). destruct (decide (parent k = parent j)) as [He|He]; [rewrite He in *; lia|done].
  - intros k Hk Hpk H0. pose proof (parent_lt (parent j) ltac:(lia)). rewrite !Swap_key by lia.
    rewrite (decide_False (P := parent (parent j) = j)), (decide_False (P := parent (parent j) = parent j)) by lia.
    pose proof (H1 (parent j) ltac:(lia) ltac:(lia)). destruct (decide (k = j)) as [->|Hkj]; [done|].
    pose proof (H1 k Hk Hkj). pose proof (parent_lt k ltac:(lia)). rewrite decide_False by lia. rewrite Hpk in *. lia.
Qed.
Lemma up_heap fuel n j q : heap_up n j q → j < n → n ≤ Len q → j < fuel → heap n (up fuel j q).
Proof.
  revert j q. induction fuel as [|fuel IH]; intros j q Hh Hj Hn Hf; [lia|]. simpl. case_bool_decide as He; simpl.
  { destruct (decide (j = 0)) as [->|]; [|pose proof (parent_lt j ltac:(lia)); lia]. intros k Hk. apply Hh; lia. }
  assert (0 < j) as H0 by (destruct j; [by destruct He|lia]). unfold Less. case_bool_decide as Hl; simpl.
  - pose proof (parent_lt j H0). apply IH; [by apply heap_up_swap|lia|by rewrite Swap_Len|lia].
  - intros k Hk. destruct (decide (k = j)) as [->|]; [lia|by apply Hh].
Qed.
Lemma heap_down_swap n i j q :
  heap_down n i q → 0 < j < n → parent j = i → n ≤ Len q → (key q j < key q i)%Z →
  (∀ k, 0 < k < n → parent k = i → (key q j ≤ key q k)%Z) → heap_down n j (Swap i j q).
Proof.
  intros [H1 H2] Hj Hp Hn Hlt Hmin. pose proof (parent_lt j ltac:(lia)) as Hij. split.
  - intros k Hk Hne. pose proof (parent_lt k ltac:(lia)). rewrite !Swap_key by lia. rewrite (decide_False (P := parent k = j)) by done.
    destruct (decide (k = j)) as [->|Hkj]; [rewrite Hp, decide_True by done; lia|]. destruct (decide (k = i)) as [->|Hki].
    { rewrite decide_False by lia. apply (H2 j); [lia|done|lia]. }
    destruct (decide (parent k = i)) as [He|He]; [by apply Hmin|by apply H1].
  - intros k Hk Hpk H0. pose proof (parent_lt k ltac:(lia)). rewrite !Swap_key by lia. rewrite Hp.
    rewrite (decide_False (P := i = j)), (decide_True (P := i = i)), (decide_False (P := k = j)), (decide_False (P := k = i)) by lia.
    rewrite <- Hpk. apply H1; [done|lia].
Qed.
Definition min_child (n i : nat) (q : queue) : nat :=
  let j1 := 2 * i + 1 in if bool_decide (j1 + 1 < n) && Less q (j1 + 1) j1 then j1 + 1 else j1.
Lemma min_child_spec n i q :
  2 * i + 1 < n → let j := min_child n i q in
  0 < j < n ∧ parent j = i ∧ ∀ k, 0 < k < n → parent k = i → (key q j ≤ key q k)%Z.
Proof.
  intros Hn. unfold min_child, Less. set (j1 := 2 * i + 1) in *. cbn zeta.
  destruct (bool_decide (j1 + 1 < n)) eqn:B1; [apply bool_decide_eq_true in B1|apply bool_decide_eq_false in B1];
    (destruct (bool_decide (key q (j1 + 1) < key q j1)%Z) eqn:B2; [apply bool_decide_eq_true in B2|apply bool_decide_eq_false in B2]); simpl;
    (split; [lia|]); (split; [apply parent_child; lia|]); intros k Hk [->| ->]%parent_child; try lia;
    fold j1; try (replace (2 * i + 2) with (j1 + 1) in * by lia); lia.
Qed.
Lemma down_eq fuel i n q :
  down (S fuel) i n q =
    if bool_decide (n ≤ 2 * i + 1) || negb (Less q (min_child n i q) i) then (q, i)
    else down fuel (min_child n i q) n (Swap i (min_child n i q) q).
Proof. cbn [down]. unfold min_child. by destruct (bool_decide (n ≤ 2 * i + 1)). Qed.
Lemma down_heap fuel n i q : heap_down n i q → i < n → n ≤ Len q → n - i ≤ fuel → heap n (down fuel i n q).1.
Proof.
  revert i q. induction fuel as [|fuel IH]; intros i q Hh Hi Hn Hf; [lia|]. rewrite down_eq. case_bool_decide as Hj1; simpl.
  { intros k Hk. apply Hh; [done|]. intros [?|?]%parent_child; lia. }
  destruct (min_child_spec n i q ltac:(lia)) as (Hj & Hp & Hmin). unfold Less. case_bool_decide as Hl; simpl.
  - pose proof (parent_lt (min_child n i q) ltac:(lia)). apply IH; [by apply heap_down_swap|lia|by rewrite Swap_Len|lia].
  - intros k Hk. destruct (decide (parent k = i)) as [He|He]; [|by apply Hh]. rewrite He. specialize (Hmin k Hk He). lia.
Qed.
(** Elements from [n] on stay where they are. *)
Lemma down_beyond fuel i n q m : n ≤ Len q → n ≤ m → q_els (down fuel i n q).1 !! m = q_els q !! m.
Proof.
  revert i q. induction fuel as [|fuel IH]; intros i q Hn Hm; [done|]. rewrite down_eq. case_bool_decide as Hj1; simpl; [done|].
  destruct (negb _); [done|]. destruct (min_child_spec n i q ltac:(lia)) as (Hj & Hp & _).
  pose proof (parent_lt (min_child n i q) ltac:(lia)). rewrite IH by (rewrite ?Swap_Len; lia).
  destruct (lookup_lt_is_Some_2 (q_els q) i) as [x Hx]; [unfold Len in Hn; lia|].
  destruct (lookup_lt_is_Some_2 (q_els q) (min_child n i q)) as [y Hy]; [unfold Len in Hn; lia|].
  rewrite (Swap_els _ _ _ _ _ Hx Hy), !list_lookup_insert_ne by lia. done.
Qed.
Lemma down_index fuel i n q : i ≤ (down fuel i n q).2.
Proof.
  revert i q. induction fuel as [|fuel IH]; intros i q; [done|]. rewrite down_eq. case_bool_decide as Hj1; simpl; [done|].
  destruct (negb _); [done|]. destruct (min_child_spec n i q ltac:(lia)) as (Hj & Hp & _).
  pose proof (parent_lt (min_child n i q) ltac:(lia)). specialize (IH (min_child n i q) (Swap i (min_child n i q) q)). lia.
Qed.
(** Whether the element was moved down. *)
Lemma down_cases fuel i n q :
  0 < fuel →
  down fuel i n q = (q, i) ∧ (∀ k, 0 < k < n → parent k = i → (key q i ≤ key q k)%Z) ∨
  i < (down fuel i n q).2 ∧ ∃ k, 0 < k < n ∧ parent k = i ∧ (key q k < key q i)%Z.
Proof.
  destruct fuel as [|fuel]; [lia|]. intros _. rewrite down_eq. case_bool_decide as Hj1; simpl.
  { left. split; [done|]. intros k Hk [?|?]%parent_child; lia. }
  destruct (min_child_spec n i q ltac:(lia)) as (Hj & Hp & Hmin). unfold Less. case_bool_decide as Hl; simpl.
  - right. pose proof (parent_lt (min_child n i q) ltac:(lia)).
    pose proof (down_index fuel (min_child n i q) n (Swap i (min_child n i q) q)). split; [lia|eauto].
  - left. split; [done|]. intros k Hk He. specialize (Hmin k Hk He). lia.
Qed.

(** ** The queue *)
Definition queue_ok (q : queue) : Prop := heap (Len q) q ∧ indexed q.
Lemma heap_min n q k : heap n q → k < n → (key q 0 ≤ key q k)%Z.
Proof.
  intros Hh. induction (lt_wf k) as [k _ IH]. intros Hk. destruct (decide (k = 0)) as [->|]; [done|].
  pose proof (parent_lt k ltac:(lia)) as Hp. pose proof (Hh k ltac:(lia)). specialize (IH (parent k) Hp ltac:(lia)). lia.
Qed.
Lemma key_take n q ix k : k < n → key (mkQueue (take n (q_els q)) ix) k = key q k.
Proof. intros Hk. unfold key. simpl. by rewrite lookup_take_lt. Qed.

Lemma Push_ok e q : queue_ok q → a_id e ∉ a_id <$> q_els q → queue_ok (heap_Push e q) ∧ q_els (heap_Push e q) ≡ₚ e :: q_els q.
Proof.
  intros [Hh (Hnd & Hix & Hxi)] Hfresh. unfold heap_Push. set (q1 := aq_Push e q).
  assert (Len q1 = S (Len q)) as Hlen by (unfold Len; simpl; rewrite length_app; simpl; lia).
  assert (∀ k, k < Len q → key q1 k = key q k) as Hkey by (intros k Hk; unfold key; simpl; by rewrite lookup_app_l).
  assert (indexed q1) as Hi1.
  { split; [|split]; simpl.
    - rewrite fmap_app. apply NoDup_app. split; [done|]. split; [|apply NoDup_singleton]. intros x Hx ->%list_elem_of_singleton. done.
    - intros i a [Ha|[Hl Ha]]%lookup_app_Some.
      + rewrite lookup_insert_ne; [by apply Hix|]. intros He. apply Hfresh. rewrite He. apply list_elem_of_fmap. exists a. split; [done|by eapply list_elem_of_lookup_2].
      + destruct (i - length (q_els q)) eqn:Hd; [|done]. injection Ha as <-. rewrite lookup_insert_eq. unfold Len. do 2 f_equal. lia.
    - intros id i. destruct (decide (id = a_id e)) as [->|Hne].
      + rewrite lookup_insert_eq. intros [= <-%Nat2Z.inj]. exists e. split; [|done]. unfold Len. rewrite lookup_app_r, Nat.sub_diag by lia. done.
      + rewrite lookup_insert_ne by done. intros (a & Ha & ?)%Hxi. exists a. split; [|done]. by apply lookup_app_l_Some. }
  destruct (up_swapped (Len q1) (Len q1 - 1) q1) as [Hp Hi]. split; [split|].
  - assert (Len (up (Len q1) (Len q1 - 1) q1) = Len q1) as -> by (by apply swapped_Len). apply up_heap; [|lia..]. rewrite Hlen. split.
    + intros k Hk Hne. pose proof (parent_lt k ltac:(lia)). rewrite !Hkey by lia. apply Hh. lia.
    + intros k Hk Hpk. pose proof (parent_lt k ltac:(lia)). lia.
  - by apply Hi.
  - rewrite Hp. simpl. by rewrite (comm (++)).
Qed.
Lemma up_beyond fuel j m q : j < m → m < Len q → q_els (up fuel j q) !! m = q_els q !! m.
Proof.
  revert j q. induction fuel as [|fuel IH]; intros j q Hj Hm; [done|]. simpl. destruct (_ || _) eqn:Hb; [done|].
  apply orb_false_elim in Hb as [Hb%bool_decide_eq_false _]. assert (parent j < j) as Hp by (apply parent_lt; destruct j; [by destruct Hb|lia]).
  rewrite IH by (rewrite ?Swap_Len; lia). destruct (lookup_lt_is_Some_2 (q_els q) (parent j)) as [x Hx]; [unfold Len in Hm; lia|].
  destruct (lookup_lt_is_Some_2 (q_els q) j) as [y Hy]; [unfold Len in Hm; lia|]. by rewrite (Swap_els _ _ _ _ _ Hx Hy), !list_lookup_insert_ne by lia.
Qed.
Lemma aq_Pop_ok q e n :
  q_els q !! n = Some e → Len q = S n → heap n q → indexed q →
  ∃ q', aq_Pop q = Some (e, q') ∧ queue_ok q' ∧ q_els q = q_els q' ++ [e] ∧ q_index q' !! a_id e = Some (-1)%Z.
Proof.
  intros He Hl Hh (Hnd & Hix & Hxi). assert (q_els q = take n (q_els q) ++ [e]) as Hels.
  { rewrite <- (take_drop n (q_els q)) at 1. f_equal. rewrite (drop_S _ e) by done. by rewrite drop_ge by (unfold Len in Hl; lia). }
  assert (last (q_els q) = Some e) as Hlast by (rewrite Hels; apply last_snoc).
  eexists. split; [unfold aq_Pop; rewrite Hlast; simpl; replace (Len q - 1) with n by lia; reflexivity|]. simpl.
  split; [|split; [done|apply lookup_insert_eq]]. split.
  - unfold heap, Len. simpl. rewrite length_take. intros k Hk. pose proof (parent_lt k ltac:(lia)). rewrite !key_take by lia. apply Hh. lia.
  - rewrite Hels, fmap_app in Hnd. apply NoDup_app in Hnd as (Hnd & Hdis & _). split; [done|]. split; simpl.
    2: { intros id i. destruct (decide (id = a_id e)) as [->|Hne]; [rewrite lookup_insert_eq; intros [= ?]; lia|].
      rewrite lookup_insert_ne by done. intros (a & Ha & Hid)%Hxi. exists a. split; [|done].
      pose proof (lookup_lt_Some _ _ _ Ha). unfold Len in Hl. rewrite lookup_take_lt; [done|]. destruct (decide (i = n)) as [->|]; [congruence|lia]. }
    intros i a Ha. rewrite lookup_insert_ne; [apply Hix; by eapply lookup_take_Some in Ha as [? _]|]. intros Hid.
    apply (Hdis (a_id a)); [apply list_elem_of_fmap; exists a; split; [done|by eapply list_elem_of_lookup_2]|]. apply list_elem_of_singleton. by rewrite <- Hid.
Qed.

(** Taking out the first element. *)
Lemma Pop_ok q :
  queue_ok q → 0 < Len q →
  ∃ e q', heap_Pop q = Some (e, q') ∧ queue_ok q' ∧ q_els q ≡ₚ e :: q_els q' ∧ q_index q' !! a_id e = Some (-1)%Z ∧
    (∀ a, a ∈ q_els q → (a_deadline e ≤ a_deadline a)%Z).
Proof.
  intros [Hh Hi] Hl. set (n := Len q - 1). destruct (lookup_lt_is_Some_2 (q_els q) 0) as [e He]; [done|].
  destruct (lookup_lt_is_Some_2 (q_els q) n) as [y Hy]; [unfold n, Len in *; lia|].
  set (q1 := Swap 0 n q). set (q2 := (down (Len q) 0 n q1).1).
  destruct (down_swapped (Len q) 0 n q1) as [Hp2 Hi2]. fold q2 in Hp2, Hi2.
  assert (Len q2 = Len q) as Hl2 by (rewrite <- (Swap_Len 0 n q); by apply Permutation_length).
  assert (q_els q2 !! n = Some e) as He2.
  { unfold q2. rewrite down_beyond by (unfold q1; rewrite ?Swap_Len; lia). unfold q1. rewrite (Swap_els _ _ _ _ _ He Hy).
    apply list_lookup_insert_eq. rewrite length_insert. unfold n, Len in *. lia. }
  assert (heap n q2) as Hh2.
  { destruct (decide (n = 0)) as [Hn0|Hn0]; [intros k; lia|]. apply down_heap; [|lia|unfold q1; rewrite Swap_Len; lia|lia].
    split; [|lia]. intros k Hk Hpk. pose proof (parent_lt k ltac:(lia)). unfold q1. rewrite !Swap_key by lia.
    rewrite !decide_False by lia. apply Hh. lia. }
  destruct (aq_Pop_ok q2 e n He2 ltac:(lia) Hh2 (Hi2 (Swap_indexed _ _ _ Hi))) as (q3 & Hpop & Hok & Hels & Hidx).
  exists e, q3. split_and!; [done|done| |done|].
  - etrans; [symmetry; apply (Swap_perm 0 n q)|]. fold q1. rewrite <- Hp2, Hels. by rewrite (comm (++)).
  - intros a [k Hk]%list_elem_of_lookup_1. pose proof (heap_min _ _ k Hh ltac:(by eapply lookup_lt_Some)) as Hmin.
    unfold key in Hmin. by rewrite He, Hk in Hmin.
Qed.

(** Cancelling an action: its index is where it is. *)
Lemma Remove_ok q i e :
  queue_ok q → q_els q !! i = Some e →
  ∃ q', heap_Remove i q = Some (e, q') ∧ queue_ok q' ∧ q_els q ≡ₚ e :: q_els q' ∧ q_index q' !! a_id e = Some (-1)%Z.
Proof.
  intros [Hh Hi] He. pose proof (lookup_lt_Some _ _ _ He) as Hil. set (n := Len q - 1). unfold heap_Remove. fold n.
  assert (∀ q2, swapped q q2 → q_els q2 !! n = Some e → heap n q2 →
    ∃ q', aq_Pop q2 = Some (e, q') ∧ queue_ok q' ∧ q_els q ≡ₚ e :: q_els q' ∧ q_index q' !! a_id e = Some (-1)%Z) as Hfin.
  { intros q2 [Hp2 Hi2] He2 Hh2. destruct (aq_Pop_ok q2 e n He2) as (q3 & Hpop & Hok & Hels & Hidx); [|done|by apply Hi2|].
    - assert (Len q2 = Len q) as -> by (by apply Permutation_length). unfold n, Len. lia.
    - exists q3. split_and!; [done|done| |done]. rewrite <- Hp2, Hels. by rewrite (comm (++)). }
  case_bool_decide as Hni; [apply Hfin; [apply swapped_refl|by rewrite Hni|intros k Hk; apply Hh; unfold n in Hk; lia]|].
  destruct (lookup_lt_is_Some_2 (q_els q) n) as [y Hy]; [unfold n, Len in *; lia|]. unfold Len in *. set (L := length (q_els q)) in *.
  set (q1 := Swap i n q). assert (Len q1 = L) as Hl1 by apply Swap_Len. assert (length (q_els q1) = L) as Hl1' by exact Hl1. assert (q_els q1 !! n = Some e) as He1.
  { unfold q1. rewrite (Swap_els _ _ _ _ _ He Hy). apply list_lookup_insert_eq. rewrite length_insert. unfold n. lia. }
  assert (∀ k, 0 < k < n → k ≠ i → parent k ≠ i → (key q1 (parent k) ≤ key q1 k)%Z) as Hother.
  { intros k Hk Hki Hpk. pose proof (parent_lt k ltac:(lia)). unfold q1. rewrite !Swap_key by (unfold Len; lia). rewrite !decide_False by lia.
    apply Hh. lia. }
  assert (∀ k, 0 < k < n → parent k = i → 0 < i → (key q1 (parent i) ≤ key q1 k)%Z) as Hgrand.
  { intros k Hk Hpk H0. pose proof (parent_lt k ltac:(lia)). pose proof (parent_lt i ltac:(lia)). unfold q1. rewrite !Swap_key by (unfold Len; lia).
    rewrite !decide_False by lia. pose proof (Hh k ltac:(lia)) as Hki. pose proof (Hh i ltac:(lia)). rewrite Hpk in Hki. lia. }
  destruct (down_cases L i n q1 ltac:(lia)) as [[Hd Hc]|[Hmoved (k & Hk & Hpk & Hlt)]].
  - rewrite Hd. rewrite bool_decide_eq_false_2 by lia. apply Hfin.
    + eapply swapped_Swap. apply up_swapped.
    + rewrite up_beyond; [done|lia|lia].
    + apply up_heap; [|lia..]. split; [|done]. intros k Hk Hki. destruct (decide (parent k = i)) as [Hpk|]; [rewrite Hpk; by apply Hc|by apply Hother].
  - destruct (down L i n q1) as [q2 i'] eqn:Hdown. simpl in Hmoved. rewrite bool_decide_eq_true_2 by done.
    replace q2 with (down L i n q1).1 by (by rewrite Hdown). apply Hfin.
    + eapply swapped_Swap. apply down_swapped.
    + by rewrite down_beyond by lia.
    + apply down_heap; [|lia..]. split; [|done]. intros k' Hk' Hne. destruct (decide (k' = i)) as [->|]; [|by apply Hother].
      specialize (Hgrand k Hk Hpk ltac:(lia)). lia.
Qed.

(** ** runtime.go, process.go, chan.go

    The runtime with its processes and channels.  [s_active] is nrActiveProcs; [s_fn] is the process that an action
    activates; the queues of a channel hold processes with the Go channel they wait on, and
    [s_waiting] has the Go channel a process is blocked on and whether it sends. *)
Record Process := mkProcess { p_active : bool; p_killed : bool }.
Record Chan := mkChan { recvProcs : list (nat * nat); sendProcs : list (nat * nat) }.
Record Sim := mkSim {
  s_now : Z; s_queue : queue; s_next : nat; s_active : Z; s_procs : gmap nat Process; s_fn : gmap nat nat;
  s_chans : gmap nat Chan; s_waiting : gmap nat (nat * bool);
}.
Definition NewRuntime : Sim := mkSim 0 (mkQueue [] ∅) 0 0 ∅ ∅ ∅ ∅.

Definition with_queue (q : queue) (s : Sim) : Sim := mkSim (s_now s) q (s_next s) (s_active s) (s_procs s) (s_fn s) (s_chans s) (s_waiting s).
Definition with_now (t : Z) (s : Sim) : Sim := mkSim t (s_queue s) (s_next s) (s_active s) (s_procs s) (s_fn s) (s_chans s) (s_waiting s).
Definition with_proc (p : nat) (x : Process) (n : Z) (s : Sim) : Sim :=
  mkSim (s_now s) (s_queue s) (s_next s) n (<[p := x]> (s_procs s)) (s_fn s) (s_chans s) (s_waiting s).
Definition with_chan (c : nat) (ch : Chan) (p w : nat) (sends : bool) (s : Sim) : Sim :=
  mkSim (s_now s) (s_queue s) (S (s_next s)) (s_active s) (s_procs s) (s_fn s) (<[c := ch]> (s_chans s)) (<[p := (w, sends)]> (s_waiting s)).

Definition proc (p : nat) (s : Sim) : Process := default (mkProcess false false) (s_procs s !! p).
Definition activate (p : nat) (s : Sim) : Sim :=
  if negb (p_active (proc p s)) && negb (p_killed (proc p s)) then with_proc p (mkProcess true false) (s_active s + 1) s else s.
Definition deactivate (p : nat) (s : Sim) : Sim :=
  if p_active (proc p s) then with_proc p (mkProcess false (p_killed (proc p s))) (s_active s - 1) s else s.
Definition Spawn (s : Sim) : nat * Sim :=
  let p := fresh (dom (s_procs s)) in (p, activate p (with_proc p (mkProcess false false) (s_active s) s)).
Definition Exit (p : nat) (s : Sim) : Sim := deactivate p s.
Definition Kill (p : nat) (s : Sim) : Sim :=
  let s := deactivate p s in with_proc p (mkProcess (p_active (proc p s)) true) (s_active s) s.

(** int64 arithmetic wraps around; a sum that has is negative. *)
Definition timeAfter (d : Z) (s : Sim) : outcome Z :=
  let t := wrap_i64 (s_now s + d) in if bool_decide (t < 0)%Z then Panic (ExplicitPanic "Time overflow") else Ok t.
Definition schedule (t : Z) (p : nat) (s : Sim) : nat * Sim :=
  let e := s_next s in
  (e, mkSim (s_now s) (heap_Push (mkAction e t) (s_queue s)) (S e) (s_active s) (s_procs s) (<[e := p]> (s_fn s)) (s_chans s) (s_waiting s)).
Definition unschedule (e : nat) (s : Sim) : outcome Sim :=
  match q_index (s_queue s) !! e with
  | Some i =>
      if bool_decide (0 ≤ i)%Z then
        match heap_Remove (Z.to_nat i) (s_queue s) with
        | Some (_, q) => Ok (with_queue (mkQueue (q_els q) (<[e := (-1)%Z]> (q_index q))) s)
        | None => Panic IndexOutOfRange
        end
      else Ok s
  | None => Panic NilDeref
  end.
(** [Delay] up to waiting: the action it scheduled. *)
Definition Delay (p : nat) (d : Z) (s : Sim) : outcome (nat * Sim) :=
  t ← timeAfter d s; let '(e, s) := schedule t p s in Ok (e, deactivate p s).
(** [doStepLocked]: the earliest action is executed. *)
Definition doStep (s : Sim) : option (action * Sim) :=
  '(e, q) ← heap_Pop (s_queue s);
  p ← s_fn s !! a_id e;
  Some (e, activate p (with_now (a_deadline e) (with_queue q s))).
(** The loop conditions of [Run] and [Step] (no limit) and of [RunFor] (until time [t]). *)
Definition top (q : queue) : option action := head (q_els q).
Definition run_continues (limit : option Z) (s : Sim) : bool :=
  match top (s_queue s), limit with
  | None, _ => false
  | Some _, None => true
  | Some e, Some t => bool_decide (a_deadline e ≤ t)%Z
  end.
(** [waitQuiescence] returns. *)
Definition quiescent (s : Sim) : Prop := s_active s = 0%Z.

(** [send] and [recv] up to the select. *)
Definition chan (c : nat) (s : Sim) : Chan := default (mkChan [] []) (s_chans s !! c).
Definition send (c p : nat) (s : Sim) : Sim :=
  let ch := chan c s in
  match recvProcs ch with
  | (p', w) :: rest => activate p' (with_chan c (mkChan rest (sendProcs ch)) p w true s)
  | [] => let w := s_next s in deactivate p (with_chan c (mkChan [] (sendProcs ch ++ [(p, w)])) p w true s)
  end.
Definition recv (c p : nat) (s : Sim) : Sim :=
  let ch := chan c s in
  match sendProcs ch with
  | (p', w) :: rest => activate p' (with_chan c (mkChan (recvProcs ch) rest) p w false s)
  | [] => let w := s_next s in deactivate p (with_chan c (mkChan (recvProcs ch ++ [(p, w)]) []) p w false s)
  end.
(** The select of [send] or [recv] is over: the value was exchanged, or the process was killed. *)
Definition resume (p : nat) (s : Sim) : Sim :=
  mkSim (s_now s) (s_queue s) (s_next s) (s_active s) (s_procs s) (s_fn s) (s_chans s) (delete p (s_waiting s)).

(** A simulation: what processes do, and the steps of [Run], [RunFor] and [Step] once no process is active. *)
Inductive sim_step (s : Sim) : Sim → Prop :=
| sim_spawn : sim_step s (Spawn s).2
| sim_exit p : is_Some (s_procs s !! p) → sim_step s (Exit p s)
| sim_kill p : is_Some (s_procs s !! p) → sim_step s (Kill p s)
| sim_delay p d e s' : is_Some (s_procs s !! p) → (0 ≤ d < 2 ^ 63)%Z → Delay p d s = Ok (e, s') → sim_step s s'
| sim_cancel e s' : unschedule e s = Ok s' → sim_step s s'
| sim_send c p : is_Some (s_procs s !! p) → sim_step s (send c p s)
| sim_recv c p : is_Some (s_procs s !! p) → sim_step s (recv c p s)
| sim_resume p : sim_step s (resume p s)
| sim_do e s' : quiescent s → doStep s = Some (e, s') → sim_step s s'.

Definition active_procs (m : gmap nat Process) : Z := Z.of_nat (size (filter (λ kv, p_active kv.2 = true) m)).
Record SimInv (s : Sim) : Prop := {
  si_now : (0 ≤ s_now s < 2 ^ 63)%Z;
  si_queue : queue_ok (s_queue s);
  si_future a : a ∈ q_els (s_queue s) → (s_now s ≤ a_deadline a < 2 ^ 63)%Z ∧ a_id a < s_next s ∧ is_Some (s_fn s !! a_id a);
  si_active : s_active s = active_procs (s_procs s);
}.
Definition one (x : Process) : Z := if p_active x then 1 else 0.
Lemma active_insert m p x : active_procs (<[p := x]> m) = (active_procs (delete p m) + one x)%Z.
Proof.
  rewrite <- insert_delete_eq. unfold active_procs, one. destruct (p_active x) eqn:Hx.
  - rewrite map_filter_insert_True by done. rewrite map_size_insert_None; [lia|]. apply map_lookup_filter_None. left. apply lookup_delete_eq.
  - rewrite map_filter_insert_False by (simpl; congruence). rewrite delete_delete_eq. lia.
Qed.
Lemma active_split m p : active_procs m = (active_procs (delete p m) + one (default (mkProcess false false) (m !! p)))%Z.
Proof.
  destruct (m !! p) as [x|] eqn:Hp; simpl.
  - rewrite <- active_insert. by rewrite insert_id.
  - rewrite delete_id by done. unfold one. simpl. lia.
Qed.
(** Changing a process. *)
Lemma with_proc_inv s p x n :
  SimInv s → n = (s_active s + one x - one (proc p s))%Z → SimInv (with_proc p x n s).
Proof.
  intros [H1 H2 H3 H4] Hn. split; simpl; try done. rewrite active_insert. rewrite (active_split _ p) in H4. unfold proc in Hn. lia.
Qed.
Lemma activate_inv p s : SimInv s → SimInv (activate p s).
Proof.
  intros Hi. unfold activate. destruct (proc p s) as [[] []] eqn:Hp; simpl; try done.
  apply with_proc_inv; [done|]. rewrite Hp. unfold one. simpl. lia.
Qed.
Lemma deactivate_inv p s : SimInv s → SimInv (deactivate p s).
Proof.
  intros Hi. unfold deactivate. destruct (proc p s) as [[] k] eqn:Hp; simpl; [|done].
  apply with_proc_inv; [done|]. rewrite Hp. unfold one. simpl. lia.
Qed.
Lemma with_chan_inv c ch p w b s : SimInv s → SimInv (with_chan c ch p w b s).
Proof. intros [H1 H2 H3 H4]. split; simpl; try done. intros a Ha. specialize (H3 a Ha). naive_solver lia. Qed.
(** The time of an action is not before the present: a sum that overflows is caught. *)
Lemma timeAfter_later d s t : (0 ≤ s_now s < 2 ^ 63)%Z → (0 ≤ d < 2 ^ 63)%Z → timeAfter d s = Ok t → t = (s_now s + d)%Z ∧ (t < 2 ^ 63)%Z.
Proof.
  intros Hn Hd. unfold timeAfter. case_bool_decide as Ht; [done|]. intros [= <-]. unfold wrap_i64 in *.
  destruct (decide (s_now s + d < 2 ^ 63)%Z) as [Hs|Hs].
  - rewrite Z.mod_small by lia. lia.
  - destruct Ht. replace (s_now s + d + 2 ^ 63)%Z with ((s_now s + d - 2 ^ 63) + 1 * 2 ^ 64)%Z by lia.
    rewrite Z.mod_add by lia. rewrite Z.mod_small by lia. lia.
Qed.
Lemma schedule_inv t p s : SimInv s → (s_now s ≤ t < 2 ^ 63)%Z → SimInv (schedule t p s).2.
Proof.
  intros [H1 H2 H3 H4] Ht. simpl. destruct (Push_ok (mkAction (s_next s) t) (s_queue s) H2) as [Hq Hp].
  { simpl. intros (a & Hid & Ha)%list_elem_of_fmap. destruct (H3 a Ha) as (_ & Hlt & _). lia. }
  split; simpl; try done. intros a. rewrite Hp. intros [->|Ha]%elem_of_cons; simpl.
  - split; [lia|]. split; [lia|]. rewrite lookup_insert_eq. eauto.
  - destruct (H3 a Ha) as (? & ? & ?). split; [lia|]. split; [lia|]. rewrite lookup_insert_ne by lia. done.
Qed.
Lemma unschedule_inv e s s' : SimInv s → unschedule e s = Ok s' → SimInv s'.
Proof.
  intros [H1 H2 H3 H4]. unfold unschedule. destruct (q_index (s_queue s) !! e) as [i|] eqn:Hi; [|done]. case_bool_decide as Hpos; [|by intros [= <-]].
  pose proof H2 as [_ (_ & _ & Hxi)]. rewrite <- (Z2Nat.id i) in Hi by done. destruct (Hxi _ _ Hi) as (a & Ha & <-).
  destruct (Remove_ok _ _ _ H2 Ha) as (q & -> & Hq & Hp & Hix). rewrite insert_id by done. intros [= <-].
  split; simpl; try done. intros a' Ha'. apply H3. rewrite Hp. by right.
Qed.
Lemma doStep_spec s e s' :
  SimInv s → doStep s = Some (e, s') →
  SimInv s' ∧ s_now s' = a_deadline e ∧ (s_now s ≤ a_deadline e)%Z ∧ e ∈ q_els (s_queue s) ∧ (∀ a, a ∈ q_els (s_queue s) → (a_deadline e ≤ a_deadline a)%Z).
Proof.
  intros [H1 H2 H3 H4]. unfold doStep. destruct (decide (Len (s_queue s) = 0)) as [Hl|Hl].
  { unfold heap_Pop, aq_Pop. destruct (q_els (s_queue s)) eqn:Hq; [|unfold Len in Hl; rewrite Hq in Hl; done].
    assert (∀ f i n, down f i n (Swap 0 (Len (s_queue s) - 1) (s_queue s)) = down f i n (s_queue s)) as -> by (unfold Swap; by rewrite Hq).
    rewrite Hl. simpl. by rewrite Hq. }
  destruct (Pop_ok _ H2 ltac:(lia)) as (e0 & q & -> & Hq & Hp & _ & Hmin). cbn [mbind option_bind].
  destruct (s_fn s !! a_id e0) as [p|]; [|done]. cbn [mbind option_bind]. intros [= <- <-].
  assert (e0 ∈ q_els (s_queue s)) as Hin by (rewrite Hp; by left). destruct (H3 _ Hin) as ([Hle Hlt] & _ & _). split_and!; try done.
  - apply activate_inv. split; simpl; try done; [lia|]. intros a Ha. destruct (H3 a) as ([? ?] & ? & ?); [rewrite Hp; by right|].
    split_and!; [|done..]. apply Hmin. rewrite Hp. by right.
  - unfold activate. by destruct (proc p _) as [[] []].
Qed.
(** [RunFor] executes exactly the actions that are due: it goes on as long as there is one, with one that is due,
    and when it stops every action that is left lies beyond the limit. *)
Lemma run_continues_spec t s :
  SimInv s →
  (run_continues (Some t) s = true → ∃ e s', doStep s = Some (e, s') ∧ (a_deadline e ≤ t)%Z) ∧
  (run_continues (Some t) s = false → ∀ a, a ∈ q_els (s_queue s) → (t < a_deadline a)%Z).
Proof.
  intros Hi. pose proof Hi as [H1 H2 H3 H4]. unfold run_continues, top.
  destruct (q_els (s_queue s)) as [|e l] eqn:Hq; simpl; [split; [done|]; by intros _ a ?%elem_of_nil|].
  assert (∀ a, a ∈ e :: l → (a_deadline e ≤ a_deadline a)%Z) as Hmin.
  { intros a [k Hk]%list_elem_of_lookup. pose proof (heap_min _ _ k (proj1 H2)) as Hm. unfold key, Len in Hm. rewrite Hq in Hm.
    rewrite Hk in Hm. apply Hm. by apply lookup_lt_Some in Hk. }
  destruct (Pop_ok _ H2) as (e0 & q & Hpop & Hq0 & Hp & _ & Hm0); [unfold Len; rewrite Hq; simpl; lia|].
  assert (e0 ∈ q_els (s_queue s)) as Hin by (rewrite Hp; by left). destruct (si_future _ Hi _ Hin) as (_ & _ & [p Hfn]). split.
  - intros Ht%bool_decide_eq_true. unfold doStep. rewrite Hpop. cbn [mbind option_bind]. rewrite Hfn. cbn [mbind option_bind].
    eexists e0, _. split; [done|]. specialize (Hm0 e). rewrite Hq in Hm0. specialize (Hm0 ltac:(by left)). lia.
  - intros Ht%bool_decide_eq_false a Ha. specialize (Hmin a Ha). lia.
Qed.
Lemma sim_step_inv s s' : SimInv s → sim_step s s' → SimInv s' ∧ (s_now s ≤ s_now s')%Z.
Proof.
  assert (∀ p s, s_now (activate p s) = s_now s ∧ s_now (deactivate p s) = s_now s) as Hnow.
  { intros p s0. unfold activate, deactivate. by destruct (proc p s0) as [[] []]. }
  intros Hi [ |p _|p _|p d e s1 _ Hd Hdel|e s1 Hu|c p _|c p _|p|e s1 Hq Hdo].
  - unfold Spawn. simpl. rewrite (proj1 (Hnow _ _)). split; [|done]. apply activate_inv, with_proc_inv; [done|].
    unfold proc. rewrite (proj1 (not_elem_of_dom _ _)) by apply is_fresh. unfold one. simpl. lia.
  - unfold Exit. rewrite (proj2 (Hnow _ _)). split; [by apply deactivate_inv|done].
  - unfold Kill. simpl. rewrite (proj2 (Hnow _ _)). split; [|done]. apply with_proc_inv; [by apply deactivate_inv|]. unfold one. simpl. lia.
  - unfold Delay in Hdel. destruct (timeAfter d s) as [t| |] eqn:Ht; [|done..].
    destruct (timeAfter_later _ _ _ (si_now _ Hi) Hd Ht) as [-> Hlt]. cbn in Hdel. injection Hdel as <- <-.
    rewrite (proj2 (Hnow _ _)). split; [|done]. apply deactivate_inv, (schedule_inv _ p); [done|lia].
  - split; [by eapply unschedule_inv|]. revert Hu. unfold unschedule. destruct (_ !! e); [|done]. case_bool_decide; [|by intros [= <-]].
    destruct (heap_Remove _ _) as [[a q]|]; [|done]. by intros [= <-].
  - unfold send. destruct (recvProcs _) as [|[p' w] rest]; rewrite ?(proj1 (Hnow _ _)), ?(proj2 (Hnow _ _)); (split; [|done]);
      [by apply deactivate_inv, with_chan_inv|by apply activate_inv, with_chan_inv].
  - unfold recv. destruct (sendProcs _) as [|[p' w] rest]; rewrite ?(proj1 (Hnow _ _)), ?(proj2 (Hnow _ _)); (split; [|done]);
      [by apply deactivate_inv, with_chan_inv|by apply activate_inv, with_chan_inv].
  - split; [|done]. destruct Hi as [H1 H2 H3 H4]. by split.
  - destruct (doStep_spec _ _ _ Hi Hdo) as (? & -> & ? & _). done.
Qed.
Lemma sim_run_inv s : rtc sim_step NewRuntime s → SimInv s.
Proof.
  intros Hr. assert (SimInv NewRuntime) as Hi.
  { split; simpl; try done.
    - split; [intros k; simpl; unfold Len; simpl; lia|]. split; [constructor|]. by split.
    - intros a Ha. by apply elem_of_nil in Ha. }
  revert Hi. induction Hr as [|s1 s2 s3 Hs _ IH]; intros Hi; [done|]. by apply IH, (sim_step_inv s1).
Qed.


(** A receiver that is killed stays in the channel's queue: a later sender is given its Go channel, on
    which nobody receives any more, and waits there while it counts as active, so that the runtime
    never becomes quiescent. *)
Theorem send_to_killed_receiver c p p' w rest s :
  SimInv s → recvProcs (chan c s) = (p', w) :: rest → p_killed (proc p' s) = true → p_active (proc p s) = true → p ≠ p' →
  ¬ quiescent (send c p s) ∧ s_waiting (send c p s) !! p = Some (w, true) ∧ p_active (proc p (send c p s)) = true.
Proof.
  intros Hi Hr Hk Ha Hne. unfold send. rewrite Hr. unfold activate, proc. simpl. fold (proc p' s). rewrite Hk, andb_false_r. simpl.
  split; [|split; [apply lookup_insert_eq|exact Ha]]. unfold quiescent. simpl. rewrite (si_active _ Hi), (active_split _ p).
  fold (proc p s). unfold one. rewrite Ha. unfold active_procs. lia.
Qed.

(** Two processes that delay. *)
Module SimToy.
Definition s1 : Sim := (Spawn (Spawn NewRuntime).2).2.
Definition s2 : Sim := match Delay 0 20 s1 with Ok (_, s) => s | _ => s1 end.
Definition s3 : Sim := match Delay 1 10 s2 with Ok (_, s) => s | _ => s2 end.
Lemma run_s3 : rtc sim_step NewRuntime s3.
Proof.
  eapply rtc_l; [apply sim_spawn|]. eapply rtc_l; [apply sim_spawn|]. fold s1.
  eapply rtc_l; [apply (sim_delay s1 0 20 0 s2); [vm_compute; eauto|lia|vm_compute; reflexivity]|].
  apply rtc_once. apply (sim_delay s2 1 10 1 s3); [vm_compute; eauto|lia|vm_compute; reflexivity].
Qed.
End SimToy.
